(* ===== verification/_CoqProject ===== *)
-Q . S2P
Prelude.v
Bytes.v
GixHash.v
Keys.v
Values.v
Zlib.v
PackDelta.v
PackOut.v
SlateDb.v
Store.v
GixObject.v
Walk.v
Graph.v
Discovery.v
Collect.v
Effects.v
Ingest.v
Promote.v
Repo.v
Quiet.v
ObjectDb.v
PlanPack.v
Pkt.v
Errors.v
Http.v
Advertise.v
Stream.v
UploadPack.v
ReceivePack.v
UploadPackV0.v
Server.v
Backend.v
Serve.v
Config.v
SingleFlight.v
PartCache.v
FsCache.v
Evictor.v
