(* ===== verification/Prelude.v ===== *)
(** * Miscreant: a verification library for the storage and protocol core

    Miscreant is a git server whose repositories live in object storage: refs,
    objects and a commit graph in SlateDB, large blobs beside it, git's smart
    HTTP protocol in front.  File names below are relative to the repository's
    crate, [src/] being its source directory.

    ** The program's parts, and where each is modelled

    Requests come down from the routes to the stores, and the files follow.

    - HTTP ([src/lib.rs], [src/protocol/http.rs]): names, parameters and
      responses in Http.v; the routes, the entry points of the handlers and the
      resolution of a repository in Server.v ([app], [info_refs], [git_rpc]).
    - Advertisements ([src/protocol/advertise.rs]): Advertise.v.
    - Fetch, protocol v2 ([src/protocol/upload_pack.rs]): requests and commands
      in UploadPack.v ([parse_request], [ls_refs], [fetch], [object_info]),
      planning in PlanPack.v ([plan_pack]), streaming in Stream.v
      ([stream_pack]).
    - Fetch, classic ([src/protocol/upload_pack_v0.rs]): UploadPackV0.v.
    - Push ([src/protocol/receive_pack.rs]): ReceivePack.v ([push]).
    - Error classes ([src/error.rs]): Errors.v.
    - The walk behind a fetch ([src/git/walk.rs]): shared reads and the store's
      interface in Walk.v, the commit graph in Graph.v ([get_commit_info],
      [rebuild_commit_graph]), which commits to send in Discovery.v
      ([select_commits]), which objects in Collect.v ([collect]); Effects.v
      says what all of it keeps.
    - Pack assembly ([src/git/pack_out.rs]): the delta encoder in PackDelta.v
      ([make_delta]), entries and the writer loop in PackOut.v ([write_pack]).
    - Receiving a pack ([src/git/ingest.rs], [src/git/promote.rs]): Ingest.v
      ([ingest_pack]), Promote.v ([validate], [validate_and_promote]).
    - Objects ([src/storage/objectdb.rs], [blobs.rs], [zlib.rs]): ObjectDb.v
      ([odb_put], [odb_get], [read_compressed]), Zlib.v.
    - The store ([src/storage/store.rs], [keys.rs], [values.rs]): Store.v
      ([create_repo], [update_refs], the typed operations), Keys.v, Values.v.
    - The disk part cache ([src/storage/part_cache/]): SingleFlight.v
      ([single_flight.rs]), PartCache.v ([cached_store.rs]), FsCache.v (the
      files of [storage_fs.rs], and [storage.rs]), Evictor.v (its evictor).
    - Settings and start-up ([src/config.rs], [src/main.rs]): Config.v.

    Prelude.v and Bytes.v hold what all share: results, the state-and-error
    monad [SE] with its [do!] notation, the preservation tactic [keep] and its
    hints, list lemmas, machine integers as [Z] with [wrap] written out.

    ** What is not the program's

    Third-party code is an interface, a class with the laws its documentation
    states, and an implementation on which witnesses run: ids [OidLib]
    (GixHash.v), object parsers [ObjectLib] (GixObject.v), pkt-lines [PktLib]
    (Pkt.v), pack reading [PackLib] (Ingest.v), pack writing [PackWriter] and
    [PackFormat] (PackOut.v, Stream.v), zlib [ZlibLib] (Zlib.v), SlateDB
    [SlateDb] (SlateDb.v), the object store beside it [BlobLib] (ObjectDb.v),
    the once-cell [OnceCellLib] (SingleFlight.v), URLs [UrlLib] (Config.v).
    A database is its history of committed contents; other clients may commit
    between any two calls, and any call may fail.

    ** How the components meet

    A component is proved over the interface of the one below it, which that
    one discharges.  The walk sees a repository through [WalkStore] (Walk.v):
    maps of objects, refs and graph records, and what each call does to them.
    [PromoteStore] (Promote.v) adds writes and what a crash may leave,
    [RepoStore] (Repo.v) what the handlers ask for besides, [AppStore]
    (Server.v) the registry of all repositories.  Backend.v discharges the
    first three for [Store] and [ObjectDb] over SlateDB with one writer
    ([QuietDb], Quiet.v), reading the maps off the database's keys, whatever
    the stores hold; Serve.v discharges the last, and states what holds of the
    server from a fresh store on.  That the stores tell the truth is not part of
    their state: it is an invariant ([ps_intact]: records hold the content their
    ids name, and the registry is sound), which every operation is proved to
    keep as long as its caller puts content under the id that names it.
    [LocalCache] is in the same way between PartCache.v and FsCache.v.  The
    classes [LookupKeeps], [HistoryKeeps], [WalkKeeps], [ServeKeeps],
    [PromoteKeeps] and [RepoKeeps] turn a preorder that the store's calls keep
    into one every handler keeps.

    ** What the theorems show

    - The server as a whole: through any requests, from a fresh store, every
      stored object reads back as what its id names and no ref reaches a
      missing object, now or after a crash ([Serve.served_whole]); a request
      touches the repository it names and no other ([Server.app_isolated]).
      Of a pushed pack both ask that its ids name its objects; the first asks
      besides, of a push answered with a server error, that the references
      between its new objects follow the order the kinds are stored in, which
      the code does not check.
    - A fetch: answered with a real fault or an exact plan's pack
      ([UploadPack.fetch_serves], [UploadPackV0.upload_pack_v0_serves]), with
      no hole ([PlanPack.plan_pack_complete]) and nothing beside the point
      ([PlanPack.plan_pack_exact], [Discovery.select_commits_exact],
      [Discovery.select_commits_complete], [Collect.collect_exact]), its bytes
      delivered ([Stream.stream_pack_delivers]) and decodable
      ([PackOut.write_pack_correct], [PackDelta.make_delta_correct]); refs
      listed as documented ([UploadPack.ls_refs_exact]), the chains of symbolic
      refs or of tags that end exactly at a cap apart, where the code departs
      from its documentation ([UploadPack.symref_at_cap],
      [UploadPack.peel_ref_deep]).
    - A push: no ref reaches a missing object however it ends, and storage
      stays closed under references ([ReceivePack.push_keeps_whole],
      [Promote.promote_crash_safe], [Promote.promote_correct],
      [Promote.validate_correct], [Ingest.ingest_pack_spec]), reported
      truthfully ([ReceivePack.push_answers]).  Closed, that is, unless the
      promotion is cut short and a new object refers to a new one of a later
      kind: [Promote.promote_kind_gap] is such a pack, and it is accepted.
    - The stores: they refine finite maps ([Backend.backend_refines_maps]),
      with atomic batches and creations ([Store.update_refs_atomic],
      [Store.create_repo_atomic]), safe object writes
      ([ObjectDb.object_put_safe]), codecs that round-trip
      ([Keys.key_codecs], [Values.value_codecs]), and a commit graph that is
      what the commits call for ([Graph.rebuild_commit_graph_correct]).
    - The part cache: it serves the objects' bytes under any failures,
      evictions, interleavings, and crashes that lose what was not synced ([PartCache.cached_get_transparent],
      [FsCache.disk_cache_transparent], [FsCache.atomic_write_atomic],
      [PartCache.cached_get_available]), one fetch per part at a time and all
      of them end ([SingleFlight.single_flight_once],
      [SingleFlight.single_flight_live]), within its budget
      ([Evictor.evictor_accounts], [Evictor.write_within_budget]); and where a
      read panics ([PartCache.cold_suffix_panics]).
    - The wire and the settings: requests parse to what they say and nothing
      else parses ([UploadPack.parse_request_grammar],
      [UploadPack.fetch_request_roundtrip], [Http.repo_name_safe]); the
      storage URL names the place it points to
      ([Config.normalize_storage_url_canonical]), where it holds no escapes
      ([Config.url_taken_undecoded]).

    ** Bounds and fuel

    Loops that are not structural take fuel, and running out is an error of the
    model's own ([OutOfFuel], [POutOfFuel]) or, in the delta encoder, an outcome; each has a
    bound that is proved enough, and the theorems above rule the outcome out.
    The commit graph's traversal needs [graph_fuel], one pass per commit and
    edge; discovery [select_fuel]; collection a level per tree; validation
    [validate_fuel], one step per object and reference; the delta encoder the
    target's length; the evictor one round per tracked file, each with as many
    draws as its generator needs to come to any index.
    [UPDATE_REFS_ATTEMPTS], [CREATE_ATTEMPTS], [MAX_SYMREF_DEPTH] and
    [MAX_PEEL_DEPTH] are the code's own.  Machine integers keep their widths: a
    generation is below 2^32 in a history whose depth is, a commit-graph record
    needs at most 255 parents, repository ids stop at 2^64 - 1, where the
    counter saturates ([as_room] asks for one left).

    Requests are served one at a time in Server.v and above: concurrent pushes
    meet only in [update_refs] and [create_repo], which Store.v proves correct
    over a database where others commit at any point.  [names] in ObjectDb.v
    and above is the content each id names: that ids are hashes enters only
    there, and in histories having no cycles ([names_ranked], [ranked]).

    ** Not modelled

    Opening SlateDB and its caches and warming them ([Store::open_with_cache],
    [Store::warm_cache]), telemetry and counters ([src/telemetry.rs],
    [slatedb_metrics.rs], [part_cache/stats.rs]), the access log and the health
    and metrics endpoints ([src/lib.rs]), argument parsing, logging set-up,
    signals and the listener ([src/main.rs]): calls of libraries whose results
    nothing here reads.  Inside modelled files: timings, metrics and tracing;
    the prefetches' concurrency, whose results the code consumes in input
    order; percent-decoding, decompression and body limits, which are the HTTP
    library's; a restart, beyond what a crash may leave. *)

From stdpp Require Export base tactics list gmap fin_maps sets.
From Stdlib Require Export Strings.Byte ZArith.
From Stdlib Require Import Lia.

(** ** Results

    Rust's [Result<A, E>].  Fallible operations of the program return a
    [result]; the [?] operator is the [let?] notation below. *)

Inductive result (E A : Type) : Type :=
  | Ok (a : A)
  | Err (e : E).
Arguments Ok {E A} a.
Arguments Err {E A} e.

#[export] Instance result_ret E : MRet (result E) := fun A a => Ok a.
#[export] Instance result_bind E : MBind (result E) := fun A B f r =>
  match r with
  | Ok a => f a
  | Err e => Err e
  end.

Definition is_ok {E A} (r : result E A) : bool :=
  match r with Ok _ => true | Err _ => false end.

(** [Result::map_err]. *)
Definition map_err {E F A} (f : E -> F) (r : result E A) : result F A :=
  match r with
  | Ok a => Ok a
  | Err e => Err (f e)
  end.

(** [Option::ok_or]. *)
Definition ok_or {E A} (o : option A) (e : E) : result E A :=
  match o with
  | Some a => Ok a
  | None => Err e
  end.

Declare Scope miscreant_scope.
Delimit Scope miscreant_scope with miscreant.
Open Scope miscreant_scope.

Notation "'let?' x := e 'in' k" :=
  (match e with Ok x => k | Err e_ => Err e_ end)
  (at level 10, x pattern, e at level 200, k at level 200) : miscreant_scope.

(** ** State and errors

    Operations that read and write a shared store and may fail part way: the
    state survives an error, as the writes made before a failure do. *)

Definition SE (S E A : Type) : Type := S -> result E A * S.

Definition se_ret {S E A} (a : A) : SE S E A := fun s => (Ok a, s).
Definition se_err {S E A} (e : E) : SE S E A := fun s => (Err e, s).
Definition se_bind {S E A B} (m : SE S E A) (k : A -> SE S E B) : SE S E B :=
  fun s =>
    match m s with
    | (Ok a, s') => k a s'
    | (Err e, s') => (Err e, s')
    end.
Definition se_lift {S E A} (r : result E A) : SE S E A := fun s => (r, s).
Definition se_read {S E A} (f : S -> result E A) : SE S E A := fun s => (f s, s).
Definition se_map_err {S E F A} (f : E -> F) (m : SE S E A) : SE S F A :=
  fun s => let '(r, s') := m s in (map_err f r, s').

Notation "'do!' x '<-' m ';' k" := (se_bind m (fun x => k))
  (at level 10, x pattern, m at level 100, k at level 200) : miscreant_scope.

(** ** Automation *)

Create HintDb miscreant.
Create Rewrite HintDb miscreant.

(** Split a hypothesis about a [match] on a result, option or pair until it
    has been reduced to equations between values. *)
Ltac inv_result :=
  repeat match goal with
  | H : Ok _ = Ok _ |- _ => injection H as H; try subst
  | H : Err _ = Err _ |- _ => injection H as H; try subst
  | H : Ok _ = Err _ |- _ => discriminate H
  | H : Err _ = Ok _ |- _ => discriminate H
  | H : Some _ = None |- _ => discriminate H
  | H : None = Some _ |- _ => discriminate H
  | H : Some _ = Some _ |- _ => injection H as H; try subst
  | H : (_, _) = (_, _) |- _ => injection H as ? ?; try subst
  end.

Ltac step_result :=
  match goal with
  | H : context [match ?x with _ => _ end] |- _ => destruct x eqn:?; inv_result
  end.

(** Destruct the scrutinee of the goal's outermost [match]. *)
Ltac case_goal :=
  match goal with
  | |- context [match ?x with _ => _ end] => destruct x eqn:?
  end.

Lemma se_bind_ok {S E A B} (m : SE S E A) (k : A -> SE S E B) s b s' :
  se_bind m k s = (Ok b, s') ->
  exists a s1, m s = (Ok a, s1) /\ k a s1 = (Ok b, s').
Proof.
  unfold se_bind. destruct (m s) as [[a | e] s1]; intros H; [eauto |].
  discriminate H.
Qed.

Lemma se_bind_run {S E A B} (m : SE S E A) (k : A -> SE S E B) s a s1 :
  m s = (Ok a, s1) -> se_bind m k s = k a s1.
Proof. unfold se_bind. by intros ->. Qed.

(** ** What operations keep

    [kept P f]: [f] relates every state to the one it leaves.  An operation
    keeps what its calls keep, so for a preorder [P] the property goes through
    every handler by its structure. *)
Definition kept {S X} (P : S -> S -> Prop) (f : S -> X * S) : Prop := forall s, P s (f s).2.

Create HintDb kept.

Section kept.
Context {S : Type} (P : S -> S -> Prop) `{!PreOrder P}.

Lemma kept_pair {X} (x : X) : kept P (fun s => (x, s)).
Proof. intros s. cbn. reflexivity. Qed.

Lemma kept_ret {E A} (a : A) : kept P (se_ret a : SE S E A).
Proof. apply kept_pair. Qed.

Lemma kept_err {E A} (e : E) : kept P (se_err e : SE S E A).
Proof. apply kept_pair. Qed.

Lemma kept_lift {E A} (r : result E A) : kept P (se_lift r).
Proof. apply kept_pair. Qed.

Lemma kept_then {X Y} (f : S -> X * S) (k : X -> S -> Y * S) :
  kept P f -> (forall x, kept P (k x)) -> kept P (fun s => let '(x, s) := f s in k x s).
Proof.
  intros Hf Hk s. specialize (Hf s). destruct (f s) as [x s1]. etransitivity; [exact Hf | apply Hk].
Qed.

Lemma kept_bind {E A B} (f : SE S E A) (k : A -> SE S E B) :
  kept P f -> (forall a, kept P (k a)) -> kept P (se_bind f k).
Proof.
  intros Hf Hk s. unfold se_bind. specialize (Hf s). destruct (f s) as [[a | e] s1]; [| exact Hf].
  etransitivity; [exact Hf | apply Hk].
Qed.

(** The continuation may rely on what a success returns. *)
Lemma kept_bind_when {E A B} (Q : A -> Prop) (f : SE S E A) (k : A -> SE S E B) :
  kept P f -> (forall s a s', f s = (Ok a, s') -> Q a) -> (forall a, Q a -> kept P (k a)) -> kept P (se_bind f k).
Proof.
  intros Hf Hq Hk s. unfold se_bind. specialize (Hf s). destruct (f s) as [[a | e] s1] eqn:E1; [| exact Hf].
  etransitivity; [exact Hf | by eapply Hk, Hq].
Qed.

Lemma kept_map_err {E F A} (h : E -> F) (f : SE S E A) : kept P f -> kept P (se_map_err h f).
Proof. intros Hf s. unfold se_map_err. specialize (Hf s). by destruct (f s). Qed.

End kept.

Lemma kept_weaken {S X} (P Q : S -> S -> Prop) (f : S -> X * S) :
  (forall s s', P s s' -> Q s s') -> kept P f -> kept Q f.
Proof. intros H Hf s. apply H, Hf. Qed.

#[export] Hint Resolve kept_pair kept_ret kept_err kept_lift : kept.
#[export] Hint Extern 1 (PreOrder _) => apply _ : kept.

(** Go through an operation's structure, its calls by the lemmas in [kept]. *)
Ltac keep :=
  lazymatch goal with
  | |- forall _, _ => intro; keep
  | |- kept _ (se_bind _ _) => apply kept_bind; [apply _ | keep | keep]
  | |- kept _ (se_map_err _ _) => apply kept_map_err; keep
  | |- kept ?P (fun s => se_bind ?f ?k s) => change (kept P (se_bind f k)); keep
  | |- kept _ (match ?x with _ => _ end) => destruct x; keep
  | |- kept _ (fun s => match ?m s with _ => _ end) => apply (kept_then _ m); [keep | keep]
  | |- kept _ (fun s => match ?x with _ => _ end) => destruct x; keep
  | |- kept _ (let _ := _ in _) => cbv zeta; keep
  | |- _ => solve [auto with kept]
  end.

(** ** Inevitability

    [inevitably P s]: from [s], whatever the steps taken, [P] comes to hold.
    [must] are the steps the system is bound to take when it can, [may] those
    that can come up besides, so that [P] is reached whatever they do. *)
Section inevitably.
Context {S : Type} (must may : S -> S -> Prop).

Inductive inevitably (P : S -> Prop) (s : S) : Prop :=
  | inevitably_now : P s -> inevitably P s
  | inevitably_later :
      (exists s', must s s') -> (forall s', must s s' \/ may s s' -> inevitably P s') -> inevitably P s.

(** A measure every step lowers, with a step to take until [P] holds. *)
Lemma inevitably_measure (P I : S -> Prop) (m : S -> nat) :
  (forall s s', I s -> must s s' \/ may s s' -> I s' /\ m s' < m s) ->
  (forall s, I s -> P s \/ exists s', must s s') ->
  forall s, I s -> inevitably P s.
Proof.
  intros Hstep Hmust s. induction s as [s IH] using (well_founded_induction (well_founded_ltof S m)).
  intros Hs. destruct (Hmust s Hs) as [Hp | Hm]; [by apply inevitably_now |].
  apply inevitably_later; [done |]. intros s' Hs'. destruct (Hstep s s' Hs Hs') as [Hi Hlt]. by apply IH.
Qed.

End inevitably.

(** ** Lists *)

(** The prefix test of the standard library: [slice::starts_with]. *)
Fixpoint starts_with {A} `{EqDecision A} (p l : list A) : bool :=
  match p, l with
  | [], _ => true
  | x :: p', y :: l' => bool_decide (x = y) && starts_with p' l'
  | _ :: _, [] => false
  end.

Lemma starts_with_prefix {A} `{EqDecision A} (p l : list A) :
  starts_with p l = true <-> p `prefix_of` l.
Proof.
  revert l. induction p as [| x p IH]; intros [| y l]; simpl.
  - split; [intros _; apply prefix_nil | done].
  - split; [intros _; apply prefix_nil | done].
  - split; [done | intros H]. by apply prefix_nil_not in H.
  - rewrite andb_true_iff, IH, bool_decide_eq_true. split.
    + intros [-> H]. by apply prefix_cons.
    + intros H. split; [by eapply prefix_cons_inv_1 | by eapply prefix_cons_inv_2].
Qed.

(** [str::strip_prefix] and [slice::strip_suffix]. *)
Definition strip_prefix {A} `{EqDecision A} (p l : list A) : option (list A) :=
  if starts_with p l then Some (drop (length p) l) else None.

Definition strip_suffix {A} `{EqDecision A} (p l : list A) : option (list A) :=
  if starts_with (rev p) (rev l) then Some (take (length l - length p) l) else None.

Lemma strip_prefix_Some {A} `{EqDecision A} (p l r : list A) :
  strip_prefix p l = Some r <-> l = p ++ r.
Proof.
  unfold strip_prefix. destruct (starts_with p l) eqn:E.
  - apply starts_with_prefix in E as [k ->]. rewrite drop_app_length.
    split; [by intros [= ->] | intros H]. by simplify_list_eq.
  - split; [done | intros ->].
    assert (starts_with p (p ++ r) = true) by (apply starts_with_prefix; by exists r).
    congruence.
Qed.

Lemma strip_suffix_Some {A} `{EqDecision A} (p l r : list A) :
  strip_suffix p l = Some r <-> l = r ++ p.
Proof.
  unfold strip_suffix. destruct (starts_with (rev p) (rev l)) eqn:E.
  - apply starts_with_prefix in E as [k Hk].
    assert (l = rev k ++ p) as ->.
    { rewrite <- (rev_involutive l), Hk, rev_app_distr, rev_involutive. done. }
    rewrite length_app, Nat.add_sub, take_app_length.
    split; [by intros [= ->] | intros H]. by simplify_list_eq.
  - split; [done | intros ->].
    assert (starts_with (rev p) (rev (r ++ p)) = true).
    { apply starts_with_prefix. exists (rev r). by rewrite rev_app_distr. }
    congruence.
Qed.

Lemma strip_prefix_app {A} `{EqDecision A} (p r : list A) :
  strip_prefix p (p ++ r) = Some r.
Proof. by apply strip_prefix_Some. Qed.

Lemma strip_suffix_app {A} `{EqDecision A} (p r : list A) :
  strip_suffix p (r ++ p) = Some r.
Proof. by apply strip_suffix_Some. Qed.

#[export] Hint Rewrite @strip_prefix_app @strip_suffix_app : miscreant.

(** [slice::split]: cut a list at every occurrence of a separator; the pieces
    hold no separator and there is always at least one. *)
Fixpoint split_on {A} `{EqDecision A} (sep : A) (l : list A) : list (list A) :=
  match l with
  | [] => [[]]
  | x :: l' =>
      if decide (x = sep) then [] :: split_on sep l'
      else match split_on sep l' with
           | [] => [[x]]
           | h :: t => (x :: h) :: t
           end
  end.

Fixpoint join_with {A} (sep : A) (ls : list (list A)) : list A :=
  match ls with
  | [] => []
  | [l] => l
  | l :: ls' => l ++ sep :: join_with sep ls'
  end.

Lemma split_on_nonempty {A} `{EqDecision A} (sep : A) l : split_on sep l <> [].
Proof. destruct l; simpl; [done |]. repeat case_match; done. Qed.

Lemma join_split_on {A} `{EqDecision A} (sep : A) l : join_with sep (split_on sep l) = l.
Proof.
  induction l as [| x l IH]; simpl; [done |].
  pose proof (split_on_nonempty sep l) as Hne.
  case_decide as Hx.
  - destruct (split_on sep l) as [| h t] eqn:E; [done |].
    rewrite <- IH, Hx. done.
  - destruct (split_on sep l) as [| h t] eqn:E; [done |].
    rewrite <- IH. destruct t; done.
Qed.

Lemma split_on_no_sep {A} `{EqDecision A} (sep : A) l :
  Forall (fun piece => sep ∉ piece) (split_on sep l).
Proof.
  induction l as [| x l IH]; simpl; [repeat constructor; set_solver |].
  case_decide; [constructor; [set_solver | done] |].
  destruct (split_on sep l) as [| h t]; [repeat constructor; set_solver |].
  apply Forall_cons in IH as [? ?]. constructor; [set_solver | done].
Qed.

Lemma split_on_join {A} `{EqDecision A} (sep : A) ls :
  ls <> [] -> Forall (fun l => sep ∉ l) ls -> split_on sep (join_with sep ls) = ls.
Proof.
  assert (forall l, sep ∉ l -> split_on sep l = [l]) as Hone.
  { induction l as [| x l IH]; intros Hl; cbn [split_on]; [done |].
    rewrite decide_False by set_solver. by rewrite IH by set_solver. }
  assert (forall l r, sep ∉ l -> split_on sep (l ++ sep :: r) = l :: split_on sep r) as Happ.
  { induction l as [| x l IH]; intros r Hl; cbn [split_on app]; [by rewrite decide_True |].
    rewrite decide_False by set_solver. by rewrite IH by set_solver. }
  intros Hne Hf. induction ls as [| l ls IH]; [done |]. apply Forall_cons in Hf as [Hl Hf].
  destruct ls as [| l' ls]; [by apply Hone |].
  change (join_with sep (l :: l' :: ls)) with (l ++ sep :: join_with sep (l' :: ls)).
  rewrite Happ by done. by rewrite IH.
Qed.

(** [str::split_once] and [str::splitn]: cut at the first occurrence of a
    separator, and at the first [n - 1]. *)
Fixpoint split_once {A} `{EqDecision A} (sep : A) (l : list A) : option (list A * list A) :=
  match l with
  | [] => None
  | x :: l' =>
      if decide (x = sep) then Some ([], l')
      else match split_once sep l' with
           | Some (a, b) => Some (x :: a, b)
           | None => None
           end
  end.

Fixpoint splitn {A} `{EqDecision A} (n : nat) (sep : A) (l : list A) : list (list A) :=
  match n with
  | O => []
  | S O => [l]
  | S n' =>
      match split_once sep l with
      | Some (a, b) => a :: splitn n' sep b
      | None => [l]
      end
  end.

Lemma split_once_Some {A} `{EqDecision A} (sep : A) l a b :
  split_once sep l = Some (a, b) <-> l = a ++ sep :: b /\ sep ∉ a.
Proof.
  revert a b. induction l as [| x l IH]; intros a b; cbn [split_once].
  { split; [done |]. by intros [H _]; destruct a. }
  case_decide as Hx.
  - subst x. split; [intros [= <- <-]; split; [done | apply not_elem_of_nil] |].
    intros [H Ha]. destruct a as [| y a]; [by simplify_list_eq |].
    simplify_list_eq. destruct Ha. by left.
  - destruct (split_once sep l) as [[a' b'] |].
    + split.
      * intros [= <- <-]. destruct (proj1 (IH a' b') eq_refl) as [-> ?]. set_solver.
      * intros [H Ha]. destruct a as [| y a]; [by simplify_list_eq |]. simplify_list_eq.
        assert (Some (a', b') = Some (a, b)) as [= -> ->]; [| done]. apply IH. set_solver.
    + split; [done |]. intros [H Ha]. destruct a as [| y a]; [by simplify_list_eq |]. simplify_list_eq.
      assert (@None (list A * list A) = Some (a, b)); [| done]. apply IH. set_solver.
Qed.

Lemma split_once_None {A} `{EqDecision A} (sep : A) l : split_once sep l = None <-> sep ∉ l.
Proof.
  split.
  - intros H Hin. apply list_elem_of_split_l in Hin as (a & b & -> & Ha).
    assert (split_once sep (a ++ sep :: b) = Some (a, b)) by (by apply split_once_Some). congruence.
  - intros Hn. destruct (split_once sep l) as [[a b] |] eqn:E; [| done].
    apply split_once_Some in E as [-> _]. set_solver.
Qed.

(** [slice::chunks(n)]: consecutive pieces of [n] elements, the last possibly
    shorter; the fuel is the length of the list. *)
Fixpoint chunks_fuel {A} (fuel n : nat) (l : list A) : list (list A) :=
  match fuel, l with
  | S fuel', _ :: _ => take n l :: chunks_fuel fuel' n (drop n l)
  | _, _ => []
  end.

Definition chunks {A} (n : nat) (l : list A) : list (list A) := chunks_fuel (length l) n l.

Lemma chunks_fuel_spec {A} n fuel (l : list A) :
  0 < n -> length l <= fuel ->
  concat (chunks_fuel fuel n l) = l
  /\ Forall (fun c => 0 < length c <= n) (chunks_fuel fuel n l).
Proof.
  intros Hn. revert l. induction fuel as [| fuel IH]; intros [| x l] Hl; cbn [length] in Hl;
    try done; try lia.
  cbn [chunks_fuel concat].
  destruct (IH (drop n (x :: l))) as [Hc Hf].
  { rewrite length_drop. cbn [length]. lia. }
  split; [by rewrite Hc, take_drop |].
  constructor; [| done]. rewrite length_take. cbn [length]. lia.
Qed.

Lemma concat_chunks {A} n (l : list A) : 0 < n -> concat (chunks n l) = l.
Proof. intros. by apply chunks_fuel_spec. Qed.

Lemma chunks_bound {A} n (l : list A) : 0 < n -> Forall (fun c => 0 < length c <= n) (chunks n l).
Proof. intros. by apply chunks_fuel_spec. Qed.

(** Sums over a list: pointwise bounds, strict at one element. *)
Lemma sum_list_mono {A} (f h : A -> nat) l : (forall x, f x <= h x) -> sum_list (f <$> l) <= sum_list (h <$> l).
Proof. intros H. induction l as [| x l IH]; cbn; [done |]. specialize (H x). lia. Qed.

Lemma sum_list_drop {A} (f h : A -> nat) l x k :
  x ∈ l -> (forall y, f y <= h y) -> f x + k <= h x -> sum_list (f <$> l) + k <= sum_list (h <$> l).
Proof.
  intros Hx Hle Hk. induction Hx as [x l | x y l _ IH]; cbn.
  - pose proof (sum_list_mono f h l Hle). lia.
  - specialize (IH Hk). specialize (Hle y). lia.
Qed.

(** What comes before an element of a filtered list came before it. *)
Lemma filter_earlier {A} (P : A -> Prop) `{forall x, Decision (P x)} (l : list A) i e :
  filter P l !! i = Some e ->
  exists j, l !! j = Some e /\ forall e', e' ∈ take j l -> P e' -> e' ∈ take i (filter P l).
Proof.
  revert i. induction l as [| x l IH]; intros i; [done |]. rewrite filter_cons. case_decide as Hx.
  - destruct i as [| i]; cbn [lookup list_lookup].
    + intros [= <-]. exists 0. split; [done |]. intros e' He'. by apply elem_of_nil in He'.
    + intros (j & Hj & Hb)%IH. exists (S j). split; [done |]. cbn [take].
      intros e' [-> | He']%elem_of_cons HP; [by left | right; auto].
  - intros (j & Hj & Hb)%IH. exists (S j). split; [done |]. cbn [take].
    intros e' [-> | He']%elem_of_cons HP; [done | auto].
Qed.

Lemma elem_of_rev {A} (x : A) l : x ∈ rev l <-> x ∈ l.
Proof. by rewrite !list_elem_of_In, <- in_rev. Qed.

Lemma sum_list_submseteq {A} (f : A -> nat) l l' : l ⊆+ l' -> sum_list (f <$> l) <= sum_list (f <$> l').
Proof. induction 1; cbn; lia. Qed.

(** Filtering keeps the first components distinct. *)
Lemma NoDup_fst_filter {A B} (P : A * B -> Prop) `{forall x, Decision (P x)} (l : list (A * B)) :
  NoDup l.*1 -> NoDup (filter P l).*1.
Proof.
  induction l as [| kv l IH]; [done |]. intros [Hn Hd]%NoDup_cons. rewrite filter_cons.
  case_decide; [| by apply IH]. rewrite fmap_cons. apply NoDup_cons. split; [| by apply IH].
  intros (kv' & E & Hin)%list_elem_of_fmap. apply list_elem_of_filter in Hin as [_ Hin].
  apply Hn. rewrite E. by apply list_elem_of_fmap_2.
Qed.
