(* ===== verification/Bytes.v ===== *)
(** * Bytes, machine integers and UTF-8

    The bytes of keys, values and packets are [Byte.byte]; an unsigned w-bit
    integer is a [Z] with its wrap-around written out.  The big-endian
    conversions are the standard library's [to_be_bytes]/[from_be_bytes], and
    [from_utf8] its [str::from_utf8]. *)

From S2P Require Import Prelude.
From stdpp Require Import numbers countable strings.
From Stdlib Require Import Lia.

(** ** Bytes as numbers *)

#[export] Instance byte_eq_dec : EqDecision byte := Byte.byte_eq_dec.
#[export] Instance byte_countable : Countable byte.
Proof.
  refine (inj_countable Byte.to_N Byte.of_N _). apply Byte.of_to_N.
Defined.

Abbreviation bytes := (list byte).

(** A [u8] read as a number. *)
Definition u8 (b : byte) : Z := Z.of_N (Byte.to_N b).

(** The truncating cast [z as u8]. *)
Definition as_u8 (z : Z) : byte := default x00 (Byte.of_N (Z.to_N (z mod 256))).

(** The ASCII bytes of a string literal. *)
Definition bs (s : string) : bytes := String.list_byte_of_string s.

(** Unsigned wrap-around at width [w]: [wrapping_add] and the like are [wrap]
    of the exact result. *)
Definition wrap (w : Z) (z : Z) : Z := z mod 2 ^ w.

Definition u32_max : Z := 2 ^ 32 - 1.
Definition u64_max : Z := 2 ^ 64 - 1.
Definition is_u32 (z : Z) : Prop := (0 <= z < 2 ^ 32)%Z.
Definition is_u64 (z : Z) : Prop := (0 <= z < 2 ^ 64)%Z.

Lemma u8_range b : (0 <= u8 b < 256)%Z.
Proof.
  unfold u8. pose proof (Byte.to_N_bounded b). lia.
Qed.

Lemma as_u8_u8 b : as_u8 (u8 b) = b.
Proof.
  unfold as_u8. rewrite Z.mod_small by apply u8_range.
  unfold u8. by rewrite N2Z.id, Byte.of_to_N.
Qed.

Lemma u8_as_u8 z : u8 (as_u8 z) = (z mod 256)%Z.
Proof.
  unfold as_u8, u8.
  pose proof (Z.mod_pos_bound z 256 eq_refl) as Hz.
  destruct (Byte.of_N (Z.to_N (z mod 256))) as [b |] eqn:E; simpl.
  - apply Byte.to_of_N in E. rewrite E. lia.
  - apply Byte.of_N_None_iff in E. lia.
Qed.

Lemma u8_inj b c : u8 b = u8 c -> b = c.
Proof. intros H. by rewrite <- (as_u8_u8 b), H, as_u8_u8. Qed.

Lemma as_u8_mod z : as_u8 (z mod 256) = as_u8 z.
Proof. apply u8_inj. by rewrite !u8_as_u8, Z.mod_mod. Qed.

Lemma u8_as_u8_small z : (0 <= z < 256)%Z -> u8 (as_u8 z) = z.
Proof. intros. rewrite u8_as_u8. by apply Z.mod_small. Qed.

#[export] Hint Resolve u8_range : miscreant.
#[export] Hint Rewrite as_u8_u8 u8_as_u8 : miscreant.

(** ** Big-endian integers *)

(** [to_be_bytes] of an [8 * n]-bit unsigned integer. *)
Fixpoint be_bytes (n : nat) (z : Z) : bytes :=
  match n with
  | O => []
  | S n' => as_u8 (Z.shiftr z (8 * Z.of_nat n')) :: be_bytes n' z
  end.
Arguments be_bytes : simpl never.

(** [from_be_bytes]: most significant byte first. *)
Definition from_be_bytes (l : bytes) : Z :=
  fold_left (fun acc b => acc * 256 + u8 b)%Z l 0%Z.

Lemma be_bytes_S n z :
  be_bytes (S n) z = as_u8 (Z.shiftr z (8 * Z.of_nat n)) :: be_bytes n z.
Proof. done. Qed.

Lemma length_be_bytes n z : length (be_bytes n z) = n.
Proof. induction n; [done |]. rewrite be_bytes_S. simpl. congruence. Qed.

#[export] Hint Rewrite length_be_bytes : miscreant.

Lemma fold_be_app (l : bytes) acc :
  fold_left (fun a b => a * 256 + u8 b)%Z l acc
  = (acc * 256 ^ Z.of_nat (length l) + from_be_bytes l)%Z.
Proof.
  unfold from_be_bytes. revert acc.
  induction l as [| b l IH]; intros acc; cbn [fold_left length].
  - rewrite Z.pow_0_r. lia.
  - rewrite IH, (IH (0 * 256 + u8 b)%Z).
    rewrite Nat2Z.inj_succ, Z.pow_succ_r by lia. ring.
Qed.

Lemma from_be_cons b l :
  from_be_bytes (b :: l) = (u8 b * 256 ^ Z.of_nat (length l) + from_be_bytes l)%Z.
Proof.
  unfold from_be_bytes at 1. cbn [fold_left]. rewrite fold_be_app. lia.
Qed.

Lemma from_be_range l : (0 <= from_be_bytes l < 256 ^ Z.of_nat (length l))%Z.
Proof.
  induction l as [| b l IH]; [cbn; lia |].
  rewrite from_be_cons. cbn [length]. rewrite Nat2Z.inj_succ, Z.pow_succ_r by lia.
  pose proof (u8_range b). nia.
Qed.

Lemma pow256 n : (2 ^ (8 * Z.of_nat n))%Z = (256 ^ Z.of_nat n)%Z.
Proof. by rewrite Z.pow_mul_r by lia. Qed.

Lemma from_be_bytes_be n z :
  from_be_bytes (be_bytes n z) = (z mod 256 ^ Z.of_nat n)%Z.
Proof.
  induction n as [| n IH]; [by rewrite Z.pow_0_r, Z.mod_1_r | rewrite be_bytes_S].
  rewrite from_be_cons, length_be_bytes, IH, u8_as_u8.
  rewrite Z.shiftr_div_pow2 by lia.
  rewrite pow256.
  rewrite Nat2Z.inj_succ, Z.pow_succ_r by lia.
  rewrite (Z.mul_comm 256), Z.rem_mul_r by lia. ring.
Qed.

(** The bytes of [z] below position [m] ignore multiples of [256 ^ k]. *)
Lemma be_bytes_high k m a z :
  m <= k -> be_bytes m (a * 256 ^ Z.of_nat k + z)%Z = be_bytes m z.
Proof.
  induction m as [| m IHm]; intros Hle; [done |].
  rewrite !be_bytes_S, IHm by lia. f_equal. apply u8_inj.
  rewrite !u8_as_u8, !Z.shiftr_div_pow2, pow256 by lia.
  replace (Z.of_nat k) with (Z.of_nat m + Z.succ (Z.of_nat k - Z.of_nat m - 1))%Z by lia.
  rewrite Z.pow_add_r, (Z.mul_comm (256 ^ Z.of_nat m)), Z.mul_assoc by lia.
  rewrite Z.div_add_l, Z.pow_succ_r, (Z.mul_comm 256), Z.mul_assoc by lia.
  by rewrite Z.add_comm, Z.mod_add.
Qed.

Lemma be_bytes_from n l : length l = n -> be_bytes n (from_be_bytes l) = l.
Proof.
  intros <-. induction l as [| b l IH]; [done |].
  cbn [length]. rewrite be_bytes_S, from_be_cons.
  pose proof (from_be_range l) as Hr. f_equal.
  - apply u8_inj. rewrite u8_as_u8, Z.shiftr_div_pow2, pow256 by lia.
    rewrite Z.div_add_l, Z.div_small, Z.add_0_r by lia.
    apply Z.mod_small, u8_range.
  - by rewrite be_bytes_high.
Qed.

Lemma from_be_bytes_small n z :
  (0 <= z < 256 ^ Z.of_nat n)%Z -> from_be_bytes (be_bytes n z) = z.
Proof. intros. rewrite from_be_bytes_be. by apply Z.mod_small. Qed.

Lemma u32_round z : is_u32 z -> from_be_bytes (be_bytes 4 z) = z.
Proof. intros. by apply from_be_bytes_small. Qed.

Lemma u64_round z : is_u64 z -> from_be_bytes (be_bytes 8 z) = z.
Proof. intros. by apply from_be_bytes_small. Qed.

#[export] Hint Rewrite u32_round u64_round using done : miscreant.

(** ** UTF-8

    [str::from_utf8] accepts exactly the well-formed sequences: the ranges of
    the second byte exclude overlong forms, surrogates and values past
    U+10FFFF. *)

Definition in_range (lo hi : Z) (b : byte) : bool := (lo <=? u8 b)%Z && (u8 b <=? hi)%Z.
Definition is_cont (b : byte) : bool := in_range 0x80 0xBF b.

(** The second bytes a three- or four-byte sequence may go on with. *)
Definition opens3 (b0 b1 : byte) : bool :=
  (in_range 0xE0 0xE0 b0 && in_range 0xA0 0xBF b1)
  || (in_range 0xE1 0xEC b0 && is_cont b1)
  || (in_range 0xED 0xED b0 && in_range 0x80 0x9F b1)
  || (in_range 0xEE 0xEF b0 && is_cont b1).

Definition opens4 (b0 b1 : byte) : bool :=
  (in_range 0xF0 0xF0 b0 && in_range 0x90 0xBF b1)
  || (in_range 0xF1 0xF3 b0 && is_cont b1)
  || (in_range 0xF4 0xF4 b0 && in_range 0x80 0x8F b1).

Fixpoint utf8_valid (l : bytes) : bool :=
  match l with
  | [] => true
  | b0 :: l1 =>
      if in_range 0 0x7F b0 then utf8_valid l1
      else match l1 with
      | [] => false
      | b1 :: l2 =>
          if in_range 0xC2 0xDF b0 then is_cont b1 && utf8_valid l2
          else match l2 with
          | [] => false
          | b2 :: l3 =>
              if opens3 b0 b1 then is_cont b2 && utf8_valid l3
              else match l3 with
              | [] => false
              | b3 :: l4 => opens4 b0 b1 && is_cont b2 && is_cont b3 && utf8_valid l4
              end
          end
      end
  end.

(** [String::from_utf8_lossy]: each maximal prefix of a sequence that does not
    go on becomes one U+FFFD. *)
Definition replacement : bytes := [xef; xbf; xbd].

Fixpoint from_utf8_lossy (l : bytes) : bytes :=
  match l with
  | [] => []
  | b0 :: l1 =>
      if in_range 0 0x7F b0 then b0 :: from_utf8_lossy l1
      else match l1 with
      | [] => replacement
      | b1 :: l2 =>
          if in_range 0xC2 0xDF b0 then
            if is_cont b1 then b0 :: b1 :: from_utf8_lossy l2 else replacement ++ from_utf8_lossy l1
          else if opens3 b0 b1 then
            match l2 with
            | [] => replacement
            | b2 :: l3 =>
                if is_cont b2 then b0 :: b1 :: b2 :: from_utf8_lossy l3
                else replacement ++ from_utf8_lossy l2
            end
          else if opens4 b0 b1 then
            match l2 with
            | [] => replacement
            | b2 :: l3 =>
                if is_cont b2 then
                  match l3 with
                  | [] => replacement
                  | b3 :: l4 =>
                      if is_cont b3 then b0 :: b1 :: b2 :: b3 :: from_utf8_lossy l4
                      else replacement ++ from_utf8_lossy l3
                  end
                else replacement ++ from_utf8_lossy l2
            end
          else replacement ++ from_utf8_lossy l1
      end
  end.

Lemma lossy_valid l : utf8_valid l = true -> from_utf8_lossy l = l.
Proof.
  remember (length l) as n eqn:Hn. revert l Hn.
  induction (lt_wf n) as [n _ IH]; intros [| b0 l1] Hn; cbn [utf8_valid from_utf8_lossy]; [done |].
  assert (forall l, length l < n -> utf8_valid l = true -> from_utf8_lossy l = l) as IH'
    by (intros l Hl; by apply (IH (length l))).
  cbn [length] in Hn. case_match; [intros; f_equal; apply IH'; [lia | done] |].
  destruct l1 as [| b1 l2]; [done |]. cbn [length] in Hn.
  case_match; [intros [-> ?]%andb_true_iff; do 2 f_equal; apply IH'; [lia | done] |].
  destruct l2 as [| b2 l3]; [done |]. cbn [length] in Hn.
  case_match; [intros [-> ?]%andb_true_iff; do 3 f_equal; apply IH'; [lia | done] |].
  destruct l3 as [| b3 l4]; [done |]. cbn [length] in Hn.
  intros [[[-> ->]%andb_true_iff ->]%andb_true_iff ?]%andb_true_iff.
  do 4 f_equal. apply IH'; [lia | done].
Qed.

(** A [String] is a byte sequence that is valid UTF-8; functions taking a
    [&str] state validity where they rely on it. *)
Definition from_utf8 (l : bytes) : option bytes :=
  if utf8_valid l then Some l else None.

Lemma from_utf8_Some l s : from_utf8 l = Some s <-> s = l /\ utf8_valid l = true.
Proof. unfold from_utf8. case_match; naive_solver. Qed.

Lemma from_utf8_valid l : utf8_valid l = true -> from_utf8 l = Some l.
Proof. intros H. unfold from_utf8. by rewrite H. Qed.

(** ASCII text is valid UTF-8. *)
Lemma ascii_utf8 l : Forall (fun b => (u8 b < 128)%Z) l -> utf8_valid l = true.
Proof.
  induction 1 as [| b l Hb _ IH]; simpl; [done |].
  pose proof (u8_range b).
  assert (in_range 0 0x7F b = true) as ->; [| done].
  unfold in_range. apply andb_true_iff. split; apply Z.leb_le; lia.
Qed.

Lemma utf8_valid_app a b : Forall (fun c => (u8 c < 128)%Z) a -> utf8_valid b = true -> utf8_valid (a ++ b) = true.
Proof.
  intros Ha Hb. induction Ha as [| c a Hc _ IH]; [done |]. cbn [app utf8_valid].
  assert (in_range 0 0x7F c = true) as ->; [| done].
  pose proof (u8_range c). unfold in_range. apply andb_true_iff. split; apply Z.leb_le; lia.
Qed.

(** ** Lexicographic order on byte strings

    The order of keys in the store, and of [String]s and paths. *)
Fixpoint bytes_le (l k : bytes) : bool :=
  match l, k with
  | [], _ => true
  | _ :: _, [] => false
  | x :: l', y :: k' =>
      if (u8 x <? u8 y)%Z then true
      else if (u8 y <? u8 x)%Z then false
      else bytes_le l' k'
  end.

Lemma bytes_le_app p l k : bytes_le (p ++ l) (p ++ k) = bytes_le l k.
Proof. induction p as [| x p IH]; simpl; [done |]. by rewrite Z.ltb_irrefl. Qed.

Lemma bytes_le_total l k : bytes_le l k = true \/ bytes_le k l = true.
Proof.
  revert k. induction l as [| x l IH]; intros [| y k]; simpl; auto.
  destruct (Z.ltb_spec (u8 x) (u8 y)), (Z.ltb_spec (u8 y) (u8 x)); auto.
Qed.

Lemma bytes_le_antisym l k : bytes_le l k = true -> bytes_le k l = true -> l = k.
Proof.
  revert k. induction l as [| x l IH]; intros [| y k]; simpl; try done.
  destruct (Z.ltb_spec (u8 x) (u8 y)), (Z.ltb_spec (u8 y) (u8 x)); try done; try lia.
  intros H1 H2. f_equal; [apply u8_inj; lia | by apply IH].
Qed.

Lemma bytes_le_trans l k m : bytes_le l k = true -> bytes_le k m = true -> bytes_le l m = true.
Proof.
  revert k m. induction l as [| x l IH]; intros [| y k] [| z m]; simpl; try done.
  destruct (Z.ltb_spec (u8 x) (u8 y)), (Z.ltb_spec (u8 y) (u8 x)),
    (Z.ltb_spec (u8 y) (u8 z)), (Z.ltb_spec (u8 z) (u8 y)),
    (Z.ltb_spec (u8 x) (u8 z)), (Z.ltb_spec (u8 z) (u8 x)); try done; try lia.
  apply IH.
Qed.

(** ** Decimal numbers *)

(** [format!("{n}")] of an unsigned integer; its digits are at most its bits. *)
Fixpoint dec_digits (fuel : nat) (n : Z) (acc : bytes) : bytes :=
  let acc := as_u8 (48 + n mod 10) :: acc in
  match fuel with
  | O => acc
  | S fuel' => if (n <? 10)%Z then acc else dec_digits fuel' (n / 10) acc
  end.

Definition dec (n : Z) : bytes := dec_digits (Z.to_nat (Z.log2 n)) n [].

(** [format!("{n:0w}")]: at least [w] digits, padded with zeros. *)
Definition dec_padded (w : nat) (n : Z) : bytes := repeat x30 (w - length (dec n)) ++ dec n.

Definition undec_from (acc : Z) (l : bytes) : Z := fold_left (fun n b => n * 10 + (u8 b - 48))%Z l acc.

Lemma undec_digit n acc l : undec_from acc (as_u8 (48 + n mod 10) :: l) = undec_from (acc * 10 + n mod 10) l.
Proof.
  pose proof (Z.mod_pos_bound n 10). unfold undec_from. cbn [fold_left].
  rewrite u8_as_u8_small by lia. f_equal. lia.
Qed.

Lemma undec_dec_digits fuel n acc :
  (0 <= n < 2 ^ (Z.of_nat fuel + 1))%Z -> undec_from 0 (dec_digits fuel n acc) = undec_from n acc.
Proof.
  revert n acc. induction fuel as [| fuel IH]; intros n acc Hn; cbn [dec_digits].
  - change (2 ^ (Z.of_nat 0 + 1))%Z with 2%Z in Hn. rewrite undec_digit, Z.mod_small by lia. done.
  - destruct (Z.ltb_spec n 10) as [Hlt | Hge]; [by rewrite undec_digit, Z.mod_small by lia |].
    rewrite IH, undec_digit.
    + f_equal. pose proof (Z.div_mod n 10 ltac:(lia)). lia.
    + split; [apply Z.div_pos; lia |]. apply Z.div_lt_upper_bound; [lia |].
      replace (Z.of_nat (S fuel) + 1)%Z with (Z.of_nat fuel + 1 + 1)%Z in Hn by lia.
      rewrite Z.pow_add_r in Hn by lia. lia.
Qed.

Lemma undec_dec n : (0 <= n)%Z -> undec_from 0 (dec n) = n.
Proof.
  intros Hn. unfold dec. rewrite undec_dec_digits; [done |]. split; [done |].
  rewrite Z2Nat.id by apply Z.log2_nonneg. destruct (Z.eq_dec n 0%Z) as [-> |]; [done |].
  pose proof (Z.log2_spec n ltac:(lia)). rewrite Z.add_1_r. lia.
Qed.

Lemma undec_padded w n : (0 <= n)%Z -> undec_from 0 (dec_padded w n) = n.
Proof.
  intros Hn. unfold dec_padded, undec_from. rewrite fold_left_app.
  assert (forall k, fold_left (fun n b => n * 10 + (u8 b - 48))%Z (repeat x30 k) 0%Z = 0%Z) as ->.
  { induction k as [| k IH]; [done |]. exact IH. }
  by apply undec_dec.
Qed.

Lemma dec_digits_digits fuel n acc :
  Forall (fun b => 48 <= u8 b <= 57)%Z acc -> Forall (fun b => 48 <= u8 b <= 57)%Z (dec_digits fuel n acc).
Proof.
  revert n acc. induction fuel as [| fuel IH]; intros n acc Ha; cbn [dec_digits];
    assert (Forall (fun b => 48 <= u8 b <= 57)%Z (as_u8 (48 + n mod 10) :: acc)) as Hc
      by (pose proof (Z.mod_pos_bound n 10); constructor; [rewrite u8_as_u8_small; lia | done]); [done |].
  destruct (n <? 10)%Z; [done | by apply IH].
Qed.

Lemma dec_padded_digits w n : Forall (fun b => 48 <= u8 b <= 57)%Z (dec_padded w n).
Proof.
  apply Forall_app. split; [apply Forall_forall; intros b Hb; apply list_elem_of_In, repeat_spec in Hb as ->; by cbn |].
  by apply dec_digits_digits.
Qed.
