(* ===== verification/GixHash.v ===== *)
(** * The interface of the [gix_hash] crate

    Object ids come from a third-party crate.  The development only assumes
    the behaviour that crate documents, collected in the class [OidLib]; every
    component that handles object ids is proved against it.  [HexOid] is a
    concrete implementation of the interface, on which witnesses run. *)

From S2P Require Import Prelude Bytes.
From stdpp Require Import countable strings.
From Stdlib Require Import Lia.

(** [gix_hash::Kind]: the hash function of a repository. *)
Inductive HashKind : Set := Sha1 | Sha256.

#[export] Instance HashKind_eq_dec : EqDecision HashKind.
Proof. solve_decision. Defined.

(** [Kind::len_in_bytes]. *)
Definition len_in_bytes (k : HashKind) : nat :=
  match k with Sha1 => 20 | Sha256 => 32 end.

(** [impl Display for Kind]. *)
Definition kind_name (k : HashKind) : bytes :=
  match k with Sha1 => bs "sha1" | Sha256 => bs "sha256" end.

Definition is_hex (b : byte) : bool := in_range 0x30 0x39 b || in_range 0x61 0x66 b.

Class OidLib (Oid : Type) := {
  oid_eq_dec :: EqDecision Oid;
  oid_countable :: Countable Oid;
  (** [oid::as_bytes] / [as_slice], [oid::kind], [ObjectId::try_from(&[u8])] *)
  oid_bytes : Oid -> bytes;
  oid_kind : Oid -> HashKind;
  oid_try_from : bytes -> option Oid;
  (** [ObjectId::from_hex], [oid::to_hex] *)
  oid_from_hex : bytes -> option Oid;
  oid_to_hex : Oid -> bytes;
  (** [Kind::null], [ObjectId::is_null] *)
  oid_null : HashKind -> Oid;
  (** the derived [Ord] *)
  oid_le : Oid -> Oid -> bool;
  oid_bytes_len o : length (oid_bytes o) = len_in_bytes (oid_kind o);
  oid_try_from_bytes o : oid_try_from (oid_bytes o) = Some o;
  oid_try_from_sound b o : oid_try_from b = Some o -> oid_bytes o = b;
  oid_try_from_total b :
    length b = 20 \/ length b = 32 -> is_Some (oid_try_from b);
  oid_hex_round o : oid_from_hex (oid_to_hex o) = Some o;
  oid_from_hex_len b o : oid_from_hex b = Some o -> length b = 2 * len_in_bytes (oid_kind o);
  oid_hex_digits o : Forall (fun c => is_hex c = true) (oid_to_hex o);
  oid_hex_len o : length (oid_to_hex o) = 2 * len_in_bytes (oid_kind o);
  oid_null_kind k : oid_kind (oid_null k) = k;
  oid_le_total o p : oid_le o p = true \/ oid_le p o = true;
  oid_le_trans o p q : oid_le o p = true -> oid_le p q = true -> oid_le o q = true;
  oid_le_antisym o p : oid_le o p = true -> oid_le p o = true -> o = p;
}.

Definition oid_is_null {Oid} `{OidLib Oid} (o : Oid) : bool :=
  bool_decide (o = oid_null (oid_kind o)).

Section laws.
Context {Oid : Type} `{OidLib Oid}.

Lemma oid_bytes_inj (o p : Oid) : oid_bytes o = oid_bytes p -> o = p.
Proof.
  intros Heq. apply (inj Some). by rewrite <- !oid_try_from_bytes, Heq.
Qed.

Lemma oid_len_cases (o : Oid) : length (oid_bytes o) = 20 \/ length (oid_bytes o) = 32.
Proof. rewrite oid_bytes_len. destruct (oid_kind o); auto. Qed.

Lemma oid_kind_of_len (o : Oid) k : length (oid_bytes o) = len_in_bytes k -> oid_kind o = k.
Proof. rewrite oid_bytes_len. by destruct (oid_kind o), k. Qed.

(** A slice of the width of [k] is an object id of kind [k]. *)
Lemma oid_try_from_kind b k :
  length b = len_in_bytes k ->
  exists o : Oid, oid_try_from b = Some o /\ oid_bytes o = b /\ oid_kind o = k.
Proof.
  intros Hlen. destruct (oid_try_from_total b) as [o Ho].
  { destruct k; simpl in Hlen; auto. }
  exists o. pose proof (oid_try_from_sound _ _ Ho) as Hb. repeat split; [done.. |].
  apply oid_kind_of_len. by rewrite Hb.
Qed.

Lemma hex_not_in c (o : Oid) : is_hex c = false -> c ∉ oid_to_hex o.
Proof.
  intros Hc Hin. pose proof (oid_hex_digits o) as Hd.
  rewrite Forall_forall in Hd. specialize (Hd _ Hin). congruence.
Qed.

Lemma hex_nonempty (o : Oid) : oid_to_hex o <> [].
Proof. intros E. pose proof (oid_hex_len o) as Hl. rewrite E in Hl. by destruct (oid_kind o). Qed.

Lemma hex_ascii (o : Oid) : Forall (fun b => (u8 b < 128)%Z) (oid_to_hex o).
Proof.
  eapply Forall_impl; [apply oid_hex_digits |]. intros b Hb.
  unfold is_hex, in_range in Hb. lia.
Qed.

Lemma hex_utf8 (o : Oid) : utf8_valid (oid_to_hex o) = true.
Proof. apply ascii_utf8, hex_ascii. Qed.
End laws.

#[export] Hint Resolve hex_utf8 hex_ascii hex_nonempty : miscreant.
#[export] Hint Rewrite @oid_bytes_len @oid_try_from_bytes @oid_hex_round : miscreant.

(** ** A concrete implementation

    An id is a byte string of one of the two widths. *)
Module HexOid.
Definition valid_len (b : bytes) : Prop := length b = 20 \/ length b = 32.
#[export] Instance valid_len_dec b : Decision (valid_len b).
Proof. unfold valid_len. apply _. Defined.

Definition t : Type := dsig valid_len.

Definition kind (o : t) : HashKind :=
  if decide (length (`o) = 20) then Sha1 else Sha256.

(** Package a byte string; the proof normalises to [I], so equal ids are
    convertible once computed. *)
Definition canon {v : bool} : Is_true v -> Is_true v :=
  match v with true => fun _ => I | false => fun H => H end.
Definition mk (b : bytes) (H : valid_len b) : t :=
  exist _ b (canon (bool_decide_pack _ H)).

Definition try_from (b : bytes) : option t :=
  match decide (valid_len b) with
  | left H => Some (mk b H)
  | right _ => None
  end.

Definition hex_digit (z : Z) : byte :=
  if (z <? 10)%Z then as_u8 (48 + z) else as_u8 (87 + z).

Definition hex_byte (b : byte) : bytes := [hex_digit (u8 b / 16); hex_digit (u8 b mod 16)].
Definition to_hex (o : t) : bytes := mbind hex_byte (`o).

Definition hex_val (c : byte) : option Z :=
  if in_range 0x30 0x39 c then Some (u8 c - 48)%Z
  else if in_range 0x61 0x66 c then Some (u8 c - 87)%Z
  else if in_range 0x41 0x46 c then Some (u8 c - 55)%Z
  else None.

Fixpoint unhex (l : bytes) : option bytes :=
  match l with
  | [] => Some []
  | [_] => None
  | h :: d :: l' =>
      match hex_val h, hex_val d, unhex l' with
      | Some x, Some y, Some r => Some (as_u8 (x * 16 + y) :: r)
      | _, _, _ => None
      end
  end.

Definition from_hex (l : bytes) : option t :=
  match unhex l with Some b => try_from b | None => None end.

Lemma null_valid k : valid_len (repeat x00 (len_in_bytes k)).
Proof. destruct k; [by left | by right]. Qed.

Definition null (k : HashKind) : t := mk _ (null_valid k).

Definition le (o p : t) : bool := bytes_le (`o) (`p).

Lemma hex_digit_ok z : (0 <= z < 16)%Z ->
  hex_val (hex_digit z) = Some z /\ is_hex (hex_digit z) = true.
Proof.
  intros Hz. unfold hex_digit. destruct (Z.ltb_spec z 10); unfold hex_val, is_hex, in_range;
    rewrite !u8_as_u8_small by lia.
  - replace ((48 <=? 48 + z)%Z && (48 + z <=? 57)%Z) with true by lia.
    split; [f_equal; lia | done].
  - replace ((48 <=? 87 + z)%Z && (87 + z <=? 57)%Z) with false by lia.
    replace ((97 <=? 87 + z)%Z && (87 + z <=? 102)%Z) with true by lia.
    split; [f_equal; lia | done].
Qed.

Lemma nibbles b : (0 <= u8 b / 16 < 16)%Z /\ (0 <= u8 b mod 16 < 16)%Z.
Proof.
  pose proof (u8_range b). split; [| apply Z.mod_pos_bound; lia].
  split; [apply Z.div_pos; lia | apply Z.div_lt_upper_bound; lia].
Qed.

Lemma unhex_hex l : unhex (mbind hex_byte l) = Some l.
Proof.
  induction l as [| b l IH]; [done |]. cbn [mbind list_bind hex_byte app unhex].
  destruct (nibbles b) as [H1 H2].
  rewrite (proj1 (hex_digit_ok _ H1)), (proj1 (hex_digit_ok _ H2)).
  change (unhex (mbind hex_byte l)) with (unhex (mbind hex_byte l)) in IH.
  cbn [mbind] in IH. rewrite IH.
  replace (u8 b / 16 * 16 + u8 b mod 16)%Z with (u8 b); [by rewrite as_u8_u8 |].
  rewrite (Z.div_mod (u8 b) 16) at 1 by lia. lia.
Qed.

Lemma unhex_length b r : unhex b = Some r -> length b = 2 * length r.
Proof.
  remember (length b) as n eqn:Hn. revert b r Hn.
  induction (lt_wf n) as [n _ IH]; intros [| h [| d l]] r Hn; cbn [unhex]; intros H;
    [injection H as <-; done | done |].
  destruct (hex_val h), (hex_val d), (unhex l) as [r' |] eqn:E; try done. injection H as <-.
  cbn [length] in *. pose proof (IH (length l) ltac:(lia) l r' eq_refl E). lia.
Qed.

Lemma try_from_proj o : try_from (`o) = Some o.
Proof.
  unfold try_from. destruct (decide _) as [H | H].
  - f_equal. by apply dsig_eq.
  - exfalso. apply H. by apply (proj2_dsig o).
Qed.

#[global] Program Instance lib : OidLib t := {|
  oid_bytes := fun o => `o;
  oid_kind := kind;
  oid_try_from := try_from;
  oid_from_hex := from_hex;
  oid_to_hex := to_hex;
  oid_null := null;
  oid_le := le;
|}.
Next Obligation.
  intros o. unfold kind. pose proof (proj2_dsig o) as [H | H]; case_decide; simpl; congruence.
Qed.
Next Obligation. apply try_from_proj. Qed.
Next Obligation.
  intros b o. unfold try_from. case_match; [| done]. by intros [= <-].
Qed.
Next Obligation.
  intros b Hb. unfold try_from. destruct (decide _) as [? | []]; [by eexists | done].
Qed.
Next Obligation. intros o. unfold from_hex, to_hex. rewrite unhex_hex. apply try_from_proj. Qed.
Next Obligation.
  intros b o. unfold from_hex. destruct (unhex b) as [r |] eqn:E; [| done].
  rewrite (unhex_length b r E). unfold try_from. destruct (decide _) as [Hr |]; [| done].
  intros [= <-]. f_equal. unfold kind. cbn. case_decide; [done |]. destruct Hr; [done |]. done.
Qed.
Next Obligation.
  intros o. unfold to_hex. induction (`o) as [| b l IH]; [constructor |].
  cbn [mbind list_bind hex_byte app]. destruct (nibbles b) as [H1 H2].
  repeat constructor; [by apply hex_digit_ok.. | done].
Qed.
Next Obligation.
  intros o. unfold to_hex.
  transitivity (2 * length (`o)).
  - induction (`o) as [| b l IH]; [done |]. cbn [mbind list_bind hex_byte app length].
    cbn [mbind] in IH. lia.
  - f_equal. unfold kind. pose proof (proj2_dsig o) as [H | H]; case_decide; simpl; congruence.
Qed.
Next Obligation. by intros []. Qed.
Next Obligation. intros. apply bytes_le_total. Qed.
Next Obligation. intros ???. apply bytes_le_trans. Qed.
Next Obligation. intros ?? H1 H2. apply dsig_eq. by apply bytes_le_antisym. Qed.

(** The id whose bytes are all [b]: a convenient family of distinct ids. *)
Lemma fill_valid b : valid_len (repeat b 20).
Proof. by left. Qed.
Definition fill (b : byte) : t := mk _ (fill_valid b).
End HexOid.
