(* ===== verification/Keys.v ===== *)
(** * Storage keys ([src/storage/keys.rs])

    Every key is [segment | version | repo_id] followed by a segment-specific
    suffix.  The module defines the builders and decoders as the source does
    and shows that decoding inverts building, that no key of one segment or
    repository lies under another's prefix, and that key order is name order. *)

From S2P Require Import Prelude Bytes GixHash.
From stdpp Require Import strings.
From Stdlib Require Import Lia.

Definition KEY_VERSION : byte := x01.
Definition PREAMBLE_LEN : nat := 1 + 1 + 8.

(** [RepoId(pub u64)]. *)
Record RepoId : Set := mkRepoId { repo_u64 : Z }.

Definition RepoId_GLOBAL : RepoId := mkRepoId 0.

#[export] Instance RepoId_eq_dec : EqDecision RepoId.
Proof. solve_decision. Defined.

(** The field is a [u64]. *)
Definition repo_wf (r : RepoId) : Prop := is_u64 (repo_u64 r).

Inductive Segment : Set := Meta | Object | Ref | CommitGraph.

#[export] Instance Segment_eq_dec : EqDecision Segment.
Proof. solve_decision. Defined.

Definition segment_as_u8 (s : Segment) : byte :=
  match s with Meta => x00 | Object => x01 | Ref => x02 | CommitGraph => x03 end.

Inductive KeyError : Set :=
  | TooShort (expected actual : nat)
  | UnsupportedVersion (v : byte)
  | UnknownSegment (b : byte)
  | WrongSegment (expected actual : Segment)
  | InvalidUtf8
  | InvalidObjectIdLen (expected actual : nat).

Definition segment_try_from (value : byte) : result KeyError Segment :=
  match value with
  | x00 => Ok Meta
  | x01 => Ok Object
  | x02 => Ok Ref
  | x03 => Ok CommitGraph
  | other => Err (UnknownSegment other)
  end.

Definition encode_preamble (buf : bytes) (repo : RepoId) (segment : Segment) : bytes :=
  buf ++ [segment_as_u8 segment] ++ [KEY_VERSION] ++ be_bytes 8 (repo_u64 repo).

Definition decode_preamble (b : bytes) : result KeyError (RepoId * Segment * bytes) :=
  if length b <? PREAMBLE_LEN then Err (TooShort PREAMBLE_LEN (length b))
  else
    let version := nth 1 b x00 in
    if decide (version <> KEY_VERSION) then Err (UnsupportedVersion version)
    else
      let? segment := segment_try_from (nth 0 b x00) in
      let repo_id := from_be_bytes (take 8 (drop 2 b)) in
      Ok (mkRepoId repo_id, segment, drop PREAMBLE_LEN b).

Definition expect_segment (actual expected : Segment) : result KeyError unit :=
  if decide (actual = expected) then Ok tt else Err (WrongSegment expected actual).

Section keys.
Context {Oid : Type} `{OidLib Oid}.

Definition decode_oid (b : bytes) (hash_kind : HashKind) : result KeyError Oid :=
  let expected := len_in_bytes hash_kind in
  if decide (length b <> expected) then Err (InvalidObjectIdLen expected (length b))
  else ok_or (oid_try_from b) (InvalidObjectIdLen expected (length b)).

Definition meta_key (repo : RepoId) (name : bytes) : bytes :=
  encode_preamble [] repo Meta ++ name.

Definition decode_meta_key (b : bytes) : result KeyError (RepoId * bytes) :=
  let? (repo, segment, rest) := decode_preamble b in
  let? _ := expect_segment segment Meta in
  let? name := ok_or (from_utf8 rest) InvalidUtf8 in
  Ok (repo, name).

Definition object_key (repo : RepoId) (oid : Oid) : bytes :=
  encode_preamble [] repo Object ++ oid_bytes oid.

Definition decode_object_key (b : bytes) (hash_kind : HashKind) : result KeyError (RepoId * Oid) :=
  let? (repo, segment, rest) := decode_preamble b in
  let? _ := expect_segment segment Object in
  let? oid := decode_oid rest hash_kind in
  Ok (repo, oid).

Definition ref_key (repo : RepoId) (name : bytes) : bytes :=
  encode_preamble [] repo Ref ++ name.

Definition decode_ref_key (b : bytes) : result KeyError (RepoId * bytes) :=
  let? (repo, segment, rest) := decode_preamble b in
  let? _ := expect_segment segment Ref in
  let? name := ok_or (from_utf8 rest) InvalidUtf8 in
  Ok (repo, name).

Definition commit_key (repo : RepoId) (oid : Oid) : bytes :=
  encode_preamble [] repo CommitGraph ++ oid_bytes oid.

Definition decode_commit_key (b : bytes) (hash_kind : HashKind) : result KeyError (RepoId * Oid) :=
  let? (repo, segment, rest) := decode_preamble b in
  let? _ := expect_segment segment CommitGraph in
  let? oid := decode_oid rest hash_kind in
  Ok (repo, oid).

Definition segment_prefix (repo : RepoId) (segment : Segment) : bytes :=
  encode_preamble [] repo segment.

Definition ref_prefix (repo : RepoId) (utf8_prefix : bytes) : bytes :=
  segment_prefix repo Ref ++ utf8_prefix.

(** *** Lemmas *)

Lemma segment_round s : segment_try_from (segment_as_u8 s) = Ok s.
Proof. by destruct s. Qed.

Lemma segment_try_from_Ok b s : segment_try_from b = Ok s -> b = segment_as_u8 s.
Proof. destruct b; intros [= <-]; done. Qed.

Lemma encode_preamble_eq r s :
  encode_preamble [] r s = segment_as_u8 s :: KEY_VERSION :: be_bytes 8 (repo_u64 r).
Proof. done. Qed.

Lemma preamble_length r s : length (encode_preamble [] r s) = PREAMBLE_LEN.
Proof. unfold encode_preamble. simpl. done. Qed.

Lemma decode_encode_preamble r s rest :
  repo_wf r -> decode_preamble (encode_preamble [] r s ++ rest) = Ok (r, s, rest).
Proof.
  intros Hr. unfold decode_preamble.
  rewrite length_app, preamble_length.
  destruct (Nat.ltb_spec (PREAMBLE_LEN + length rest) PREAMBLE_LEN); [lia |].
  replace (drop PREAMBLE_LEN (encode_preamble [] r s ++ rest)) with rest
    by (by rewrite <- (preamble_length r s), drop_app_length).
  rewrite encode_preamble_eq, <- !app_comm_cons.
  change (nth 1 _ x00) with KEY_VERSION. rewrite decide_False by auto.
  change (nth 0 _ x00) with (segment_as_u8 s). rewrite segment_round.
  change (take 8 _) with (be_bytes 8 (repo_u64 r)).
  rewrite u64_round by done. by destruct r.
Qed.

(** What a preamble that decodes must look like. *)
Lemma decode_preamble_Ok b r s rest :
  decode_preamble b = Ok (r, s, rest) ->
  repo_wf r /\ b = encode_preamble [] r s ++ rest.
Proof.
  unfold decode_preamble. destruct (Nat.ltb_spec (length b) PREAMBLE_LEN); [done |].
  case_decide as Hv; [done |]. destruct (segment_try_from _) as [seg |] eqn:Es; [| done].
  intros [= <- <- <-]. apply segment_try_from_Ok in Es.
  unfold PREAMBLE_LEN in *.
  destruct b as [| b0 [| b1 b']]; cbn [length nth] in *; [lia | lia |].
  subst b0 b1.
  assert (length (take 8 b') = 8) as H8 by (rewrite length_take; lia).
  split.
  - pose proof (from_be_range (take 8 b')) as Hrange. rewrite H8 in Hrange. exact Hrange.
  - rewrite encode_preamble_eq.
    change (repo_u64 _) with (from_be_bytes (take 8 b')). rewrite be_bytes_from by done.
    exact (f_equal (fun l => segment_as_u8 seg :: KEY_VERSION :: l) (eq_sym (take_drop 8 b'))).
Qed.

Lemma segment_as_u8_inj s s' : segment_as_u8 s = segment_as_u8 s' -> s = s'.
Proof. by destruct s, s'. Qed.

Lemma encode_preamble_inj r s r' s' rest rest' :
  repo_wf r -> repo_wf r' ->
  encode_preamble [] r s ++ rest = encode_preamble [] r' s' ++ rest' ->
  r = r' /\ s = s' /\ rest = rest'.
Proof.
  intros Hr Hr' Heq.
  pose proof (decode_encode_preamble r s rest Hr) as H1.
  rewrite Heq, decode_encode_preamble in H1 by done. by simplify_eq.
Qed.

Lemma decode_oid_bytes o : decode_oid (oid_bytes o) (oid_kind o) = Ok o.
Proof.
  unfold decode_oid. rewrite oid_bytes_len. case_decide; [done |].
  by rewrite oid_try_from_bytes.
Qed.

Lemma decode_oid_Ok b k o : decode_oid b k = Ok o <-> oid_bytes o = b /\ oid_kind o = k.
Proof.
  split; [| intros [<- <-]; apply decode_oid_bytes].
  unfold decode_oid. case_decide as Hl; [done |].
  destruct (oid_try_from b) as [o' |] eqn:E; [| done]. intros [= <-].
  apply oid_try_from_sound in E. split; [done |].
  apply oid_kind_of_len. congruence.
Qed.

Lemma expect_segment_refl s : expect_segment s s = Ok tt.
Proof. by destruct s. Qed.

(** *** Properties *)

(** A preamble of the expected segment, then a checked remainder: the shape all
    four decoders share. *)
Lemma decode_segment_Ok b r seg rest :
  decode_preamble b = Ok (r, seg, rest) <-> repo_wf r /\ b = encode_preamble [] r seg ++ rest.
Proof.
  split; [apply decode_preamble_Ok |]. intros [Hr ->]. by apply decode_encode_preamble.
Qed.

Lemma decode_meta_key_Ok b r name :
  decode_meta_key b = Ok (r, name) <-> repo_wf r /\ utf8_valid name = true /\ b = meta_key r name.
Proof.
  unfold decode_meta_key, meta_key. split.
  - destruct (decode_preamble b) as [[[r' s] rest] |] eqn:E; [| done].
    apply decode_segment_Ok in E as [Hr ->]. unfold expect_segment. case_decide; [subst | done].
    cbn. destruct (from_utf8 rest) eqn:E; [| done]. apply from_utf8_Some in E as [-> ?].
    by intros [= <- <-].
  - intros (Hr & Hn & ->). rewrite decode_encode_preamble, expect_segment_refl by done.
    by rewrite from_utf8_valid.
Qed.

Lemma decode_ref_key_Ok b r name :
  decode_ref_key b = Ok (r, name) <-> repo_wf r /\ utf8_valid name = true /\ b = ref_key r name.
Proof.
  unfold decode_ref_key, ref_key. split.
  - destruct (decode_preamble b) as [[[r' s] rest] |] eqn:E; [| done].
    apply decode_segment_Ok in E as [Hr ->]. unfold expect_segment. case_decide; [subst | done].
    cbn. destruct (from_utf8 rest) eqn:E; [| done]. apply from_utf8_Some in E as [-> ?].
    by intros [= <- <-].
  - intros (Hr & Hn & ->). rewrite decode_encode_preamble, expect_segment_refl by done.
    by rewrite from_utf8_valid.
Qed.

Lemma decode_object_key_Ok b k r o :
  decode_object_key b k = Ok (r, o) <-> repo_wf r /\ oid_kind o = k /\ b = object_key r o.
Proof.
  unfold decode_object_key, object_key. split.
  - destruct (decode_preamble b) as [[[r' s] rest] |] eqn:E; [| done].
    apply decode_segment_Ok in E as [Hr ->]. unfold expect_segment. case_decide; [subst | done].
    cbn. destruct (decode_oid rest k) eqn:E; [| done]. apply decode_oid_Ok in E as [<- <-].
    by intros [= <- <-].
  - intros (Hr & <- & ->). rewrite decode_encode_preamble, expect_segment_refl by done.
    by rewrite decode_oid_bytes.
Qed.

Lemma decode_commit_key_Ok b k r o :
  decode_commit_key b k = Ok (r, o) <-> repo_wf r /\ oid_kind o = k /\ b = commit_key r o.
Proof.
  unfold decode_commit_key, commit_key. split.
  - destruct (decode_preamble b) as [[[r' s] rest] |] eqn:E; [| done].
    apply decode_segment_Ok in E as [Hr ->]. unfold expect_segment. case_decide; [subst | done].
    cbn. destruct (decode_oid rest k) eqn:E; [| done]. apply decode_oid_Ok in E as [<- <-].
    by intros [= <- <-].
  - intros (Hr & <- & ->). rewrite decode_encode_preamble, expect_segment_refl by done.
    by rewrite decode_oid_bytes.
Qed.

(** C36: the four key codecs.  A byte string decodes to a repository and a name
    or object id exactly when it is the key built from them — the repository
    id a u64, the name UTF-8, the object id of the width asked for — so
    decoding inverts building and no two keys decode alike. *)
Theorem key_codecs b r name o k :
  (decode_meta_key b = Ok (r, name)
     <-> repo_wf r /\ utf8_valid name = true /\ b = meta_key r name)
  /\ (decode_ref_key b = Ok (r, name)
     <-> repo_wf r /\ utf8_valid name = true /\ b = ref_key r name)
  /\ (decode_object_key b k = Ok (r, o) <-> repo_wf r /\ oid_kind o = k /\ b = object_key r o)
  /\ (decode_commit_key b k = Ok (r, o) <-> repo_wf r /\ oid_kind o = k /\ b = commit_key r o).
Proof.
  split; [apply decode_meta_key_Ok | split; [apply decode_ref_key_Ok |]].
  split; [apply decode_object_key_Ok | apply decode_commit_key_Ok].
Qed.

Lemma segment_prefix_spec r s r' s' rest :
  repo_wf r -> repo_wf r' ->
  segment_prefix r s `prefix_of` encode_preamble [] r' s' ++ rest <-> r = r' /\ s = s'.
Proof.
  intros Hr Hr'. unfold segment_prefix. split.
  - intros [k Hk]. symmetry in Hk.
    by apply encode_preamble_inj in Hk as (-> & -> & _).
  - intros [-> ->]. by apply prefix_app_r.
Qed.

(** Prefix scans are isolated: a key of repository [r'] lies under the
    segment prefix of [r] exactly when repository and segment agree, and a
    ref key lies under [ref_prefix r p] exactly when it is a ref of [r]
    whose name starts with [p]. *)
Theorem scan_isolation r r' s p name o :
  repo_wf r -> repo_wf r' ->
  (segment_prefix r s `prefix_of` meta_key r' name <-> r = r' /\ s = Meta)
  /\ (segment_prefix r s `prefix_of` object_key r' o <-> r = r' /\ s = Object)
  /\ (segment_prefix r s `prefix_of` ref_key r' name <-> r = r' /\ s = Ref)
  /\ (segment_prefix r s `prefix_of` commit_key r' o <-> r = r' /\ s = CommitGraph)
  /\ (ref_prefix r p `prefix_of` ref_key r' name <-> r = r' /\ p `prefix_of` name).
Proof.
  intros Hr Hr'. split_and!; try by apply segment_prefix_spec.
  unfold ref_prefix, ref_key, segment_prefix. split.
  - intros [k Hk]. rewrite <- app_assoc in Hk. symmetry in Hk.
    apply encode_preamble_inj in Hk as (-> & _ & <-); [| done..].
    split; [done | by exists k].
  - intros [-> Hp]. by apply prefix_app.
Qed.

(** Among the refs of one repository, key order is name order, so a
    prefix scan of the ordered store yields refs sorted by name. *)
Theorem ref_key_order r n m : bytes_le (ref_key r n) (ref_key r m) = bytes_le n m.
Proof. apply bytes_le_app. Qed.

(** The decoder's error branches: a short key, a wrong version byte, an
    unknown segment byte and a key of another segment are each reported as
    that error, tested in this order. *)
Theorem decode_ref_key_errors b :
  (length b < PREAMBLE_LEN -> decode_ref_key b = Err (TooShort PREAMBLE_LEN (length b)))
  /\ (PREAMBLE_LEN <= length b -> nth 1 b x00 <> KEY_VERSION ->
      decode_ref_key b = Err (UnsupportedVersion (nth 1 b x00)))
  /\ (PREAMBLE_LEN <= length b -> nth 1 b x00 = KEY_VERSION ->
      (4 <= u8 (nth 0 b x00))%Z -> decode_ref_key b = Err (UnknownSegment (nth 0 b x00)))
  /\ (forall s, PREAMBLE_LEN <= length b -> nth 1 b x00 = KEY_VERSION ->
      nth 0 b x00 = segment_as_u8 s -> s <> Ref ->
      decode_ref_key b = Err (WrongSegment Ref s))
  /\ (forall r name, repo_wf r -> utf8_valid name = false ->
      decode_ref_key (ref_key r name) = Err InvalidUtf8).
Proof.
  unfold decode_ref_key. split_and!.
  - intros Hl. unfold decode_preamble. by destruct (Nat.ltb_spec (length b) PREAMBLE_LEN); [| lia].
  - intros Hl Hv. unfold decode_preamble.
    destruct (Nat.ltb_spec (length b) PREAMBLE_LEN); [lia |]. by rewrite decide_True.
  - intros Hl Hv Hs. unfold decode_preamble.
    destruct (Nat.ltb_spec (length b) PREAMBLE_LEN); [lia |]. rewrite decide_False by auto.
    destruct (nth 0 b x00); cbn in Hs |- *; first [done | lia].
  - intros s Hl Hv Hs Hne. unfold decode_preamble.
    destruct (Nat.ltb_spec (length b) PREAMBLE_LEN); [lia |]. rewrite decide_False by auto.
    rewrite Hs, segment_round. unfold expect_segment. by rewrite decide_False.
  - intros r name Hr Hn. unfold ref_key. rewrite decode_encode_preamble by done.
    cbn. unfold from_utf8. by rewrite Hn.
Qed.
End keys.

(** *** Witnesses *)

Definition w_repo : RepoId := mkRepoId 42.
Definition w_oid : HexOid.t := HexOid.fill xaa.

Lemma w_repo_wf : repo_wf w_repo.
Proof. by compute. Qed.

Lemma scan_isolation_witness :
  ref_prefix w_repo (bs "refs/") `prefix_of` ref_key w_repo (bs "refs/heads/main")
  <-> w_repo = w_repo /\ bs "refs/" `prefix_of` bs "refs/heads/main".
Proof.
  pose proof (scan_isolation w_repo w_repo Ref (bs "refs/") (bs "refs/heads/main") w_oid
    w_repo_wf w_repo_wf) as (_ & _ & _ & _ & Hp).
  exact Hp.
Defined.

Lemma decode_ref_key_errors_witness :
  decode_ref_key [x02; x01] = Err (TooShort 10 2).
Proof. apply (proj1 (decode_ref_key_errors [x02; x01])). vm_compute. lia. Defined.
