(* ===== verification/Values.v ===== *)
(** * Storage values ([src/storage/values.rs])

    The tagged encodings of metadata settings, object records, ref targets and
    commit-graph records, with their decoders.  Round trips hold on every
    well-formed value; for commit-graph records this needs at most 255
    parents, because the count is stored in one byte. *)

From S2P Require Import Prelude Bytes GixHash.
From stdpp Require Import strings.
From Stdlib Require Import Lia.

Inductive ValueError : Set :=
  | Empty
  | UnknownTag (tag : byte)
  | Truncated
  | TrailingBytes
  | ValueInvalidUtf8
  | InvalidObjectId.

Definition read_u32_be (b : bytes) : Z := from_be_bytes (take 4 b).
Definition read_u64_be (b : bytes) : Z := from_be_bytes (take 8 b).

(** [slice::split_first] with the [Empty] error the decoders attach to it. *)
Definition split_first (b : bytes) : result ValueError (byte * bytes) :=
  match b with
  | [] => Err Empty
  | t :: rest => Ok (t, rest)
  end.

(** ** Metadata values *)

Inductive MetaValue : Set :=
  | Utf8 (s : bytes)
  | U8 (v : byte)
  | U32 (v : Z)
  | Raw (b : bytes).

Definition meta_wf (v : MetaValue) : Prop :=
  match v with
  | Utf8 s => utf8_valid s = true
  | U32 n => is_u32 n
  | U8 _ | Raw _ => True
  end.

Definition meta_encode (v : MetaValue) : bytes :=
  match v with
  | Utf8 s => x01 :: s
  | U8 n => [x02; n]
  | U32 n => x03 :: be_bytes 4 n
  | Raw b => x04 :: b
  end.

Definition meta_decode (b : bytes) : result ValueError MetaValue :=
  let? (tag, rest) := split_first b in
  match tag with
  | x01 => let? s := ok_or (from_utf8 rest) ValueInvalidUtf8 in Ok (Utf8 s)
  | x02 =>
      match rest with
      | [] => Err Truncated
      | [v] => Ok (U8 v)
      | _ => Err TrailingBytes
      end
  | x03 =>
      match Nat.compare (length rest) 4 with
      | Lt => Err Truncated
      | Eq => Ok (U32 (read_u32_be rest))
      | Gt => Err TrailingBytes
      end
  | x04 => Ok (Raw rest)
  | other => Err (UnknownTag other)
  end.

(** ** Object records *)

(** [gix_object::Kind]. *)
Inductive Kind : Set := KBlob | KTree | KCommit | KTag.

#[export] Instance Kind_eq_dec : EqDecision Kind.
Proof. solve_decision. Defined.

Inductive ObjectRecord : Set :=
  | BlobInline (uncompressed_len : Z) (zlib : bytes)
  | BlobPointer (size : Z)
  | Tree (uncompressed_len : Z) (zlib : bytes)
  | Commit (uncompressed_len : Z) (zlib : bytes)
  | Tag (uncompressed_len : Z) (zlib : bytes).

Definition record_kind (r : ObjectRecord) : Kind :=
  match r with
  | BlobInline _ _ | BlobPointer _ => KBlob
  | Tree _ _ => KTree
  | Commit _ _ => KCommit
  | Tag _ _ => KTag
  end.

Definition record_size (r : ObjectRecord) : Z :=
  match r with
  | BlobPointer size => size
  | BlobInline n _ | Tree n _ | Commit n _ | Tag n _ => n
  end.

Definition record_wf (r : ObjectRecord) : Prop := is_u64 (record_size r).

(** [tag | uncompressed_len (u64 BE) | zlib]. *)
Definition encode_compressed (tag : byte) (uncompressed_len : Z) (zlib : bytes) : bytes :=
  [tag] ++ be_bytes 8 uncompressed_len ++ zlib.

Definition decode_compressed (rest : bytes) : result ValueError (Z * bytes) :=
  if length rest <? 8 then Err Truncated
  else Ok (read_u64_be (take 8 rest), drop 8 rest).

Definition record_encode (r : ObjectRecord) : bytes :=
  match r with
  | BlobInline n zlib => encode_compressed x01 n zlib
  | BlobPointer size => x02 :: be_bytes 8 size
  | Tree n zlib => encode_compressed x03 n zlib
  | Commit n zlib => encode_compressed x04 n zlib
  | Tag n zlib => encode_compressed x05 n zlib
  end.

Definition record_decode (b : bytes) : result ValueError ObjectRecord :=
  let? (tag, rest) := split_first b in
  match tag with
  | x01 => let? (n, zlib) := decode_compressed rest in Ok (BlobInline n zlib)
  | x02 =>
      match Nat.compare (length rest) 8 with
      | Lt => Err Truncated
      | Eq => Ok (BlobPointer (read_u64_be rest))
      | Gt => Err TrailingBytes
      end
  | x03 => let? (n, zlib) := decode_compressed rest in Ok (Tree n zlib)
  | x04 => let? (n, zlib) := decode_compressed rest in Ok (Commit n zlib)
  | x05 => let? (n, zlib) := decode_compressed rest in Ok (Tag n zlib)
  | other => Err (UnknownTag other)
  end.

Section values.
Context {Oid : Type} `{OidLib Oid}.

(** ** Ref targets *)

Inductive RefTarget : Type :=
  | Direct (oid : Oid)
  | Reference (name : bytes).

#[export] Instance RefTarget_eq_dec : EqDecision RefTarget.
Proof. solve_decision. Defined.

Definition target_wf (t : RefTarget) : Prop :=
  match t with Direct _ => True | Reference n => utf8_valid n = true end.

Definition target_encode (t : RefTarget) : bytes :=
  match t with
  | Direct oid => x01 :: oid_bytes oid
  | Reference name => x02 :: name
  end.

Definition target_decode (b : bytes) : result ValueError RefTarget :=
  let? (tag, rest) := split_first b in
  match tag with
  | x01 => let? oid := ok_or (oid_try_from rest) InvalidObjectId in Ok (Direct oid)
  | x02 => let? s := ok_or (from_utf8 rest) ValueInvalidUtf8 in Ok (Reference s)
  | other => Err (UnknownTag other)
  end.

(** ** Commit-graph records *)

Record CommitGraphRecord : Type := mkCommitGraph {
  generation : Z;
  root_tree : Oid;
  parents : list Oid;
}.

(** [generation] is a [u32] and all ids have the repository's width. *)
Definition graph_wf (k : HashKind) (r : CommitGraphRecord) : Prop :=
  is_u32 (generation r) /\ oid_kind (root_tree r) = k
  /\ Forall (fun p => oid_kind p = k) (parents r).

(** Its parents' count fits its byte: what storing it relies on. *)
Definition graph_fits (k : HashKind) (r : CommitGraphRecord) : Prop :=
  graph_wf k r /\ length (parents r) <= 255.

Definition graph_encode (r : CommitGraphRecord) : bytes :=
  be_bytes 4 (generation r) ++ oid_bytes (root_tree r)
  ++ [as_u8 (Z.of_nat (length (parents r)))]
  ++ concat (map oid_bytes (parents r)).

(** The loop over the parents: each slice of [width] bytes in turn. *)
Fixpoint read_parents (width n : nat) (b : bytes) : result ValueError (list Oid) :=
  match n with
  | O => Ok []
  | S n' =>
      let? oid := ok_or (oid_try_from (take width b)) InvalidObjectId in
      let? rest := read_parents width n' (drop width b) in
      Ok (oid :: rest)
  end.

Definition graph_decode (b : bytes) (hash_kind : HashKind) : result ValueError CommitGraphRecord :=
  let width := len_in_bytes hash_kind in
  let header_len := 4 + width + 1 in
  if length b <? header_len then Err Truncated
  else
    let generation := read_u32_be (take 4 b) in
    let? root_tree := ok_or (oid_try_from (take width (drop 4 b))) InvalidObjectId in
    let parent_count := Z.to_nat (u8 (nth (4 + width) b x00)) in
    let expected_len := header_len + parent_count * width in
    match Nat.compare (length b) expected_len with
    | Lt => Err Truncated
    | Gt => Err TrailingBytes
    | Eq =>
        let? parents := read_parents width parent_count (drop header_len b) in
        Ok (mkCommitGraph generation root_tree parents)
    end.
End values.
Arguments RefTarget : clear implicits.
Arguments CommitGraphRecord : clear implicits.

(** ** Lemmas *)

Lemma read_u64_exact b : length b = 8 -> read_u64_be b = from_be_bytes b.
Proof. intros Hb. unfold read_u64_be. by rewrite take_ge by lia. Qed.

Lemma read_u32_exact b : length b = 4 -> read_u32_be b = from_be_bytes b.
Proof. intros Hb. unfold read_u32_be. by rewrite take_ge by lia. Qed.

Lemma decode_compressed_app n z :
  is_u64 n -> decode_compressed (be_bytes 8 n ++ z) = Ok (n, z).
Proof.
  intros Hn. unfold decode_compressed. rewrite length_app, length_be_bytes.
  destruct (Nat.ltb_spec (8 + length z) 8); [lia |].
  rewrite take_app_length', drop_app_length' by (by rewrite length_be_bytes).
  by rewrite read_u64_exact, u64_round by (done || apply length_be_bytes).
Qed.

Lemma decode_compressed_Ok b n z :
  decode_compressed b = Ok (n, z) -> is_u64 n /\ b = be_bytes 8 n ++ z.
Proof.
  unfold decode_compressed. destruct (Nat.ltb_spec (length b) 8); [done |].
  intros [= <- <-].
  assert (length (take 8 b) = 8) as Hl by (rewrite length_take; lia).
  rewrite read_u64_exact, be_bytes_from by done.
  split; [| by rewrite take_drop].
  pose proof (from_be_range (take 8 b)) as Hr. by rewrite Hl in Hr.
Qed.

Lemma exact_u64 rest : length rest = 8 ->
  is_u64 (read_u64_be rest) /\ be_bytes 8 (read_u64_be rest) = rest.
Proof.
  intros Hl. rewrite read_u64_exact, be_bytes_from by done. split; [| done].
  pose proof (from_be_range rest) as Hr. by rewrite Hl in Hr.
Qed.

Lemma exact_u32 rest : length rest = 4 ->
  is_u32 (read_u32_be rest) /\ be_bytes 4 (read_u32_be rest) = rest.
Proof.
  intros Hl. rewrite read_u32_exact, be_bytes_from by done. split; [| done].
  pose proof (from_be_range rest) as Hr. by rewrite Hl in Hr.
Qed.

(** Metadata values round trip, and the decoder accepts exactly the
    encodings of well-formed values. *)
Lemma meta_codec b v :
  (meta_wf v -> meta_decode (meta_encode v) = Ok v)
  /\ (meta_decode b = Ok v <-> meta_wf v /\ b = meta_encode v).
Proof.
  assert (meta_wf v -> meta_decode (meta_encode v) = Ok v) as Hround.
  { destruct v; unfold meta_decode; cbn [meta_encode split_first meta_wf]; intros Hwf; try done.
    - by rewrite from_utf8_valid.
    - rewrite length_be_bytes. cbn [Nat.compare].
      by rewrite read_u32_exact, u32_round by (done || apply length_be_bytes). }
  split; [done |]. split; [| intros [Hwf ->]; auto].
  destruct b as [| t rest]; [done |]. unfold meta_decode. cbn [split_first].
  destruct t; try done; cbn.
  - destruct (from_utf8 rest) eqn:E; intros [= <-]. apply from_utf8_Some in E as [-> ?]. done.
  - destruct rest as [| ? [|]]; by intros [= <-].
  - destruct (Nat.compare_spec (length rest) 4) as [Hl | |]; intros [= <-].
    apply exact_u32 in Hl as [? Hb]. cbn [meta_wf meta_encode]. by rewrite Hb.
  - by intros [= <-].
Qed.

(** Object records round trip, the decoder accepts exactly the encodings
    of well-formed records, and the kind is determined by the tag byte
    alone. *)
Lemma record_codec b r :
  (record_wf r -> record_decode (record_encode r) = Ok r)
  /\ (record_decode b = Ok r <-> record_wf r /\ b = record_encode r).
Proof.
  assert (record_wf r -> record_decode (record_encode r) = Ok r) as Hround.
  { unfold record_wf. destruct r; cbn [record_size]; intros Hwf;
      unfold record_decode; cbn [record_encode];
      try (unfold encode_compressed; cbn [app split_first]; by rewrite decode_compressed_app).
    cbn [split_first]. rewrite length_be_bytes. cbn [Nat.compare].
    by rewrite read_u64_exact, u64_round by (done || apply length_be_bytes). }
  split; [done |]. split; [| intros [Hwf ->]; auto].
  destruct b as [| t rest]; [done |]. unfold record_decode. cbn [split_first].
  destruct t; try done; cbn.
  2: { destruct (Nat.compare_spec (length rest) 8) as [Hl | |]; intros [= <-].
       apply exact_u64 in Hl as [? Hb]. unfold record_wf. cbn [record_size record_encode]. by rewrite Hb. }
  all: destruct (decode_compressed rest) as [[n z] |] eqn:E; intros [= <-].
  all: by apply decode_compressed_Ok in E as [? ->].
Qed.

(** The record decoder reports truncation, trailing bytes and unknown
    tags: an inline payload needs its eight length bytes, a pointer payload is
    exactly eight bytes. *)
Theorem record_decode_errors rest :
  record_decode [] = Err Empty
  /\ (forall t, t ∈ [x01; x03; x04; x05] -> length rest < 8 ->
        record_decode (t :: rest) = Err Truncated)
  /\ (length rest < 8 -> record_decode (x02 :: rest) = Err Truncated)
  /\ (8 < length rest -> record_decode (x02 :: rest) = Err TrailingBytes)
  /\ (forall t, (u8 t = 0 \/ 5 < u8 t)%Z -> record_decode (t :: rest) = Err (UnknownTag t)).
Proof.
  unfold record_decode. cbn [split_first]. split_and!; [done | | | |].
  - intros t Ht Hl. assert (decode_compressed rest = Err Truncated) as E.
    { unfold decode_compressed. by destruct (Nat.ltb_spec (length rest) 8); [| lia]. }
    set_unfold. destruct Ht as [-> | [-> | [-> | [-> | []]]]]; by rewrite E.
  - intros. destruct (Nat.compare_spec (length rest) 8); (done || lia).
  - intros. destruct (Nat.compare_spec (length rest) 8); (done || lia).
  - intros t Ht. destruct t; try done; cbn in Ht; lia.
Qed.

Section graph.
Context {Oid : Type} `{OidLib Oid}.

(** Ref targets round trip: a direct target of either width and a
    symbolic target come back unchanged, and nothing else decodes. *)
Lemma target_codec b (t : RefTarget Oid) :
  (target_wf t -> target_decode (target_encode t) = Ok t)
  /\ (target_decode b = Ok t <-> target_wf t /\ b = target_encode t).
Proof.
  assert (target_wf t -> target_decode (target_encode t) = Ok t) as Hround.
  { destruct t; unfold target_decode; cbn [target_encode split_first target_wf]; intros Hwf.
    - by rewrite oid_try_from_bytes.
    - by rewrite from_utf8_valid. }
  split; [done |]. split; [| intros [Hwf ->]; auto].
  destruct b as [| tag rest]; [done |]. unfold target_decode. cbn [split_first].
  destruct tag; try done; cbn.
  - destruct (oid_try_from rest) eqn:E; intros [= <-].
    by apply oid_try_from_sound in E as <-.
  - destruct (from_utf8 rest) eqn:E; intros [= <-]. by apply from_utf8_Some in E as [-> ?].
Qed.

Lemma read_parents_concat k (ps : list Oid) :
  Forall (fun p => oid_kind p = k) ps ->
  read_parents (len_in_bytes k) (length ps) (concat (map oid_bytes ps)) = Ok ps.
Proof.
  induction 1 as [| p ps Hp _ IH]; [done |].
  cbn [length map concat read_parents].
  rewrite take_app_length', drop_app_length' by (by rewrite oid_bytes_len, Hp).
  by rewrite oid_try_from_bytes, IH.
Qed.

Lemma length_parents k (ps : list Oid) :
  Forall (fun p => oid_kind p = k) ps ->
  length (concat (map oid_bytes ps)) = length ps * len_in_bytes k.
Proof.
  induction 1 as [| p ps Hp _ IH]; [done |].
  cbn [length map concat]. rewrite length_app, oid_bytes_len, Hp, IH. lia.
Qed.

Lemma read_parents_Ok k n b (ps : list Oid) :
  length b = n * len_in_bytes k ->
  read_parents (len_in_bytes k) n b = Ok ps ->
  length ps = n /\ Forall (fun p => oid_kind p = k) ps /\ concat (map oid_bytes ps) = b.
Proof.
  revert b ps. induction n as [| n IH]; intros b ps Hlen; cbn [read_parents].
  { intros [= <-]. by destruct b. }
  destruct (oid_try_from _) as [p |] eqn:Ep; [| done]. cbn [ok_or].
  destruct (read_parents _ n _) as [rest |] eqn:Er; [| done]. intros [= <-].
  apply IH in Er as (Hn & Hk & Hc); [| rewrite length_drop; lia].
  apply oid_try_from_sound in Ep. cbn [length map concat]. rewrite Hn, Hc, Ep.
  split_and!; [done | | apply take_drop].
  constructor; [| done]. apply oid_kind_of_len. rewrite Ep, length_take. lia.
Qed.

(** The shape of an encoded record: everything before the parents. *)
Lemma graph_decode_encode k (r : CommitGraphRecord Oid) :
  graph_wf k r ->
  graph_decode (graph_encode r) k =
    let n := Z.to_nat (Z.of_nat (length (parents r)) mod 256) in
    match Nat.compare (length (parents r) * len_in_bytes k) (n * len_in_bytes k) with
    | Lt => Err Truncated
    | Gt => Err TrailingBytes
    | Eq =>
        let? ps := read_parents (len_in_bytes k) n (concat (map oid_bytes (parents r))) in
        Ok (mkCommitGraph (generation r) (root_tree r) ps)
    end.
Proof.
  intros (Hg & Hroot & Hps). unfold graph_decode, graph_encode.
  set (w := len_in_bytes k). set (tail := concat (map oid_bytes (parents r))).
  assert (length (oid_bytes (root_tree r)) = w) as Hw by (by rewrite oid_bytes_len, Hroot).
  assert (length tail = length (parents r) * w) as Ht by by apply length_parents.
  set (b := be_bytes 4 (generation r) ++ _).
  assert (length b = 4 + w + 1 + length (parents r) * w) as Hb.
  { unfold b. rewrite !length_app, length_be_bytes, Hw, Ht. cbn [length]. lia. }
  assert (drop 4 b = oid_bytes (root_tree r) ++ [as_u8 (Z.of_nat (length (parents r)))] ++ tail)
    as Hd4 by (unfold b; by rewrite drop_app_length').
  assert (drop (4 + w) b = [as_u8 (Z.of_nat (length (parents r)))] ++ tail) as Hdw.
  { by rewrite <- drop_drop, Hd4, drop_app_length'. }
  rewrite Hb. destruct (Nat.ltb_spec (4 + w + 1 + length (parents r) * w) (4 + w + 1)); [lia |].
  rewrite Hd4, take_app_length', oid_try_from_bytes by done. cbn [ok_or].
  replace (take 4 b) with (be_bytes 4 (generation r)) by (unfold b; by rewrite take_app_length').
  rewrite read_u32_exact, u32_round by (done || apply length_be_bytes).
  replace (nth (4 + w) b x00) with (as_u8 (Z.of_nat (length (parents r)))).
  2: { rewrite <- (Nat.add_0_r (4 + w)), <- nth_skipn. by rewrite Hdw. }
  rewrite <- (drop_drop b 1 (4 + w)), Hdw. cbn [drop app]. rewrite u8_as_u8. cbv zeta.
  set (n := Z.to_nat _).
  destruct (Nat.compare_spec (4 + w + 1 + length (parents r) * w) (4 + w + 1 + n * w)),
    (Nat.compare_spec (length (parents r) * w) (n * w)); first [done | lia].
Qed.

(** Commit-graph records round trip as long as the commit has at most
    255 parents, whatever the hash width. *)
Lemma graph_decode_round k (r : CommitGraphRecord Oid) :
  graph_wf k r -> length (parents r) <= 255 ->
  graph_decode (graph_encode r) k = Ok r.
Proof.
  intros Hwf Hn. rewrite graph_decode_encode by done. cbv zeta.
  rewrite Z.mod_small, Nat2Z.id by lia. rewrite Nat.compare_refl.
  rewrite read_parents_concat by apply Hwf. by destruct r.
Qed.

(** The parent count is truncated to one byte, so the record of a commit
    with 256 or more parents is written but can never be read back: the
    decoder takes the surplus for trailing bytes. *)
Theorem commit_graph_many_parents k (r : CommitGraphRecord Oid) :
  graph_wf k r -> 256 <= length (parents r) ->
  graph_decode (graph_encode r) k = Err TrailingBytes.
Proof.
  intros Hwf Hn. rewrite graph_decode_encode by done. cbv zeta.
  pose proof (Z.mod_pos_bound (Z.of_nat (length (parents r))) 256 eq_refl).
  destruct (Nat.compare_spec (length (parents r) * len_in_bytes k)
    (Z.to_nat (Z.of_nat (length (parents r)) mod 256) * len_in_bytes k)); [| | done].
  all: destruct k; cbn [len_in_bytes] in *; lia.
Qed.

(** A record that decodes is the one its bytes encode: decoding is
    injective and the decoded ids all have the requested width. *)
Lemma graph_decode_Ok k b (r : CommitGraphRecord Oid) :
  graph_decode b k = Ok r ->
  graph_wf k r /\ length (parents r) <= 255 /\ b = graph_encode r.
Proof.
  unfold graph_decode. set (w := len_in_bytes k).
  destruct (Nat.ltb_spec (length b) (4 + w + 1)) as [| Hlen]; [done |].
  destruct (oid_try_from (take w (drop 4 b))) as [root |] eqn:Er; [| done]. cbn [ok_or].
  set (n := Z.to_nat (u8 (nth (4 + w) b x00))).
  destruct (Nat.compare_spec (length b) (4 + w + 1 + n * w)) as [Heq | |]; [| done..].
  destruct (read_parents w n (drop (4 + w + 1) b)) as [ps |] eqn:Ep; [| done].
  intros [= <-].
  apply read_parents_Ok in Ep as (Hnp & Hps & Hcat);
    [| rewrite length_drop; unfold w in *; lia].
  apply oid_try_from_sound in Er.
  assert (length (take 4 b) = 4) as H4 by (rewrite length_take; lia).
  destruct (exact_u32 _ H4) as [Hg Hb4].
  pose proof (u8_range (nth (4 + w) b x00)).
  assert (as_u8 (Z.of_nat (length ps)) = nth (4 + w) b x00) as Hcount.
  { rewrite Hnp. unfold n. rewrite Z2Nat.id by lia. apply as_u8_u8. }
  split; [split; [exact Hg | split; [| exact Hps]] | split; cbn [parents]; [lia |]].
  - cbn [root_tree]. apply oid_kind_of_len. rewrite Er, length_take, length_drop. fold w. lia.
  - unfold graph_encode. cbn [parents generation root_tree].
    rewrite Hb4, Er, Hcount, Hcat.
    rewrite <- (take_drop 4 b) at 1. f_equal.
    rewrite <- (take_drop w (drop 4 b)) at 1. f_equal. rewrite drop_drop.
    destruct (drop (4 + w) b) as [| c rest] eqn:Ed.
    { apply (f_equal length) in Ed. rewrite length_drop in Ed. cbn in Ed. lia. }
    rewrite <- (Nat.add_0_r (4 + w)), <- nth_skipn, Ed. cbn [nth app]. f_equal.
    by rewrite Nat.add_0_r, <- (drop_drop b 1 (4 + w)), Ed.
Qed.
(** C37: the four value codecs.  A byte string decodes to a metadata value, an
    object record, a ref target or a commit-graph record exactly when it is
    the encoding of that value, the value being well formed: text UTF-8,
    lengths and counters in their integer ranges, ids of the hash width asked
    for, and at most 255 parents in a graph record. *)
Theorem value_codecs b v rec t k (g : CommitGraphRecord Oid) :
  (meta_decode b = Ok v <-> meta_wf v /\ b = meta_encode v)
  /\ (record_decode b = Ok rec <-> record_wf rec /\ b = record_encode rec)
  /\ (target_decode b = Ok t <-> target_wf t /\ b = target_encode (Oid := Oid) t)
  /\ (graph_decode b k = Ok g
      <-> graph_wf k g /\ length (parents g) <= 255 /\ b = graph_encode g).
Proof.
  split; [apply meta_codec | split; [apply record_codec | split; [apply target_codec |]]].
  split; [apply graph_decode_Ok |]. intros (Hwf & Hn & ->). by apply graph_decode_round.
Qed.

End graph.

(** *** Witnesses *)

Definition w_record : ObjectRecord := Commit 215 [x78; x9c; x01].
Definition w_graph : CommitGraphRecord HexOid.t :=
  mkCommitGraph 7 (HexOid.fill x11) [HexOid.fill x22; HexOid.fill x33].
Definition w_octopus : CommitGraphRecord HexOid.t :=
  mkCommitGraph 7 (HexOid.fill x11) (repeat (HexOid.fill x22) 256).

Lemma w_graph_wf : graph_wf Sha1 w_graph.
Proof. split; [by compute | split; [done | by repeat constructor]]. Qed.

Lemma w_octopus_wf : graph_wf Sha1 w_octopus.
Proof.
  split; [by compute | split; [done |]]. apply Forall_forall. intros x Hx.
  apply list_elem_of_In, repeat_spec in Hx. by subst.
Qed.

Lemma record_decode_errors_witness : record_decode [x02; x00] = Err Truncated.
Proof.
  pose proof (record_decode_errors [x00]) as (_ & _ & Hp & _). apply Hp. simpl. lia.
Defined.

Lemma commit_graph_many_parents_witness :
  graph_wf Sha1 w_octopus /\ graph_decode (graph_encode w_octopus) Sha1 = Err TrailingBytes.
Proof.
  split; [exact w_octopus_wf |].
  apply (commit_graph_many_parents Sha1 w_octopus w_octopus_wf). vm_compute. lia.
Defined.

