(* ===== verification/Zlib.v ===== *)
(** * Object compression ([src/storage/zlib.rs])

    The zlib implementation itself is a library; [ZlibLib] states what it
    documents, and [deflate] and [inflate] are the program's two wrappers. *)

From S2P Require Import Prelude Bytes.
From stdpp Require Import numbers.
From Stdlib Require Import Lia.

(** The codec: [compress_slice out_len content level] writes a stream into a
    buffer of [out_len] bytes, [decompress_slice] inflates one; both return the
    part of the buffer written and whether the return code is [Ok]. *)
Class ZlibLib : Type := {
  compress_bound : nat -> nat;
  compress_slice : nat -> bytes -> Z -> bytes * bool;
  decompress_slice : nat -> bytes -> bytes * bool;
  (** a buffer of the documented bound is always enough *)
  compress_ok : forall content level, (0 <= level <= 9)%Z ->
    (compress_slice (compress_bound (length content)) content level).2 = true;
  (** inflating a stream the codec made restores the content in a buffer that
      holds it, and fails in a smaller one *)
  decompress_compress : forall content level n,
    (0 <= level <= 9)%Z -> length content <= n ->
    decompress_slice n (compress_slice (compress_bound (length content)) content level).1
    = (content, true);
  decompress_compress_small : forall content level n,
    (0 <= level <= 9)%Z -> n < length content ->
    (decompress_slice n (compress_slice (compress_bound (length content)) content level).1).2
    = false;
}.

(** A concrete codec: stored streams behind a marker byte. *)
Module StoredZlib.

Definition compress (n : nat) (content : bytes) (_ : Z) : bytes * bool :=
  if decide (S (length content) <= n) then (x78 :: content, true) else ([], false).

Definition decompress (n : nat) (z : bytes) : bytes * bool :=
  match z with
  | x78 :: content =>
      if decide (length content <= n) then (content, true) else (take n content, false)
  | _ => ([], false)
  end.

#[refine] Definition lib : ZlibLib := {|
  compress_bound := S;
  compress_slice := compress;
  decompress_slice := decompress;
|}.
Proof.
  - intros. unfold compress. by rewrite decide_True by lia.
  - intros. unfold compress. rewrite decide_True by lia. cbn. by rewrite decide_True.
  - intros. unfold compress. rewrite decide_True by lia. cbn. by rewrite decide_False by lia.
Defined.

End StoredZlib.

Section Zlib.
Context {Zl : ZlibLib}.

Definition deflate (content : bytes) (level : Z) : bytes :=
  (compress_slice (compress_bound (length content)) content level).1.

Definition inflate (zlib : bytes) (uncompressed_len : Z) : option bytes :=
  let '(content, code) := decompress_slice (Z.to_nat uncompressed_len) zlib in
  if code && (Z.of_nat (length content) =? uncompressed_len)%Z then Some content else None.

Lemma inflate_length z n b : inflate z n = Some b -> Z.of_nat (length b) = n.
Proof.
  unfold inflate. destruct (decompress_slice _ z) as [c code].
  destruct code; [| done]. cbn. destruct (Z.eqb_spec (Z.of_nat (length c)) n); [| done].
  by intros [= <-].
Qed.

Lemma inflate_deflate b level :
  (0 <= level <= 9)%Z -> inflate (deflate b level) (Z.of_nat (length b)) = Some b.
Proof.
  intros Hl. unfold inflate, deflate.
  rewrite decompress_compress by (try done; lia). cbn. by rewrite Z.eqb_refl.
Qed.

(** Stored content inflates back, at any level it was written with, to
    exactly the bytes deflated — and to nothing under any other recorded
    length. *)
Theorem inflate_deflate_iff content level n :
  (0 <= level <= 9)%Z -> (0 <= n)%Z ->
  inflate (deflate content level) n
  = if decide (n = Z.of_nat (length content)) then Some content else None.
Proof.
  intros Hl Hn. case_decide as E; [subst; by apply inflate_deflate |].
  unfold inflate, deflate. destruct (decide (length content <= Z.to_nat n)).
  - rewrite decompress_compress by done. cbn.
    by destruct (Z.eqb_spec (Z.of_nat (length content)) n).
  - pose proof (decompress_compress_small content level (Z.to_nat n) Hl ltac:(lia)) as H.
    destruct (decompress_slice _ _) as [c code]. cbn in H. by rewrite H.
Qed.

End Zlib.

Lemma inflate_deflate_iff_witness :
  @inflate StoredZlib.lib (@deflate StoredZlib.lib [x61; x62] 6) 3 = None.
Proof. exact (@inflate_deflate_iff StoredZlib.lib [x61; x62] 6 3 ltac:(lia) ltac:(lia)). Defined.
