(* ===== verification/PackDelta.v ===== *)
(** * The delta encoder ([src/git/pack_out.rs], the codec half)

    Git's delta instruction stream as the pack writer produces it: the size
    varint, insert and copy instructions, the rolling block fingerprint, the
    block index over a base and the scan of a target.  [apply_delta] is the
    reader's side, the format git documents; the main theorem says that
    whatever [make_delta] returns, applying it to the base gives the target. *)

From S2P Require Import Prelude Bytes.
From stdpp Require Import numbers strings.
From Stdlib Require Import Lia.

Definition MIN_COPY : nat := 16.
Definition MAX_BLOCK_MATCHES : nat := 4.
Definition PROBE_WINDOW : nat := 8.
Definition HASH_BASE : Z := 0x9e3779b97f4a7c15.

(** [while n < exp { acc = acc.wrapping_mul(base) }]. *)
Fixpoint wrapping_pow (base : Z) (exp : nat) : Z :=
  match exp with
  | O => 1
  | S n => wrap 64 (wrapping_pow base n * base)
  end.

Definition HASH_TOP : Z := wrapping_pow HASH_BASE (MIN_COPY - 1).

(** ** Sizes, inserts and copies *)

(** One pass of the loop of [encode_size] per fuel unit; ten suffice for a
    [u64]. *)
Fixpoint encode_size_loop (fuel : nat) (size : Z) (out : bytes) : bytes :=
  match fuel with
  | O => out
  | S fuel' =>
      let byte := Z.land size 0x7f in
      let size := Z.shiftr size 7 in
      let byte := if (size =? 0)%Z then byte else Z.lor byte 0x80 in
      let out := out ++ [as_u8 byte] in
      if (size =? 0)%Z then out else encode_size_loop fuel' size out
  end.

Definition encode_size (size : Z) (out : bytes) : bytes := encode_size_loop 10 size out.

Definition append_insert (out : bytes) (data : bytes) : bytes :=
  fold_left (fun out chunk =>
    if decide (chunk = []) then out
    else out ++ [as_u8 (Z.of_nat (length chunk))] ++ chunk) (chunks 127 data) out.

(** The inner loops of [append_copy]: set the command bit of every nonzero
    byte of [v] and push that byte. *)
Definition push_fields (v : Z) (fields : list (Z * Z)) (acc : Z * bytes) : Z * bytes :=
  fold_left (fun '(command, payload) '(bit, shift) =>
    let byte := Z.land (Z.shiftr v shift) 0xff in
    if (byte =? 0)%Z then (command, payload)
    else (Z.lor command bit, payload ++ [as_u8 byte])) fields acc.

Definition offset_fields : list (Z * Z) := [(0x01, 0); (0x02, 8); (0x04, 16); (0x08, 24)]%Z.
Definition size_fields : list (Z * Z) := [(0x10, 0); (0x20, 8); (0x40, 16)]%Z.

Definition copy_command (offset chunk_len : Z) : Z * bytes :=
  let acc := push_fields offset offset_fields (0x80%Z, []) in
  if (chunk_len =? 0x10000)%Z then acc else push_fields chunk_len size_fields acc.

Fixpoint append_copy_loop (fuel : nat) (out : bytes) (offset len : Z) : bytes :=
  match fuel with
  | O => out
  | S fuel' =>
      if (len =? 0)%Z then out
      else
        let chunk_len := Z.min len 0x10000 in
        let '(command, payload) := copy_command offset chunk_len in
        append_copy_loop fuel' (out ++ [as_u8 command] ++ payload)
          (offset + chunk_len) (len - chunk_len)
  end.

(** Every pass but the last consumes 64 KiB. *)
Definition append_copy (out : bytes) (offset len : nat) : bytes :=
  append_copy_loop (S (Z.to_nat (Z.of_nat len / 0x10000) + 1)) out (Z.of_nat offset) (Z.of_nat len).

(** ** Common prefixes, a word at a time *)

Definition from_le_bytes (l : bytes) : Z := fold_right (fun b acc => u8 b + 256 * acc)%Z 0%Z l.

Fixpoint ctz_pos (p : positive) : Z :=
  match p with
  | xO p' => 1 + ctz_pos p'
  | _ => 0
  end.

(** [u64::trailing_zeros]. *)
Definition trailing_zeros (z : Z) : Z :=
  match z with
  | Z0 => 64
  | Zpos p => ctz_pos p
  | Zneg p => ctz_pos p
  end.

(** The byte loop that finishes the comparison. *)
Fixpoint common_prefix_tail (a b : bytes) : nat :=
  match a, b with
  | x :: a', y :: b' => if decide (x = y) then S (common_prefix_tail a' b') else 0
  | _, _ => 0
  end.

(** [fuel] bounds the number of words; [len] is the length matched so far and
    [a], [b] are what follows it. *)
Fixpoint common_prefix_words (fuel len : nat) (a b : bytes) : nat :=
  match fuel with
  | O => len + common_prefix_tail a b
  | S fuel' =>
      if 8 <=? length a `min` length b then
        let x := from_le_bytes (take 8 a) in
        let y := from_le_bytes (take 8 b) in
        if (x =? y)%Z then common_prefix_words fuel' (len + 8) (drop 8 a) (drop 8 b)
        else len + Z.to_nat (trailing_zeros (Z.lxor x y) / 8)
      else len + common_prefix_tail a b
  end.

Definition common_prefix (a b : bytes) : nat :=
  common_prefix_words (S (length a `min` length b)) 0 a b.

(** ** Block fingerprints *)

Definition block_hash (window : bytes) : Z :=
  fold_left (fun hash byte => wrap 64 (wrap 64 (hash * HASH_BASE) + u8 byte)) window 0%Z.

Definition roll_hash (hash : Z) (out_byte in_byte : byte) : Z :=
  wrap 64 (wrap 64 (wrap 64 (hash - wrap 64 (u8 out_byte * HASH_TOP)) * HASH_BASE) + u8 in_byte).

(** ** The block index *)

Record BlockIndex : Type := mkBlockIndex {
  slots : list Z;
  shift : Z;
}.

Definition home_of (idx : BlockIndex) (fingerprint : Z) : nat :=
  Z.to_nat (Z.shiftr (wrap 64 (fingerprint * HASH_BASE)) (shift idx)).

(** [None] is the out-of-range panic of the slice. *)
Definition window_of (idx : BlockIndex) (fingerprint : Z) : option (list Z * Z) :=
  let home := home_of idx fingerprint in
  if decide (home + PROBE_WINDOW <= length (slots idx)) then
    Some (take PROBE_WINDOW (drop home (slots idx)), Z.shiftr fingerprint 32)
  else None.

(** The probe loop over [n] slots from [slot]: take the first free one unless
    [MAX_BLOCK_MATCHES] entries already carry the tag. *)
Fixpoint index_insert_loop (n slot duplicates : nat) (tag : Z) (offset : nat) (s : list Z) : list Z :=
  match n with
  | O => s
  | S n' =>
      let entry := nth slot s 0%Z in
      if (entry =? 0)%Z then
        <[slot := Z.lor (Z.shiftl tag 32) (Z.of_nat offset + 1)]> s
      else if (Z.shiftr entry 32 =? tag)%Z then
        if MAX_BLOCK_MATCHES <=? S duplicates then s
        else index_insert_loop n' (S slot) (S duplicates) tag offset s
      else index_insert_loop n' (S slot) duplicates tag offset s
  end.

Definition index_insert (idx : BlockIndex) (fingerprint : Z) (offset : nat) : BlockIndex :=
  mkBlockIndex
    (index_insert_loop PROBE_WINDOW (home_of idx fingerprint) 0 (Z.shiftr fingerprint 32) offset
       (slots idx))
    (shift idx).

(** [usize::next_power_of_two]. *)
Definition next_power_of_two (n : Z) : Z := if (n <=? 1)%Z then 1 else 2 ^ Z.log2_up n.

Definition block_index (base : bytes) : BlockIndex :=
  let blocks := Z.of_nat (length base / MIN_COPY) in
  let homes := Z.max (next_power_of_two (blocks * 4)) (Z.of_nat PROBE_WINDOW) in
  let index := mkBlockIndex (repeat 0%Z (Z.to_nat homes + PROBE_WINDOW)) (64 - trailing_zeros homes) in
  if length base <? MIN_COPY then index
  else
    fold_left (fun index offset =>
      index_insert index (block_hash (take MIN_COPY (drop offset base))) offset)
      (map (fun i => i * MIN_COPY) (seq 0 ((length base - MIN_COPY) / MIN_COPY + 1))) index.

(** ** The scan *)

(** How a scan ends: a delta, a delta abandoned for its size, a slice out of
    range (a panic in the source), or too little fuel. *)
Inductive scan_result : Type :=
  | Delta (out : bytes)
  | TooLarge
  | Panic
  | OutOfFuel.

(** The best verified match among the window's entries: the longest, the
    earliest among equals.  [None] when an entry's offset is out of range. *)
Fixpoint best_match (base target_rest : bytes) (tag : Z) (window : list Z)
    (best : option (nat * nat)) : option (option (nat * nat)) :=
  match window with
  | [] => Some best
  | entry :: window' =>
      let low := wrap 32 entry in
      if negb (Z.shiftr entry 32 =? tag)%Z || (low =? 0)%Z then
        best_match base target_rest tag window' best
      else
        let offset := Z.to_nat (low - 1) in
        if decide (offset <= length base) then
          let len := common_prefix (drop offset base) target_rest in
          let better :=
            (MIN_COPY <=? len)
            && match best with None => true | Some (_, best_len) => best_len <? len end in
          best_match base target_rest tag window' (if better then Some (offset, len) else best)
        else None
  end.

Fixpoint make_delta_loop (fuel : nat) (base target : bytes) (index : BlockIndex) (max_size : nat)
    (out : bytes) (cursor insert_start : nat) (hash : Z) (primed : bool) : scan_result :=
  match fuel with
  | O => OutOfFuel
  | S fuel' =>
      if cursor + MIN_COPY <=? length target then
        if max_size <? length out + (cursor - insert_start) then TooLarge
        else
          let hash := if primed then hash else block_hash (take MIN_COPY (drop cursor target)) in
          match window_of index hash with
          | None => Panic
          | Some (window, tag) =>
              let nominated := existsb (fun entry => (Z.shiftr entry 32 =? tag)%Z) window in
              match (if nominated then best_match base (drop cursor target) tag window None
                     else Some None) with
              | None => Panic
              | Some (Some (offset, len)) =>
                  let out := append_insert out (take (cursor - insert_start) (drop insert_start target)) in
                  let out := append_copy out offset len in
                  make_delta_loop fuel' base target index max_size out (cursor + len) (cursor + len)
                    hash false
              | Some None =>
                  let arriving := cursor + MIN_COPY in
                  let hash :=
                    if arriving <? length target then
                      roll_hash hash (nth cursor target x00) (nth arriving target x00)
                    else hash in
                  make_delta_loop fuel' base target index max_size out (S cursor) insert_start
                    hash true
              end
          end
      else
        let out := append_insert out (drop insert_start target) in
        if length out <=? max_size then Delta out else TooLarge
  end.

(** The cursor grows on every pass, so the length of the target is enough
    fuel. *)
Definition make_delta (base target : bytes) (index : BlockIndex) (max_size : nat) : scan_result :=
  let out := encode_size (Z.of_nat (length base)) [] in
  let out := encode_size (Z.of_nat (length target)) out in
  make_delta_loop (S (length target)) base target index max_size out 0 0 0%Z false.

(** ** The reader

    Git's documented delta format, as a client applies it: the two sizes, then
    instructions.  A zero command byte is reserved; a copy of encoded size
    zero means 64 KiB; a copy outside the base is rejected. *)

Fixpoint decode_size_loop (fuel : nat) (b : bytes) (sh acc : Z) : option (Z * bytes) :=
  match fuel, b with
  | S fuel', c :: b' =>
      let acc := (acc + Z.land (u8 c) 0x7f * 2 ^ sh)%Z in
      if (u8 c <? 128)%Z then Some (acc, b') else decode_size_loop fuel' b' (sh + 7) acc
  | _, _ => None
  end.

Definition decode_size (b : bytes) : option (Z * bytes) := decode_size_loop 10 b 0 0.

Fixpoint read_fields (command : Z) (fields : list (Z * Z)) (b : bytes) : option (Z * bytes) :=
  match fields with
  | [] => Some (0%Z, b)
  | (bit, sh) :: fields' =>
      if (Z.land command bit =? 0)%Z then read_fields command fields' b
      else match b with
           | [] => None
           | c :: b' =>
               match read_fields command fields' b' with
               | Some (v, rest) => Some ((u8 c * 2 ^ sh + v)%Z, rest)
               | None => None
               end
           end
  end.

(** One instruction: the bytes it produces and the rest of the stream. *)
Definition decode_instr (base b : bytes) : option (bytes * bytes) :=
  match b with
  | [] => None
  | c :: b' =>
      let command := u8 c in
      if (command <? 128)%Z then
        if (command =? 0)%Z then None
        else if decide (Z.to_nat command <= length b')
             then Some (take (Z.to_nat command) b', drop (Z.to_nat command) b')
             else None
      else
        match read_fields command offset_fields b' with
        | Some (offset, b1) =>
            match read_fields command size_fields b1 with
            | Some (size, rest) =>
                let size := if (size =? 0)%Z then 0x10000%Z else size in
                if (offset + size <=? Z.of_nat (length base))%Z
                then Some (take (Z.to_nat size) (drop (Z.to_nat offset) base), rest)
                else None
            | None => None
            end
        | None => None
        end
  end.

Fixpoint run_fuel (fuel : nat) (base b : bytes) : option bytes :=
  match fuel, b with
  | _, [] => Some []
  | O, _ => None
  | S fuel', _ =>
      match decode_instr base b with
      | Some (seg, rest) =>
          match run_fuel fuel' base rest with
          | Some t => Some (seg ++ t)
          | None => None
          end
      | None => None
      end
  end.

Definition run (base b : bytes) : option bytes := run_fuel (length b) base b.

Definition apply_delta (base delta : bytes) : option bytes :=
  match decode_size delta with
  | Some (base_size, b1) =>
      match decode_size b1 with
      | Some (target_size, instrs) =>
          if decide (base_size = Z.of_nat (length base)) then
            match run base instrs with
            | Some t => if decide (target_size = Z.of_nat (length t)) then Some t else None
            | None => None
            end
          else None
      | None => None
      end
  | None => None
  end.

(** ** Size varints *)

Lemma encode_size_loop_out fuel size out :
  encode_size_loop fuel size out = out ++ encode_size_loop fuel size [].
Proof.
  revert size out. induction fuel as [| fuel IH]; intros size out; cbn [encode_size_loop].
  { by rewrite app_nil_r. }
  destruct (Z.shiftr size 7 =? 0)%Z; [done |].
  rewrite IH, (IH _ ([] ++ _)). cbn [app]. by rewrite <- app_assoc.
Qed.

Lemma low7 z : Z.land z 0x7f = (z mod 128)%Z.
Proof. change 0x7f%Z with (Z.ones 7). by rewrite Z.land_ones by lia. Qed.

Lemma lor_0x80 z : (0 <= z < 128)%Z -> Z.lor z 0x80 = (z + 128)%Z.
Proof.
  intros Hz. symmetry. rewrite <- Z.add_lor_land.
  assert (Z.land z 0x80 = 0)%Z as ->; [| lia].
  apply Z.bits_inj'. intros n Hn. rewrite Z.land_spec, Z.bits_0.
  change 0x80%Z with (2 ^ 7)%Z. rewrite Z.pow2_bits_eqb by lia.
  destruct (Z.eqb_spec 7 n) as [<- |]; [| apply andb_false_r].
  rewrite Z.testbit_eqb by lia. by rewrite Z.div_small by lia.
Qed.

Lemma decode_encode_loop fuel size rest sh acc :
  0 < fuel -> (0 <= size < 2 ^ (7 * Z.of_nat fuel))%Z -> (0 <= sh)%Z ->
  decode_size_loop fuel (encode_size_loop fuel size [] ++ rest) sh acc
  = Some ((acc + size * 2 ^ sh)%Z, rest).
Proof.
  revert size sh acc. induction fuel as [| fuel IH]; intros size sh acc Hf Hsize Hsh; [lia |].
  cbn [encode_size_loop]. rewrite Z.shiftr_div_pow2, low7 by lia. change (2 ^ 7)%Z with 128%Z.
  pose proof (Z.mod_pos_bound size 128 eq_refl) as Hmod.
  pose proof (Z.div_mod size 128 ltac:(lia)) as Hdm.
  destruct (Z.eqb_spec (size / 128) 0) as [H0 | H0]; cbn [app decode_size_loop].
  - rewrite u8_as_u8_small by lia. destruct (Z.ltb_spec (size mod 128) 128); [| lia].
    rewrite low7, Z.mod_mod by lia. repeat f_equal. nia.
  - rewrite encode_size_loop_out, lor_0x80 by done. cbn [app decode_size_loop].
    rewrite u8_as_u8_small by lia. destruct (Z.ltb_spec (size mod 128 + 128) 128); [lia |].
    assert (0 < size / 128)%Z by (pose proof (Z.div_pos size 128); lia).
    destruct fuel as [| fuel].
    { exfalso. assert (size / 128 < 1)%Z by (apply Z.div_lt_upper_bound; cbn in Hsize; lia). lia. }
    rewrite IH; [| lia | | lia].
    + rewrite low7, Z.add_mod, Z_mod_same_full, Z.add_0_r, !Z.mod_mod by lia.
      rewrite Z.pow_add_r by lia. f_equal. f_equal. change (2 ^ 7)%Z with 128%Z. nia.
    + split; [lia |]. apply Z.div_lt_upper_bound; [lia |].
      rewrite <- (Z.pow_add_r 2 7) by lia.
      replace (7 + 7 * Z.of_nat (S fuel))%Z with (7 * Z.of_nat (S (S fuel)))%Z by lia. lia.
Qed.

(** The delta size varint round trips for every [u64], and ten loop passes
    are enough for it. *)
Theorem encode_size_roundtrip size out rest :
  is_u64 size ->
  exists v, encode_size size out = out ++ v /\ length v <= 10
    /\ decode_size (v ++ rest) = Some (size, rest).
Proof.
  intros Hs. exists (encode_size_loop 10 size []). split_and!.
  - apply encode_size_loop_out.
  - enough (forall fuel z, length (encode_size_loop fuel z []) <= fuel) by auto.
    clear. induction fuel as [| fuel IH]; intros z; cbn [encode_size_loop]; [done |].
    destruct (_ =? 0)%Z; cbn [app length]; [lia |].
    rewrite encode_size_loop_out. cbn [app length]. specialize (IH (Z.shiftr z 7)). lia.
  - unfold decode_size. rewrite decode_encode_loop by (unfold is_u64 in Hs; lia).
    f_equal. f_equal. cbn. lia.
Qed.

(** ** Running instruction streams *)

Lemma read_fields_length command fields b v rest :
  read_fields command fields b = Some (v, rest) -> length rest <= length b.
Proof.
  revert b v rest. induction fields as [| [bit sh] fields IH]; intros b v rest; cbn [read_fields].
  { by intros [= _ <-]. }
  destruct (_ =? 0)%Z; [by apply IH |].
  destruct b as [| c b]; [done |].
  destruct (read_fields command fields b) as [[v' r] |] eqn:E; [| done].
  intros [= _ <-]. apply IH in E. cbn [length]. lia.
Qed.

Lemma decode_instr_length base b seg rest :
  decode_instr base b = Some (seg, rest) -> length rest < length b.
Proof.
  unfold decode_instr. destruct b as [| c b]; [done |]. cbn [length].
  destruct (u8 c <? 128)%Z.
  - destruct (u8 c =? 0)%Z; [done |]. case_decide; [| done].
    intros [= _ <-]. rewrite length_drop. lia.
  - destruct (read_fields _ offset_fields b) as [[o b1] |] eqn:E1; [| done].
    destruct (read_fields _ size_fields b1) as [[z b2] |] eqn:E2; [| done].
    destruct (_ <=? _)%Z; [| done]. intros [= _ <-].
    apply read_fields_length in E1, E2. lia.
Qed.

Lemma run_fuel_enough base f b : length b <= f -> run_fuel f base b = run base b.
Proof.
  unfold run. revert b. induction f as [f IH] using lt_wf_ind. intros b Hf.
  destruct f as [| f], b as [| c b]; cbn [length] in *; try done; try lia.
  cbn [run_fuel]. destruct (decode_instr base (c :: b)) as [[seg rest] |] eqn:E; [| done].
  apply decode_instr_length in E. cbn [length] in E.
  rewrite (IH f), (IH (length b)) by lia. done.
Qed.

Lemma run_step base b seg rest :
  decode_instr base b = Some (seg, rest) -> run base b = (seg ++.) <$> run base rest.
Proof.
  intros E. pose proof (decode_instr_length _ _ _ _ E) as Hl.
  unfold run at 1. destruct b as [| c b]; [done |]. cbn [length run_fuel] in *.
  rewrite E, run_fuel_enough by lia. by destruct (run base rest).
Qed.

(** [ins] is a stream of whole instructions that produces [seg]. *)
Definition produces (base ins seg : bytes) : Prop :=
  forall rest, run base (ins ++ rest) = (seg ++.) <$> run base rest.

Lemma produces_nil base : produces base [] [].
Proof. intros rest. change ([] ++ rest) with rest. by destruct (run base rest). Qed.

Lemma produces_app base i j s t :
  produces base i s -> produces base j t -> produces base (i ++ j) (s ++ t).
Proof.
  intros Hi Hj rest. rewrite <- app_assoc, Hi, Hj.
  destruct (run base rest); cbn; [by rewrite app_assoc | done].
Qed.

Lemma produces_instr base ins seg :
  (forall rest, decode_instr base (ins ++ rest) = Some (seg, rest)) -> produces base ins seg.
Proof. intros H rest. by apply run_step. Qed.

Lemma produces_run base ins seg : produces base ins seg -> run base ins = Some seg.
Proof. intros H. specialize (H []). rewrite !app_nil_r in H. rewrite H. cbn. by rewrite app_nil_r. Qed.

Lemma produces_insert_chunk base (c : bytes) :
  0 < length c <= 127 -> produces base ([as_u8 (Z.of_nat (length c))] ++ c) c.
Proof.
  intros Hc. apply produces_instr. intros rest. cbn [app decode_instr].
  rewrite u8_as_u8_small by lia.
  destruct (Z.ltb_spec (Z.of_nat (length c)) 128); [| lia].
  destruct (Z.eqb_spec (Z.of_nat (length c)) 0); [lia |].
  rewrite Nat2Z.id, length_app, decide_True by lia.
  by rewrite take_app_length, drop_app_length.
Qed.

Lemma append_insert_spec base out data :
  exists ins, append_insert out data = out ++ ins /\ produces base ins data.
Proof.
  unfold append_insert.
  pose proof (concat_chunks 127 data ltac:(lia)) as Hcat.
  pose proof (chunks_bound 127 data ltac:(lia)) as Hb.
  remember (chunks 127 data) as cs eqn:E. clear E. revert out data Hcat Hb.
  induction cs as [| c cs IH]; intros out data <- Hb; cbn [fold_left concat].
  - exists []. rewrite app_nil_r. split; [done | apply produces_nil].
  - apply Forall_cons_1 in Hb as [Hc Hb]. rewrite decide_False by (intros ->; cbn in Hc; lia).
    destruct (IH (out ++ [as_u8 (Z.of_nat (length c))] ++ c) (concat cs) eq_refl Hb)
      as (ins & -> & Hins).
    exists (([as_u8 (Z.of_nat (length c))] ++ c) ++ ins).
    split; [by rewrite <- !app_assoc |].
    apply produces_app; [by apply produces_insert_chunk | done].
Qed.

(** ** Copy instructions *)

Lemma byte_of_shift v k : (0 <= k)%Z -> Z.land (Z.shiftr v k) 0xff = (v / 2 ^ k mod 256)%Z.
Proof.
  intros. change 0xff%Z with (Z.ones 8). by rewrite Z.land_ones, Z.shiftr_div_pow2 by lia.
Qed.

(** The base-256 digits of a value below 2^32. *)
Lemma digits4 v : (0 <= v < 2 ^ 32)%Z ->
  exists b0 b1 b2 b3, (v / 2 ^ 0 mod 256 = b0 /\ v / 2 ^ 8 mod 256 = b1
    /\ v / 2 ^ 16 mod 256 = b2 /\ v / 2 ^ 24 mod 256 = b3
    /\ 0 <= b0 < 256 /\ 0 <= b1 < 256 /\ 0 <= b2 < 256 /\ 0 <= b3 < 256
    /\ v = b0 * 2 ^ 0 + (b1 * 2 ^ 8 + (b2 * 2 ^ 16 + (b3 * 2 ^ 24 + 0))))%Z.
Proof.
  intros Hv. change (2 ^ 0)%Z with 1%Z. change (2 ^ 8)%Z with 256%Z.
  change (2 ^ 16)%Z with (256 * 256)%Z. change (2 ^ 24)%Z with (256 * 256 * 256)%Z.
  change (2 ^ 32)%Z with 4294967296%Z in Hv.
  rewrite <- !Z.div_div, Z.div_1_r by lia.
  do 4 eexists. do 4 (split; [reflexivity |]).
  Z.to_euclidean_division_equations. lia.
Qed.

(** Decide a field of the command: skip a zero byte, emit any other. *)
Ltac case_field b :=
  let E := fresh in
  destruct (Z.eqb_spec b 0) as [E | E]; [rewrite ?E | rewrite ?(proj2 (Z.eqb_neq b 0) E)].

Lemma push_field v b bit sh fs acc :
  (v / 2 ^ sh mod 256 = b)%Z -> (0 <= sh)%Z ->
  push_fields v ((bit, sh) :: fs) acc
  = push_fields v fs (if (b =? 0)%Z then acc else (Z.lor acc.1 bit, acc.2 ++ [as_u8 b])).
Proof.
  intros <- Hsh. unfold push_fields. cbn [fold_left]. destruct acc as [c p].
  by rewrite byte_of_shift.
Qed.

Lemma Some_pair_l {A B} (x y : A) (r : B) : x = y -> Some (x, r) = Some (y, r).
Proof. by intros ->. Qed.

(** The reader's sum over the fields whose byte is nonzero is the value
    itself: 16 shapes of the offset, 5 of the size. *)
Lemma copy_command_read off chunk :
  (0 <= off < 2 ^ 32)%Z -> (0 < chunk <= 0x10000)%Z ->
  exists c payload, copy_command off chunk = (c, payload)
    /\ (128 <= c < 256)%Z
    /\ forall rest, exists mid, read_fields c offset_fields (payload ++ rest) = Some (off, mid)
    /\ read_fields c size_fields mid = Some ((if (chunk =? 0x10000)%Z then 0 else chunk)%Z, rest).
Proof.
  intros Hoff Hchunk.
  destruct (digits4 off Hoff) as (b0 & b1 & b2 & b3 & E0 & E1 & E2 & E3 & H0 & H1 & H2 & H3 & Eo).
  destruct (digits4 chunk ltac:(lia)) as (s0 & s1 & s2 & s3 & F0 & F1 & F2 & F3 & G0 & G1 & G2 & G3 & Es).
  unfold copy_command, offset_fields, size_fields.
  rewrite (push_field _ _ _ _ _ _ E0), (push_field _ _ _ _ _ _ E1),
    (push_field _ _ _ _ _ _ E2), (push_field _ _ _ _ _ _ E3) by done.
  rewrite (push_field _ _ _ _ _ _ F0), (push_field _ _ _ _ _ _ F1),
    (push_field _ _ _ _ _ _ F2) by done.
  change (push_fields off []) with (fun acc : Z * bytes => acc).
  change (push_fields chunk []) with (fun acc : Z * bytes => acc).
  clear E0 E1 E2 E3 F0 F1 F2 F3 Hoff.
  case_field b0; case_field b1; case_field b2; case_field b3.
  all: destruct (Z.eqb_spec chunk 0x10000) as [Ec |].
  all: try (assert (s2 = 0 /\ s3 = 0)%Z as [-> ->] by lia; case_field s0; case_field s1).
  all: do 2 eexists; split; [reflexivity | split; [done |]].
  all: intros rest; eexists; split; cbn -[u8 as_u8 Z.mul Z.add Z.pow];
    apply Some_pair_l; rewrite ?u8_as_u8_small by lia; lia.
Qed.

Lemma produces_copy base off chunk :
  (0 <= off)%Z -> (0 < chunk <= 0x10000)%Z -> (off + chunk <= Z.of_nat (length base))%Z ->
  (Z.of_nat (length base) < 2 ^ 32)%Z ->
  produces base (let '(c, p) := copy_command off chunk in [as_u8 c] ++ p)
    (take (Z.to_nat chunk) (drop (Z.to_nat off) base)).
Proof.
  intros Hoff Hc Hin Hbase.
  destruct (copy_command_read off chunk ltac:(lia) Hc) as (c & payload & -> & Hcmd & Hread).
  apply produces_instr. intros rest. destruct (Hread rest) as (mid & Hr1 & Hr2).
  cbn [app decode_instr]. rewrite u8_as_u8_small by lia.
  destruct (Z.ltb_spec c 128); [lia |].
  rewrite Hr1, Hr2.
  replace (if (_ : bool) then 65536%Z else _) with chunk;
    [by rewrite (proj2 (Z.leb_le _ _) Hin) |].
  destruct (Z.eqb_spec chunk 65536) as [-> |]; [done |].
  by destruct (Z.eqb_spec chunk 0); [lia |].
Qed.

Lemma append_copy_loop_spec base fuel out off len :
  (0 <= off)%Z -> (0 <= len <= 0x10000 * Z.of_nat fuel)%Z ->
  (off + len <= Z.of_nat (length base))%Z -> (Z.of_nat (length base) < 2 ^ 32)%Z ->
  exists ins, append_copy_loop fuel out off len = out ++ ins
    /\ produces base ins (take (Z.to_nat len) (drop (Z.to_nat off) base)).
Proof.
  revert out off len. induction fuel as [| fuel IH]; intros out off len Hoff Hlen Hin Hb;
    cbn [append_copy_loop].
  { exists []. replace (Z.to_nat len) with 0 by lia. rewrite app_nil_r.
    split; [done | apply produces_nil]. }
  destruct (Z.eqb_spec len 0) as [-> | Hne].
  { exists []. rewrite app_nil_r. split; [done | apply produces_nil]. }
  pose proof (produces_copy base off (Z.min len 65536) Hoff ltac:(lia) ltac:(lia) Hb) as Hp.
  destruct (copy_command off (Z.min len 65536)) as [c p].
  destruct (IH (out ++ [as_u8 c] ++ p) (off + Z.min len 65536)%Z (len - Z.min len 65536)%Z)
    as (ins & -> & Hins); [lia .. |].
  exists (([as_u8 c] ++ p) ++ ins). split; [by rewrite <- !app_assoc |].
  pose proof (produces_app _ _ _ _ _ Hp Hins) as H. eapply eq_ind; [exact H |].
  rewrite Z2Nat.inj_add, <- drop_drop by lia. rewrite Z2Nat.inj_sub by lia.
  rewrite take_take_drop. f_equal. lia.
Qed.

Lemma append_copy_spec base out off len :
  off + len <= length base -> (Z.of_nat (length base) < 2 ^ 32)%Z ->
  exists ins, append_copy out off len = out ++ ins
    /\ produces base ins (take len (drop off base)).
Proof.
  intros Hin Hb. unfold append_copy.
  destruct (append_copy_loop_spec base (S (Z.to_nat (Z.of_nat len / 0x10000) + 1)) out
    (Z.of_nat off) (Z.of_nat len)) as (ins & -> & H); [lia | | lia | done |].
  - pose proof (Z.div_pos (Z.of_nat len) 0x10000 ltac:(lia) ltac:(lia)).
    pose proof (Z.mod_pos_bound (Z.of_nat len) 0x10000 ltac:(lia)).
    pose proof (Z.div_mod (Z.of_nat len) 0x10000 ltac:(lia)). lia.
  - exists ins. by rewrite !Nat2Z.id in H.
Qed.

(** ** Common prefixes *)

(** The longest common prefix, a byte at a time. *)
Definition lcp (a b : bytes) : nat := common_prefix_tail a b.

Lemma lcp_bounds a b : lcp a b <= length a /\ lcp a b <= length b.
Proof.
  revert b. induction a as [| x a IH]; intros [| y b]; cbn; try lia.
  case_decide; cbn; [| lia]. destruct (IH b). unfold lcp in *. lia.
Qed.

Lemma lcp_eq a b : take (lcp a b) a = take (lcp a b) b.
Proof.
  revert b. induction a as [| x a IH]; intros [| y b]; cbn; try done.
  case_decide; [| done]. subst. cbn. f_equal. apply IH.
Qed.

Lemma lcp_app_eq p a b : lcp (p ++ a) (p ++ b) = length p + lcp a b.
Proof. induction p as [| x p IH]; cbn; [done |]. rewrite decide_True by done. f_equal. apply IH. Qed.

Lemma from_le_bytes_range l : (0 <= from_le_bytes l < 2 ^ (8 * Z.of_nat (length l)))%Z.
Proof.
  induction l as [| b l IH]; cbn [from_le_bytes fold_right length]; [done |].
  fold (from_le_bytes l). pose proof (u8_range b).
  replace (8 * Z.of_nat (S (length l)))%Z with (8 + 8 * Z.of_nat (length l))%Z by lia.
  rewrite Z.pow_add_r by lia. change (2 ^ 8)%Z with 256%Z. nia.
Qed.

Lemma from_le_bytes_inj a b :
  length a = length b -> from_le_bytes a = from_le_bytes b -> a = b.
Proof.
  revert b. induction a as [| x a IH]; intros [| y b] Hl He; try done.
  cbn [from_le_bytes fold_right length] in *.
  fold (from_le_bytes a) in He. fold (from_le_bytes b) in He.
  pose proof (u8_range x). pose proof (u8_range y).
  f_equal; [apply u8_inj; lia | apply IH; lia].
Qed.

Lemma trailing_zeros_nonneg z : (0 <= trailing_zeros z)%Z.
Proof. destruct z as [| p | p]; cbn; [done | |]; induction p; cbn [ctz_pos]; lia. Qed.

Lemma trailing_zeros_double z : (0 < z)%Z -> trailing_zeros (2 * z) = (1 + trailing_zeros z)%Z.
Proof. by destruct z. Qed.

Lemma trailing_zeros_shift z n :
  (0 < z)%Z -> trailing_zeros (z * 2 ^ Z.of_nat n) = (Z.of_nat n + trailing_zeros z)%Z.
Proof.
  intros Hz. induction n as [| n IH]; [by rewrite Z.mul_1_r |].
  rewrite Nat2Z.inj_succ, Z.pow_succ_r by lia.
  replace (z * (2 * 2 ^ Z.of_nat n))%Z with (2 * (z * 2 ^ Z.of_nat n))%Z by lia.
  rewrite trailing_zeros_double by nia. lia.
Qed.

(** A set bit bounds the count. *)
Lemma trailing_zeros_le z i :
  (0 < z)%Z -> (0 <= i)%Z -> Z.testbit z i = true -> (trailing_zeros z <= i)%Z.
Proof.
  destruct z as [| p | p]; try lia. intros _. revert i.
  induction p as [p IH | p IH |]; intros i Hi Hb; cbn [trailing_zeros ctz_pos] in *; try lia.
  destruct (Z.eq_dec i 0%Z) as [-> | Hne]; [done |].
  specialize (IH (i - 1)%Z ltac:(lia)). cbn [trailing_zeros] in IH.
  enough (ctz_pos p <= i - 1)%Z by lia. apply IH.
  change (Zpos p~0) with (2 * Zpos p)%Z in Hb.
  replace i with (Z.succ (i - 1)) in Hb by lia.
  by rewrite Z.testbit_even_succ in Hb by lia.
Qed.

Lemma lxor_low_byte c x y :
  (0 <= c < 256)%Z -> (0 <= x)%Z -> (0 <= y)%Z ->
  Z.lxor (c + 256 * x) (c + 256 * y) = (Z.lxor x y * 2 ^ 8)%Z.
Proof.
  intros Hc Hx Hy. apply Z.bits_inj'. intros n Hn.
  rewrite Z.lxor_spec, Z.mul_pow2_bits by lia.
  destruct (Z.lt_ge_cases n 8).
  - rewrite (Z.testbit_neg_r _ (n - 8)) by lia.
    assert (forall z, Z.testbit (c + 256 * z) n = Z.testbit c n) as E.
    { intros z. rewrite <- (Z.mod_pow2_bits_low _ 8) by lia. change (2 ^ 8)%Z with 256%Z.
      by rewrite Z.mul_comm, Z_mod_plus_full, Z.mod_small by lia. }
    rewrite !E. apply xorb_nilpotent.
  - assert (forall z, (0 <= z)%Z -> Z.testbit (c + 256 * z) n = Z.testbit z (n - 8)) as E.
    { intros z Hz. replace n with ((n - 8) + 8)%Z at 1 by lia.
      rewrite <- Z.div_pow2_bits by lia. change (2 ^ 8)%Z with 256%Z.
      by rewrite Z.mul_comm, Z.div_add, Z.div_small by lia. }
    by rewrite !E, Z.lxor_spec by done.
Qed.

Lemma bits_differ (a b w : Z) :
  (0 <= w)%Z -> (a mod 2 ^ w <> b mod 2 ^ w)%Z ->
  exists i, (0 <= i < w)%Z /\ Z.testbit (Z.lxor a b) i = true.
Proof.
  intros Hw Hne.
  destruct (decide (Z.lxor (a mod 2 ^ w) (b mod 2 ^ w) = 0)%Z) as [E | E].
  { by apply Z.lxor_eq in E. }
  destruct (decide (Exists (fun i => Z.testbit (Z.lxor a b) (Z.of_nat i) = true)
              (seq 0 (Z.to_nat w)))) as [Hex | Hno].
  { apply Exists_exists in Hex as (i & Hi & Hb). apply elem_of_seq in Hi.
    exists (Z.of_nat i). split; [lia | done]. }
  exfalso. apply E. apply Z.bits_inj'. intros n Hn. rewrite Z.lxor_spec, Z.bits_0.
  destruct (Z.lt_ge_cases n w).
  - rewrite !Z.mod_pow2_bits_low, <- Z.lxor_spec by lia.
    apply not_true_iff_false. intros Hb. apply Hno. apply Exists_exists.
    exists (Z.to_nat n). rewrite Z2Nat.id by lia. split; [apply elem_of_seq; lia | done].
  - by rewrite !Z.mod_pow2_bits_high by lia.
Qed.

Lemma lxor_word_lcp a b :
  length a = length b -> from_le_bytes a <> from_le_bytes b ->
  (0 < Z.lxor (from_le_bytes a) (from_le_bytes b))%Z
  /\ Z.to_nat (trailing_zeros (Z.lxor (from_le_bytes a) (from_le_bytes b)) / 8) = lcp a b.
Proof.
  intros Hl Hne.
  assert (0 < Z.lxor (from_le_bytes a) (from_le_bytes b))%Z as Hpos.
  { pose proof (from_le_bytes_range a). pose proof (from_le_bytes_range b).
    assert (0 <= Z.lxor (from_le_bytes a) (from_le_bytes b))%Z by (apply Z.lxor_nonneg; lia).
    destruct (decide (Z.lxor (from_le_bytes a) (from_le_bytes b) = 0)%Z) as [E |]; [| lia].
    by apply Z.lxor_eq in E. }
  split; [done |]. revert b Hl Hne Hpos.
  induction a as [| x a IH]; intros [| y b] Hl Hne Hpos; try done.
  cbn [from_le_bytes fold_right lcp common_prefix_tail length] in *.
  fold (from_le_bytes a) (from_le_bytes b) in *. fold (lcp a b).
  pose proof (from_le_bytes_range a). pose proof (from_le_bytes_range b).
  pose proof (u8_range x). pose proof (u8_range y).
  case_decide as Hxy.
  - subst y. rewrite lxor_low_byte in * by lia.
    rewrite (trailing_zeros_shift _ 8) by lia.
    rewrite <- IH by (try lia; congruence).
    pose proof (trailing_zeros_nonneg (Z.lxor (from_le_bytes a) (from_le_bytes b))).
    replace (Z.of_nat 8 + trailing_zeros (Z.lxor (from_le_bytes a) (from_le_bytes b)))%Z
      with (trailing_zeros (Z.lxor (from_le_bytes a) (from_le_bytes b)) + 1 * 8)%Z by lia.
    rewrite Z.div_add by lia. rewrite Z2Nat.inj_add; [lia | apply Z.div_pos; lia | lia].
  - destruct (bits_differ (u8 x + 256 * from_le_bytes a) (u8 y + 256 * from_le_bytes b) 8)
      as (i & Hi & Hb); [lia | |].
    { change (2 ^ 8)%Z with 256%Z. rewrite !(Z.mul_comm 256), !Z_mod_plus_full, !Z.mod_small by lia.
      intros E. by apply Hxy, u8_inj. }
    apply trailing_zeros_le in Hb; [| lia ..].
    rewrite Z.div_small; [done |]. split; [apply trailing_zeros_nonneg | lia].
Qed.

Lemma lcp_split a b n :
  take n a <> take n b -> lcp a b = lcp (take n a) (take n b).
Proof.
  revert a b. induction n as [| n IH]; intros [| x a] [| y b] Hne; try done; cbn in *.
  case_decide; [| done]. subst. f_equal. apply IH. congruence.
Qed.

Lemma common_prefix_words_spec fuel len a b :
  length a `min` length b < 8 * fuel -> common_prefix_words fuel len a b = len + lcp a b.
Proof.
  revert len a b. induction fuel as [| fuel IH]; intros len a b Hf; [lia |].
  cbn [common_prefix_words]. destruct (Nat.leb_spec 8 (length a `min` length b)); [| done].
  assert (length (take 8 a) = length (take 8 b)) as Hl by (rewrite !length_take; lia).
  destruct (Z.eqb_spec (from_le_bytes (take 8 a)) (from_le_bytes (take 8 b))) as [E | E].
  - apply from_le_bytes_inj in E; [| done].
    rewrite IH by (rewrite !length_drop; lia).
    rewrite <- (take_drop 8 a) at 2. rewrite <- (take_drop 8 b) at 2.
    rewrite E, lcp_app_eq, length_take. lia.
  - rewrite (lcp_split a b 8) by congruence. f_equal. by apply lxor_word_lcp.
Qed.

(** Comparing eight bytes at a time and locating the first difference by
    the trailing zeros of the exclusive or returns the length of the longest
    common prefix that a byte-by-byte comparison finds: the two slices agree
    on that many bytes and on no more. *)
Theorem common_prefix_lcp a b :
  let n := common_prefix a b in
  n = lcp a b /\ take n a = take n b /\ n <= length a `min` length b
  /\ (n < length a `min` length b -> a !! n <> b !! n).
Proof.
  cbn zeta. unfold common_prefix. rewrite common_prefix_words_spec by lia. cbn [Nat.add].
  split_and!; [done | apply lcp_eq | pose proof (lcp_bounds a b); unfold lcp in *; lia |].
  unfold lcp. revert b. induction a as [| x a IH]; intros [| y b]; cbn; try lia.
  case_decide; cbn; [| congruence]. intros Hlt. apply IH. lia.
Qed.

(** ** The rolling fingerprint *)

Lemma wrap_mul_l w a b : wrap w (wrap w a * b) = wrap w (a * b).
Proof. apply Zmult_mod_idemp_l. Qed.

Lemma wrap_add_l w a b : wrap w (wrap w a + b) = wrap w (a + b).
Proof. apply Zplus_mod_idemp_l. Qed.

Lemma wrap_sub_l w a b : wrap w (wrap w a - b) = wrap w (a - b).
Proof. apply Zminus_mod_idemp_l. Qed.

Lemma wrap_sub_r w a b : wrap w (a - wrap w b) = wrap w (a - b).
Proof. apply Zminus_mod_idemp_r. Qed.

Lemma wrap_mul_r w a b : wrap w (a * wrap w b) = wrap w (a * b).
Proof. apply Zmult_mod_idemp_r. Qed.

(** The polynomial the fingerprint reduces modulo 2^64. *)
Definition poly (h : Z) (w : bytes) : Z := fold_left (fun h b => h * HASH_BASE + u8 b)%Z w h.

Lemma poly_split h w : poly h w = (h * HASH_BASE ^ Z.of_nat (length w) + poly 0 w)%Z.
Proof.
  revert h. induction w as [| b w IH] using rev_ind; intros h; cbn; [lia |].
  unfold poly in *. rewrite !fold_left_app. cbn [fold_left]. rewrite IH, length_app.
  cbn [length]. rewrite Nat2Z.inj_add, Z.pow_add_r by lia. change (Z.of_nat 1) with 1%Z. lia.
Qed.

Lemma block_hash_poly w : block_hash w = wrap 64 (poly 0 w).
Proof.
  unfold block_hash, poly. induction w as [| b w IH] using rev_ind; [done |].
  rewrite !fold_left_app. cbn [fold_left]. rewrite IH.
  by rewrite wrap_mul_l, wrap_add_l.
Qed.

Lemma wrapping_pow_spec b n : wrapping_pow b n = wrap 64 (b ^ Z.of_nat n).
Proof.
  induction n as [| n IH]; [done |]. cbn [wrapping_pow].
  rewrite IH, wrap_mul_l, Nat2Z.inj_succ, Z.pow_succ_r by lia. f_equal. lia.
Qed.

(** Rolling is exact.  Dropping the oldest byte of a 16-byte window and
    taking the next one gives the fingerprint of the new window, wrap-around
    included. *)
Theorem roll_hash_exact x w y :
  length w = MIN_COPY - 1 ->
  roll_hash (block_hash (x :: w)) x y = block_hash (w ++ [y]).
Proof.
  intros Hl. unfold roll_hash, HASH_TOP. rewrite !block_hash_poly, wrapping_pow_spec.
  rewrite wrap_mul_r, wrap_sub_l, wrap_sub_r, wrap_mul_l, wrap_add_l. f_equal.
  unfold poly at 2. rewrite fold_left_app. cbn [fold_left]. fold (poly 0 w).
  change (poly 0 (x :: w)) with (poly (u8 x) w). rewrite (poly_split (u8 x)), Hl. lia.
Qed.

Lemma roll_hash_exact_witness :
  length (repeat x61 15) = MIN_COPY - 1
  /\ roll_hash (block_hash (x5a :: repeat x61 15)) x5a x62 = block_hash (repeat x61 15 ++ [x62]).
Proof. split; [reflexivity | apply roll_hash_exact; reflexivity]. Defined.

(** ** The block index *)

Lemma nth_lookup_or {A} (l : list A) i d : nth i l d = default d (l !! i).
Proof. revert i. induction l as [| x l IH]; intros [| i]; cbn; auto. Qed.

(** Entries whose low half, minus one, is an offset inside a base of length
    [n]. *)
Definition entry_ok (n : nat) (e : Z) : Prop :=
  e = 0%Z \/ exists tag off, (0 <= tag < 2 ^ 32)%Z /\ off <= n
    /\ e = Z.lor (Z.shiftl tag 32) (Z.of_nat off + 1).

(** The index invariant: a power of two of homes, every window in range,
    every entry a position of the base. *)
Record index_wf (n : nat) (idx : BlockIndex) : Prop := {
  wf_bits : exists k, (3 <= k <= 64)%Z /\ shift idx = (64 - k)%Z
            /\ length (slots idx) = Z.to_nat (2 ^ k) + PROBE_WINDOW;
  wf_entries : Forall (entry_ok n) (slots idx);
}.

Lemma home_of_bound n idx fp : index_wf n idx -> home_of idx fp + PROBE_WINDOW <= length (slots idx).
Proof.
  intros [(k & Hk & Hs & ->) _]. unfold home_of. rewrite Hs, Z.shiftr_div_pow2 by lia.
  pose proof (Z.mod_pos_bound (fp * HASH_BASE) (2 ^ 64) eq_refl).
  enough (wrap 64 (fp * HASH_BASE) / 2 ^ (64 - k) < 2 ^ k)%Z.
  { pose proof (Z.div_pos (wrap 64 (fp * HASH_BASE)) (2 ^ (64 - k))).
    unfold wrap in *. lia. }
  apply Z.div_lt_upper_bound; [lia |]. rewrite <- Z.pow_add_r by lia.
  replace (64 - k + k)%Z with 64%Z by lia. unfold wrap. lia.
Qed.

Lemma window_of_Some n idx fp : index_wf n idx ->
  exists window, window_of idx fp = Some (window, Z.shiftr fp 32) /\ Forall (entry_ok n) window.
Proof.
  intros Hwf. pose proof (home_of_bound n idx fp Hwf). unfold window_of.
  rewrite decide_True by done. eexists. split; [done |].
  apply Forall_take, Forall_drop, Hwf.
Qed.

Lemma index_insert_loop_wf n i slot dups tag off s :
  (0 <= tag < 2 ^ 32)%Z -> off <= n -> Forall (entry_ok n) s ->
  Forall (entry_ok n) (index_insert_loop i slot dups tag off s)
  /\ length (index_insert_loop i slot dups tag off s) = length s.
Proof.
  intros Ht Ho Hs. revert slot dups.
  induction i as [| i IH]; intros slot dups; cbn [index_insert_loop]; [done |].
  destruct (_ =? 0)%Z.
  { rewrite length_insert. split; [| done]. apply Forall_insert; [done |]. right. eauto. }
  destruct (_ =? _)%Z; [| apply IH]. destruct (_ <=? _); [done | apply IH].
Qed.

Lemma index_insert_wf n idx fp off :
  is_u64 fp -> off <= n -> index_wf n idx -> index_wf n (index_insert idx fp off).
Proof.
  intros Hfp Ho [(k & Hk & Hs & Hl) He]. unfold index_insert.
  destruct (index_insert_loop_wf n PROBE_WINDOW (home_of idx fp) 0 (Z.shiftr fp 32) off (slots idx))
    as [H1 H2]; [| done | done |].
  { unfold is_u64 in Hfp. rewrite Z.shiftr_div_pow2 by lia.
    split; [apply Z.div_pos; lia | apply Z.div_lt_upper_bound; lia]. }
  split; cbn [slots shift]; [| done]. exists k. by rewrite H2.
Qed.

Lemma trailing_zeros_pow2 k : (0 <= k)%Z -> trailing_zeros (2 ^ k) = k.
Proof.
  intros Hk. pose proof (trailing_zeros_shift 1 (Z.to_nat k) eq_refl) as H.
  rewrite Z2Nat.id, Z.mul_1_l in H by done. rewrite H. cbn. lia.
Qed.

Lemma homes_pow2 n : (0 <= n < 2 ^ 32)%Z ->
  exists k, (3 <= k <= 64)%Z /\ Z.max (next_power_of_two (n * 4)) (Z.of_nat PROBE_WINDOW) = (2 ^ k)%Z.
Proof.
  intros Hn. unfold next_power_of_two. destruct (Z.leb_spec (n * 4) 1); [by exists 3%Z |].
  assert (Z.log2_up (n * 4) <= 34)%Z as Hu.
  { change 34%Z with (Z.log2_up (2 ^ 34)). apply Z.log2_up_le_mono. lia. }
  pose proof (Z.log2_up_nonneg (n * 4)).
  destruct (Z.le_gt_cases (Z.log2_up (n * 4)) 3).
  - exists 3%Z. split; [lia |]. apply Z.max_r.
    change (Z.of_nat PROBE_WINDOW) with (2 ^ 3)%Z. apply Z.pow_le_mono_r; lia.
  - exists (Z.log2_up (n * 4)). split; [lia |]. apply Z.max_l.
    change (Z.of_nat PROBE_WINDOW) with (2 ^ 3)%Z. apply Z.pow_le_mono_r; lia.
Qed.

Lemma block_hash_u64 w : is_u64 (block_hash w).
Proof. rewrite block_hash_poly. apply Z.mod_pos_bound. done. Qed.

Lemma roll_hash_u64 h x y : is_u64 (roll_hash h x y).
Proof. apply Z.mod_pos_bound. done. Qed.

Lemma block_index_wf base :
  (Z.of_nat (length base) < 2 ^ 32)%Z -> index_wf (length base) (block_index base).
Proof.
  intros Hb. unfold block_index.
  destruct (homes_pow2 (Z.of_nat (length base / MIN_COPY))) as (k & Hk & ->).
  { split; [lia |]. pose proof (Nat.Div0.div_le_upper_bound (length base) MIN_COPY (length base)).
    unfold MIN_COPY in *. lia. }
  assert (index_wf (length base)
    (mkBlockIndex (repeat 0%Z (Z.to_nat (2 ^ k) + PROBE_WINDOW)) (64 - trailing_zeros (2 ^ k)))) as H0.
  { split; cbn [slots shift].
    - exists k. rewrite trailing_zeros_pow2, repeat_length by lia. done.
    - apply List.Forall_forall. intros e He. left. by apply repeat_spec in He. }
  destruct (Nat.ltb_spec (length base) MIN_COPY) as [| Hlen]; [done |].
  assert (Forall (fun off => off <= length base)
    (map (fun i => i * MIN_COPY) (seq 0 ((length base - MIN_COPY) / MIN_COPY + 1)))) as Hoffs.
  { apply List.Forall_forall. intros off Hoff. apply in_map_iff in Hoff as (i & <- & Hi).
    apply in_seq in Hi. pose proof (Nat.Div0.mul_div_le (length base - MIN_COPY) MIN_COPY).
    unfold MIN_COPY in *. nia. }
  revert Hoffs H0. generalize (mkBlockIndex (repeat 0%Z (Z.to_nat (2 ^ k) + PROBE_WINDOW))
    (64 - trailing_zeros (2 ^ k))).
  induction (map _ _) as [| off offs IH]; intros idx Ho Hidx; cbn [fold_left]; [done |].
  apply Forall_cons_1 in Ho as [Ho Hos]. apply IH; [done |].
  apply index_insert_wf; [apply block_hash_u64 | done ..].
Qed.

(** ** The scan *)

Lemma best_match_spec base rest tag window best :
  (Z.of_nat (length base) < 2 ^ 32 - 1)%Z -> Forall (entry_ok (length base)) window ->
  (forall off len, best = Some (off, len) -> MIN_COPY <= len /\ off <= length base
     /\ len = lcp (drop off base) rest) ->
  exists r, best_match base rest tag window best = Some r
    /\ forall off len, r = Some (off, len) -> MIN_COPY <= len /\ off <= length base
         /\ len = lcp (drop off base) rest.
Proof.
  intros Hb Hw. revert best. induction Hw as [| e window He Hw IH]; intros best Hbest;
    cbn [best_match]; [by eexists |].
  destruct (_ || _) eqn:Eg; [by apply IH |]. apply orb_false_iff in Eg as [_ Eg].
  apply Z.eqb_neq in Eg.
  assert (Z.to_nat (wrap 32 e - 1) <= length base) as Hoff.
  { destruct He as [-> | (t & off & Ht & Ho & ->)]; [done |].
    enough (wrap 32 (Z.lor (Z.shiftl t 32) (Z.of_nat off + 1)) = Z.of_nat off + 1)%Z by lia.
    unfold wrap. rewrite <- Z.land_ones by lia. apply Z.bits_inj'. intros n Hn.
    rewrite Z.land_spec, Z.lor_spec, Z.shiftl_spec by done.
    destruct (Z.lt_ge_cases n 32).
    - rewrite Z.ones_spec_low, (Z.testbit_neg_r t) by lia. cbn. by rewrite andb_true_r.
    - rewrite Z.ones_spec_high, andb_false_r by lia.
      symmetry. rewrite <- (Z.mod_small (Z.of_nat off + 1) (2 ^ 32)) by lia.
      by rewrite Z.mod_pow2_bits_high by lia. }
  rewrite decide_True by done. apply IH.
  pose proof (common_prefix_lcp (drop (Z.to_nat (wrap 32 e - 1)) base) rest) as (Hc & _).
  intros off len. destruct (_ && _) eqn:Eb; [| by apply Hbest].
  apply andb_true_iff in Eb as [Eb _]. apply Nat.leb_le in Eb.
  intros [= <- <-]. done.
Qed.

(** What a finished scan promises. *)
Definition scan_ok (base target header : bytes) (max_size : nat) (r : scan_result) : Prop :=
  match r with
  | TooLarge => True
  | Delta d => length d <= max_size
      /\ exists ins, d = header ++ ins /\ produces base ins target
  | Panic | OutOfFuel => False
  end.

Lemma scan_insert base target header out start upto :
  (exists ins, out = header ++ ins /\ produces base ins (take start target)) ->
  exists ins, append_insert out (take upto (drop start target)) = header ++ ins
    /\ produces base ins (take (start + upto) target).
Proof.
  intros (ins & -> & Hins).
  destruct (append_insert_spec base (header ++ ins) (take upto (drop start target)))
    as (i & -> & Hi).
  exists (ins ++ i). split; [by rewrite app_assoc |].
  rewrite <- take_take_drop. by apply produces_app.
Qed.

Lemma scan_copy base target header out cursor off len :
  (Z.of_nat (length base) < 2 ^ 32)%Z -> off <= length base ->
  len = lcp (drop off base) (drop cursor target) ->
  (exists ins, out = header ++ ins /\ produces base ins (take cursor target)) ->
  exists ins, append_copy out off len = header ++ ins
    /\ produces base ins (take (cursor + len) target).
Proof.
  intros Hb Ho Hlen (ins & -> & Hins).
  destruct (lcp_bounds (drop off base) (drop cursor target)) as [Hl _].
  rewrite length_drop in Hl.
  destruct (append_copy_spec base (header ++ ins) off len ltac:(lia) Hb) as (i & -> & Hi).
  exists (ins ++ i). split; [by rewrite app_assoc |].
  rewrite <- take_take_drop. apply produces_app; [done |].
  rewrite Hlen, <- lcp_eq, <- Hlen. done.
Qed.

Lemma make_delta_loop_ok base target index max_size header fuel out cursor start hash primed :
  (Z.of_nat (length base) < 2 ^ 32 - 1)%Z -> index_wf (length base) index ->
  length target < fuel + cursor -> start <= cursor <= length target ->
  (exists ins, out = header ++ ins /\ produces base ins (take start target)) ->
  scan_ok base target header max_size
    (make_delta_loop fuel base target index max_size out cursor start hash primed).
Proof.
  intros Hb Hidx. revert out cursor start hash primed.
  induction fuel as [| fuel IH]; intros out cursor start hash primed Hf Hc Hout; [lia |].
  cbn [make_delta_loop]. destruct (Nat.leb_spec (cursor + MIN_COPY) (length target)) as [Hrun | _].
  - destruct (_ <? _); [done |].
    set (h := if primed then hash else _).
    destruct (window_of_Some _ index h Hidx) as (window & -> & Hw).
    destruct (best_match_spec base (drop cursor target) (Z.shiftr h 32) window None Hb Hw
      ltac:(done)) as (r & Hr & Hbest).
    assert (exists best, (if existsb (fun entry => (Z.shiftr entry 32 =? Z.shiftr h 32)%Z) window
      then best_match base (drop cursor target) (Z.shiftr h 32) window None
      else Some None) = Some best
      /\ forall off len, best = Some (off, len) -> r = Some (off, len)) as (best & -> & Hsub).
    { destruct (existsb _ _); [by exists r | by exists None]. }
    destruct best as [[off len] |].
    + destruct (Hbest off len (Hsub _ _ eq_refl)) as (Hmin & Ho & Hlen).
      destruct (lcp_bounds (drop off base) (drop cursor target)) as [_ Hl].
      rewrite length_drop in Hl. unfold MIN_COPY in *.
      apply IH; [lia | lia |].
      apply scan_copy; [lia | done | done |].
      replace (take cursor target) with (take (start + (cursor - start)) target) by (f_equal; lia).
      by apply scan_insert.
    + unfold MIN_COPY in *. apply IH; [lia | lia | done].
  - destruct (scan_insert base target header out start (length target - start) Hout) as (ins & E & Hp).
    rewrite (take_ge (drop start target)) in E by (rewrite length_drop; lia).
    replace (take _ target) with target in Hp by (symmetry; apply take_ge; lia).
    cbn zeta. destruct (Nat.leb_spec (length (append_insert out (drop start target))) max_size); cbn;
      [| done]. split; [done |]. by exists ins.
Qed.

(** C40: delta correctness.  Encoding a target against a base through the
    base's own block index never panics on a slice, always ends, and when it
    returns a delta the delta is within the size limit and applying it to the
    base gives exactly the target.  (The base must be below the 4 GiB - 1 that
    a slot entry can address.) *)
Theorem make_delta_correct base target max_size :
  (Z.of_nat (length base) < 2 ^ 32 - 1)%Z -> is_u64 (Z.of_nat (length target)) ->
  make_delta base target (block_index base) max_size = TooLarge
  \/ exists d, make_delta base target (block_index base) max_size = Delta d
       /\ length d <= max_size /\ apply_delta base d = Some target.
Proof.
  intros Hb Ht. unfold make_delta.
  assert (is_u64 (Z.of_nat (length base))) as Hbu by (unfold is_u64; lia).
  pose proof (encode_size_loop_out 10 (Z.of_nat (length base)) []) as Eb.
  set (header := encode_size (Z.of_nat (length target)) (encode_size (Z.of_nat (length base)) [])).
  pose proof (make_delta_loop_ok base target (block_index base) max_size header
    (S (length target)) header 0 0 0%Z false Hb) as H.
  destruct (make_delta_loop _ _ _ _ _ _ _ _ _ _) as [d | | |]; cbn [scan_ok] in H; [| by left | |].
  - right. exists d. split; [done |].
    destruct H as (Hmax & ins & -> & Hins); [apply block_index_wf; lia | lia | lia | |].
    { exists []. rewrite app_nil_r. split; [done | apply produces_nil]. }
    split; [done |]. unfold apply_delta.
    destruct (encode_size_roundtrip (Z.of_nat (length base)) [] [] Hbu) as (v & Ev & _).
    assert (forall rest, decode_size (encode_size (Z.of_nat (length base)) [] ++ rest)
      = Some (Z.of_nat (length base), rest)) as Hd1.
    { intros rest. destruct (encode_size_roundtrip (Z.of_nat (length base)) [] rest Hbu)
        as (v1 & -> & _ & Hd). exact Hd. }
    unfold header. destruct (encode_size_roundtrip (Z.of_nat (length target))
      (encode_size (Z.of_nat (length base)) []) ins Ht) as (v2 & -> & _ & Hd2).
    rewrite <- app_assoc, Hd1, Hd2, decide_True, (produces_run _ _ _ Hins), decide_True by done.
    done.
  - exfalso. apply H; [apply block_index_wf; lia | lia | lia |].
    exists []. rewrite app_nil_r. split; [done | apply produces_nil].
  - exfalso. apply H; [apply block_index_wf; lia | lia | lia |].
    exists []. rewrite app_nil_r. split; [done | apply produces_nil].
Qed.

(** Two versions of a text that share a long prefix and tail. *)
Definition sample_base : bytes := repeat x61 20 ++ bs "0123456789abcdef0123456789ABCDEF" ++ repeat x62 20.
Definition sample_target : bytes := repeat x61 20 ++ bs "0123456789abcdef!0123456789ABCDEF" ++ repeat x62 20.

Lemma make_delta_correct_witness :
  exists d, make_delta sample_base sample_target (block_index sample_base) 60 = Delta d
    /\ length d < length sample_target
    /\ apply_delta sample_base d = Some sample_target.
Proof.
  destruct (make_delta_correct sample_base sample_target 60) as [H | (d & H & _ & Ha)].
  - vm_compute. done.
  - vm_compute. done.
  - exfalso. vm_compute in H. done.
  - exists d. split; [done |]. split; [| done]. vm_compute in H. injection H as <-. vm_compute. lia.
Defined.

Lemma encode_size_roundtrip_witness :
  exists v, encode_size 300 [] = [] ++ v /\ length v <= 10 /\ decode_size (v ++ [x00]) = Some (300%Z, [x00]).
Proof. apply encode_size_roundtrip. by vm_compute. Defined.
