(* ===== verification/PackOut.v ===== *)
(** * Pack assembly ([src/git/pack_out.rs], the entry half)

    Full and offset-delta entries, the bounded window of delta bases and the
    writer loop.  The byte framing of a pack (header, entry headers, trailing
    checksum) is the pack library's; [PackWriter] is the interface the loop
    drives.  The delta codec is PackDelta.v, compression Zlib.v. *)

From S2P Require Import Prelude Bytes GixHash Values Zlib PackDelta.
From stdpp Require Import numbers strings.
From Stdlib Require Import Lia.

Definition MIN_DELTA_BLOB_SIZE : Z := 512.
Definition MAX_DELTA_BLOB_SIZE : Z := 2 * 1024 * 1024.
Definition DELTA_WINDOW : nat := 8.
Definition MAX_DELTA_CACHE_BYTES : Z := 8 * 1024 * 1024.
Definition MIN_DELTA_SAVINGS : nat := 32.

(** ** Data *)

Record PackEntry (Oid : Type) : Type := mkPackEntry {
  pe_id : Oid;
  pe_kind : Kind;
  pe_decompressed_size : Z;
  pe_zlib : bytes;
  pe_delta_group : option Z;
}.
Arguments mkPackEntry {Oid}.
Arguments pe_id {Oid}.
Arguments pe_kind {Oid}.
Arguments pe_decompressed_size {Oid}.
Arguments pe_zlib {Oid}.
Arguments pe_delta_group {Oid}.

Record PackOptions : Type := mkPackOptions { ofs_deltas : bool }.

(** The counters; the time measurements are not modelled. *)
Record DeltaStats : Type := mkDeltaStats {
  eligible : Z;
  comparisons : Z;
  emitted : Z;
  inserted : Z;
  bytes_saved : Z;
}.

Definition DeltaStats_default : DeltaStats := mkDeltaStats 0 0 0 0 0.

(** [Panicked] stands for a panic of the source, which has no value there. *)
Inductive PackOutError (Oid E IoError : Type) : Type :=
  | Input (e : E)
  | Write (e : IoError)
  | CorruptZlib (oid : Oid)
  | PackTruncated (written expected : Z)
  | Panicked.
Arguments Input {Oid E IoError}.
Arguments Write {Oid E IoError}.
Arguments CorruptZlib {Oid E IoError}.
Arguments PackTruncated {Oid E IoError}.
Arguments Panicked {Oid E IoError}.

(** The pack library's [output::Entry], with the two kinds the program makes. *)
Inductive EntryKind : Type :=
  | Base (kind : Kind)
  | DeltaRef (object_index : nat).

Record Entry (Oid : Type) : Type := mkEntry {
  en_id : Oid;
  en_kind : EntryKind;
  en_decompressed_size : Z;
  en_compressed_data : bytes;
}.
Arguments mkEntry {Oid}.
Arguments en_id {Oid}.
Arguments en_kind {Oid}.
Arguments en_decompressed_size {Oid}.
Arguments en_compressed_data {Oid}.

Record DeltaCandidate : Type := mkDeltaCandidate {
  dc_entry_index : nat;
  dc_group : Z;
  dc_body : bytes;
}.

(** Oldest first, as the deque is. *)
Record DeltaCandidates : Type := mkDeltaCandidates {
  dc_entries : list DeltaCandidate;
  dc_bytes : Z;
}.

Definition DeltaCandidates_default : DeltaCandidates := mkDeltaCandidates [] 0.

(** ** The base window *)

Definition matching (c : DeltaCandidates) (group : Z) : list DeltaCandidate :=
  filter (fun candidate => dc_group candidate = group) (dc_entries c).

(** The eviction loop of [insert]: one pop per pass, or the empty-queue break. *)
Fixpoint evict (entries : list DeltaCandidate) (bytes len : Z) : list DeltaCandidate * Z :=
  if ((MAX_DELTA_CACHE_BYTES <? bytes + len)%Z || (DELTA_WINDOW <=? length entries))
  then match entries with
       | [] => ([], bytes)
       | evicted :: entries' => evict entries' (bytes - Z.of_nat (length (dc_body evicted))) len
       end
  else (entries, bytes).

Definition candidates_insert (c : DeltaCandidates) (entry_index : nat) (group : Z) (body : bytes)
    : bool * DeltaCandidates :=
  let len := Z.of_nat (length body) in
  if (MAX_DELTA_CACHE_BYTES <? len)%Z then (false, c)
  else
    let '(entries, bytes) := evict (dc_entries c) (dc_bytes c) len in
    (true, mkDeltaCandidates (entries ++ [mkDeltaCandidate entry_index group body]) (bytes + len)).

Section pack_out.
Context {Oid E IoError : Type} {Zl : ZlibLib}.

(** ** Entries *)

Definition full_entry (object : PackEntry Oid) : Entry Oid :=
  mkEntry (pe_id object) (Base (pe_kind object)) (pe_decompressed_size object) (pe_zlib object).

(** The loop over the candidates of the target's group; [None] is a panic of
    the scan. *)
Fixpoint compare_candidates (body : bytes) (candidates : list DeltaCandidate) (budget : nat)
    (best : option (nat * bytes)) (stats : DeltaStats) : option (option (nat * bytes)) * DeltaStats :=
  match candidates with
  | [] => (Some best, stats)
  | candidate :: candidates' =>
      let stats := mkDeltaStats (eligible stats) (comparisons stats + 1) (emitted stats)
                     (inserted stats) (bytes_saved stats) in
      let index := block_index (dc_body candidate) in
      match make_delta (dc_body candidate) body index budget with
      | Delta delta =>
          compare_candidates body candidates' (length delta - 1)
            (Some (dc_entry_index candidate, delta)) stats
      | TooLarge => compare_candidates body candidates' budget best stats
      | Panic | OutOfFuel => (None, stats)
      end
  end.

(** The tail of [delta_or_full]: keep the body as a future base and emit the
    full entry. *)
Definition keep_full (object : PackEntry Oid) (entry_index : nat) (group : Z) (body : bytes)
    : SE (DeltaCandidates * DeltaStats) (PackOutError Oid E IoError) (Entry Oid) :=
  fun '(candidates, stats) =>
    let '(kept, candidates) := candidates_insert candidates entry_index group body in
    let stats :=
      if kept then mkDeltaStats (eligible stats) (comparisons stats) (emitted stats)
                     (inserted stats + 1) (bytes_saved stats)
      else stats in
    (Ok (full_entry object), (candidates, stats)).

Definition delta_or_full (object : PackEntry Oid) (entry_index : nat)
    : SE (DeltaCandidates * DeltaStats) (PackOutError Oid E IoError) (Entry Oid) :=
  fun '(candidates, stats) =>
    match pe_delta_group object with
    | None => (Ok (full_entry object), (candidates, stats))
    | Some group =>
        if negb (bool_decide (pe_kind object = KBlob))
           || negb ((MIN_DELTA_BLOB_SIZE <=? pe_decompressed_size object)%Z
                    && (pe_decompressed_size object <=? MAX_DELTA_BLOB_SIZE)%Z)
        then (Ok (full_entry object), (candidates, stats))
        else
          let stats := mkDeltaStats (eligible stats + 1) (comparisons stats) (emitted stats)
                         (inserted stats) (bytes_saved stats) in
          match inflate (pe_zlib object) (pe_decompressed_size object) with
          | None => (Err (CorruptZlib (pe_id object)), (candidates, stats))
          | Some body =>
              let '(best, stats) :=
                compare_candidates body (matching candidates group) (length body / 2) None stats in
              match best with
              | None => (Err Panicked, (candidates, stats))
              | Some None => keep_full object entry_index group body (candidates, stats)
              | Some (Some (base_index, delta)) =>
                  let compressed := deflate delta 6 in
                  if length compressed + MIN_DELTA_SAVINGS <? length (pe_zlib object) then
                    let stats := mkDeltaStats (eligible stats) (comparisons stats)
                                   (emitted stats + 1) (inserted stats)
                                   (bytes_saved stats
                                    + Z.of_nat (length (pe_zlib object) - length compressed)) in
                    (Ok (mkEntry (pe_id object) (DeltaRef base_index)
                           (Z.of_nat (length delta)) compressed), (candidates, stats))
                  else keep_full object entry_index group body (candidates, stats)
              end
          end
    end.

(** ** The writer loop *)

(** What the loop asks of the pack library's entry iterator: write the version
    2 header declaring a count, write one entry, write the trailing checksum.
    Output already written survives a failure. *)
Class PackWriter (W Digest : Type) : Type := {
  pw_header : Z -> SE W IoError unit;
  pw_entry : Entry Oid -> SE W IoError unit;
  pw_trailer : SE W IoError Digest;
}.

Context {W Digest : Type} {PW : PackWriter W Digest}.

(** What the write threads: the output, the count of entries written, the
    base window and the statistics. *)
Record WriteState : Type := mkWriteState {
  ws_out : W;
  ws_written : Z;
  ws_planner : DeltaCandidates * DeltaStats;
}.

Definition on_out {A} (m : SE W IoError A) : SE WriteState (PackOutError Oid E IoError) A :=
  fun s => let '(r, out) := m (ws_out s) in
           (map_err Write r, mkWriteState out (ws_written s) (ws_planner s)).

(** The closure mapped over the input. *)
Definition next_entry (options : PackOptions) (item : result E (PackEntry Oid))
    : SE WriteState (PackOutError Oid E IoError) (Entry Oid) :=
  fun s =>
    match item with
    | Err e => (Err (Input e), s)
    | Ok object =>
        let entry_index := Z.to_nat (ws_written s) in
        let '(r, planner) :=
          if ofs_deltas options then delta_or_full object entry_index (ws_planner s)
          else (Ok (full_entry object), ws_planner s) in
        match r with
        | Err e => (Err e, mkWriteState (ws_out s) (ws_written s) planner)
        | Ok entry => (Ok entry, mkWriteState (ws_out s) (wrap 32 (ws_written s + 1)) planner)
        end
    end.

Fixpoint write_entries (options : PackOptions) (objects : list (result E (PackEntry Oid)))
    : SE WriteState (PackOutError Oid E IoError) unit :=
  match objects with
  | [] => se_ret tt
  | item :: objects' =>
      do! entry <- next_entry options item;
      do! _ <- on_out (pw_entry entry);
      write_entries options objects'
  end.

Definition write_pack_with_options (objects : list (result E (PackEntry Oid))) (num_objects : Z)
    (options : PackOptions) (stats : DeltaStats) (out : W)
    : result (PackOutError Oid E IoError) Digest * WriteState :=
  (do! _ <- on_out (pw_header num_objects);
   do! _ <- write_entries options objects;
   do! digest <- on_out pw_trailer;
   fun s =>
     if negb (ws_written s =? num_objects)%Z then
       (Err (PackTruncated (ws_written s) num_objects), s)
     else (Ok digest, s))
  (mkWriteState out 0 (DeltaCandidates_default, stats)).

Definition write_pack (objects : list (result E (PackEntry Oid))) (num_objects : Z) (out : W)
    : result (PackOutError Oid E IoError) Digest * WriteState :=
  write_pack_with_options objects num_objects (mkPackOptions false) DeltaStats_default out.

(** ** What a reader recovers

    A full entry is its inflated data; a delta entry applies its inflated
    instructions to an earlier entry, which has to be full. *)
Definition resolve (earlier : list (Entry Oid)) (e : Entry Oid) : option (Kind * bytes) :=
  match en_kind e with
  | Base kind => (kind,.) <$> inflate (en_compressed_data e) (en_decompressed_size e)
  | DeltaRef j =>
      match earlier !! j with
      | Some (mkEntry _ (Base kind) size data) =>
          match inflate data size, inflate (en_compressed_data e) (en_decompressed_size e) with
          | Some base, Some delta => (kind,.) <$> apply_delta base delta
          | _, _ => None
          end
      | _ => None
      end
  end.

(** An input whose stored stream inflates to [body] under its recorded size. *)
Definition object_ok (o : PackEntry Oid) (body : bytes) : Prop :=
  is_u64 (pe_decompressed_size o)
  /\ inflate (pe_zlib o) (pe_decompressed_size o) = Some body.

(** ** The window invariant *)

Definition bodies_size (l : list DeltaCandidate) : Z :=
  fold_right (fun c n => Z.of_nat (length (dc_body c)) + n)%Z 0%Z l.

(** The window's byte count is exact and both its bounds hold. *)
Definition window_ok (c : DeltaCandidates) : Prop :=
  dc_bytes c = bodies_size (dc_entries c)
  /\ (dc_bytes c <= MAX_DELTA_CACHE_BYTES)%Z /\ length (dc_entries c) <= DELTA_WINDOW.

(** A candidate is a full blob already in the pack. *)
Definition candidate_ok (earlier : list (Entry Oid)) (c : DeltaCandidate) : Prop :=
  exists id size data, earlier !! dc_entry_index c = Some (mkEntry id (Base KBlob) size data)
    /\ inflate data size = Some (dc_body c) /\ (size <= MAX_DELTA_BLOB_SIZE)%Z.

Lemma bodies_size_app l c :
  bodies_size (l ++ [c]) = (bodies_size l + Z.of_nat (length (dc_body c)))%Z.
Proof.
  unfold bodies_size in *. induction l as [| x l IH]; cbn [fold_right app]; lia.
Qed.

Lemma bodies_size_nonneg l : (0 <= bodies_size l)%Z.
Proof.
  unfold bodies_size in *. induction l as [| x l IH]; cbn [fold_right app]; lia.
Qed.

Lemma evict_spec entries b len entries' b' :
  b = bodies_size entries -> (0 <= len <= MAX_DELTA_CACHE_BYTES)%Z ->
  evict entries b len = (entries', b') ->
  (exists n, entries' = drop n entries) /\ b' = bodies_size entries'
  /\ (b' + len <= MAX_DELTA_CACHE_BYTES)%Z /\ length entries' < DELTA_WINDOW.
Proof.
  revert b. induction entries as [| c entries IH]; intros b Hb Hlen; cbn [evict];
    destruct (Z.ltb_spec MAX_DELTA_CACHE_BYTES (b + len)); cbn [orb].
  - cbn [bodies_size fold_right] in Hb. lia.
  - destruct (Nat.leb_spec DELTA_WINDOW (length (@nil DeltaCandidate))) as [Hw | Hw].
    { cbn in Hw. unfold DELTA_WINDOW in Hw. lia. }
    intros [= <- <-]. split; [by exists 0 |]. done.
  - intros He. destruct (IH (b - Z.of_nat (length (dc_body c)))%Z) as ((n & ->) & H1); [cbn [bodies_size fold_right] in *; fold (bodies_size entries) in *; lia | done | done |].
    split; [by exists (S n) | done].
  - destruct (Nat.leb_spec DELTA_WINDOW (length (c :: entries))) as [Hw | Hw].
    + intros He. destruct (IH (b - Z.of_nat (length (dc_body c)))%Z) as ((n & ->) & H1); [cbn [bodies_size fold_right] in *; fold (bodies_size entries) in *; lia | done | done |].
      split; [by exists (S n) | done].
    + intros [= <- <-]. split; [by exists 0 | done].
Qed.

(** The base window keeps its exact byte count and both its bounds — at
    most 8 bodies and 8 MiB — whatever is inserted; a body over the budget is
    refused and leaves the window alone, any other becomes the newest entry
    and only the oldest are dropped for it. *)
Theorem candidates_insert_ok c i group body :
  window_ok c ->
  let '(kept, c') := candidates_insert c i group body in
  window_ok c'
  /\ (kept = false <-> (MAX_DELTA_CACHE_BYTES < Z.of_nat (length body))%Z)
  /\ (kept = false -> c' = c)
  /\ (kept = true -> exists n,
        dc_entries c' = drop n (dc_entries c) ++ [mkDeltaCandidate i group body]).
Proof.
  intros (Hb & Hm & Hl). unfold candidates_insert.
  destruct (Z.ltb_spec MAX_DELTA_CACHE_BYTES (Z.of_nat (length body))); [by split_and! |].
  destruct (evict _ _ _) as [entries' b'] eqn:He.
  apply evict_spec in He as ((n & ->) & Hb' & Hm' & Hl'); [| done | lia].
  unfold window_ok. cbn [dc_entries dc_bytes]. split_and!.
  - by rewrite bodies_size_app, Hb'.
  - lia.
  - rewrite length_app. cbn [length]. lia.
  - split; [done | lia].
  - done.
  - intros _. by exists n.
Qed.

(** ** One entry *)

Lemma candidate_ok_app earlier later c : candidate_ok earlier c -> candidate_ok (earlier ++ later) c.
Proof.
  intros (id & size & data & Hl & H). exists id, size, data. split; [| done].
  by apply lookup_app_l_Some.
Qed.

Lemma candidates_ok_app earlier later l :
  Forall (candidate_ok earlier) l -> Forall (candidate_ok (earlier ++ later)) l.
Proof. induction 1; constructor; [by apply candidate_ok_app | done]. Qed.

(** A delta that turns an earlier full blob into [body]. *)
Definition delta_for (earlier : list (Entry Oid)) (body : bytes) (d : nat * bytes) : Prop :=
  exists id size data base, earlier !! d.1 = Some (mkEntry id (Base KBlob) size data)
    /\ inflate data size = Some base /\ apply_delta base d.2 = Some body.

(** The counters a comparison leaves alone. *)
Definition same_savings (s t : DeltaStats) : Prop :=
  eligible s = eligible t /\ emitted s = emitted t /\ inserted s = inserted t
  /\ bytes_saved s = bytes_saved t.

Lemma compare_candidates_spec earlier body cands budget best stats :
  is_u64 (Z.of_nat (length body)) -> Forall (candidate_ok earlier) cands ->
  (forall d, best = Some d -> delta_for earlier body d) ->
  exists best' stats', compare_candidates body cands budget best stats = (Some best', stats')
    /\ (forall d, best' = Some d -> delta_for earlier body d) /\ same_savings stats' stats.
Proof.
  intros Hbody Hc. revert budget best stats.
  induction Hc as [| c cands (id & size & data & Hl & Hi & Hsz) Hc IH]; intros budget best stats Hbest;
    cbn [compare_candidates]; [by eexists _, _ |].
  pose proof (inflate_length _ _ _ Hi) as Hlen.
  destruct (make_delta_correct (dc_body c) body budget) as [-> | (d & -> & _ & Hd)].
  { unfold MAX_DELTA_BLOB_SIZE in Hsz. lia. }
  { done. }
  - edestruct IH as (b' & s' & -> & Hb' & Hs'); [exact Hbest |]. by exists b', s'.
  - edestruct IH as (b' & s' & -> & Hb' & Hs'); [| by exists b', s'].
    intros ? [= <-]. by exists id, size, data, (dc_body c).
Qed.

(** What one emitted entry promises, and what it does to the counters. *)
Definition entry_ok (earlier : list (Entry Oid)) (o : PackEntry Oid) (body : bytes)
    (before after : DeltaCandidates * DeltaStats) (e : Entry Oid) : Prop :=
  en_id e = pe_id o /\ resolve earlier e = Some (pe_kind o, body)
  /\ Forall (candidate_ok (earlier ++ [e])) (dc_entries after.1)
  /\ (window_ok before.1 -> window_ok after.1)
  /\ (Z.of_nat (length (en_compressed_data e)) + (bytes_saved after.2 - bytes_saved before.2)
      = Z.of_nat (length (pe_zlib o)))%Z
  /\ (Z.of_nat MIN_DELTA_SAVINGS * (emitted after.2 - emitted before.2)
      <= bytes_saved after.2 - bytes_saved before.2)%Z.

Lemma full_entry_ok earlier o body c st st' :
  object_ok o body -> Forall (candidate_ok earlier) (dc_entries c) -> same_savings st' st ->
  entry_ok earlier o body (c, st) (c, st') (full_entry o).
Proof.
  intros [Hu Ho] Hc (_ & He & _ & Hs). split_and!; cbn [fst snd]; [done | | | done | | ].
  - unfold resolve. cbn. by rewrite Ho.
  - by apply candidates_ok_app.
  - rewrite Hs. cbn [full_entry en_compressed_data]. lia.
  - rewrite Hs, He. lia.
Qed.

Lemma keep_full_ok earlier o body group c st st' :
  object_ok o body -> Forall (candidate_ok earlier) (dc_entries c) ->
  emitted st' = emitted st -> bytes_saved st' = bytes_saved st ->
  pe_kind o = KBlob -> (pe_decompressed_size o <= MAX_DELTA_BLOB_SIZE)%Z ->
  exists planner, keep_full o (length earlier) group body (c, st') = (Ok (full_entry o), planner)
    /\ entry_ok earlier o body (c, st) planner (full_entry o).
Proof.
  intros Ho Hc He Hs Hk Hsz. unfold keep_full, candidates_insert.
  assert (length body <= Z.to_nat MAX_DELTA_BLOB_SIZE) as Hlen.
  { destruct Ho as [_ Ho]. apply inflate_length in Ho. lia. }
  destruct (Z.ltb_spec MAX_DELTA_CACHE_BYTES (Z.of_nat (length body))) as [Hbig |].
  { unfold MAX_DELTA_CACHE_BYTES, MAX_DELTA_BLOB_SIZE in *. lia. }
  destruct (evict (dc_entries c) (dc_bytes c) (Z.of_nat (length body))) as [entries' b'] eqn:Hev.
  eexists. split; [done |].
  destruct (full_entry_ok earlier o body c st st Ho Hc) as (H1 & H2 & H3 & _ & H5 & H6); [done |].
  split_and!; [done | done | | | |]; cbn [fst snd dc_entries dc_bytes emitted bytes_saved].
  - apply Forall_app. split.
    + assert (exists n, entries' = drop n (dc_entries c)) as [n ->].
      { clear -Hev. revert Hev. generalize (dc_bytes c).
        induction (dc_entries c) as [| x l IH]; intros b; cbn [evict]; destruct (_ || _).
        - intros [= <- <-]. by exists 0.
        - intros [= <- <-]. by exists 0.
        - intros H. destruct (IH _ H) as [n ->]. by exists (S n).
        - intros [= <- <-]. by exists 0. }
      by apply Forall_drop.
    + apply Forall_singleton. exists (pe_id o), (pe_decompressed_size o), (pe_zlib o).
      cbn [dc_entry_index dc_body]. rewrite lookup_app_r, Nat.sub_diag by done.
      unfold full_entry. rewrite Hk. split; [done |]. split; [apply Ho | done].
  - intros Hw. pose proof (candidates_insert_ok c (length earlier) group body Hw) as Hins.
    unfold candidates_insert in Hins. rewrite Hev in Hins.
    destruct (Z.ltb_spec MAX_DELTA_CACHE_BYTES (Z.of_nat (length body))); [lia | apply Hins].
  - cbn [fst snd] in *. rewrite Hs. lia.
  - cbn [fst snd] in *. rewrite He, Hs. lia.
Qed.

Lemma delta_or_full_ok earlier o body c st :
  object_ok o body -> Forall (candidate_ok earlier) (dc_entries c) ->
  exists e planner, delta_or_full o (length earlier) (c, st) = (Ok e, planner)
    /\ entry_ok earlier o body (c, st) planner e.
Proof.
  intros Ho Hc. unfold delta_or_full.
  destruct (pe_delta_group o) as [group |].
  2: { exists (full_entry o), (c, st). split; [done |]. by apply full_entry_ok. }
  destruct (_ || _) eqn:Hel.
  { exists (full_entry o), (c, st). split; [done |]. by apply full_entry_ok. }
  apply orb_false_iff in Hel as [Hk Hsz]. apply negb_false_iff, bool_decide_eq_true in Hk.
  apply negb_false_iff, andb_true_iff in Hsz as [_ Hsz]. apply Z.leb_le in Hsz.
  pose proof Ho as [Hu Hinf]. rewrite Hinf. pose proof (inflate_length _ _ _ Hinf) as Hlen.
  edestruct (compare_candidates_spec earlier body (matching c group) (length body / 2) None)
    as (best & st' & -> & Hbest & Hst); [by rewrite Hlen | | done |].
  { apply List.Forall_forall. intros x Hx. apply list_elem_of_In, list_elem_of_filter in Hx as [_ Hx].
    by eapply List.Forall_forall in Hc; [| apply list_elem_of_In]. }
  destruct Hst as (Hs1 & Hs2 & Hs3 & Hs4). cbn [eligible emitted inserted bytes_saved] in *.
  pose proof (keep_full_ok earlier o body group c st st' Ho Hc Hs2 Hs4 Hk Hsz) as (pl & Hkeep & Hok).
  destruct best as [[j d] |].
  2: { by exists (full_entry o), pl. }
  destruct (Nat.ltb_spec (length (deflate d 6) + MIN_DELTA_SAVINGS) (length (pe_zlib o))) as [Hwin |].
  2: { by exists (full_entry o), pl. }
  eexists _, _. split; [done |].
  destruct (Hbest _ eq_refl) as (id & size & data & base & Hl & Hb & Ha). cbn [fst snd] in *.
  split_and!; cbn [en_id en_compressed_data fst snd emitted bytes_saved]; [done | | | done | lia | lia].
  - unfold resolve. cbn [en_kind en_compressed_data en_decompressed_size].
    rewrite Hl, Hb, inflate_deflate, Ha by lia. cbn. by rewrite Hk.
  - by apply candidates_ok_app.
Qed.

(** ** The whole pack *)

Fixpoint emit (entries : list (Entry Oid)) : SE W IoError unit :=
  match entries with
  | [] => se_ret tt
  | e :: entries' => do! _ <- pw_entry e; emit entries'
  end.

(** The pack the library writes for a list of entries under a declared count. *)
Definition pack_of (num_objects : Z) (entries : list (Entry Oid)) : SE W IoError Digest :=
  do! _ <- pw_header num_objects; do! _ <- emit entries; pw_trailer.

Definition data_size (entries : list (Entry Oid)) : Z :=
  fold_right (fun e n => Z.of_nat (length (en_compressed_data e)) + n)%Z 0%Z entries.

Definition stored_size (objects : list (PackEntry Oid)) : Z :=
  fold_right (fun o n => Z.of_nat (length (pe_zlib o)) + n)%Z 0%Z objects.

(** Entry [i] resolves, against the entries before it, to object [i]'s kind
    and content under object [i]'s id. *)
Definition pack_resolves (earlier : list (Entry Oid)) (objects : list (PackEntry Oid))
    (bodies : list bytes) (entries : list (Entry Oid)) : Prop :=
  length entries = length objects
  /\ forall i o body, objects !! i = Some o -> bodies !! i = Some body ->
       exists e, entries !! i = Some e /\ en_id e = pe_id o
         /\ resolve (earlier ++ take i entries) e = Some (pe_kind o, body).

(** The planner's bookkeeping over a run that emitted [entries] for [objects]. *)
Definition run_accounts (objects : list (PackEntry Oid)) (entries : list (Entry Oid))
    (before after : DeltaCandidates * DeltaStats) : Prop :=
  (window_ok before.1 -> window_ok after.1)
  /\ (data_size entries + (bytes_saved after.2 - bytes_saved before.2) = stored_size objects)%Z
  /\ (Z.of_nat MIN_DELTA_SAVINGS * (emitted after.2 - emitted before.2)
      <= bytes_saved after.2 - bytes_saved before.2)%Z.

Lemma next_entry_ok options earlier o body s :
  object_ok o body -> ws_written s = Z.of_nat (length earlier) ->
  (ws_written s + 1 < 2 ^ 32)%Z -> Forall (candidate_ok earlier) (dc_entries (ws_planner s).1) ->
  exists e planner,
    next_entry options (Ok o) s = (Ok e, mkWriteState (ws_out s) (ws_written s + 1) planner)
    /\ entry_ok earlier o body (ws_planner s) planner e.
Proof.
  intros Ho Hw Hmax Hc. unfold next_entry.
  assert (wrap 32 (ws_written s + 1) = ws_written s + 1)%Z as ->.
  { unfold wrap. apply Z.mod_small. lia. }
  rewrite Hw, Nat2Z.id. destruct (ws_planner s) as [c st].
  destruct (ofs_deltas options).
  - destruct (delta_or_full_ok earlier o body c st Ho Hc) as (e & pl & -> & Hok).
    by exists e, pl.
  - exists (full_entry o), (c, st). split; [done |]. by apply full_entry_ok.
Qed.

Lemma pack_resolves_cons earlier o objects body bodies e entries :
  en_id e = pe_id o -> resolve earlier e = Some (pe_kind o, body) ->
  pack_resolves (earlier ++ [e]) objects bodies entries ->
  pack_resolves earlier (o :: objects) (body :: bodies) (e :: entries).
Proof.
  intros Hid Hres [Hl Hpr]. split; [cbn; by rewrite Hl |].
  intros [| i] o' body'; cbn [lookup list_lookup].
  - intros [= <-] [= <-]. exists e. by rewrite app_nil_r.
  - intros Hi Hb. destruct (Hpr i o' body' Hi Hb) as (e' & He' & Hid' & Hr').
    exists e'. split_and!; [done | done |]. by rewrite <- app_assoc in Hr'.
Qed.

Lemma run_accounts_cons o objects body earlier e entries before mid after :
  entry_ok earlier o body before mid e -> run_accounts objects entries mid after ->
  run_accounts (o :: objects) (e :: entries) before after.
Proof.
  intros (_ & _ & _ & Hw & Hs & He) (Hw' & Hs' & He'). split; [auto |].
  cbn [data_size stored_size fold_right]. fold (data_size entries) (stored_size objects). lia.
Qed.

Lemma write_entries_ok options objects bodies rest :
  Forall2 object_ok objects bodies -> forall earlier s,
  ws_written s = Z.of_nat (length earlier) ->
  (ws_written s + Z.of_nat (length objects) < 2 ^ 32)%Z ->
  Forall (candidate_ok earlier) (dc_entries (ws_planner s).1) ->
  exists entries planner,
    pack_resolves earlier objects bodies entries
    /\ run_accounts objects entries (ws_planner s) planner
    /\ match emit entries (ws_out s) with
       | (Ok _, out') =>
           write_entries options (map Ok objects ++ rest) s
           = write_entries options rest
               (mkWriteState out' (ws_written s + Z.of_nat (length objects)) planner)
       | (Err e, out') =>
           exists s', write_entries options (map Ok objects ++ rest) s = (Err (Write e), s')
                      /\ ws_out s' = out'
       end.
Proof.
  induction 1 as [| o body objects bodies Ho Hos IH]; intros earlier s Hw Hmax Hc.
  { exists [], (ws_planner s). split; [split; [done |] |].
    - intros i o body Hi. done.
    - split; [split_and!; [done | cbn; lia | cbn; lia] |].
      cbn. rewrite Z.add_0_r. by destruct s. }
  cbn [length] in Hmax.
  destruct (next_entry_ok options earlier o body s Ho Hw ltac:(lia) Hc) as (e & pl & Hnext & Hok).
  destruct (IH (earlier ++ [e]) (mkWriteState (pw_entry e (ws_out s)).2 (ws_written s + 1) pl))
    as (entries & planner & Hpr & Hacc & Hrun);
    [rewrite length_app; cbn [ws_written length]; lia | cbn [ws_written]; lia | apply Hok |].
  cbn [ws_out ws_written ws_planner] in *.
  exists (e :: entries), planner.
  split; [by apply pack_resolves_cons; [apply Hok | apply Hok |] |].
  split; [by eapply run_accounts_cons |].
  cbn [map app write_entries emit length]. rewrite (se_bind_run _ _ _ _ _ Hnext).
  unfold se_bind, on_out. cbn [ws_out ws_written ws_planner].
  destruct (pw_entry e (ws_out s)) as [[[] | err] out1]; cbn [map_err fst snd] in *; [| by eexists].
  destruct (emit entries out1) as [[[] | err] out2]; [| done].
  rewrite Hrun. f_equal. f_equal. lia.
Qed.

(** How a write of good objects ends: whatever the pack library reports, and
    [Truncated] in place of a digest when the count was wrong. *)
Definition settled (written num_objects : Z) (r : result IoError Digest)
    : result (PackOutError Oid E IoError) Digest :=
  match r with
  | Err e => Err (Write e)
  | Ok digest => if (written =? num_objects)%Z then Ok digest
                 else Err (PackTruncated written num_objects)
  end.

(** A write of good objects emits the pack of resolving entries. *)
Lemma write_pack_good objects bodies num_objects options stats out :
  Forall2 object_ok objects bodies -> (Z.of_nat (length objects) < 2 ^ 32)%Z ->
  exists entries,
    pack_resolves [] objects bodies entries
    /\ (let '(r, s) := write_pack_with_options (map Ok objects) num_objects options stats out in
        let '(io, out') := pack_of num_objects entries out in
        r = settled (Z.of_nat (length objects)) num_objects io /\ ws_out s = out').
Proof.
  intros Hos Hmax. unfold write_pack_with_options, pack_of, se_bind, on_out.
  cbn [ws_out ws_written ws_planner].
  destruct (write_entries_ok options objects bodies [] Hos []
    (mkWriteState (pw_header num_objects out).2 0 (DeltaCandidates_default, stats)))
    as (entries & planner & Hpr & _ & Hrun); [done | cbn; lia | constructor |].
  exists entries. split; [done |]. rewrite app_nil_r in Hrun.
  cbn [ws_out ws_written ws_planner] in Hrun.
  destruct (pw_header num_objects out) as [[[] | err] out1]; cbn [map_err fst snd] in *; [| done].
  destruct (emit entries out1) as [[[] | err] out2].
  - rewrite Hrun. cbn [write_entries se_ret ws_out ws_written ws_planner].
    destruct (pw_trailer out2) as [[d | err] out3]; cbn [map_err settled]; [| done].
    cbn [ws_written]. rewrite Z.add_0_l. by destruct (_ =? _)%Z.
  - by destruct Hrun as (s' & -> & <-).
Qed.

(** C39: the pack writer is correct.  For objects whose stored streams inflate,
    the output is exactly the pack of a list of entries, one per object and in
    order, each of which a reader resolves — directly, or by applying its
    delta to an earlier full entry — to the object's kind and content under
    its id; no scan panics, a write failure is reported as [Write] and a wrong
    object count as [Truncated]. *)
Theorem write_pack_correct objects bodies num_objects options stats out :
  Forall2 object_ok objects bodies -> (Z.of_nat (length objects) < 2 ^ 32)%Z ->
  exists entries,
    pack_resolves [] objects bodies entries
    /\ (let '(r, s) := write_pack_with_options (map Ok objects) num_objects options stats out in
        let '(io, out') := pack_of num_objects entries out in
        r = settled (Z.of_nat (length objects)) num_objects io /\ ws_out s = out').
Proof. apply write_pack_good. Qed.

(** The planner's accounting is exact.  The stored bytes of the emitted
    entries plus [bytes_saved] are the stored bytes of the objects, each
    emitted delta saves more than the minimum, and the base window never
    outgrows its bounds. *)
Theorem write_pack_savings objects bodies num_objects options out digest s :
  Forall2 object_ok objects bodies -> (Z.of_nat (length objects) < 2 ^ 32)%Z ->
  write_pack_with_options (map Ok objects) num_objects options DeltaStats_default out = (Ok digest, s) ->
  exists entries, pack_of num_objects entries out = (Ok digest, ws_out s)
    /\ (data_size entries + bytes_saved (ws_planner s).2 = stored_size objects)%Z
    /\ (Z.of_nat MIN_DELTA_SAVINGS * emitted (ws_planner s).2 <= bytes_saved (ws_planner s).2)%Z
    /\ window_ok (ws_planner s).1.
Proof.
  intros Hos Hmax. unfold write_pack_with_options, pack_of, se_bind, on_out.
  cbn [ws_out ws_written ws_planner].
  destruct (write_entries_ok options objects bodies [] Hos []
    (mkWriteState (pw_header num_objects out).2 0 (DeltaCandidates_default, DeltaStats_default)))
    as (entries & planner & _ & (Hwin & Hsave & Hem) & Hrun); [done | cbn; lia | constructor |].
  rewrite app_nil_r in Hrun. cbn [ws_out ws_written ws_planner fst snd] in *.
  destruct (pw_header num_objects out) as [[[] | err] out1]; cbn [map_err fst snd] in *; [| done].
  destruct (emit entries out1) as [[[] | err] out2] eqn:Hemit.
  2: { destruct Hrun as (s' & -> & _). done. }
  rewrite Hrun. cbn [write_entries se_ret ws_out ws_written ws_planner].
  destruct (pw_trailer out2) as [[d | err] out3] eqn:Htr; cbn [map_err]; [| done].
  cbn [ws_written]. destruct (negb _); [done |]. intros [= <- <-].
  exists entries. rewrite Hemit, Htr. cbn [ws_out ws_planner].
  cbn [bytes_saved emitted DeltaStats_default] in *.
  split; [done | split; [lia | split; [lia |]]].
  apply Hwin. split; [done | split; [done | cbn; lia]].
Qed.

(** A bad input after good objects ends the write with its own error. *)
Lemma write_pack_bad objects bodies bad rest num_objects options stats out err :
  Forall2 object_ok objects bodies -> (Z.of_nat (length objects) < 2 ^ 32)%Z ->
  match bad with
  | Err e => err = Input e
  | Ok o => ofs_deltas options = true /\ pe_delta_group o <> None /\ pe_kind o = KBlob
      /\ (MIN_DELTA_BLOB_SIZE <= pe_decompressed_size o <= MAX_DELTA_BLOB_SIZE)%Z
      /\ inflate (pe_zlib o) (pe_decompressed_size o) = None /\ err = CorruptZlib (pe_id o)
  end ->
  exists entries,
    pack_resolves [] objects bodies entries
    /\ (let '(r, s) :=
          write_pack_with_options (map Ok objects ++ bad :: rest) num_objects options stats out in
        let '(io, out') := (do! _ <- pw_header num_objects; emit entries) out in
        r = match io with Ok _ => Err err | Err e => Err (Write e) end /\ ws_out s = out').
Proof.
  intros Hos Hmax Hbad. unfold write_pack_with_options, se_bind, on_out.
  cbn [ws_out ws_written ws_planner].
  destruct (write_entries_ok options objects bodies (bad :: rest) Hos []
    (mkWriteState (pw_header num_objects out).2 0 (DeltaCandidates_default, stats)))
    as (entries & planner & Hpr & _ & Hrun); [done | cbn; lia | constructor |].
  exists entries. split; [done |]. cbn [ws_out ws_written ws_planner] in Hrun.
  destruct (pw_header num_objects out) as [[[] | e] out1]; cbn [map_err fst snd] in *; [| done].
  destruct (emit entries out1) as [[[] | e] out2].
  2: { by destruct Hrun as (s' & -> & <-). }
  rewrite Hrun. cbn [write_entries]. unfold se_bind, next_entry.
  destruct bad as [o | e]; [| by subst].
  destruct Hbad as (-> & Hg & Hk & [Hlo Hhi] & Hi & ->). cbn [ws_planner]. destruct planner as [c st].
  unfold delta_or_full. destruct (pe_delta_group o); [| done].
  rewrite bool_decide_eq_true_2, (proj2 (Z.leb_le _ _) Hlo), (proj2 (Z.leb_le _ _) Hhi), Hi by done.
  done.
Qed.

(** A bad input stops the pack where it stands.  After good objects, a
    failing input ends the write with that failure, and a stored blob that
    does not inflate to its recorded size ends a delta-planning write with
    [CorruptZlib] — unless writing failed before. *)
Theorem write_pack_bad_input objects bodies bad rest num_objects options stats out err :
  Forall2 object_ok objects bodies -> (Z.of_nat (length objects) < 2 ^ 32)%Z ->
  match bad with
  | Err e => err = Input e
  | Ok o => ofs_deltas options = true /\ pe_delta_group o <> None /\ pe_kind o = KBlob
      /\ (MIN_DELTA_BLOB_SIZE <= pe_decompressed_size o <= MAX_DELTA_BLOB_SIZE)%Z
      /\ inflate (pe_zlib o) (pe_decompressed_size o) = None /\ err = CorruptZlib (pe_id o)
  end ->
  exists entries,
    pack_resolves [] objects bodies entries
    /\ (let '(r, s) :=
          write_pack_with_options (map Ok objects ++ bad :: rest) num_objects options stats out in
        let '(io, out') := (do! _ <- pw_header num_objects; emit entries) out in
        r = match io with Ok _ => Err err | Err e => Err (Write e) end /\ ws_out s = out').
Proof. apply write_pack_bad. Qed.

End pack_out.

(** ** A concrete run

    Two similar 600-byte blobs over the stored codec and a writer that keeps a
    trace: the second becomes a delta. *)
Module PackSample.

Definition body1 : bytes := concat (repeat (bs "0123456789abcdef0123456789ABCD") 20).
Definition body2 : bytes := take 300 body1 ++ bs "!" ++ drop 301 body1.

Definition object (id : nat) (body : bytes) : PackEntry nat :=
  mkPackEntry id KBlob (Z.of_nat (length body)) (x78 :: body) (Some 7%Z).

#[export] Instance writer : @PackWriter nat unit (list (Entry nat)) nat := {
  pw_header _ := se_ret tt;
  pw_entry e := fun w => (Ok tt, w ++ [e]);
  pw_trailer := fun w => (Ok (length w), w);
}.

Abbreviation run n := (@write_pack_with_options nat unit unit StoredZlib.lib (list (Entry nat)) nat writer
  (map Ok [object 1 body1; object 2 body2]) n (mkPackOptions true) DeltaStats_default []).

Lemma objects_ok :
  Forall2 (@object_ok nat StoredZlib.lib) [object 1 body1; object 2 body2] [body1; body2].
Proof. repeat constructor; by vm_compute. Qed.

Lemma run_results :
  (run 2).1 = Ok 2 /\ (run 3).1 = Err (PackTruncated 2 3)
  /\ en_kind <$> ws_out (run 2).2 = [Base KBlob; DeltaRef 0]
  /\ bytes_saved (ws_planner (run 2).2).2 = 586%Z
  /\ stored_size [object 1 body1; object 2 body2] = 1202%Z.
Proof. vm_compute. repeat split; reflexivity. Qed.

Lemma emit_trace entries out : emit (PW := writer) entries out = (Ok tt, out ++ entries).
Proof.
  revert out. induction entries as [| e entries IH]; intros out.
  - cbn. by rewrite app_nil_r.
  - change (emit (e :: entries) out) with (emit (PW := writer) entries (out ++ [e])).
    by rewrite IH, <- app_assoc.
Qed.

Lemma pack_of_trace n entries :
  pack_of (PW := writer) n entries [] = (Ok (length entries), entries).
Proof.
  unfold pack_of. erewrite se_bind_run by done. by erewrite se_bind_run by apply emit_trace.
Qed.

End PackSample.

Import PackSample.

Lemma candidates_insert_ok_witness :
  window_ok DeltaCandidates_default
  /\ window_ok (candidates_insert DeltaCandidates_default 0 7%Z body1).2.
Proof.
  assert (window_ok DeltaCandidates_default) as H by (split; [done | split; [done | cbn; lia]]).
  split; [exact H |].
  pose proof (candidates_insert_ok DeltaCandidates_default 0 7%Z body1 H) as Hok.
  destruct (candidates_insert _ _ _ _) as [k c]. exact (proj1 Hok).
Defined.

Lemma write_pack_correct_witness :
  @pack_resolves nat StoredZlib.lib [] [object 1 body1; object 2 body2] [body1; body2]
    (ws_out (run 2).2)
  /\ (run 2).1 = Ok 2 /\ en_kind <$> ws_out (run 2).2 = [Base KBlob; DeltaRef 0].
Proof.
  pose proof (@write_pack_correct nat unit unit StoredZlib.lib (list (Entry nat)) nat writer
    [object 1 body1; object 2 body2] [body1; body2] 2 (mkPackOptions true) DeltaStats_default []
    objects_ok eq_refl) as H.
  destruct H as (entries & Hpr & H). rewrite pack_of_trace in H.
  pose proof run_results as (Hr & _ & Hk & _).
  destruct (write_pack_with_options _ _ _ _ _) as [r s]. destruct H as [_ Hs].
  cbn [fst snd] in *. rewrite Hs in *. split; [exact Hpr | split; [exact Hr | exact Hk]].
Defined.

Lemma write_pack_savings_witness :
  exists entries : list (Entry nat), (data_size entries + 586 = 1202)%Z.
Proof.
  pose proof run_results as (Hr & _ & _ & Hb & Hz).
  destruct (@write_pack_savings nat unit unit StoredZlib.lib (list (Entry nat)) nat writer
    [object 1 body1; object 2 body2] [body1; body2] 2 (mkPackOptions true) [] 2 (run 2).2
    objects_ok eq_refl) as (entries & _ & H & _).
  - destruct (write_pack_with_options _ _ _ _ _) as [r s].
    cbn [fst snd] in *. by rewrite Hr.
  - exists entries. rewrite <- Hz, <- H, Hb. reflexivity.
Defined.

Lemma write_pack_bad_input_witness :
  (@write_pack_with_options nat unit unit StoredZlib.lib (list (Entry nat)) nat writer
    (map Ok [object 1 body1] ++ [Ok (mkPackEntry 5 KBlob 700 (x78 :: body2) (Some 7%Z))]) 2
    (mkPackOptions true) DeltaStats_default []).1 = Err (CorruptZlib 5).
Proof.
  destruct (@write_pack_bad_input nat unit unit StoredZlib.lib (list (Entry nat)) nat writer
    [object 1 body1] [body1] (Ok (mkPackEntry 5 KBlob 700 (x78 :: body2) (Some 7%Z))) [] 2
    (mkPackOptions true) DeltaStats_default [] (CorruptZlib 5)) as (entries & _ & H).
  - constructor; [split; by vm_compute | constructor].
  - reflexivity.
  - split; [reflexivity | split; [discriminate | split; [reflexivity |]]].
    split; [by vm_compute | split; [by vm_compute | reflexivity]].
  - destruct (write_pack_with_options _ _ _ _ _) as [r s].
    rewrite (se_bind_run (@pw_header _ _ _ _ writer 2) _ [] tt [] eq_refl), emit_trace in H.
    exact (proj1 H).
Defined.
