(* ===== verification/SlateDb.v ===== *)
(** * The key-value database the store drives

    SlateDB is a library; [SlateDb] is what the program relies on of it.  A
    database is observed through its [history]: the contents after each commit
    made so far, the newest first, other clients' commits included.  Any call
    may fail, and any call may find that others have committed in between; a
    call that succeeds is answered from the newest contents at its return, and
    a transaction that commits does so atomically over contents on which
    everything it read still holds (serializable snapshot isolation). *)

From S2P Require Import Prelude Bytes.
From stdpp Require Import gmap sorting.
From Stdlib Require Import Lia.

Abbreviation Contents := (gmap bytes bytes).

(** Buffered writes laid over contents; [None] is a deletion. *)
Definition overlay (ws : gmap bytes (option bytes)) (m : Contents) : Contents :=
  merge (fun w v => match w with Some o => o | None => v end) ws m.

Lemma lookup_overlay ws m k :
  overlay ws m !! k = match ws !! k with Some o => o | None => m !! k end.
Proof. unfold overlay. rewrite lookup_merge. by destruct (ws !! k), (m !! k). Qed.

Lemma overlay_empty m : overlay ∅ m = m.
Proof. apply map_eq. intros k. by rewrite lookup_overlay, lookup_empty. Qed.

Lemma overlay_insert ws m k v :
  overlay (<[k := Some v]> ws) m = <[k := v]> (overlay ws m).
Proof.
  apply map_eq. intros j. rewrite lookup_overlay. destruct (decide (k = j)) as [<- |].
  - by rewrite !lookup_insert_eq.
  - by rewrite !lookup_insert_ne, lookup_overlay by done.
Qed.

Lemma overlay_delete ws m k :
  overlay (<[k := None]> ws) m = delete k (overlay ws m).
Proof.
  apply map_eq. intros j. rewrite lookup_overlay. destruct (decide (k = j)) as [<- |].
  - by rewrite lookup_insert_eq, lookup_delete_eq.
  - by rewrite lookup_insert_ne, lookup_delete_ne, lookup_overlay by done.
Qed.

(** Byte strings in the database's key order. *)
Definition key_le (a b : bytes * bytes) : Prop := bytes_le a.1 b.1.

(** The entries of [m] under a prefix, in key order. *)
Definition is_scan (m : Contents) (prefix : bytes) (kvs : list (bytes * bytes)) : Prop :=
  StronglySorted key_le kvs /\ NoDup kvs.*1
  /\ forall k v, (k, v) ∈ kvs <-> m !! k = Some v /\ starts_with prefix k = true.

Class SlateDb (W Txn DbError : Type) : Type := {
  history : W -> list Contents;
  view : W -> Contents := fun w => hd ∅ (history w);
  evolves : W -> W -> Prop := fun w w' => exists l, history w' = l ++ history w;

  db_get : bytes -> SE W DbError (option bytes);
  db_put : bytes -> bytes -> bool -> SE W DbError unit;
  db_delete : bytes -> SE W DbError unit;
  db_scan_prefix : bytes -> SE W DbError (list (bytes * bytes));
  db_flush : SE W DbError unit;
  db_begin : SE W DbError Txn;
  txn_get : bytes -> SE Txn DbError (option bytes);
  txn_put : bytes -> bytes -> SE Txn DbError unit;
  txn_delete : bytes -> SE Txn DbError unit;
  txn_commit : Txn -> SE W DbError unit;
  is_conflict : DbError -> bool;

  (** a transaction: the contents it started from, the keys it has read from
      them, and its buffered writes *)
  txn_base : Txn -> Contents;
  txn_reads : Txn -> gset bytes;
  txn_writes : Txn -> gmap bytes (option bytes);

  db_get_spec : forall k w r w', db_get k w = (r, w') ->
    evolves w w' /\ forall v, r = Ok v -> v = view w' !! k;
  db_put_ok : forall k v d w w', db_put k v d w = (Ok tt, w') ->
    exists l, history w' = <[k := v]> (hd ∅ l) :: l /\ suffix (history w) l;
  db_delete_ok : forall k w w', db_delete k w = (Ok tt, w') ->
    exists l, history w' = delete k (hd ∅ l) :: l /\ suffix (history w) l;
  db_scan_spec : forall p w r w', db_scan_prefix p w = (r, w') ->
    evolves w w' /\ forall kvs, r = Ok kvs -> is_scan (view w') p kvs;
  db_flush_spec : forall w r w', db_flush w = (r, w') -> evolves w w';
  db_begin_spec : forall w r w', db_begin w = (r, w') ->
    evolves w w'
    /\ forall t, r = Ok t -> txn_base t = view w' /\ txn_reads t = ∅ /\ txn_writes t = ∅;
  txn_get_spec : forall k t r t', txn_get k t = (r, t') ->
    txn_base t' = txn_base t /\ txn_writes t' = txn_writes t
    /\ forall v, r = Ok v ->
         v = overlay (txn_writes t) (txn_base t) !! k
         /\ txn_reads t ⊆ txn_reads t'
         /\ (txn_writes t !! k = None -> k ∈ txn_reads t');
  txn_put_ok : forall k v t t', txn_put k v t = (Ok tt, t') ->
    txn_base t' = txn_base t /\ txn_reads t' = txn_reads t
    /\ txn_writes t' = <[k := Some v]> (txn_writes t);
  txn_delete_ok : forall k t t', txn_delete k t = (Ok tt, t') ->
    txn_base t' = txn_base t /\ txn_reads t' = txn_reads t
    /\ txn_writes t' = <[k := None]> (txn_writes t);
  txn_commit_ok : forall t w w', txn_commit t w = (Ok tt, w') ->
    exists l, history w' = overlay (txn_writes t) (hd ∅ l) :: l /\ suffix (history w) l
      /\ forall k, k ∈ txn_reads t -> hd ∅ l !! k = txn_base t !! k;
  txn_commit_err : forall t w e w', txn_commit t w = (Err e, w') ->
    is_conflict e = true -> evolves w w';
}.

Section laws.
Context `{Sdb : SlateDb W Txn DbError}.

#[export] Instance evolves_refl : Reflexive evolves.
Proof. intros w. by exists []. Qed.

#[export] Instance evolves_trans : Transitive evolves.
Proof. intros a b c [l E] [l' E']. exists (l' ++ l). by rewrite E', E, app_assoc. Qed.

Lemma suffix_evolves w w' c l :
  history w' = c :: l -> suffix (history w) l -> evolves w w'.
Proof. intros E [l' ->]. exists (c :: l'). by rewrite E. Qed.

Lemma evolves_suffix w w' l : evolves w w' -> suffix (history w') l -> suffix (history w) l.
Proof. intros [l1 E1] [l2 ->]. exists (l2 ++ l1). by rewrite E1, app_assoc. Qed.

Lemma view_cons w c l : history w = c :: l -> view w = c.
Proof. unfold view. by intros ->. Qed.

End laws.

(** ** A database in memory

    One client, nothing fails, conflicts are detected on the keys read. *)
Module MemDb.

Record txn : Type := mkTxn {
  base : Contents;
  reads : gset bytes;
  writes : gmap bytes (option bytes);
}.

Inductive error : Type := Conflict.

Definition W : Type := list Contents.

Definition cur (w : W) : Contents := hd ∅ w.

Definition sorted_entries (m : Contents) (prefix : bytes) : list (bytes * bytes) :=
  merge_sort key_le (filter (fun kv => starts_with prefix kv.1 = true) (map_to_list m)).

#[export] Instance key_le_total : Total key_le.
Proof. intros a b. unfold key_le. destruct (bytes_le_total a.1 b.1) as [-> | ->]; auto. Qed.

#[export] Instance key_le_trans : Transitive key_le.
Proof.
  intros a b c. unfold key_le. rewrite !Is_true_true. apply bytes_le_trans.
Qed.

Lemma sorted_entries_scan m prefix : is_scan m prefix (sorted_entries m prefix).
Proof.
  unfold sorted_entries. split_and!.
  - apply (StronglySorted_merge_sort key_le).
  - rewrite merge_sort_Permutation. apply NoDup_fst_filter, NoDup_fst_map_to_list.
  - intros k v. rewrite merge_sort_Permutation, list_elem_of_filter, elem_of_map_to_list. tauto.
Qed.

Definition get (k : bytes) : SE W error (option bytes) := fun w => (Ok (cur w !! k), w).
Definition put (k v : bytes) (_ : bool) : SE W error unit := fun w => (Ok tt, <[k := v]> (cur w) :: w).
Definition del (k : bytes) : SE W error unit := fun w => (Ok tt, delete k (cur w) :: w).
Definition scan (p : bytes) : SE W error (list (bytes * bytes)) :=
  fun w => (Ok (sorted_entries (cur w) p), w).
Definition begin : SE W error txn := fun w => (Ok (mkTxn (cur w) ∅ ∅), w).
Definition tget (k : bytes) : SE txn error (option bytes) := fun t =>
  (Ok (overlay (writes t) (base t) !! k), mkTxn (base t) ({[k]} ∪ reads t) (writes t)).
Definition tput (k v : bytes) : SE txn error unit := fun t =>
  (Ok tt, mkTxn (base t) (reads t) (<[k := Some v]> (writes t))).
Definition tdel (k : bytes) : SE txn error unit := fun t =>
  (Ok tt, mkTxn (base t) (reads t) (<[k := None]> (writes t))).
Definition commit (t : txn) : SE W error unit := fun w =>
  if decide (set_Forall (fun k => cur w !! k = base t !! k) (reads t))
  then (Ok tt, overlay (writes t) (cur w) :: w) else (Err Conflict, w).

#[refine] #[export] Instance lib : SlateDb W txn error := {|
  history := fun w => w;
  db_get := get;
  db_put := put;
  db_delete := del;
  db_scan_prefix := scan;
  db_flush := se_ret tt;
  db_begin := begin;
  txn_get := tget;
  txn_put := tput;
  txn_delete := tdel;
  txn_commit := commit;
  is_conflict _ := true;
  txn_base := base;
  txn_reads := reads;
  txn_writes := writes;
|}.
Proof.
  - intros k w r w' [= <- <-]. split; [by exists [] | by intros v [= <-]].
  - intros k v d w w' [= <-]. by exists w.
  - intros k w w' [= <-]. by exists w.
  - intros p w r w' [= <- <-]. split; [by exists [] |]. intros kvs [= <-]. apply sorted_entries_scan.
  - intros w r w' [= <- <-]. by exists [].
  - intros w r w' [= <- <-]. split; [by exists [] |]. by intros t [= <-].
  - intros k t r t' [= <- <-]. split; [done | split; [done |]]. intros v [= <-].
    split; [done | split; cbn [reads]; set_solver].
  - by intros k v t t' [= <-].
  - by intros k t t' [= <-].
  - intros t w w'. unfold commit. case_decide as H; [| done]. intros [= <-]. by exists w.
  - intros t w e w'. unfold commit. case_decide; [done |]. intros [= <- <-] _. by exists [].
Defined.

End MemDb.
