(* ===== verification/Store.v ===== *)
(** * Typed persistence ([src/storage/store.rs])

    The repository registry, the typed per-segment operations and the
    compare-and-swap of refs, over the database interface of SlateDb.v and the
    codecs of Keys.v and Values.v.  Opening, warming, closing and the metrics
    are not modelled. *)

From S2P Require Import Prelude Bytes GixHash Keys Values SlateDb.
From stdpp Require Import gmap strings sorting.
From Stdlib Require Import Lia.

Definition META_REPO_PREFIX : bytes := bs "repo:".
Definition META_NEXT_REPO_ID : bytes := bs "next-repo-id".
Definition META_OBJECT_FORMAT : bytes := bs "object-format".
Definition META_DEFAULT_BRANCH : bytes := bs "default-branch".
Definition META_SCHEMA_VERSION : bytes := bs "schema-version".
Definition OBJECT_FORMAT_SHA1 : bytes := bs "sha1".
Definition DEFAULT_BRANCH : bytes := bs "refs/heads/main".
Definition HEAD_REF : bytes := bs "HEAD".
Definition SCHEMA_VERSION : Z := 2.
Definition FIRST_REPO_ID : Z := 1.
Definition CREATE_ATTEMPTS : nat := 32.
Definition UPDATE_REFS_ATTEMPTS : nat := 2.
Definition REASON_NON_FAST_FORWARD : bytes := bs "non-fast-forward".
Definition REASON_SYMBOLIC : bytes := bs "cannot update symbolic ref".
Definition REASON_CONFLICT : bytes := bs "transaction conflict".

(** [SegmentExtractor]: SlateDB routes a key or a scan by this many of its
    bytes. *)
Inductive PrefixTarget : Set := Point (b : bytes) | Prefix (b : bytes).

Definition extractor_name : bytes := bs "miscreant-segment-v1".

Definition prefix_len (target : PrefixTarget) : option nat :=
  let b := match target with Point b | Prefix b => b end in
  if decide (b = []) then None else Some 1.

(** Every scan is routed where the keys under its prefix are, and keys are
    routed together exactly when they are of one segment. *)
Lemma segment_routed r s x p :
  p <> [] -> p `prefix_of` (segment_prefix r s ++ x) ->
  prefix_len (Prefix p) = Some 1 /\ prefix_len (Point (segment_prefix r s ++ x)) = Some 1
  /\ take 1 p = take 1 (segment_prefix r s ++ x)
  /\ forall r' s' y, take 1 (segment_prefix r' s' ++ y) = take 1 (segment_prefix r s ++ x) <-> s' = s.
Proof.
  intros Hne [k Hk]. unfold prefix_len. rewrite (decide_False (P := p = [])) by done. split; [done | split; [done |]].
  destruct p as [| b p]; [done |]. rewrite Hk. split; [done |]. injection Hk as <- _. intros r' s' y. cbn. split; [| by intros ->].
  intros [= E]. by destruct s, s'.
Qed.

(** The variants the modelled operations raise; those of opening a store
    (url, io, object store, part cache) are not. *)
Inductive StoreError (DbError : Type) : Type :=
  | Db (e : DbError)
  | Key (e : KeyError)
  | Value (e : ValueError)
  | UnexpectedMeta (repo : RepoId) (key : bytes)
  | MissingMeta (repo : RepoId) (key : bytes)
  | UnsupportedObjectFormat (value : bytes)
  | CreateContention.
Arguments Db {DbError}.
Arguments Key {DbError}.
Arguments Value {DbError}.
Arguments UnexpectedMeta {DbError}.
Arguments MissingMeta {DbError}.
Arguments UnsupportedObjectFormat {DbError}.
Arguments CreateContention {DbError}.

Record RepoMeta : Type := mkRepoMeta {
  rm_id : RepoId;
  rm_object_format : HashKind;
  rm_default_branch : bytes;
}.

Record RefUpdate (Oid : Type) : Type := mkRefUpdate {
  ru_name : bytes;
  ru_expected_old : option Oid;
  ru_new : option Oid;
}.
Arguments mkRefUpdate {Oid}.
Arguments ru_name {Oid}.
Arguments ru_expected_old {Oid}.
Arguments ru_new {Oid}.

Inductive RefOutcome : Set := Updated | Rejected (reason : bytes).

Record RefUpdateResult : Set := mkRefUpdateResult {
  rr_name : bytes;
  rr_outcome : RefOutcome;
}.

Inductive Durability : Set := Durable | Relaxed.

(** The [await_durable] flag of the write options. *)
Definition write_options (d : Durability) : bool := match d with Durable => true | Relaxed => false end.

Definition raw_u64 (value : MetaValue) : option Z :=
  match value with
  | Raw b => if decide (length b = 8) then Some (from_be_bytes b) else None
  | _ => None
  end.

Section pure.
Context {DbError : Type}.

Definition decode_repo_id (repo_key : bytes) (value : MetaValue) : result (StoreError DbError) RepoId :=
  ok_or (mkRepoId <$> raw_u64 value) (UnexpectedMeta RepoId_GLOBAL repo_key).

Definition decode_counter (value : MetaValue) : result (StoreError DbError) Z :=
  ok_or (raw_u64 value) (UnexpectedMeta RepoId_GLOBAL META_NEXT_REPO_ID).

Definition parse_object_format (value : bytes) : result (StoreError DbError) HashKind :=
  if decide (value = bs "sha1") then Ok Sha1
  else if decide (value = bs "sha256") then Ok Sha256
  else Err (UnsupportedObjectFormat value).

End pure.

(** [u64::saturating_add(1)]. *)
Definition saturating_succ (n : Z) : Z := Z.min (n + 1) (2 ^ 64 - 1).

Section store.
Context {Oid : Type} {OL : OidLib Oid} {W Txn DbError : Type} {Sdb : SlateDb W Txn DbError}.

Abbreviation M A := (SE W (StoreError DbError) A).
Abbreviation MT A := (SE Txn (StoreError DbError) A).

Definition db {S A} (m : SE S DbError A) : SE S (StoreError DbError) A := se_map_err Db m.

(** Decode a value that was read, if there was one. *)
Definition decode_opt {S A} (decode : bytes -> result ValueError A) (v : option bytes)
    : SE S (StoreError DbError) (option A) :=
  match v with
  | Some b => do! a <- se_lift (map_err Value (decode b)); se_ret (Some a)
  | None => se_ret None
  end.

(** ** Typed segments *)

Definition get_object (repo : RepoId) (oid : Oid) : M (option ObjectRecord) :=
  do! v <- db (db_get (object_key repo oid)); decode_opt record_decode v.

Definition put_object (repo : RepoId) (oid : Oid) (record : ObjectRecord) (durability : Durability)
    : M unit :=
  db (db_put (object_key repo oid) (record_encode record) (write_options durability)).

Definition object_exists (repo : RepoId) (oid : Oid) : M bool :=
  do! v <- db (db_get (object_key repo oid)); se_ret (match v with Some _ => true | None => false end).

Definition get_ref (repo : RepoId) (name : bytes) : M (option (RefTarget Oid)) :=
  do! v <- db (db_get (ref_key repo name)); decode_opt target_decode v.

(** [db.put] waits for durability by default. *)
Definition put_ref (repo : RepoId) (name : bytes) (target : RefTarget Oid) : M unit :=
  db (db_put (ref_key repo name) (target_encode target) true).

Definition delete_ref (repo : RepoId) (name : bytes) : M unit := db (db_delete (ref_key repo name)).

Fixpoint decode_refs (kvs : list (bytes * bytes))
    : result (StoreError DbError) (list (bytes * RefTarget Oid)) :=
  match kvs with
  | [] => Ok []
  | (key, value) :: kvs' =>
      let? (_, name) := map_err Key (decode_ref_key key) in
      let? target := map_err Value (target_decode value) in
      let? refs := decode_refs kvs' in
      Ok ((name, target) :: refs)
  end.

Definition list_refs (repo : RepoId) (prefix : option bytes) : M (list (bytes * RefTarget Oid)) :=
  let scan_prefix :=
    match prefix with
    | Some p => ref_prefix repo p
    | None => segment_prefix repo Ref
    end in
  do! kvs <- db (db_scan_prefix scan_prefix);
  se_lift (decode_refs kvs).

Definition get_commit_graph (repo : RepoId) (oid : Oid) : M (option (CommitGraphRecord Oid)) :=
  do! v <- db (db_get (commit_key repo oid)); decode_opt (fun b => graph_decode b (oid_kind oid)) v.

Definition put_commit_graph (repo : RepoId) (oid : Oid) (record : CommitGraphRecord Oid)
    (durability : Durability) : M unit :=
  db (db_put (commit_key repo oid) (graph_encode record) (write_options durability)).

Definition get_meta (repo : RepoId) (name : bytes) : M (option MetaValue) :=
  do! v <- db (db_get (meta_key repo name)); decode_opt meta_decode v.

Definition put_meta (repo : RepoId) (name : bytes) (value : MetaValue) : M unit :=
  db (db_put (meta_key repo name) (meta_encode value) true).

Definition flush : M unit := db db_flush.

Fixpoint delete_all (keys : list bytes) : M unit :=
  match keys with
  | [] => se_ret tt
  | key :: keys' => do! _ <- db (db_delete key); delete_all keys'
  end.

Definition wipe_commit_graph_for_test (repo : RepoId) : M unit :=
  do! kvs <- db (db_scan_prefix (segment_prefix repo CommitGraph));
  delete_all (map fst kvs).

(** ** The repository registry *)

Definition repo_name_key (name : bytes) : bytes := META_REPO_PREFIX ++ name.

Definition read_repo_id (name : bytes) : M (option RepoId) :=
  let repo_key := repo_name_key name in
  do! v <- db (db_get (meta_key RepoId_GLOBAL repo_key));
  match v with
  | Some b =>
      do! value <- se_lift (map_err Value (meta_decode b));
      do! id <- se_lift (decode_repo_id repo_key value);
      se_ret (Some id)
  | None => se_ret None
  end.

Definition read_repo_meta (id : RepoId) : M RepoMeta :=
  do! format <- get_meta id META_OBJECT_FORMAT;
  do! object_format <-
    match format with
    | Some (Utf8 s) => se_lift (parse_object_format s)
    | Some _ => se_err (UnexpectedMeta id META_OBJECT_FORMAT)
    | None => se_err (MissingMeta id META_OBJECT_FORMAT)
    end;
  do! branch <- get_meta id META_DEFAULT_BRANCH;
  do! default_branch <-
    match branch with
    | Some (Utf8 s) => se_ret s
    | Some _ => se_err (UnexpectedMeta id META_DEFAULT_BRANCH)
    | None => se_ret DEFAULT_BRANCH
    end;
  se_ret (mkRepoMeta id object_format default_branch).

Definition lookup_repo (name : bytes) : M (option RepoMeta) :=
  do! id <- read_repo_id name;
  match id with
  | Some id => do! meta <- read_repo_meta id; se_ret (Some meta)
  | None => se_ret None
  end.

(** The body of the creation transaction: the id of an existing mapping, or
    the id allocated by the writes staged. *)
Definition stage_create (name : bytes) : MT (RepoId + Z) :=
  let repo_key := repo_name_key name in
  let global_repo_key := meta_key RepoId_GLOBAL repo_key in
  let next_id_key := meta_key RepoId_GLOBAL META_NEXT_REPO_ID in
  do! existing <- db (txn_get global_repo_key);
  match existing with
  | Some b =>
      do! value <- se_lift (map_err Value (meta_decode b));
      do! id <- se_lift (decode_repo_id repo_key value);
      se_ret (inl id)
  | None =>
      do! counter <- db (txn_get next_id_key);
      do! next_id <-
        match counter with
        | Some b =>
            do! value <- se_lift (map_err Value (meta_decode b));
            se_lift (decode_counter value)
        | None => se_ret FIRST_REPO_ID
        end;
      let id := mkRepoId next_id in
      do! _ <- db (txn_put next_id_key (meta_encode (Raw (be_bytes 8 (saturating_succ next_id)))));
      do! _ <- db (txn_put global_repo_key (meta_encode (Raw (be_bytes 8 next_id))));
      do! _ <- db (txn_put (meta_key id META_OBJECT_FORMAT) (meta_encode (Utf8 OBJECT_FORMAT_SHA1)));
      do! _ <- db (txn_put (meta_key id META_DEFAULT_BRANCH) (meta_encode (Utf8 DEFAULT_BRANCH)));
      do! _ <- db (txn_put (meta_key id META_SCHEMA_VERSION) (meta_encode (U32 SCHEMA_VERSION)));
      do! _ <- db (txn_put (ref_key id HEAD_REF)
                     (target_encode (Reference (Oid := Oid) DEFAULT_BRANCH)));
      se_ret (inr next_id)
  end.

Fixpoint create_attempts (attempts : nat) (name : bytes) : M RepoMeta :=
  match attempts with
  | O => se_err CreateContention
  | S attempts' =>
      do! txn <- db db_begin;
      let '(staged, txn) := stage_create name txn in
      do! outcome <- se_lift staged;
      match outcome with
      | inl id => read_repo_meta id
      | inr next_id =>
          fun w =>
            match txn_commit txn w with
            | (Ok _, w') => (Ok (mkRepoMeta (mkRepoId next_id) Sha1 DEFAULT_BRANCH), w')
            | (Err e, w') =>
                if is_conflict e then create_attempts attempts' name w' else (Err (Db e), w')
            end
      end
  end.

Definition create_repo (name : bytes) : M RepoMeta := create_attempts CREATE_ATTEMPTS name.

Definition get_or_create_repo (name : bytes) : M RepoMeta :=
  do! found <- lookup_repo name;
  match found with
  | Some meta => se_ret meta
  | None => create_repo name
  end.

(** ** Compare-and-swap of refs *)

(** One command of the batch, inside the transaction. *)
Definition stage_update (repo : RepoId) (update : RefUpdate Oid) : MT RefUpdateResult :=
  let key := ref_key repo (ru_name update) in
  do! v <- db (txn_get key);
  do! target <- decode_opt target_decode v;
  match target with
  | Some (Reference _) => se_ret (mkRefUpdateResult (ru_name update) (Rejected REASON_SYMBOLIC))
  | Some (Direct _) | None =>
      let current := match target with Some (Direct oid) => Some oid | _ => None end in
      if decide (current <> ru_expected_old update) then
        se_ret (mkRefUpdateResult (ru_name update) (Rejected REASON_NON_FAST_FORWARD))
      else
        do! _ <- match ru_new update with
                 | Some new_oid => db (txn_put key (target_encode (Direct new_oid)))
                 | None => db (txn_delete key)
                 end;
        se_ret (mkRefUpdateResult (ru_name update) Updated)
  end.

Fixpoint stage_updates (repo : RepoId) (updates : list (RefUpdate Oid)) : MT (list RefUpdateResult) :=
  match updates with
  | [] => se_ret []
  | update :: updates' =>
      do! r <- stage_update repo update;
      do! rs <- stage_updates repo updates';
      se_ret (r :: rs)
  end.

(** The retry loop; [attempts] counts down what the code counts up. *)
Fixpoint update_refs_loop (attempts : nat) (repo : RepoId) (updates : list (RefUpdate Oid))
    : M (list RefUpdateResult) :=
  match attempts with
  | O => se_ret (map (fun u => mkRefUpdateResult (ru_name u) (Rejected REASON_CONFLICT)) updates)
  | S attempts' =>
      do! txn <- db db_begin;
      let '(staged, txn) := stage_updates repo updates txn in
      do! results <- se_lift staged;
      fun w =>
        match txn_commit txn w with
        | (Ok _, w') => (Ok results, w')
        | (Err e, w') =>
            if is_conflict e then update_refs_loop attempts' repo updates w' else (Err (Db e), w')
        end
  end.

Definition update_refs (repo : RepoId) (updates : list (RefUpdate Oid)) : M (list RefUpdateResult) :=
  update_refs_loop UPDATE_REFS_ATTEMPTS repo updates.

(** ** Specification: an atomic batch of compare-and-swaps

    What [update_refs] promises, as one pure step on the contents. *)

(** The ref a repository's contents hold under a name. *)
Definition ref_at (repo : RepoId) (name : bytes) (m : Contents)
    : result ValueError (option (RefTarget Oid)) :=
  match m !! ref_key repo name with
  | None => Ok None
  | Some b => let? t := target_decode b in Ok (Some t)
  end.

Definition set_ref (repo : RepoId) (name : bytes) (new : option Oid) (m : Contents) : Contents :=
  match new with
  | Some oid => <[ref_key repo name := target_encode (Direct oid)]> m
  | None => delete (ref_key repo name) m
  end.

(** The verdict on one command, given the ref it finds. *)
Definition judge (expected_old : option Oid) (target : option (RefTarget Oid)) : RefOutcome :=
  match target with
  | Some (Reference _) => Rejected REASON_SYMBOLIC
  | Some (Direct oid) =>
      if decide (expected_old = Some oid) then Updated else Rejected REASON_NON_FAST_FORWARD
  | None => if decide (expected_old = None) then Updated else Rejected REASON_NON_FAST_FORWARD
  end.

Definition cas_ref (repo : RepoId) (u : RefUpdate Oid) (m : Contents)
    : result ValueError (RefOutcome * Contents) :=
  let? target := ref_at repo (ru_name u) m in
  let outcome := judge (ru_expected_old u) target in
  Ok (outcome, match outcome with
               | Updated => set_ref repo (ru_name u) (ru_new u) m
               | Rejected _ => m
               end).

Fixpoint cas_refs (repo : RepoId) (updates : list (RefUpdate Oid)) (m : Contents)
    : result ValueError (list RefUpdateResult * Contents) :=
  match updates with
  | [] => Ok ([], m)
  | u :: updates' =>
      let? (outcome, m1) := cas_ref repo u m in
      let? (rs, m2) := cas_refs repo updates' m1 in
      Ok (mkRefUpdateResult (ru_name u) outcome :: rs, m2)
  end.

(** ** Transactions *)

(** The contents a transaction would leave if it committed over [m]. *)
Definition txn_over (t : Txn) (m : Contents) : Contents := overlay (txn_writes t) m.

(** [m] agrees with what the transaction has read. *)
Definition txn_valid (t : Txn) (m : Contents) : Prop :=
  forall k, k ∈ txn_reads t -> m !! k = txn_base t !! k.

(** [t'] continues [t]: it has the same base and has read at least as much. *)
Definition txn_ext (t t' : Txn) : Prop :=
  txn_base t' = txn_base t /\ txn_reads t ⊆ txn_reads t'.

Lemma txn_ext_trans a b c : txn_ext a b -> txn_ext b c -> txn_ext a c.
Proof. intros [H1 H2] [H3 H4]. split; [congruence | set_solver]. Qed.

Lemma txn_ext_valid t t' m : txn_ext t t' -> txn_valid t' m -> txn_valid t m.
Proof. intros [Hb Hr] Hv k Hk. rewrite <- Hb. apply Hv. set_solver. Qed.

Lemma db_ok {S A} (m : SE S DbError A) s a s' : db m s = (Ok a, s') -> m s = (Ok a, s').
Proof. unfold db, se_map_err. destruct (m s) as [[x | e] s1]; [by intros [= <- <-] | done]. Qed.

(** A read in a transaction answers from any contents on which all its reads
    hold. *)
Lemma db_txn_get k t v t' :
  db (txn_get k) t = (Ok v, t') ->
  txn_ext t t' /\ forall m, txn_over t' m = txn_over t m
    /\ (txn_valid t' m -> v = txn_over t m !! k).
Proof.
  intros H%db_ok. apply txn_get_spec in H as (Hb & Hw & Hv).
  destruct (Hv v eq_refl) as (-> & Hr & Hk). unfold txn_over.
  split; [done |]. intros m. rewrite Hw. split; [done |]. intros Hvalid. rewrite !lookup_overlay.
  destruct (txn_writes t !! k) eqn:E; [done |]. rewrite (Hvalid k) by auto. by rewrite Hb.
Qed.

Lemma db_txn_put k v t u t' :
  db (txn_put k v) t = (Ok u, t') ->
  txn_ext t t' /\ forall m, txn_over t' m = <[k := v]> (txn_over t m).
Proof.
  intros H%db_ok. destruct u. apply txn_put_ok in H as (Hb & Hr & Hw). unfold txn_over, txn_ext.
  rewrite Hb, Hr, Hw. split; [done |]. intros m. apply overlay_insert.
Qed.

Lemma db_txn_delete k t u t' :
  db (txn_delete k) t = (Ok u, t') ->
  txn_ext t t' /\ forall m, txn_over t' m = delete k (txn_over t m).
Proof.
  intros H%db_ok. destruct u. apply txn_delete_ok in H as (Hb & Hr & Hw). unfold txn_over, txn_ext.
  rewrite Hb, Hr, Hw. split; [done |]. intros m. apply overlay_delete.
Qed.

Lemma decode_opt_ok {S A} (dec : bytes -> result ValueError A) v (s : S) a s' :
  decode_opt dec v s = (Ok a, s') ->
  s' = s /\ match v with
            | None => a = None
            | Some b => exists x, dec b = Ok x /\ a = Some x
            end.
Proof.
  unfold decode_opt. destruct v as [b |]; [| by intros [= <- <-]].
  unfold se_bind, se_lift, se_ret. destruct (dec b) as [x |] eqn:E; cbn; [| done].
  intros [= <- <-]. eauto.
Qed.

(** The buffered write of an accepted command. *)
Definition stage_write (repo : RepoId) (u : RefUpdate Oid) : MT unit :=
  match ru_new u with
  | Some new_oid => db (txn_put (ref_key repo (ru_name u)) (target_encode (Direct new_oid)))
  | None => db (txn_delete (ref_key repo (ru_name u)))
  end.

Lemma stage_write_ok repo u t x t' :
  stage_write repo u t = (Ok x, t') ->
  txn_ext t t' /\ forall m, txn_over t' m = set_ref repo (ru_name u) (ru_new u) (txn_over t m).
Proof.
  unfold stage_write, set_ref. destruct (ru_new u); [apply db_txn_put | apply db_txn_delete].
Qed.

(** A command reads its ref and judges it; only an accepted one writes. *)
Lemma stage_update_judge repo u t r t' :
  stage_update repo u t = (Ok r, t') ->
  exists v t1 target,
    db (txn_get (ref_key repo (ru_name u))) t = (Ok v, t1)
    /\ decode_opt target_decode v t1 = (Ok target, t1)
    /\ r = mkRefUpdateResult (ru_name u) (judge (ru_expected_old u) target)
    /\ match judge (ru_expected_old u) target with
       | Updated => stage_write repo u t1 = (Ok tt, t')
       | Rejected _ => t' = t1
       end.
Proof.
  unfold stage_update. intros (v & t1 & Hget & H)%se_bind_ok.
  apply se_bind_ok in H as (target & t2 & Hdec & H).
  pose proof (decode_opt_ok _ _ _ _ _ Hdec) as [-> _].
  exists v, t1, target. split; [done | split; [done |]]. unfold judge.
  destruct target as [[oid | name] |]; [| by injection H as <- <- |]; case_decide; case_decide;
    try congruence; try (injection H as <- <-; done).
  all: by apply se_bind_ok in H as ([] & t2 & Hw & [= <- <-]).
Qed.

Lemma stage_update_cas repo u t r t' :
  stage_update repo u t = (Ok r, t') ->
  txn_ext t t' /\ forall m, txn_valid t' m ->
    exists outcome, r = mkRefUpdateResult (ru_name u) outcome
      /\ cas_ref repo u (txn_over t m) = Ok (outcome, txn_over t' m).
Proof.
  intros (v & t1 & target & Hget & Hdec & -> & Hw)%stage_update_judge.
  apply db_txn_get in Hget as [He1 Hm1]. apply decode_opt_ok in Hdec as [_ Hdec].
  assert (forall m, txn_valid t1 m -> ref_at repo (ru_name u) (txn_over t m) = Ok target) as Href.
  { intros m Hv. unfold ref_at. rewrite <- (proj2 (Hm1 m) Hv).
    destruct v as [b |]; [by destruct Hdec as (x & -> & ->) | by subst]. }
  unfold cas_ref. destruct (judge _ target) as [| reason] eqn:Hj.
  - apply stage_write_ok in Hw as [He2 Hm2]. split; [by eapply txn_ext_trans |].
    intros m Hv. eexists. split; [done |].
    by rewrite Href, Hj, Hm2, (proj1 (Hm1 m)) by (by eapply txn_ext_valid).
  - subst t'. split; [done |]. intros m Hv. eexists. split; [done |].
    by rewrite Href, Hj, (proj1 (Hm1 m)).
Qed.

Lemma stage_updates_cas repo updates t rs t' :
  stage_updates repo updates t = (Ok rs, t') ->
  txn_ext t t' /\ forall m, txn_valid t' m ->
    cas_refs repo updates (txn_over t m) = Ok (rs, txn_over t' m).
Proof.
  revert t rs. induction updates as [| u updates IH]; intros t rs; cbn [stage_updates cas_refs].
  { intros [= <- <-]. done. }
  intros (r & t1 & H1 & (rs' & t2 & H2 & [= <- <-])%se_bind_ok)%se_bind_ok.
  apply stage_update_cas in H1 as [He1 Hm1]. destruct (IH _ _ H2) as [He2 Hm2].
  split; [by eapply txn_ext_trans |]. intros m Hv.
  destruct (Hm1 m) as (o & -> & ->); [by eapply txn_ext_valid |]. by rewrite Hm2.
Qed.

(** A fresh transaction that committed took effect in one step over contents
    it agrees with. *)
Lemma commit_over t w w' :
  txn_commit t w = (Ok tt, w') ->
  exists l, history w' = txn_over t (hd ∅ l) :: l /\ suffix (history w) l /\ txn_valid t (hd ∅ l).
Proof. apply txn_commit_ok. Qed.

Lemma db_begin_ok w t w1 :
  db db_begin w = (Ok t, w1) ->
  evolves w w1 /\ txn_base t = view w1 /\ forall m, txn_over t m = m.
Proof.
  intros H%db_ok. apply db_begin_spec in H as [He H]. destruct (H t eq_refl) as (Hb & _ & Hw).
  split; [done | split; [done |]]. intros m. unfold txn_over. by rewrite Hw, overlay_empty.
Qed.

(** Ref updates are linearizable.  A batch that returns either lost every
    one of its attempts to conflicting commits — then every command is
    rejected with that reason and nothing was written — or took effect as a
    single commit, whose results and new contents are those of the batch run
    by itself on the contents just before it, whatever other clients did in
    between. *)
Lemma update_refs_step repo updates w rs w' :
  update_refs repo updates w = (Ok rs, w') ->
  (rs = map (fun u => mkRefUpdateResult (ru_name u) (Rejected REASON_CONFLICT)) updates
   /\ evolves w w')
  \/ exists m m' l, history w' = m' :: l /\ hd ∅ l = m /\ suffix (history w) l
       /\ cas_refs repo updates m = Ok (rs, m').
Proof.
  unfold update_refs. generalize UPDATE_REFS_ATTEMPTS as n. intros n. revert w.
  induction n as [| n IH]; intros w; cbn [update_refs_loop]; [intros [= <- <-]; by left |].
  intros (t & w1 & Hb & H)%se_bind_ok. apply db_begin_ok in Hb as (He1 & _ & Ht).
  destruct (stage_updates repo updates t) as [staged t'] eqn:Hs.
  apply se_bind_ok in H as (rs' & w2 & Hl & H). unfold se_lift in Hl.
  injection Hl as -> <-. apply stage_updates_cas in Hs as [_ Hs].
  destruct (txn_commit t' w1) as [[[] | e] w2] eqn:Hc.
  - injection H as -> ->. apply commit_over in Hc as (l & Hh & Hsuf & Hv). right.
    exists (hd ∅ l), (txn_over t' (hd ∅ l)), l. split; [done | split; [done |]].
    split; [by eapply evolves_suffix |].
    rewrite <- (Hs _ Hv), Ht. done.
  - destruct (is_conflict e) eqn:Hconf; [| done].
    apply txn_commit_err in Hc; [| done]. specialize (IH _ H) as [[-> He] | (m & m' & l & ? & ? & Hsuf & ?)].
    + left. split; [done |]. by do 2 (etrans; [eassumption |]).
    + right. exists m, m', l. split_and!; [done | done | | done].
      by eapply evolves_suffix; [etrans |].
Qed.

(** ** What a batch does *)

Lemma ref_key_inj repo n n' : ref_key repo n = ref_key repo n' -> n = n'.
Proof. unfold ref_key. by intros ?%app_inv_head. Qed.

Lemma ref_at_set_eq repo n new m : ref_at repo n (set_ref repo n new m) = Ok (Direct <$> new).
Proof.
  unfold ref_at, set_ref. destruct new as [oid |].
  - rewrite lookup_insert_eq. by rewrite (proj1 (target_codec [] (Direct oid)) I).
  - by rewrite lookup_delete_eq.
Qed.

Lemma set_ref_ne repo n new m k : k <> ref_key repo n -> set_ref repo n new m !! k = m !! k.
Proof.
  intros Hne. unfold set_ref. destruct new; [by rewrite lookup_insert_ne | by rewrite lookup_delete_ne].
Qed.

Lemma ref_at_ext repo n m m' :
  m' !! ref_key repo n = m !! ref_key repo n -> ref_at repo n m' = ref_at repo n m.
Proof. unfold ref_at. by intros ->. Qed.

Lemma cas_ref_frame repo u m o m' k :
  cas_ref repo u m = Ok (o, m') -> k <> ref_key repo (ru_name u) -> m' !! k = m !! k.
Proof.
  unfold cas_ref. destruct (ref_at _ _ _) as [t |]; [| done]. intros [= <- <-] Hk.
  destruct (judge _ _); [by apply set_ref_ne | done].
Qed.

Lemma cas_refs_frame repo updates m rs m' k :
  cas_refs repo updates m = Ok (rs, m') ->
  k ∉ (ref_key repo ∘ ru_name) <$> updates -> m' !! k = m !! k.
Proof.
  revert m rs. induction updates as [| u updates IH]; intros m rs; cbn [cas_refs].
  { by intros [= <- <-]. }
  destruct (cas_ref repo u m) as [[o m1] |] eqn:E; [| done].
  destruct (cas_refs repo updates m1) as [[rs' m2] |] eqn:E2; [| done].
  intros [= <- <-] Hk. rewrite fmap_cons, not_elem_of_cons in Hk. destruct Hk as [Hk1 Hk2].
  rewrite (IH _ _ E2 Hk2). by eapply cas_ref_frame.
Qed.

(** The compare-and-swap semantics of a batch.  For distinct ref names,
    each command is judged on the ref as the batch found it — applied when it
    holds exactly the expected id or is absent as expected, refused for a
    symbolic ref or any other value — an applied command leaves its new id (or
    no ref), a refused one leaves the ref as it was, and no other key of the
    database changes. *)
Lemma cas_refs_judged repo updates m rs m' :
  NoDup (ru_name <$> updates) -> cas_refs repo updates m = Ok (rs, m') ->
  rr_name <$> rs = ru_name <$> updates
  /\ (forall i u r, updates !! i = Some u -> rs !! i = Some r ->
       exists target, ref_at repo (ru_name u) m = Ok target
         /\ rr_outcome r = judge (ru_expected_old u) target
         /\ ref_at repo (ru_name u) m'
            = Ok (match rr_outcome r with Updated => Direct <$> ru_new u | Rejected _ => target end))
  /\ (forall k, k ∉ (ref_key repo ∘ ru_name) <$> updates -> m' !! k = m !! k).
Proof.
  intros Hnd H. split; [| split; [| intros k; by eapply cas_refs_frame]].
  - clear Hnd. revert m rs H. induction updates as [| u updates IH]; intros m rs; cbn [cas_refs].
    { by intros [= <- _]. }
    destruct (cas_ref repo u m) as [[o m1] |]; [| done].
    destruct (cas_refs repo updates m1) as [[rs' m2] |] eqn:E2; [| done].
    intros [= <- <-]. cbn. by rewrite (IH _ _ E2).
  - revert m rs H Hnd. induction updates as [| u updates IH]; intros m rs; cbn [cas_refs]; [done |].
    destruct (cas_ref repo u m) as [[o m1] |] eqn:E; [| done].
    destruct (cas_refs repo updates m1) as [[rs' m2] |] eqn:E2; [| done].
    intros [= <- <-]. rewrite fmap_cons, NoDup_cons. intros [Hn Hnd] [| i] u' r; cbn.
    + intros [= <-] [= <-]. cbn [rr_outcome].
      assert (m2 !! ref_key repo (ru_name u) = m1 !! ref_key repo (ru_name u)) as Hk.
      { eapply cas_refs_frame; [done |]. intros (u' & Hu & Hin)%list_elem_of_fmap.
        apply ref_key_inj in Hu. apply Hn. rewrite Hu. by apply list_elem_of_fmap_2. }
      unfold cas_ref in E. destruct (ref_at repo (ru_name u) m) as [t |] eqn:Er; [| done].
      injection E as <- <-. exists t. split; [done | split; [done |]].
      rewrite (ref_at_ext _ _ _ _ Hk). destruct (judge _ _); [apply ref_at_set_eq | done].
    + intros Hu Hr. destruct (IH _ _ E2 Hnd i u' r Hu Hr) as (t & Ht & Ho & Hm).
      exists t. split; [| done]. rewrite <- Ht. symmetry. apply ref_at_ext.
      eapply cas_ref_frame; [done |]. intros Heq%ref_key_inj. apply Hn. rewrite <- Heq.
      apply list_elem_of_fmap_2. by eapply list_elem_of_lookup_2.
Qed.

(** ** Specification: the registry

    [mapped m name] is the id the contents give a repository name, [counter m]
    the next id to hand out, [created name n m] the contents after the writes
    of a creation under id [n]. *)

Definition mapped (m : Contents) (name : bytes) : result (StoreError DbError) (option RepoId) :=
  match m !! meta_key RepoId_GLOBAL (repo_name_key name) with
  | None => Ok None
  | Some b =>
      let? value := map_err Value (meta_decode b) in
      let? id := decode_repo_id (repo_name_key name) value in
      Ok (Some id)
  end.

Definition counter (m : Contents) : result (StoreError DbError) Z :=
  match m !! meta_key RepoId_GLOBAL META_NEXT_REPO_ID with
  | None => Ok FIRST_REPO_ID
  | Some b => let? value := map_err Value (meta_decode b) in decode_counter value
  end.

Definition created (name : bytes) (n : Z) (m : Contents) : Contents :=
  let id := mkRepoId n in
  <[ref_key id HEAD_REF := target_encode (Reference (Oid := Oid) DEFAULT_BRANCH)]>
  (<[meta_key id META_SCHEMA_VERSION := meta_encode (U32 SCHEMA_VERSION)]>
  (<[meta_key id META_DEFAULT_BRANCH := meta_encode (Utf8 DEFAULT_BRANCH)]>
  (<[meta_key id META_OBJECT_FORMAT := meta_encode (Utf8 OBJECT_FORMAT_SHA1)]>
  (<[meta_key RepoId_GLOBAL (repo_name_key name) := meta_encode (Raw (be_bytes 8 n))]>
  (<[meta_key RepoId_GLOBAL META_NEXT_REPO_ID := meta_encode (Raw (be_bytes 8 (saturating_succ n)))]>
    m))))).

Lemma se_lift_ok {S E A} (r : result E A) (s s' : S) a : se_lift r s = (Ok a, s') -> r = Ok a /\ s' = s.
Proof. by intros [= -> <-]. Qed.

Lemma stage_create_spec name t out t' :
  stage_create name t = (Ok out, t') ->
  txn_ext t t' /\ forall m, txn_valid t' m ->
    match out with
    | inl id => mapped (txn_over t m) name = Ok (Some id)
    | inr n => mapped (txn_over t m) name = Ok None /\ counter (txn_over t m) = Ok n
               /\ txn_over t' m = created name n (txn_over t m)
    end.
Proof.
  unfold stage_create. intros (v & t1 & Hget & H)%se_bind_ok.
  apply db_txn_get in Hget as [He1 Hm1]. destruct v as [b |].
  - apply se_bind_ok in H as (value & ? & [Hdec ->]%se_lift_ok & H).
    apply se_bind_ok in H as (id & ? & [Hid ->]%se_lift_ok & [= <- <-]).
    split; [done |]. intros m Hv. unfold mapped. rewrite <- (proj2 (Hm1 m) Hv), Hdec. by rewrite Hid.
  - apply se_bind_ok in H as (cv & t2 & Hget2 & H). apply db_txn_get in Hget2 as [He2 Hm2].
    apply se_bind_ok in H as (n & t3 & Hn & H).
    assert (t3 = t2 /\ forall m, txn_valid t2 m -> counter (txn_over t1 m) = Ok n) as [-> Hcount].
    { destruct cv as [b |].
      - apply se_bind_ok in Hn as (value & ? & [Hdec ->]%se_lift_ok & [Hc ->]%se_lift_ok).
        split; [done |]. intros m Hv. unfold counter. by rewrite <- (proj2 (Hm2 m) Hv), Hdec.
      - injection Hn as <- <-. split; [done |]. intros m Hv. unfold counter.
        by rewrite <- (proj2 (Hm2 m) Hv). }
    do 6 (apply se_bind_ok in H as (? & ? & Hput & H); apply db_txn_put in Hput as [? ?]).
    injection H as <- <-.
    split; [by repeat (eapply txn_ext_trans; [eassumption |]) |].
    assert (forall a b m, txn_ext a b -> txn_valid b m -> txn_valid a m) as Hval
      by (intros; by eapply txn_ext_valid).
    intros m Hv. split; [| split].
    + unfold mapped. rewrite <- (proj2 (Hm1 m)); [done |]. by repeat (eapply Hval; [eassumption |]).
    + rewrite <- (proj1 (Hm1 m)). apply Hcount. by repeat (eapply Hval; [eassumption |]).
    + unfold created. repeat match goal with H : forall m, txn_over ?t m = _ |- _ => rewrite H; clear H end.
      by rewrite (proj1 (Hm2 m)), (proj1 (Hm1 m)).
Qed.

Lemma read_repo_meta_id id w meta w' : read_repo_meta id w = (Ok meta, w') -> rm_id meta = id /\ evolves w w'.
Proof.
  assert (forall n w v w', get_meta id n w = (Ok v, w') -> evolves w w') as Hget.
  { intros n s v s' H. unfold get_meta in H.
    apply se_bind_ok in H as (b & s1 & Hg%db_ok & Hd). apply decode_opt_ok in Hd as [-> _].
    by apply db_get_spec in Hg as [? _]. }
  unfold read_repo_meta. intros (f & w1 & H1 & H)%se_bind_ok.
  apply se_bind_ok in H as (k & w2 & H2 & H). apply se_bind_ok in H as (br & w3 & H3 & H).
  apply se_bind_ok in H as (d & w4 & H4 & [= <- <-]). split; [done |].
  apply Hget in H1, H3.
  assert (w2 = w1) as -> by (destruct f as [[] |]; try done; by apply se_lift_ok in H2 as [_ ->]).
  assert (w4 = w3) as -> by (destruct br as [[] |]; try done; by injection H4 as _ ->).
  by etrans.
Qed.

(** Creation is atomic.  [create_repo] returns either a repository that a
    committed state maps the name to, or the one it created in a single commit
    over contents that had no such mapping, under the id the counter held
    there, with the counter bumped and the defaults and [HEAD] written. *)
Lemma create_repo_step name w meta w' :
  create_repo name w = (Ok meta, w') ->
  (exists w1, evolves w w1 /\ evolves w1 w' /\ mapped (view w1) name = Ok (Some (rm_id meta)))
  \/ exists m n l, history w' = created name n m :: l /\ hd ∅ l = m /\ suffix (history w) l
       /\ mapped m name = Ok None /\ counter m = Ok n
       /\ meta = mkRepoMeta (mkRepoId n) Sha1 DEFAULT_BRANCH.
Proof.
  unfold create_repo. generalize CREATE_ATTEMPTS as k. intros k. revert w.
  induction k as [| k IH]; intros w; cbn [create_attempts]; [done |].
  intros (t & w1 & Hb & H)%se_bind_ok. apply db_begin_ok in Hb as (He1 & Hbase & Ht).
  destruct (stage_create name t) as [staged t'] eqn:Hs.
  apply se_bind_ok in H as (out & ? & [-> ->]%se_lift_ok & H).
  apply stage_create_spec in Hs as [[Hb' _] Hs].
  destruct out as [id | n].
  - apply read_repo_meta_id in H as [<- He2]. left. exists w1. split; [done | split; [done |]].
    rewrite <- Hbase, <- (Ht (txn_base t)). apply Hs. intros k' _. by rewrite Hb'.
  - destruct (txn_commit t' w1) as [[[] | e] w2] eqn:Hc.
    + injection H as <- <-. apply commit_over in Hc as (l & Hh & Hsuf & Hv). right.
      destruct (Hs _ Hv) as (Hmap & Hcount & Hover). rewrite Ht in *.
      exists (hd ∅ l), n, l. split; [by rewrite Hh, Hover | split; [done |]].
      split; [by eapply evolves_suffix | done].
    + destruct (is_conflict e) eqn:Hconf; [| done].
      apply txn_commit_err in Hc; [| done].
      specialize (IH _ H) as [(w3 & H1 & H2 & H3) | (m & n' & l & H1 & H2 & H3 & H4)].
      * left. exists w3. split_and!; [| done | done]. by do 2 (etrans; [eassumption |]).
      * right. exists m, n', l. split; [done | split; [done |]].
        split; [by eapply evolves_suffix; [etrans |] | done].
Qed.

(** ** The registry invariant *)

(** Every mapped name has an id below the counter, and no two names share
    one. *)
Definition registry_ok (m : Contents) : Prop :=
  exists next, counter m = Ok next /\ (FIRST_REPO_ID <= next < 2 ^ 64)%Z
    /\ (forall name id, mapped m name = Ok (Some id) -> (FIRST_REPO_ID <= repo_u64 id < next)%Z)
    /\ (forall n1 n2 id, mapped m n1 = Ok (Some id) -> mapped m n2 = Ok (Some id) -> n1 = n2).

Lemma global_wf : repo_wf RepoId_GLOBAL.
Proof. by compute. Qed.

Lemma meta_key_inj r n r' n' : repo_wf r -> repo_wf r' ->
  meta_key r n = meta_key r' n' -> r = r' /\ n = n'.
Proof. intros Hr Hr' H. unfold meta_key in H. apply encode_preamble_inj in H as (? & _ & ?); done. Qed.

Lemma meta_ref_key_ne r n r' n' : repo_wf r -> repo_wf r' -> meta_key r n <> ref_key r' n'.
Proof. intros Hr Hr' H. unfold meta_key, ref_key in H. by apply encode_preamble_inj in H as (_ & ? & _). Qed.

Lemma repo_name_key_inj n n' : repo_name_key n = repo_name_key n' -> n = n'.
Proof. unfold repo_name_key. by intros ?%app_inv_head. Qed.

Lemma repo_name_key_counter n : repo_name_key n <> META_NEXT_REPO_ID.
Proof. by intros [=]. Qed.

(** The writes of a creation, read back at a key of the global namespace. *)
Lemma created_global name n m k :
  (FIRST_REPO_ID <= n < 2 ^ 64)%Z ->
  created name n m !! meta_key RepoId_GLOBAL k
  = if decide (k = repo_name_key name) then Some (meta_encode (Raw (be_bytes 8 n)))
    else if decide (k = META_NEXT_REPO_ID)
         then Some (meta_encode (Raw (be_bytes 8 (saturating_succ n))))
         else m !! meta_key RepoId_GLOBAL k.
Proof.
  intros Hn. unfold FIRST_REPO_ID in Hn. pose proof global_wf as Hg.
  assert (repo_wf (mkRepoId n)) as Hw by (unfold repo_wf, is_u64; cbn; lia).
  assert (forall k', meta_key (mkRepoId n) k' <> meta_key RepoId_GLOBAL k) as Hne.
  { intros k' H. apply meta_key_inj in H as [H _]; [| done | done].
    injection H as ->. lia. }
  unfold created. rewrite lookup_insert_ne by (intros H; symmetry in H; by apply meta_ref_key_ne in H).
  do 3 rewrite lookup_insert_ne by apply Hne.
  repeat case_decide; subst.
  - by rewrite lookup_insert_eq.
  - rewrite lookup_insert_ne, lookup_insert_eq; [done |].
    intros Hk. apply meta_key_inj in Hk as [_ E]; auto.
  - rewrite !lookup_insert_ne; [done | |]; intros Hk; apply meta_key_inj in Hk as [_ E]; auto.
Qed.

Lemma raw_u64_be n : is_u64 n -> raw_u64 (Raw (be_bytes 8 n)) = Some n.
Proof.
  intros Hn. unfold raw_u64. rewrite decide_True by apply length_be_bytes. by rewrite u64_round.
Qed.

Lemma mapped_created name n m name' :
  (FIRST_REPO_ID <= n < 2 ^ 64)%Z ->
  mapped (created name n m) name'
  = if decide (name' = name) then Ok (Some (mkRepoId n)) else mapped m name'.
Proof.
  intros Hn. unfold mapped. rewrite created_global by done.
  unfold FIRST_REPO_ID in Hn. case_decide as E.
  - apply repo_name_key_inj in E as ->. rewrite decide_True by done.
    rewrite (proj1 (meta_codec [] (Raw (be_bytes 8 n))) I). cbn [map_err].
    unfold decode_repo_id. rewrite raw_u64_be by (unfold is_u64; lia). done.
  - rewrite decide_False by (by apply repo_name_key_counter).
    by rewrite decide_False by (by intros ->).
Qed.

Lemma counter_created name n m :
  (FIRST_REPO_ID <= n < 2 ^ 64)%Z -> counter (created name n m) = Ok (saturating_succ n).
Proof.
  intros Hn. unfold counter. rewrite created_global, decide_False, decide_True
    by (done || intros E; by apply (repo_name_key_counter name)).
  rewrite (proj1 (meta_codec [] (Raw _)) I). cbn [map_err]. unfold decode_counter.
  unfold FIRST_REPO_ID, saturating_succ in *. by rewrite raw_u64_be by (unfold is_u64; lia).
Qed.

Lemma cas_refs_global repo updates m rs m' k :
  repo_wf repo -> cas_refs repo updates m = Ok (rs, m') ->
  m' !! meta_key RepoId_GLOBAL k = m !! meta_key RepoId_GLOBAL k.
Proof.
  intros Hr H. eapply cas_refs_frame; [done |].
  intros (u & E & _)%list_elem_of_fmap. by apply meta_ref_key_ne in E; [| apply global_wf |].
Qed.

(** The registry invariant.  As long as the counter has not reached the
    end of its range, the atomic step of a creation gives the new name an id
    no name had, leaves every other mapping alone and keeps ids unique. *)
Lemma registry_created name n m :
  registry_ok m -> mapped m name = Ok None -> counter m = Ok n -> (n < 2 ^ 64 - 1)%Z ->
  registry_ok (created name n m)
  /\ mapped (created name n m) name = Ok (Some (mkRepoId n))
  /\ (forall other, mapped m other <> Ok (Some (mkRepoId n)))
  /\ (forall other, other <> name -> mapped (created name n m) other = mapped m other).
Proof.
  intros (next & Hc & Hrange & Hlt & Hinj) Hm Hc' Hmax. assert (next = n) as -> by congruence.
  assert (forall other, mapped m other <> Ok (Some (mkRepoId n))) as Hfresh.
  { intros other H. apply Hlt in H. cbn in H. lia. }
  split; [| split; [by rewrite mapped_created, decide_True by done | split; [done |]]].
  2: { intros other Hne. by rewrite mapped_created, decide_False by done. }
  exists (saturating_succ n). rewrite counter_created by done.
  unfold FIRST_REPO_ID, saturating_succ in *. split; [done | split; [lia | split]].
  - intros nm id. rewrite mapped_created by done. case_decide; [intros [= <-]; cbn; lia |].
    intros Hmp. apply Hlt in Hmp. lia.
  - intros n1 n2 id. rewrite !mapped_created by done. repeat case_decide; subst; try done.
    + intros [= <-] Hm2. by apply Hfresh in Hm2.
    + intros Hm1 [= <-]. by apply Hfresh in Hm1.
    + apply Hinj.
Qed.

Lemma registry_cas repo updates rs m m' :
  registry_ok m -> repo_wf repo -> cas_refs repo updates m = Ok (rs, m') ->
  registry_ok m' /\ forall other, mapped m' other = mapped m other.
Proof.
  intros (next & Hc & Hrange & Hlt & Hinj) Hwf H.
  assert (forall other, mapped m' other = mapped m other) as Hmap.
  { intros other. unfold mapped. by erewrite cas_refs_global. }
  split; [| done]. exists next. unfold counter. erewrite cas_refs_global by done.
  split; [done | split; [done |]]. split; intros *; rewrite !Hmap; eauto.
Qed.

(** C34: ref updates are an atomic compare-and-swap.  A batch that returns
    either lost every attempt to conflicting commits — every command rejected
    with that reason, nothing written — or took effect as one commit, whose
    results and contents are those of the batch run by itself on the contents
    just before it, whatever other clients committed in between.  There, for
    distinct names, each command is judged on the ref it finds (applied when
    the ref holds exactly the expected id or is absent as expected, refused
    for a symbolic ref or any other value), an applied command leaves its new
    id or no ref, a refused one the ref as it was, no other key changes, and
    the repository registry is untouched. *)
Theorem update_refs_atomic repo updates w rs w' :
  update_refs repo updates w = (Ok rs, w') ->
  (rs = map (fun u => mkRefUpdateResult (ru_name u) (Rejected REASON_CONFLICT)) updates
   /\ evolves w w')
  \/ exists m m' l, history w' = m' :: l /\ hd ∅ l = m /\ suffix (history w) l
       /\ cas_refs repo updates m = Ok (rs, m')
       /\ (NoDup (ru_name <$> updates) -> forall i u r, updates !! i = Some u -> rs !! i = Some r ->
            rr_name r = ru_name u
            /\ exists target, ref_at repo (ru_name u) m = Ok target
              /\ rr_outcome r = judge (ru_expected_old u) target
              /\ ref_at repo (ru_name u) m'
                 = Ok (match rr_outcome r with
                       | Updated => Direct <$> ru_new u
                       | Rejected _ => target
                       end))
       /\ (forall k, k ∉ (ref_key repo ∘ ru_name) <$> updates -> m' !! k = m !! k)
       /\ (registry_ok m -> repo_wf repo ->
            registry_ok m' /\ forall name, mapped m' name = mapped m name).
Proof.
  intros [H | (m & m' & l & H1 & H2 & H3 & Hcas)]%update_refs_step; [by left | right].
  exists m, m', l. do 4 (split; [done |]). split; [| split].
  - intros Hnd i u r Hu Hr. destruct (cas_refs_judged _ _ _ _ _ Hnd Hcas) as (Hnames & Hj & _).
    split; [| by apply (Hj i u r)].
    assert ((rr_name <$> rs) !! i = (ru_name <$> updates) !! i) as E by by rewrite Hnames.
    rewrite !list_lookup_fmap, Hu, Hr in E. by injection E.
  - intros k. by eapply cas_refs_frame.
  - intros Hok Hwf. by eapply registry_cas.
Qed.

(** C35: creation is atomic and ids are unique.  [create_repo] returns either a
    repository that a committed state maps the name to, or the one it created
    in a single commit over contents that had no such mapping, under the id
    the counter held there, writing the defaults, [HEAD] and the bumped
    counter; as long as the counter is not at the end of its range, that id
    belonged to no name, every other mapping stays, and the registry stays
    sound. *)
Theorem create_repo_atomic name w meta w' :
  create_repo name w = (Ok meta, w') ->
  (exists w1, evolves w w1 /\ evolves w1 w' /\ mapped (view w1) name = Ok (Some (rm_id meta)))
  \/ exists m n l, history w' = created name n m :: l /\ hd ∅ l = m /\ suffix (history w) l
       /\ mapped m name = Ok None /\ counter m = Ok n
       /\ meta = mkRepoMeta (mkRepoId n) Sha1 DEFAULT_BRANCH
       /\ (registry_ok m -> (n < 2 ^ 64 - 1)%Z ->
            registry_ok (created name n m)
            /\ mapped (created name n m) name = Ok (Some (rm_id meta))
            /\ (forall other, mapped m other <> Ok (Some (rm_id meta)))
            /\ (forall other, other <> name -> mapped (created name n m) other = mapped m other)).
Proof.
  intros [H | (m & n & l & H1 & H2 & H3 & H4 & H5 & ->)]%create_repo_step; [by left | right].
  exists m, n, l. do 6 (split; [done |]). intros Hok Hmax. by apply registry_created.
Qed.

(** ** Listing refs *)

Lemma decode_refs_Ok kvs refs :
  decode_refs kvs = Ok refs ->
  Forall2 (fun kv nt => exists repo, decode_ref_key kv.1 = Ok (repo, nt.1)
                                     /\ target_decode kv.2 = Ok nt.2) kvs refs.
Proof.
  revert refs. induction kvs as [| [k v] kvs IH]; intros refs; cbn [decode_refs].
  { intros [= <-]. constructor. }
  destruct (decode_ref_key k) as [[repo n] |] eqn:Ek; [| done]. cbn [map_err].
  destruct (target_decode v) as [t |] eqn:Et; [| done]. cbn [map_err].
  destruct (decode_refs kvs) as [rest |]; [| done]. intros [= <-].
  constructor; [| by apply IH]. by exists repo.
Qed.

(** The database entry of a ref. *)
Definition ref_entry (repo : RepoId) (nt : bytes * RefTarget Oid) : bytes * bytes :=
  (ref_key repo nt.1, target_encode nt.2).

Lemma starts_with_app {A} `{EqDecision A} (p q l : list A) :
  starts_with (p ++ q) (p ++ l) = starts_with q l.
Proof. induction p as [| x p IH]; cbn; [done |]. by rewrite bool_decide_eq_true_2. Qed.

Lemma ref_prefix_inj repo repo' p name :
  repo_wf repo -> repo_wf repo' -> starts_with (ref_prefix repo p) (ref_key repo' name) = true ->
  repo' = repo.
Proof.
  intros Hr Hr' [rest H]%starts_with_prefix. unfold ref_prefix, segment_prefix, ref_key in H.
  rewrite <- app_assoc in H. by apply encode_preamble_inj in H as (-> & _).
Qed.

Lemma scanned_refs repo p m kvs refs :
  repo_wf repo -> is_scan m (ref_prefix repo p) kvs -> decode_refs kvs = Ok refs ->
  kvs = ref_entry repo <$> refs.
Proof.
  intros Hr (_ & _ & Hin) H%decode_refs_Ok.
  assert (Forall (fun kv => starts_with (ref_prefix repo p) kv.1 = true) kvs) as Hp.
  { apply Forall_forall. intros [k v] Hkv. by apply Hin in Hkv as [_ ?]. }
  clear Hin. induction H as [| [k v] [n t] kvs refs (repo' & Hk & Hv) H IH]; [done |].
  cbn [fst snd] in *. apply Forall_cons_1 in Hp as [Hp1 Hp]. rewrite fmap_cons. f_equal; [| auto].
  apply decode_ref_key_Ok in Hk as (Hr' & _ & ->). apply (target_codec v t) in Hv as [_ ->].
  apply ref_prefix_inj in Hp1 as ->; done.
Qed.

Lemma ref_entry_mem repo (refs : list (bytes * RefTarget Oid)) name b :
  (ref_key repo name, b) ∈ ref_entry repo <$> refs <->
  exists t, (name, t) ∈ refs /\ b = target_encode t.
Proof.
  rewrite list_elem_of_fmap. split.
  - intros ([n t] & E & Hin). injection E as E ->. subst. by exists t.
  - intros (t & Hin & ->). by exists (name, t).
Qed.

Lemma decoded_round kvs refs name t :
  decode_refs kvs = Ok refs -> (name, t) ∈ refs -> target_decode (target_encode t) = Ok t.
Proof.
  intros Hdec%decode_refs_Ok [i Hi]%list_elem_of_lookup.
  destruct (Forall2_lookup_r _ _ _ _ _ Hdec Hi) as ([k v] & _ & _ & _ & Hd).
  apply (target_codec v t) in Hd as [Hwf _]. by apply (target_codec [] t).
Qed.

(** Listing refs is sound and complete.  A listing that succeeds holds
    exactly the refs of that repository whose names start with the prefix,
    each with its stored target, each once and in name order. *)
Theorem list_refs_spec repo prefix w refs w' :
  repo_wf repo -> list_refs repo prefix w = (Ok refs, w') ->
  (forall name t, (name, t) ∈ refs <->
     starts_with (default [] prefix) name = true /\ ref_at repo name (view w') = Ok (Some t))
  /\ NoDup refs.*1 /\ StronglySorted (fun a b => bytes_le a.1 b.1) refs.
Proof.
  intros Hr. unfold list_refs. intros (kvs & w1 & Hs%db_ok & [Hdec <-]%se_lift_ok)%se_bind_ok.
  apply db_scan_spec in Hs as [_ Hscan]. specialize (Hscan kvs eq_refl).
  replace (match prefix with Some p => _ | None => _ end)
    with (ref_prefix repo (default [] prefix)) in Hscan
    by (destruct prefix; [done | unfold ref_prefix; apply app_nil_r]).
  pose proof (scanned_refs _ _ _ _ _ Hr Hscan Hdec) as ->. destruct Hscan as (Hsort & Hnd & Hin).
  split; [| split].
  - intros name t.
    assert (starts_with (ref_prefix repo (default [] prefix)) (ref_key repo name)
            = starts_with (default [] prefix) name) as Hpre.
    { unfold ref_prefix, segment_prefix, ref_key. apply starts_with_app. }
    pose proof (Hin (ref_key repo name)) as Hmem. setoid_rewrite ref_entry_mem in Hmem.
    rewrite Hpre in Hmem. unfold ref_at. split.
    + intros Ht. destruct (proj1 (Hmem (target_encode t))) as [E ?]; [by exists t |].
      split; [done |]. by rewrite E, (decoded_round _ _ _ _ Hdec Ht).
    + intros [Hp Ht]. destruct (view w' !! ref_key repo name) as [b |] eqn:E; [| done].
      destruct (target_decode b) as [t' |] eqn:Ed; [| done]. injection Ht as ->.
      destruct (proj2 (Hmem b) (conj eq_refl Hp)) as (t' & Ht' & ->).
      rewrite (decoded_round _ _ _ _ Hdec Ht') in Ed. by injection Ed as ->.
  - rewrite <- list_fmap_compose in Hnd. apply (NoDup_fmap_1 (ref_key repo)).
    by rewrite <- list_fmap_compose.
  - clear -Hsort. induction refs as [| [n t] refs IH]; [constructor |].
    rewrite fmap_cons in Hsort. apply StronglySorted_inv in Hsort as [Hs Hall].
    constructor; [by apply IH |]. rewrite Forall_fmap in Hall. eapply Forall_impl; [exact Hall |].
    intros [n' t']. unfold key_le, ref_entry, ref_key. cbn. by rewrite bytes_le_app.
Qed.

End store.

(** ** Concrete runs over the in-memory database *)
Module StoreSample.

Abbreviation world0 := ([∅] : MemDb.W).
Definition upd (old new : option HexOid.t) : RefUpdate HexOid.t := mkRefUpdate DEFAULT_BRANCH old new.
Definition repo1 : RepoId := mkRepoId 1.
Definition world1 : MemDb.W := (create_repo (Oid := HexOid.t) (Sdb := MemDb.lib) (bs "r") world0).2.
Definition push1 : list (RefUpdate HexOid.t) := [upd None (Some (HexOid.fill x11))].
Definition world2 : MemDb.W := (update_refs (Sdb := MemDb.lib) repo1 push1 world1).2.

Lemma pair_eta {A B} (p : A * B) a : p.1 = a -> p = (a, p.2).
Proof. destruct p. cbn. by intros ->. Qed.

Lemma created1 :
  (create_repo (Oid := HexOid.t) (Sdb := MemDb.lib) (bs "r") world0).1 = Ok (mkRepoMeta repo1 Sha1 DEFAULT_BRANCH).
Proof. by vm_compute. Qed.

Lemma pushed1 :
  (update_refs (Sdb := MemDb.lib) repo1 push1 world1).1 = Ok [mkRefUpdateResult DEFAULT_BRANCH Updated].
Proof. by vm_compute. Qed.

Lemma listed1 :
  (list_refs (Sdb := MemDb.lib) repo1 (Some (bs "refs/")) world2).1 = Ok [(DEFAULT_BRANCH, Direct (HexOid.fill x11))].
Proof. by vm_compute. Qed.

End StoreSample.

Import StoreSample.

Lemma update_refs_atomic_witness :
  exists m m', cas_refs repo1 push1 m = Ok ([mkRefUpdateResult DEFAULT_BRANCH Updated], m')
    /\ ref_at repo1 DEFAULT_BRANCH m' = Ok (Some (Direct (HexOid.fill x11))).
Proof.
  destruct (update_refs_atomic _ _ _ _ _ (pair_eta _ _ pushed1))
    as [[E _] | (m & m' & l & _ & _ & _ & H & Hj & _)]; [discriminate E |].
  exists m, m'. split; [exact H |].
  destruct (Hj (NoDup_singleton _) 0 _ _ eq_refl eq_refl) as (_ & target & _ & _ & E). exact E.
Defined.

Lemma create_repo_atomic_witness :
  (exists w1, mapped (DbError := MemDb.error) (view (SlateDb := MemDb.lib) w1) (bs "r")
              = Ok (Some repo1))
  \/ exists m n, counter (DbError := MemDb.error) m = Ok n /\ mkRepoId n = repo1.
Proof.
  destruct (create_repo_atomic (Oid := HexOid.t) (Sdb := MemDb.lib) (bs "r") world0 _ _
    (pair_eta _ _ created1)) as [(w1 & _ & _ & Hm) | (m & n & l & _ & _ & _ & _ & Hc & E & _)].
  - left. exists w1. exact Hm.
  - right. exists m, n. split; [exact Hc | by injection E as <-].
Defined.

Lemma list_refs_spec_witness :
  (DEFAULT_BRANCH, Direct (HexOid.fill x11)) ∈ [(DEFAULT_BRANCH, Direct (HexOid.fill x11))]
  /\ ref_at repo1 DEFAULT_BRANCH
       (view (SlateDb := MemDb.lib)
          (list_refs (Oid := HexOid.t) (Sdb := MemDb.lib) repo1 (Some (bs "refs/")) world2).2)
     = Ok (Some (Direct (HexOid.fill x11))).
Proof.
  pose proof (list_refs_spec (Oid := HexOid.t) (Sdb := MemDb.lib) repo1 (Some (bs "refs/")) world2 _ _
    ltac:(by vm_compute) (pair_eta _ _ listed1)) as [H _].
  split; [by left |]. exact (proj2 (proj1 (H DEFAULT_BRANCH (Direct (HexOid.fill x11))) ltac:(by left))).
Defined.
