(* ===== verification/GixObject.v ===== *)
(** * Git object bodies

    The object library's parsers, as far as the program uses them: a commit's
    root tree and parents, a tag's target, a tree's entries. *)

From S2P Require Import Prelude Bytes GixHash.
From stdpp Require Import list.
From Stdlib Require Import Lia.

(** The modes of a tree entry; the program tells trees and gitlinks
    ([MCommit]) from everything else. *)
Inductive EntryMode : Set := MTree | MBlob | MBlobExecutable | MLink | MCommit.

Definition is_tree (m : EntryMode) : bool := match m with MTree => true | _ => false end.
Definition is_commit (m : EntryMode) : bool := match m with MCommit => true | _ => false end.

Record RawEntry (Oid : Type) : Type := mkRawEntry {
  re_mode : EntryMode;
  re_filename : bytes;
  re_oid : Oid;
}.
Arguments mkRawEntry {Oid}.
Arguments re_mode {Oid}.
Arguments re_filename {Oid}.
Arguments re_oid {Oid}.

(** [CommitRef::from_bytes], [TagRef::from_bytes] and the items of
    [TreeRefIter::from_bytes]. *)
Class ObjectLib (Oid DecodeError : Type) `{OidLib Oid} : Type := {
  commit_ref : bytes -> HashKind -> result DecodeError (Oid * list Oid);
  tag_ref : bytes -> HashKind -> result DecodeError Oid;
  tree_iter : bytes -> HashKind -> list (result DecodeError (RawEntry Oid));
  (** ids are as wide as the given kind's *)
  commit_ref_kind : forall body k t ps, commit_ref body k = Ok (t, ps) ->
    oid_kind t = k /\ Forall (fun p => oid_kind p = k) ps;
}.

(** ** A concrete format

    Bodies made of 20-byte ids: a commit is its tree and its parents, a tag
    its target, a tree a list of mode byte, one-byte name and id. *)
Module PlainObjects.

Inductive error : Set := Malformed.

Fixpoint ids (fuel : nat) (b : bytes) : option (list HexOid.t) :=
  match fuel, b with
  | _, [] => Some []
  | O, _ => None
  | S fuel', _ =>
      match oid_try_from (take 20 b), ids fuel' (drop 20 b) with
      | Some o, Some os => Some (o :: os)
      | _, _ => None
      end
  end.

Definition commit (b : bytes) (k : HashKind) : result error (HexOid.t * list HexOid.t) :=
  match k, ids (length b) b with
  | Sha1, Some (tree :: parents) => Ok (tree, parents)
  | _, _ => Err Malformed
  end.

Definition tag (b : bytes) (_ : HashKind) : result error HexOid.t :=
  match ids (length b) b with Some [o] => Ok o | _ => Err Malformed end.

Definition mode_of (b : byte) : option EntryMode :=
  match b with
  | x00 => Some MTree | x01 => Some MBlob | x02 => Some MBlobExecutable
  | x03 => Some MLink | x04 => Some MCommit | _ => None
  end.

Definition entry (b : bytes) : result error (RawEntry HexOid.t) :=
  match b with
  | m :: n :: o =>
      match mode_of m, oid_try_from o with
      | Some m, Some o => Ok (mkRawEntry m [n] o)
      | _, _ => Err Malformed
      end
  | _ => Err Malformed
  end.

Definition tree (b : bytes) (_ : HashKind) : list (result error (RawEntry HexOid.t)) :=
  map entry (chunks 22 b).

Lemma ids_kind fuel b os : ids fuel b = Some os -> Forall (fun o => oid_kind o = Sha1) os.
Proof.
  revert b os. induction fuel as [| fuel IH]; intros [| c b] os; cbn [ids]; try (by intros [= <-]).
  destruct (oid_try_from (take 20 (c :: b))) as [o |] eqn:E; [| done].
  destruct (ids fuel _) as [os' |] eqn:E'; [| done]. intros [= <-]. constructor; [| by eapply IH].
  apply oid_try_from_sound in E. pose proof (oid_bytes_len o) as Hl. rewrite E, length_take in Hl.
  destruct (oid_kind o); [done |]. cbn [len_in_bytes] in Hl. lia.
Qed.

#[refine, export] Instance lib : ObjectLib HexOid.t error := {|
  commit_ref := commit;
  tag_ref := tag;
  tree_iter := tree;
|}.
Proof.
  intros body [] t ps; unfold commit; [| done].
  destruct (ids (length body) body) as [[| x xs] |] eqn:E; try done. intros [= <- <-].
  by apply ids_kind, Forall_cons in E.
Defined.

End PlainObjects.
