(* ===== verification/Walk.v ===== *)
(** * Fetch walk: shared parts ([src/git/walk.rs])

    The walk's errors and data, the filter parser, the insertion-ordered set,
    the object reads both phases share, and the interface of the store as the
    walk sees it.  Batched concurrent lookups consume their results in input
    order, so they are modelled in that order. *)

From S2P Require Import Prelude Bytes GixHash Values GixObject.
From stdpp Require Import gmap strings.
From Stdlib Require Import Lia.

Definition MAX_REBUILD_SYMREF_DEPTH : nat := 5.
Definition MAX_REBUILD_TAG_PEEL_DEPTH : nat := 5.

(** [OutOfFuel] and [WPanicked] are the model's: a loop that did not end within
    its fuel, and a panic of the source. *)
Inductive WalkError (Oid StoreErr ObjErr DecodeError : Type) : Type :=
  | WStore (e : StoreErr)
  | WObjects (e : ObjErr)
  | UnknownWant (oid : Oid)
  | UnsupportedWant (oid : Oid) (kind : Kind)
  | MissingObject (oid : Oid)
  | UnexpectedKind (oid : Oid) (expected actual : Kind)
  | Decode (oid : Oid) (source : DecodeError)
  | DiscoveryStalled (unresolved : list Oid)
  | OutOfFuel
  | WPanicked.
Arguments WStore {Oid StoreErr ObjErr DecodeError}.
Arguments WObjects {Oid StoreErr ObjErr DecodeError}.
Arguments UnknownWant {Oid StoreErr ObjErr DecodeError}.
Arguments UnsupportedWant {Oid StoreErr ObjErr DecodeError}.
Arguments MissingObject {Oid StoreErr ObjErr DecodeError}.
Arguments UnexpectedKind {Oid StoreErr ObjErr DecodeError}.
Arguments Decode {Oid StoreErr ObjErr DecodeError}.
Arguments DiscoveryStalled {Oid StoreErr ObjErr DecodeError}.
Arguments OutOfFuel {Oid StoreErr ObjErr DecodeError}.
Arguments WPanicked {Oid StoreErr ObjErr DecodeError}.

(** ** Filters *)

Inductive FilterSpec : Set := FilterNone | BlobNone | BlobLimit (limit : Z).

#[export] Instance FilterSpec_eq_dec : EqDecision FilterSpec.
Proof. solve_decision. Defined.

Definition is_digit (b : byte) : bool := in_range 48 57 b.

(** The digits of [str::parse::<u64>]: checked multiply and add at every one. *)
Fixpoint parse_digits (acc : Z) (s : bytes) : option Z :=
  match s with
  | [] => Some acc
  | b :: s' =>
      if is_digit b then
        let n := (acc * 10 + (u8 b - 48))%Z in
        if (n <? 2 ^ 64)%Z then parse_digits n s' else None
      else None
  end.

(** [str::parse::<u64>]: an optional plus sign, then at least one digit. *)
Definition parse_u64 (s : bytes) : option Z :=
  let digits := match s with x2b :: s' => s' | _ => s end in
  if decide (digits = []) then None else parse_digits 0 digits.

Definition checked_mul (a b : Z) : option Z := if (a * b <? 2 ^ 64)%Z then Some (a * b)%Z else None.

(** The character before the end decides the unit; the rest is the number. *)
Definition parse_unit_size (s : bytes) : option Z :=
  match rev s with
  | [] => None
  | c :: _ =>
      let '(digits, multiplier) :=
        match c with
        | x6b | x4b => (removelast s, 1024)
        | x6d | x4d => (removelast s, 1024 * 1024)
        | x67 | x47 => (removelast s, 1024 * 1024 * 1024)
        | _ => (s, 1)
        end%Z in
      match parse_u64 digits with
      | Some n => checked_mul n multiplier
      | None => None
      end
  end.

Definition filter_parse (spec : bytes) : option FilterSpec :=
  if decide (spec = bs "blob:none") then Some BlobNone
  else
    match Prelude.strip_prefix (bs "blob:limit=") spec with
    | Some limit => BlobLimit <$> parse_unit_size limit
    | None => None
    end.

(** The number a string of decimal digits denotes. *)
Definition decimal (s : bytes) : Z := fold_left (fun n b => n * 10 + (u8 b - 48))%Z s 0%Z.

Definition unit_of (c : byte) : Z :=
  match c with
  | x6b | x4b => 1024
  | x6d | x4d => 1024 * 1024
  | x67 | x47 => 1024 * 1024 * 1024
  | _ => 1
  end.

Lemma parse_digits_value acc s :
  (0 <= acc < 2 ^ 64)%Z -> Forall (fun b => is_digit b = true) s ->
  let n := fold_left (fun n b => n * 10 + (u8 b - 48))%Z s acc in
  (acc <= n)%Z /\ parse_digits acc s = if (n <? 2 ^ 64)%Z then Some n else None.
Proof.
  cbn zeta. intros Hacc Hs. revert acc Hacc. induction Hs as [| b s Hb Hs IH]; intros acc Hacc;
    cbn [parse_digits fold_left].
  { split; [lia |]. destruct (Z.ltb_spec acc (2 ^ 64)); [done | lia]. }
  rewrite Hb. unfold is_digit, in_range in Hb.
  assert (48 <= u8 b <= 57)%Z as Hr by lia.
  assert (forall a, (0 <= a)%Z ->
    (a <= fold_left (fun n b => n * 10 + (u8 b - 48)) s a)%Z) as Hmono.
  { clear -Hs. induction Hs as [| b s Hb Hs IH]; intros a Ha; cbn [fold_left]; [lia |].
    unfold is_digit, in_range in Hb. specialize (IH (a * 10 + (u8 b - 48))%Z ltac:(lia)). lia. }
  destruct (Z.ltb_spec (acc * 10 + (u8 b - 48)) (2 ^ 64)) as [Hlt | Hge].
  - destruct (IH (acc * 10 + (u8 b - 48))%Z ltac:(lia)) as [Hle ->]. split; [lia | done].
  - specialize (Hmono (acc * 10 + (u8 b - 48))%Z ltac:(lia)). split; [lia |].
    destruct (Z.ltb_spec (fold_left (fun n b => n * 10 + (u8 b - 48)) s (acc * 10 + (u8 b - 48)))%Z
      (2 ^ 64)); [lia | done].
Qed.

Lemma digit_not_unit b : is_digit b = true -> unit_of b = 1%Z /\ b <> x2b.
Proof. destruct b; done. Qed.

(** The numeral of an unsigned integer: digits, or a plus sign and digits. *)
Lemma parse_u64_digits s :
  s <> [] -> Forall (fun b => is_digit b = true) s ->
  parse_u64 s = if (decimal s <? 2 ^ 64)%Z then Some (decimal s) else None.
Proof.
  intros Hne Hs. unfold parse_u64.
  replace (match s with x2b :: s' => s' | _ => s end) with s.
  - rewrite decide_False by done. by apply parse_digits_value.
  - destruct Hs as [| b s Hb Hs]; [done |]. by destruct b.
Qed.

(** A limit with no unit letter. *)
Lemma parse_unit_digits digits :
  digits <> [] -> Forall (fun b => is_digit b = true) digits ->
  parse_unit_size digits = if (decimal digits <? 2 ^ 64)%Z then Some (decimal digits) else None.
Proof.
  intros Hne Hd. pose proof (parse_digits_value 0 digits ltac:(lia) Hd) as [Hpos _].
  fold (decimal digits) in Hpos. unfold parse_unit_size. destruct (rev digits) as [| d r] eqn:Er.
  { apply (f_equal (@rev byte)) in Er. by rewrite rev_involutive in Er. }
  assert (is_digit d = true) as Hdd.
  { rewrite List.Forall_forall in Hd. apply Hd, in_rev. rewrite Er. by left. }
  replace (match d with x6b | x4b => _ | x6d | x4d => _ | x67 | x47 => _ | _ => _ end)
    with (digits, 1%Z) by (by destruct d).
  rewrite parse_u64_digits by done. unfold checked_mul.
  destruct (Z.ltb_spec (decimal digits) (2 ^ 64)); [| done]. rewrite Z.mul_1_r.
  by destruct (Z.ltb_spec (decimal digits) (2 ^ 64)); [| lia].
Qed.

Lemma filter_parse_limit s : filter_parse (bs "blob:limit=" ++ s) = BlobLimit <$> parse_unit_size s.
Proof.
  unfold filter_parse. rewrite decide_False by (intros H; discriminate H). by rewrite strip_prefix_app.
Qed.

(** Filter specs.  [blob:none] and [blob:limit=] followed by a decimal
    number, alone or with one of the six unit letters, parse to the filter
    they name, the limit scaled by 1024, 1024^2 or 1024^3 — and are refused
    exactly when number or product leave the 64-bit range. *)
Theorem filter_parse_spec digits c :
  digits <> [] -> Forall (fun b => is_digit b = true) digits -> unit_of c <> 1%Z ->
  filter_parse (bs "blob:none") = Some BlobNone
  /\ filter_parse (bs "blob:limit=" ++ digits)
     = (if (decimal digits <? 2 ^ 64)%Z then Some (BlobLimit (decimal digits)) else None)
  /\ filter_parse (bs "blob:limit=" ++ digits ++ [c])
     = (if (decimal digits * unit_of c <? 2 ^ 64)%Z
        then Some (BlobLimit (decimal digits * unit_of c)) else None)
  /\ filter_parse (bs "blob:limit=") = None.
Proof.
  intros Hne Hd Hc. pose proof (parse_digits_value 0 digits ltac:(lia) Hd) as [Hpos _].
  fold (decimal digits) in Hpos.
  split; [done | split; [| split]]; [rewrite filter_parse_limit.. | done].
  - rewrite parse_unit_digits by done. by destruct (_ <? _)%Z.
  - unfold parse_unit_size. rewrite rev_app_distr. cbn [rev app].
    replace (match c with x6b | x4b => _ | x6d | x4d => _ | x67 | x47 => _ | _ => _ end)
      with (digits, unit_of c) by (destruct c; try done; cbn [unit_of]; by rewrite removelast_last).
    rewrite parse_u64_digits by done. unfold checked_mul.
    assert (1 <= unit_of c)%Z by (by destruct c).
    destruct (Z.ltb_spec (decimal digits) (2 ^ 64)).
    + by destruct (_ <? _)%Z.
    + destruct (Z.ltb_spec (decimal digits * unit_of c) (2 ^ 64)); [nia | done].
Qed.

Lemma filter_parse_spec_witness :
  filter_parse (bs "blob:limit=16m") = Some (BlobLimit 16777216).
Proof.
  pose proof (filter_parse_spec (bs "16") x6d) as H.
  exact (proj1 (proj2 (proj2 (H ltac:(discriminate) ltac:(by repeat constructor) ltac:(by vm_compute))))).
Defined.

(** ** Data *)

Record Selection (Oid : Type) : Type := mkSelection {
  to_send : list Oid;
  common : list Oid;
  bounded_by_haves : bool;
}.
Arguments mkSelection {Oid}.
Arguments to_send {Oid}.
Arguments common {Oid}.
Arguments bounded_by_haves {Oid}.

Record WantPartition (Oid : Type) : Type := mkWantPartition {
  wp_history : list Oid;
  wp_direct : list Oid;
}.
Arguments mkWantPartition {Oid}.
Arguments wp_history {Oid}.
Arguments wp_direct {Oid}.

Inductive TreeEntry (Oid : Type) : Type :=
  | Subtree (oid : Oid) (name : option bytes)
  | Leaf (oid : Oid) (name : option bytes).
Arguments Subtree {Oid}.
Arguments Leaf {Oid}.

Definition join_path (parent name : bytes) : bytes :=
  match parent with
  | [] => name
  | _ => parent ++ [x2f] ++ name
  end.

(** Membership set plus first-insertion order; the set is the vector's. *)
Record OrderedOidSet (Oid : Type) `{Countable Oid} : Type := mkOrdered {
  order : list Oid;
  seen : gset Oid;
}.
Arguments mkOrdered {Oid _ _}.
Arguments order {Oid _ _}.
Arguments seen {Oid _ _}.

Section ordered.
Context {Oid : Type} `{Countable Oid}.

Definition ordered_empty : OrderedOidSet Oid := mkOrdered [] ∅.

Definition ordered_insert (s : OrderedOidSet Oid) (id : Oid) : OrderedOidSet Oid :=
  if decide (id ∈ seen s) then s else mkOrdered (order s ++ [id]) ({[id]} ∪ seen s).

Definition ordered_contains (s : OrderedOidSet Oid) (id : Oid) : bool := bool_decide (id ∈ seen s).

(** The vector lists the set, once each. *)
Definition ordered_ok (s : OrderedOidSet Oid) : Prop :=
  NoDup (order s) /\ forall id, id ∈ order s <-> id ∈ seen s.

Lemma ordered_empty_ok : ordered_ok ordered_empty.
Proof. split; [constructor |]. intros id. cbn. set_solver. Qed.

Lemma ordered_insert_ok s id : ordered_ok s -> ordered_ok (ordered_insert s id).
Proof.
  intros [Hnd Hs]. unfold ordered_insert. case_decide as Hin; [done |]. split; cbn [order seen].
  - apply NoDup_app. split; [done | split; [| apply NoDup_singleton]].
    intros x Hx ->%list_elem_of_singleton. by apply Hs in Hx.
  - intros x. rewrite elem_of_app, list_elem_of_singleton, Hs. set_solver.
Qed.

Lemma ordered_insert_mem s id x :
  ordered_ok s -> x ∈ order (ordered_insert s id) <-> x = id \/ x ∈ order s.
Proof.
  intros Hok. rewrite (proj2 (ordered_insert_ok s id Hok)), (proj2 Hok).
  unfold ordered_insert. case_decide; cbn [seen]; set_solver.
Qed.

Lemma ordered_fold l s :
  ordered_ok s ->
  ordered_ok (fold_left ordered_insert l s)
  /\ forall x, x ∈ order (fold_left ordered_insert l s) <-> x ∈ order s \/ x ∈ l.
Proof.
  revert s. induction l as [| y l IH]; intros s Hok; cbn [fold_left].
  { split; [done |]. intros x. rewrite elem_of_nil. tauto. }
  destruct (IH (ordered_insert s y)) as [Hok' Hmem]; [by apply ordered_insert_ok |].
  split; [done |]. intros x. rewrite Hmem, ordered_insert_mem, elem_of_cons by done. tauto.
Qed.

End ordered.

#[export] Hint Resolve ordered_empty_ok ordered_insert_ok : miscreant.

(** ** The store as the walk sees it

    Objects are content-addressed and never change; a walk's request sees a
    fixed set of them ([ws_objects]) while commit-graph records, derived data,
    are also written ([ws_graph]).  Any call may fail. *)
Class WalkStore (Oid StoreErr ObjErr G : Type) `{OidLib Oid} : Type := {
  ws_objects : G -> gmap Oid (Kind * bytes);
  ws_graph : G -> gmap Oid (CommitGraphRecord Oid);
  ws_refs : G -> gmap bytes (RefTarget Oid);
  ws_get_commit_graph : Oid -> SE G StoreErr (option (CommitGraphRecord Oid));
  ws_put_commit_graph : Oid -> CommitGraphRecord Oid -> SE G StoreErr unit;
  ws_get_ref : bytes -> SE G StoreErr (option (RefTarget Oid));
  ws_list_refs : SE G StoreErr (list (bytes * RefTarget Oid));
  ws_flush : SE G StoreErr unit;
  ws_get : Oid -> SE G ObjErr (option (Kind * bytes));
  ws_size : Oid -> SE G ObjErr (option (Kind * Z));

  ws_same : G -> G -> Prop := fun g g' =>
    ws_objects g' = ws_objects g /\ ws_graph g' = ws_graph g /\ ws_refs g' = ws_refs g;
  ws_get_commit_graph_spec : forall id g r g', ws_get_commit_graph id g = (r, g') ->
    ws_same g g' /\ forall v, r = Ok v -> v = ws_graph g !! id;
  ws_put_commit_graph_spec : forall id rec g r g', ws_put_commit_graph id rec g = (r, g') ->
    ws_objects g' = ws_objects g /\ ws_refs g' = ws_refs g
    /\ ((exists rec', ws_graph g' = <[id := rec']> (ws_graph g) /\ (graph_fits (oid_kind id) rec -> rec' = rec))
        \/ (ws_graph g' = ws_graph g /\ exists e, r = Err e));
  ws_get_ref_spec : forall n g r g', ws_get_ref n g = (r, g') ->
    ws_same g g' /\ forall v, r = Ok v -> v = ws_refs g !! n;
  ws_list_refs_spec : forall g r g', ws_list_refs g = (r, g') ->
    ws_same g g' /\ forall l, r = Ok l -> l ≡ₚ map_to_list (ws_refs g);
  ws_flush_spec : forall g r g', ws_flush g = (r, g') -> ws_same g g';
  ws_get_spec : forall id g r g', ws_get id g = (r, g') ->
    ws_same g g' /\ forall v, r = Ok v -> v = ws_objects g !! id;
  ws_size_spec : forall id g r g', ws_size id g = (r, g') ->
    ws_same g g'
    /\ forall v, r = Ok v ->
         v = (fun kb => (kb.1, Z.of_nat (length kb.2))) <$> ws_objects g !! id;
}.

Section walker.
Context {Oid : Type} {OL : OidLib Oid} {StoreErr ObjErr DecodeError G : Type}.
Context {OB : ObjectLib Oid DecodeError} {WS : WalkStore Oid StoreErr ObjErr G}.

Abbreviation WE := (WalkError Oid StoreErr ObjErr DecodeError).
Abbreviation WM A := (SE G WE A).

(** The failures a walk can surface over the objects [m]: those of the store,
    and the ones that blame an object that is absent, of the wrong kind, or
    malformed.  The last three never leave a walk. *)
Definition fault (m : gmap Oid (Kind * bytes)) (e : WE) : Prop :=
  match e with
  | WStore _ | WObjects _ => True
  | UnknownWant id | MissingObject id => m !! id = None
  | UnsupportedWant id kind => exists body, m !! id = Some (kind, body) /\ kind <> KCommit /\ kind <> KTag
  | UnexpectedKind id expected actual => exists body, m !! id = Some (actual, body) /\ actual <> expected
  | Decode id err => exists kind body, m !! id = Some (kind, body)
      /\ match kind with
         | KCommit => commit_ref body (oid_kind id) = Err err
         | KTag => tag_ref body (oid_kind id) = Err err
         | KTree => Err err ∈ tree_iter body (oid_kind id)
         | KBlob => False
         end
  | DiscoveryStalled _ | OutOfFuel | WPanicked => False
  end.

Definition w_store {A} (m : SE G StoreErr A) : WM A := se_map_err WStore m.
Definition w_objects {A} (m : SE G ObjErr A) : WM A := se_map_err WObjects m.

(** ** Object reads *)

(** A batch of reads, its results in input order. *)
Fixpoint each {A B} (f : A -> WM B) (l : list A) : WM (list B) :=
  match l with
  | [] => se_ret []
  | x :: l' => do! y <- f x; do! ys <- each f l'; se_ret (y :: ys)
  end.

(** [object_sizes]: every read happens; each result, failures included, is
    handed to the caller with its id. *)
Fixpoint object_sizes (ids : list Oid) : G -> list (Oid * result ObjErr (option (Kind * Z))) * G :=
  match ids with
  | [] => fun g => ([], g)
  | id :: ids' => fun g =>
      let '(r, g) := ws_size id g in
      let '(rs, g) := object_sizes ids' g in
      ((id, r) :: rs, g)
  end.

(** The loop over the sizes that both planners and both phases share: the
    first failing or absent object ends it. *)
Fixpoint settle_sizes (absent : Oid -> WE) (sizes : list (Oid * result ObjErr (option (Kind * Z))))
    : result WE (list (Oid * Kind * Z)) :=
  match sizes with
  | [] => Ok []
  | (id, size) :: sizes' =>
      let? size := map_err WObjects size in
      let? (kind, n) := ok_or size (absent id) in
      let? rest := settle_sizes absent sizes' in
      Ok ((id, kind, n) :: rest)
  end.

Definition sizes_or (absent : Oid -> WE) (ids : list Oid) : WM (list (Oid * Kind * Z)) :=
  fun g => let '(sizes, g) := object_sizes ids g in (settle_sizes absent sizes, g).

Definition object_info (ids : list Oid) : WM (list (Oid * Kind * Z)) := sizes_or MissingObject ids.

Definition partition_wants (wants : list Oid) : WM (WantPartition Oid) :=
  do! sizes <- sizes_or UnknownWant wants;
  let is_history kind := match kind with KCommit | KTag => true | KTree | KBlob => false end in
  let history := filter (fun e => is_history e.1.2 = true) sizes in
  let direct := filter (fun e => is_history e.1.2 = false) sizes in
  se_ret (mkWantPartition (map (fun e => e.1.1) history)
    (order (fold_left ordered_insert (map (fun e => e.1.1) direct) ordered_empty))).

Definition parse_commit (id : Oid) : WM (Oid * list Oid) :=
  do! obj <- w_objects (ws_get id);
  match obj with
  | None => se_err (MissingObject id)
  | Some (kind, body) =>
      if decide (kind <> KCommit) then se_err (UnexpectedKind id KCommit kind)
      else se_lift (map_err (Decode id) (commit_ref body (oid_kind id)))
  end.

(** The entries of a tree body: gitlinks dropped, the first malformed entry an
    error. *)
Fixpoint tree_entries (id : Oid) (include_names : bool) (items : list (result DecodeError (RawEntry Oid)))
    : result WE (list (TreeEntry Oid)) :=
  match items with
  | [] => Ok []
  | item :: items' =>
      let? entry := map_err (Decode id) item in
      let name := if include_names then Some (re_filename entry) else None in
      let? rest := tree_entries id include_names items' in
      Ok (if is_tree (re_mode entry) then Subtree (re_oid entry) name :: rest
          else if negb (is_commit (re_mode entry)) then Leaf (re_oid entry) name :: rest
          else rest)
  end.

Definition read_tree (id : Oid) (include_names : bool) : WM (list (TreeEntry Oid)) :=
  do! obj <- w_objects (ws_get id);
  match obj with
  | None => se_err (MissingObject id)
  | Some (kind, body) =>
      if decide (kind <> KTree) then se_err (UnexpectedKind id KTree kind)
      else se_lift (tree_entries id include_names (tree_iter body (oid_kind id)))
  end.

Definition read_trees (ids : list Oid) (include_names : bool) : WM (list (list (TreeEntry Oid))) :=
  each (fun id => read_tree id include_names) ids.

(** ** Peeling *)

Fixpoint peel_loop (fuel : nat) (want cursor : Oid) (tags : list Oid) : WM (Oid * list Oid) :=
  match fuel with
  | O => se_err OutOfFuel
  | S fuel' =>
      do! obj <- w_objects (ws_get cursor);
      match obj with
      | None => se_err (if decide (cursor = want) then UnknownWant want else MissingObject cursor)
      | Some (KCommit, _) => se_ret (cursor, tags)
      | Some (KTag, body) =>
          do! target <- se_lift (map_err (Decode cursor) (tag_ref body (oid_kind cursor)));
          peel_loop fuel' want target (tags ++ [cursor])
      | Some (kind, _) => se_err (UnsupportedWant cursor kind)
      end
  end.

Definition peel_want (fuel : nat) (want : Oid) : WM (Oid * list Oid) := peel_loop fuel want want [].

Definition peel_wants (fuel : nat) (wants : list Oid) : WM (list Oid * list Oid) :=
  do! chains <- each (peel_want fuel) wants;
  se_ret (map fst chains, order (fold_left ordered_insert (concat (map snd chains)) ordered_empty)).

(** ** Metadata lookups *)

Lemma ws_same_trans g1 g2 g3 : ws_same g1 g2 -> ws_same g2 g3 -> ws_same g1 g3.
Proof. intros (? & ? & ?) (? & ? & ?). split; [congruence | split; congruence]. Qed.

(** What a size lookup reports of an object of [m]. *)
Definition sized (m : gmap Oid (Kind * bytes)) (id : Oid) (e : Oid * Kind * Z) : Prop :=
  e.1.1 = id /\ exists body, m !! id = Some (e.1.2, body) /\ e.2 = Z.of_nat (length body).

Lemma sizes_or_spec absent ids g :
  let '(r, g') := sizes_or absent ids g in
  ws_same g g'
  /\ match r with
     | Ok l => Forall2 (sized (ws_objects g)) ids l
     | Err e => (exists o, e = WObjects o)
         \/ exists id, id ∈ ids /\ ws_objects g !! id = None /\ e = absent id
     end.
Proof.
  unfold sizes_or. remember (ws_objects g) as m eqn:Hm. symmetry in Hm.
  revert g Hm. induction ids as [| id ids IH]; intros g Hm; cbn [object_sizes].
  { split; [done | constructor]. }
  destruct (ws_size id g) as [r g1] eqn:E. apply ws_size_spec in E as [Hs Hv]. rewrite Hm in Hv.
  specialize (IH g1 ltac:(destruct Hs as (-> & _); done)).
  destruct (object_sizes ids g1) as [sizes g2]. destruct IH as [Hs2 Hok]. cbn [settle_sizes].
  split; [by eapply ws_same_trans |]. destruct r as [v | e]; cbn [map_err]; [| left; by eexists].
  specialize (Hv v eq_refl). subst v.
  destruct (m !! id) as [[kind body] |] eqn:Ei; cbn; [| right; exists id; split; [by left | done]].
  destruct (settle_sizes absent sizes) as [l | e].
  - constructor; [| done]. split; [done |]. by exists body.
  - destruct Hok as [? | (x & Hx & ?)]; [by left | right]. exists x. split; [by right | done].
Qed.

Definition kind_at (m : gmap Oid (Kind * bytes)) (id : Oid) : option Kind := fst <$> m !! id.

Lemma sized_kind m id e : sized m id e -> e.1.1 = id /\ kind_at m id = Some e.1.2.
Proof. intros [He (body & Hb & _)]. split; [done |]. unfold kind_at. by rewrite Hb. Qed.

(** Filtering looked-up wants by kind filters the wants. *)
Lemma sized_filter m (p : Kind -> bool) ids l :
  Forall2 (sized m) ids l ->
  map (fun e => e.1.1) (filter (fun e => p e.1.2 = true) l)
  = filter (fun w => p <$> kind_at m w = Some true) ids.
Proof.
  induction 1 as [| id e ids l He _ IH]; [done |]. apply sized_kind in He as [He Hk].
  rewrite !filter_cons. rewrite Hk. cbn. destruct (p e.1.2) eqn:Ep.
  - rewrite !decide_True by done. cbn. by rewrite He, IH.
  - by rewrite !decide_False by done.
Qed.

(** want partition.  The wants that drive history and the ones packed by
    point lookup split the wants: commits and tags go, in want order and
    duplicates included, to the first, trees and blobs, once each, to the
    second; a want that is no stored object ends it with that want's name, and
    nothing but a failing lookup does otherwise. *)
Theorem partition_wants_spec wants g :
  let '(r, g') := partition_wants wants g in
  ws_same g g'
  /\ match r with
     | Ok p =>
         wp_history p = filter (fun w => kind_at (ws_objects g) w = Some KCommit
                                      \/ kind_at (ws_objects g) w = Some KTag) wants
         /\ NoDup (wp_direct p)
         /\ (forall w, w ∈ wp_direct p <-> w ∈ wants
              /\ (kind_at (ws_objects g) w = Some KTree \/ kind_at (ws_objects g) w = Some KBlob))
         /\ forall w, w ∈ wants -> is_Some (ws_objects g !! w)
     | Err (UnknownWant w) => w ∈ wants /\ ws_objects g !! w = None
     | Err e => exists o, e = WObjects o
     end.
Proof.
  unfold partition_wants, se_bind. pose proof (sizes_or_spec UnknownWant wants g) as H.
  destruct (sizes_or UnknownWant wants g) as [[l | e] g']; destruct H as [Hs Hl]; (split; [done |]).
  2: { destruct Hl as [[o ->] | (w & ? & ? & ->)]; [by exists o | done]. }
  cbn [wp_history wp_direct]. set (m := ws_objects g) in *.
  pose proof (sized_filter m (fun k => match k with KCommit | KTag => true | KTree | KBlob => false end) _ _ Hl) as Hh.
  pose proof (sized_filter m (fun k => match k with KCommit | KTag => false | KTree | KBlob => true end) _ _ Hl) as Hd.
  assert (filter (fun e : Oid * Kind * Z =>
      match e.1.2 with KCommit | KTag => true | KTree | KBlob => false end = false) l
    = filter (fun e : Oid * Kind * Z =>
      match e.1.2 with KCommit | KTag => false | KTree | KBlob => true end = true) l) as ->
    by (apply list_filter_iff; intros e; destruct (e.1.2); split; congruence).
  rewrite Hd.
  match goal with |- context [fold_left ordered_insert ?l _] =>
    destruct (ordered_fold l ordered_empty ordered_empty_ok) as [Hok Hmem] end.
  split; [| split; [apply Hok | split]].
  - rewrite Hh. apply list_filter_iff. intros w. destruct (kind_at m w) as [[] |]; cbn; naive_solver.
  - intros w. rewrite Hmem. cbn. rewrite elem_of_nil, list_elem_of_filter.
    destruct (kind_at m w) as [[] |]; cbn; naive_solver.
  - intros w Hw. apply list_elem_of_lookup in Hw as [i Hi].
    destruct (Forall2_lookup_l _ _ _ _ _ Hl Hi) as (e & _ & [_ (body & -> & _)]). by eexists.
Qed.

(** object metadata.  The planner's pass reports every object's stored kind
    and content length in input order, or blames the first absent object. *)
Theorem object_info_spec ids g :
  let '(r, g') := object_info ids g in
  ws_same g g'
  /\ match r with
     | Ok l => Forall2 (fun id e => e.1.1 = id /\ exists body,
         ws_objects g !! id = Some (e.1.2, body) /\ e.2 = Z.of_nat (length body)) ids l
     | Err (MissingObject id) => id ∈ ids /\ ws_objects g !! id = None
     | Err e => exists o, e = WObjects o
     end.
Proof.
  unfold object_info. pose proof (sizes_or_spec MissingObject ids g) as H.
  destruct (sizes_or MissingObject ids g) as [[l | e] g']; destruct H as [Hs Hl]; (split; [done |]); [done |].
  destruct Hl as [[o ->] | (w & ? & ? & ->)]; [by exists o | done].
Qed.

End walker.

#[export] Hint Extern 0 (fault _ (WStore _)) => exact I : core.
#[export] Hint Extern 0 (fault _ (WObjects _)) => exact I : core.

(** ** A store in memory *)
Module MemWalk.

Record world (Oid : Type) `{Countable Oid} : Type := mkWorld {
  objects : gmap Oid (Kind * bytes);
  graph : gmap Oid (CommitGraphRecord Oid);
  refs : gmap bytes (RefTarget Oid);
}.
Arguments mkWorld {Oid _ _}.
Arguments objects {Oid _ _}.
Arguments graph {Oid _ _}.
Arguments refs {Oid _ _}.

#[refine, export] Instance lib {Oid} `{OidLib Oid} :
    WalkStore Oid Empty_set Empty_set (world Oid) := {|
  ws_objects := objects;
  ws_graph := graph;
  ws_refs := refs;
  ws_get_commit_graph id := fun g => (Ok (graph g !! id), g);
  ws_put_commit_graph id rec := fun g =>
    (Ok tt, mkWorld (objects g) (<[id := rec]> (graph g)) (refs g));
  ws_get_ref n := fun g => (Ok (refs g !! n), g);
  ws_list_refs := fun g => (Ok (map_to_list (refs g)), g);
  ws_flush := se_ret tt;
  ws_get id := fun g => (Ok (objects g !! id), g);
  ws_size id := fun g =>
    (Ok ((fun kb => (kb.1, Z.of_nat (length kb.2))) <$> objects g !! id), g);
|}.
Proof.
  - intros id g r g' [= <- <-]. split; [done |]. by intros v [= <-].
  - intros id rec g r g' [= <- <-]. cbn. eauto 6.
  - intros n g r g' [= <- <-]. split; [done |]. by intros v [= <-].
  - intros g r g' [= <- <-]. split; [done |]. by intros v [= <-].
  - by intros g r g' [= <- <-].
  - intros id g r g' [= <- <-]. split; [done |]. by intros v [= <-].
  - intros id g r g' [= <- <-]. split; [done |]. by intros v [= <-].
Defined.

(** A small repository: commits [1 <- 2 <- 3] over tree 4 with blob 5, main at
    3, and a tag 6 of commit 3. *)
Definition o (b : byte) : HexOid.t := HexOid.fill b.

Definition repo : world HexOid.t := mkWorld
  (list_to_map [
    (o x01, (KCommit, oid_bytes (o x04)));
    (o x02, (KCommit, oid_bytes (o x04) ++ oid_bytes (o x01)));
    (o x03, (KCommit, oid_bytes (o x04) ++ oid_bytes (o x02)));
    (o x04, (KTree, [x01; x61] ++ oid_bytes (o x05)));
    (o x05, (KBlob, bs "hello"));
    (o x06, (KTag, oid_bytes (o x03)))])
  ∅
  {[bs "HEAD" := Reference (bs "refs/heads/main"); bs "refs/heads/main" := Direct (o x03)]}.

Definition rank (id : HexOid.t) : nat := Z.to_nat (from_be_bytes (take 1 (oid_bytes id))).

End MemWalk.
