(* ===== verification/Graph.v ===== *)
(** * The commit graph ([src/git/walk.rs], lazy backfill and rebuild)

    Commit-graph records are derived from the commit objects: [get_commit_info]
    fills in the ones that are missing, [rebuild_commit_graph] recomputes all.
    Both run the same post-order over an explicit stack; the backfill trusts
    records it finds, the rebuild does not. *)

From S2P Require Import Prelude Bytes GixHash Values GixObject Walk.
From stdpp Require Import gmap.
From Stdlib Require Import Lia.

Section graph.
Context {Oid : Type} {OL : OidLib Oid} {StoreErr ObjErr DecodeError G : Type}.
Context {OB : ObjectLib Oid DecodeError} {WS : WalkStore Oid StoreErr ObjErr G}.

Abbreviation WE := (WalkError Oid StoreErr ObjErr DecodeError).
Abbreviation WM A := (SE G WE A).
Abbreviation Rec := (CommitGraphRecord Oid).
Abbreviation Objects := (gmap Oid (Kind * bytes)).

(** ** Operations *)

(** [1 + parents.filter_map(generations.get).max().unwrap_or(0)], a [u32]. *)
Definition next_generation (generations : gmap Oid Z) (parents : list Oid) : Z :=
  wrap 32 (1 + foldr Z.max 0 (omap (generations !!.) parents))%Z.

(** The record a backfill finds for [top]; a rebuild does not look. *)
Definition stored_record (trust : bool) (top : Oid) : WM (option Rec) :=
  if trust then w_store (ws_get_commit_graph top) else se_ret None.

(** The parsed commit, from the traversal's cache or the object itself. *)
Definition parsed_entry (parsed : gmap Oid (Oid * list Oid)) (top : Oid)
    : WM (Oid * list Oid * gmap Oid (Oid * list Oid)) :=
  match parsed !! top with
  | Some entry => se_ret (entry, parsed)
  | None => do! entry <- parse_commit top; se_ret (entry, <[top := entry]> parsed)
  end.

(** The traversal of [backfill_commit_info] ([trust]: a stored record settles
    its commit) and of [rebuild_commit_graph] (it does not).  The head of
    [stack] is its top; [res] is the record written for [target], if any. *)
Fixpoint graph_loop (fuel : nat) (trust : bool) (target : Oid) (stack : list Oid)
    (parsed : gmap Oid (Oid * list Oid)) (generations : gmap Oid Z) (res : option Rec)
    : WM (gmap Oid (Oid * list Oid) * gmap Oid Z * option Rec) :=
  match stack with
  | [] => se_ret (parsed, generations, res)
  | top :: stack' =>
      match fuel with
      | O => se_err OutOfFuel
      | S fuel' =>
          match generations !! top with
          | Some _ => graph_loop fuel' trust target stack' parsed generations res
          | None =>
              do! stored <- stored_record trust top;
              match stored with
              | Some record =>
                  graph_loop fuel' trust target stack' parsed
                    (<[top := generation record]> generations) res
              | None =>
                  do! (entry, parsed) <- parsed_entry parsed top;
                  let '(root_tree, parents) := entry in
                  match filter (fun parent => generations !! parent = None) parents with
                  | [] =>
                      let gen := next_generation generations parents in
                      let record := mkCommitGraph gen root_tree parents in
                      do! _ <- w_store (ws_put_commit_graph top record);
                      graph_loop fuel' trust target stack' parsed (<[top := gen]> generations)
                        (if decide (top = target) then Some record else res)
                  | missing =>
                      graph_loop fuel' trust target (rev missing ++ stack) parsed generations res
                  end
              end
          end
      end
  end.

Definition backfill_commit_info (fuel : nat) (id : Oid) : WM Rec :=
  do! (_, res) <- graph_loop fuel true id [id] ∅ ∅ None;
  se_lift (ok_or res (MissingObject id)).

Definition get_commit_info (fuel : nat) (id : Oid) : WM Rec :=
  do! stored <- w_store (ws_get_commit_graph id);
  match stored with
  | Some record => se_ret record
  | None => backfill_commit_info fuel id
  end.

(** The symref chain of [resolve_commit_tip]: [None] when it dangles or is too
    long. *)
Fixpoint follow_symrefs (depth : nat) (target : RefTarget Oid) : WM (option Oid) :=
  match depth with
  | O => se_ret None
  | S depth' =>
      match target with
      | Direct id => se_ret (Some id)
      | Reference name =>
          do! next <- w_store (ws_get_ref name);
          match next with
          | Some next => follow_symrefs depth' next
          | None => se_ret None
          end
      end
  end.

Fixpoint peel_tip (depth : nat) (cursor : Oid) : WM (option Oid) :=
  match depth with
  | O => se_ret None
  | S depth' =>
      do! obj <- w_objects (ws_get cursor);
      match obj with
      | None => se_ret None
      | Some (KCommit, _) => se_ret (Some cursor)
      | Some (KTag, body) =>
          do! target <- se_lift (map_err (Decode cursor) (tag_ref body (oid_kind cursor)));
          peel_tip depth' target
      | Some _ => se_ret None
      end
  end.

Definition resolve_commit_tip (target : RefTarget Oid) : WM (option Oid) :=
  do! resolved <- follow_symrefs MAX_REBUILD_SYMREF_DEPTH target;
  match resolved with
  | Some cursor => peel_tip MAX_REBUILD_TAG_PEEL_DEPTH cursor
  | None => se_ret None
  end.

Fixpoint rebuild_roots (fuel : nat) (roots : list Oid) (parsed : gmap Oid (Oid * list Oid))
    (generations : gmap Oid Z) : WM (gmap Oid Z) :=
  match roots with
  | [] => se_ret generations
  | root :: roots' =>
      if decide (is_Some (generations !! root)) then rebuild_roots fuel roots' parsed generations
      else
        do! (parsed, generations, _) <- graph_loop fuel false root [root] parsed generations None;
        rebuild_roots fuel roots' parsed generations
  end.

Definition rebuild_commit_graph (fuel : nat) : WM nat :=
  do! refs <- w_store ws_list_refs;
  do! tips <- each (fun nt => resolve_commit_tip nt.2) refs;
  do! generations <- rebuild_roots fuel (omap id tips) ∅ ∅;
  do! _ <- w_store ws_flush;
  se_ret (size generations).

(** ** What the records have to say

    [commit_at m id] is the root tree and parents the objects [m] give [id]. *)
Definition commit_at (m : Objects) (id : Oid) : option (Oid * list Oid) :=
  match m !! id with
  | Some (KCommit, body) =>
      match commit_ref body (oid_kind id) with
      | Ok c => Some c
      | Err _ => None
      end
  | _ => None
  end.

Definition gen_of (graph : gmap Oid Rec) (id : Oid) : Z :=
  match graph !! id with Some r => generation r | None => 0 end.

(** The records of [D] name the trees and parents of the commit objects; when
    the graph is [ex]act, [D] is also closed under parents and generations are
    one above the highest parent's.  Much of what follows needs only the
    first half, which a graph with corrupt generations still has. *)
Definition graph_good (ex : Prop) (m : Objects) (graph : gmap Oid Rec) (D : gset Oid) : Prop :=
  forall id, id ∈ D -> exists r, graph !! id = Some r
    /\ commit_at m id = Some (root_tree r, parents r)
    /\ (ex -> (forall p, p ∈ parents r -> p ∈ D)
         /\ generation r = (1 + foldr Z.max 0 (gen_of graph <$> parents r))%Z).

(** History is acyclic, no chain of it is 2^32 - 1 commits long, and no commit
    has more parents than its record can hold. *)
Definition ranked (m : Objects) (rank : Oid -> nat) : Prop :=
  forall id t ps, commit_at m id = Some (t, ps) ->
    (length ps <= 255 /\ (Z.of_nat (rank id) < 2 ^ 32 - 1)%Z) /\ forall p, p ∈ ps -> rank p < rank id.

(** A bound on the passes of one traversal: every commit not paid for costs its
    own two visits and one for each parent. *)
Definition visit_cost (m : Objects) (paid : gset Oid) (id : Oid) : nat :=
  if decide (id ∈ paid) then 0
  else match commit_at m id with Some (_, ps) => 2 + length ps | None => 0 end.

Definition cost (m : Objects) (paid : gset Oid) : nat :=
  sum_list (visit_cost m paid <$> (map_to_list m).*1).

Definition graph_fuel (m : Objects) : nat := S (cost m ∅).

(** ** Reads *)

Lemma w_store_inv {A} (m : SE G StoreErr A) g r g' :
  (w_store m : WM A) g = (r, g') ->
  exists r0, m g = (r0, g') /\ r = map_err WStore r0.
Proof. unfold w_store, se_map_err. destruct (m g) as [r0 g0]. intros [= <- <-]. eauto. Qed.

Lemma w_objects_inv {A} (m : SE G ObjErr A) g r g' :
  (w_objects m : WM A) g = (r, g') ->
  exists r0, m g = (r0, g') /\ r = map_err WObjects r0.
Proof. unfold w_objects, se_map_err. destruct (m g) as [r0 g0]. intros [= <- <-]. eauto. Qed.

Lemma read_graph id g :
  exists r g', (w_store (ws_get_commit_graph id) : WM _) g = (r, g') /\ ws_same g g'
    /\ match r with Ok v => v = ws_graph g !! id | Err e => fault (ws_objects g) e end.
Proof.
  destruct (w_store (ws_get_commit_graph id) g) as [r g'] eqn:E. exists r, g'. split; [done |].
  apply w_store_inv in E as (r0 & E & ->). apply ws_get_commit_graph_spec in E as [Hs Hv].
  split; [done |]. destruct r0; cbn; [by apply Hv | done].
Qed.

Lemma read_object id g :
  exists r g', (w_objects (ws_get id) : WM _) g = (r, g') /\ ws_same g g'
    /\ match r with Ok v => v = ws_objects g !! id | Err e => fault (ws_objects g) e end.
Proof.
  destruct (w_objects (ws_get id) g) as [r g'] eqn:E. exists r, g'. split; [done |].
  apply w_objects_inv in E as (r0 & E & ->). apply ws_get_spec in E as [Hs Hv].
  split; [done |]. destruct r0; cbn; [by apply Hv | done].
Qed.

Lemma parse_commit_spec id g :
  exists r g', parse_commit id g = (r, g') /\ ws_same g g'
    /\ match r with Ok c => commit_at (ws_objects g) id = Some c | Err e => fault (ws_objects g) e end.
Proof.
  unfold parse_commit, se_bind. destruct (read_object id g) as (r & g' & -> & Hs & Hr).
  destruct r as [[[kind body] |] | e]; [| by eexists _, g' | by eexists _, g'].
  unfold commit_at. rewrite <- Hr. case_decide as Hk.
  - eexists _, g'. split; [done | split; [done |]]. by exists body.
  - subst kind. unfold se_lift. eexists _, g'. split; [done | split; [done |]].
    destruct (commit_ref body (oid_kind id)) eqn:E; [done |]. cbn. by exists KCommit, body.
Qed.

Lemma read_stored trust c g :
  exists r g', stored_record trust c g = (r, g') /\ ws_same g g'
    /\ match r with
       | Ok v => v = if trust then ws_graph g !! c else None
       | Err e => fault (ws_objects g) e
       end.
Proof. unfold stored_record. destruct trust; [apply read_graph | by eexists _, g]. Qed.

Lemma read_parsed parsed c g :
  (forall id e, parsed !! id = Some e -> commit_at (ws_objects g) id = Some e) ->
  exists r g', parsed_entry parsed c g = (r, g') /\ ws_same g g'
    /\ match r with
       | Ok (e, parsed') => commit_at (ws_objects g) c = Some e
           /\ forall id e, parsed' !! id = Some e -> commit_at (ws_objects g) id = Some e
       | Err e => fault (ws_objects g) e
       end.
Proof.
  intros Hp. unfold parsed_entry. destruct (parsed !! c) as [e |] eqn:E.
  { eexists _, g. split; [done | split; [done |]]. auto. }
  unfold se_bind. destruct (parse_commit_spec c g) as (r & g' & -> & Hs & Hr).
  destruct r as [e | e]; eexists _, g'; (split; [done | split; [done |]]); [| done].
  split; [done |]. intros id e'. destruct (decide (id = c)) as [-> | Hne].
  - rewrite lookup_insert_eq. by intros [= <-].
  - rewrite lookup_insert_ne by done. apply Hp.
Qed.

Section exactness.
Context (ex : Prop).

(** ** The traversal's invariant *)

(** The commits whose records count as settled. *)
Definition settled (trust : bool) (graph : gmap Oid Rec) (gens : gmap Oid Z) : gset Oid :=
  if trust then dom graph else dom gens.

Record graph_inv (m : Objects) (trust : bool) (target : Oid) (g : G)
    (parsed : gmap Oid (Oid * list Oid)) (gens : gmap Oid Z) (res : option Rec) : Prop := {
  inv_objects : ws_objects g = m;
  inv_good : graph_good ex m (ws_graph g) (settled trust (ws_graph g) gens);
  inv_gens : forall id n, gens !! id = Some n ->
    id ∈ settled trust (ws_graph g) gens /\ gen_of (ws_graph g) id = n;
  inv_parsed : forall id e, parsed !! id = Some e -> commit_at m id = Some e;
  inv_res : target ∈ settled trust (ws_graph g) gens ->
    exists r, res = Some r /\ ws_graph g !! target = Some r;
}.

Lemma graph_inv_same m trust target g g' parsed gens res :
  ws_same g g' -> graph_inv m trust target g parsed gens res ->
  graph_inv m trust target g' parsed gens res.
Proof. intros (Ho & Hg & _) []. by split; rewrite ?Ho, ?Hg. Qed.

Lemma foldr_max_nonneg l : (0 <= foldr Z.max 0 l)%Z.
Proof. induction l as [| x l IH]; cbn; lia. Qed.

Lemma foldr_max_le l b : (0 <= b)%Z -> (forall x, x ∈ l -> (x <= b)%Z) -> (foldr Z.max 0 l <= b)%Z.
Proof.
  intros Hb. induction l as [| x l IH]; cbn; intros H; [lia |].
  specialize (H x (list_elem_of_here _ _)) as Hx.
  assert (foldr Z.max 0 l <= b)%Z by (apply IH; intros y Hy; apply H; by right). lia.
Qed.

Lemma foldr_max_ge l x : x ∈ l -> (x <= foldr Z.max 0 l)%Z.
Proof. induction 1 as [x l | x y l _ IH]; cbn; lia. Qed.

(** Generations are at least one and bounded by the rank, and a parent's is
    smaller. *)
Lemma good_gen m graph D rank id :
  graph_good ex m graph D -> ex -> ranked m rank -> id ∈ D ->
  (1 <= gen_of graph id <= Z.of_nat (rank id) + 1)%Z.
Proof.
  intros Hg Hex Hr. remember (rank id) as n eqn:En. revert id En.
  induction n as [n IH] using lt_wf_ind. intros id -> Hid.
  destruct (Hg id Hid) as (r & Hl & Hc & Hx). destruct (Hx Hex) as [Hp Hgen].
  unfold gen_of at 1 2. rewrite Hl, Hgen. destruct (Hr _ _ _ Hc) as [_ Hrank].
  pose proof (foldr_max_nonneg (gen_of graph <$> parents r)).
  enough (foldr Z.max 0 (gen_of graph <$> parents r) <= Z.of_nat (rank id))%Z by lia.
  apply foldr_max_le; [lia |]. intros x (p & -> & Hpin)%list_elem_of_fmap.
  specialize (IH (rank p) (Hrank p Hpin) p eq_refl (Hp p Hpin)). specialize (Hrank p Hpin). lia.
Qed.

Lemma good_parent_gen m graph D id r p :
  graph_good ex m graph D -> ex -> id ∈ D -> graph !! id = Some r -> p ∈ parents r ->
  (gen_of graph p < generation r)%Z.
Proof.
  intros Hg Hex Hid Hl Hp. destruct (Hg id Hid) as (r' & Hl' & _ & Hx). destruct (Hx Hex) as [_ Hgen].
  assert (r' = r) as -> by congruence. rewrite Hgen.
  enough (gen_of graph p <= foldr Z.max 0 (gen_of graph <$> parents r))%Z by lia.
  apply foldr_max_ge. by apply list_elem_of_fmap_2.
Qed.

(** A commit whose parents are all settled gets the exact record. *)
Lemma good_insert m graph D c t ps n :
  graph_good ex m graph D -> commit_at m c = Some (t, ps) -> c ∉ D -> (forall p, p ∈ ps -> p ∈ D) ->
  (ex -> n = (1 + foldr Z.max 0 (gen_of graph <$> ps))%Z) ->
  graph_good ex m (<[c := mkCommitGraph n t ps]> graph) ({[c]} ∪ D).
Proof.
  intros Hg Hc Hnew Hps Hn.
  assert (forall l : list Oid, (forall p, p ∈ l -> p ∈ D) ->
    gen_of (<[c := mkCommitGraph n t ps]> graph) <$> l = gen_of graph <$> l) as Hsame.
  { intros l Hl. apply list_fmap_ext. intros i p Hp%list_elem_of_lookup_2.
    unfold gen_of. rewrite lookup_insert_ne; [done |]. intros ->. by apply Hnew, Hl. }
  intros id [->%elem_of_singleton | Hid]%elem_of_union.
  - eexists. rewrite lookup_insert_eq. split; [done |]. cbn [root_tree parents generation].
    split; [done |]. intros Hex. split; [set_solver |]. rewrite Hsame by done. auto.
  - destruct (Hg id Hid) as (r & Hl & Hcr & Hx). exists r.
    rewrite lookup_insert_ne by (intros ->; done). split; [done | split; [done |]].
    intros Hex. destruct (Hx Hex) as [Hp Hgen]. split; [set_solver |]. by rewrite Hsame.
Qed.

(** Generations of an acyclic history fit their 32 bits. *)
Lemma generation_fits m graph D rank c t ps :
  graph_good ex m graph D -> ex -> ranked m rank -> commit_at m c = Some (t, ps) ->
  (forall p, p ∈ ps -> p ∈ D) ->
  wrap 32 (1 + foldr Z.max 0 (gen_of graph <$> ps))%Z = (1 + foldr Z.max 0 (gen_of graph <$> ps))%Z.
Proof.
  intros Hg Hex Hr Hc Hps. unfold wrap. apply Z.mod_small.
  split; [pose proof (foldr_max_nonneg (gen_of graph <$> ps)); lia |].
  destruct (Hr _ _ _ Hc) as [Hmax Hrank].
  enough (foldr Z.max 0 (gen_of graph <$> ps) <= Z.of_nat (rank c))%Z by lia.
  apply foldr_max_le; [lia |]. intros x (p & -> & Hp)%list_elem_of_fmap.
  pose proof (good_gen _ _ _ _ _ Hg Hex Hr (Hps p Hp)). specialize (Hrank p Hp). lia.
Qed.

Lemma next_generation_exact m trust target g parsed gens res rank c t ps :
  graph_inv m trust target g parsed gens res -> ex -> ranked m rank ->
  commit_at m c = Some (t, ps) -> (forall p, p ∈ ps -> is_Some (gens !! p)) ->
  next_generation gens ps = (1 + foldr Z.max 0 (gen_of (ws_graph g) <$> ps))%Z.
Proof.
  intros Hinv Hex Hr Hc Hps. unfold next_generation.
  assert (omap (gens !!.) ps = gen_of (ws_graph g) <$> ps) as ->.
  { clear Hc. induction ps as [| p ps IH]; [done |].
    destruct (Hps p (list_elem_of_here _ _)) as [n Hn]. cbn. rewrite Hn. f_equal.
    - symmetry. by eapply inv_gens.
    - apply IH. intros q Hq. apply Hps. by right. }
  eapply generation_fits; [apply (inv_good _ _ _ _ _ _ _ Hinv) | done..|].
  intros p Hp. destruct (Hps p Hp) as [n Hn]. by destruct (inv_gens _ _ _ _ _ _ _ Hinv _ _ Hn).
Qed.

Lemma wrap32_range n : is_u32 (wrap 32 n).
Proof. unfold is_u32, wrap. apply Z.mod_pos_bound. lia. Qed.

(** The record of a commit of a ranked history fits. *)
Lemma record_fits m rank c t ps n :
  ranked m rank -> commit_at m c = Some (t, ps) -> is_u32 n -> graph_fits (oid_kind c) (mkCommitGraph n t ps).
Proof.
  intros Hr Hc Hn. destruct (Hr _ _ _ Hc) as [[Hl _] _]. split; [| done].
  unfold commit_at in Hc. destruct (m !! c) as [[[] body] |]; try done.
  destruct (commit_ref body (oid_kind c)) as [x |] eqn:E; [| done]. injection Hc as ->.
  apply commit_ref_kind in E as [Ht Hps]. done.
Qed.

Lemma settled_insert_lookup trust (graph : gmap Oid Rec) (gens : gmap Oid Z) c r n :
  settled trust (<[c := r]> graph) (<[c := n]> gens) = {[c]} ∪ settled trust graph gens.
Proof. unfold settled. destruct trust; by rewrite dom_insert_L. Qed.

(** Writing the record of a commit whose parents are settled. *)
Lemma graph_inv_write m trust target g g' parsed gens res rank c t ps :
  graph_inv m trust target g parsed gens res -> ranked m rank ->
  commit_at m c = Some (t, ps) -> c ∉ settled trust (ws_graph g) gens -> gens !! c = None ->
  (forall p, p ∈ ps -> is_Some (gens !! p)) ->
  ws_objects g' = ws_objects g ->
  let record := mkCommitGraph (next_generation gens ps) t ps in
  ws_graph g' = <[c := record]> (ws_graph g) ->
  graph_inv m trust target g' parsed (<[c := next_generation gens ps]> gens)
    (if decide (c = target) then Some record else res).
Proof.
  intros Hinv Hr Hc Hnew Hnone Hps Ho record Hg'.
  assert (ex -> _) as Hgen
    by (intros Hex; exact (next_generation_exact _ _ _ _ _ _ _ _ _ _ _ Hinv Hex Hr Hc Hps)).
  destruct Hinv as [Hm Hgood Hgens Hparsed Hres].
  split; rewrite ?Ho, ?Hg', ?settled_insert_lookup; [done | | | done |].
  - apply good_insert; [done | done | done | | done].
    intros p Hp. destruct (Hps p Hp) as [n Hn]. by eapply Hgens.
  - intros id n. destruct (decide (id = c)) as [-> | Hne].
    + rewrite lookup_insert_eq. intros [= <-]. split; [set_solver |].
      unfold gen_of. by rewrite lookup_insert_eq.
    + rewrite lookup_insert_ne by done. intros Hn. destruct (Hgens id n Hn) as [Hd Hg].
      split; [set_solver |]. unfold gen_of. by rewrite lookup_insert_ne.
  - intros Ht. case_decide as E.
    + subst c. exists record. by rewrite lookup_insert_eq.
    + apply elem_of_union in Ht as [Ht%elem_of_singleton | Ht]; [by subst |].
      destruct (Hres Ht) as (r & -> & Hl). exists r. by rewrite lookup_insert_ne.
Qed.

(** A failed write of that record leaves the trusted graph sound. *)
Lemma good_after_write m target g g' parsed gens res rank c t ps :
  graph_inv m true target g parsed gens res -> ranked m rank ->
  commit_at m c = Some (t, ps) -> ws_graph g !! c = None ->
  (forall p, p ∈ ps -> is_Some (gens !! p)) ->
  ws_graph g' = <[c := mkCommitGraph (next_generation gens ps) t ps]> (ws_graph g)
    \/ ws_graph g' = ws_graph g ->
  graph_good ex m (ws_graph g') (dom (ws_graph g')).
Proof.
  intros Hinv Hr Hc Hnone Hps [-> | ->]; [| by apply (inv_good _ _ _ _ _ _ _ Hinv)].
  rewrite dom_insert_L. assert (ex -> _) as Hgen
    by (intros Hex; exact (next_generation_exact _ _ _ _ _ _ _ _ _ _ _ Hinv Hex Hr Hc Hps)).
  apply good_insert; [by apply (inv_good _ _ _ _ _ _ _ Hinv) | done | | | done].
  - by apply not_elem_of_dom.
  - intros p Hp. destruct (Hps p Hp) as [n Hn].
    by apply (inv_gens _ _ _ _ _ _ _ Hinv) in Hn as [? _].
Qed.

(** ** One pass *)

Lemma filter_none_nil (gens : gmap Oid Z) ps :
  filter (fun p => gens !! p = None) ps = [] -> forall p, p ∈ ps -> is_Some (gens !! p).
Proof.
  intros Hf p Hp. destruct (gens !! p) eqn:E; [done |].
  assert (p ∈ filter (fun p => gens !! p = None) ps) as Hin by (by apply list_elem_of_filter).
  rewrite Hf in Hin. by apply not_elem_of_nil in Hin.
Qed.

(** How a pass over the top [c] of the stack ends: an error, [c] resolved, or
    its missing parents pushed. *)
Lemma graph_step m trust target g parsed gens res rank c stack :
  graph_inv m trust target g parsed gens res -> ranked m rank ->
  (exists e g', fault m e /\ ws_objects g' = m
     /\ (trust = true -> graph_good ex m (ws_graph g') (dom (ws_graph g')))
     /\ forall f, graph_loop (S f) trust target (c :: stack) parsed gens res g = (Err e, g'))
  \/ (exists parsed' gens' res' g', graph_inv m trust target g' parsed' gens' res'
     /\ gens ⊆ gens' /\ is_Some (gens' !! c)
     /\ (forall id, id <> c -> gens' !! id = gens !! id)
     /\ forall f, graph_loop (S f) trust target (c :: stack) parsed gens res g
                  = graph_loop f trust target stack parsed' gens' res' g')
  \/ (exists parsed' g' t ps, graph_inv m trust target g' parsed' gens res
     /\ gens !! c = None /\ commit_at m c = Some (t, ps)
     /\ filter (fun p => gens !! p = None) ps <> []
     /\ forall f, graph_loop (S f) trust target (c :: stack) parsed gens res g
                  = graph_loop f trust target
                      (rev (filter (fun p => gens !! p = None) ps) ++ c :: stack)
                      parsed' gens res g').
Proof.
  intros Hinv Hr. cbn [graph_loop].
  destruct (gens !! c) as [n |] eqn:Hgc.
  { right; left. exists parsed, gens, res, g. rewrite Hgc. done. }
  destruct (read_stored trust c g) as (r & g1 & Hread & Hs1 & Hr1).
  pose proof (graph_inv_same _ _ _ _ _ _ _ _ Hs1 Hinv) as Hinv1.
  unfold se_bind. rewrite Hread.
  destruct r as [[record |] | e].
  - right; left. destruct trust; [| done]. symmetry in Hr1.
    exists parsed, (<[c := generation record]> gens), res, g1.
    split; [| split; [by apply insert_subseteq | split; [by rewrite lookup_insert_eq |]]].
    2: { split; [by intros; rewrite lookup_insert_ne | done]. }
    destruct Hs1 as (_ & Hg1 & _). destruct Hinv1 as [? ? Hgens ? ?]. split; try done.
    cbn [settled] in *. intros id n. destruct (decide (id = c)) as [-> | Hne].
    + rewrite lookup_insert_eq. intros [= <-]. rewrite Hg1. split; [by eapply elem_of_dom_2 |].
      unfold gen_of. by rewrite Hr1.
    + rewrite lookup_insert_ne by done. apply Hgens.
  - assert (c ∉ settled trust (ws_graph g1) gens) as Hnew.
    { destruct Hs1 as (_ & -> & _). destruct trust; cbn [settled];
        by apply not_elem_of_dom. }
    destruct (read_parsed parsed c g1) as (r2 & g2 & Hparse & Hs2 & Hr2).
    { rewrite (inv_objects _ _ _ _ _ _ _ Hinv1). apply Hinv1. }
    rewrite (inv_objects _ _ _ _ _ _ _ Hinv1) in Hr2.
    pose proof (graph_inv_same _ _ _ _ _ _ _ _ Hs2 Hinv1) as Hinv2.
    rewrite Hparse. destruct r2 as [[[t ps] parsed'] | e].
    2: { left. exists e, g2. split; [done | split; [apply Hinv2 | split; [| done]]].
         intros ->. apply (inv_good _ _ _ _ _ _ _ Hinv2). }
    destruct Hr2 as [Hc Hparsed'].
    assert (graph_inv m trust target g2 parsed' gens res) as Hinv3 by (destruct Hinv2; by split).
    destruct Hs2 as (_ & Hg2 & _). rewrite <- Hg2 in Hnew.
    destruct (filter (fun p => gens !! p = None) ps) as [| x missing] eqn:Hf.
    + pose proof (filter_none_nil _ _ Hf) as Hps.
      destruct (w_store (ws_put_commit_graph c (mkCommitGraph (next_generation gens ps) t ps)) g2)
        as [rw g3] eqn:Hw.
      apply w_store_inv in Hw as (r0 & Hput & ->).
      apply ws_put_commit_graph_spec in Hput as (Ho3 & _ & Hg3).
      destruct r0 as [[] | e]; cbn [map_err].
      * destruct Hg3 as [(rec' & Hg3 & Hfit) | (_ & e & [=])]. rewrite Hfit in Hg3
          by (eapply record_fits; [done | done | apply wrap32_range]). right; left.
        exists parsed', (<[c := next_generation gens ps]> gens), (if decide (c = target) then
          Some (mkCommitGraph (next_generation gens ps) t ps) else res), g3.
        split; [by eapply graph_inv_write |].
        split; [by apply insert_subseteq | split; [by rewrite lookup_insert_eq |]].
        split; [by intros; rewrite lookup_insert_ne | done].
      * left. exists (WStore e), g3. split; [done | split; [by rewrite Ho3; apply Hinv3 | split; [| done]]].
        intros ->. eapply (good_after_write m target g2); try done.
        { by apply not_elem_of_dom. }
        destruct Hg3 as [(rec' & Hg3 & Hfit) | [Hg3 _]]; [left | by right]. rewrite Hg3, Hfit; [done |].
        eapply record_fits; [done | done | apply wrap32_range].
    + right; right. exists parsed', g2, t, ps. rewrite Hf. done.
  - left. exists e, g1. rewrite (inv_objects _ _ _ _ _ _ _ Hinv) in Hr1.
    split; [done | split; [apply Hinv1 | split; [| done]]].
    intros ->. apply (inv_good _ _ _ _ _ _ _ Hinv1).
Qed.

(** ** The bound on passes *)

Lemma visit_cost_mono m (paid paid' : gset Oid) id :
  paid ⊆ paid' -> visit_cost m paid' id <= visit_cost m paid id.
Proof.
  intros Hsub. unfold visit_cost. repeat case_decide; try lia. set_solver.
Qed.

Lemma cost_mono m (paid paid' : gset Oid) : paid ⊆ paid' -> cost m paid' <= cost m paid.
Proof. intros Hsub. apply sum_list_mono. intros id. by apply visit_cost_mono. Qed.

Lemma cost_drop m (paid paid' : gset Oid) c t ps :
  paid ⊆ paid' -> c ∉ paid -> c ∈ paid' -> commit_at m c = Some (t, ps) ->
  cost m paid' + (2 + length ps) <= cost m paid.
Proof.
  intros Hsub Hn Hs Hc. apply (sum_list_drop _ _ _ c).
  - unfold commit_at in Hc. destruct (m !! c) as [kb |] eqn:E; [| done].
    apply list_elem_of_fmap. exists (c, kb). split; [done |]. by apply elem_of_map_to_list.
  - intros id. by apply visit_cost_mono.
  - unfold visit_cost. by rewrite decide_True, decide_False, Hc by done.
Qed.

(** ** Total correctness of the traversal

    Running the stack's top to its end: within the bound, the loop either
    fails or pops it with the commits and everything they needed resolved.
    [blocked] are the commits below, waiting for their parents: they are of
    higher rank and their passes are paid for. *)

Definition visited (m : Objects) (rank : Oid -> nat) (trust : bool) (target : Oid)
    (blocked : gset Oid) (r k : nat) (top rest : list Oid)
    (parsed : gmap Oid (Oid * list Oid)) (gens : gmap Oid Z) (res : option Rec) (g : G) : Prop :=
  (exists e g', fault m e /\ ws_objects g' = m
     /\ (trust = true -> graph_good ex m (ws_graph g') (dom (ws_graph g')))
     /\ k <= cost m (dom gens ∪ blocked) + length top
     /\ forall f, graph_loop (k + f) trust target (top ++ rest) parsed gens res g = (Err e, g'))
  \/ (exists parsed' gens' res' g', graph_inv m trust target g' parsed' gens' res'
     /\ gens ⊆ gens' /\ (forall c, c ∈ top -> c ∈ dom gens')
     /\ (forall id, id ∈ dom gens' -> id ∈ dom gens \/ rank id <= r)
     /\ k + cost m (dom gens' ∪ blocked) <= cost m (dom gens ∪ blocked) + length top
     /\ forall f, graph_loop (k + f) trust target (top ++ rest) parsed gens res g
                  = graph_loop f trust target rest parsed' gens' res' g').

Lemma visit_list m rank trust target blocked r :
  (forall c rest parsed gens res g, rank c <= r -> graph_inv m trust target g parsed gens res ->
     exists k, visited m rank trust target blocked r k [c] rest parsed gens res g) ->
  forall top rest parsed gens res g, (forall c, c ∈ top -> rank c <= r) ->
    graph_inv m trust target g parsed gens res ->
    exists k, visited m rank trust target blocked r k top rest parsed gens res g.
Proof.
  intros Hone top. induction top as [| c top IH]; intros rest parsed gens res g Hrank Hinv.
  { exists 0. right. exists parsed, gens, res, g. split; [done | split; [done |]].
    split; [by intros c ?%not_elem_of_nil |]. split; [by left |]. split; [cbn; lia | done]. }
  destruct (Hone c (top ++ rest) parsed gens res g) as (k1 & [Herr | Hok]);
    [apply Hrank; by left | done | |].
  - destruct Herr as (e & g' & ? & ? & ? & Hk & Hrun). exists k1. left. exists e, g'.
    split_and!; try done. cbn in *. lia.
  - destruct Hok as (parsed1 & gens1 & res1 & g1 & Hinv1 & Hsub1 & Hc1 & Hnew1 & Hk1 & Hrun1).
    destruct (IH rest parsed1 gens1 res1 g1) as (k2 & [Herr | Hok]);
      [intros d Hd; apply Hrank; by right | done | |].
    + destruct Herr as (e & g' & ? & ? & ? & Hk & Hrun). exists (k1 + k2). left. exists e, g'.
      split_and!; try done; [cbn in *; lia |]. intros f. rewrite <- Nat.add_assoc.
      cbn [app]. change (c :: top ++ rest) with ([c] ++ top ++ rest). by rewrite Hrun1.
    + destruct Hok as (parsed2 & gens2 & res2 & g2 & Hinv2 & Hsub2 & Hc2 & Hnew2 & Hk2 & Hrun2).
      exists (k1 + k2). right. exists parsed2, gens2, res2, g2.
      split; [done | split; [by etrans |]]. split; [| split; [| split; [cbn in *; lia |]]].
      * intros d [-> | Hd]%elem_of_cons; [| by apply Hc2].
        apply (subseteq_dom _ _ Hsub2). apply Hc1. by left.
      * intros id [Hid | ?]%Hnew2; [| by right]. by apply Hnew1.
      * intros f. rewrite <- Nat.add_assoc.
        cbn [app]. change (c :: top ++ rest) with ([c] ++ top ++ rest). by rewrite Hrun1.
Qed.

(** With its parents resolved, the next pass over a commit is its last. *)
Lemma visit_ready m rank trust target blocked r c t ps rest parsed gens res g :
  ranked m rank -> graph_inv m trust target g parsed gens res ->
  commit_at m c = Some (t, ps) -> (forall p, p ∈ ps -> p ∈ dom gens) -> rank c <= r ->
  visited m rank trust target blocked r 1 [c] rest parsed gens res g.
Proof.
  intros Hr Hinv Hc Hps Hrc.
  destruct (graph_step m trust target g parsed gens res rank c rest Hinv Hr)
    as [(e & g' & ? & ? & ? & Hrun) | [Hdone | (? & ? & t' & ps' & _ & _ & Hc' & Hne & _)]].
  - left. exists e, g'. split_and!; try done. cbn. lia.
  - right. destruct Hdone as (parsed' & gens' & res' & g' & Hinv' & Hsub & Hs & Hne & Hrun).
    exists parsed', gens', res', g'. split; [done | split; [done |]].
    split; [by intros d ->%list_elem_of_singleton; apply elem_of_dom |].
    split; [| split; [| done]].
    + intros id Hid. destruct (decide (id = c)) as [-> |]; [by right | left].
      apply elem_of_dom. apply elem_of_dom in Hid. by rewrite <- Hne.
    + pose proof (subseteq_dom _ _ Hsub).
      pose proof (cost_mono m (dom gens ∪ blocked) (dom gens' ∪ blocked) ltac:(set_solver)). cbn. lia.
  - exfalso. rewrite Hc in Hc'. injection Hc' as <- <-. apply Hne.
    destruct (filter _ ps) as [| p l] eqn:Hf; [done |]. exfalso.
    assert (p ∈ filter (fun p => gens !! p = None) ps) as Hp by (rewrite Hf; by left).
    apply list_elem_of_filter in Hp as [Hn Hp]. apply Hps, elem_of_dom in Hp as [? Hp]. congruence.
Qed.

Lemma visit_one m rank trust target :
  ranked m rank -> forall r blocked c rest parsed gens res g,
  (forall b, b ∈ blocked -> r < rank b) -> rank c <= r ->
  graph_inv m trust target g parsed gens res ->
  exists k, visited m rank trust target blocked r k [c] rest parsed gens res g.
Proof.
  intros Hr r. induction r as [r IHr] using lt_wf_ind.
  intros blocked c rest parsed gens res g Hb Hc Hinv.
  destruct (graph_step m trust target g parsed gens res rank c rest Hinv Hr)
    as [(e & g' & ? & ? & ? & Hrun) | [Hdone | Hpush]].
  - exists 1. left. exists e, g'. split_and!; try done. cbn. lia.
  - exists 1. right. destruct Hdone as (parsed' & gens' & res' & g' & Hinv' & Hsub & Hs & Hne & Hrun).
    exists parsed', gens', res', g'. split; [done | split; [done |]].
    split; [by intros d ->%list_elem_of_singleton; apply elem_of_dom |].
    pose proof (subseteq_dom _ _ Hsub).
    split; [| split; [| done]].
    + intros id Hid. destruct (decide (id = c)) as [-> |]; [by right | left].
      apply elem_of_dom. apply elem_of_dom in Hid. by rewrite <- Hne.
    + pose proof (cost_mono m (dom gens ∪ blocked) (dom gens' ∪ blocked) ltac:(set_solver)). cbn. lia.
  - destruct Hpush as (parsed1 & g1 & t & ps & Hinv1 & Hgc & Hcm & Hne & Hrun1).
    set (missing := filter (fun p => gens !! p = None) ps) in *.
    destruct (Hr _ _ _ Hcm) as [_ Hps].
    assert (forall p, p ∈ rev missing -> rank p < rank c) as Hmr.
    { intros p Hp%list_elem_of_In%in_rev%list_elem_of_In.
      apply list_elem_of_filter in Hp as [_ Hp]. by apply Hps. }
    assert (length (rev missing) <= length ps) as Hml
      by (rewrite length_rev; apply length_filter).
    assert (0 < rank c) as Hpos.
    { destruct missing as [| p l] eqn:E; [done |].
      assert (p ∈ rev (p :: l)) as Hp by (apply list_elem_of_In, in_rev; rewrite rev_involutive; by left).
      specialize (Hmr p Hp). lia. }
    assert (c ∉ dom gens ∪ blocked) as Hunpaid.
    { intros [Hd%elem_of_dom | Hd]%elem_of_union; [by destruct Hd; congruence |].
      specialize (Hb c Hd). lia. }
    pose proof (cost_drop m (dom gens ∪ blocked) (dom gens ∪ ({[c]} ∪ blocked)) c t ps
      ltac:(set_solver) Hunpaid ltac:(set_solver) Hcm) as Hcost.
    destruct (visit_list m rank trust target ({[c]} ∪ blocked) (rank c - 1)) with
      (top := rev missing) (rest := [c] ++ rest) (parsed := parsed1) (gens := gens) (res := res)
      (g := g1) as (k1 & [Herr | Hok]).
    { intros c' rest' p' gs' rs' s' Hc' Hi'. apply IHr; [lia | | done | done].
      intros b [->%elem_of_singleton | Hbb]%elem_of_union; [lia |]. specialize (Hb b Hbb). lia. }
    { intros p Hp. specialize (Hmr p Hp). lia. }
    { done. }
    + destruct Herr as (e & g' & ? & ? & ? & Hk & Hrun). exists (S k1). left. exists e, g'.
      split_and!; try done; [cbn; lia |].
      intros f. rewrite Nat.add_succ_l. change ([c] ++ rest) with (c :: rest). by rewrite Hrun1.
    + destruct Hok as (parsed2 & gens2 & res2 & g2 & Hinv2 & Hsub2 & Hs2 & Hnew2 & Hk2 & Hrun2).
      destruct (visit_ready m rank trust target blocked r c t ps rest parsed2 gens2 res2 g2 Hr Hinv2 Hcm)
        as [Herr | Hok].
      { intros p Hp. destruct (decide (p ∈ dom gens)) as [Hd | Hd].
        - by apply (subseteq_dom _ _ Hsub2).
        - apply Hs2. apply list_elem_of_In, in_rev. rewrite rev_involutive.
          apply list_elem_of_In, list_elem_of_filter. split; [| done]. by apply not_elem_of_dom. }
      { done. }
      * destruct Herr as (e & g' & ? & ? & ? & Hk & Hrun). exists (S (k1 + 1)). left. exists e, g'.
        split_and!; try done; [cbn; lia |].
        intros f. rewrite Nat.add_succ_l. change ([c] ++ rest) with (c :: rest).
        by rewrite Hrun1, <- Nat.add_assoc, Hrun2.
      * destruct Hok as (parsed3 & gens3 & res3 & g3 & Hinv3 & Hsub3 & Hs3 & Hne3 & Hk3 & Hrun3).
        exists (S (k1 + 1)). right. exists parsed3, gens3, res3, g3.
        split; [done | split; [by etrans | split; [done |]]]. split; [| split].
        -- intros id [Hid | ?]%Hne3; [| by right]. apply Hnew2 in Hid as [? | ?]; [by left | right; lia].
        -- specialize (Hs3 c (list_elem_of_here _ _)). pose proof (subseteq_dom _ _ Hsub3).
           pose proof (cost_mono m (dom gens2 ∪ ({[c]} ∪ blocked)) (dom gens3 ∪ blocked)
             ltac:(set_solver)). cbn. lia.
        -- intros f. rewrite Nat.add_succ_l. change ([c] ++ rest) with (c :: rest).
           by rewrite Hrun1, <- Nat.add_assoc, Hrun2, Hrun3.
Qed.

(** ** The operations *)

(** A soundly recorded commit graph. *)
Definition graph_wf (g : G) : Prop := graph_good ex (ws_objects g) (ws_graph g) (dom (ws_graph g)).

(** The record a commit object calls for. *)
Definition record_of (g : G) (id : Oid) (r : Rec) : Prop :=
  ws_graph g !! id = Some r /\ commit_at (ws_objects g) id = Some (root_tree r, parents r).

Lemma get_commit_info_total fuel rank id g :
  graph_wf g -> ranked (ws_objects g) rank -> graph_fuel (ws_objects g) <= fuel ->
  let '(r, g') := get_commit_info fuel id g in
  ws_objects g' = ws_objects g /\ graph_wf g'
  /\ match r with Ok rec => record_of g' id rec | Err e => fault (ws_objects g) e end.
Proof.
  intros Hwf Hr Hfuel. unfold get_commit_info, se_bind.
  destruct (read_graph id g) as (r & g1 & -> & (Ho1 & Hg1 & _) & Hrd).
  assert (graph_wf g1) as Hwf1 by (unfold graph_wf; by rewrite Ho1, Hg1).
  destruct r as [[rec |] | e]; [| | done].
  { split; [done | split; [done |]]. unfold se_ret. symmetry in Hrd. unfold record_of.
    rewrite Hg1, Ho1. split; [done |].
    destruct (Hwf id) as (r & Hl & Hc & _); [by eapply elem_of_dom_2 |]. congruence. }
  unfold backfill_commit_info, se_bind.
  assert (graph_inv (ws_objects g1) true id g1 ∅ ∅ None) as Hinv.
  { split; [done | exact Hwf1 | | |]; cbn [settled].
    - intros ? ?. by rewrite lookup_empty.
    - intros ? ?. by rewrite lookup_empty.
    - intros [rec Hd]%elem_of_dom. congruence. }
  rewrite <- Ho1 in Hr, Hfuel.
  destruct (visit_one (ws_objects g1) rank true id Hr (rank id) ∅ id [] ∅ ∅ None g1)
    as (k & Hk); [set_solver | done | done |].
  unfold graph_fuel in Hfuel. unfold visited in Hk. rewrite dom_empty_L, union_empty_l_L in Hk.
  destruct Hk as [Herr | Hok].
  - destruct Herr as (e & g' & He & Ho & Hgood & Hk & Hrun). cbn [length app] in *.
    replace fuel with (k + (fuel - k)) by lia. rewrite Hrun.
    split; [congruence | split; [unfold graph_wf; rewrite Ho; auto | by rewrite <- Ho1]].
  - destruct Hok as (parsed' & gens' & res' & g' & Hinv' & _ & Hs & _ & Hk & Hrun).
    cbn [length app] in *. replace fuel with (k + (fuel - k)) by lia. rewrite Hrun.
    destruct Hinv' as [Ho Hgood Hgens Hparsed Hres].
    assert (forall f, graph_loop f true id [] parsed' gens' res' g' = (Ok (parsed', gens', res'), g'))
      as -> by (by destruct f).
    assert (graph_wf g') as Hwf' by (unfold graph_wf; by rewrite Ho).
    pose proof (Hs id (list_elem_of_here _ _)) as [n Hn]%elem_of_dom.
    destruct (Hgens id n Hn) as [Hd _]. destruct (Hres Hd) as (rec & -> & Hl). cbn.
    split; [congruence | split; [done |]]. split; [done |]. rewrite Ho.
    cbn [settled] in Hd. destruct (Hgood id Hd) as (r & Hl' & Hc & _). congruence.
Qed.

End exactness.

(** A trusting traversal only adds records. *)
Lemma graph_loop_grows fuel target stack parsed gens res g :
  let '(_, g') := graph_loop fuel true target stack parsed gens res g in
  ws_graph g ⊆ ws_graph g'.
Proof.
  revert stack parsed gens res g. induction fuel as [| fuel IH]; intros stack parsed gens res g;
    (destruct stack as [| c stack]; [by cbn |]); cbn [graph_loop]; [by cbn |].
  destruct (gens !! c); [apply IH |]. unfold se_bind at 1, stored_record.
  destruct (read_graph c g) as (r & g1 & -> & (_ & Hg1 & _) & Hr).
  destruct r as [[rec |] | e]; [| | by rewrite Hg1].
  { specialize (IH stack parsed (<[c := generation rec]> gens) res g1).
    destruct (graph_loop _ _ _ _ _ _ _ g1) as [x g']. by rewrite <- Hg1. }
  unfold se_bind at 1. destruct (parsed_entry parsed c g1) as [r g2] eqn:Hp.
  assert (ws_graph g2 = ws_graph g1) as Hg2.
  { unfold parsed_entry in Hp. destruct (parsed !! c); [by injection Hp as <- <- |].
    unfold se_bind in Hp. destruct (parse_commit_spec c g1) as (r0 & g0 & E & (_ & Hg0 & _) & _).
    rewrite E in Hp. destruct r0; by injection Hp as <- <-. }
  destruct r as [[[t ps] parsed'] | e]; [| by rewrite Hg2, Hg1].
  destruct (filter _ ps) as [| p missing].
  - unfold se_bind. destruct (w_store _ g2) as [rw g3] eqn:Hw.
    apply w_store_inv in Hw as (r0 & Hput & ->).
    apply ws_put_commit_graph_spec in Hput as (_ & _ & Hg3).
    assert (ws_graph g ⊆ ws_graph g3) as Hsub.
    { destruct Hg3 as [(rec' & -> & _) | [-> _]]; rewrite Hg2, Hg1; [| done]. by apply insert_subseteq. }
    destruct r0 as [[] | e]; cbn [map_err]; [| done].
    specialize (IH stack parsed' (<[c := next_generation gens ps]> gens)
      (if decide (c = target) then Some (mkCommitGraph (next_generation gens ps) t ps) else res) g3).
    destruct (graph_loop _ _ _ _ _ _ _ g3) as [x g']. by etrans.
  - specialize (IH (rev (p :: missing) ++ c :: stack) parsed' gens res g2).
    destruct (graph_loop _ _ _ _ _ _ _ g2) as [x g']. by rewrite <- Hg1, <- Hg2.
Qed.

Lemma get_commit_info_grows fuel id g :
  let '(_, g') := get_commit_info fuel id g in ws_graph g ⊆ ws_graph g'.
Proof.
  unfold get_commit_info, se_bind. destruct (read_graph id g) as (r & g1 & -> & (_ & Hg1 & _) & _).
  destruct r as [[rec |] | e]; cbn; [by rewrite Hg1 | | by rewrite Hg1].
  unfold backfill_commit_info, se_bind. pose proof (graph_loop_grows fuel id [id] ∅ ∅ None g1) as H.
  destruct (graph_loop _ _ _ _ _ _ _ g1) as [[[? res] | e] g']; cbn in *; by rewrite <- Hg1.
Qed.

(** Cut short or not, a trusting traversal leaves a sound graph. *)
Lemma graph_loop_good ex fuel m rank target stack parsed gens res g :
  ranked m rank -> graph_inv ex m true target g parsed gens res ->
  let '(_, g') := graph_loop fuel true target stack parsed gens res g in
  ws_objects g' = m /\ graph_good ex m (ws_graph g') (dom (ws_graph g')).
Proof.
  intros Hr. revert stack parsed gens res g. induction fuel as [| fuel IH]; intros stack parsed gens res g Hinv.
  { assert (ws_objects g = m /\ graph_good ex m (ws_graph g) (dom (ws_graph g))) by (split; apply Hinv).
    by destruct stack. }
  destruct stack as [| c stack]; [split; apply Hinv |].
  destruct (graph_step ex m true target g parsed gens res rank c stack Hinv Hr)
    as [(e & g' & _ & Ho & Hg & ->) | [(p' & gs' & rs' & g' & Hi & _ & _ & _ & ->) | (p' & g' & t & ps & Hi & _ & _ & _ & ->)]];
    auto.
  all: by apply IH.
Qed.

Lemma get_commit_info_keeps ex fuel rank id g :
  ranked (ws_objects g) rank -> graph_wf ex g ->
  let '(_, g') := get_commit_info fuel id g in ws_objects g' = ws_objects g /\ graph_wf ex g'.
Proof.
  intros Hr Hwf. unfold get_commit_info, se_bind. destruct (read_graph id g) as (r & g1 & -> & (Ho1 & Hg1 & _) & Hrd).
  assert (graph_wf ex g1) as Hwf1 by (unfold graph_wf; by rewrite Ho1, Hg1).
  destruct r as [[rec |] | e]; [done | | done]. unfold backfill_commit_info, se_bind.
  assert (graph_inv ex (ws_objects g) true id g1 ∅ ∅ None) as Hinv.
  { split; [done | by rewrite <- Ho1 | | |]; cbn [settled]; [by intros ? ? | by intros ? ? |].
    intros [rec Hd]%elem_of_dom. congruence. }
  pose proof (graph_loop_good ex fuel _ rank id [id] ∅ ∅ None g1 Hr Hinv) as H.
  unfold graph_wf. destruct (graph_loop _ _ _ _ _ _ _ g1) as [[[[? ?] res] | e] g']; cbn; destruct H as [-> ?]; done.
Qed.

(** The only kind a backfill asks for is a commit's, and no want is its to
    refuse. *)
Definition expects_commit {A} (r : result WE A) : Prop :=
  match r with
  | Err (UnexpectedKind _ expected _) => expected = KCommit
  | Err (UnknownWant _) | Err (UnsupportedWant _ _) => False
  | _ => True
  end.

Lemma expects_bind {A B} (f : WM A) (k : A -> WM B) g :
  expects_commit (f g).1 -> (forall a g', expects_commit (k a g').1) ->
  expects_commit (se_bind f k g).1.
Proof. unfold se_bind. destruct (f g) as [[a | e] g']; cbn [fst]; [auto | by destruct e]. Qed.

Lemma expects_store {A} (f : SE G StoreErr A) g : expects_commit ((w_store f : WM A) g).1.
Proof. unfold w_store, se_map_err. destruct (f g) as [[a | e] g']; done. Qed.

Lemma expects_parse id g : expects_commit (parse_commit id g).1.
Proof.
  apply expects_bind.
  - unfold w_objects, se_map_err. by destruct (ws_get id g) as [[] ?].
  - intros [[kind body] |] g'; [| done]. case_decide; [done |].
    unfold se_lift. by destruct (commit_ref body (oid_kind id)).
Qed.

Lemma get_commit_info_expects fuel id g : expects_commit (get_commit_info fuel id g).1.
Proof.
  assert (forall stack parsed gens res g,
    expects_commit (graph_loop fuel true id stack parsed gens res g).1) as Hloop.
  { clear. induction fuel as [| fuel IH]; intros [| c stack] parsed gens res g; cbn [graph_loop]; try done.
    destruct (gens !! c); [apply IH |]. apply expects_bind; [apply expects_store |].
    intros [rec |] g1; [apply IH |]. apply expects_bind.
    - unfold parsed_entry. destruct (parsed !! c); [done |].
      apply expects_bind; [apply expects_parse | done].
    - intros [[t ps] parsed'] g2. destruct (filter _ ps); [| apply IH].
      apply expects_bind; [apply expects_store |]. intros [] g3. apply IH. }
  apply expects_bind; [apply expects_store |]. intros [rec |] g1; [done |].
  apply expects_bind; [apply Hloop |]. intros [? [res |]] g2; done.
Qed.

(** ** Rebuilding *)

(** The commit a ref's target names, within the two depth caps, read off a
    fixed set of refs and objects; [None] for anything else. *)
Fixpoint symref_target (depth : nat) (refs : gmap bytes (RefTarget Oid)) (target : RefTarget Oid)
    : option Oid :=
  match depth with
  | O => None
  | S depth' =>
      match target with
      | Direct id => Some id
      | Reference name =>
          match refs !! name with Some next => symref_target depth' refs next | None => None end
      end
  end.

Fixpoint tag_target (depth : nat) (m : Objects) (cursor : Oid) : option Oid :=
  match depth with
  | O => None
  | S depth' =>
      match m !! cursor with
      | Some (KCommit, _) => Some cursor
      | Some (KTag, body) =>
          match tag_ref body (oid_kind cursor) with
          | Ok target => tag_target depth' m target
          | Err _ => None
          end
      | _ => None
      end
  end.

Definition tip_of (g : G) (target : RefTarget Oid) : option Oid :=
  match symref_target MAX_REBUILD_SYMREF_DEPTH (ws_refs g) target with
  | Some cursor => tag_target MAX_REBUILD_TAG_PEEL_DEPTH (ws_objects g) cursor
  | None => None
  end.

Lemma follow_symrefs_spec depth target g :
  let '(r, g') := (follow_symrefs depth target : WM _) g in
  ws_same g g'
  /\ match r with Ok o => o = symref_target depth (ws_refs g) target | Err e => fault (ws_objects g) e end.
Proof.
  revert target g. induction depth as [| depth IH]; intros target g; cbn [follow_symrefs symref_target].
  { done. }
  destruct target as [id | name]; [done |]. unfold se_bind.
  destruct (w_store (ws_get_ref name) g) as [r g1] eqn:E.
  apply w_store_inv in E as (r0 & E & ->). apply ws_get_ref_spec in E as [Hs Hv].
  destruct r0 as [v | e]; cbn [map_err]; [| done]. rewrite <- (Hv v eq_refl).
  destruct v as [next |]; [| done]. specialize (IH next g1).
  destruct (follow_symrefs depth next g1) as [r g2]. destruct IH as [Hs2 Hr].
  destruct Hs as (Ho & Hg & Hrefs), Hs2 as (Ho2 & Hg2 & Hrefs2).
  split; [split_and!; congruence |]. by rewrite <- Hrefs, <- Ho.
Qed.

Lemma peel_tip_spec depth cursor g :
  let '(r, g') := (peel_tip depth cursor : WM _) g in
  ws_same g g'
  /\ match r with Ok o => o = tag_target depth (ws_objects g) cursor | Err e => fault (ws_objects g) e end.
Proof.
  revert cursor g. induction depth as [| depth IH]; intros cursor g; cbn [peel_tip tag_target]; [done |].
  unfold se_bind. destruct (read_object cursor g) as (r & g1 & -> & Hs & Hv).
  destruct r as [v | e]; [| done]. rewrite <- Hv. destruct v as [[[] body] |]; try done.
  unfold se_lift. destruct (tag_ref body (oid_kind cursor)) as [target | e] eqn:E; [cbn [map_err] | by split; [| exists KTag, body]].
  specialize (IH target g1). destruct (peel_tip depth target g1) as [r g2].
  destruct IH as [Hs2 Hr]. destruct Hs as (Ho & Hg & Hrefs), Hs2 as (Ho2 & Hg2 & Hrefs2).
  split; [split_and!; congruence |]. by rewrite <- Ho.
Qed.

Lemma resolve_commit_tip_spec target g :
  let '(r, g') := (resolve_commit_tip target : WM _) g in
  ws_same g g' /\ match r with Ok o => o = tip_of g target | Err e => fault (ws_objects g) e end.
Proof.
  unfold resolve_commit_tip, tip_of, se_bind.
  pose proof (follow_symrefs_spec MAX_REBUILD_SYMREF_DEPTH target g) as Hf.
  destruct (follow_symrefs _ target g) as [r g1]. destruct Hf as [Hs Hr].
  destruct r as [o | e]; [| done]. subst o.
  destruct (symref_target _ _ _) as [cursor |]; [| done].
  pose proof (peel_tip_spec MAX_REBUILD_TAG_PEEL_DEPTH cursor g1) as Hp.
  destruct (peel_tip _ cursor g1) as [r g2]. destruct Hp as [Hs2 Hr].
  destruct Hs as (Ho & Hg & Hrefs), Hs2 as (Ho2 & Hg2 & Hrefs2).
  split; [split_and!; congruence |]. by rewrite <- Ho.
Qed.

Lemma each_spec {A B} (m : Objects) (f : A -> WM B) (P : G -> A -> B -> Prop) :
  (forall x g, ws_objects g = m -> let '(r, g') := f x g in
     ws_same g g' /\ match r with Ok y => P g x y | Err e => fault (ws_objects g) e end) ->
  (forall g g' x y, ws_same g g' -> P g' x y -> P g x y) ->
  forall l g, ws_objects g = m -> let '(r, g') := each f l g in
  ws_same g g' /\ match r with Ok ys => Forall2 (P g) l ys | Err e => fault (ws_objects g) e end.
Proof.
  intros Hf Hext l. induction l as [| x l IH]; intros g Hm; cbn [each]; [done |].
  unfold se_bind at 1. specialize (Hf x g Hm). destruct (f x g) as [[y | e] g1]; [| done].
  destruct Hf as [Hs Hy]. unfold se_bind.
  specialize (IH g1 ltac:(destruct Hs as (-> & _); done)).
  destruct (each f l g1) as [[ys | e] g2]; destruct IH as [Hs2 Hys];
    destruct Hs as (Ho & Hg & Hrefs), Hs2 as (Ho2 & Hg2 & Hrefs2);
    (split; [split_and!; cbn; congruence |]); [| by rewrite <- Ho].
  constructor; [done |]. eapply Forall2_impl; [exact Hys |]. intros a b. by apply Hext.
Qed.

(** What the rebuild knows between roots. *)
Definition rebuild_inv (m : Objects) (g : G) (parsed : gmap Oid (Oid * list Oid))
    (gens : gmap Oid Z) : Prop :=
  ws_objects g = m /\ graph_good True m (ws_graph g) (dom gens)
  /\ (forall id n, gens !! id = Some n -> gen_of (ws_graph g) id = n)
  /\ (forall id e, parsed !! id = Some e -> commit_at m id = Some e).

Lemma rebuild_roots_total fuel m rank roots parsed gens g :
  ranked m rank -> graph_fuel m <= fuel -> rebuild_inv m g parsed gens ->
  let '(r, g') := rebuild_roots fuel roots parsed gens g in
  match r with
  | Ok gens' => ws_objects g' = m /\ graph_good True m (ws_graph g') (dom gens')
      /\ dom gens ⊆ dom gens' /\ forall root, root ∈ roots -> root ∈ dom gens'
  | Err e => fault m e
  end.
Proof.
  intros Hr Hfuel. revert parsed gens g. induction roots as [| root roots IH];
    intros parsed gens g Hinv; cbn [rebuild_roots].
  { destruct Hinv as (Ho & Hg & _). split; [done | split; [done | split; [done |]]].
    by intros root ?%not_elem_of_nil. }
  case_decide as Hd.
  { specialize (IH parsed gens g Hinv). destruct (rebuild_roots _ _ _ _ _) as [[gens' | e] g']; [| done].
    destruct IH as (? & ? & Hsub & Hin). split_and!; try done.
    intros x [-> | Hx]%elem_of_cons; [apply Hsub; by apply elem_of_dom | by apply Hin]. }
  destruct Hinv as (Ho & Hg & Hgens & Hparsed).
  destruct (visit_one True m rank false root Hr (rank root) ∅ root [] parsed gens None g)
    as (k & Hk); [set_solver | done | |].
  { split; cbn [settled]; [done | done | | done |].
    - intros id n Hn. split; [by eapply elem_of_dom_2 | by apply Hgens].
    - intros Hdd. exfalso. by apply Hd, elem_of_dom. }
  unfold visited in Hk. rewrite union_empty_r_L in Hk. unfold graph_fuel in Hfuel.
  pose proof (cost_mono m ∅ (dom gens) ltac:(set_solver)) as Hmono.
  unfold se_bind. destruct Hk as [Herr | Hok].
  - destruct Herr as (e & g' & He & _ & _ & Hk & Hrun). cbn [length app] in *.
    replace fuel with (k + (fuel - k)) by lia. by rewrite Hrun.
  - destruct Hok as (parsed' & gens' & res' & g' & Hinv' & Hsub & Hs & _ & Hk & Hrun).
    cbn [length app] in *. specialize (Hrun (fuel - k)).
    replace (k + (fuel - k)) with fuel in Hrun by lia. rewrite Hrun.
    assert (forall f, graph_loop f false root [] parsed' gens' res' g' = (Ok (parsed', gens', res'), g'))
      as -> by (by destruct f).
    destruct Hinv' as [Ho' Hg' Hgens' Hparsed' _]. cbn [settled] in *.
    specialize (IH parsed' gens' g').
    destruct (rebuild_roots _ _ _ _ _) as [[gens2 | e] g2].
    + destruct IH as (? & ? & Hsub2 & Hin); [split_and!; try done; intros id n Hn; by apply Hgens' |].
      pose proof (subseteq_dom _ _ Hsub). split_and!; [done | done | set_solver |].
      intros x [-> | Hx]%elem_of_cons; [apply Hsub2, Hs; by left | by apply Hin].
    + apply IH. split_and!; try done. intros id n Hn. by apply Hgens'.
Qed.

(** C27: the bulk rebuild.  Whatever records were stored before, a rebuild that
    succeeds leaves, for every commit reachable from a ref that resolves to a
    commit, exactly the record its object calls for — tree, parents and
    generation one above the highest parent — and returns how many it wrote;
    it always ends within the stated bound, a failing store aside. *)
Theorem rebuild_commit_graph_correct fuel rank g :
  ranked (ws_objects g) rank -> graph_fuel (ws_objects g) <= fuel ->
  let '(r, g') := rebuild_commit_graph fuel g in
  match r with
  | Ok n => exists D, size D = n /\ graph_good True (ws_objects g) (ws_graph g') D
      /\ ws_objects g' = ws_objects g
      /\ forall name target tip, ws_refs g !! name = Some target -> tip_of g target = Some tip -> tip ∈ D
  | Err e => fault (ws_objects g) e
  end.
Proof.
  intros Hr Hfuel. unfold rebuild_commit_graph, se_bind.
  destruct (w_store ws_list_refs g) as [r g1] eqn:E.
  apply w_store_inv in E as (r0 & E & ->). apply ws_list_refs_spec in E as [(Ho1 & Hg1 & Hrefs1) Hv].
  destruct r0 as [refs | e]; cbn [map_err]; [| done]. specialize (Hv refs eq_refl).
  pose proof (each_spec (ws_objects g1) (fun nt : bytes * RefTarget Oid => resolve_commit_tip nt.2)
    (fun g nt o => o = tip_of g nt.2) (fun nt g _ => resolve_commit_tip_spec nt.2 g)) as Heach.
  specialize (Heach ltac:(intros a b x y (Ho & _ & Hrf) ->; unfold tip_of; by rewrite Ho, Hrf) refs g1 eq_refl).
  destruct (each _ refs g1) as [[tips | e] g2]; destruct Heach as [(Ho2 & _ & _) Htips];
    [| by rewrite <- Ho1].
  pose proof (rebuild_roots_total fuel (ws_objects g) rank (omap id tips) ∅ ∅ g2 Hr Hfuel) as Hroots.
  destruct (rebuild_roots _ _ _ _ g2) as [[gens | e] g3].
  2: { apply Hroots. split; [congruence | split_and!]; rewrite ?dom_empty_L; try set_solver. }
  destruct Hroots as (Ho3 & Hgood & _ & Hin).
  { split; [congruence | split_and!]; rewrite ?dom_empty_L; try set_solver. }
  destruct (w_store ws_flush g3) as [r g4] eqn:E.
  apply w_store_inv in E as (r0 & E & ->). apply ws_flush_spec in E as (Ho4 & Hg4 & _).
  destruct r0 as [[] | e]; cbn [map_err]; [| done].
  exists (dom gens). rewrite Hg4, size_dom. split_and!; [done | done | congruence |].
  intros name target tip Hname Htip. apply Hin.
  assert ((name, target) ∈ refs) as Href by (rewrite Hv; by apply elem_of_map_to_list).
  apply list_elem_of_lookup in Href as [i Hi].
  destruct (Forall2_lookup_l _ _ _ _ _ Htips Hi) as (o & Ho & ->). cbn in Ho.
  apply list_elem_of_omap. exists (tip_of g1 target). split; [by eapply list_elem_of_lookup_2 |].
  unfold tip_of. rewrite Hrefs1, Ho1. exact Htip.
Qed.

(** Lazy backfill is correct and total.  Over a soundly recorded graph and
    an acyclic history, [get_commit_info] ends within the stated bound, keeps
    the graph sound and every object as it was, and returns the record the
    commit's object calls for, which is then stored; it fails only with a
    store's failure or the fault of a commit it had to read. *)
Theorem get_commit_info_correct fuel rank id g :
  graph_wf True g -> ranked (ws_objects g) rank -> graph_fuel (ws_objects g) <= fuel ->
  let '(r, g') := get_commit_info fuel id g in
  ws_objects g' = ws_objects g /\ graph_wf True g'
  /\ match r with
     | Ok rec => record_of g' id rec
         /\ generation rec = (1 + foldr Z.max 0 (gen_of (ws_graph g') <$> parents rec))%Z
         /\ forall p, p ∈ parents rec -> (gen_of (ws_graph g') p < generation rec)%Z
     | Err e => fault (ws_objects g) e
     end.
Proof.
  intros Hwf Hr Hfuel. pose proof (get_commit_info_total True fuel rank id g Hwf Hr Hfuel) as H.
  destruct (get_commit_info fuel id g) as [[rec | e] g']; destruct H as (Ho & Hwf' & Hrec); [| done].
  split; [done | split; [done |]]. split; [done |]. destruct Hrec as [Hl Hc].
  assert (id ∈ dom (ws_graph g')) as Hd by (by eapply elem_of_dom_2).
  split.
  - destruct (Hwf' id Hd) as (r & Hl' & _ & Hx). destruct (Hx I) as [_ Hgen]. congruence.
  - intros p Hp. by eapply (good_parent_gen True).
Qed.

End graph.

(** ** A concrete history *)

(** A checkable form of [ranked]. *)
Definition ranked_b {Oid DecodeError} `{OB : ObjectLib Oid DecodeError}
    (m : gmap Oid (Kind * bytes)) (rank : Oid -> nat) : bool :=
  forallb (fun kv =>
    match commit_at m kv.1 with
    | Some (_, ps) =>
        (length ps <=? 255) && (Z.of_nat (rank kv.1) <? 2 ^ 32 - 1)%Z && forallb (fun p => rank p <? rank kv.1) ps
    | None => true
    end) (map_to_list m).

Lemma ranked_b_sound {Oid DecodeError} `{OB : ObjectLib Oid DecodeError}
    (m : gmap Oid (Kind * bytes)) rank :
  ranked_b m rank = true -> ranked m rank.
Proof.
  intros Hb id t ps Hc. unfold ranked_b in Hb. rewrite forallb_forall in Hb.
  assert (exists kb, m !! id = Some kb) as [kb Hl].
  { unfold commit_at in Hc. destruct (m !! id) eqn:E; [by eexists | done]. }
  specialize (Hb (id, kb)). cbn [fst] in Hb. rewrite Hc in Hb.
  apply andb_true_iff in Hb as [[Hl1 Hb1]%andb_true_iff Hb2];
    [| by apply list_elem_of_In, elem_of_map_to_list].
  apply Nat.leb_le in Hl1. split; [lia |]. rewrite forallb_forall in Hb2. intros p Hp%list_elem_of_In.
  by apply Hb2, Nat.ltb_lt in Hp.
Qed.

Module GraphSample.

Abbreviation info fuel id g :=
  (get_commit_info (OB := PlainObjects.lib) (WS := MemWalk.lib) fuel id g).
Abbreviation rebuild fuel g := (rebuild_commit_graph (OB := PlainObjects.lib) (WS := MemWalk.lib) fuel g).
Abbreviation top := (MemWalk.o x03).
Definition fuel : nat := 20.

(** A repository whose graph holds a wrong record. *)
Definition stale : MemWalk.world HexOid.t :=
  MemWalk.mkWorld (MemWalk.objects MemWalk.repo)
    {[MemWalk.o x02 := mkCommitGraph 9 (MemWalk.o x05) []]} (MemWalk.refs MemWalk.repo).

Lemma repo_ranked : ranked (OB := PlainObjects.lib) (MemWalk.objects MemWalk.repo) MemWalk.rank.
Proof. apply ranked_b_sound. by vm_compute. Qed.

Lemma fuel_enough : graph_fuel (OB := PlainObjects.lib) (MemWalk.objects MemWalk.repo) <= fuel.
Proof. vm_compute. lia. Qed.

Lemma repo_wf : graph_wf (OB := PlainObjects.lib) (WS := MemWalk.lib) True MemWalk.repo.
Proof. intros id Hid. cbn in Hid. by apply elem_of_dom in Hid as []. Qed.

Lemma info_top : (info fuel top MemWalk.repo).1 = Ok (mkCommitGraph 3 (MemWalk.o x04) [MemWalk.o x02]).
Proof. by vm_compute. Qed.

Lemma rebuild_stale : (rebuild fuel stale).1 = Ok 3.
Proof. by vm_compute. Qed.

End GraphSample.

Import GraphSample.

Lemma get_commit_info_correct_witness :
  record_of (OB := PlainObjects.lib) (WS := MemWalk.lib) (info fuel top MemWalk.repo).2 top
    (mkCommitGraph 3 (MemWalk.o x04) [MemWalk.o x02]).
Proof.
  pose proof (get_commit_info_correct (OB := PlainObjects.lib) (WS := MemWalk.lib) fuel MemWalk.rank
    top MemWalk.repo repo_wf repo_ranked fuel_enough) as H.
  pose proof info_top as E. destruct (get_commit_info fuel top MemWalk.repo) as [r g'].
  cbn [fst snd] in *. subst r. exact (proj1 (proj2 (proj2 H))).
Defined.

Lemma rebuild_commit_graph_correct_witness :
  exists D, size D = 3
    /\ graph_good (OB := PlainObjects.lib) True (MemWalk.objects MemWalk.repo)
         (MemWalk.graph (rebuild fuel stale).2) D.
Proof.
  pose proof (rebuild_commit_graph_correct (OB := PlainObjects.lib) (WS := MemWalk.lib) fuel MemWalk.rank
    stale repo_ranked fuel_enough) as H.
  pose proof rebuild_stale as E. destruct (rebuild_commit_graph fuel stale) as [r g'].
  cbn [fst snd] in *. subst r. destruct H as (D & Hn & Hg & _). exists D. split; [exact Hn | exact Hg].
Defined.
