(* ===== verification/Discovery.v ===== *)
(** * Commit discovery ([src/git/walk.rs], phase I)

    Which commits to send: the WANT/HAVE marking over a generation-ordered
    frontier, drained a level at a time.  The heap is its sorted sequence;
    batched prefetches run in input order. *)

From S2P Require Import Prelude Bytes GixHash Values GixObject Walk Graph.
From stdpp Require Import gmap sorting.
From Stdlib Require Import Lia.

Inductive Flag : Set := Want | Have.

#[export] Instance Flag_eq_dec : EqDecision Flag.
Proof. solve_decision. Defined.

Section discovery.
Context {Oid : Type} {OL : OidLib Oid} {StoreErr ObjErr DecodeError G : Type}.
Context {OB : ObjectLib Oid DecodeError} {WS : WalkStore Oid StoreErr ObjErr G}.

Abbreviation WE := (WalkError Oid StoreErr ObjErr DecodeError).
Abbreviation WM A := (SE G WE A).
Abbreviation Rec := (CommitGraphRecord Oid).
Abbreviation Records := (gmap Oid Rec).

Record QueueEntry : Type := mkQueueEntry { qe_generation : Z; qe_oid : Oid }.

(** [a] pops no later than [b]: higher generation first, then higher id. *)
Definition pops_before (a b : QueueEntry) : bool :=
  (qe_generation b <? qe_generation a)%Z
  || ((qe_generation a =? qe_generation b)%Z && oid_le (qe_oid b) (qe_oid a)).

(** The heap as the sequence it pops. *)
Fixpoint heap_push (e : QueueEntry) (heap : list QueueEntry) : list QueueEntry :=
  match heap with
  | [] => [e]
  | x :: heap' => if pops_before e x then e :: heap else x :: heap_push e heap'
  end.

Record Discovery : Type := mkDiscovery {
  frontier : list QueueEntry;
  state : gmap Oid Flag;
  pending : gset Oid;
}.

Definition Discovery_default : Discovery := mkDiscovery [] ∅ ∅.

Definition mark (d : Discovery) (id : Oid) (flag : Flag) (generation : Z) : Discovery :=
  let put resolved pending :=
    mkDiscovery (heap_push (mkQueueEntry generation id) (frontier d))
      (<[id := resolved]> (state d)) pending in
  match state d !! id, flag with
  | Some Have, _ | Some Want, Want => d
  | Some Want, Have => put Have (pending d ∖ {[id]})
  | None, Have => put Have (pending d)
  | None, Want => put Want ({[id]} ∪ pending d)
  end.

(** ** Prefetching *)

(** The ids not in the cache, first occurrences only. *)
Fixpoint cache_misses (cache : Records) (seen : gset Oid) (ids : list Oid) : list Oid :=
  match ids with
  | [] => []
  | id :: ids' =>
      if decide (cache !! id = None /\ (id ∉ seen))
      then id :: cache_misses cache ({[id]} ∪ seen) ids'
      else cache_misses cache seen ids'
  end.

(** Every lookup runs; each result, failures included, is kept with its id. *)
Fixpoint fetch_all (fuel : nat) (ids : list Oid) : G -> list (Oid * result WE Rec) * G :=
  match ids with
  | [] => fun g => ([], g)
  | id :: ids' => fun g =>
      let '(r, g) := get_commit_info fuel id g in
      let '(rs, g) := fetch_all fuel ids' g in
      ((id, r) :: rs, g)
  end.

Definition cache_fetched (cache : Records) (fetched : list (Oid * result WE Rec)) : Records :=
  fold_left (fun cache '(id, record) =>
    match record with Ok record => <[id := record]> cache | Err _ => cache end) fetched cache.

Definition prefetch_records (fuel : nat) (cache : Records) (ids : list Oid)
    : G -> list (Oid * result WE Rec) * Records * G :=
  fun g =>
    let '(fetched, g) := fetch_all fuel (cache_misses cache ∅ ids) g in
    (fetched, cache_fetched cache fetched, g).

(** ** The two marking passes *)

(** An unknown or non-commit have is dropped; any other failure is final. *)
Fixpoint mark_haves (fetched : list (Oid * result WE Rec)) (common : list Oid) (d : Discovery)
    : result WE (list Oid * Discovery) :=
  match fetched with
  | [] => Ok (common, d)
  | (have, record) :: fetched' =>
      match record with
      | Ok info => mark_haves fetched' (common ++ [have]) (mark d have Have (generation info))
      | Err (MissingObject missing) =>
          if decide (missing = have) then mark_haves fetched' common d else Err (MissingObject missing)
      | Err (UnexpectedKind oid expected actual) =>
          if decide (oid = have) then mark_haves fetched' common d
          else Err (UnexpectedKind oid expected actual)
      | Err err => Err err
      end
  end.

Fixpoint mark_wants (fetched : list (Oid * result WE Rec)) (d : Discovery) : result WE Discovery :=
  match fetched with
  | [] => Ok d
  | (want, record) :: fetched' =>
      let? info := record in mark_wants fetched' (mark d want Want (generation info))
  end.

(** ** The level loop *)

(** Pop the entries of one generation, keeping ids not visited before. *)
Fixpoint drain (gen : Z) (heap : list QueueEntry) (done seen : gset Oid)
    : list Oid * list QueueEntry :=
  match heap with
  | [] => ([], [])
  | e :: heap' =>
      if (qe_generation e =? gen)%Z then
        let id := qe_oid e in
        if decide ((id ∉ done) /\ (id ∉ seen)) then
          let '(level, rest) := drain gen heap' done ({[id]} ∪ seen) in (cons id level, rest)
        else drain gen heap' done seen
      else ([], heap)
  end.

Definition parents_of (records : Records) (id : Oid) : list Oid :=
  match records !! id with Some info => parents info | None => [] end.

Fixpoint first_error (fetched : list (Oid * result WE Rec)) : result WE unit :=
  match fetched with
  | [] => Ok tt
  | (_, record) :: fetched' => let? _ := record in first_error fetched'
  end.

(** [records[&parent]] panics on a parent that was not loaded. *)
Fixpoint mark_parents (records : Records) (flag : Flag) (ps : list Oid) (d : Discovery)
    : option Discovery :=
  match ps with
  | [] => Some d
  | parent :: ps' =>
      match records !! parent with
      | Some info => mark_parents records flag ps' (mark d parent flag (generation info))
      | None => None
      end
  end.

Fixpoint visit_level (records : Records) (level : list Oid) (done : gset Oid) (send : list Oid)
    (d : Discovery) : option (gset Oid * list Oid * Discovery) :=
  match level with
  | [] => Some (done, send, d)
  | id :: level' =>
      if decide (id ∈ done) then visit_level records level' done send d
      else
        let done := {[id]} ∪ done in
        match state d !! id with
        | None => visit_level records level' done send d
        | Some flag =>
            let '(send, d) :=
              match flag with
              | Want => (send ++ [id], mkDiscovery (frontier d) (state d) (pending d ∖ {[id]}))
              | Have => (send, d)
              end in
            match mark_parents records flag (parents_of records id) d with
            | Some d => visit_level records level' done send d
            | None => None
            end
        end
  end.

Fixpoint discover (fuel : nat) (records : Records) (done : gset Oid) (send : list Oid)
    (d : Discovery) : WM (list Oid * Discovery) :=
  if decide (pending d = ∅) then se_ret (send, d)
  else
    match frontier d with
    | [] => se_err (DiscoveryStalled (elements (pending d)))
    | e :: _ =>
        match fuel with
        | O => se_err OutOfFuel
        | S fuel' => fun g =>
            let '(level, rest) := drain (qe_generation e) (frontier d) done ∅ in
            let d := mkDiscovery rest (state d) (pending d) in
            let '(fetched, records, g) :=
              prefetch_records fuel records (concat (map (parents_of records) level)) g in
            match first_error fetched with
            | Err err => (Err err, g)
            | Ok _ =>
                match visit_level records level done send d with
                | Some (done, send, d) => discover fuel' records done send d g
                | None => (Err WPanicked, g)
                end
            end
        end
    end.

Definition select_commits (fuel : nat) (wants haves : list Oid) : WM (Selection Oid) := fun g =>
  let '(fetched, records, g) := prefetch_records fuel ∅ haves g in
  match mark_haves fetched [] Discovery_default with
  | Err err => (Err err, g)
  | Ok (common, d) =>
      match peel_wants fuel wants g with
      | (Err err, g) => (Err err, g)
      | (Ok (commit_wants, tags), g) =>
          let '(fetched, records, g) := prefetch_records fuel records commit_wants g in
          match mark_wants fetched d with
          | Err err => (Err err, g)
          | Ok d =>
              match discover fuel records ∅ [] d g with
              | (Err err, g) => (Err err, g)
              | (Ok (send, d), g) =>
                  (Ok (mkSelection (send ++ tags) common (negb (bool_decide (frontier d = [])))), g)
              end
          end
      end
  end.

(** ** Prefetching *)

Section prefetch.
Context (ex : Prop) (m : gmap Oid (Kind * bytes)) (rank : Oid -> nat).
Hypothesis Hranked : ranked m rank.
Context (fuel : nat).
Hypothesis Hfuel : graph_fuel m <= fuel.

(** The walk's view of the store: fixed objects, a sound graph, and a cache of
    records the graph holds. *)
Definition cached (records : Records) (g : G) : Prop :=
  ws_objects g = m /\ graph_wf ex g /\ records ⊆ ws_graph g.

Lemma cached_commit records g id r :
  cached records g -> records !! id = Some r -> commit_at m id = Some (root_tree r, parents r).
Proof.
  intros (Ho & Hwf & Hsub) Hr. pose proof (lookup_weaken _ _ _ _ Hr Hsub) as Hl.
  destruct (Hwf id) as (r' & Hl' & Hc & _); [by eapply elem_of_dom_2 |]. rewrite Ho in Hc. congruence.
Qed.

Lemma fetch_all_spec ids g :
  ws_objects g = m -> graph_wf ex g ->
  let '(fetched, g') := fetch_all fuel ids g in
  ws_objects g' = m /\ graph_wf ex g' /\ ws_graph g ⊆ ws_graph g' /\ fetched.*1 = ids
  /\ Forall (fun p => match p.2 with
                     | Ok r => ws_graph g' !! p.1 = Some r
                     | Err e => fault m e /\ expects_commit p.2
                     end) fetched.
Proof.
  revert g. induction ids as [| id ids IH]; intros g Ho Hwf; cbn [fetch_all].
  { by split_and!. }
  pose proof (get_commit_info_total ex fuel rank id g Hwf) as Hone.
  pose proof (get_commit_info_grows fuel id g) as Hgrow1.
  pose proof (get_commit_info_expects fuel id g) as Hexp. rewrite Ho in Hone.
  specialize (Hone Hranked Hfuel). destruct (get_commit_info fuel id g) as [r g1].
  destruct Hone as (Ho1 & Hwf1 & Hr). specialize (IH g1 ltac:(congruence) Hwf1).
  destruct (fetch_all fuel ids g1) as [fetched g2]. destruct IH as (Ho2 & Hwf2 & Hgrow2 & Hids & Hall).
  split; [done | split; [done | split; [by etrans |]]]. split; [cbn; by rewrite Hids |].
  constructor; [| done]. cbn [fst snd]. destruct r as [rec | e]; [| done].
  eapply lookup_weaken; [apply Hr | done].
Qed.

Lemma cache_misses_spec (cache : Records) seen ids :
  NoDup (cache_misses cache seen ids)
  /\ forall id, id ∈ cache_misses cache seen ids <-> id ∈ ids /\ cache !! id = None /\ id ∉ seen.
Proof.
  revert seen. induction ids as [| x ids IH]; intros seen; cbn [cache_misses].
  { split; [constructor |]. set_solver. }
  destruct (decide _) as [[Hc Hs] | Hno].
  - destruct (IH ({[x]} ∪ seen)) as [Hnd Hmem]. split.
    + constructor; [rewrite Hmem; set_solver | done].
    + intros id. rewrite elem_of_cons, Hmem. destruct (decide (id = x)) as [-> |]; set_solver.
  - destruct (IH seen) as [Hnd Hmem]. split; [done |]. intros id. rewrite Hmem.
    destruct (decide (id = x)) as [-> |]; [| set_solver]. split; [set_solver |].
    intros (_ & ? & ?). by destruct Hno.
Qed.

Lemma cache_fetched_lookup cache fetched id :
  NoDup fetched.*1 ->
  cache_fetched cache fetched !! id
  = match list_to_map (M := gmap Oid (result WE Rec)) fetched !! id with
    | Some (Ok r) => Some r
    | _ => cache !! id
    end.
Proof.
  revert cache. induction fetched as [| [x r] fetched IH]; intros cache Hnd; [done |].
  rewrite fmap_cons in Hnd. apply NoDup_cons in Hnd as [Hx Hnd]. cbn [cache_fetched fold_left].
  fold (cache_fetched (match r with Ok record => <[x := record]> cache | Err _ => cache end) fetched).
  rewrite IH by done. cbn [list_to_map foldr]. destruct (decide (x = id)) as [<- | Hne].
  - rewrite lookup_insert_eq. rewrite not_elem_of_list_to_map_1 by done.
    destruct r; [by rewrite lookup_insert_eq | done].
  - rewrite lookup_insert_ne by done. destruct (_ !! id) as [[] |]; [done | |];
      destruct r; by rewrite ?lookup_insert_ne.
Qed.

Lemma first_error_spec (records : Records) fetched :
  (forall id r, (id, r) ∈ fetched -> match r with
     | Ok rec => records !! id = Some rec
     | Err e => fault m e /\ expects_commit r
     end) ->
  match first_error fetched with
  | Ok _ => forall p, p ∈ fetched.*1 -> is_Some (records !! p)
  | Err e => fault m e
  end.
Proof.
  induction fetched as [| [p r] fetched IH]; intros Hft; cbn [first_error].
  { by intros p ?%not_elem_of_nil. }
  pose proof (Hft p r (list_elem_of_here _ _)) as Hp. destruct r as [r | er]; [cbn | by destruct Hp].
  specialize (IH ltac:(intros ? ? ?; apply Hft; by right)).
  destruct (first_error fetched); [| done].
  intros q [-> | Hq]%elem_of_cons; [by eexists | by apply IH].
Qed.

Lemma prefetch_spec records ids g :
  cached records g ->
  let '(fetched, records', g') := prefetch_records fuel records ids g in
  cached records' g' /\ records ⊆ records' /\ NoDup fetched.*1
  /\ (forall id r, (id, r) ∈ fetched ->
        id ∈ ids /\ records !! id = None
        /\ match r with Ok rec => records' !! id = Some rec | Err e => fault m e /\ expects_commit r end)
  /\ (forall id, id ∈ ids -> is_Some (records !! id) \/ id ∈ fetched.*1)
  /\ (forall id r, records' !! id = Some r -> records !! id = Some r \/ (id, Ok r) ∈ fetched).
Proof.
  intros (Ho & Hwf & Hsub). unfold prefetch_records.
  destruct (cache_misses_spec records ∅ ids) as [Hnd Hmiss].
  pose proof (fetch_all_spec (cache_misses records ∅ ids) g Ho Hwf) as Hf.
  destruct (fetch_all fuel _ g) as [fetched g'].
  destruct Hf as (Ho' & Hwf' & Hgrow & Hids & Hall).
  rewrite <- Hids in Hnd. assert (forall id, id ∈ fetched.*1 <-> id ∈ ids /\ records !! id = None) as Hmem.
  { intros id. rewrite Hids, Hmiss. set_solver. }
  assert (forall id r, (id, r) ∈ fetched -> records !! id = None) as Hnone.
  { intros id r Hin. eapply Hmem. apply list_elem_of_fmap. by exists (id, r). }
  assert (forall id r, (id, r) ∈ fetched -> list_to_map (M := gmap Oid (result WE Rec)) fetched !! id = Some r)
    as Hmap by (intros id r Hin; by apply elem_of_list_to_map_1).
  split; [split; [done | split; [done |]] | split; [| split; [done | split]]].
  - apply map_subseteq_spec. intros id r. rewrite cache_fetched_lookup by done.
    destruct (list_to_map _ !! id) as [[rec | e] |] eqn:E.
    + intros [= <-]. apply elem_of_list_to_map_2 in E.
      rewrite Forall_forall in Hall. exact (Hall _ E).
    + intros Hr. eapply lookup_weaken; [exact Hr |]. by etrans.
    + intros Hr. eapply lookup_weaken; [exact Hr |]. by etrans.
  - apply map_subseteq_spec. intros id r Hr. rewrite cache_fetched_lookup by done.
    destruct (list_to_map _ !! id) as [[rec | e] |] eqn:E; try done.
    apply elem_of_list_to_map_2, Hnone in E. congruence.
  - intros id r Hin. pose proof (proj1 (Hmem id)) as Hid. destruct Hid as [Hid Hn].
    { apply list_elem_of_fmap. by exists (id, r). }
    split; [done | split; [done |]]. destruct r as [rec | e].
    + rewrite cache_fetched_lookup by done. by rewrite (Hmap _ _ Hin).
    + rewrite Forall_forall in Hall. exact (Hall _ Hin).
  - split.
    + intros id Hid. destruct (records !! id) eqn:E; [by left | right]. by apply Hmem.
    + intros id r. rewrite cache_fetched_lookup by done.
      destruct (list_to_map _ !! id) as [[rec | e] |] eqn:E; auto.
      intros [= <-]. right. by apply elem_of_list_to_map_2 in E.
Qed.

End prefetch.

(** ** Reachability *)

Section invariant.
Context (m : gmap Oid (Kind * bytes)).

(** [p] is a parent of commit [c]. *)
Definition parent_of (c p : Oid) : Prop := exists t ps, commit_at m c = Some (t, ps) /\ p ∈ ps.

Definition reach : Oid -> Oid -> Prop := rtc parent_of.

Context (common wants : list Oid).

Definition from_have (id : Oid) : Prop := exists h, h ∈ common /\ reach h id.
Definition from_want (id : Oid) : Prop := exists w, w ∈ wants /\ reach w id.

Lemma from_have_parent c p : from_have c -> parent_of c p -> from_have p.
Proof. intros (h & Hh & Hr) Hp. exists h. split; [done |]. by eapply rtc_r. Qed.

Lemma from_want_parent c p : from_want c -> parent_of c p -> from_want p.
Proof. intros (w & Hw & Hr) Hp. exists w. split; [done |]. by eapply rtc_r. Qed.

(** Records carry the parents of their commits. *)
Definition faithful (records : Records) : Prop :=
  forall id r, records !! id = Some r -> commit_at m id = Some (root_tree r, parents r).

(** ** The discovery invariant

    [lvl] are the ids popped but not visited, [cur] the commit being visited. *)
Record disc_inv (records : Records) (lvl : list Oid) (cur done : gset Oid) (send : list Oid)
    (d : Discovery) : Prop := {
  i_faithful : faithful records;
  i_rec : forall id f, state d !! id = Some f -> is_Some (records !! id);
  i_front : forall e, e ∈ frontier d -> is_Some (state d !! qe_oid e)
    /\ exists r, records !! qe_oid e = Some r /\ generation r = qe_generation e;
  i_have : forall id, state d !! id = Some Have -> from_have id;
  i_want : forall id, state d !! id = Some Want -> from_want id;
  i_done : forall id, id ∈ done ->
    is_Some (state d !! id) /\ (id ∈ send \/ state d !! id = Some Have)
    /\ (id ∉ cur -> forall r p, records !! id = Some r -> p ∈ parents r -> is_Some (state d !! p));
  i_pend : forall id, id ∈ pending d <-> state d !! id = Some Want /\ (id ∉ done);
  i_queue : forall id, is_Some (state d !! id) -> id ∉ done ->
    id ∈ lvl \/ exists e, e ∈ frontier d /\ qe_oid e = id;
  i_send : NoDup send /\ forall id, id ∈ send -> id ∈ done /\ from_want id;
  i_lvl : NoDup lvl /\ forall id, id ∈ lvl -> (id ∉ done) /\ is_Some (state d !! id);
}.

Lemma heap_push_mem e heap x : x ∈ heap_push e heap <-> x = e \/ x ∈ heap.
Proof.
  induction heap as [| y heap IH]; cbn [heap_push].
  - rewrite list_elem_of_singleton. set_solver.
  - destruct (pops_before e y); rewrite !elem_of_cons, ?IH; tauto.
Qed.

(** The three things a mark can do: nothing, admit a new id, downgrade. *)
Lemma mark_cases d id flag gen :
  (mark d id flag gen = d /\ is_Some (state d !! id)
     /\ (flag = Have -> state d !! id = Some Have))
  \/ (state d !! id = None
     /\ mark d id flag gen = mkDiscovery (heap_push (mkQueueEntry gen id) (frontier d))
          (<[id := flag]> (state d))
          (match flag with Want => {[id]} ∪ pending d | Have => pending d end))
  \/ (state d !! id = Some Want /\ flag = Have
     /\ mark d id flag gen = mkDiscovery (heap_push (mkQueueEntry gen id) (frontier d))
          (<[id := Have]> (state d)) (pending d ∖ {[id]})).
Proof.
  unfold mark. destruct (state d !! id) as [[] |] eqn:E, flag; naive_solver.
Qed.

Lemma mark_marked d id flag gen x :
  is_Some (state d !! x) \/ x = id -> is_Some (state (mark d id flag gen) !! x).
Proof.
  intros Hx. destruct (mark_cases d id flag gen) as [(-> & Hs & _) | [(Hn & ->) | (Hw & _ & ->)]].
  - by destruct Hx as [| ->].
  - cbn [state]. destruct (decide (x = id)) as [-> |]; [by rewrite lookup_insert_eq |].
    rewrite lookup_insert_ne by done. by destruct Hx.
  - cbn [state]. destruct (decide (x = id)) as [-> |]; [by rewrite lookup_insert_eq |].
    rewrite lookup_insert_ne by done. by destruct Hx.
Qed.

(** Admitting or downgrading [id] as [f] keeps the invariant. *)
Lemma inv_push records lvl cur done send d id f gen P :
  disc_inv records lvl cur done send d ->
  (exists r, records !! id = Some r /\ generation r = gen) ->
  (f = Have -> from_have id) -> (f = Want -> from_want id) ->
  (state d !! id = None \/ state d !! id = Some Want /\ f = Have) ->
  (forall x, x ∈ P <-> (x = id /\ f = Want) \/ (x <> id /\ x ∈ pending d)) ->
  disc_inv records lvl cur done send
    (mkDiscovery (heap_push (mkQueueEntry gen id) (frontier d)) (<[id := f]> (state d)) P).
Proof.
  intros [Hf Hrec Hfront Hh Hw Hdone Hpend Hq Hsend Hlvl] (r & Hr & Hg) Hfh Hfw Hst HP.
  assert (forall x, is_Some (state d !! x) -> is_Some (<[id := f]> (state d) !! x)) as Hmono.
  { intros x Hx. destruct (decide (x = id)) as [-> |]; [by rewrite lookup_insert_eq |].
    by rewrite lookup_insert_ne. }
  split; cbn [state frontier pending]; try done.
  - intros x f'. destruct (decide (x = id)) as [-> |]; [by rewrite Hr |].
    rewrite lookup_insert_ne by done. apply Hrec.
  - intros e [-> | He]%heap_push_mem.
    + cbn [qe_oid qe_generation]. rewrite lookup_insert_eq. split; [done |]. by exists r.
    + destruct (Hfront e He) as [Hs Hx]. auto.
  - intros x. destruct (decide (x = id)) as [-> |]; [rewrite lookup_insert_eq; intros [= ->]; auto |].
    rewrite lookup_insert_ne by done. apply Hh.
  - intros x. destruct (decide (x = id)) as [-> |]; [rewrite lookup_insert_eq; intros [= ->]; auto |].
    rewrite lookup_insert_ne by done. apply Hw.
  - intros x Hx. destruct (Hdone x Hx) as (Hs & Hor & Hps). split; [auto | split].
    + destruct Hor as [| Hh']; [by left |]. right.
      destruct (decide (x = id)) as [-> |]; [| by rewrite lookup_insert_ne].
      rewrite lookup_insert_eq. destruct Hst as [Hst | [Hst ->]]; congruence.
    + intros Hc r' p Hr' Hp. apply Hmono. by eapply Hps.
  - intros x. rewrite HP. destruct (decide (x = id)) as [-> |].
    + rewrite lookup_insert_eq. split; [intros [[_ ->] | [? _]]; [| done] | intros [[= ->] _]; by left].
      split; [done |]. intros Hd. destruct Hst as [Hst | [_ ?]]; [| done].
      destruct (Hdone id Hd) as [[? Hs] _]. congruence.
    + rewrite lookup_insert_ne by done. rewrite Hpend. tauto.
  - intros x Hs Hd. destruct (decide (x = id)) as [-> |].
    + right. eexists. rewrite heap_push_mem. split; [by left | done].
    + rewrite lookup_insert_ne in Hs by done.
      destruct (Hq x Hs Hd) as [| (e & He & ?)]; [by left | right].
      exists e. rewrite heap_push_mem. auto.
  - destruct Hlvl as [Hnd Hl]. split; [done |]. intros x Hx. destruct (Hl x Hx). auto.
Qed.

Lemma mark_inv records lvl cur done send d id flag r :
  disc_inv records lvl cur done send d -> records !! id = Some r ->
  (flag = Have -> from_have id) -> (flag = Want -> from_want id) ->
  disc_inv records lvl cur done send (mark d id flag (generation r)).
Proof.
  intros Hinv Hr Hh Hw.
  destruct (mark_cases d id flag (generation r)) as [(-> & _) | [(Hn & ->) | (Hs & -> & ->)]]; [done | |].
  - apply inv_push; eauto. intros x. pose proof (i_pend _ _ _ _ _ _ Hinv id) as Hp.
    destruct flag; [set_solver |]. split; [| by intros [[_ ?] | [_ ?]]].
    intros Hx. right. split; [| done]. intros ->. apply Hp in Hx as [Hx _]. congruence.
  - apply inv_push; eauto. set_solver.
Qed.

Lemma mark_parents_inv records lvl cur done send d flag c ps :
  disc_inv records lvl cur done send d ->
  (flag = Have -> from_have c) -> (flag = Want -> from_want c) ->
  (forall p, p ∈ ps -> parent_of c p /\ is_Some (records !! p)) ->
  exists d', mark_parents records flag ps d = Some d'
    /\ disc_inv records lvl cur done send d'
    /\ (forall x, is_Some (state d !! x) \/ x ∈ ps -> is_Some (state d' !! x)).
Proof.
  intros Hinv Hh Hw. revert d Hinv. induction ps as [| p ps IH]; intros d Hinv Hps; cbn [mark_parents].
  { exists d. split; [done | split; [done |]]. intros x [? | ?%not_elem_of_nil]; done. }
  destruct (Hps p (list_elem_of_here _ _)) as [Hp [r Hr]]. rewrite Hr.
  destruct (IH (mark d p flag (generation r))) as (d' & -> & Hinv' & Hm).
  { apply mark_inv; [done | done | |]; intros E; [eapply from_have_parent | eapply from_want_parent]; eauto. }
  { intros q Hq. apply Hps. by right. }
  exists d'. split; [done | split; [done |]]. intros x Hx. apply Hm.
  destruct Hx as [Hx | [-> | Hx]%elem_of_cons]; [left; apply mark_marked; auto | left; apply mark_marked; auto | by right].
Qed.

(** ** Draining and visiting a level *)

Lemma drain_spec gen heap done seen :
  let '(level, rest) := drain gen heap done seen in
  exists popped, heap = popped ++ rest
    /\ Forall (fun e => qe_generation e = gen) popped
    /\ (forall e, head rest = Some e -> qe_generation e <> gen)
    /\ NoDup level
    /\ (forall id, id ∈ level -> (id ∉ done) /\ (id ∉ seen) /\ exists e, e ∈ popped /\ qe_oid e = id)
    /\ (forall e, e ∈ popped -> qe_oid e ∈ level \/ qe_oid e ∈ done \/ qe_oid e ∈ seen).
Proof.
  revert seen. induction heap as [| e heap IH]; intros seen; cbn [drain].
  { exists []. split_and!; try done; [constructor | set_solver | set_solver]. }
  destruct (Z.eqb_spec (qe_generation e) gen) as [Hg | Hg].
  2: { exists []. split_and!; try done; [by intros ? [= <-] | constructor | set_solver | set_solver]. }
  destruct (decide _) as [[Hd Hs] | Hno].
  - specialize (IH ({[qe_oid e]} ∪ seen)). destruct (drain gen heap done _) as [level rest].
    destruct IH as (popped & -> & Hall & Hhd & Hnd & Hl & Hp).
    exists (e :: popped). split_and!; try done; [by constructor | | |].
    + constructor; [| done]. intros Hin. apply Hl in Hin as (_ & Hin & _). set_solver.
    + intros id [-> | Hin]%elem_of_cons.
      * split_and!; [done | done |]. exists e. split; [by left | done].
      * apply Hl in Hin as (? & ? & e' & ? & ?). split_and!; [done | set_solver |].
        exists e'. split; [by right | done].
    + intros e' [-> | Hin]%elem_of_cons; [left; by left |].
      apply Hp in Hin as [? | [? | [->%elem_of_singleton | ?]%elem_of_union]]; auto;
        [left; by right |]. left. left.
  - specialize (IH seen). destruct (drain gen heap done seen) as [level rest].
    destruct IH as (popped & -> & Hall & Hhd & Hnd & Hl & Hp).
    exists (e :: popped). split_and!; try done; [by constructor | |].
    + intros id Hin. apply Hl in Hin as (? & ? & e' & ? & ?). split_and!; try done.
      exists e'. split; [by right | done].
    + intros e' [-> | Hin]%elem_of_cons; [| by apply Hp].
      right. destruct (decide (qe_oid e ∈ done)); [by left | right].
      destruct (decide (qe_oid e ∈ seen)); [done |]. by destruct Hno.
Qed.

(** Popping a level turns queued ids into level ids. *)
Lemma drain_inv records done send d gen :
  disc_inv records [] ∅ done send d ->
  let '(level, rest) := drain gen (frontier d) done ∅ in
  disc_inv records level ∅ done send (mkDiscovery rest (state d) (pending d)).
Proof.
  intros [Hf Hrec Hfront Hh Hw Hdone Hpend Hq Hsend _].
  pose proof (drain_spec gen (frontier d) done ∅) as Hd.
  destruct (drain gen (frontier d) done ∅) as [level rest].
  destruct Hd as (popped & Hfr & _ & _ & Hnd & Hl & Hp).
  split; cbn [state frontier pending]; try done.
  - intros e He. apply Hfront. rewrite Hfr. apply elem_of_app. by right.
  - intros id Hs Hd. destruct (Hq id Hs Hd) as [?%not_elem_of_nil | (e & He & <-)]; [done |].
    rewrite Hfr in He. apply elem_of_app in He as [He | He]; [| right; by exists e].
    apply Hp in He as [? | [? | ?]]; [by left | done | set_solver].
  - split; [done |]. intros id Hid. apply Hl in Hid as (? & _ & e & He & <-).
    split; [done |]. apply Hfront. rewrite Hfr. apply elem_of_app. by left.
Qed.

Lemma parents_of_spec records id p :
  p ∈ parents_of records id <-> exists r, records !! id = Some r /\ p ∈ parents r.
Proof.
  unfold parents_of. destruct (records !! id) as [r |]; [naive_solver |].
  split; [by intros ?%not_elem_of_nil | naive_solver].
Qed.

(** The bookkeeping of a visit, before its parents are marked. *)
Lemma visit_start records id lvl done send d flag :
  disc_inv records (id :: lvl) ∅ done send d -> state d !! id = Some flag ->
  disc_inv records lvl {[id]} ({[id]} ∪ done)
    (match flag with Want => send ++ [id] | Have => send end)
    (match flag with
     | Want => mkDiscovery (frontier d) (state d) (pending d ∖ {[id]})
     | Have => d
     end).
Proof.
  intros [Hf Hrec Hfront Hh Hw Hdone Hpend Hq [Hsnd Hsend] [Hlnd Hlvl]] Hs.
  apply NoDup_cons in Hlnd as [Hidl Hlnd].
  destruct (Hlvl id (list_elem_of_here _ _)) as [Hnd _].
  assert (forall (d' : Discovery), state d' = state d -> frontier d' = frontier d ->
    (forall x, x ∈ pending d' <-> x ∈ pending d /\ x <> id) ->
    forall send', NoDup send' -> (forall x, x ∈ send' <-> x ∈ send \/ (x = id /\ flag = Want)) ->
    disc_inv records lvl {[id]} ({[id]} ∪ done) send' d') as H.
  { intros d' Hst Hfr Hpd send' Hnd' Hsend'. split; rewrite ?Hst, ?Hfr; try done.
    - intros x [->%elem_of_singleton | Hx]%elem_of_union.
      + split; [done | split; [| set_solver]]. rewrite Hsend'. destruct flag; auto.
      + destruct (Hdone x Hx) as (? & Hor & Hps). split; [done | split].
        * rewrite Hsend'. destruct Hor; auto.
        * intros _ r p. apply Hps. set_solver.
    - intros x. rewrite Hpd, Hpend. set_solver.
    - intros x Hx Hd. destruct (Hq x Hx) as [[-> | ?]%elem_of_cons | ?]; [set_solver | set_solver | by left | by right].
    - split; [done |]. intros x [Hx | [-> ->]]%Hsend'.
      + destruct (Hsend x Hx). split; [set_solver | done].
      + split; [set_solver | by apply Hw].
    - split; [done |]. intros x Hx. destruct (Hlvl x) as [? ?]; [by right |].
      split; [| done]. intros [->%elem_of_singleton | ?]%elem_of_union; done. }
  destruct flag; apply H; try done.
  - intros x. cbn [pending]. set_solver.
  - apply NoDup_app. split; [done | split; [| apply NoDup_singleton]].
    intros x Hx ->%list_elem_of_singleton. by destruct (Hsend id Hx).
  - intros x. rewrite elem_of_app, list_elem_of_singleton. naive_solver.
  - intros x. split; [| tauto]. intros Hx. split; [done |]. intros ->.
    apply Hpend in Hx as [Hx _]. congruence.
  - intros x. naive_solver.
Qed.

Lemma inv_finish records lvl done send d id :
  disc_inv records lvl {[id]} done send d ->
  (forall p, p ∈ parents_of records id -> is_Some (state d !! p)) ->
  disc_inv records lvl ∅ done send d.
Proof.
  intros [Hf Hrec Hfront Hh Hw Hdone Hpend Hq Hsend Hlvl] Hps. split; try done.
  intros x Hx. destruct (Hdone x Hx) as (? & ? & Hp). split; [done | split; [done |]].
  intros _ r p Hr Hpp. destruct (decide (x = id)) as [-> |]; [| eapply Hp; set_solver].
  apply Hps, parents_of_spec. eauto.
Qed.

Lemma visit_level_inv records lvl done send d :
  disc_inv records lvl ∅ done send d ->
  (forall id p, id ∈ lvl -> p ∈ parents_of records id -> is_Some (records !! p)) ->
  exists done' send' d', visit_level records lvl done send d = Some (done', send', d')
    /\ disc_inv records [] ∅ done' send' d'
    /\ (forall x, is_Some (state d !! x) -> is_Some (state d' !! x)).
Proof.
  revert done send d. induction lvl as [| id lvl IH]; intros done send d Hinv Hps; cbn [visit_level].
  { by exists done, send, d. }
  destruct (proj2 (i_lvl _ _ _ _ _ _ Hinv) id (list_elem_of_here _ _)) as [Hnd [flag Hs]].
  rewrite decide_False, Hs by done.
  pose proof (visit_start _ _ _ _ _ _ _ Hinv Hs) as Hstart.
  assert (forall d0, (forall x, state d0 !! x = state d !! x) ->
    disc_inv records lvl {[id]} ({[id]} ∪ done)
      (match flag with Want => send ++ [id] | Have => send end) d0 ->
    exists done' send' d', match mark_parents records flag (parents_of records id) d0 with
      | Some d => visit_level records lvl ({[id]} ∪ done)
                    (match flag with Want => send ++ [id] | Have => send end) d
      | None => None
      end = Some (done', send', d')
      /\ disc_inv records [] ∅ done' send' d'
      /\ (forall x, is_Some (state d !! x) -> is_Some (state d' !! x))) as Hgo.
  { intros d0 Hst Hinv0.
    destruct (mark_parents_inv _ _ _ _ _ d0 flag id (parents_of records id) Hinv0)
      as (d1 & -> & Hinv1 & Hm).
    - intros ->. exact (i_have _ _ _ _ _ _ Hinv _ Hs).
    - intros ->. exact (i_want _ _ _ _ _ _ Hinv _ Hs).
    - intros p Hp. split; [| eapply Hps; [by left | done]].
      apply parents_of_spec in Hp as (r & Hr & Hp). pose proof (i_faithful _ _ _ _ _ _ Hinv _ _ Hr).
      by exists (root_tree r), (parents r).
    - destruct (IH ({[id]} ∪ done) (match flag with Want => send ++ [id] | Have => send end) d1)
        as (done' & send' & d' & -> & Hinv' & Hm').
      + eapply inv_finish; [done |]. intros p Hp. apply Hm. by right.
      + intros id' p Hid'. apply Hps. by right.
      + exists done', send', d'. split; [done | split; [done |]].
        intros x Hx. apply Hm', Hm. left. by rewrite Hst. }
  destruct flag; [| exact (Hgo d (fun _ => eq_refl) Hstart)].
  exact (Hgo (mkDiscovery (frontier d) (state d) (pending d ∖ {[id]})) (fun _ => eq_refl) Hstart).
Qed.

(** ** Termination

    What is still to be popped: the heap, and the pushes that marks can still
    make — two for an unmarked object, one for a WANT. *)

Definition pushes_left (d : Discovery) (id : Oid) : nat :=
  match state d !! id with None => 2 | Some Want => 1 | Some Have => 0 end.

Definition potential (d : Discovery) : nat :=
  length (frontier d) + sum_list (pushes_left d <$> (map_to_list m).*1).

Lemma heap_push_length e heap : length (heap_push e heap) = S (length heap).
Proof.
  induction heap as [| x heap IH]; cbn [heap_push]; [done |].
  destruct (pops_before e x); cbn [length]; lia.
Qed.

Lemma commit_in_objects id c : commit_at m id = Some c -> id ∈ (map_to_list m).*1.
Proof.
  unfold commit_at. destruct (m !! id) as [kb |] eqn:E; [| done]. intros _.
  apply list_elem_of_fmap. exists (id, kb). split; [done |]. by apply elem_of_map_to_list.
Qed.

Lemma mark_potential d id flag gen c :
  commit_at m id = Some c -> potential (mark d id flag gen) <= potential d.
Proof.
  intros Hc%commit_in_objects.
  assert (forall d' k, length (frontier d') = length (frontier d) + k ->
    (forall x, pushes_left d' x <= pushes_left d x) -> pushes_left d' id + k <= pushes_left d id ->
    potential d' <= potential d) as H.
  { intros d' k Hl Hle Hk. unfold potential. rewrite Hl.
    pose proof (sum_list_drop _ _ _ _ _ Hc Hle Hk). lia. }
  unfold pushes_left in H. destruct (mark_cases d id flag gen) as [(-> & _) | [(Hn & ->) | (Hw & -> & ->)]];
    [done | |]; apply (H _ 1); cbn [frontier state]; rewrite ?heap_push_length, ?lookup_insert_eq; try lia.
  - intros x. destruct (decide (x = id)) as [-> |].
    + rewrite lookup_insert_eq, Hn. destruct flag; lia.
    + by rewrite lookup_insert_ne.
  - rewrite Hn. destruct flag; lia.
  - intros x. destruct (decide (x = id)) as [-> |].
    + rewrite lookup_insert_eq, Hw. lia.
    + by rewrite lookup_insert_ne.
  - rewrite Hw. lia.
Qed.

Lemma mark_parents_potential records flag ps d d' :
  faithful records -> mark_parents records flag ps d = Some d' -> potential d' <= potential d.
Proof.
  intros Hf. revert d. induction ps as [| p ps IH]; intros d; cbn [mark_parents].
  { by intros [= <-]. }
  destruct (records !! p) as [r |] eqn:Hr; [| done]. intros H. apply IH in H.
  pose proof (mark_potential d p flag (generation r) _ (Hf _ _ Hr)). lia.
Qed.

Lemma visit_level_potential records lvl done send d done' send' d' :
  faithful records -> visit_level records lvl done send d = Some (done', send', d') ->
  potential d' <= potential d.
Proof.
  intros Hf. revert done send d. induction lvl as [| id lvl IH]; intros done send d; cbn [visit_level].
  { by intros [= _ _ <-]. }
  destruct (decide (id ∈ done)); [apply IH |].
  destruct (state d !! id) as [flag |]; [| apply IH].
  destruct flag; (destruct (mark_parents _ _ _ _) as [d1 |] eqn:Hm; [| done]);
    intros H; apply IH in H; apply mark_parents_potential in Hm; try done; unfold potential in *;
    cbn [frontier] in *; unfold pushes_left in *; cbn [state] in *; lia.
Qed.

(** A level that pops anything lowers the potential. *)
Lemma drain_potential gen d done e rest0 :
  frontier d = e :: rest0 -> qe_generation e = gen ->
  let '(level, rest) := drain gen (frontier d) done ∅ in
  potential (mkDiscovery rest (state d) (pending d)) < potential d.
Proof.
  intros Hfr Hg. pose proof (drain_spec gen (frontier d) done ∅) as Hd.
  destruct (drain gen (frontier d) done ∅) as [level rest].
  destruct Hd as (popped & Happ & _ & Hhd & _). unfold potential, pushes_left. cbn [frontier state].
  rewrite Happ, length_app. destruct popped as [| e' popped]; [| cbn; lia].
  exfalso. cbn in Happ. apply (Hhd e); [| done]. by rewrite <- Happ, Hfr.
Qed.

(** ** Pruning

    With exact generations a level is final when it is visited: everything
    that can reach it from a have has been visited before. *)

Record cons_inv (records : Records) (done : gset Oid) (send : list Oid) (d : Discovery) : Prop := {
  k_sorted : StronglySorted (fun a b => pops_before a b = true) (frontier d);
  k_done : forall e id, e ∈ frontier d -> id ∈ done -> (qe_generation e < gen_of records id)%Z;
  k_have : forall id p, id ∈ done -> state d !! id = Some Have -> p ∈ parents_of records id ->
    state d !! p = Some Have;
  k_send : forall id, id ∈ send -> ~ from_have id;
  k_order : StronglySorted (fun a b => (gen_of records b <= gen_of records a)%Z) send;
}.

Lemma pops_before_total a b : pops_before a b = true \/ pops_before b a = true.
Proof.
  unfold pops_before.
  destruct (Z.ltb_spec (qe_generation b) (qe_generation a)); [by left |].
  destruct (Z.ltb_spec (qe_generation a) (qe_generation b)); [by right |].
  assert (qe_generation a = qe_generation b) as -> by lia. rewrite Z.eqb_refl.
  destruct (oid_le_total (qe_oid b) (qe_oid a)) as [-> | ->]; auto.
Qed.

Lemma pops_before_trans a b c :
  pops_before a b = true -> pops_before b c = true -> pops_before a c = true.
Proof.
  unfold pops_before. rewrite !orb_true_iff, !andb_true_iff, !Z.ltb_lt, !Z.eqb_eq.
  intros [| [? H1]] [| [? H2]]; [left; lia | left; lia | left; lia | right].
  split; [lia |]. by eapply oid_le_trans.
Qed.

Lemma pops_before_gen a b : pops_before a b = true -> (qe_generation b <= qe_generation a)%Z.
Proof. unfold pops_before. rewrite orb_true_iff, andb_true_iff, Z.ltb_lt, Z.eqb_eq. lia. Qed.

Lemma heap_push_sorted e heap :
  StronglySorted (fun a b => pops_before a b = true) heap ->
  StronglySorted (fun a b => pops_before a b = true) (heap_push e heap).
Proof.
  induction 1 as [| x heap Hs IH Hx]; cbn [heap_push]; [by repeat constructor |].
  destruct (pops_before e x) eqn:E.
  - constructor; [by constructor |]. constructor; [done |].
    eapply Forall_impl; [exact Hx |]. intros y Hy. by eapply pops_before_trans.
  - constructor; [done |]. apply Forall_forall. intros y [-> | Hy]%heap_push_mem.
    + destruct (pops_before_total e x) as [H | H]; [congruence | done].
    + rewrite Forall_forall in Hx. by apply Hx.
Qed.

(** Marks below level [L] leave everything at or above it alone. *)
Lemma mark_parents_below records flag ps d d' (L : Z) :
  mark_parents records flag ps d = Some d' ->
  (forall p, p ∈ ps -> (gen_of records p < L)%Z) ->
  StronglySorted (fun a b => pops_before a b = true) (frontier d) ->
  (forall x, (L <= gen_of records x)%Z -> state d' !! x = state d !! x)
  /\ (forall x, state d !! x = Some Have -> state d' !! x = Some Have)
  /\ (flag = Have -> forall p, p ∈ ps -> state d' !! p = Some Have)
  /\ (forall e, e ∈ frontier d' -> e ∈ frontier d \/ (qe_generation e < L)%Z)
  /\ StronglySorted (fun a b => pops_before a b = true) (frontier d').
Proof.
  revert d. induction ps as [| p ps IH]; intros d; cbn [mark_parents].
  { intros [= <-] _ Hs. split_and!; try done; [by intros _ p ?%not_elem_of_nil | by left]. }
  destruct (records !! p) as [r |] eqn:Hr; [| done]. intros H HL Hs.
  assert (gen_of records p = generation r) as Hg by (unfold gen_of; by rewrite Hr).
  pose proof (HL p (list_elem_of_here _ _)) as HLp.
  assert (StronglySorted (fun a b => pops_before a b = true) (frontier (mark d p flag (generation r)))
    /\ (forall x, x <> p -> state (mark d p flag (generation r)) !! x = state d !! x)
    /\ (state d !! p = Some Have \/ flag = Have -> state (mark d p flag (generation r)) !! p = Some Have)
    /\ (forall e, e ∈ frontier (mark d p flag (generation r)) ->
         e ∈ frontier d \/ (qe_generation e < L)%Z)) as (Hs1 & Hne & Hhv & Hfr).
  { destruct (mark_cases d p flag (generation r)) as [(-> & _ & Hh) | [(Hn & ->) | (Hw & -> & ->)]];
      cbn [frontier state].
    - split_and!; try done; [naive_solver | by left].
    - split_and!; [by apply heap_push_sorted | by intros; rewrite lookup_insert_ne | |].
      + intros [? | ->]; [congruence | by rewrite lookup_insert_eq].
      + intros e [-> | He]%heap_push_mem; [right; cbn; lia | by left].
    - split_and!; [by apply heap_push_sorted | by intros; rewrite lookup_insert_ne | |].
      + by rewrite lookup_insert_eq.
      + intros e [-> | He]%heap_push_mem; [right; cbn; lia | by left]. }
  destruct (IH (mark d p flag (generation r)) H ltac:(intros q Hq; apply HL; by right) Hs1)
    as (H1 & H2 & H3 & H4 & H5).
  split_and!; [| | | | done].
  - intros x Hx. rewrite H1 by done. apply Hne. intros ->. lia.
  - intros x Hx. apply H2. destruct (decide (x = p)) as [-> |]; [auto | by rewrite Hne].
  - intros Hf q [-> | Hq]%elem_of_cons; [apply H2; auto | by apply H3].
  - intros e He. apply H4 in He as [He | ?]; [by apply Hfr | by right].
Qed.

Lemma visit_level_cons records L lvl done send d done' send' d' :
  visit_level records lvl done send d = Some (done', send', d') ->
  (forall id, id ∈ lvl -> gen_of records id = L /\ (state d !! id = Some Want -> ~ from_have id)
     /\ forall p, p ∈ parents_of records id -> (gen_of records p < L)%Z) ->
  (forall e, e ∈ frontier d -> (qe_generation e < L)%Z) ->
  (forall id, id ∈ done -> (L <= gen_of records id)%Z) ->
  StronglySorted (fun a b => pops_before a b = true) (frontier d) ->
  (forall id p, id ∈ done -> state d !! id = Some Have -> p ∈ parents_of records id ->
     state d !! p = Some Have) ->
  (forall id, id ∈ send -> ~ from_have id) ->
  (forall id, id ∈ send -> (L <= gen_of records id)%Z) ->
  StronglySorted (fun a b => (gen_of records b <= gen_of records a)%Z) send ->
  cons_inv records done' send' d'.
Proof.
  revert done send d. induction lvl as [| id lvl IH]; intros done send d; cbn [visit_level].
  { intros [= <- <- <-] _ Hfr Hdone Hs Hh Hsend Hge Hord. split; try done.
    intros e id He Hid. specialize (Hfr e He). specialize (Hdone id Hid). lia. }
  intros Hv Hlvl Hfr Hdone Hs Hh Hsend Hge Hord.
  destruct (Hlvl id (list_elem_of_here _ _)) as (Hg & Hnot & Hps).
  destruct (decide (id ∈ done)).
  { apply (IH _ _ _ Hv); try done. intros x Hx. apply Hlvl. by right. }
  assert (forall x, x ∈ {[id]} ∪ done -> (L <= gen_of records x)%Z) as Hdone1.
  { intros x [->%elem_of_singleton | Hx]%elem_of_union; [lia | by apply Hdone]. }
  destruct (state d !! id) as [flag |] eqn:Hst.
  2: { apply (IH _ _ _ Hv); try done; [intros x Hx; apply Hlvl; by right |].
       intros x p [->%elem_of_singleton | Hx]%elem_of_union; [congruence | by apply Hh]. }
  assert (forall d0 send0, state d0 = state d -> frontier d0 = frontier d ->
    (forall x, x ∈ send0 -> ~ from_have x) ->
    (forall x, x ∈ send0 -> (L <= gen_of records x)%Z) ->
    StronglySorted (fun a b => (gen_of records b <= gen_of records a)%Z) send0 ->
    match mark_parents records flag (parents_of records id) d0 with
    | Some d => visit_level records lvl ({[id]} ∪ done) send0 d
    | None => None
    end = Some (done', send', d') -> cons_inv records done' send' d') as Hgo.
  { intros d0 send0 Hst0 Hfr0 Hsend0 Hge0 Hord0 Hv0.
    destruct (mark_parents records flag (parents_of records id) d0) as [d1 |] eqn:Hm; [| done].
    destruct (mark_parents_below _ _ _ _ _ L Hm Hps) as (H1 & H2 & H3 & H4 & H5); [by rewrite Hfr0 |].
    rewrite Hst0 in H1, H2. rewrite Hfr0 in H4.
    apply (IH _ _ _ Hv0); try done.
    - intros x Hx. destruct (Hlvl x) as (Hgx & Hnx & Hpx); [by right |].
      split; [done | split; [| done]]. rewrite H1 by lia. done.
    - intros e [He | He]%H4; [by apply Hfr | done].
    - intros x p [->%elem_of_singleton | Hx]%elem_of_union Hhx Hp.
      + rewrite H1, Hst in Hhx by lia. injection Hhx as ->. by apply H3.
      + rewrite H1 in Hhx by (by apply Hdone). apply H2. by eapply Hh. }
  destruct flag.
  - apply (Hgo (mkDiscovery (frontier d) (state d) (pending d ∖ {[id]})) (send ++ [id])); try done.
    + intros x [Hx | ->%list_elem_of_singleton]%elem_of_app; [by apply Hsend | by apply Hnot].
    + intros x [Hx | ->%list_elem_of_singleton]%elem_of_app; [by apply Hge | lia].
    + apply StronglySorted_app. split; [| split; [done | by repeat constructor]].
      intros x y Hx ->%list_elem_of_singleton. rewrite Hg. by apply Hge.
  - by apply (Hgo d send).
Qed.

(** A level sends every commit it finds wanted, and visits no other. *)
Lemma visit_level_sends records L lvl done send d done' send' d' :
  visit_level records lvl done send d = Some (done', send', d') ->
  (forall id, id ∈ lvl -> gen_of records id = L /\ forall p, p ∈ parents_of records id -> (gen_of records p < L)%Z) ->
  StronglySorted (fun a b => pops_before a b = true) (frontier d) ->
  (forall x, x ∈ send -> x ∈ send') /\ (forall x, x ∈ done' -> x ∈ done \/ x ∈ lvl)
  /\ forall id, id ∈ lvl -> id ∉ done -> state d !! id = Some Want -> id ∈ send'.
Proof.
  revert done send d. induction lvl as [| id lvl IH]; intros done send d; cbn [visit_level].
  { intros [= <- <- <-] _ _. split; [done | split; [by left |]]. by intros id ?%not_elem_of_nil. }
  intros Hv Hlvl Hs. destruct (Hlvl id (list_elem_of_here _ _)) as [Hg Hps].
  assert (forall x, x ∈ lvl -> gen_of records x = L /\ forall p, p ∈ parents_of records x -> (gen_of records p < L)%Z)
    as Hlvl' by (intros x Hx; apply Hlvl; by right).
  destruct (decide (id ∈ done)) as [Hd | Hd].
  { destruct (IH _ _ _ Hv Hlvl' Hs) as (H1 & H2 & H3). split; [done | split; [set_solver |]].
    intros x [-> | Hx]%elem_of_cons; [done | by apply H3]. }
  assert (forall d0 send0, state d0 = state d -> frontier d0 = frontier d -> (forall x, x ∈ send -> x ∈ send0) ->
    (state d !! id = Some Want -> id ∈ send0) ->
    (visit_level records lvl ({[id]} ∪ done) send0 d0 = Some (done', send', d')
     \/ exists flag, match mark_parents records flag (parents_of records id) d0 with
        | Some d => visit_level records lvl ({[id]} ∪ done) send0 d
        | None => None
        end = Some (done', send', d')) ->
    (forall x, x ∈ send -> x ∈ send') /\ (forall x, x ∈ done' -> x ∈ done \/ x ∈ id :: lvl)
    /\ forall x, x ∈ id :: lvl -> x ∉ done -> state d !! x = Some Want -> x ∈ send') as Hgo.
  { intros d0 send0 Hst Hfr Hsub Hid Hv0.
    assert (exists d1, visit_level records lvl ({[id]} ∪ done) send0 d1 = Some (done', send', d')
      /\ StronglySorted (fun a b => pops_before a b = true) (frontier d1)
      /\ forall x, (L <= gen_of records x)%Z -> state d1 !! x = state d !! x) as (d1 & Hv1 & Hs1 & Hst1).
    { destruct Hv0 as [Hv0 | [flag Hv0]]; [exists d0; split; [done | by rewrite Hfr, Hst] |].
      destruct (mark_parents records flag (parents_of records id) d0) as [d1 |] eqn:Hm; [| done].
      destruct (mark_parents_below _ _ _ _ _ L Hm Hps) as (H1 & _ & _ & _ & H5); [by rewrite Hfr |].
      exists d1. rewrite <- Hst. done. }
    destruct (IH _ _ _ Hv1 Hlvl' Hs1) as (H1 & H2 & H3). split; [auto | split; [set_solver |]].
    intros x Hx Hxd Hw. destruct (decide (x = id)) as [-> | Hne]; [auto |].
    apply elem_of_cons in Hx as [-> | Hx]; [done |]. apply H3; [done | set_solver |].
    rewrite Hst1; [done |]. destruct (Hlvl' x Hx) as [-> _]. done. }
  destruct (state d !! id) as [[] |] eqn:Hst.
  - apply (Hgo (mkDiscovery (frontier d) (state d) (pending d ∖ {[id]})) (send ++ [id]));
      [done | done | set_solver | set_solver | by right; exists Want].
  - apply (Hgo d send); [done | done | done | congruence | by right; exists Have].
  - apply (Hgo d send); [done | done | done | congruence | by left].
Qed.

(** A WANT at the highest queued generation is not reachable from any have. *)
Lemma have_dominates records done send d (graph : gmap Oid Rec) L id :
  disc_inv records [] ∅ done send d -> cons_inv records done send d ->
  records ⊆ graph -> graph_good True m graph (dom graph) ->
  (forall h, h ∈ common -> state d !! h = Some Have) ->
  (forall e, e ∈ frontier d -> (qe_generation e <= L)%Z) ->
  state d !! id = Some Want -> gen_of records id = L -> id ∉ done -> ~ from_have id.
Proof.
  intros Hinv Hcons Hsub Hgood Hcom Hfr Hw HL Hnd (h & Hh & Hr).
  assert (forall x, is_Some (records !! x) -> gen_of graph x = gen_of records x /\ x ∈ dom graph) as Hgen.
  { intros x [r Hx]. unfold gen_of. rewrite Hx, (lookup_weaken _ _ _ _ Hx Hsub).
    split; [done |]. eapply elem_of_dom_2. by eapply lookup_weaken. }
  assert (forall c p, c ∈ dom graph -> parent_of c p ->
    p ∈ dom graph /\ (gen_of graph p < gen_of graph c)%Z) as Hstep.
  { intros c p Hc (t & ps & Hcm & Hp). destruct (Hgood c Hc) as (r & Hl & Hcr & Hx).
    destruct (Hx I) as [Hcl _]. rewrite Hcm in Hcr. injection Hcr as -> ->.
    split; [by apply Hcl |]. unfold gen_of at 2. rewrite Hl. by eapply (good_parent_gen True). }
  assert (forall c x, reach c x -> c ∈ dom graph -> (gen_of graph x <= gen_of graph c)%Z) as Hmono.
  { induction 1 as [c | c d' x Hp _ IH]; [lia |]. intros Hc.
    destruct (Hstep c d' Hc Hp) as [Hd Hlt]. specialize (IH Hd). lia. }
  assert (is_Some (records !! id)) as Hid by (by eapply (i_rec _ _ _ _ _ _ Hinv)).
  apply Hcom in Hh. clear Hcom. revert Hh.
  induction Hr as [h | c p x Hp Hr IH]; [congruence |]. intros Hc.
  apply (IH Hw HL Hnd Hid).
  assert (is_Some (records !! c)) as Hcr by (by eapply (i_rec _ _ _ _ _ _ Hinv)).
  destruct (Hgen c Hcr) as [Hgc Hdc]. destruct (Hstep c p Hdc Hp) as [Hdp Hlt].
  pose proof (Hmono p x Hr Hdp). destruct (Hgen x Hid) as [Hgx _].
  destruct (decide (c ∈ done)) as [Hdone | Hdone].
  - apply (k_have _ _ _ _ Hcons c p Hdone Hc). apply parents_of_spec.
    destruct Hcr as [r Hcr]. exists r. split; [done |].
    destruct Hp as (t & ps & Hcm & Hpp). pose proof (i_faithful _ _ _ _ _ _ Hinv _ _ Hcr). congruence.
  - exfalso. destruct (i_queue _ _ _ _ _ _ Hinv c) as [?%not_elem_of_nil | (e & He & <-)]; [by eexists | done | done |].
    destruct (i_front _ _ _ _ _ _ Hinv e He) as (_ & r & Hrr & Hgr). specialize (Hfr e He).
    assert (gen_of records (qe_oid e) = qe_generation e) by (unfold gen_of; by rewrite Hrr). lia.
Qed.

(** ** The loop *)

Lemma disc_inv_grow records records' lvl cur done send d :
  disc_inv records lvl cur done send d -> records ⊆ records' -> faithful records' ->
  disc_inv records' lvl cur done send d.
Proof.
  intros [Hf Hrec Hfront Hh Hw Hdone Hpend Hq Hsend Hlvl] Hsub Hf'. split; try done.
  - intros id f Hs. destruct (Hrec id f Hs) as [r Hr]. exists r. by eapply lookup_weaken.
  - intros e He. destruct (Hfront e He) as (Hs & r & Hr & Hg). split; [done |].
    exists r. split; [by eapply lookup_weaken | done].
  - intros id Hid. destruct (Hdone id Hid) as ([f Hs] & Hor & Hps). split; [by eexists | split; [done |]].
    intros Hc r p Hr. destruct (Hrec id f Hs) as [r' Hr'].
    assert (r' = r) as -> by (pose proof (lookup_weaken _ _ _ _ Hr' Hsub); congruence). by apply Hps.
Qed.

Lemma gen_of_grow (records records' : Records) id :
  records ⊆ records' -> is_Some (records !! id) ->
  gen_of records' id = gen_of records id /\ parents_of records' id = parents_of records id.
Proof.
  intros Hsub [r Hr]. unfold gen_of, parents_of. by rewrite Hr, (lookup_weaken _ _ _ _ Hr Hsub).
Qed.

Lemma cons_inv_grow records records' done send d :
  disc_inv records [] ∅ done send d -> records ⊆ records' -> cons_inv records done send d ->
  cons_inv records' done send d.
Proof.
  intros Hinv Hsub [Hs Hd Hh Hsend Hord].
  assert (forall id, id ∈ done -> is_Some (records !! id)) as Hload.
  { intros id Hid. destruct (i_done _ _ _ _ _ _ Hinv id Hid) as [[f Hf] _].
    by eapply (i_rec _ _ _ _ _ _ Hinv). }
  assert (forall id, id ∈ send -> is_Some (records !! id)) as Hloads.
  { intros id Hid. apply Hload. by apply (i_send _ _ _ _ _ _ Hinv). }
  split; try done.
  - intros e id He Hid. destruct (gen_of_grow _ _ id Hsub (Hload id Hid)) as [-> _]. by apply Hd.
  - intros id p Hid. destruct (gen_of_grow _ _ id Hsub (Hload id Hid)) as [_ ->]. by apply Hh.
  - clear Hsend Hinv. induction Hord as [| a l Hord IH Ha]; [constructor |].
    constructor; [apply IH; intros; apply Hloads; by right |].
    apply Forall_forall. intros b Hb. rewrite Forall_forall in Ha.
    destruct (gen_of_grow _ _ a Hsub) as [-> _]; [apply Hloads; by left |].
    destruct (gen_of_grow _ _ b Hsub) as [-> _]; [apply Hloads; by right |]. by apply Ha.
Qed.

Lemma sorted_head_max (heap : list QueueEntry) e rest x :
  StronglySorted (fun a b => pops_before a b = true) heap -> heap = e :: rest -> x ∈ heap ->
  (qe_generation x <= qe_generation e)%Z.
Proof.
  intros Hs -> [-> | Hx]%elem_of_cons; [lia |]. apply StronglySorted_inv in Hs as [_ Ha].
  rewrite Forall_forall in Ha. by apply pops_before_gen, Ha.
Qed.

(** What is left after a level is drained lies strictly below it. *)
Lemma drained_below L heap done level rest e rest0 :
  StronglySorted (fun a b => pops_before a b = true) heap -> heap = e :: rest0 -> qe_generation e = L ->
  drain L heap done ∅ = (level, rest) ->
  StronglySorted (fun a b => pops_before a b = true) rest
  /\ forall x, x ∈ rest -> (qe_generation x < L)%Z.
Proof.
  intros Hs Hh Hg Hd. pose proof (drain_spec L heap done ∅) as Hspec. rewrite Hd in Hspec.
  destruct Hspec as (popped & Happ & _ & Hhd & _).
  assert (forall x, x ∈ heap -> (qe_generation x <= L)%Z) as Hmax
    by (intros x Hx; rewrite <- Hg; by eapply sorted_head_max).
  rewrite Happ in Hs, Hmax. apply StronglySorted_app in Hs as (_ & _ & Hs). split; [done |].
  intros x Hx. destruct rest as [| y rest]; [by apply not_elem_of_nil in Hx |].
  assert (qe_generation y < L)%Z as Hy.
  { specialize (Hhd y eq_refl). specialize (Hmax y). rewrite elem_of_app, elem_of_cons in Hmax.
    specialize (Hmax ltac:(auto)). lia. }
  pose proof (sorted_head_max _ y rest x Hs eq_refl Hx). lia.
Qed.

Lemma mark_have d id flag gen x : state d !! x = Some Have -> state (mark d id flag gen) !! x = Some Have.
Proof.
  intros Hx. destruct (mark_cases d id flag gen) as [(-> & _) | [(Hn & ->) | (Hw & -> & ->)]];
    cbn [state]; [done | |]; (destruct (decide (x = id)) as [-> |]; [congruence | by rewrite lookup_insert_ne]).
Qed.

Lemma visit_level_have records lvl done send d done' send' d' x :
  visit_level records lvl done send d = Some (done', send', d') ->
  state d !! x = Some Have -> state d' !! x = Some Have.
Proof.
  assert (forall flag ps d d', mark_parents records flag ps d = Some d' ->
    state d !! x = Some Have -> state d' !! x = Some Have) as Hmp.
  { intros flag ps. induction ps as [| p ps IH]; intros d0 d1; cbn [mark_parents]; [by intros [= ->] |].
    destruct (records !! p); [| done]. intros H Hx. eapply IH; [exact H |]. by apply mark_have. }
  revert done send d. induction lvl as [| id lvl IH]; intros done send d; cbn [visit_level].
  { by intros [= _ _ <-]. }
  destruct (decide (id ∈ done)); [apply IH |].
  destruct (state d !! id) as [[] |]; [| | apply IH];
    (destruct (mark_parents _ _ _ _) as [d1 |] eqn:Hm; [| done]); intros H Hx;
    (eapply IH; [exact H |]); eapply Hmp; done.
Qed.

(** The commits of a drained level of a sound graph, and their parents below. *)
Lemma level_gens records records' (graph : gmap Oid Rec) done send d e rest0 level rest id :
  disc_inv records [] ∅ done send d -> frontier d = e :: rest0 ->
  drain (qe_generation e) (frontier d) done ∅ = (level, rest) ->
  records ⊆ records' -> records' ⊆ graph -> graph_good True m graph (dom graph) ->
  (forall id p, id ∈ level -> p ∈ parents_of records' id -> is_Some (records' !! p)) ->
  id ∈ level -> gen_of records' id = qe_generation e
    /\ forall p, p ∈ parents_of records' id -> (gen_of records' p < qe_generation e)%Z.
Proof.
  intros Hinv Hfr Hdr Hsub Hsubg Hgood Hps Hid. pose proof (drain_spec (qe_generation e) (frontier d) done ∅) as Hspec.
  rewrite Hdr in Hspec. destruct Hspec as (popped & Happ & Hpop & _ & _ & Hl & _).
  destruct (Hl id Hid) as (Hnd & _ & x & Hx & <-). rewrite Forall_forall in Hpop. specialize (Hpop x Hx).
  assert (x ∈ frontier d) as Hxf by (rewrite Happ; apply elem_of_app; by left).
  destruct (i_front _ _ _ _ _ _ Hinv x Hxf) as (_ & r & Hr & Hg).
  assert (gen_of records (qe_oid x) = qe_generation e) as Hgen by (unfold gen_of; rewrite Hr; congruence).
  destruct (gen_of_grow _ _ (qe_oid x) Hsub) as [Hgen' _]; [by eexists |]. split; [congruence |].
  intros p Hp. destruct (Hps _ _ Hid Hp) as [rp Hrp].
  assert (gen_of records' p = gen_of graph p) as ->
    by (unfold gen_of; by rewrite Hrp, (lookup_weaken _ _ _ _ Hrp Hsubg)).
  apply parents_of_spec in Hp as (r' & Hr' & Hp). pose proof (lookup_weaken _ _ _ _ Hr' Hsubg) as Hg'.
  replace (qe_generation e) with (generation r').
  - eapply (good_parent_gen True); [exact Hgood | done | by eapply elem_of_dom_2 | done | done].
  - unfold gen_of in Hgen'. rewrite Hr' in Hgen'. unfold gen_of in Hgen. congruence.
Qed.

(** Visiting the drained level of a sound graph keeps the pruning invariant. *)
Lemma level_cons records records' (graph : gmap Oid Rec) done send d e rest0 level rest done' send' d' :
  disc_inv records [] ∅ done send d -> cons_inv records done send d ->
  (forall h, h ∈ common -> state d !! h = Some Have) ->
  frontier d = e :: rest0 -> drain (qe_generation e) (frontier d) done ∅ = (level, rest) ->
  records ⊆ records' -> records' ⊆ graph -> graph_good True m graph (dom graph) ->
  (forall id p, id ∈ level -> p ∈ parents_of records' id -> is_Some (records' !! p)) ->
  visit_level records' level done send (mkDiscovery rest (state d) (pending d)) = Some (done', send', d') ->
  cons_inv records' done' send' d'.
Proof.
  intros Hinv Hcons Hcom Hfr Hdr Hsub Hsubg Hgood Hps Hv.
  pose proof (cons_inv_grow _ _ _ _ _ Hinv Hsub Hcons) as Hcons'.
  destruct (drained_below _ _ _ _ _ _ _ (k_sorted _ _ _ _ Hcons) Hfr eq_refl Hdr) as [Hsorted Hbelow].
  assert (forall x, x ∈ frontier d -> (qe_generation x <= qe_generation e)%Z) as Hmax
    by (intros x Hx; eapply sorted_head_max; [apply (k_sorted _ _ _ _ Hcons) | exact Hfr | done]).
  assert (forall id, id ∈ done -> (qe_generation e <= gen_of records' id)%Z) as Hdone.
  { intros id Hid. assert (e ∈ frontier d) as He by (rewrite Hfr; by left).
    pose proof (k_done _ _ _ _ Hcons' e id He Hid). lia. }
  apply (visit_level_cons _ (qe_generation e) _ _ _ _ _ _ _ Hv); try done.
  - intros id Hid.
    destruct (level_gens _ _ _ _ _ _ _ _ _ _ _ Hinv Hfr Hdr Hsub Hsubg Hgood Hps Hid) as [Hg Hbel]. split; [done | split; [| done]].
    pose proof (drain_spec (qe_generation e) (frontier d) done ∅) as Hspec. rewrite Hdr in Hspec.
    destruct Hspec as (popped & _ & _ & _ & _ & Hl & _). destruct (Hl id Hid) as (Hnd & _ & _).
    intros Hw. destruct (gen_of_grow records records' id Hsub) as [Hgen _]; [by eapply (i_rec _ _ _ _ _ _ Hinv) |].
    eapply (have_dominates records done send d graph (qe_generation e)); try done; [by etrans | congruence].
  - intros id p Hid. apply (k_have _ _ _ _ Hcons'). done.
  - apply (k_send _ _ _ _ Hcons').
  - intros id Hid. by apply Hdone, (i_send _ _ _ _ _ _ Hinv).
  - apply (k_order _ _ _ _ Hcons').
Qed.

(** Once the frontier is empty, a commit of the lowest level visited is sent. *)
Definition ended (records : Records) (send : list Oid) (d : Discovery) : Prop :=
  frontier d = [] -> forall id, is_Some (state d !! id) -> exists s, s ∈ send /\ (gen_of records s <= gen_of records id)%Z.

Lemma level_ended records records' (graph : gmap Oid Rec) done send d e rest0 level rest done' send' d' :
  disc_inv records [] ∅ done send d -> cons_inv records done send d -> pending d <> ∅ ->
  frontier d = e :: rest0 -> drain (qe_generation e) (frontier d) done ∅ = (level, rest) ->
  records ⊆ records' -> records' ⊆ graph -> graph_good True m graph (dom graph) ->
  (forall id p, id ∈ level -> p ∈ parents_of records' id -> is_Some (records' !! p)) ->
  visit_level records' level done send (mkDiscovery rest (state d) (pending d)) = Some (done', send', d') ->
  disc_inv records' [] ∅ done' send' d' -> (forall x, is_Some (state d !! x) -> is_Some (state d' !! x)) ->
  ended records' send' d'.
Proof.
  intros Hinv Hcons Hp Hfr Hdr Hsub Hsubg Hgood Hps Hv Hinv' Hmono Hend.
  destruct (drained_below _ _ _ _ _ _ _ (k_sorted _ _ _ _ Hcons) Hfr eq_refl Hdr) as [Hsorted _].
  assert (forall id, id ∈ level -> gen_of records' id = qe_generation e
    /\ forall p, p ∈ parents_of records' id -> (gen_of records' p < qe_generation e)%Z) as Hlvl.
  { intros id Hid. exact (level_gens _ _ _ _ _ _ _ _ _ _ _ Hinv Hfr Hdr Hsub Hsubg Hgood Hps Hid). }
  destruct (visit_level_sends _ _ _ _ _ _ _ _ _ Hv Hlvl Hsorted) as (_ & Hdone & Hsent). cbn [state] in Hsent.
  assert (forall x, is_Some (state d' !! x) -> x ∈ done') as Hall.
  { intros x Hx. destruct (decide (x ∈ done')) as [| Hn]; [done |].
    destruct (i_queue _ _ _ _ _ _ Hinv' x Hx Hn) as [?%not_elem_of_nil | (y & Hy & _)]; [done |].
    rewrite Hend in Hy. by apply not_elem_of_nil in Hy. }
  apply set_choose_L in Hp as [w Hw]. apply (i_pend _ _ _ _ _ _ Hinv) in Hw as [Hw Hwd].
  assert (w ∈ level) as Hwl by (destruct (Hdone w (Hall w (Hmono w ltac:(by eexists)))); done).
  intros id Hid. exists w. split; [by apply Hsent |]. destruct (Hlvl w Hwl) as [-> _].
  destruct (Hdone id (Hall id Hid)) as [Hd | Hl]; [| destruct (Hlvl id Hl) as [-> _]; lia].
  pose proof (cons_inv_grow _ _ _ _ _ Hinv Hsub Hcons) as Hcons'. assert (e ∈ frontier d) as He by (rewrite Hfr; by left).
  pose proof (k_done _ _ _ _ Hcons' e id He Hd). lia.
Qed.

(** The level loop ends, either with every want resolved or with a failure of
    the store or of an object it read. *)
Lemma discover_spec ex rank fuel records done send d g :
  ranked m rank -> potential d + graph_fuel m <= fuel -> cached ex m records g ->
  disc_inv records [] ∅ done send d ->
  (ex -> cons_inv records done send d /\ ended records send d /\ forall h, h ∈ common -> state d !! h = Some Have) ->
  let '(r, g') := discover fuel records done send d g in
  ws_objects g' = m /\ graph_wf ex g'
  /\ match r with
     | Ok (send', d') => exists records' done',
         cached ex m records' g' /\ disc_inv records' [] ∅ done' send' d' /\ pending d' = ∅
         /\ (ex -> cons_inv records' done' send' d' /\ ended records' send' d'
               /\ forall h, h ∈ common -> state d' !! h = Some Have)
         /\ (forall x, is_Some (state d !! x) -> is_Some (state d' !! x))
     | Err e => fault m e
     end.
Proof.
  intros Hr. revert records done send d g.
  induction fuel as [| fuel IH]; intros records done send d g Hfuel Hca Hinv Hcons; cbn [discover].
  all: destruct (decide (pending d = ∅)) as [Hp | Hp];
    [destruct Hca as (? & ? & ?); split_and!; try done; exists records, done; split_and!; try done; naive_solver |].
  all: destruct (frontier d) as [| e rest0] eqn:Hfr.
  1, 3: exfalso; apply Hp, set_eq; intros id; split; [| set_solver]; intros Hid;
    apply (i_pend _ _ _ _ _ _ Hinv) in Hid as [Hs Hnd];
    destruct (i_queue _ _ _ _ _ _ Hinv id) as [?%not_elem_of_nil | (x & Hx & _)]; [by eexists | done | done |];
    rewrite Hfr in Hx; by apply not_elem_of_nil in Hx.
  { unfold potential in Hfuel. rewrite Hfr in Hfuel. cbn in Hfuel. lia. }
  rewrite <- Hfr.
  pose proof (drain_potential (qe_generation e) d done e rest0 Hfr eq_refl) as Hpot.
  pose proof (drain_inv _ _ _ _ (qe_generation e) Hinv) as Hdinv.
  destruct (drain (qe_generation e) (frontier d) done ∅) as [level rest] eqn:Hdr.
  pose proof (prefetch_spec ex m rank Hr (S fuel) ltac:(lia) records
    (concat (map (parents_of records) level)) g Hca) as Hpf.
  destruct (prefetch_records (S fuel) records _ g) as [[fetched records'] g'].
  destruct Hpf as (Hca' & Hsub & _ & Hft & Hall & _).
  pose proof (first_error_spec m records' fetched
    (fun id r Hin => proj2 (proj2 (Hft id r Hin)))) as Hfe.
  destruct (first_error fetched) as [[] | er]; [| by destruct Hca' as (? & ? & _)].
  assert (faithful records') as Hf' by (intros id r; by eapply cached_commit).
  assert (forall id p, id ∈ level -> p ∈ parents_of records' id -> is_Some (records' !! p)) as Hps.
  { intros id p Hid Hpp. destruct (proj2 (i_lvl _ _ _ _ _ _ Hdinv) id Hid) as [_ [f Hs]].
    destruct (gen_of_grow _ _ id Hsub) as [_ Heq]; [by eapply (i_rec _ _ _ _ _ _ Hdinv) |].
    rewrite Heq in Hpp. destruct (Hall p) as [[r Hrp] | Hin].
    - apply list_elem_of_In, in_concat. exists (parents_of records id).
      split; [by apply in_map, list_elem_of_In | by apply list_elem_of_In].
    - exists r. by eapply lookup_weaken.
    - by apply Hfe. }
  pose proof (disc_inv_grow _ _ _ _ _ _ _ Hdinv Hsub Hf') as Hdinv'.
  destruct (visit_level_inv _ _ _ _ _ Hdinv' Hps) as (done' & send' & d' & Hv & Hinv' & Hmono).
  rewrite Hv. cbn [state] in Hmono.
  pose proof (visit_level_potential _ _ _ _ _ _ _ _ Hf' Hv) as Hpot'.
  specialize (IH records' done' send' d' g' ltac:(lia) Hca' Hinv').
  destruct (discover fuel records' done' send' d' g') as [r g''].
  destruct IH as (Ho & Hwf & Hok).
  - intros Hex. destruct (Hcons Hex) as (Hc & _ & Hcom). destruct Hca' as (Ho' & Hwf' & Hsubg).
    assert (graph_good True m (ws_graph g') (dom (ws_graph g'))) as Hgood.
    { intros id Hid. destruct (Hwf' id Hid) as (r0 & Hl & Hc0 & Hx). exists r0.
      rewrite <- Ho'. split; [done | split; [done | by auto]]. }
    split; [| split].
    + by eapply (level_cons records records').
    + by eapply (level_ended records records').
    + intros h Hh. eapply visit_level_have; [exact Hv | by apply Hcom].
  - split; [done | split; [done |]]. destruct r as [[send'' d''] | er]; [| done].
    destruct Hok as (records'' & done'' & H1 & H2 & H3 & H4 & H5).
    exists records'', done''. split_and!; try done. intros x Hx. by apply H5, Hmono.
Qed.

End invariant.

(** ** Peeling *)

(** [id] is, or is a tag that leads through [tags] to, commit [c]. *)
Inductive peels (m : gmap Oid (Kind * bytes)) : Oid -> Oid -> list Oid -> Prop :=
  | peels_commit id body : m !! id = Some (KCommit, body) -> peels m id id []
  | peels_tag id body target c tags :
      m !! id = Some (KTag, body) -> tag_ref body (oid_kind id) = Ok target ->
      peels m target c tags -> peels m id c (id :: tags).

(** Tags are acyclic, their chains bounded by the fuel. *)
Definition tags_ranked (m : gmap Oid (Kind * bytes)) (rank : Oid -> nat) (fuel : nat) : Prop :=
  0 < fuel
  /\ forall id kb, m !! id = Some kb -> rank id < fuel
       /\ forall target, kb.1 = KTag -> tag_ref kb.2 (oid_kind id) = Ok target -> rank target < rank id.

Lemma peel_loop_spec m rank bound fuel want cursor tags g :
  tags_ranked m rank bound -> ws_objects g = m -> 0 < fuel ->
  (is_Some (m !! cursor) -> rank cursor < fuel) ->
  let '(r, g') := peel_loop fuel want cursor tags g in
  ws_same g g'
  /\ match r with
     | Ok (c, tags') => exists ts, tags' = tags ++ ts /\ peels m cursor c ts
     | Err e => fault m e
     end.
Proof.
  intros [_ Hr]. revert cursor tags g. induction fuel as [| fuel IH]; intros cursor tags g Ho Hpos Hf; [lia |].
  cbn [peel_loop]. unfold se_bind at 1.
  destruct (read_object cursor g) as (r & g1 & -> & Hs & Hv). rewrite Ho in Hv.
  destruct r as [v | e]; [subst v | done].
  destruct (m !! cursor) as [[kind body] |] eqn:E.
  2: { split; [done |]. case_decide; [subst |]; done. }
  destruct (Hr _ _ E) as [_ Htag].
  destruct kind; try (split; [done | by exists body]).
  - split; [done |]. exists []. split; [by rewrite app_nil_r | by econstructor].
  - unfold se_bind, se_lift. destruct (tag_ref body (oid_kind cursor)) as [target | e] eqn:Et.
    2: { split; [done |]. by exists KTag, body. }
    cbn [map_err]. specialize (Htag target eq_refl Et). specialize (Hf ltac:(by eexists)).
    specialize (IH target (tags ++ [cursor]) g1). destruct Hs as (Ho1 & Hg1 & Hr1).
    destruct (peel_loop fuel want target _ g1) as [r g2].
    destruct IH as [Hs2 Hok]; [congruence | lia | intros _; lia |]. destruct Hs2 as (Ho2 & Hg2 & Hr2).
    split; [split; [congruence | split; congruence] |].
    destruct r as [[c tags'] | e]; [| done]. destruct Hok as (ts & -> & Hp).
    exists (cursor :: ts). split; [by rewrite <- app_assoc | by econstructor].
Qed.

Lemma peel_wants_spec rank fuel wants g :
  tags_ranked (ws_objects g) rank fuel ->
  let '(r, g') := peel_wants fuel wants g in
  ws_same g g'
  /\ match r with
     | Ok (commits, tags) => exists chains,
         Forall2 (fun w ct => peels (ws_objects g) w ct.1 ct.2) wants chains
         /\ commits = chains.*1 /\ NoDup tags /\ forall t, t ∈ tags <-> t ∈ concat chains.*2
     | Err e => fault (ws_objects g) e
     end.
Proof.
  intros Hr. unfold peel_wants, se_bind.
  assert (forall w g0, ws_objects g0 = ws_objects g -> let '(r, g1) := peel_want fuel w g0 in
    ws_same g0 g1 /\ match r with
                     | Ok ct => peels (ws_objects g0) w ct.1 ct.2
                     | Err e => fault (ws_objects g0) e
                     end) as Hone.
  { intros w g0 Ho. pose proof (peel_loop_spec _ _ _ fuel w w [] g0 Hr Ho) as Hp.
    unfold peel_want. destruct (peel_loop fuel w w [] g0) as [r g1].
    destruct Hp as [Hs Hok]; [apply Hr | intros [kb Hkb]; by destruct (proj2 Hr _ _ Hkb) |].
    split; [done |]. rewrite Ho. destruct r as [[c ts] |]; [| done]. by destruct Hok as (? & -> & ?). }
  pose proof (each_spec _ _ (fun g w ct => peels (ws_objects g) w ct.1 ct.2) Hone
    ltac:(by intros g0 g1 w ct (-> & _)) wants g eq_refl) as Heach.
  destruct (each (peel_want fuel) wants g) as [[chains | e] g']; destruct Heach as [Hs Hall]; [| done].
  split; [done |]. exists chains. split; [done | split; [done |]].
  destruct (ordered_fold (concat (map snd chains)) ordered_empty ordered_empty_ok) as [Hok Hmem].
  split; [apply Hok |]. intros t. rewrite Hmem. cbn. rewrite elem_of_nil. tauto.
Qed.

(** ** Marking the haves and the wants *)

Definition recognized (fetched : list (Oid * result WE Rec)) : list Oid :=
  omap (fun p => match p.2 with Ok _ => Some p.1 | Err _ => None end) fetched.

(** What a marking pass keeps and adds. *)
Definition marked_more (m : gmap Oid (Kind * bytes)) (records : Records) (ids : list Oid) (flag : Flag)
    (C W : list Oid) (d d' : Discovery) : Prop :=
  disc_inv m C W records [] ∅ ∅ [] d'
  /\ (StronglySorted (fun a b => pops_before a b = true) (frontier d) ->
      StronglySorted (fun a b => pops_before a b = true) (frontier d'))
  /\ (forall h, state d !! h = Some Have -> state d' !! h = Some Have)
  /\ (forall x, is_Some (state d !! x) \/ x ∈ ids -> is_Some (state d' !! x))
  /\ (flag = Have -> forall x, x ∈ ids -> state d' !! x = Some Have)
  /\ potential m d' <= potential m d.

Lemma marked_more_step m records id r ids flag C W d d' :
  disc_inv m C W records [] ∅ ∅ [] d -> records !! id = Some r ->
  (flag = Have -> from_have m C id) -> (flag = Want -> from_want m W id) ->
  (disc_inv m C W records [] ∅ ∅ [] (mark d id flag (generation r)) ->
   marked_more m records ids flag C W (mark d id flag (generation r)) d') ->
  marked_more m records (id :: ids) flag C W d d'.
Proof.
  intros Hinv Hr Hh Hw Hk. pose proof (mark_inv _ _ _ _ _ _ _ _ _ _ _ _ Hinv Hr Hh Hw) as Hinv1.
  destruct (Hk Hinv1) as (H1 & H2 & H3 & H4 & H5 & H6).
  split; [done | split; [| split; [| split; [| split]]]].
  - intros Hs. apply H2.
    destruct (mark_cases d id flag (generation r)) as [(-> & _) | [(Hn & ->) | (Hw' & -> & ->)]];
      [done | |]; by apply heap_push_sorted.
  - intros h Hd. by apply H3, mark_have.
  - intros x Hx. apply H4. destruct Hx as [Hx | [-> | Hx]%elem_of_cons]; [| | by right];
      left; apply mark_marked; auto.
  - intros Hf x [-> | Hx]%elem_of_cons; [| by apply H5]. apply H3.
    destruct (mark_cases d id flag (generation r)) as [(-> & _ & Hd) | [(Hn & ->) | (Hw' & -> & ->)]];
      [auto | |]; cbn [state]; by rewrite lookup_insert_eq, ?Hf.
  - etrans; [exact H6 |]. eapply mark_potential. by eapply (i_faithful _ _ _ _ _ _ _ _ _ Hinv).
Qed.

Lemma marked_more_refl m records flag C W d :
  disc_inv m C W records [] ∅ ∅ [] d -> marked_more m records [] flag C W d d.
Proof.
  intros Hinv. split; [done | split; [done | split; [done | split; [| split; [| done]]]]].
  - by intros x [? | ?%not_elem_of_nil].
  - by intros _ x ?%not_elem_of_nil.
Qed.

(** Only haves that are no commits of the repository are dropped. *)
Lemma mark_haves_spec m records W fetched acc d :
  (forall id r, (id, r) ∈ fetched -> match r with
     | Ok rec => records !! id = Some rec
     | Err e => fault m e /\ expects_commit r
     end) ->
  match mark_haves fetched acc d with
  | Ok (C, d') => C = acc ++ recognized fetched
      /\ (forall id e, (id, Err e) ∈ fetched -> forall body, m !! id <> Some (KCommit, body))
      /\ (forall C', (forall h, h ∈ recognized fetched -> h ∈ C') ->
          disc_inv m C' W records [] ∅ ∅ [] d ->
          marked_more m records (recognized fetched) Have C' W d d')
  | Err e => fault m e
  end.
Proof.
  revert acc d. induction fetched as [| [h r] fetched IH]; intros acc d Hft; cbn [mark_haves].
  { split; [by rewrite app_nil_r | split; [by intros ? ? ?%not_elem_of_nil |]].
    intros C' _. apply marked_more_refl. }
  pose proof (Hft h r (list_elem_of_here _ _)) as Hh.
  assert (forall id r, (id, r) ∈ fetched -> match r with
    | Ok rec => records !! id = Some rec | Err e => fault m e /\ expects_commit r end) as Hft'
    by (intros id r' Hin; apply Hft; by right).
  assert (forall e, r = Err e -> (forall body, m !! h <> Some (KCommit, body)) ->
    match mark_haves fetched acc d with
    | Ok (C, d') => C = acc ++ recognized ((h, r) :: fetched)
        /\ (forall id e, (id, Err e) ∈ (h, r) :: fetched -> forall body, m !! id <> Some (KCommit, body))
        /\ (forall C', (forall x, x ∈ recognized ((h, r) :: fetched) -> x ∈ C') ->
            disc_inv m C' W records [] ∅ ∅ [] d ->
            marked_more m records (recognized ((h, r) :: fetched)) Have C' W d d')
    | Err e => fault m e
    end) as Hdrop.
  { intros e -> Hno. specialize (IH acc d Hft'). destruct (mark_haves fetched acc d) as [[C d'] | e']; [| done].
    destruct IH as (-> & Hd & Hm). split; [done | split; [| done]].
    intros id e0 [[= -> ->] | Hin]%elem_of_cons; [done | by eapply Hd]. }
  destruct r as [info | e].
  - specialize (IH (acc ++ [h]) (mark d h Have (generation info)) Hft').
    destruct (mark_haves fetched _ _) as [[C d'] | e]; [| done]. destruct IH as (-> & Hd & Hm).
    split; [by rewrite <- app_assoc | split].
    + intros id e [? | Hin]%elem_of_cons; [done | by eapply Hd].
    + intros C' HC Hinv. cbn. eapply marked_more_step; [done | done | | done |].
      * intros _. exists h. split; [apply HC; by left | done].
      * intros Hinv1. apply Hm; [| done]. intros x Hx. apply HC. by right.
  - destruct Hh as [Hf Hx]. destruct e; try done.
    + case_decide as E; [subst | done]. apply (Hdrop _ eq_refl). intros body. cbn in Hf. congruence.
    + case_decide as E; [subst | done]. apply (Hdrop _ eq_refl). intros body.
      destruct Hf as (b & Hb & Hne). cbn in Hx. congruence.
Qed.

Lemma mark_wants_spec m records C W fetched d :
  (forall id r, (id, r) ∈ fetched -> id ∈ W /\ match r with
     | Ok rec => records !! id = Some rec
     | Err e => fault m e
     end) ->
  disc_inv m C W records [] ∅ ∅ [] d ->
  match mark_wants fetched d with
  | Ok d' => marked_more m records fetched.*1 Want C W d d'
  | Err e => fault m e
  end.
Proof.
  revert d. induction fetched as [| [w r] fetched IH]; intros d Hft Hinv; cbn [mark_wants].
  { by apply marked_more_refl. }
  destruct (Hft w r (list_elem_of_here _ _)) as [HW Hr].
  destruct r as [info | e]; [cbn | done].
  assert (from_want m W w) as Hw by (exists w; split; [done | reflexivity]).
  specialize (IH (mark d w Want (generation info)) ltac:(intros ? ? ?; apply Hft; by right)).
  assert (disc_inv m C W records [] ∅ ∅ [] (mark d w Want (generation info))) as Hinv1
    by (by eapply mark_inv).
  specialize (IH Hinv1). destruct (mark_wants fetched _) as [d' | e]; [| done].
  by eapply marked_more_step.
Qed.

(** ** The selection *)

Record selected (ex : Prop) (m : gmap Oid (Kind * bytes)) (graph : gmap Oid Rec) (wants haves : list Oid)
    (sel : Selection Oid) (W commits tags : list Oid) : Prop := {
  s_wants : exists chains, Forall2 (fun w ct => peels m w ct.1 ct.2) wants chains
    /\ W = chains.*1 /\ forall t, t ∈ tags <-> t ∈ concat chains.*2;
  s_send : to_send sel = commits ++ tags;
  s_nodup : NoDup (to_send sel);
  s_common : NoDup (common sel)
    /\ forall h, h ∈ common sel <-> h ∈ haves /\ exists body, m !! h = Some (KCommit, body);
  s_sound : forall c, c ∈ commits -> from_want m W c;
  s_complete : forall c, from_want m W c -> c ∈ commits \/ from_have m (common sel) c;
  s_exact : ex -> forall c, c ∈ commits -> ~ from_have m (common sel) c;
  s_order : ex -> StronglySorted (fun a b => (gen_of graph b <= gen_of graph a)%Z) commits;
  s_bounded : ex -> (bounded_by_haves sel = true <->
    exists c, from_have m (common sel) c /\ forall s, s ∈ commits -> (gen_of graph c < gen_of graph s)%Z);
}.

(** With nothing pending, every mark has been followed to the end. *)
Lemma resolved_complete m C W records done send d c :
  disc_inv m C W records [] ∅ done send d -> pending d = ∅ ->
  (forall w, w ∈ W -> is_Some (state d !! w)) ->
  from_want m W c -> c ∈ send \/ from_have m C c.
Proof.
  intros Hinv Hp HW (w & Hw & Hr).
  assert (forall x, is_Some (state d !! x) -> x ∈ send \/ from_have m C x) as Hmarked.
  { intros x [[] Hx]; [| right; by eapply i_have]. left.
    destruct (decide (x ∈ done)) as [Hd | Hd].
    - destruct (i_done _ _ _ _ _ _ _ _ _ Hinv x Hd) as (_ & [? | ?] & _); [done | congruence].
    - assert (x ∈ pending d) as Hin by (by apply (i_pend _ _ _ _ _ _ _ _ _ Hinv)).
      rewrite Hp in Hin. set_solver. }
  specialize (Hmarked w (HW w Hw)) as Hbase. clear HW Hw.
  induction Hr as [w | w p c Hpar Hr IH]; [done |]. apply IH.
  destruct Hbase as [Hs | Hh]; [| right; by eapply from_have_parent].
  destruct (proj2 (i_send _ _ _ _ _ _ _ _ _ Hinv) w Hs) as [Hd _].
  destruct (i_done _ _ _ _ _ _ _ _ _ Hinv w Hd) as ([f Hf] & _ & Hps).
  destruct (i_rec _ _ _ _ _ _ _ _ _ Hinv w f Hf) as [r Hrec].
  destruct Hpar as (t & ps & Hc & Hpp). pose proof (i_faithful _ _ _ _ _ _ _ _ _ Hinv w r Hrec).
  apply Hmarked, (Hps ltac:(set_solver) r p Hrec). congruence.
Qed.

(** With exact generations the frontier runs dry unless the haves reach below
    everything sent. *)
Lemma frontier_dry m C W records done send d :
  disc_inv m C W records [] ∅ done send d -> cons_inv m C records done send d -> ended records send d ->
  pending d = ∅ -> (forall h, h ∈ C -> state d !! h = Some Have) ->
  (frontier d <> [] <-> exists c, from_have m C c /\ is_Some (records !! c)
     /\ forall s, s ∈ send -> (gen_of records c < gen_of records s)%Z)
  /\ (frontier d = [] -> forall c, from_have m C c -> is_Some (records !! c)).
Proof.
  intros Hinv Hcons Hend Hp HC.
  assert (frontier d = [] -> forall c, from_have m C c -> is_Some (state d !! c)) as Hmarked.
  { intros Hfr c (h & Hh%HC & Hr). assert (is_Some (state d !! h)) as Hm by by eexists. clear Hh.
    induction Hr as [h | h p c (t & ps & Hc & Hpp) Hr IH]; [done |]. apply IH. destruct Hm as [f Hf].
    assert (h ∈ done) as Hd.
    { destruct (decide (h ∈ done)) as [| Hn]; [done |].
      destruct (i_queue _ _ _ _ _ _ _ _ _ Hinv h) as [?%not_elem_of_nil | (y & Hy & _)]; [by eexists | done | done |].
      rewrite Hfr in Hy. by apply not_elem_of_nil in Hy. }
    destruct (i_rec _ _ _ _ _ _ _ _ _ Hinv h f Hf) as [r Hrec].
    destruct (i_done _ _ _ _ _ _ _ _ _ Hinv h Hd) as (_ & _ & Hps).
    pose proof (i_faithful _ _ _ _ _ _ _ _ _ Hinv h r Hrec). apply (Hps ltac:(set_solver) r p Hrec). congruence. }
  assert (forall c, is_Some (state d !! c) -> is_Some (records !! c)) as Hrecs
    by (intros c [f Hf]; by eapply (i_rec _ _ _ _ _ _ _ _ _ Hinv)).
  split; [split |].
  - destruct (frontier d) as [| e l] eqn:Hfr; [done |]. intros _.
    assert (e ∈ frontier d) as He by (rewrite Hfr; by left).
    destruct (i_front _ _ _ _ _ _ _ _ _ Hinv e He) as (Hs & r & Hr & Hg).
    assert (gen_of records (qe_oid e) = qe_generation e) as Hge by (unfold gen_of; by rewrite Hr).
    assert (qe_oid e ∉ done) as Hnd by (intros Hd; pose proof (k_done _ _ _ _ _ _ Hcons e _ He Hd); lia).
    exists (qe_oid e). split; [| split; [by eexists |]].
    + destruct Hs as [[] Hs]; [| by eapply i_have]. exfalso.
      assert (qe_oid e ∈ pending d) as Hin by (by apply (i_pend _ _ _ _ _ _ _ _ _ Hinv)). rewrite Hp in Hin. set_solver.
    + intros s Hsend. destruct (proj2 (i_send _ _ _ _ _ _ _ _ _ Hinv) s Hsend) as [Hd _].
      pose proof (k_done _ _ _ _ _ _ Hcons e s He Hd). lia.
  - intros (c & Hc & _ & Hlow) Hfr. destruct (Hend Hfr c (Hmarked Hfr c Hc)) as (s & Hs & Hle).
    specialize (Hlow s Hs). lia.
  - auto.
Qed.

Lemma default_inv m C W records :
  faithful m records -> disc_inv m C W records [] ∅ ∅ [] Discovery_default.
Proof.
  intros Hf. split; cbn [frontier state pending Discovery_default].
  - done.
  - intros id f. by rewrite lookup_empty.
  - by intros e ?%not_elem_of_nil.
  - intros id. by rewrite lookup_empty.
  - intros id. by rewrite lookup_empty.
  - by intros id ?%not_elem_of_empty.
  - intros id. rewrite lookup_empty. split; [by intros ?%not_elem_of_empty | by intros [? _]].
  - intros id. rewrite lookup_empty. by intros [? ?].
  - split; [constructor |]. by intros id ?%not_elem_of_nil.
  - split; [constructor |]. by intros id ?%not_elem_of_nil.
Qed.

Lemma recognized_spec fetched (h : Oid) :
  h ∈ recognized fetched <-> exists r, (h, Ok r) ∈ fetched.
Proof.
  unfold recognized. rewrite list_elem_of_omap. split.
  - intros ([id [r | e]] & Hin & [= <-]). by exists r.
  - intros [r Hin]. by exists (h, Ok r).
Qed.

Lemma recognized_nodup fetched : NoDup fetched.*1 -> NoDup (recognized fetched).
Proof.
  induction fetched as [| [h r] fetched IH]; cbn; [constructor |].
  intros [Hh Hnd]%NoDup_cons. destruct r as [r | e]; [| by apply IH].
  constructor; [| by apply IH]. intros [r' Hin]%recognized_spec. apply Hh.
  apply list_elem_of_fmap. by exists (h, Ok r').
Qed.

Lemma default_potential m : potential m Discovery_default = 2 * size m.
Proof.
  unfold potential. cbn [frontier Discovery_default length]. rewrite Nat.add_0_l.
  rewrite <- length_map_to_list. induction (map_to_list m) as [| x l IH]; [done |].
  cbn in *. rewrite IH. unfold pushes_left. cbn. rewrite lookup_empty. lia.
Qed.

(** The fuel a selection over [m] needs. *)
Definition select_fuel (m : gmap Oid (Kind * bytes)) : nat := 2 * size m + graph_fuel m.

(** From the end of discovery to the selection. *)
Lemma selected_of ex m rank wants haves g g' C W chains tags records done send d :
  ranked m rank -> cached ex m records g' -> ws_objects g = m ->
  Forall2 (fun w ct => peels m w ct.1 ct.2) wants chains -> W = chains.*1 ->
  NoDup tags -> (forall t, t ∈ tags <-> t ∈ concat chains.*2) ->
  NoDup C -> (forall h, h ∈ C <-> h ∈ haves /\ exists body, m !! h = Some (KCommit, body)) ->
  disc_inv m C W records [] ∅ done send d -> pending d = ∅ ->
  (ex -> cons_inv m C records done send d /\ ended records send d /\ forall h, h ∈ C -> state d !! h = Some Have) ->
  (forall w, w ∈ W -> is_Some (state d !! w)) ->
  selected ex m (ws_graph g') wants haves
    (mkSelection (send ++ tags) C (negb (bool_decide (frontier d = [])))) W send tags.
Proof.
  intros Hr (Ho & _ & Hsub) Hg Hch HW Hndt Ht Hndc HC Hinv Hp Hcons HWm.
  assert (forall c, c ∈ send -> is_Some (records !! c)) as Hload.
  { intros c Hc. destruct (proj2 (i_send _ _ _ _ _ _ _ _ _ Hinv) c Hc) as [Hd _].
    destruct (i_done _ _ _ _ _ _ _ _ _ Hinv c Hd) as ([f Hf] & _).
    by apply (i_rec _ _ _ _ _ _ _ _ _ Hinv c f). }
  split; cbn [to_send common bounded_by_haves]; try done.
  - by exists chains.
  - apply NoDup_app. split; [apply (i_send _ _ _ _ _ _ _ _ _ Hinv) | split; [| done]].
    intros c Hc Hct%Ht. destruct (Hload c Hc) as [r Hrec].
    pose proof (i_faithful _ _ _ _ _ _ _ _ _ Hinv c r Hrec) as Hcm.
    apply list_elem_of_In, in_concat in Hct as (l & Hl%list_elem_of_In & Hcl%list_elem_of_In).
    apply list_elem_of_fmap in Hl as (ct & -> & Hct).
    apply list_elem_of_lookup in Hct as [i Hi].
    destruct (Forall2_lookup_r _ _ _ _ _ Hch Hi) as (w & _ & Hpeel). clear -Hpeel Hcl Hcm.
    induction Hpeel as [| id body target c' l Htag Href _ IH]; [by apply not_elem_of_nil in Hcl |].
    apply elem_of_cons in Hcl as [-> | Hcl]; [| by apply IH].
    unfold commit_at in Hcm. by rewrite Htag in Hcm.
  - intros c Hc. by apply (proj2 (i_send _ _ _ _ _ _ _ _ _ Hinv)).
  - intros c Hc. by eapply resolved_complete.
  - intros Hex. apply (k_send _ _ _ _ _ _ (proj1 (Hcons Hex))).
  - intros Hex. pose proof (k_order _ _ _ _ _ _ (proj1 (Hcons Hex))) as Hord.
    clear Hcons Hinv. induction Hord as [| a l _ IH Ha]; [constructor |].
    constructor; [apply IH; intros; apply Hload; by right |].
    apply Forall_forall. intros b Hb. rewrite Forall_forall in Ha.
    destruct (gen_of_grow records (ws_graph g') a Hsub) as [-> _]; [apply Hload; by left |].
    destruct (gen_of_grow records (ws_graph g') b Hsub) as [-> _]; [apply Hload; by right |]. by apply Ha.
  - intros Hex. destruct (Hcons Hex) as (Hk & Hend & Hhave).
    destruct (frontier_dry _ _ _ _ _ _ _ Hinv Hk Hend Hp Hhave) as [Hdry Hload'].
    assert (forall c, is_Some (records !! c) -> gen_of (ws_graph g') c = gen_of records c) as Hgen
      by (intros c Hc; by apply gen_of_grow).
    rewrite negb_true_iff, bool_decide_eq_false. split.
    + intros (c & Hc & Hr' & Hlow)%Hdry. exists c. split; [done |]. intros s Hs.
      rewrite !Hgen by auto. by apply Hlow.
    + intros (c & Hc & Hlow) Hfr. apply (proj2 Hdry); [| done]. exists c. split; [done | split; [by apply Hload' |]].
      intros s Hs. specialize (Hlow s Hs). by rewrite !Hgen in Hlow by auto.
Qed.

Lemma select_spec ex fuel rank wants haves g :
  graph_wf ex g -> ranked (ws_objects g) rank -> tags_ranked (ws_objects g) rank fuel ->
  select_fuel (ws_objects g) <= fuel ->
  let '(r, g') := select_commits fuel wants haves g in
  ws_objects g' = ws_objects g /\ graph_wf ex g'
  /\ match r with
     | Ok sel => exists W commits tags,
         selected ex (ws_objects g) (ws_graph g') wants haves sel W commits tags
     | Err e => fault (ws_objects g) e
     end.
Proof.
  intros Hwf Hr Ht Hfuel. unfold select_fuel in Hfuel. set (m := ws_objects g) in *.
  unfold select_commits.
  assert (cached ex m ∅ g) as Hca0 by (split; [done | split; [done | apply map_empty_subseteq]]).
  pose proof (prefetch_spec ex m rank Hr fuel ltac:(lia) ∅ haves g Hca0) as Hpf.
  destruct (prefetch_records fuel ∅ haves g) as [[fetched records] g1].
  destruct Hpf as (Hca1 & _ & Hnd1 & Hft1 & Hall1 & Hback1).
  pose proof (mark_haves_spec m records) as Hmh.
  specialize (Hmh) with (fetched := fetched) (acc := []) (d := Discovery_default).
  assert (forall W, match mark_haves fetched [] Discovery_default with
    | Ok (C, d) => C = recognized fetched
        /\ (forall id e, (id, Err e) ∈ fetched -> forall body, m !! id <> Some (KCommit, body))
        /\ marked_more m records C Have C W Discovery_default d
    | Err e => fault m e
    end) as Hhaves.
  { intros W. specialize (Hmh W ltac:(intros id r Hin; by destruct (Hft1 id r Hin) as (_ & _ & ?))).
    destruct (mark_haves _ _ _) as [[C d] | e]; [| done]. destruct Hmh as (-> & Hd & Hm).
    split; [done | split; [done |]]. apply Hm; [done |].
    apply default_inv. intros id r. by eapply cached_commit. }
  destruct (mark_haves fetched [] Discovery_default) as [[C d] | e].
  2: { destruct Hca1 as (? & ? & _). split; [done | split; [done | exact (Hhaves [])]]. }
  destruct Hca1 as (Ho1 & Hwf1 & Hsub1). rewrite <- Ho1 in Ht.
  pose proof (peel_wants_spec rank fuel wants g1 Ht) as Hpeel.
  destruct (peel_wants fuel wants g1) as [rp g2]. destruct Hpeel as ((Ho2 & Hg2 & _) & Hpeel).
  assert (cached ex m records g2) as Hca2.
  { split; [congruence | split; [| by rewrite Hg2]]. unfold graph_wf. by rewrite Hg2, Ho2. }
  rewrite Ho1 in Hpeel. destruct rp as [[W tags] | e].
  2: { destruct Hca2 as (? & ? & _). done. }
  destruct Hpeel as (chains & Hch & HW & Hndt & Htags).
  pose proof (prefetch_spec ex m rank Hr fuel ltac:(lia) records W g2 Hca2) as Hpf.
  destruct (prefetch_records fuel records W g2) as [[fetched2 records2] g3].
  destruct Hpf as (Hca3 & Hsub2 & Hnd2 & Hft2 & Hall2 & _).
  destruct (Hhaves W) as (HC & Hdrop & Hinv1 & Hsort1 & Hhave1 & Hmark1 & HCh & Hpot1).
  assert (faithful m records2) as Hf2 by (intros id r; by eapply cached_commit).
  pose proof (disc_inv_grow _ _ _ _ _ _ _ _ _ _ Hinv1 Hsub2 Hf2) as Hinv2.
  pose proof (mark_wants_spec m records2 C W fetched2 d) as Hmw.
  specialize (Hmw ltac:(intros id r Hin; destruct (Hft2 id r Hin) as (? & _ & ?);
    split; [done | by destruct r; [| naive_solver]]) Hinv2).
  destruct (mark_wants fetched2 d) as [d2 | e].
  2: { destruct Hca3 as (? & ? & _). done. }
  destruct Hmw as (Hinv3 & Hsort3 & Hhave3 & Hmark3 & _ & Hpot3).
  pose proof (default_potential m) as Hpot0.
  pose proof (discover_spec m C W ex rank fuel records2 ∅ [] d2 g3 Hr ltac:(lia) Hca3 Hinv3) as Hdisc.
  destruct (discover fuel records2 ∅ [] d2 g3) as [r g4].
  destruct Hdisc as (Ho4 & Hwf4 & Hok).
  { intros _. split; [| split; [| intros h Hh; by apply Hhave3, HCh]].
    2: { intros Hfr x Hx. destruct (i_queue _ _ _ _ _ _ _ _ _ Hinv3 x Hx) as [?%not_elem_of_nil | (y & Hy & _)]; [set_solver | done |].
         rewrite Hfr in Hy. by apply not_elem_of_nil in Hy. }
    split.
    - apply Hsort3, Hsort1. constructor.
    - by intros ? ? _ ?%not_elem_of_empty.
    - by intros ? ? ?%not_elem_of_empty.
    - by intros ? ?%not_elem_of_nil.
    - constructor. }
  destruct r as [[send d4] | e]; [| done]. split; [done | split; [done |]].
  destruct Hok as (records4 & done4 & Hca4 & Hinv4 & Hp4 & Hcons4 & Hmono4).
  exists W, send, tags. eapply (selected_of ex m rank wants haves g); try done.
  - subst C. by apply recognized_nodup.
  - intros h. rewrite HC, recognized_spec. split.
    + intros [r Hin]. destruct (Hft1 h (Ok r) Hin) as (Hh & _ & Hrec). split; [done |].
      pose proof (cached_commit ex m records g2 h r Hca2 Hrec) as Hc.
      unfold commit_at in Hc. destruct (m !! h) as [[[] body] |]; try done. by exists body.
    + intros [Hh [body Hb]]. destruct (Hall1 h Hh) as [[? ?] | Hin]; [done |].
      apply list_elem_of_fmap in Hin as ([h' [r | e]] & -> & Hin); [by exists r |].
      exfalso. by apply (Hdrop _ _ Hin body).
  - intros w Hw. apply Hmono4, Hmark3. destruct (Hall2 w Hw) as [[r Hrec] | Hin]; [left | by right].
    destruct (Hback1 w r Hrec) as [? | Hin]; [done |].
    apply Hmark1. right. rewrite HC. apply recognized_spec. by exists r.
Qed.

(** C9: commit discovery never under-serves, ends and does not stall — over any
    commit graph whose records name the right trees and parents, however wrong
    their generations.  A selection lists, once each, commits reachable from the
    peeled wants and every tag on the way; a commit reachable from a want is
    sent or reachable from a recognized have; the recognized haves are exactly
    the haves that are commits of the repository.  Otherwise the walk fails with
    a store's failure or blames an object that is at fault. *)
Theorem select_commits_complete fuel rank wants haves g :
  graph_wf False g -> ranked (ws_objects g) rank -> tags_ranked (ws_objects g) rank fuel ->
  select_fuel (ws_objects g) <= fuel ->
  let '(r, g') := select_commits fuel wants haves g in
  ws_objects g' = ws_objects g
  /\ match r with
     | Ok sel => exists chains commits tags,
         Forall2 (fun w ct => peels (ws_objects g) w ct.1 ct.2) wants chains
         /\ to_send sel = commits ++ tags /\ NoDup (to_send sel)
         /\ (forall t, t ∈ tags <-> t ∈ concat chains.*2)
         /\ (forall h, h ∈ common sel <-> h ∈ haves /\ exists body, ws_objects g !! h = Some (KCommit, body))
         /\ (forall c, c ∈ commits -> from_want (ws_objects g) chains.*1 c)
         /\ forall c, from_want (ws_objects g) chains.*1 c ->
              c ∈ commits \/ from_have (ws_objects g) (common sel) c
     | Err e => fault (ws_objects g) e
     end.
Proof.
  intros Hwf Hr Ht Hfuel. pose proof (select_spec False fuel rank wants haves g Hwf Hr Ht Hfuel) as H.
  destruct (select_commits fuel wants haves g) as [[sel | e] g']; destruct H as (Ho & _ & Hok); [| done].
  split; [done |]. destruct Hok as (W & commits & tags & [(chains & Hch & -> & Htags) Hs Hnd [_ Hc] Hsound Hcomp _ _ _]).
  by exists chains, commits, tags.
Qed.

(** C10: over a sound commit graph discovery is exact.  The commits sent are those
    reachable from a want and from no recognized have, children before the
    generations below them; the graph stays sound; and the walk reports itself
    bounded by haves exactly when a commit that a recognized have reaches lies
    below every commit sent. *)
Theorem select_commits_exact fuel rank wants haves g :
  graph_wf True g -> ranked (ws_objects g) rank -> tags_ranked (ws_objects g) rank fuel ->
  select_fuel (ws_objects g) <= fuel ->
  let '(r, g') := select_commits fuel wants haves g in
  graph_wf True g'
  /\ match r with
     | Ok sel => exists chains commits tags,
         Forall2 (fun w ct => peels (ws_objects g) w ct.1 ct.2) wants chains
         /\ to_send sel = commits ++ tags
         /\ (forall c, c ∈ commits <->
              from_want (ws_objects g) chains.*1 c /\ ~ from_have (ws_objects g) (common sel) c)
         /\ StronglySorted (fun a b => (gen_of (ws_graph g') b <= gen_of (ws_graph g') a)%Z) commits
         /\ (bounded_by_haves sel = true -> common sel <> [])
         /\ (bounded_by_haves sel = true <->
              exists c, from_have (ws_objects g) (common sel) c
                /\ forall s, s ∈ commits -> (gen_of (ws_graph g') c < gen_of (ws_graph g') s)%Z)
     | Err e => fault (ws_objects g) e
     end.
Proof.
  intros Hwf Hr Ht Hfuel. pose proof (select_spec True fuel rank wants haves g Hwf Hr Ht Hfuel) as H.
  destruct (select_commits fuel wants haves g) as [[sel | e] g']; destruct H as (_ & Hwf' & Hok); [| done].
  split; [done |].
  destruct Hok as (W & commits & tags & [(chains & Hch & -> & Htags) Hs _ _ Hsound Hcomp Hex Hord Hb]).
  exists chains, commits, tags. split; [done | split; [done | split; [| split; [by apply Hord | split; [| by apply Hb]]]]].
  2: { intros (c & (h & Hh & _) & _)%Hb; [| done]. intros E. rewrite E in Hh. by apply not_elem_of_nil in Hh. }
  intros c. split; [intros Hc; split; [by apply Hsound | by apply Hex] |].
  intros [Hw Hh]. by destruct (Hcomp c Hw).
Qed.

End discovery.

(** ** A concrete fetch *)

(** A checkable form of [tags_ranked]. *)
Definition tags_ranked_b {Oid DecodeError} `{OB : ObjectLib Oid DecodeError}
    (m : gmap Oid (Kind * bytes)) (rank : Oid -> nat) (fuel : nat) : bool :=
  (0 <? fuel) && forallb (fun kv =>
    (rank kv.1 <? fuel)
    && match kv.2.1, tag_ref kv.2.2 (oid_kind kv.1) with
       | KTag, Ok target => rank target <? rank kv.1
       | _, _ => true
       end) (map_to_list m).

Lemma tags_ranked_b_sound {Oid DecodeError} `{OB : ObjectLib Oid DecodeError}
    (m : gmap Oid (Kind * bytes)) rank fuel :
  tags_ranked_b m rank fuel = true -> tags_ranked m rank fuel.
Proof.
  unfold tags_ranked_b. rewrite andb_true_iff, forallb_forall. intros [Hpos Hb].
  apply Nat.ltb_lt in Hpos. split; [done |]. intros id kb Hl. specialize (Hb (id, kb)). cbn [fst snd] in Hb.
  apply andb_true_iff in Hb as [H1 H2]; [| by apply list_elem_of_In, elem_of_map_to_list].
  apply Nat.ltb_lt in H1. split; [done |]. intros target Hk Href. rewrite Hk, Href in H2.
  by apply Nat.ltb_lt in H2.
Qed.

Module DiscoverySample.

Abbreviation select wants haves g :=
  (select_commits (OB := PlainObjects.lib) (WS := MemWalk.lib) 100 wants haves g).
Abbreviation oid b := (MemWalk.o b).

(** A repository whose stored generations are all wrong: the root's highest. *)
Definition corrupt : MemWalk.world HexOid.t :=
  MemWalk.mkWorld (MemWalk.objects MemWalk.repo)
    {[oid x01 := mkCommitGraph 9 (oid x04) [];
      oid x02 := mkCommitGraph 7 (oid x04) [oid x01];
      oid x03 := mkCommitGraph 1 (oid x04) [oid x02]]} (MemWalk.refs MemWalk.repo).

Lemma corrupt_wf : graph_wf (OB := PlainObjects.lib) (WS := MemWalk.lib) False corrupt.
Proof.
  intros id Hid. apply elem_of_dom in Hid as [r Hr]. exists r. split; [done | split; [| done]].
  cbn [ws_graph MemWalk.lib MemWalk.graph corrupt] in Hr.
  apply lookup_insert_Some in Hr as [[<- <-] | [_ Hr]]; [by vm_compute |].
  apply lookup_insert_Some in Hr as [[<- <-] | [_ Hr]]; [by vm_compute |].
  apply lookup_singleton_Some in Hr as [<- <-]. by vm_compute.
Qed.

Lemma repo_tags :
  tags_ranked (OB := PlainObjects.lib) (MemWalk.objects MemWalk.repo) MemWalk.rank 100.
Proof. apply tags_ranked_b_sound. by vm_compute. Qed.

Lemma repo_fuel : select_fuel (OB := PlainObjects.lib) (MemWalk.objects MemWalk.repo) <= 100.
Proof. apply Nat.leb_le. by vm_compute. Qed.

Lemma select_repo :
  (select [oid x06] [oid x77; oid x01] MemWalk.repo).1
  = Ok (mkSelection [oid x03; oid x02; oid x06] [oid x01] true).
Proof. by vm_compute. Qed.

Lemma select_corrupt :
  (select [oid x03] [] corrupt).1 = Ok (mkSelection [oid x03; oid x02; oid x01] [] false).
Proof. by vm_compute. Qed.

End DiscoverySample.

Import DiscoverySample.

Lemma select_commits_complete_witness :
  exists (chains : list (HexOid.t * list HexOid.t)) commits tags,
    [oid x03; oid x02; oid x01] = commits ++ tags
    /\ forall c, from_want (OB := PlainObjects.lib) (MemWalk.objects MemWalk.repo) chains.*1 c -> c ∈ commits
         \/ from_have (OB := PlainObjects.lib) (MemWalk.objects MemWalk.repo) [] c.
Proof.
  pose proof (select_commits_complete (OB := PlainObjects.lib) (WS := MemWalk.lib) 100 MemWalk.rank
    [oid x03] [] corrupt corrupt_wf GraphSample.repo_ranked repo_tags repo_fuel) as H.
  pose proof select_corrupt as E. destruct (select_commits 100 [oid x03] [] corrupt) as [r g'].
  cbn [fst] in E. subst r. destruct H as (_ & chains & commits & tags & _ & Hs & _ & _ & _ & _ & Hc).
  exists chains, commits, tags. split; [exact Hs | exact Hc].
Defined.

Lemma select_commits_exact_witness :
  exists (chains : list (HexOid.t * list HexOid.t)) commits tags,
    [oid x03; oid x02; oid x06] = commits ++ tags
    /\ forall c, c ∈ commits <->
         from_want (OB := PlainObjects.lib) (MemWalk.objects MemWalk.repo) chains.*1 c
         /\ ~ from_have (OB := PlainObjects.lib) (MemWalk.objects MemWalk.repo) [oid x01] c.
Proof.
  pose proof (select_commits_exact (OB := PlainObjects.lib) (WS := MemWalk.lib) 100 MemWalk.rank
    [oid x06] [oid x77; oid x01] MemWalk.repo GraphSample.repo_wf GraphSample.repo_ranked repo_tags repo_fuel) as H.
  pose proof select_repo as E. destruct (select_commits 100 [oid x06] _ MemWalk.repo) as [r g'].
  cbn [fst] in E. subst r. destruct H as (_ & chains & commits & tags & _ & Hs & Hc & _).
  exists chains, commits, tags. split; [exact Hs | exact Hc].
Defined.
