(* ===== verification/Collect.v ===== *)
(** * Object collection ([src/git/walk.rs], phase II)

    From the commits chosen by discovery to the objects of the pack: the trees
    and blobs the client's haves already reach, the level-by-level tree walk
    that prunes at them, and the blob filter. *)

From S2P Require Import Prelude Bytes GixHash Values GixObject Walk Graph Discovery.
From stdpp Require Import gmap.
From Stdlib Require Import Lia.

Record CollectedObjects (Oid : Type) `{Countable Oid} : Type := mkCollected {
  co_objects : list Oid;
  blob_paths : gmap Oid bytes;
}.
Arguments mkCollected {Oid _ _}.
Arguments co_objects {Oid _ _}.
Arguments blob_paths {Oid _ _}.

Section collect.
Context {Oid : Type} {OL : OidLib Oid} {StoreErr ObjErr DecodeError G : Type}.
Context {OB : ObjectLib Oid DecodeError} {WS : WalkStore Oid StoreErr ObjErr G}.

Abbreviation WE := (WalkError Oid StoreErr ObjErr DecodeError).
Abbreviation WM A := (SE G WE A).
Abbreviation Records := (gmap Oid (CommitGraphRecord Oid)).
Abbreviation Paths := (gmap Oid bytes).
Abbreviation Ordered := (OrderedOidSet Oid).

(** ** The have side *)

(** [HashSet::insert] guarding a push. *)
Definition insert_new (id : Oid) (acc : gset Oid * list Oid) : gset Oid * list Oid :=
  let '(have, out) := acc in
  if decide (id ∈ have) then acc else ({[id]} ∪ have, out ++ [id]).

Definition expand_entry (filter : FilterSpec) (acc : gset Oid * list Oid) (entry : TreeEntry Oid)
    : gset Oid * list Oid :=
  match entry with
  | Subtree child _ => insert_new child acc
  | Leaf child _ =>
      if decide (filter = BlobNone) then acc else ({[child]} ∪ acc.1, acc.2)
  end.

Fixpoint expand_levels (fuel : nat) (level : list Oid) (have : gset Oid) (filter : FilterSpec)
    : WM (gset Oid) :=
  match level with
  | [] => se_ret have
  | _ =>
      match fuel with
      | O => se_err OutOfFuel
      | S fuel' =>
          do! trees <- read_trees level false;
          let '(have, next) := fold_left (expand_entry filter) (concat trees) (have, []) in
          expand_levels fuel' next have filter
      end
  end.

Definition expand_haves (fuel : nat) (roots : list Oid) (have : gset Oid) (filter : FilterSpec)
    : WM (gset Oid) :=
  let '(have, level) := fold_left (fun acc root => insert_new root acc) roots (have, []) in
  expand_levels fuel level have filter.

(** ** The want side *)

(** The state of one level's pass: collected objects, the next level, and the
    level's blob candidates. *)
Record LevelState : Type := mkLevel {
  lv_objects : Ordered;
  lv_next : list (Oid * bytes);
  lv_candidates : list (Oid * bytes);
  lv_candidate_seen : gset Oid;
}.

(** The path of an entry; an unnamed entry panics when paths are recorded. *)
Definition entry_path (record_paths : bool) (parent : bytes) (name : option bytes) : option bytes :=
  if record_paths then join_path parent <$> name else Some [].

Definition visit_entry (have : gset Oid) (record_paths : bool) (parent : bytes) (entry : TreeEntry Oid)
    (st : LevelState) : option LevelState :=
  match entry with
  | Subtree child name =>
      if negb (ordered_contains (lv_objects st) child) && negb (bool_decide (child ∈ have)) then
        match entry_path record_paths parent name with
        | Some path => Some (mkLevel (ordered_insert (lv_objects st) child) (lv_next st ++ [(child, path)])
            (lv_candidates st) (lv_candidate_seen st))
        | None => None
        end
      else Some st
  | Leaf child name =>
      if negb (bool_decide (child ∈ have)) && negb (ordered_contains (lv_objects st) child)
         && negb (bool_decide (child ∈ lv_candidate_seen st)) then
        match entry_path record_paths parent name with
        | Some path => Some (mkLevel (lv_objects st) (lv_next st) (lv_candidates st ++ [(child, path)])
            ({[child]} ∪ lv_candidate_seen st))
        | None => None
        end
      else Some st
  end.

Fixpoint visit_entries (have : gset Oid) (record_paths : bool) (entries : list (bytes * TreeEntry Oid))
    (st : LevelState) : option LevelState :=
  match entries with
  | [] => Some st
  | (parent, entry) :: entries' =>
      match visit_entry have record_paths parent entry st with
      | Some st => visit_entries have record_paths entries' st
      | None => None
      end
  end.

(** A level's entries, each with its tree's path, in level order. *)
Definition level_entries (level : list (Oid * bytes)) (trees : list (list (TreeEntry Oid)))
    : list (bytes * TreeEntry Oid) :=
  concat (zip_with (fun tree entries => (fun e => (tree.2, e)) <$> entries) level trees).

(** [objects.insert(child)] and, with paths, [entry(child).or_insert(path)]. *)
Definition admit_candidate (record_paths : bool) (acc : Ordered * Paths) (candidate : Oid * bytes)
    : Ordered * Paths :=
  let '(child, path) := candidate in
  (ordered_insert acc.1 child,
   if record_paths then
     match acc.2 !! child with Some _ => acc.2 | None => <[child := path]> acc.2 end
   else acc.2).

(** The size-limited admission: the first failing or absent blob ends it. *)
Fixpoint admit_sized (limit : Z) (record_paths : bool) (candidates : list (Oid * bytes))
    (sizes : list (Oid * result ObjErr (option (Kind * Z)))) (acc : Ordered * Paths)
    : result WE (Ordered * Paths) :=
  match candidates, sizes with
  | candidate :: candidates', (_, size) :: sizes' =>
      let? size := map_err WObjects size in
      let? (_, n) := ok_or size (MissingObject candidate.1) in
      admit_sized limit record_paths candidates' sizes'
        (if (n <=? limit)%Z then admit_candidate record_paths acc candidate else acc)
  | _, _ => Ok acc
  end.

Definition admit_blobs (candidates : list (Oid * bytes)) (acc : Ordered * Paths) (filter : FilterSpec)
    (record_paths : bool) : WM (Ordered * Paths) :=
  match filter with
  | FilterNone => se_ret (fold_left (admit_candidate record_paths) candidates acc)
  | BlobNone => se_ret acc
  | BlobLimit limit => fun g =>
      let '(sizes, g) := object_sizes candidates.*1 g in
      (admit_sized limit record_paths candidates sizes acc, g)
  end.

Fixpoint walk_levels (fuel : nat) (level : list (Oid * bytes)) (acc : Ordered * Paths)
    (have : gset Oid) (filter : FilterSpec) (record_paths : bool) : WM (Ordered * Paths) :=
  match level with
  | [] => se_ret acc
  | _ =>
      match fuel with
      | O => se_err OutOfFuel
      | S fuel' =>
          do! trees <- read_trees level.*1 record_paths;
          match visit_entries have record_paths (level_entries level trees)
                  (mkLevel acc.1 [] [] ∅) with
          | Some st =>
              do! acc <- admit_blobs (lv_candidates st) (lv_objects st, acc.2) filter record_paths;
              walk_levels fuel' (lv_next st) acc have filter record_paths
          | None => se_err WPanicked
          end
      end
  end.

Definition walk_tree (fuel : nat) (root_tree : Oid) (acc : Ordered * Paths) (have : gset Oid)
    (filter : FilterSpec) (record_paths : bool) : WM (Ordered * Paths) :=
  if negb (ordered_contains acc.1 root_tree) && negb (bool_decide (root_tree ∈ have)) then
    walk_levels fuel [(root_tree, [])] (ordered_insert acc.1 root_tree, acc.2) have filter record_paths
  else walk_levels fuel [] acc have filter record_paths.

(** ** The collection *)

(** The root trees of the recognized haves; the rest is excused as discovery
    does. *)
Fixpoint have_roots (fetched : list (Oid * result WE (CommitGraphRecord Oid))) : result WE (list Oid) :=
  match fetched with
  | [] => Ok []
  | (have, record) :: fetched' =>
      match record with
      | Ok info => let? roots := have_roots fetched' in Ok (root_tree info :: roots)
      | Err (MissingObject missing) =>
          if decide (missing = have) then have_roots fetched' else Err (MissingObject missing)
      | Err (UnexpectedKind oid expected actual) =>
          if decide (oid = have) then have_roots fetched'
          else Err (UnexpectedKind oid expected actual)
      | Err err => Err err
      end
  end.

(** Each classified object in turn: a commit with its tree, a tag alone.
    [records[&id]] panics on a commit that was not loaded. *)
Fixpoint collect_each (fuel : nat) (records : Records) (classified : list (Oid * Kind * Z))
    (acc : Ordered * Paths) (have : gset Oid) (filter : FilterSpec) (record_paths : bool)
    : WM (Ordered * Paths) :=
  match classified with
  | [] => se_ret acc
  | (id, kind, _) :: classified' =>
      match kind with
      | KCommit =>
          match records !! id with
          | Some info =>
              do! acc <- walk_tree fuel (root_tree info) (ordered_insert acc.1 id, acc.2) have filter
                           record_paths;
              collect_each fuel records classified' acc have filter record_paths
          | None => se_err WPanicked
          end
      | KTag =>
          collect_each fuel records classified' (ordered_insert acc.1 id, acc.2) have filter record_paths
      | actual => se_err (UnexpectedKind id KCommit actual)
      end
  end.

Definition collect_inner (fuel : nat) (to_send haves : list Oid) (filter : FilterSpec)
    (record_paths : bool) : WM (CollectedObjects Oid) := fun g =>
  let '(fetched, records, g) := prefetch_records fuel ∅ haves g in
  match have_roots fetched with
  | Err err => (Err err, g)
  | Ok roots =>
      (do! have <- expand_haves fuel roots ∅ filter;
       do! classified <- sizes_or MissingObject to_send;
       fun g =>
         let commit_ids := omap (fun e => if decide (e.1.2 = KCommit) then Some e.1.1 else None) classified in
         let '(fetched, records, g) := prefetch_records fuel records commit_ids g in
         match first_error fetched with
         | Err err => (Err err, g)
         | Ok _ =>
             (do! acc <- collect_each fuel records classified (ordered_empty, ∅) have filter record_paths;
              se_ret (mkCollected (Walk.order acc.1) acc.2)) g
         end) g
  end.

Definition collect (fuel : nat) (to_send haves : list Oid) (filter : FilterSpec) : WM (list Oid) :=
  do! collected <- collect_inner fuel to_send haves filter false;
  se_ret (co_objects collected).

Definition collect_with_paths (fuel : nat) (to_send haves : list Oid) (filter : FilterSpec)
    : WM (CollectedObjects Oid) :=
  collect_inner fuel to_send haves filter true.

(** ** Trees and what they reach *)

Section spec.
Context (m : gmap Oid (Kind * bytes)).

(** Tree [t] has an entry named [n] for [c], a subtree or a leaf. *)
Definition tree_link (sub : bool) (t : Oid) (n : bytes) (c : Oid) : Prop :=
  exists body e, m !! t = Some (KTree, body) /\ Ok e ∈ tree_iter body (oid_kind t)
    /\ re_oid e = c /\ re_filename e = n
    /\ if sub then is_tree (re_mode e) = true
       else is_tree (re_mode e) = false /\ is_commit (re_mode e) = false.

Definition subtree (t c : Oid) : Prop := exists n, tree_link true t n c.
Definition leaf (t c : Oid) : Prop := exists n, tree_link false t n c.

(** The trees at and below [root]. *)
Definition tree_from : Oid -> Oid -> Prop := rtc subtree.

(** What no tree lists as a leaf: a tree. *)
Definition leaves_ok : Prop := forall t c body, leaf t c -> m !! c <> Some (KTree, body).

Lemma tree_entries_spec id names items :
  match (tree_entries id names items : result WE _) with
  | Ok es => forall sub c name,
      (if sub : bool then Subtree c name else Leaf c name) ∈ es <->
      exists e, Ok e ∈ items /\ re_oid e = c
        /\ name = (if names then Some (re_filename e) else None)
        /\ if sub then is_tree (re_mode e) = true
           else is_tree (re_mode e) = false /\ is_commit (re_mode e) = false
  | Err err => exists e, Err e ∈ items /\ err = Decode id e
  end.
Proof.
  induction items as [| item items IH]; cbn [tree_entries].
  { intros sub c name. rewrite elem_of_nil. split; [done |]. by intros (e & ?%not_elem_of_nil & _). }
  destruct item as [e | err]; cbn [map_err]; [| exists err; split; [by left | done]].
  destruct (tree_entries id names items) as [es | err]; [| destruct IH as (e0 & ? & ?); exists e0; split; [by right | done]].
  intros sub c name. specialize (IH sub c name).
  assert (forall x, (exists e0, Ok e0 ∈ Ok e :: items /\ re_oid e0 = c
      /\ name = (if names then Some (re_filename e0) else None) /\ x e0)
    <-> (re_oid e = c /\ name = (if names then Some (re_filename e) else None) /\ x e)
        \/ exists e0, Ok e0 ∈ items /\ re_oid e0 = c
             /\ name = (if names then Some (re_filename e0) else None) /\ x e0) as Hsplit.
  { intros x. split.
    - intros (e0 & [[= ->] | Hin]%elem_of_cons & Hx); [by left | right; by exists e0].
    - intros [Hx | (e0 & Hin & Hx)]; [exists e; split; [by left | done] | exists e0; split; [by right | done]]. }
  rewrite (Hsplit (fun e0 => if sub then is_tree (re_mode e0) = true
    else is_tree (re_mode e0) = false /\ is_commit (re_mode e0) = false)), <- IH. clear.
  destruct (is_tree (re_mode e)) eqn:Et; [| destruct (is_commit (re_mode e)) eqn:Ec]; cbn [negb];
    rewrite ?elem_of_cons; destruct sub, names; naive_solver.
Qed.

Lemma read_tree_spec id names g :
  ws_objects g = m ->
  let '(r, g') := (read_tree id names : WM _) g in
  ws_same g g'
  /\ match r with
     | Ok es => (exists body, m !! id = Some (KTree, body))
         /\ forall (sub : bool) c name, (if sub then Subtree c name else Leaf c name) ∈ es <->
              exists n, tree_link sub id n c /\ name = if names then Some n else None
     | Err e => fault m e
     end.
Proof.
  intros Hm. unfold read_tree, se_bind. destruct (read_object id g) as (r & g' & -> & Hs & Hr).
  rewrite Hm in Hr. destruct r as [v | e]; [subst v | by split].
  destruct (m !! id) as [[kind body] |] eqn:E; [| by split].
  case_decide as Hk; [split; [done |]; by exists body |]. subst kind.
  unfold se_lift. split; [done |]. pose proof (tree_entries_spec id names (tree_iter body (oid_kind id))) as Ht.
  destruct (tree_entries id names _) as [es | err].
  - split; [by exists body |]. intros sub c name. rewrite Ht. split.
    + intros (e & He & <- & -> & Hx). exists (re_filename e). split; [| done]. by exists body, e.
    + intros (n & (body' & e & Hb & He & Hc & Hn & Hx) & ->). exists e.
      assert (body' = body) as -> by congruence. subst. done.
  - destruct Ht as (e & He & ->). exists KTree, body. done.
Qed.

(** Trees read from [m], with their entries. *)
Definition reads (names : bool) (t : Oid) (es : list (TreeEntry Oid)) : Prop :=
  (exists body, m !! t = Some (KTree, body))
  /\ forall (sub : bool) c name, (if sub then Subtree c name else Leaf c name) ∈ es <->
       exists n, tree_link sub t n c /\ name = if names then Some n else None.

Lemma read_trees_spec ids names g :
  ws_objects g = m ->
  let '(r, g') := (read_trees ids names : WM _) g in
  ws_same g g' /\ match r with Ok trees => Forall2 (reads names) ids trees | Err e => fault m e end.
Proof.
  intros Hm. unfold read_trees.
  assert (forall t g0, ws_objects g0 = m -> let '(r, g1) := (read_tree t names : WM _) g0 in
    ws_same g0 g1 /\ match r with Ok es => reads names t es | Err e => fault (ws_objects g0) e end) as Hone.
  { intros t g0 Ho. pose proof (read_tree_spec t names g0 Ho) as H.
    destruct (read_tree t names g0) as [r g1]. by rewrite Ho. }
  pose proof (each_spec m _ (fun _ t es => reads names t es) Hone ltac:(done) ids g Hm) as H.
  destruct (each _ ids g) as [r g']. by rewrite Hm in H.
Qed.

(** Rounds left: a round whose trees all exist reads at least one new object. *)
Definition rounds (have : gset Oid) : nat := size (dom m ∖ have) + 2.

Lemma rounds_drop (have have' : gset Oid) x :
  have ⊆ have' -> x ∈ dom m -> x ∉ have -> x ∈ have' -> rounds have' < rounds have.
Proof.
  intros Hsub Hd Hn Hx. unfold rounds.
  enough (size (dom m ∖ have') < size (dom m ∖ have)) by lia.
  apply subset_size. split; [set_solver |]. intros H. specialize (H x). set_solver.
Qed.

Lemma reads_dom names ts (trees : list (list (TreeEntry Oid))) t :
  Forall2 (reads names) ts trees -> t ∈ ts -> t ∈ dom m.
Proof.
  intros Hf Ht. apply list_elem_of_lookup in Ht as [i Hi].
  destruct (Forall2_lookup_l _ _ _ _ _ Hf Hi) as (es & _ & ([body Hb] & _)). by eapply elem_of_dom_2.
Qed.

(** The entries of a level are the links of its trees. *)
Lemma level_links names ts (trees : list (list (TreeEntry Oid))) (sub : bool) c :
  Forall2 (reads names) ts trees ->
  (exists n, (if sub then Subtree c n else Leaf c n) ∈ concat trees)
  <-> exists t, t ∈ ts /\ (if sub then subtree t c else leaf t c).
Proof.
  intros Hf. split.
  - intros [n Hn]. apply list_elem_of_In, in_concat in Hn as (es & Hes & Hin).
    apply list_elem_of_In in Hes, Hin. apply list_elem_of_lookup in Hes as [i Hi].
    destruct (Forall2_lookup_r _ _ _ _ _ Hf Hi) as (t & Ht & (_ & Hr)).
    exists t. split; [by eapply list_elem_of_lookup_2 |]. pose proof (proj1 (Hr sub c n) Hin) as (n0 & Hl & _).
    destruct sub; by exists n0.
  - intros (t & Ht & Hl). apply list_elem_of_lookup in Ht as [i Hi].
    destruct (Forall2_lookup_l _ _ _ _ _ Hf Hi) as (es & Hes & (_ & Hr)).
    assert (exists n, tree_link sub t n c) as [n Hn] by (by destruct sub).
    exists (if names then Some n else None). apply list_elem_of_In, in_concat. exists es.
    split; apply list_elem_of_In; [by eapply list_elem_of_lookup_2 |]. apply Hr. by exists n.
Qed.

(** ** The have side is what the haves reach *)

Lemma insert_new_spec id acc (x : Oid) :
  (x ∈ (insert_new id acc).1 <-> x = id \/ x ∈ acc.1)
  /\ (x ∈ (insert_new id acc).2 <-> (x = id /\ (id ∉ acc.1)) \/ x ∈ acc.2).
Proof.
  destruct acc as [have out]. unfold insert_new. case_decide; cbn [fst snd].
  - set_solver.
  - rewrite elem_of_app, list_elem_of_singleton. set_solver.
Qed.

Section have.
Context (filter : FilterSpec) (roots : list Oid) (Hleaves : leaves_ok).

(** An object a have-side walk marks. *)
Definition held (x : Oid) : Prop :=
  exists r t, r ∈ roots /\ tree_from r t /\ (x = t \/ (leaf t x /\ filter <> BlobNone)).

(** [have] is marked, closed but for the [open] trees. *)
Record have_inv (have : gset Oid) (open : list Oid) : Prop := {
  h_sound : forall x, x ∈ have -> held x;
  h_open : forall t, t ∈ open -> t ∈ have /\ exists r, r ∈ roots /\ tree_from r t;
  h_closed : forall t, t ∈ have -> t ∈ open
    \/ (forall c, subtree t c -> c ∈ have) /\ (filter <> BlobNone -> forall c, leaf t c -> c ∈ have);
}.

(** Folding a level's entries: every child is in, new subtrees are queued. *)
Lemma expand_entries_spec entries acc :
  let acc' := fold_left (expand_entry filter) entries acc in
  (forall x, x ∈ acc'.1 <-> x ∈ acc.1 \/ (exists n, Subtree x n ∈ entries)
     \/ (filter <> BlobNone /\ exists n, Leaf x n ∈ entries))
  /\ (forall x, x ∈ acc'.2 -> x ∈ acc.2 \/ ((x ∉ acc.1) /\ exists n, Subtree x n ∈ entries))
  /\ (forall x, x ∈ acc'.1 -> x ∈ acc.1 \/ x ∈ acc'.2 \/ exists n, Leaf x n ∈ entries)
  /\ (forall x, x ∈ acc.2 -> x ∈ acc'.2).
Proof.
  cbn zeta. revert acc. induction entries as [| e entries IH]; intros acc; cbn [fold_left].
  { split; [| split; [by left | split; [by left | done]]]. intros x.
    split; [by left |]. intros [? | [[n ?%not_elem_of_nil] | [_ [n ?%not_elem_of_nil]]]]; done. }
  destruct (IH (expand_entry filter acc e)) as (H1 & H2 & H3 & H4). clear IH.
  destruct e as [c n | c n]; cbn [expand_entry] in *.
  - pose proof (insert_new_spec c acc) as Hi. split; [| split; [| split]].
    + intros x. rewrite H1, (proj1 (Hi x)). setoid_rewrite elem_of_cons. naive_solver.
    + intros x [Hx | [Hx [n' Hn]]]%H2.
      * apply (Hi x) in Hx as [[-> Hc] | Hx]; [| by left]. right. split; [done |]. exists n. by left.
      * right. split; [intros Hin; apply Hx, (Hi x); by right |]. exists n'. by right.
    + intros x [Hx | [Hx | [n' Hn]]]%H3; [| by right; left | right; right; exists n'; by right].
      apply (Hi x) in Hx as [-> | Hx]; [| by left].
      destruct (decide (c ∈ acc.1)); [by left |]. right; left. apply H4, (Hi c). by left.
    + intros x Hx. apply H4, (Hi x). by right.
  - case_decide as Hf; cbn [fst snd] in *.
    + split; [| split; [| split]]; [| naive_solver eauto using list_elem_of_further | | done].
      * intros x. rewrite H1. setoid_rewrite elem_of_cons. naive_solver.
      * intros x [Hx | [Hx | [n' Hn]]]%H3; [by left | by right; left | right; right; exists n'; by right].
    + split; [| split; [| split; [| done]]].
      * intros x. rewrite H1. setoid_rewrite elem_of_cons. set_solver.
      * intros x [Hx | [Hx [n' Hn]]]%H2; [by left | right; split; [set_solver |]; exists n'; by right].
      * intros x [Hx | [Hx | [n' Hn]]]%H3; [| by right; left | right; right; exists n'; by right].
        apply elem_of_union in Hx as [->%elem_of_singleton | Hx]; [| by left].
        right; right. exists n. by left.
Qed.

Lemma have_level have open (trees : list (list (TreeEntry Oid))) :
  have_inv have open -> Forall2 (reads false) open trees ->
  let '(have', next) := fold_left (expand_entry filter) (concat trees) (have, []) in
  have_inv have' next /\ have ⊆ have' /\ forall t, t ∈ next -> t ∉ have.
Proof.
  intros [Hs Ho Hc] Hr. pose proof (expand_entries_spec (concat trees) (have, [])) as He. cbn zeta in He.
  destruct (fold_left _ (concat trees) (have, [])) as [have' next]. cbn [fst snd] in He.
  destruct He as (H1 & H2 & H3 & _).
  pose proof (fun c => level_links false open trees true c Hr) as Hsub.
  pose proof (fun c => level_links false open trees false c Hr) as Hleaf. cbn in Hsub, Hleaf.
  assert (forall x, x ∈ have' <-> x ∈ have \/ (exists t, t ∈ open /\ subtree t x)
    \/ (filter <> BlobNone /\ exists t, t ∈ open /\ leaf t x)) as Hmem
    by (intros x; by rewrite H1, Hsub, Hleaf). clear H1.
  assert (forall x, x ∈ next -> (x ∉ have) /\ exists t, t ∈ open /\ subtree t x) as Hnext.
  { intros x [?%not_elem_of_nil | [Hx Hn]]%H2; [done |]. split; [done |]. by apply Hsub. }
  clear H2. split; [split | split].
  - intros x [Hx | [(t & Ht & Hl) | (Hf & t & Ht & Hl)]]%Hmem; [by apply Hs | |];
      destruct (Ho t Ht) as (_ & r & Hrr & Htr).
    + exists r, x. split; [done | split; [by eapply rtc_r | by left]].
    + exists r, t. split; [done | split; [done | by right]].
  - intros x Hx. destruct (Hnext x Hx) as (_ & t & Ht & Hl). split; [apply Hmem; eauto |].
    destruct (Ho t Ht) as (_ & r & Hrr & Htr). exists r. split; [done | by eapply rtc_r].
  - intros x Hx. apply H3 in Hx as [Hx | [Hx | Hx]]; [| by left |].
    + right. destruct (Hc x Hx) as [Hopen | [Hc1 Hc2]].
      * split; [intros c Hl | intros Hf c Hl]; apply Hmem; eauto 6.
      * split; [intros c Hl | intros Hf c Hl]; apply Hmem; auto.
    + right. apply Hleaf in Hx as (t & _ & Hl).
      assert (forall (sub : bool) c n, ~ tree_link sub x n c) as Hno.
      { intros sub c n (body & e & Hb & _). by eapply Hleaves. }
      split; [intros c [n Hn] | intros _ c [n Hn]]; by apply Hno in Hn.
  - intros x Hx. apply Hmem. by left.
  - intros t Ht. by apply Hnext.
Qed.

Lemma expand_levels_spec fuel open have g :
  ws_objects g = m -> have_inv have open -> 0 < fuel ->
  (open <> [] -> (forall t, t ∈ open -> t ∈ dom m) -> rounds have <= fuel) ->
  let '(r, g') := (expand_levels fuel open have filter : WM _) g in
  ws_same g g' /\ match r with
                  | Ok have' => have ⊆ have' /\ have_inv have' []
                  | Err e => fault m e
                  end.
Proof.
  revert open have g. induction fuel as [| fuel IH]; intros open have g Hm Hinv Hpos Hfuel; [lia |].
  destruct open as [| t open]; [by cbn |]. cbn [expand_levels]. unfold se_bind.
  pose proof (read_trees_spec (t :: open) false g Hm) as Hr.
  destruct (read_trees (t :: open) false g) as [[trees | e] g1]; destruct Hr as [Hs Hr]; [| done].
  specialize (Hfuel ltac:(done) (fun x => reads_dom false (t :: open) trees x Hr)).
  pose proof (have_level have (t :: open) trees Hinv Hr) as Hl.
  destruct (fold_left _ (concat trees) (have, [])) as [have' next]. destruct Hl as (Hinv' & Hsub & Hnew).
  assert (ws_objects g1 = m) as Hm1 by (destruct Hs as (-> & _); done).
  specialize (IH next have' g1 Hm1 Hinv').
  destruct (expand_levels fuel next have' filter g1) as [r g2].
  destruct IH as [Hs2 Hok].
  - unfold rounds in Hfuel. lia.
  - intros Hne Hdom. destruct next as [| x next]; [done |].
    assert (rounds have' < rounds have) as Hd.
    { apply (rounds_drop _ _ x); [done | apply Hdom; by left | apply Hnew; by left |].
      by apply (h_open _ _ Hinv'), list_elem_of_here. }
    lia.
  - split; [destruct Hs as (? & ? & ?), Hs2 as (? & ? & ?); split; [congruence | split; congruence] |].
    destruct r as [have2 |]; [| done]. destruct Hok. split; [by etrans | done].
Qed.

Lemma expand_haves_spec fuel g :
  ws_objects g = m -> size m + 2 <= fuel ->
  let '(r, g') := (expand_haves fuel roots ∅ filter : WM _) g in
  ws_same g g' /\ match r with
                  | Ok have => forall x, x ∈ have <-> held x
                  | Err e => fault m e
                  end.
Proof.
  intros Hm Hfuel. unfold expand_haves.
  assert (forall rs acc, let acc' := fold_left (fun acc root => insert_new root acc) rs acc in
    (forall x, x ∈ acc'.1 <-> x ∈ acc.1 \/ x ∈ rs)
    /\ (forall x, x ∈ acc'.2 <-> x ∈ acc.2 \/ (x ∈ rs /\ (x ∉ acc.1)))) as Hfold.
  { cbn zeta. induction rs as [| r rs IH]; intros acc; cbn [fold_left].
    { split; intros x; rewrite elem_of_nil; naive_solver. }
    destruct (IH (insert_new r acc)) as [H1 H2]. pose proof (insert_new_spec r acc) as Hi.
    split; intros x; rewrite ?H1, ?H2, ?(proj1 (Hi x)), ?(proj2 (Hi x)), ?elem_of_cons; [naive_solver |].
    destruct (decide (x = r)) as [-> |]; naive_solver. }
  destruct (Hfold roots (∅, [])) as [H1 H2]. clear Hfold.
  destruct (fold_left _ roots (∅, [])) as [have open]. cbn [fst snd] in *.
  assert (forall x, x ∈ have <-> x ∈ roots) as Hh by (intros x; rewrite H1; set_solver).
  assert (forall x, x ∈ open <-> x ∈ roots) as Ho
    by (intros x; rewrite H2, elem_of_nil; set_solver). clear H1 H2.
  assert (have_inv have open) as Hinv.
  { split.
    - intros x Hx%Hh. exists x, x. split; [done | split; [reflexivity | by left]].
    - intros t Ht%Ho. split; [by apply Hh |]. exists t. split; [done | reflexivity].
    - intros t Ht%Hh. left. by apply Ho. }
  pose proof (expand_levels_spec fuel open have g Hm Hinv ltac:(lia)) as Hx.
  destruct (expand_levels fuel open have filter g) as [r g']. destruct Hx as [Hs Hok].
  { intros _ _. unfold rounds. enough (size (dom m ∖ have) <= size m) by lia.
    rewrite <- size_dom. apply subseteq_size. set_solver. }
  split; [done |]. destruct r as [have' |]; [| done]. destruct Hok as [Hsub [Hs' _ Hc']].
  assert (forall r t, r ∈ roots -> tree_from r t -> t ∈ have') as Htrees.
  { intros r t Hr Htr. apply Hh, Hsub in Hr. induction Htr as [| r c t Hl _ IH]; [done |].
    apply IH. destruct (Hc' r Hr) as [?%not_elem_of_nil | [Hc _]]; [done | by apply Hc]. }
  intros x. split; [apply Hs' |]. intros (r & t & Hr & Htr & [-> | [Hl Hf]]); [by eapply Htrees |].
  destruct (Hc' t) as [?%not_elem_of_nil | [_ Hc]]; [by eapply Htrees | done | by apply Hc].
Qed.

End have.

(** ** One level of the want side *)

Section level.
Context (filter : FilterSpec) (record_paths : bool) (have : gset Oid).

Definition settled_entry (st : LevelState) (entry : TreeEntry Oid) : Prop :=
  match entry with
  | Subtree c _ => c ∈ Walk.order (lv_objects st) \/ c ∈ have
  | Leaf c _ => c ∈ have \/ c ∈ Walk.order (lv_objects st) \/ c ∈ (lv_candidates st).*1
  end.

(** [c] at path [p] comes from an entry of [processed] and is new. *)
Definition from_entry (entry : option bytes -> TreeEntry Oid) (processed : list (bytes * TreeEntry Oid))
    (p : bytes) : Prop :=
  exists parent n, (parent, entry n) ∈ processed /\ entry_path record_paths parent n = Some p.

(** What a pass over [processed] entries of a level has made of [objs0]. *)
Record level_inv (objs0 : Ordered) (processed : list (bytes * TreeEntry Oid)) (st : LevelState) : Prop := {
  l_ok : ordered_ok (lv_objects st);
  l_objs : forall x, x ∈ Walk.order (lv_objects st) <-> x ∈ Walk.order objs0 \/ x ∈ (lv_next st).*1;
  l_next : forall c p, (c, p) ∈ lv_next st ->
    (c ∉ have) /\ (c ∉ Walk.order objs0) /\ from_entry (Subtree c) processed p;
  l_cand : forall c p, (c, p) ∈ lv_candidates st -> (c ∉ have) /\ from_entry (Leaf c) processed p;
  l_seen : forall x, x ∈ lv_candidate_seen st <-> x ∈ (lv_candidates st).*1;
  l_done : forall x, x ∈ processed -> settled_entry st x.2;
}.

Lemma fst_snoc (l : list (Oid * bytes)) c p x : x ∈ (l ++ [(c, p)]).*1 <-> x ∈ l.*1 \/ x = c.
Proof. rewrite fmap_app, elem_of_app. cbn. by rewrite list_elem_of_singleton. Qed.

Lemma contains_spec (s : Ordered) (id : Oid) :
  ordered_ok s -> ordered_contains s id = bool_decide (id ∈ Walk.order s).
Proof. intros [_ H]. unfold ordered_contains. apply bool_decide_ext. by rewrite H. Qed.

Lemma from_entry_snoc entry processed x p :
  from_entry entry processed p -> from_entry entry (processed ++ [x]) p.
Proof. intros (pa & n & ? & ?). exists pa, n. split; [apply elem_of_app; by left | done]. Qed.

Lemma level_inv_snoc objs0 processed st x :
  level_inv objs0 processed st -> settled_entry st x.2 -> level_inv objs0 (processed ++ [x]) st.
Proof.
  intros [Hok Hobjs Hnext Hcand Hseen Hdone] Hx. split; try done.
  - intros c p Hc. destruct (Hnext c p Hc) as (? & ? & ?). eauto using from_entry_snoc.
  - intros c p Hc. destruct (Hcand c p Hc) as (? & ?). eauto using from_entry_snoc.
  - intros y [Hy | ->%list_elem_of_singleton]%elem_of_app; [by apply Hdone | done].
Qed.

Lemma level_push_subtree objs0 processed st parent c n p :
  level_inv objs0 processed st -> c ∉ Walk.order (lv_objects st) -> c ∉ have ->
  entry_path record_paths parent n = Some p ->
  level_inv objs0 (processed ++ [(parent, Subtree c n)])
    (mkLevel (ordered_insert (lv_objects st) c) (lv_next st ++ [(c, p)]) (lv_candidates st)
       (lv_candidate_seen st)).
Proof.
  intros [Hok Hobjs Hnext Hcand Hseen Hdone] Hc Hh Hp.
  pose proof (fun x => ordered_insert_mem (lv_objects st) c x Hok) as Hins.
  split; cbn [lv_objects lv_next lv_candidates lv_candidate_seen]; [| | | | done |].
  - by apply ordered_insert_ok.
  - intros x. rewrite Hins, fst_snoc, Hobjs. tauto.
  - intros x q [Hx | [= -> ->]%list_elem_of_singleton]%elem_of_app.
    + destruct (Hnext x q Hx) as (? & ? & ?). eauto using from_entry_snoc.
    + rewrite Hobjs in Hc. split; [done | split; [tauto |]].
      exists parent, n. split; [apply elem_of_app; right; by left | done].
  - intros x q Hx. destruct (Hcand x q Hx) as (? & ?). eauto using from_entry_snoc.
  - intros y [Hy | ->%list_elem_of_singleton]%elem_of_app.
    + specialize (Hdone y Hy). destruct (y.2); cbn [settled_entry lv_objects lv_candidates] in *;
        rewrite Hins; tauto.
    + cbn. rewrite Hins. auto.
Qed.

Lemma level_push_leaf objs0 processed st parent c n p :
  level_inv objs0 processed st -> c ∉ have -> entry_path record_paths parent n = Some p ->
  level_inv objs0 (processed ++ [(parent, Leaf c n)])
    (mkLevel (lv_objects st) (lv_next st) (lv_candidates st ++ [(c, p)])
       ({[c]} ∪ lv_candidate_seen st)).
Proof.
  intros [Hok Hobjs Hnext Hcand Hseen Hdone] Hh Hp.
  split; cbn [lv_objects lv_next lv_candidates lv_candidate_seen]; [done | done | | | |].
  - intros x q Hx. destruct (Hnext x q Hx) as (? & ? & ?). eauto using from_entry_snoc.
  - intros x q [Hx | [= -> ->]%list_elem_of_singleton]%elem_of_app.
    + destruct (Hcand x q Hx) as (? & ?). eauto using from_entry_snoc.
    + split; [done |]. exists parent, n. split; [apply elem_of_app; right; by left | done].
  - intros x. rewrite fst_snoc, elem_of_union, elem_of_singleton, Hseen. tauto.
  - intros y [Hy | ->%list_elem_of_singleton]%elem_of_app.
    + specialize (Hdone y Hy). destruct (y.2); cbn [settled_entry lv_objects lv_candidates] in *;
        rewrite ?fst_snoc; tauto.
    + cbn. rewrite fst_snoc. auto.
Qed.

Definition named (entry : TreeEntry Oid) : Prop :=
  record_paths = true -> is_Some (match entry with Subtree _ n | Leaf _ n => n end).

Lemma visit_entry_inv objs0 processed st parent entry :
  level_inv objs0 processed st -> named entry ->
  exists st', visit_entry have record_paths parent entry st = Some st'
    /\ level_inv objs0 (processed ++ [(parent, entry)]) st'.
Proof.
  intros Hinv Hname. pose proof (l_ok _ _ _ Hinv) as Hok. pose proof (l_seen _ _ _ Hinv) as Hseen.
  assert (exists p, entry_path record_paths parent (match entry with Subtree _ n | Leaf _ n => n end) = Some p)
    as [p Hp].
  { unfold entry_path, named in *. destruct record_paths; [| by eexists].
    destruct (Hname eq_refl) as [? ->]. by eexists. }
  destruct entry as [c n | c n]; cbn [visit_entry]; rewrite Hp, contains_spec by done;
    repeat (case_bool_decide; cbn [negb andb]);
    try (exists st; (split; [done |]); apply level_inv_snoc; [done |]; cbn; auto; fail).
  - eexists. split; [done |]. by apply level_push_subtree.
  - exists st. split; [done |]. apply level_inv_snoc; [done |]. cbn. right; right. by apply Hseen.
  - eexists. split; [done |]. by apply level_push_leaf.
Qed.

Lemma visit_entries_inv objs0 entries processed st :
  level_inv objs0 processed st -> Forall (fun x => named x.2) entries ->
  exists st', visit_entries have record_paths entries st = Some st'
    /\ level_inv objs0 (processed ++ entries) st'.
Proof.
  intros Hinv Hn. revert processed st Hinv. induction Hn as [| [parent e] entries He Hn IH];
    intros processed st Hinv; cbn [visit_entries].
  { exists st. by rewrite app_nil_r. }
  destruct (visit_entry_inv objs0 processed st parent e Hinv He) as (st1 & -> & Hinv1).
  destruct (IH _ _ Hinv1) as (st2 & -> & Hinv2). exists st2. split; [done |]. by rewrite <- app_assoc in Hinv2.
Qed.

(** ** Admission *)

(** The blobs the filter keeps out. *)
Definition filtered (x : Oid) : Prop :=
  match filter with
  | FilterNone => False
  | BlobNone => True
  | BlobLimit limit => exists kind body, m !! x = Some (kind, body) /\ (limit < Z.of_nat (length body))%Z
  end.

(** [acc'] is [acc] with the [added] candidates. *)
Record admitted (added : list (Oid * bytes)) (acc acc' : Ordered * Paths) : Prop := {
  a_ok : ordered_ok acc'.1;
  a_objs : forall x, x ∈ Walk.order acc'.1 <-> x ∈ Walk.order acc.1 \/ x ∈ added.*1;
  a_paths : forall x p, acc'.2 !! x = Some p ->
    acc.2 !! x = Some p \/ (record_paths = true /\ (x, p) ∈ added);
  a_keep : forall x, is_Some (acc.2 !! x) \/ (record_paths = true /\ x ∈ added.*1) -> is_Some (acc'.2 !! x);
}.

Lemma admit_one acc c p : ordered_ok acc.1 -> admitted [(c, p)] acc (admit_candidate record_paths acc (c, p)).
Proof.
  intros Hok. unfold admit_candidate. split; cbn [fst snd].
  - by apply ordered_insert_ok.
  - intros x. rewrite ordered_insert_mem by done. cbn. rewrite list_elem_of_singleton. tauto.
  - intros x q. destruct record_paths; [| by left]. destruct (acc.2 !! c) eqn:E; [by left |].
    intros [[<- <-] | [_ ?]]%lookup_insert_Some; [right; split; [done | by left] | by left].
  - intros x Hx. cbn in Hx. rewrite list_elem_of_singleton in Hx.
    destruct record_paths; [| by destruct Hx as [| [? _]]].
    destruct (acc.2 !! c) eqn:E; [by destruct Hx as [| [_ ->]] |].
    destruct (decide (x = c)) as [-> |]; [by rewrite lookup_insert_eq |].
    rewrite lookup_insert_ne by done. by destruct Hx as [| [_ ?]].
Qed.

Lemma admitted_refl acc : ordered_ok acc.1 -> admitted [] acc acc.
Proof.
  intros Hok. split; [done | | by left |].
  - intros x. cbn. rewrite elem_of_nil. tauto.
  - by intros x [? | [_ ?%not_elem_of_nil]].
Qed.

Lemma admitted_trans l1 l2 acc acc1 acc2 :
  admitted l1 acc acc1 -> admitted l2 acc1 acc2 -> admitted (l1 ++ l2) acc acc2.
Proof.
  intros [O1 B1 P1 K1] [O2 B2 P2 K2]. split; [done | | |].
  - intros x. rewrite B2, B1, fmap_app, elem_of_app. tauto.
  - intros x p. rewrite elem_of_app. intros [[? | [? ?]]%P1 | [? ?]]%P2; auto.
  - intros x. rewrite fmap_app, elem_of_app. intros [? | [? [? | ?]]]; apply K2; auto.
Qed.

Lemma admit_all candidates acc :
  ordered_ok acc.1 -> admitted candidates acc (fold_left (admit_candidate record_paths) candidates acc).
Proof.
  revert acc. induction candidates as [| [c p] l IH]; intros acc Hok; cbn [fold_left].
  { by apply admitted_refl. }
  pose proof (admit_one acc c p Hok) as H1.
  exact (admitted_trans [(c, p)] l _ _ _ H1 (IH _ (a_ok _ _ _ H1))).
Qed.

(** The candidates within the limit, or the fault of the first that failed. *)
Lemma admit_sized_spec limit candidates acc g :
  ws_objects g = m -> ordered_ok acc.1 ->
  let '(sizes, g') := object_sizes candidates.*1 g in
  ws_same g g'
  /\ match (admit_sized limit record_paths candidates sizes acc : result WE _) with
     | Ok acc' => exists added, admitted added acc acc'
         /\ forall x p, (x, p) ∈ added <-> (x, p) ∈ candidates
              /\ ~ exists kind body, m !! x = Some (kind, body) /\ (limit < Z.of_nat (length body))%Z
     | Err e => fault m e
     end.
Proof.
  revert acc g. induction candidates as [| [c p] l IH]; intros acc g Hm Hok.
  { cbn. split; [done |]. exists []. split; [by apply admitted_refl |].
    intros x q. rewrite elem_of_nil. naive_solver. }
  rewrite fmap_cons. cbn [object_sizes fst].
  destruct (ws_size c g) as [r g1] eqn:E. apply ws_size_spec in E as [Hs Hv]. rewrite Hm in Hv.
  assert (ws_objects g1 = m) as Hm1 by (destruct Hs as (-> & _); done).
  assert (forall acc, ordered_ok acc.1 -> _) as IH1 by exact (fun acc => IH acc g1 Hm1). clear IH.
  destruct (object_sizes l.*1 g1) as [sizes g2]. cbn [admit_sized].
  assert (ws_same g g2) as Hs2.
  { destruct (IH1 acc Hok) as [(? & ? & ?) _], Hs as (? & ? & ?). split; [congruence | split; congruence]. }
  split; [done |]. destruct r as [v | e]; cbn [map_err]; [| done]. specialize (Hv v eq_refl). subst v.
  destruct (m !! c) as [[kind body] |] eqn:Ec; [| done]. cbn.
  assert (forall acc1 added0, admitted added0 acc acc1 ->
    (forall x q, (x, q) ∈ added0 <-> (x, q) = (c, p)
       /\ ~ exists kind body, m !! x = Some (kind, body) /\ (limit < Z.of_nat (length body))%Z) ->
    match (admit_sized limit record_paths l sizes acc1 : result WE _) with
    | Ok acc' => exists added, admitted added acc acc'
         /\ forall x q, (x, q) ∈ added <-> (x, q) ∈ (c, p) :: l
              /\ ~ exists kind body, m !! x = Some (kind, body) /\ (limit < Z.of_nat (length body))%Z
    | Err e => fault m e
    end) as Hgo.
  { intros acc1 added0 Ha Hin. destruct (IH1 acc1 (a_ok _ _ _ Ha)) as [_ H].
    destruct (admit_sized _ _ _ _ acc1) as [acc' | e]; [| done]. destruct H as (added & Ha' & Hin').
    exists (added0 ++ added). split; [by eapply admitted_trans |].
    intros x q. rewrite elem_of_app, elem_of_cons, Hin, Hin'. tauto. }
  destruct (Z.leb_spec (Z.of_nat (length body)) limit).
  - apply (Hgo _ [(c, p)]); [by apply admit_one |]. intros x q. rewrite list_elem_of_singleton.
    split; [| tauto]. intros [= -> ->]. split; [done |]. intros (k & b & Hb & ?).
    assert (b = body) as -> by congruence. lia.
  - apply (Hgo _ []); [by apply admitted_refl |]. intros x q. rewrite elem_of_nil. split; [done |].
    intros [[= -> ->] Hno]. apply Hno. by exists kind, body.
Qed.

Lemma admit_blobs_spec candidates acc g :
  ws_objects g = m -> ordered_ok acc.1 ->
  let '(r, g') := (admit_blobs candidates acc filter record_paths : WM _) g in
  ws_same g g'
  /\ match r with
     | Ok acc' => exists added, admitted added acc acc'
         /\ forall x p, (x, p) ∈ added <-> (x, p) ∈ candidates /\ ~ filtered x
     | Err e => fault m e
     end.
Proof.
  intros Hm Hok. unfold admit_blobs, filtered. destruct filter as [| | limit].
  - split; [done |]. exists candidates. split; [by apply admit_all | tauto].
  - split; [done |]. exists []. split; [by apply admitted_refl |].
    intros x p. rewrite elem_of_nil. tauto.
  - pose proof (admit_sized_spec limit candidates acc g Hm Hok) as H.
    by destruct (object_sizes candidates.*1 g) as [sizes g'].
Qed.

(** ** The want side *)

(** [p] leads from [root] to tree [t]. *)
Inductive named_tree (root : Oid) : bytes -> Oid -> Prop :=
  | named_root : named_tree root [] root
  | named_step p t n c : named_tree root p t -> tree_link true t n c -> named_tree root (join_path p n) c.

Lemma elem_fst (l : list (Oid * bytes)) x : x ∈ l.*1 <-> exists p, (x, p) ∈ l.
Proof.
  rewrite list_elem_of_fmap. split; [intros ([c p] & -> & ?); by exists p | intros [p ?]; by exists (x, p)].
Qed.

Lemma level_entries_spec level (trees : list (list (TreeEntry Oid))) :
  Forall2 (reads record_paths) level.*1 trees ->
  Forall (fun x => named x.2) (level_entries level trees)
  /\ (forall pa (sub : bool) c n, (pa, if sub then Subtree c n else Leaf c n) ∈ level_entries level trees ->
       exists t n', (t, pa) ∈ level /\ tree_link sub t n' c /\ n = if record_paths then Some n' else None)
  /\ (forall t (sub : bool) n c, t ∈ level.*1 -> tree_link sub t n c ->
       exists pa, (pa, if sub then Subtree c (if record_paths then Some n else None)
                      else Leaf c (if record_paths then Some n else None)) ∈ level_entries level trees).
Proof.
  revert trees. induction level as [| [t pa] level IH]; intros trees Hf.
  { split; [constructor | split].
    - by intros ? ? ? ? ?%not_elem_of_nil.
    - by intros ? ? ? ? ?%not_elem_of_nil. }
  rewrite fmap_cons in Hf. apply Forall2_cons_inv_l in Hf as (es & trees' & [_ Hr] & Hf & ->).
  destruct (IH trees' Hf) as (Hn & Hin & Hout). clear IH.
  assert (level_entries ((t, pa) :: level) (es :: trees')
    = ((fun e => (pa, e)) <$> es) ++ level_entries level trees') as -> by done.
  split; [| split].
  - apply Forall_app. split; [| done]. apply Forall_forall. intros [pa' e] (e' & [= -> ->] & He)%list_elem_of_fmap.
    intros Hrp. cbn [snd].
    assert (forall sub c n, e' = (if sub : bool then Subtree c n else Leaf c n) -> is_Some n) as H.
    { intros sub c n ->. apply Hr in He as (n' & _ & ->). by rewrite Hrp. }
    destruct e' as [c n | c n]; [by eapply (H true) | by eapply (H false)].
  - intros pa' sub c n [(e & [= -> <-] & He)%list_elem_of_fmap | Hx]%elem_of_app.
    + apply Hr in He as (n' & Hl & ->). exists t, n'. split; [by left | done].
    + destruct (Hin _ _ _ _ Hx) as (t' & n' & ? & ?). exists t', n'. split; [by right | done].
  - intros t' sub n c [-> | Ht]%elem_of_cons Hl.
    + exists pa. apply elem_of_app. left. apply list_elem_of_fmap. eexists. split; [done |].
      assert ((if sub then Subtree c (if record_paths then Some n else None)
               else Leaf c (if record_paths then Some n else None)) ∈ es) as He by (apply Hr; by exists n).
      by destruct sub.
    + destruct (Hout t' sub n c Ht Hl) as [pa' Hx]. exists pa'. apply elem_of_app. by right.
Qed.

Section walk.
Context (base roots : list Oid).
Hypothesis Hbase : forall x body, x ∈ base -> m !! x <> Some (KTree, body).
Hypothesis Hleaves : leaves_ok.

Definition blob_under (x : Oid) : Prop := exists root t, root ∈ roots /\ tree_from root t /\ leaf t x.
Definition tree_under (x : Oid) : Prop := exists root, root ∈ roots /\ tree_from root x.

(** The collected objects, closed but for the [open] trees. *)
Record walk_inv (open : list (Oid * bytes)) (acc : Ordered * Paths) : Prop := {
  w_ok : ordered_ok acc.1;
  w_sound : forall x, x ∈ Walk.order acc.1 -> x ∈ base
    \/ (x ∉ have) /\ (tree_under x
        \/ blob_under x /\ ~ filtered x /\ (record_paths = true -> is_Some (acc.2 !! x)));
  w_open : forall t p, (t, p) ∈ open -> t ∈ Walk.order acc.1
    /\ exists root, root ∈ roots /\ tree_from root t /\ (record_paths = true -> named_tree root p t);
  w_closed : forall t, t ∈ Walk.order acc.1 -> t ∈ open.*1
    \/ (forall c, subtree t c -> c ∈ Walk.order acc.1 \/ c ∈ have)
       /\ forall c, leaf t c -> c ∈ Walk.order acc.1 \/ c ∈ have \/ filtered c;
  w_paths : forall x p, acc.2 !! x = Some p -> x ∈ Walk.order acc.1
    /\ exists root t q n, root ∈ roots /\ named_tree root q t /\ tree_link false t n x /\ p = join_path q n;
}.

Lemma no_links x : (forall body, m !! x <> Some (KTree, body)) -> forall sub n c, ~ tree_link sub x n c.
Proof. intros Hno sub n c (body & e & Hb & _). by eapply Hno. Qed.

Lemma filtered_dec x : filtered x \/ ~ filtered x.
Proof.
  unfold filtered. destruct filter as [| | limit]; [right; tauto | by left |].
  destruct (m !! x) as [[kind body] |] eqn:E.
  - destruct (Z.ltb_spec limit (Z.of_nat (length body))).
    + left. by exists kind, body.
    + right. intros (k & b & [= <- <-] & ?). lia.
  - right. by intros (k & b & ? & _).
Qed.

Lemma walk_level open acc (trees : list (list (TreeEntry Oid))) st acc' added :
  walk_inv open acc -> Forall2 (reads record_paths) open.*1 trees ->
  level_inv acc.1 (level_entries open trees) st ->
  admitted added (lv_objects st, acc.2) acc' ->
  (forall x p, (x, p) ∈ added <-> (x, p) ∈ lv_candidates st /\ ~ filtered x) ->
  walk_inv (lv_next st) acc'
  /\ (forall x, x ∈ Walk.order acc.1 -> x ∈ Walk.order acc'.1)
  /\ (forall x, x ∈ (lv_next st).*1 -> x ∉ Walk.order acc.1).
Proof.
  intros [Hok Hsound Hopen Hclosed Hpaths] Hr [Lok Lobjs Lnext Lcand Lseen Ldone] [Aok Aobjs Apaths Akeep] Hadd.
  destruct (level_entries_spec _ _ Hr) as (_ & Hin & Hout). cbn [fst snd] in *.
  assert (forall x, x ∈ Walk.order acc'.1 <->
    x ∈ Walk.order acc.1 \/ x ∈ (lv_next st).*1 \/ x ∈ added.*1) as Hmem
    by (intros x; rewrite Aobjs, Lobjs; tauto).
  (* New trees and new blobs are linked from an open tree. *)
  assert (forall c p, (c, p) ∈ lv_next st -> (c ∉ have) /\ (c ∉ Walk.order acc.1)
    /\ exists root, root ∈ roots /\ tree_from root c /\ (record_paths = true -> named_tree root p c)) as Hnew.
  { intros c p Hc. destruct (Lnext c p Hc) as (Hh & Ho & pa & n & He & Hp). split; [done | split; [done |]].
    destruct (Hin pa true c n He) as (t & n' & Ht & Hl & ->).
    destruct (Hopen t pa Ht) as (_ & root & Hroot & Htr & Hnm). exists root. split; [done | split].
    - eapply rtc_r; [exact Htr | by exists n'].
    - intros Hrp. unfold entry_path in Hp. rewrite Hrp in Hp. injection Hp as <-.
      econstructor; [by apply Hnm | done]. }
  assert (forall c p, (c, p) ∈ lv_candidates st -> (c ∉ have) /\ blob_under c
    /\ (record_paths = true -> exists root t q n, root ∈ roots /\ named_tree root q t
          /\ tree_link false t n c /\ p = join_path q n)) as Hcand.
  { intros c p Hc. destruct (Lcand c p Hc) as (Hh & pa & n & He & Hp). split; [done |].
    destruct (Hin pa false c n He) as (t & n' & Ht & Hl & ->).
    destruct (Hopen t pa Ht) as (_ & root & Hroot & Htr & Hnm). split.
    - exists root, t. split; [done | split; [done | by exists n']].
    - intros Hrp. unfold entry_path in Hp. rewrite Hrp in Hp. injection Hp as <-.
      exists root, t, pa, n'. auto. }
  split; [split; [done | | | |] | split].
  - intros x [Hx | [[p Hx]%elem_fst | Hx]]%Hmem.
    + destruct (Hsound x Hx) as [? | (? & [? | (? & ? & Hp)])]; [by left | by auto |].
      right. split; [done |]. right. split; [done | split; [done |]]. auto.
    + destruct (Hnew x p Hx) as (? & _ & root & ? & ? & _). right. split; [done |]. left. by exists root.
    + pose proof Hx as [p [Hc Hf]%Hadd]%elem_fst. destruct (Hcand x p Hc) as (? & ? & _).
      right. split; [done |]. right. split; [done | split; [done |]]. auto.
  - intros t p Ht. split; [apply Hmem; right; left; apply elem_fst; by exists p |].
    by destruct (Hnew t p Ht) as (_ & _ & ?).
  - intros t Ht. apply Hmem in Ht as [Ht | [Ht | Ht]]; [| by left |].
    + right. destruct (Hclosed t Ht) as [Hto | [Hc1 Hc2]].
      * split; intros c [n Hl].
        -- destruct (Hout t true n c Hto Hl) as [pa He]. specialize (Ldone _ He). cbn in Ldone.
           destruct Ldone as [Hc | Hc]; [| by right]. left. apply Aobjs. by left.
        -- destruct (Hout t false n c Hto Hl) as [pa He]. specialize (Ldone _ He). cbn in Ldone.
           destruct Ldone as [Hc | [Hc | [p Hc]%elem_fst]]; [by right; left | left; apply Aobjs; by left |].
           destruct (filtered_dec c) as [Hf | Hf]; [by right; right | left].
           apply Aobjs. right. apply elem_fst. exists p. by apply Hadd.
      * split; intros c Hl.
        -- destruct (Hc1 c Hl); [left; apply Hmem; by left | by right].
        -- destruct (Hc2 c Hl) as [? | [? | ?]]; [left; apply Hmem; by left | by right; left | by right; right].
    + right. pose proof Ht as [p [Hc Hf]%Hadd]%elem_fst. destruct (Hcand t p Hc) as (_ & (root & tr & _ & _ & Hlf) & _).
      assert (forall sub n c, ~ tree_link sub t n c) as Hno
        by (apply no_links; intros body; by eapply Hleaves).
      split; intros c [n Hl]; by apply Hno in Hl.
  - intros x p Hx. destruct (Apaths x p Hx) as [Hold | [Hrp Hin']].
    + destruct (Hpaths x p Hold) as [? ?]. split; [apply Hmem; by left | done].
    + split; [apply Hmem; right; right; apply elem_fst; by exists p |].
      apply Hadd in Hin' as [Hc _]. destruct (Hcand x p Hc) as (_ & _ & Hp). by apply Hp.
  - intros x Hx. apply Hmem. by left.
  - intros x [p Hx]%elem_fst. by destruct (Hnew x p Hx) as (_ & ? & _).
Qed.

Definition walk_rounds (acc : Ordered * Paths) : nat := rounds (seen acc.1).

Lemma walk_levels_spec fuel open acc g :
  ws_objects g = m -> walk_inv open acc -> 0 < fuel ->
  (open <> [] -> (forall t, t ∈ open.*1 -> t ∈ dom m) -> walk_rounds acc <= fuel) ->
  let '(r, g') := (walk_levels fuel open acc have filter record_paths : WM _) g in
  ws_same g g' /\ match r with
                  | Ok acc' => walk_inv [] acc'
                      /\ forall x, x ∈ Walk.order acc.1 -> x ∈ Walk.order acc'.1
                  | Err e => fault m e
                  end.
Proof.
  revert open acc g. induction fuel as [| fuel IH]; intros open acc g Hm Hinv Hpos Hfuel; [lia |].
  destruct open as [| t open]; [by cbn |]. cbn [walk_levels]. unfold se_bind at 1.
  pose proof (read_trees_spec (t :: open).*1 record_paths g Hm) as Hr.
  destruct (read_trees (t :: open).*1 record_paths g) as [[trees | e] g1]; destruct Hr as [Hs Hr]; [| done].
  specialize (Hfuel ltac:(done) (fun x => reads_dom record_paths _ trees x Hr)).
  destruct (level_entries_spec _ _ Hr) as (Hnamed & _).
  destruct (visit_entries_inv acc.1 (level_entries (t :: open) trees) [] (mkLevel acc.1 [] [] ∅))
    as (st & -> & Hlv); [| done |].
  { split; cbn [lv_objects lv_next lv_candidates lv_candidate_seen].
    - apply (w_ok _ _ Hinv).
    - intros x. cbn. rewrite elem_of_nil. tauto.
    - by intros c p ?%not_elem_of_nil.
    - by intros c p ?%not_elem_of_nil.
    - intros x. cbn. rewrite elem_of_nil. set_solver.
    - by intros x ?%not_elem_of_nil. }
  cbn [app] in Hlv. assert (ws_objects g1 = m) as Hm1 by (destruct Hs as (-> & _); done).
  unfold se_bind.
  pose proof (admit_blobs_spec (lv_candidates st) (lv_objects st, acc.2) g1 Hm1 (l_ok _ _ _ Hlv)) as Ha.
  destruct (admit_blobs _ _ _ _ g1) as [[acc' | e] g2]; destruct Ha as [Hs2 Ha];
    destruct Hs as (Ho1 & Hg1 & Hr1), Hs2 as (Ho2 & Hg2 & Hr2).
  2: { split; [split; [congruence | split; congruence] | done]. }
  destruct Ha as (added & Hadm & Hadd).
  destruct (walk_level _ _ _ _ _ _ Hinv Hr Hlv Hadm Hadd) as (Hinv' & Hgrow & Hnew).
  specialize (IH (lv_next st) acc' g2 ltac:(congruence) Hinv').
  destruct (walk_levels fuel (lv_next st) acc' have filter record_paths g2) as [r g3].
  destruct IH as [(Ho3 & Hg3 & Hr3) Hok].
  - unfold walk_rounds, rounds in Hfuel. lia.
  - intros Hne Hdom. destruct (lv_next st) as [| [x p] next] eqn:En; [done |].
    assert (x ∈ (lv_next st).*1) as Hx by (rewrite En; by left). rewrite En in Hx.
    assert (walk_rounds acc' < walk_rounds acc) as Hd; [| lia].
    pose proof (proj2 (w_ok _ _ Hinv)) as Hseen. pose proof (proj2 (w_ok _ _ Hinv')) as Hseen'.
    apply (rounds_drop _ _ x).
    + intros y Hy. by apply Hseen', Hgrow, Hseen.
    + by apply Hdom.
    + intros Hin. by apply (Hnew x Hx), Hseen.
    + apply Hseen'. by apply (w_open _ _ Hinv' x p), list_elem_of_here.
  - split; [split; [congruence | split; congruence] |]. destruct r as [acc2 |]; [| done].
    destruct Hok as [Hi Hg]. split; [done |]. auto.
Qed.

Lemma walk_inv_base id acc :
  walk_inv [] acc -> id ∈ base -> walk_inv [] (ordered_insert acc.1 id, acc.2).
Proof.
  intros [Hok Hs Ho Hc Hp] Hid.
  pose proof (fun x => ordered_insert_mem acc.1 id x Hok) as Hins.
  split; cbn [fst snd].
  - by apply ordered_insert_ok.
  - intros x [-> | Hx]%Hins; [by left | by apply Hs].
  - by intros t p ?%not_elem_of_nil.
  - intros t [-> | Ht]%Hins; right.
    + assert (forall sub n c, ~ tree_link sub id n c) as Hno
        by (apply no_links; intros body; by apply Hbase).
      split; intros c [n Hl]; by apply Hno in Hl.
    + destruct (Hc t Ht) as [?%not_elem_of_nil | [Hc1 Hc2]]; [done |].
      split; intros c Hl; rewrite Hins; [destruct (Hc1 c Hl) | destruct (Hc2 c Hl) as [| []]]; auto.
  - intros x p Hx. destruct (Hp x p Hx). split; [rewrite Hins; by right | done].
Qed.

Lemma walk_inv_root root acc :
  walk_inv [] acc -> root ∈ roots -> root ∉ have ->
  walk_inv [(root, [])] (ordered_insert acc.1 root, acc.2).
Proof.
  intros [Hok Hs Ho Hc Hp] Hid Hh.
  pose proof (fun x => ordered_insert_mem acc.1 root x Hok) as Hins.
  split; cbn [fst snd].
  - by apply ordered_insert_ok.
  - intros x [-> | Hx]%Hins; [| by apply Hs]. right. split; [done |]. left. exists root. split; [done | reflexivity].
  - intros t p [= -> ->]%list_elem_of_singleton. split; [apply Hins; by left |].
    exists root. split; [done | split; [reflexivity | constructor]].
  - intros t [-> | Ht]%Hins; [left; by left |]. right.
    destruct (Hc t Ht) as [?%not_elem_of_nil | [Hc1 Hc2]]; [done |].
    split; intros c Hl; rewrite Hins; [destruct (Hc1 c Hl) | destruct (Hc2 c Hl) as [| []]]; auto.
  - intros x p Hx. destruct (Hp x p Hx). split; [rewrite Hins; by right | done].
Qed.

Lemma walk_tree_spec fuel root acc g :
  ws_objects g = m -> size m + 2 <= fuel -> walk_inv [] acc -> root ∈ roots ->
  let '(r, g') := (walk_tree fuel root acc have filter record_paths : WM _) g in
  ws_same g g' /\ match r with
                  | Ok acc' => walk_inv [] acc'
                      /\ (forall x, x ∈ Walk.order acc.1 -> x ∈ Walk.order acc'.1)
                      /\ (root ∈ Walk.order acc'.1 \/ root ∈ have)
                  | Err e => fault m e
                  end.
Proof.
  intros Hm Hfuel Hinv Hroot. unfold walk_tree. rewrite contains_spec by apply Hinv.
  assert (forall x, rounds x <= fuel) as Hrounds.
  { intros x. unfold rounds. enough (size (dom m ∖ x) <= size m) by lia.
    rewrite <- size_dom. apply subseteq_size. set_solver. }
  case_bool_decide as Hc; [| case_bool_decide as Hh]; cbn [negb andb].
  1, 2: destruct fuel; [lia |]; cbn [walk_levels]; unfold se_ret; split; [done | split; [done | split; [done | by auto]]].
  pose proof (walk_levels_spec fuel [(root, [])] (ordered_insert acc.1 root, acc.2) g Hm
    (walk_inv_root root acc Hinv Hroot Hh) ltac:(lia) (fun _ _ => Hrounds _)) as H.
  destruct (walk_levels _ _ _ _ _ _ g) as [r g']. destruct H as [Hs Hok]. split; [done |].
  destruct r as [acc' |]; [| done]. destruct Hok as [Hinv' Hgrow]. split; [done |].
  pose proof (fun x => ordered_insert_mem acc.1 root x (w_ok _ _ Hinv)) as Hins. cbn [fst] in Hgrow.
  split; [intros x Hx; apply Hgrow, Hins; by right | left; apply Hgrow, Hins; by left].
Qed.

(** An entry of the send list is settled once it and its tree are in. *)
Definition sent (records : Records) (acc : Ordered * Paths) (e : Oid * Kind * Z) : Prop :=
  e.1.1 ∈ Walk.order acc.1
  /\ forall r, e.1.2 = KCommit -> records !! e.1.1 = Some r ->
       root_tree r ∈ Walk.order acc.1 \/ root_tree r ∈ have.

Lemma collect_each_spec fuel records classified acc g :
  ws_objects g = m -> size m + 2 <= fuel -> walk_inv [] acc ->
  Forall (fun e => (e.1.2 = KCommit \/ e.1.2 = KTag -> e.1.1 ∈ base) /\ kind_at m e.1.1 = Some e.1.2
    /\ (e.1.2 = KCommit -> exists r, records !! e.1.1 = Some r /\ root_tree r ∈ roots)) classified ->
  let '(r, g') := (collect_each fuel records classified acc have filter record_paths : WM _) g in
  ws_same g g' /\ match r with
                  | Ok acc' => walk_inv [] acc'
                      /\ (forall x, x ∈ Walk.order acc.1 -> x ∈ Walk.order acc'.1)
                      /\ Forall (sent records acc') classified
                  | Err e => fault m e
                  end.
Proof.
  intros Hm Hfuel Hinv Hcl. revert acc g Hm Hinv.
  induction Hcl as [| [[id kind] n] classified (Hb & Hk & Hrec) Hcl IH]; intros acc g Hm Hinv; cbn [collect_each].
  { by split. }
  cbn [fst snd] in *.
  assert (kind = KCommit \/ kind = KTag -> walk_inv [] (ordered_insert acc.1 id, acc.2)) as Hinv1
    by (intros Hk'; apply walk_inv_base; auto).
  pose proof (fun x => ordered_insert_mem acc.1 id x (w_ok _ _ Hinv)) as Hins.
  assert (forall acc1 g1, ws_same g g1 -> walk_inv [] acc1 ->
    (forall x, x ∈ Walk.order (ordered_insert acc.1 id) -> x ∈ Walk.order acc1.1) ->
    (kind = KCommit -> forall r, records !! id = Some r ->
       root_tree r ∈ Walk.order acc1.1 \/ root_tree r ∈ have) ->
    let '(r, g') := (collect_each fuel records classified acc1 have filter record_paths : WM _) g1 in
    ws_same g g' /\ match r with
                    | Ok acc' => walk_inv [] acc'
                        /\ (forall x, x ∈ Walk.order acc.1 -> x ∈ Walk.order acc'.1)
                        /\ Forall (sent records acc') ((id, kind, n) :: classified)
                    | Err e => fault m e
                    end) as Hgo.
  { intros acc1 g1 Hs1 Hi1 Hg1 Hr1. specialize (IH acc1 g1 ltac:(destruct Hs1 as (-> & _); done) Hi1).
    destruct (collect_each _ _ _ _ _ _ _ g1) as [r g2]. destruct IH as [Hs2 Hok].
    split; [by eapply ws_same_trans |]. destruct r as [acc' |]; [| done]. destruct Hok as (Hi & Hg & Hall).
    split; [done | split; [intros x Hx; apply Hg, Hg1, Hins; by right |]].
    constructor; [| done]. split; [cbn; apply Hg, Hg1, Hins; by left |].
    cbn. intros r Hkc Hr. destruct (Hr1 Hkc r Hr); [left; by apply Hg | by right]. }
  destruct kind.
  - split; [done |]. unfold kind_at in Hk. destruct (m !! id) as [[k body] |] eqn:E; [| done].
    injection Hk as ->. by exists body.
  - split; [done |]. unfold kind_at in Hk. destruct (m !! id) as [[k body] |] eqn:E; [| done].
    injection Hk as ->. by exists body.
  - destruct (Hrec eq_refl) as (info & Hinfo & Hroot). rewrite Hinfo. unfold se_bind.
    pose proof (walk_tree_spec fuel (root_tree info) (ordered_insert acc.1 id, acc.2) g Hm Hfuel
      (Hinv1 (or_introl eq_refl)) Hroot) as Hw.
    destruct (walk_tree _ _ _ _ _ _ g) as [[acc1 | e] g1]; destruct Hw as [Hs1 Hw]; [| done].
    destruct Hw as (Hi1 & Hg1 & Hr1). apply Hgo; [done | done | done |].
    intros _ r Hr. assert (r = info) as -> by congruence. done.
  - apply Hgo; [done | by auto | by intros | done].
Qed.

End walk.

End level.

End spec.

(** ** The collection *)

(** The root trees of the commits among [ids]. *)
Definition commit_roots (m : gmap Oid (Kind * bytes)) (ids : list Oid) : list Oid :=
  omap (fun c => fst <$> commit_at m c) ids.

Lemma commit_roots_spec m ids r :
  r ∈ commit_roots m ids <-> exists c ps, c ∈ ids /\ commit_at m c = Some (r, ps).
Proof.
  unfold commit_roots. rewrite list_elem_of_omap. split.
  - intros (c & Hc & Hr). destruct (commit_at m c) as [[t ps] |] eqn:E; [| done].
    injection Hr as ->. by exists c, ps.
  - intros (c & ps & Hc & E). exists c. by rewrite E.
Qed.

Lemma have_roots_spec m (records : Records) fetched :
  (forall id r, (id, r) ∈ fetched -> match r with
     | Ok rec => records !! id = Some rec
     | Err e => fault m e /\ expects_commit r
     end) ->
  match have_roots fetched with
  | Ok roots => (forall x, x ∈ roots <-> exists h info, (h, Ok info) ∈ fetched /\ root_tree info = x)
      /\ forall id e, (id, Err e) ∈ fetched -> forall body, m !! id <> Some (KCommit, body)
  | Err e => fault m e
  end.
Proof.
  induction fetched as [| [h r] fetched IH]; intros Hft; cbn [have_roots].
  { split; [| by intros ? ? ?%not_elem_of_nil]. intros x. rewrite elem_of_nil.
    split; [done |]. by intros (? & ? & ?%not_elem_of_nil & _). }
  pose proof (Hft h r (list_elem_of_here _ _)) as Hh.
  specialize (IH ltac:(intros ? ? ?; apply Hft; by right)).
  destruct r as [info | e].
  - destruct (have_roots fetched) as [roots | e]; [cbn | done]. destruct IH as [Hr Hd]. split.
    + intros x. rewrite elem_of_cons, Hr. setoid_rewrite elem_of_cons. split.
      * intros [-> | (h' & i & ? & ?)]; [exists h, info; auto | exists h', i; auto].
      * intros (h' & i & [[= -> ->] | Hin] & Hx); [by left | right; by exists h', i].
    + intros id e [? | Hin]%elem_of_cons; [done | by eapply Hd].
  - assert ((forall body, m !! h <> Some (KCommit, body)) -> match have_roots fetched with
      | Ok roots => (forall x, x ∈ roots <-> exists h0 info, (h0, Ok info) ∈ (h, Err e) :: fetched /\ root_tree info = x)
          /\ forall id e0, (id, Err e0) ∈ (h, Err e) :: fetched -> forall body, m !! id <> Some (KCommit, body)
      | Err e => fault m e end) as Hdrop.
    { intros Hno. destruct (have_roots fetched) as [roots | e']; [| done]. destruct IH as [Hr Hd]. split.
      - intros x. rewrite Hr. setoid_rewrite elem_of_cons. naive_solver.
      - intros id e0 [[= -> ->] | Hin]%elem_of_cons; [done | by eapply Hd]. }
    destruct Hh as [Hf Hx]. destruct e; try done.
    + case_decide as E; [subst | done]. apply Hdrop. intros body. cbn in Hf. congruence.
    + case_decide as E; [subst | done]. apply Hdrop. intros body.
      destruct Hf as (b & Hb & Hne). cbn in Hx. congruence.
Qed.

(** What a collection of [ids] against [haves] picks from the trees. *)
Definition picked (m : gmap Oid (Kind * bytes)) (filter : FilterSpec) (ids haves : list Oid) (x : Oid) : Prop :=
  ~ held m filter (commit_roots m haves) x
  /\ (tree_under m (commit_roots m ids) x
      \/ blob_under m (commit_roots m ids) x /\ ~ filtered m filter x).

(** A store whose walk is well behaved: fixed objects, faithful records,
    acyclic history, no tree listed as a leaf, enough fuel. *)
Record collectable (m : gmap Oid (Kind * bytes)) (rank : Oid -> nat) (fuel : nat) (g : G) : Prop := {
  c_objects : ws_objects g = m;
  c_graph : graph_wf False g;
  c_ranked : ranked m rank;
  c_leaves : leaves_ok m;
  c_fuel : size m + 2 <= fuel /\ graph_fuel m <= fuel;
}.

(** The roots of the recognized haves are those of the haves that are commits. *)
Lemma have_side_roots m (records : Records) (haves roots : list Oid)
    (fetched : list (Oid * result WE (CommitGraphRecord Oid))) x :
  (forall id rec, records !! id = Some rec -> commit_at m id = Some (root_tree rec, parents rec)) ->
  (forall id r, (id, r) ∈ fetched -> id ∈ haves /\ match r with
     | Ok rec => records !! id = Some rec
     | Err _ => True
     end) ->
  (forall id, id ∈ haves -> id ∈ fetched.*1) ->
  (forall x, x ∈ roots <-> exists h info, (h, Ok info) ∈ fetched /\ root_tree info = x) ->
  (forall id e, (id, Err e) ∈ fetched -> forall body, m !! id <> Some (KCommit, body)) ->
  x ∈ roots <-> x ∈ commit_roots m haves.
Proof.
  intros Hrec Hft Hall Hroots Hdrop. rewrite Hroots, commit_roots_spec. split.
  - intros (h & info & Hin & <-). destruct (Hft _ _ Hin) as [Hh Hr]. exists h, (parents info). auto.
  - intros (c & ps & Hc & Hcm). pose proof (Hall c Hc) as Hin.
    apply list_elem_of_fmap in Hin as ([c' r] & -> & Hin). cbn in *. destruct r as [info | e].
    + exists c', info. split; [done |]. destruct (Hft _ _ Hin) as [_ Hr]. apply Hrec in Hr. congruence.
    + exfalso. unfold commit_at in Hcm. destruct (m !! c') as [[[] body] |] eqn:E; try done.
      by apply (Hdrop _ _ Hin body).
Qed.

Lemma held_ext m filter roots roots' x :
  (forall r, r ∈ roots <-> r ∈ roots') -> held m filter roots x <-> held m filter roots' x.
Proof. intros H. unfold held. split; intros (r & t & Hr & Hx); exists r, t; (split; [by apply H | done]). Qed.

Lemma walk_inv_empty m filter record_paths have base roots :
  walk_inv m filter record_paths have base roots [] (ordered_empty, ∅).
Proof.
  split; cbn [fst snd].
  - apply ordered_empty_ok.
  - by intros x ?%not_elem_of_nil.
  - by intros t p ?%not_elem_of_nil.
  - by intros t ?%not_elem_of_nil.
  - intros x p. by rewrite lookup_empty.
Qed.

(** The commits of a classified send list, whose records the walk loads. *)
Definition commits_of (classified : list (Oid * Kind * Z)) : list Oid :=
  omap (fun e => if decide (e.1.2 = KCommit) then Some e.1.1 else None) classified.

Lemma classified_ready m (records : Records) to_send classified :
  Forall2 (sized m) to_send classified ->
  (forall id r, records !! id = Some r -> commit_at m id = Some (root_tree r, parents r)) ->
  (forall id, id ∈ commits_of classified -> is_Some (records !! id)) ->
  Forall (fun e => (e.1.2 = KCommit \/ e.1.2 = KTag ->
      e.1.1 ∈ filter (fun id => kind_at m id = Some KCommit \/ kind_at m id = Some KTag) to_send)
    /\ kind_at m e.1.1 = Some e.1.2
    /\ (e.1.2 = KCommit -> exists r, records !! e.1.1 = Some r /\ root_tree r ∈ commit_roots m to_send))
    classified.
Proof.
  intros Hcl Hrec Hload. apply Forall_forall. intros e He.
  pose proof He as [i Hi]%list_elem_of_lookup.
  destruct (Forall2_lookup_r _ _ _ _ _ Hcl Hi) as (id & Hid & Hs).
  apply sized_kind in Hs as [<- Hk]. apply list_elem_of_lookup_2 in Hid.
  split; [| split; [done |]].
  - intros Hor. apply list_elem_of_filter. rewrite Hk. split; [| done].
    destruct Hor as [-> | ->]; auto.
  - intros Hc. destruct (Hload e.1.1) as [r Hr].
    { apply list_elem_of_omap. exists e. split; [done |]. by rewrite decide_True. }
    exists r. split; [done |]. apply commit_roots_spec. exists e.1.1, (parents r). auto.
Qed.

(** The invariant a finished collection ends in. *)
Lemma collect_spec fuel rank m to_send haves filter record_paths g :
  collectable m rank fuel g ->
  let '(r, g') := collect_inner fuel to_send haves filter record_paths g in
  ws_objects g' = m
  /\ match r with
     | Ok col => exists have acc, co_objects col = Walk.order acc.1 /\ blob_paths col = acc.2
         /\ (forall x, x ∈ have <-> held m filter (commit_roots m haves) x)
         /\ walk_inv m filter record_paths have to_send (commit_roots m to_send) [] acc
         /\ (forall id, id ∈ to_send -> id ∈ Walk.order acc.1)
         /\ forall r, r ∈ commit_roots m to_send -> r ∈ Walk.order acc.1 \/ r ∈ have
     | Err e => fault m e
     end.
Proof.
  intros [Ho Hwf Hr Hleaves [Hf1 Hf2]]. unfold collect_inner.
  assert (cached False m ∅ g) as Hca0 by (split; [done | split; [done | apply map_empty_subseteq]]).
  pose proof (prefetch_spec False m rank Hr fuel Hf2 ∅ haves g Hca0) as Hpf.
  destruct (prefetch_records fuel ∅ haves g) as [[fetched records] g1].
  destruct Hpf as (Hca1 & _ & _ & Hft1 & Hall1 & _).
  pose proof (have_roots_spec m records fetched (fun id r Hin => proj2 (proj2 (Hft1 id r Hin)))) as Hhr.
  destruct (have_roots fetched) as [roots | e]; [| by destruct Hca1 as (? & _)].
  destruct Hhr as [Hroots Hdrop].
  assert (forall x, x ∈ roots <-> x ∈ commit_roots m haves) as Hside.
  { intros x. apply (have_side_roots m records haves roots fetched); try done.
    - intros id rec. by eapply cached_commit.
    - intros id r Hin. destruct (Hft1 id r Hin) as (? & _ & ?). split; [done | by destruct r].
    - intros id Hid. by destruct (Hall1 id Hid) as [[? ?] |]. }
  destruct Hca1 as (Ho1 & Hwf1 & Hsub1). unfold se_bind at 1.
  pose proof (expand_haves_spec m filter roots Hleaves fuel g1 Ho1 Hf1) as Hex.
  destruct (expand_haves fuel roots ∅ filter g1) as [[have | e] g2]; destruct Hex as [(Ho2 & Hg2 & Hr2) Hhave];
    [| split; [congruence | done]].
  unfold se_bind at 1. pose proof (sizes_or_spec (MissingObject : Oid -> WE) to_send g2) as Hsz.
  destruct (sizes_or MissingObject to_send g2) as [[classified | e] g3]; destruct Hsz as [(Ho3 & Hg3 & Hr3) Hcl];
    rewrite Ho2, Ho1 in Hcl.
  2: { split; [congruence |]. destruct Hcl as [[o ->] | (id & _ & Hid & ->)]; done. }
  assert (cached False m records g3) as Hca3.
  { split; [congruence | split; [| by rewrite Hg3, Hg2]]. unfold graph_wf. by rewrite Hg3, Hg2, Ho3, Ho2. }
  fold (commits_of classified).
  pose proof (prefetch_spec False m rank Hr fuel Hf2 records (commits_of classified) g3 Hca3) as Hpf.
  destruct (prefetch_records fuel records _ g3) as [[fetched2 records2] g4].
  destruct Hpf as (Hca4 & Hsub2 & _ & Hft2 & Hall2 & _).
  pose proof (first_error_spec m records2 fetched2 (fun id r Hin => proj2 (proj2 (Hft2 id r Hin)))) as Hfe.
  destruct (first_error fetched2) as [[] | e]; [| by destruct Hca4 as (? & _)].
  assert (forall id, id ∈ commits_of classified -> is_Some (records2 !! id)) as Hload.
  { intros id Hid. destruct (Hall2 id Hid) as [[r Hrr] | Hin]; [| by apply Hfe].
    exists r. by eapply lookup_weaken. }
  pose proof (classified_ready m records2 to_send classified Hcl
    (fun id r => cached_commit False m records2 g4 id r Hca4) Hload) as Hready.
  destruct Hca4 as (Ho4 & Hwf4 & Hsub4).
  set (base := stdpp.base.filter (fun id => kind_at m id = Some KCommit \/ kind_at m id = Some KTag) to_send) in *.
  assert (forall id, id ∈ base -> id ∈ to_send /\ (kind_at m id = Some KCommit \/ kind_at m id = Some KTag))
    as Hbase by (by intros id [? ?]%list_elem_of_filter).
  pose proof (collect_each_spec m filter record_paths have base (commit_roots m to_send)
    ltac:(intros x body [_ Hk]%Hbase Hb; unfold kind_at in Hk; rewrite Hb in Hk; naive_solver)
    Hleaves fuel records2 classified (ordered_empty, ∅) g4 Ho4 Hf1
    (walk_inv_empty _ _ _ _ _ _) Hready) as Hce.
  unfold se_bind.
  destruct (collect_each _ _ _ _ _ _ _ g4) as [[acc | e] g5]; destruct Hce as [(Ho5 & _) Hce];
    (split; [cbn; congruence |]); [| done].
  destruct Hce as (Hinv & _ & Hsent). rewrite Forall_forall in Hsent.
  exists have, acc. split; [done | split; [done | split; [| split; [| split]]]].
  - intros x. rewrite Hhave. by apply held_ext.
  - destruct Hinv as [? Hs ? ? ?]. split; try done. intros x Hx.
    destruct (Hs x Hx) as [[? _]%Hbase | ?]; [by left | by right].
  - intros id Hid. apply list_elem_of_lookup in Hid as [i Hi].
    destruct (Forall2_lookup_l _ _ _ _ _ Hcl Hi) as (e & He & [<- _]).
    by apply (Hsent e), list_elem_of_lookup_2 with i.
  - intros r (c & ps & Hc & Hcm)%commit_roots_spec. apply list_elem_of_lookup in Hc as [i Hi].
    destruct (Forall2_lookup_l _ _ _ _ _ Hcl Hi) as (e & He & Hs). apply list_elem_of_lookup_2 in He.
    apply sized_kind in Hs as [<- Hk]. unfold commit_at, kind_at in *.
    destruct (m !! e.1.1) as [[[] body] |] eqn:E; try done. injection Hk as Hk.
    destruct (Hload e.1.1) as [rec Hrec].
    { apply list_elem_of_omap. exists e. split; [done |]. by rewrite decide_True. }
    destruct (Hsent e He) as [_ Hroot]. specialize (Hroot rec (eq_sym Hk) Hrec).
    pose proof (cached_commit False m records2 g4 _ _ (conj Ho4 (conj Hwf4 Hsub4)) Hrec) as Hcm'.
    unfold commit_at in Hcm'. rewrite E in Hcm'. destruct (commit_ref body (oid_kind e.1.1)); [| done].
    congruence.
Qed.

(** What a held tree lists is held, blobs under [blob:none] aside. *)
Lemma held_closed m filter roots t :
  leaves_ok m -> held m filter roots t ->
  (forall c, subtree m t c -> held m filter roots c)
  /\ (filter <> BlobNone -> forall c, leaf m t c -> held m filter roots c).
Proof.
  intros Hleaves (r & t0 & Hr & Htr & Ht).
  assert (forall sub n c, tree_link m sub t n c -> t = t0) as Htree.
  { intros sub n c (body & e & Hb & _). destruct Ht as [-> | [Hl _]]; [done |].
    by destruct (Hleaves _ _ body Hl). }
  split; [intros c [n Hl] | intros Hf c [n Hl]]; pose proof (Htree _ _ _ Hl) as ->.
  - exists r, c. split; [done | split; [eapply rtc_r; [exact Htr | by exists n] | by left]].
  - exists r, t0. split; [done | split; [done |]]. right. split; [by exists n | done].
Qed.

(** The invariant decides membership: what is sent, and what is picked. *)
Lemma walk_inv_exact m filter record_paths have to_send haves acc x :
  leaves_ok m ->
  (forall x, x ∈ have <-> held m filter (commit_roots m haves) x) ->
  walk_inv m filter record_paths have to_send (commit_roots m to_send) [] acc ->
  (forall id, id ∈ to_send -> id ∈ Walk.order acc.1) ->
  (forall r, r ∈ commit_roots m to_send -> r ∈ Walk.order acc.1 \/ r ∈ have) ->
  x ∈ Walk.order acc.1 <-> x ∈ to_send \/ picked m filter to_send haves x.
Proof.
  intros Hleaves Hhave [Hok Hs _ Hc _] Hsent Hroots. unfold picked. rewrite <- Hhave. split.
  { intros Hx. destruct (Hs x Hx) as [? | (? & [? | (? & ? & _)])]; auto. }
  assert (forall t, t ∈ Walk.order acc.1 \/ t ∈ have ->
    (forall c, subtree m t c -> c ∈ Walk.order acc.1 \/ c ∈ have)
    /\ forall c, leaf m t c -> ~ filtered m filter c -> c ∈ Walk.order acc.1 \/ c ∈ have) as Hstep.
  { intros t [Ht | Ht].
    - destruct (Hc t Ht) as [?%not_elem_of_nil | [Hc1 Hc2]]; [done |]. split; [done |].
      intros c Hl Hf. destruct (Hc2 c Hl) as [? | [? | ?]]; auto. done.
    - apply Hhave in Ht. destruct (held_closed _ _ _ _ Hleaves Ht) as [Hh1 Hh2].
      split; [intros c Hl; right; apply Hhave; auto |]. intros c Hl Hf. right. apply Hhave.
      apply Hh2; [| done]. intros ->. by apply Hf. }
  assert (forall r t, r ∈ commit_roots m to_send -> tree_from m r t -> t ∈ Walk.order acc.1 \/ t ∈ have) as Htrees.
  { intros r t Hr%Hroots Htr. induction Htr as [| r c t Hl _ IH]; [done |].
    apply IH. by apply (proj1 (Hstep r Hr)). }
  intros [Hx | (Hh & [(r & Hr & Htr) | ((r & t & Hr & Htr & Hl) & Hf)])]; [by apply Hsent | |].
  - by destruct (Htrees r x Hr Htr).
  - by destruct (proj2 (Hstep t (Htrees r t Hr Htr)) x Hl Hf).
Qed.

(** C11: collection is exact.  The objects of the pack are, once each, the send
    list and the trees and admitted blobs its commits reach that the client's
    haves do not; the walk ends within the stated bound, never panics, changes no
    object, and fails only with a store's failure or the fault of an object. *)
Theorem collect_exact fuel rank to_send haves filter record_paths g :
  collectable (ws_objects g) rank fuel g ->
  let '(r, g') := collect_inner fuel to_send haves filter record_paths g in
  ws_objects g' = ws_objects g
  /\ match r with
     | Ok col => NoDup (co_objects col)
         /\ forall x, x ∈ co_objects col <->
              x ∈ to_send \/ picked (ws_objects g) filter to_send haves x
     | Err e => fault (ws_objects g) e
     end.
Proof.
  intros Hc. pose proof (collect_spec fuel rank _ to_send haves filter record_paths g Hc) as H.
  destruct (collect_inner _ _ _ _ _ g) as [[col | e] g']; destruct H as [Ho H]; (split; [done |]); [| done].
  destruct H as (have & acc & -> & _ & Hhave & Hinv & Hsent & Hroots). split; [apply (w_ok _ _ _ _ _ _ _ _ Hinv) |].
  intros x. eapply walk_inv_exact; try done. apply (c_leaves _ _ _ _ Hc).
Qed.

(** Packing paths.  With paths recorded, every recorded path leads from the
    root tree of a sent commit to the blob it is recorded for, which is in the
    pack, and every blob of the pack that no tree or sent id accounts for has one. *)
Theorem collect_paths_sound fuel rank to_send haves filter g :
  collectable (ws_objects g) rank fuel g ->
  let '(r, _) := collect_with_paths fuel to_send haves filter g in
  match r with
  | Ok col =>
      (forall x p, blob_paths col !! x = Some p -> x ∈ co_objects col
         /\ exists root t q n, root ∈ commit_roots (ws_objects g) to_send
              /\ named_tree (ws_objects g) root q t /\ tree_link (ws_objects g) false t n x
              /\ p = join_path q n)
      /\ forall x, x ∈ co_objects col -> x ∈ to_send
           \/ tree_under (ws_objects g) (commit_roots (ws_objects g) to_send) x
           \/ is_Some (blob_paths col !! x)
  | Err e => fault (ws_objects g) e
  end.
Proof.
  intros Hc. unfold collect_with_paths.
  pose proof (collect_spec fuel rank _ to_send haves filter true g Hc) as H.
  destruct (collect_inner _ _ _ _ _ g) as [[col | e] g']; destruct H as [_ H]; [| done].
  destruct H as (have & acc & -> & -> & _ & [_ Hs _ _ Hp] & _ & _). split; [exact Hp |].
  intros x Hx. destruct (Hs x Hx) as [? | (_ & [? | (_ & _ & Hpath)])]; auto.
Qed.

(** ** Paths change nothing but paths *)

(** Two runs that end in the same state, in related values or the same error. *)
Definition run_rel {A B} (R : A -> B -> Prop) (x : result WE A * G) (y : result WE B * G) : Prop :=
  x.2 = y.2
  /\ match x.1, y.1 with
     | Ok a, Ok b => R a b
     | Err e, Err e' => e = e'
     | _, _ => False
     end.

Lemma run_bind {A B A' B'} (R : A -> B -> Prop) (R' : A' -> B' -> Prop)
    (f : WM A) (f' : WM B) (k : A -> WM A') (k' : B -> WM B') g :
  run_rel R (f g) (f' g) -> (forall a b g, R a b -> run_rel R' (k a g) (k' b g)) ->
  run_rel R' (se_bind f k g) (se_bind f' k' g).
Proof.
  unfold run_rel, se_bind. intros [Hg Hr] Hk.
  destruct (f g) as [[a | e] g1], (f' g) as [[b | e'] g1']; cbn in *; subst; try done; by apply Hk.
Qed.

(** The same entry read without and with its name. *)
Definition same_entry (e e' : TreeEntry Oid) : Prop :=
  match e, e' with
  | Subtree c None, Subtree c' (Some _) | Leaf c None, Leaf c' (Some _) => c = c'
  | _, _ => False
  end.

Lemma tree_entries_rel id items (g : G) :
  run_rel (Forall2 same_entry) (tree_entries id false items, g) (tree_entries id true items, g).
Proof.
  split; [done |]. cbn [fst]. induction items as [| item items IH]; cbn [tree_entries]; [constructor |].
  destruct item as [e | err]; cbn [map_err]; [cbn | done].
  destruct (tree_entries id false items), (tree_entries id true items); try done.
  destruct (is_tree (re_mode e)); [by constructor |].
  destruct (is_commit (re_mode e)); [done | by constructor].
Qed.

Lemma read_trees_rel ids g :
  run_rel (Forall2 (Forall2 same_entry)) ((read_trees ids false : WM _) g) ((read_trees ids true : WM _) g).
Proof.
  unfold read_trees. revert g. induction ids as [| id ids IH]; intros g; cbn [each]; [by split; [| constructor] |].
  apply run_bind with (R := Forall2 same_entry).
  - apply run_bind with (R := eq).
    + split; [done |]. by destruct (w_objects (ws_get id) g) as [[] ?].
    + intros obj ? g1 <-. destruct obj as [[kind body] |]; [| done].
      case_decide; [done |]. apply tree_entries_rel.
  - intros es es' g1 Hes. apply run_bind with (R := Forall2 (Forall2 same_entry)); [apply IH |].
    intros tr tr' g2 Htr. split; [done |]. by constructor.
Qed.

Definition same_level (st st' : LevelState) : Prop :=
  lv_objects st = lv_objects st' /\ (lv_next st).*1 = (lv_next st').*1
  /\ (lv_candidates st).*1 = (lv_candidates st').*1 /\ lv_candidate_seen st = lv_candidate_seen st'.

Lemma visit_entries_rel have entries entries' st st' :
  Forall2 (fun x y => same_entry x.2 y.2) entries entries' -> same_level st st' ->
  exists s s', visit_entries have false entries st = Some s
    /\ visit_entries have true entries' st' = Some s' /\ same_level s s'.
Proof.
  intros Hf. revert st st'. induction Hf as [| [pa e] [pa' e'] entries entries' He _ IH]; intros st st' Hst.
  { by exists st, st'. }
  cbn [visit_entries]. cbn [snd] in He. destruct st as [objs next cands sn], st' as [objs' next' cands' sn'].
  destruct Hst as (Ho & Hn & Hc & Hs). cbn [lv_objects lv_next lv_candidates lv_candidate_seen] in *. subst objs' sn'.
  destruct e as [c [] | c []], e' as [c' [n |] | c' [n |]]; try done; cbn in He; subst c';
    unfold visit_entry, entry_path; cbn [lv_objects lv_next lv_candidates lv_candidate_seen fmap option_fmap option_map];
    (match goal with |- context [if ?b then _ else _] => destruct b end; [| apply IH; by split]); apply IH;
    (split; [done |]); cbn [lv_next lv_candidates]; rewrite ?fmap_app, ?Hn, ?Hc; done.
Qed.

Lemma admit_all_rel cands cands' (acc acc' : Ordered * Paths) :
  cands.*1 = cands'.*1 -> acc.1 = acc'.1 ->
  (fold_left (admit_candidate false) cands acc).1 = (fold_left (admit_candidate true) cands' acc').1.
Proof.
  revert cands' acc acc'. induction cands as [| [c p] cands IH]; intros [| [c' p'] cands'] acc acc' Hc Ha; try done.
  injection Hc as -> Hc. cbn [fold_left]. apply IH; [done |]. cbn. by rewrite Ha.
Qed.

Lemma admit_sized_rel limit cands cands' sizes (acc acc' : Ordered * Paths) :
  cands.*1 = cands'.*1 -> acc.1 = acc'.1 ->
  match (admit_sized limit false cands sizes acc : result WE _), (admit_sized limit true cands' sizes acc' : result WE _) with
  | Ok a, Ok b => a.1 = b.1
  | Err e, Err e' => e = e'
  | _, _ => False
  end.
Proof.
  revert cands' sizes acc acc'.
  induction cands as [| [c p] cands IH]; intros [| [c' p'] cands'] sizes acc acc' Hc Ha; try done.
  injection Hc as -> Hc. destruct sizes as [| [i s] sizes]; [done |]. cbn [admit_sized].
  destruct s as [[[k n] |] | e]; cbn; try done. apply IH; [done |]. destruct (n <=? limit)%Z; cbn; by rewrite Ha.
Qed.

Lemma admit_blobs_rel cands cands' filter (acc acc' : Ordered * Paths) g :
  cands.*1 = cands'.*1 -> acc.1 = acc'.1 ->
  run_rel (fun a b => a.1 = b.1) ((admit_blobs cands acc filter false : WM _) g)
    ((admit_blobs cands' acc' filter true : WM _) g).
Proof.
  intros Hc Ha. destruct filter as [| | limit]; [split; [done | by apply admit_all_rel] | by split |].
  unfold admit_blobs. rewrite Hc. destruct (object_sizes cands'.*1 g) as [sizes g'].
  split; [done |]. by apply admit_sized_rel.
Qed.

Lemma walk_levels_rel fuel level level' (acc acc' : Ordered * Paths) have filter g :
  level.*1 = level'.*1 -> acc.1 = acc'.1 ->
  run_rel (fun a b => a.1 = b.1) ((walk_levels fuel level acc have filter false : WM _) g)
    ((walk_levels fuel level' acc' have filter true : WM _) g).
Proof.
  revert level level' acc acc' g. induction fuel as [| fuel IH]; intros level level' acc acc' g Hl Ha;
    (destruct level as [| x level], level' as [| x' level']; try done); cbn [walk_levels]; try done.
  rewrite Hl. apply run_bind with (R := Forall2 (Forall2 same_entry)); [apply read_trees_rel |].
  intros trees trees' g1 Ht.
  destruct (visit_entries_rel have (level_entries (x :: level) trees) (level_entries (x' :: level') trees')
    (mkLevel acc.1 [] [] ∅) (mkLevel acc'.1 [] [] ∅)) as (s & s' & -> & -> & Ho & Hn & Hc & _).
  { clear -Hl Ht. unfold level_entries. revert trees trees' Ht Hl. generalize (x :: level), (x' :: level').
    clear. intros l1 l2. revert l2. induction l1 as [| a l1 IH]; intros [| b l2] trees trees' Ht Hl; try done.
    destruct Ht as [| es es' trees trees' He Ht]; [constructor |]. cbn. injection Hl as Hab Hl.
    apply Forall2_app; [| by apply IH]. rewrite Forall2_fmap. eapply Forall2_impl; [exact He | done]. }
  { split; [done | done]. }
  apply run_bind with (R := fun a b => a.1 = b.1); [by apply admit_blobs_rel |].
  intros a b g2 Hab. by apply IH.
Qed.

Lemma collect_each_rel fuel records classified (acc acc' : Ordered * Paths) have filter g :
  acc.1 = acc'.1 ->
  run_rel (fun a b => a.1 = b.1) ((collect_each fuel records classified acc have filter false : WM _) g)
    ((collect_each fuel records classified acc' have filter true : WM _) g).
Proof.
  revert acc acc' g. induction classified as [| [[id kind] n] classified IH]; intros acc acc' g Ha;
    cbn [collect_each]; [by split |].
  destruct kind; try done; [| apply IH; cbn; by rewrite Ha].
  destruct (records !! id) as [info |]; [| done].
  apply run_bind with (R := fun a b => a.1 = b.1); [| intros a b g1 Hab; by apply IH].
  unfold walk_tree. cbn [fst]. rewrite Ha. destruct (_ && _); apply walk_levels_rel; cbn; by rewrite ?Ha.
Qed.

(** C28: recording paths is only a hint.  The path-recording collection selects
    the same objects in the same order, fails the same way and leaves the same
    state as the plain one. *)
Theorem collect_paths_agree fuel to_send haves filter g :
  collect fuel to_send haves filter g
  = let '(r, g') := collect_with_paths fuel to_send haves filter g in
    (match r with Ok col => Ok (co_objects col) | Err e => Err e end, g').
Proof.
  assert (run_rel (fun a b => co_objects a = co_objects b)
    ((collect_inner fuel to_send haves filter false : WM _) g)
    ((collect_inner fuel to_send haves filter true : WM _) g)) as [Hg Hr].
  { unfold collect_inner. destruct (prefetch_records fuel ∅ haves g) as [[fetched records] g1].
    destruct (have_roots fetched) as [roots | e]; [| done].
    apply run_bind with (R := eq); [split; [done | by destruct (expand_haves _ _ _ _ g1) as [[] ?]] |].
    intros have ? g2 <-.
    apply run_bind with (R := eq); [split; [done | by destruct (sizes_or _ _ g2) as [[] ?]] |].
    intros classified ? g3 <-. destruct (prefetch_records fuel records _ g3) as [[fetched2 records2] g4].
    destruct (first_error fetched2); [| done].
    apply run_bind with (R := fun a b => a.1 = b.1); [by apply collect_each_rel |].
    intros x y g5 Hxy. split; [done |]. cbn. by rewrite Hxy. }
  unfold collect, collect_with_paths, se_bind.
  destruct (collect_inner fuel to_send haves filter false g) as [[c | e] g1],
    (collect_inner fuel to_send haves filter true g) as [[c' | e'] g1']; cbn in *; subst; try done; by rewrite Hr.
Qed.

End collect.

(** ** A concrete collection *)

(** A checkable form of [leaves_ok]. *)
Definition leaves_ok_b {Oid DecodeError} `{OB : ObjectLib Oid DecodeError}
    (m : gmap Oid (Kind * bytes)) : bool :=
  forallb (fun kv =>
    match kv.2.1 with
    | KTree =>
        forallb (fun item : result DecodeError (RawEntry Oid) =>
          match item with
          | Ok e => is_tree (re_mode e) || bool_decide (kind_at m (re_oid e) <> Some KTree)
          | Err _ => true
          end) (tree_iter kv.2.2 (oid_kind kv.1))
    | _ => true
    end) (map_to_list m).

Lemma leaves_ok_b_sound {Oid DecodeError} `{OB : ObjectLib Oid DecodeError}
    (m : gmap Oid (Kind * bytes)) :
  leaves_ok_b m = true -> leaves_ok m.
Proof.
  unfold leaves_ok_b. rewrite forallb_forall. intros Hb t c body [n (b & e & Ht & He & <- & _ & Hm & _)] Hc.
  specialize (Hb (t, (KTree, b))). cbn [fst snd] in Hb. rewrite forallb_forall in Hb.
  specialize (Hb ltac:(by apply list_elem_of_In, elem_of_map_to_list) (Ok e) ltac:(by apply list_elem_of_In)).
  cbn in Hb. rewrite Hm in Hb. apply bool_decide_eq_true in Hb. apply Hb. unfold kind_at. by rewrite Hc.
Qed.

Module CollectSample.

Abbreviation run paths ids haves filter :=
  (collect_inner (OB := PlainObjects.lib) (WS := MemWalk.lib) 100 ids haves filter paths MemWalk.repo).
Abbreviation run_paths ids haves filter :=
  (collect_with_paths (OB := PlainObjects.lib) (WS := MemWalk.lib) 100 ids haves filter MemWalk.repo).
Abbreviation oid b := (MemWalk.o b).

Lemma repo_collectable :
  collectable (OB := PlainObjects.lib) (WS := MemWalk.lib) (MemWalk.objects MemWalk.repo) MemWalk.rank 100
    MemWalk.repo.
Proof.
  split; [done | | apply GraphSample.repo_ranked | apply leaves_ok_b_sound; by vm_compute |].
  - intros id Hid. cbn in Hid. by apply elem_of_dom in Hid as [].
  - split; apply Nat.leb_le; by vm_compute.
Qed.

Lemma run_limited :
  (run false [oid x03; oid x06] [] (BlobLimit 5)).1 = Ok (mkCollected [oid x03; oid x04; oid x05; oid x06] ∅).
Proof. by vm_compute. Qed.

Lemma run_path :
  match (run_paths [oid x03] [] FilterNone).1 with
  | Ok col => blob_paths col !! oid x05 = Some [x61]
  | Err _ => False
  end.
Proof. by vm_compute. Qed.

End CollectSample.

Import CollectSample.

Lemma collect_exact_witness :
  oid x05 ∈ [oid x03; oid x04; oid x05; oid x06] <->
    oid x05 ∈ [oid x03; oid x06]
    \/ picked (OB := PlainObjects.lib) (MemWalk.objects MemWalk.repo) (BlobLimit 5) [oid x03; oid x06] []
         (oid x05).
Proof.
  pose proof (collect_exact (OB := PlainObjects.lib) (WS := MemWalk.lib) 100 MemWalk.rank
    [oid x03; oid x06] [] (BlobLimit 5) false MemWalk.repo repo_collectable) as H.
  pose proof run_limited as E. destruct (run false _ _ _) as [r g']. cbn [fst] in E. subst r.
  exact (proj2 (proj2 H) (oid x05)).
Defined.

Lemma collect_paths_sound_witness :
  exists root t q n, root ∈ commit_roots (OB := PlainObjects.lib) (MemWalk.objects MemWalk.repo) [oid x03]
    /\ named_tree (OB := PlainObjects.lib) (MemWalk.objects MemWalk.repo) root q t
    /\ tree_link (OB := PlainObjects.lib) (MemWalk.objects MemWalk.repo) false t n (oid x05)
    /\ [x61] = join_path q n.
Proof.
  pose proof (collect_paths_sound (OB := PlainObjects.lib) (WS := MemWalk.lib) 100 MemWalk.rank
    [oid x03] [] FilterNone MemWalk.repo repo_collectable) as H.
  pose proof run_path as E. destruct (run_paths _ _ _) as [[col | e] g']; cbn [fst] in E; [| destruct E].
  exact (proj2 (proj1 H (oid x05) [x61] E)).
Defined.
