(* ===== verification/Effects.v ===== *)
(** * What the walk keeps

    [WalkKeeps P]: the store's own calls keep the preorder [P].  Then every
    operation of the walk does, whatever the store holds and however it fails:
    with it a handler's effects are read off its calls. *)

From S2P Require Import Prelude Bytes GixHash Values GixObject Walk Graph Discovery Collect.
From stdpp Require Import gmap.
From Stdlib Require Import Lia.

Class WalkKeeps {Oid StoreErr ObjErr G : Type} `{WS : WalkStore Oid StoreErr ObjErr G} (P : G -> G -> Prop) : Prop := {
  wk_order :: PreOrder P;
  wk_get_commit_graph id : kept P (ws_get_commit_graph id);
  wk_put_commit_graph id rec : kept P (ws_put_commit_graph id rec);
  wk_get_ref n : kept P (ws_get_ref n);
  wk_list_refs : kept P ws_list_refs;
  wk_flush : kept P ws_flush;
  wk_get id : kept P (ws_get id);
  wk_size id : kept P (ws_size id);
}.

Lemma walk_keeps_weaken {Oid StoreErr ObjErr G} `{WS : WalkStore Oid StoreErr ObjErr G} (P Q : G -> G -> Prop) :
  WalkKeeps P -> PreOrder Q -> (forall g g', P g g' -> Q g g') -> WalkKeeps Q.
Proof. intros HP HQ Hsub. split; [done | intros; apply (kept_weaken P Q _ Hsub), HP..]. Qed.

#[export] Hint Extern 1 (WalkKeeps _) => apply _ : kept.
#[export] Hint Resolve wk_get_commit_graph wk_put_commit_graph wk_get_ref wk_list_refs wk_flush wk_get wk_size : kept.

(** *** Lookups alone

    What only looks up objects and refs keeps more than what also records the
    commits it parses, and that more than what may write any record. *)
Class LookupKeeps {Oid StoreErr ObjErr G : Type} `{WS : WalkStore Oid StoreErr ObjErr G} (P : G -> G -> Prop) : Prop := {
  lk_order :: PreOrder P;
  lk_get_ref n : kept P (ws_get_ref n);
  lk_get id : kept P (ws_get id);
  lk_size id : kept P (ws_size id);
}.

#[export] Instance walk_lookup {Oid StoreErr ObjErr G : Type} `{WS : WalkStore Oid StoreErr ObjErr G} (P : G -> G -> Prop) :
  WalkKeeps P -> LookupKeeps P.
Proof.
  intros HW. split; [exact (wk_order (P := P)) | | |]; intros x; [apply wk_get_ref | apply wk_get | apply wk_size].
Qed.

#[export] Hint Extern 1 (LookupKeeps _) => apply _ : kept.
#[export] Hint Resolve lk_get_ref lk_get lk_size : kept.

Section lookups.
Context {Oid : Type} {OL : OidLib Oid} {StoreErr ObjErr DecodeError G : Type}.
Context {OB : ObjectLib Oid DecodeError} {WS : WalkStore Oid StoreErr ObjErr G}.
Context (P : G -> G -> Prop) {LK : LookupKeeps P}.

Abbreviation WE := (WalkError Oid StoreErr ObjErr DecodeError).
Abbreviation WM A := (SE G WE A).

(** ** Walk.v *)

Lemma kept_each {A B} (f : A -> WM B) l : (forall x, kept P (f x)) -> kept P (each f l).
Proof. intros Hf. induction l; cbn [each]; keep. Qed.

Lemma kept_object_sizes ids : kept P (object_sizes ids).
Proof. induction ids; cbn [object_sizes]; keep. Qed.
#[local] Hint Resolve kept_object_sizes : kept.

Lemma kept_sizes_or absent ids : kept P (sizes_or absent ids : WM _).
Proof. unfold sizes_or. keep. Qed.
#[local] Hint Resolve kept_sizes_or : kept.

Lemma kept_partition_wants wants : kept P (partition_wants wants : WM _).
Proof. unfold partition_wants. keep. Qed.

Lemma kept_parse_commit id : kept P (parse_commit id : WM _).
Proof. unfold parse_commit, w_objects. keep. Qed.
#[local] Hint Resolve kept_parse_commit : kept.

Lemma kept_read_trees ids names : kept P (read_trees ids names : WM _).
Proof. apply kept_each. intros id. unfold read_tree, w_objects. keep. Qed.
#[local] Hint Resolve kept_read_trees : kept.

Lemma kept_peel_wants fuel wants : kept P (peel_wants fuel wants : WM _).
Proof.
  assert (forall want cursor tags, kept P (peel_loop fuel want cursor tags : WM _)) as Hl.
  { induction fuel; intros; cbn [peel_loop]; unfold w_objects; keep. }
  unfold peel_wants. apply kept_bind; [apply _ | | keep]. apply kept_each. intros want. apply Hl.
Qed.
#[local] Hint Resolve kept_peel_wants : kept.

End lookups.

#[export] Hint Resolve kept_object_sizes kept_sizes_or kept_partition_wants kept_parse_commit kept_read_trees kept_peel_wants : kept.

(** ** Graph.v *)

Section graph.
Context {Oid : Type} {OL : OidLib Oid} {StoreErr ObjErr DecodeError G : Type}.
Context {OB : ObjectLib Oid DecodeError} {WS : WalkStore Oid StoreErr ObjErr G}.
Context (P : G -> G -> Prop) {WK : WalkKeeps P}.

Abbreviation WE := (WalkError Oid StoreErr ObjErr DecodeError).
Abbreviation WM A := (SE G WE A).

Lemma kept_graph_loop fuel trust target stack parsed gens res :
  kept P (graph_loop fuel trust target stack parsed gens res : WM _).
Proof.
  revert stack parsed gens res. induction fuel; intros [| c stack] parsed gens res; cbn [graph_loop];
    unfold stored_record, parsed_entry, w_store; keep.
Qed.
#[local] Hint Resolve kept_graph_loop : kept.

Lemma kept_get_commit_info fuel id : kept P (get_commit_info fuel id : WM _).
Proof. unfold get_commit_info, backfill_commit_info, w_store. keep. Qed.
#[local] Hint Resolve kept_get_commit_info : kept.

End graph.

Class HistoryKeeps {Oid StoreErr ObjErr DecodeError G : Type} `{OB : ObjectLib Oid DecodeError}
    `{WS : !WalkStore Oid StoreErr ObjErr G} (P : G -> G -> Prop) : Prop := {
  hk_lookup :: LookupKeeps P;
  hk_info fuel id : kept P (get_commit_info fuel id);
}.

#[export] Instance walk_history {Oid StoreErr ObjErr DecodeError G : Type} `{OB : ObjectLib Oid DecodeError}
    `{WS : !WalkStore Oid StoreErr ObjErr G} (P : G -> G -> Prop) : WalkKeeps P -> HistoryKeeps P.
Proof. intros HW. split; [apply _ | intros fuel id; apply kept_get_commit_info, HW]. Qed.

#[export] Hint Extern 1 (HistoryKeeps _) => apply _ : kept.
#[export] Hint Resolve hk_info : kept.

Section walk.
Context {Oid : Type} {OL : OidLib Oid} {StoreErr ObjErr DecodeError G : Type}.
Context {OB : ObjectLib Oid DecodeError} {WS : WalkStore Oid StoreErr ObjErr G}.
Context (P : G -> G -> Prop) {HK : HistoryKeeps P}.

Abbreviation WE := (WalkError Oid StoreErr ObjErr DecodeError).
Abbreviation WM A := (SE G WE A).

(** ** Discovery.v *)

Lemma kept_prefetch_records fuel cache ids : kept P (prefetch_records fuel cache ids).
Proof.
  assert (forall ids, kept P (fetch_all fuel ids)) as Hf by (induction ids0; cbn [fetch_all]; keep).
  unfold prefetch_records. keep.
Qed.
#[local] Hint Resolve kept_prefetch_records : kept.

Lemma kept_discover fuel records done_ send d : kept P (discover fuel records done_ send d : WM _).
Proof. revert records done_ send d. induction fuel; intros; cbn [discover]; keep. Qed.
#[local] Hint Resolve kept_discover : kept.

Lemma kept_select_commits fuel wants haves : kept P (select_commits fuel wants haves : WM _).
Proof. unfold select_commits. keep. Qed.

(** ** Collect.v *)

Lemma kept_expand_haves fuel roots have filter : kept P (expand_haves fuel roots have filter : WM _).
Proof.
  assert (forall level have, kept P (expand_levels fuel level have filter : WM _)) as Hl.
  { induction fuel; intros [] ?; cbn [expand_levels]; keep. }
  unfold expand_haves. keep.
Qed.
#[local] Hint Resolve kept_expand_haves : kept.

Lemma kept_admit_blobs candidates acc filter paths : kept P (admit_blobs candidates acc filter paths : WM _).
Proof. unfold admit_blobs. keep. Qed.
#[local] Hint Resolve kept_admit_blobs : kept.

Lemma kept_walk_tree fuel root acc have filter paths : kept P (walk_tree fuel root acc have filter paths : WM _).
Proof.
  assert (forall level acc, kept P (walk_levels fuel level acc have filter paths : WM _)) as Hl.
  { induction fuel; intros [] ?; cbn [walk_levels]; keep. }
  unfold walk_tree. keep.
Qed.
#[local] Hint Resolve kept_walk_tree : kept.

Lemma kept_collect_each fuel records l acc have filter paths :
  kept P (collect_each fuel records l acc have filter paths : WM _).
Proof. revert acc. induction l as [| [[id kind] n] l IH]; intros; cbn [collect_each]; keep. Qed.
#[local] Hint Resolve kept_collect_each : kept.

Lemma kept_collect_inner fuel send haves filter paths : kept P (collect_inner fuel send haves filter paths : WM _).
Proof. unfold collect_inner. keep. Qed.
#[local] Hint Resolve kept_collect_inner : kept.

Lemma kept_collect fuel send haves filter : kept P (collect fuel send haves filter : WM _).
Proof. unfold collect. keep. Qed.

Lemma kept_collect_with_paths fuel send haves filter : kept P (collect_with_paths fuel send haves filter : WM _).
Proof. unfold collect_with_paths. keep. Qed.

End walk.

#[export] Hint Resolve kept_select_commits kept_collect kept_collect_with_paths : kept.
