(* ===== verification/Ingest.v ===== *)
(** * Pack ingestion ([src/git/ingest.rs])

    A received pack is spooled, scanned for the bases its ref-deltas name,
    those bases are fetched from committed storage, and the pack is indexed
    into a staged bundle over them.  The pack library — the header scan, the
    indexer and the bundle's lookups — is the interface [PackLib].  The spool
    file is the bytes written to it; an aborted blocking task is not
    modelled. *)

From S2P Require Import Prelude Bytes GixHash Values GixObject Walk Effects.
From stdpp Require Import gmap strings.
From Stdlib Require Import Lia.

(** An entry's header, as far as the scan tells them apart. *)
Inductive Header (Oid : Type) : Type := RefDelta (base_id : Oid) | OtherHeader.
Arguments RefDelta {Oid}.
Arguments OtherHeader {Oid}.

Class PackLib (Oid Bundle PackErr InitErr PackDecodeErr : Type) `{OidLib Oid} : Type := {
  (** [BytesToEntriesIter]: [Err] for a refused pack header, then an item per
      entry, [None] for one that could not be read. *)
  scan_headers : bytes -> HashKind -> option (list (option (Header Oid)));
  (** [Bundle::write_to_directory] over a base lookup, then
      [Outcome::to_bundle]; nothing for a pack of no objects. *)
  write_to_directory : bytes -> HashKind -> (Oid -> option (Kind * bytes)) -> result PackErr unit;
  to_bundle : bytes -> HashKind -> (Oid -> option (Kind * bytes)) -> option (result InitErr Bundle);
  index_lookup : Bundle -> Oid -> option nat;
  index_entries : Bundle -> list (Oid * Z);
  pack_offset_at_index : Bundle -> nat -> Z;
  entry_kind : Bundle -> Z -> result PackDecodeErr Kind;
  find : Bundle -> Oid -> result PackDecodeErr (option (Kind * bytes));

  (** what a bundle holds *)
  bundle_objects : Bundle -> gmap Oid (Kind * bytes);
  find_spec : forall b id v, find b id = Ok v -> v = bundle_objects b !! id;
  index_lookup_spec : forall b id, is_Some (index_lookup b id) <-> is_Some (bundle_objects b !! id);
  entry_kind_spec : forall b id i k, index_lookup b id = Some i ->
    entry_kind b (pack_offset_at_index b i) = Ok k -> fst <$> bundle_objects b !! id = Some k;
  index_entries_spec : forall b, (index_entries b).*1 ≡ₚ (map_to_list (bundle_objects b)).*1;
}.

Inductive IngestError (Oid IoErr PackErr InitErr PackDecodeErr ObjErr : Type) : Type :=
  | Io (e : IoErr)
  | Pack (e : PackErr)
  | BaseLookup (e : ObjErr)
  | BundleInit (e : InitErr)
  | IDecode (oid : Oid) (source : PackDecodeErr).
Arguments Io {Oid IoErr PackErr InitErr PackDecodeErr ObjErr}.
Arguments Pack {Oid IoErr PackErr InitErr PackDecodeErr ObjErr}.
Arguments BaseLookup {Oid IoErr PackErr InitErr PackDecodeErr ObjErr}.
Arguments BundleInit {Oid IoErr PackErr InitErr PackDecodeErr ObjErr}.
Arguments IDecode {Oid IoErr PackErr InitErr PackDecodeErr ObjErr}.

Record StagedPack (Bundle : Type) : Type := mkStaged { bundle : option Bundle }.
Arguments mkStaged {Bundle}.
Arguments bundle {Bundle}.

Section ingest.
Context {Oid : Type} {OL : OidLib Oid} {StoreErr ObjErr G : Type} {WS : WalkStore Oid StoreErr ObjErr G}.
Context {Bundle IoErr PackErr InitErr PackDecodeErr : Type}.
Context {PL : PackLib Oid Bundle PackErr InitErr PackDecodeErr}.

Abbreviation IE := (IngestError Oid IoErr PackErr InitErr PackDecodeErr ObjErr).
Abbreviation IM A := (SE G IE A).
Abbreviation Staged := (StagedPack Bundle).

(** ** The staged pack *)

Definition staged_contains (s : Staged) (id : Oid) : bool :=
  match bundle s with Some b => bool_decide (is_Some (index_lookup b id)) | None => false end.

Definition staged_kind_at (b : Bundle) (offset : Z) (id : Oid) : result IE Kind :=
  map_err (IDecode id) (entry_kind b offset).

Definition staged_info (s : Staged) (id : Oid) : result IE (option Kind) :=
  match bundle s with
  | None => Ok None
  | Some b =>
      match index_lookup b id with
      | None => Ok None
      | Some index =>
          let? kind := staged_kind_at b (pack_offset_at_index b index) id in Ok (Some kind)
      end
  end.

Definition staged_read (s : Staged) (id : Oid) : result IE (option (Kind * bytes)) :=
  match bundle s with
  | None => Ok None
  | Some b => map_err (IDecode id) (find b id)
  end.

Definition staged_iter (s : Staged) : list (result IE (Oid * Kind)) :=
  match bundle s with
  | None => []
  | Some b => map (fun e => let? kind := staged_kind_at b e.2 e.1 in Ok (e.1, kind)) (index_entries b)
  end.

Definition object_count (s : Staged) : nat :=
  match bundle s with None => 0 | Some b => length (index_entries b) end.

(** ** Ingestion *)

(** What was spooled: nothing, or the pack and the bases its scan found. *)
Record Spooled : Type := mkSpooled { pack_path : option bytes; ref_delta_bases : gset Oid }.

Definition scan_ref_delta_bases (pack : bytes) (object_hash : HashKind) : gset Oid :=
  match scan_headers pack object_hash with
  | None => ∅
  | Some entries =>
      list_to_set (omap (fun header => match header with RefDelta base_id => Some base_id | _ => None end)
        (omap id entries))
  end.

Definition spool_and_scan (input : result IoErr bytes) (object_hash : HashKind) : result IE Spooled :=
  let? pack := map_err Io input in
  match pack with
  | [] => Ok (mkSpooled None ∅)
  | _ => Ok (mkSpooled (Some pack) (scan_ref_delta_bases pack object_hash))
  end.

(** Thin bases out of committed storage; one that is not there is left out. *)
Fixpoint prefetch_bases (ids : list Oid) (bases : gmap Oid (Kind * bytes)) : IM (gmap Oid (Kind * bytes)) :=
  match ids with
  | [] => se_ret bases
  | base_id :: ids' =>
      do! object <- se_map_err BaseLookup (ws_get base_id);
      match object with
      | Some object => prefetch_bases ids' (<[base_id := object]> bases)
      | None => prefetch_bases ids' bases
      end
  end.

Definition write_bundle (pack : bytes) (object_hash : HashKind) (bases : gmap Oid (Kind * bytes))
    : result IE (option Bundle) :=
  let? _ := map_err Pack (write_to_directory pack object_hash (bases !!.)) in
  match to_bundle pack object_hash (bases !!.) with
  | None => Ok None
  | Some b => let? b := map_err BundleInit b in Ok (Some b)
  end.

(** [input] is the stream read to its end, or the failure of reading or
    spooling it; [elements] stands for the hash set's iteration order. *)
Definition ingest_pack (input : result IoErr bytes) (object_hash : HashKind) : IM Staged :=
  do! spooled <- se_lift (spool_and_scan input object_hash);
  match pack_path spooled with
  | None => se_ret (mkStaged None)
  | Some pack =>
      do! bases <- prefetch_bases (elements (ref_delta_bases spooled)) ∅;
      do! b <- se_lift (write_bundle pack object_hash bases);
      se_ret (mkStaged b)
  end.

Lemma kept_ingest (P : G -> G -> Prop) {WK : WalkKeeps P} input hash : kept P (ingest_pack input hash).
Proof.
  assert (forall ids bases, kept P (prefetch_bases ids bases)) as Hp.
  { induction ids; intros; cbn [prefetch_bases]; keep. }
  unfold ingest_pack. keep.
Qed.

(** ** What the staged pack answers *)

Definition staged_objects (s : Staged) : gmap Oid (Kind * bytes) :=
  match bundle s with Some b => bundle_objects b | None => ∅ end.

(** A decode failure of the staged object [id]. *)
Definition undecodable (id : Oid) (e : IE) : Prop := exists err, e = IDecode id err.

Lemma staged_read_spec s id :
  match staged_read s id with Ok v => v = staged_objects s !! id | Err e => undecodable id e end.
Proof.
  unfold staged_read, staged_objects. destruct (bundle s) as [b |]; [| by rewrite lookup_empty].
  destruct (find b id) as [v | err] eqn:E; cbn; [by apply find_spec | by exists err].
Qed.

(** Staged lookups: all accessors of a staged pack — membership, kind,
    content, iteration and count — tell of one finite set of objects; a lookup
    that fails is a decode failure of the very object asked for. *)
Theorem staged_lookups_agree s id :
  staged_contains s id = bool_decide (is_Some (staged_objects s !! id))
  /\ match staged_read s id with Ok v => v = staged_objects s !! id | Err e => undecodable id e end
  /\ match staged_info s id with Ok v => v = fst <$> staged_objects s !! id | Err e => undecodable id e end
  /\ object_count s = size (staged_objects s)
  /\ length (staged_iter s) = object_count s
  /\ forall o k, Ok (o, k) ∈ staged_iter s -> is_Some (staged_objects s !! o).
Proof.
  split; [| split; [| split; [| split; [| split]]]].
  - unfold staged_contains, staged_objects. destruct (bundle s) as [b |].
    + apply bool_decide_ext, index_lookup_spec.
    + by rewrite bool_decide_false by (rewrite lookup_empty; by intros [? [=]]).
  - apply staged_read_spec.
  - unfold staged_info, staged_objects. destruct (bundle s) as [b |]; [| by rewrite lookup_empty].
    destruct (index_lookup b id) as [i |] eqn:Ei.
    + unfold staged_kind_at. destruct (entry_kind b _) as [k | err] eqn:Ek; cbn; [| by exists err].
      symmetry. by eapply entry_kind_spec.
    + destruct (bundle_objects b !! id) eqn:E; [| done].
      destruct (proj2 (index_lookup_spec b id)) as [? ?]; [by rewrite E | congruence].
  - unfold object_count, staged_objects. destruct (bundle s) as [b |]; [| by rewrite map_size_empty].
    pose proof (Permutation_length (index_entries_spec b)) as Hp. rewrite !length_fmap in Hp.
    by rewrite Hp, length_map_to_list.
  - unfold staged_iter, object_count. destruct (bundle s); [by rewrite length_map | done].
  - intros o k Hin. unfold staged_iter, staged_objects in *. destruct (bundle s) as [b |]; [| by apply elem_of_nil in Hin].
    apply list_elem_of_In, in_map_iff in Hin as ([o' off] & He & Hin). cbn in He.
    destruct (staged_kind_at b off o'); [| done]. injection He as -> ->.
    assert (o ∈ (index_entries b).*1) as Ho
      by (apply list_elem_of_fmap; exists (o, off); split; [done | by apply list_elem_of_In]).
    rewrite index_entries_spec in Ho. apply list_elem_of_fmap in Ho as ([o2 kb] & -> & Hm).
    apply elem_of_map_to_list in Hm. cbn. by rewrite Hm.
Qed.

(** ** Prefetching is indexing over storage *)

Lemma prefetch_bases_spec ids bases g m :
  ws_objects g = m ->
  let '(r, g') := prefetch_bases ids bases g in
  ws_same g g'
  /\ match r with
     | Ok bases' => forall b, bases' !! b =
         if decide (b ∈ ids) then match m !! b with Some o => Some o | None => bases !! b end else bases !! b
     | Err e => exists o, e = BaseLookup o
     end.
Proof.
  revert bases g. induction ids as [| id ids IH]; intros bases g Hm; cbn [prefetch_bases].
  { split; [done |]. intros b. by rewrite decide_False by apply not_elem_of_nil. }
  unfold se_bind, se_map_err. destruct (ws_get id g) as [r g1] eqn:E.
  apply ws_get_spec in E as [Hs Hv]. destruct r as [v | e]; cbn [map_err]; [| split; [done | by eexists]].
  specialize (Hv v eq_refl). subst v. rewrite Hm.
  assert (ws_objects g1 = m) as Hm1 by (by rewrite (proj1 Hs)).
  set (bases1 := match m !! id with Some o => <[id := o]> bases | None => bases end).
  replace (match m !! id with Some o => prefetch_bases ids (<[id := o]> bases) | None => prefetch_bases ids bases end g1)
    with (prefetch_bases ids bases1 g1) by (unfold bases1; by destruct (m !! id)).
  specialize (IH bases1 g1 Hm1). destruct (prefetch_bases ids bases1 g1) as [r g2].
  destruct IH as [Hs2 IH]. split; [by eapply ws_same_trans |]. destruct r as [bases' | e]; [| done].
  intros b. rewrite IH. unfold bases1. destruct (decide (b = id)) as [-> | Hne].
  - rewrite (decide_True (P := id ∈ id :: ids)) by left.
    destruct (m !! id) as [o |]; [rewrite lookup_insert_eq |]; by destruct (decide (id ∈ ids)).
  - assert (forall o, <[id := o]> bases !! b = bases !! b) as Hins by (intros; by apply lookup_insert_ne).
    assert (match m !! id with Some o => <[id := o]> bases | None => bases end !! b = bases !! b) as Hb
      by (destruct (m !! id); auto).
    rewrite Hb. destruct (decide (b ∈ ids)), (decide (b ∈ id :: ids)) as [H |]; set_solver.
Qed.

(** The indexer, given the same pack, looks up no base but those the headers
    name: lookups that agree on them index the same bundle. *)
Definition indexes_over_bases : Prop := forall pack h f f',
  (forall b, b ∈ scan_ref_delta_bases pack h -> f b = f' b) ->
  write_to_directory pack h f = Ok tt ->
  write_to_directory pack h f' = Ok tt /\ to_bundle pack h f' = to_bundle pack h f.

Lemma ingest_spec input object_hash g :
  indexes_over_bases ->
  let '(r, g') := ingest_pack input object_hash g in
  ws_same g g'
  /\ match r with
     | Ok s => exists pack, input = Ok pack
         /\ match pack with
            | [] => s = mkStaged None
            | _ => write_bundle pack object_hash (ws_objects g) = Ok (bundle s)
            end
     | Err (Io e) => input = Err e
     | Err (BaseLookup _) => exists pack, input = Ok pack /\ pack <> []
     | Err (Pack _) | Err (BundleInit _) => exists pack, input = Ok pack /\ pack <> []
         /\ is_ok (write_bundle pack object_hash (ws_objects g)) = false
     | Err (IDecode _ _) => False
     end.
Proof.
  intros Hix. unfold ingest_pack, se_bind, se_lift, spool_and_scan.
  destruct input as [pack | e]; cbn [map_err]; [| done].
  destruct pack as [| b0 pack']; cbn [pack_path ref_delta_bases]; [split; [done | by eexists] |].
  set (pack := b0 :: pack'). assert (pack <> []) as Hne by done. clearbody pack.
  pose proof (prefetch_bases_spec (elements (scan_ref_delta_bases pack object_hash)) ∅ g _ eq_refl) as H.
  destruct (prefetch_bases _ ∅ g) as [[bases | e] g1]; destruct H as [Hs H];
    [| destruct H as [o ->]; split; [done | by eexists]].
  assert (forall b, b ∈ scan_ref_delta_bases pack object_hash -> bases !! b = ws_objects g !! b) as Hag.
  { intros b Hb. rewrite H, decide_True by (by apply elem_of_elements). rewrite lookup_empty.
    by destruct (ws_objects g !! b). }
  unfold write_bundle at 1.
  destruct (write_to_directory pack object_hash (bases !!.)) as [[] | e] eqn:Ew; cbn [map_err].
  - destruct (Hix _ _ _ (ws_objects g !!.) Hag Ew) as [Ew' Eb]. rewrite <- Eb.
    destruct (to_bundle pack object_hash (ws_objects g !!.)) as [[b | e] |] eqn:Et; cbn; (split; [done |]).
    + exists pack. split; [done |]. unfold write_bundle. rewrite Ew', Et. by destruct pack.
    + exists pack. split; [done | split; [done |]]. unfold write_bundle. by rewrite Ew', Et.
    + exists pack. split; [done |]. unfold write_bundle. rewrite Ew', Et. by destruct pack.
  - split; [done |]. exists pack. split; [done | split; [done |]]. unfold write_bundle.
    destruct (write_to_directory pack object_hash (ws_objects g !!.)) as [[] | e'] eqn:Ew'; [| done].
    destruct (Hix _ _ _ (bases !!.) (fun b Hb => eq_sym (Hag b Hb)) Ew') as [? _]. congruence.
Qed.

(** C32: ingestion.  Prefetching a pack's thin bases is indistinguishable from
    indexing it over committed storage itself: a pack is staged exactly when
    the indexer accepts it with every stored object at hand, and then as the
    same bundle; a rejection says so, zero bytes stage the empty pack, and
    failed reads of the stream or of a base are reported as what they are.
    Storage is left alone throughout. *)
Theorem ingest_pack_spec input object_hash g :
  indexes_over_bases ->
  let '(r, g') := ingest_pack input object_hash g in
  ws_same g g'
  /\ match r with
     | Ok s => exists pack, input = Ok pack
         /\ match pack with
            | [] => s = mkStaged None
            | _ => write_bundle pack object_hash (ws_objects g) = Ok (bundle s)
            end
     | Err (Io e) => input = Err e
     | Err (BaseLookup _) => exists pack, input = Ok pack /\ pack <> []
     | Err (Pack _) | Err (BundleInit _) => exists pack, input = Ok pack /\ pack <> []
         /\ is_ok (write_bundle pack object_hash (ws_objects g)) = false
     | Err (IDecode _ _) => False
     end.
Proof. apply ingest_spec. Qed.

End ingest.

(** ** A concrete pack format

    A pack of 20-byte ids, each a delta that stages its base unchanged. *)
Module PlainPack.

Definition ids (pack : bytes) : list HexOid.t := omap oid_try_from (chunks 20 pack).

Definition index (pack : bytes) (f : HexOid.t -> option (Kind * bytes)) : gmap HexOid.t (Kind * bytes) :=
  list_to_map (omap (fun o => pair o <$> f o) (ids pack)).

Definition complete (pack : bytes) (f : HexOid.t -> option (Kind * bytes)) : bool :=
  forallb (fun o => match f o with Some _ => true | None => false end) (ids pack).

Definition position (b : gmap HexOid.t (Kind * bytes)) (o : HexOid.t) : option nat :=
  fst <$> list_find (fun e => e.1 = o) (map_to_list b).

#[refine, export] Instance lib : PackLib HexOid.t (gmap HexOid.t (Kind * bytes)) unit Empty_set unit := {|
  scan_headers pack _ := Some (map (fun o => Some (RefDelta o)) (ids pack));
  write_to_directory pack _ f := if complete pack f then Ok tt else Err tt;
  to_bundle pack _ f := Some (Ok (index pack f));
  index_lookup := position;
  index_entries b := map (fun e => (e.1, 0%Z)) (map_to_list b);
  pack_offset_at_index _ i := Z.of_nat i;
  entry_kind b z := match map_to_list b !! Z.to_nat z with Some e => Ok e.2.1 | None => Err tt end;
  find b o := Ok (b !! o);
  bundle_objects b := b;
|}.
Proof.
  - by intros b id v [= <-].
  - intros b id. unfold position. rewrite fmap_is_Some. split.
    + intros [[i e] He]. apply list_find_Some in He as (He & <- & _).
      apply list_elem_of_lookup_2 in He. destruct e as [o kb]. apply elem_of_map_to_list in He.
      exact (mk_is_Some _ _ He).
    + intros [kb Hl]. apply elem_of_map_to_list in Hl.
      destruct (list_find_elem_of (fun e => e.1 = id) (map_to_list b) (id, kb) Hl eq_refl) as [? ->]. by eexists.
  - intros b id i k. unfold position. intros ([j e] & He & ->)%fmap_Some. cbn [fst].
    apply list_find_Some in He as (He & <- & _). rewrite Nat2Z.id, He. intros [= <-].
    apply list_elem_of_lookup_2 in He. destruct e as [o kb]. apply elem_of_map_to_list in He. exact (f_equal (fmap fst) He).
  - intros b. rewrite <- list_fmap_compose. done.
Defined.

Lemma indexes : indexes_over_bases (PL := lib).
Proof.
  assert (forall pack h o, o ∈ ids pack -> o ∈ scan_ref_delta_bases (PL := lib) pack h) as Hscan.
  { intros pack h o Ho. unfold scan_ref_delta_bases. cbn [scan_headers lib].
    apply elem_of_list_to_set, list_elem_of_omap. exists (RefDelta o). split; [| done].
    apply list_elem_of_omap. exists (Some (RefDelta o)). split; [| done].
    apply list_elem_of_In, in_map_iff. exists o. split; [done | by apply list_elem_of_In]. }
  intros pack h f f' Hag. assert (forall o, o ∈ ids pack -> f o = f' o) as Hag' by eauto.
  cbn [write_to_directory to_bundle lib]. unfold complete, index. clear Hag Hscan.
  induction (ids pack) as [| o os IH]; [done |]. cbn [forallb omap list_omap list_to_map].
  rewrite <- (Hag' o) by left. destruct (f o) as [kb |]; [| done]. intros Hc.
  destruct IH as [IH1 IH2]; [intros; apply Hag'; by right | done |]. split; [done |].
  cbn. by injection IH2 as ->.
Qed.

(** The sample repository's blob, staged by a thin pack. *)
Definition pack : bytes := oid_bytes (MemWalk.o x05).
Abbreviation staged :=
  (ingest_pack (IoErr := unit) (WS := MemWalk.lib) (PL := lib) (Ok pack) Sha1 MemWalk.repo).

Lemma staged_run :
  match staged.1 with
  | Ok s => staged_objects s !! MemWalk.o x05
  | Err _ => None
  end = Some (KBlob, bs "hello").
Proof. by vm_compute. Qed.

End PlainPack.

(** A pack of whole objects: an id, a kind, a length and the content, each. *)
Module RawPack.

Definition kind_byte (kind : Kind) : byte :=
  match kind with KBlob => x00 | KTree => x01 | KCommit => x02 | KTag => x03 end.

Definition byte_kind (b : byte) : Kind :=
  match b with x00 => KBlob | x01 => KTree | x02 => KCommit | _ => KTag end.

Definition entry (e : HexOid.t * Kind * bytes) : bytes :=
  oid_bytes e.1.1 ++ kind_byte e.1.2 :: as_u8 (Z.of_nat (length e.2)) :: e.2.

Fixpoint decode (fuel : nat) (pack : bytes) : list (HexOid.t * (Kind * bytes)) :=
  match fuel, oid_try_from (take 20 pack), drop 20 pack with
  | S fuel', Some o, k :: n :: rest =>
      let n := Z.to_nat (u8 n) in (o, (byte_kind k, take n rest)) :: decode fuel' (drop n rest)
  | _, _, _ => []
  end.

Definition index (pack : bytes) : gmap HexOid.t (Kind * bytes) := list_to_map (decode (length pack) pack).

#[refine, export] Instance lib : PackLib HexOid.t (gmap HexOid.t (Kind * bytes)) unit Empty_set unit := {|
  scan_headers _ _ := Some [];
  write_to_directory _ _ _ := Ok tt;
  to_bundle pack _ _ := Some (Ok (index pack));
  index_lookup := index_lookup (PackLib := PlainPack.lib);
  index_entries := index_entries (PackLib := PlainPack.lib);
  pack_offset_at_index := pack_offset_at_index (PackLib := PlainPack.lib);
  entry_kind := entry_kind (PackLib := PlainPack.lib);
  find := find (PackLib := PlainPack.lib);
  bundle_objects b := b;
|}.
Proof.
  - apply (find_spec (PackLib := PlainPack.lib)).
  - apply (index_lookup_spec (PackLib := PlainPack.lib)).
  - apply (entry_kind_spec (PackLib := PlainPack.lib)).
  - apply (index_entries_spec (PackLib := PlainPack.lib)).
Defined.

Lemma raw_indexes : indexes_over_bases (PL := lib).
Proof. by intros pack h f f' _ _. Qed.

End RawPack.

Import PlainPack.

Lemma ingest_pack_spec_witness :
  exists s, staged.1 = Ok s
    /\ write_bundle (IoErr := unit) (ObjErr := Empty_set) (PL := lib) pack Sha1 (MemWalk.objects MemWalk.repo)
       = Ok (bundle s).
Proof.
  pose proof (ingest_pack_spec (IoErr := unit) (WS := MemWalk.lib) (PL := lib) (Ok pack) Sha1 MemWalk.repo
    indexes) as H.
  pose proof staged_run as E. destruct staged as [[s | e] g]; cbn [fst] in E; [| discriminate E].
  destruct H as (_ & pk & [= <-] & H). exists s. split; [reflexivity | exact H].
Defined.
