(* ===== verification/Promote.v ===== *)
(** * Connectivity validation and promotion ([src/git/promote.rs])

    A staged pack is promoted only after every object its tips need has been
    found staged or committed; the new objects are then written children
    before parents, group by kind, and the commit graph is extended.  The
    theorems: validation finds exactly the new objects, in an order that puts
    children first; whatever the writes' fate, storage a crash recovers to is
    closed under references; success leaves the tips' closure in place, durable,
    with exact commit-graph records. *)

From S2P Require Import Prelude Bytes GixHash Values GixObject Walk Graph Effects Ingest.
From stdpp Require Import gmap strings.
From Stdlib Require Import Lia.

(** ** Storage as promotion sees it

    Writes are relaxed: [ps_recover g] are the object sets a crash at [g] may
    leave behind.  A write adds to them the set it makes and no other, since
    the log becomes durable in submission order; a flush that succeeds leaves
    the current set only. *)
Lemma stays_order {G S R} (objects : G -> S) (refs : G -> R) (recover : G -> S -> Prop) :
  PreOrder (fun g g' => (objects g' = objects g /\ refs g' = refs g)
    /\ forall s, recover g' s -> s = objects g' \/ recover g s).
Proof.
  split; [intros g; split; [done |]; by right |].
  intros g1 g2 g3 [[Ho1 Hr1] H1] [[Ho2 Hr2] H2]. split; [split; congruence |].
  intros s [-> | Hs]%H2; [by left |]. destruct (H1 s Hs) as [-> | ?]; [left; congruence | by right].
Qed.

Class PromoteStore (Oid StoreErr ObjErr G : Type) `{WS : WalkStore Oid StoreErr ObjErr G} : Type := {
  ps_exists : Oid -> SE G ObjErr bool;
  ps_put : Oid -> Kind -> bytes -> SE G ObjErr unit;

  (** what a caller may put under an id: the content it names *)
  ps_fits : Oid -> Kind * bytes -> Prop;
  (** what is stored, now and after a crash, is what the ids name: then no write
      changes what an earlier state recovers to *)
  ps_intact : G -> Prop;
  ps_recover : G -> gmap Oid (Kind * bytes) -> Prop;
  ps_later : G -> G -> Prop := fun g g' =>
    forall s, ps_recover g' s -> s = ws_objects g' \/ ps_recover g s;
  ps_exists_spec : forall id g r g', ps_exists id g = (r, g') ->
    ws_same g g' /\ ps_later g g' /\ forall v, r = Ok v -> v = bool_decide (is_Some (ws_objects g !! id));
  ps_stays : G -> G -> Prop := fun g g' =>
    (ws_objects g' = ws_objects g /\ ws_refs g' = ws_refs g) /\ ps_later g g';
  ps_walk :: WalkKeeps ps_stays;
  ps_intact_walk :: WalkKeeps (fun g g' => ps_intact g -> ps_intact g');
  ps_intact_exists : forall id, kept (fun g g' => ps_intact g -> ps_intact g') (ps_exists id);
  ps_intact_put : forall id kind body, ps_fits id (kind, body) ->
    kept (fun g g' => ps_intact g -> ps_intact g') (ps_put id kind body);
  ps_put_spec : forall id kind body g r g', ps_fits id (kind, body) -> ps_put id kind body g = (r, g') ->
    ws_graph g' = ws_graph g /\ ws_refs g' = ws_refs g
    /\ (ws_objects g' = ws_objects g ∪ {[id := (kind, body)]}
        \/ (ws_objects g' = ws_objects g /\ exists e, r = Err e));
  ps_put_later : forall id kind body g r g', ps_fits id (kind, body) -> ps_put id kind body g = (r, g') ->
    ps_intact g -> ps_later g g';
  ps_flush : forall g g', ws_flush g = (Ok tt, g') -> forall s, ps_recover g' s -> s = ws_objects g';
}.

(** [POutOfFuel] is the model's: the traversal did not end within its fuel. *)
Inductive PromoteError (Oid StoreErr ObjErr IngestErr WalkErr DecodeError : Type) : Type :=
  | PStore (e : StoreErr)
  | PObjects (e : ObjErr)
  | PStaged (e : IngestErr)
  | PWalk (e : WalkErr)
  | PDecode (oid : Oid) (source : DecodeError)
  | Connectivity (missing : Oid) (referenced_by : option Oid)
  | POutOfFuel.
Arguments PStore {Oid StoreErr ObjErr IngestErr WalkErr DecodeError}.
Arguments PObjects {Oid StoreErr ObjErr IngestErr WalkErr DecodeError}.
Arguments PStaged {Oid StoreErr ObjErr IngestErr WalkErr DecodeError}.
Arguments PWalk {Oid StoreErr ObjErr IngestErr WalkErr DecodeError}.
Arguments PDecode {Oid StoreErr ObjErr IngestErr WalkErr DecodeError}.
Arguments Connectivity {Oid StoreErr ObjErr IngestErr WalkErr DecodeError}.
Arguments POutOfFuel {Oid StoreErr ObjErr IngestErr WalkErr DecodeError}.

Record Promotion (Oid : Type) : Type := mkPromotion {
  promoted : list Oid;
  promoted_commits : list Oid;
}.
Arguments mkPromotion {Oid}.
Arguments promoted {Oid}.
Arguments promoted_commits {Oid}.

Inductive Step (Oid : Type) : Type :=
  | Enter (oid : Oid) (referenced_by : option Oid)
  | Emit (oid : Oid) (kind : Kind) (body : bytes).
Arguments Enter {Oid}.
Arguments Emit {Oid}.

Class PromoteKeeps {Oid StoreErr ObjErr G : Type} `{PS : PromoteStore Oid StoreErr ObjErr G} (P : G -> G -> Prop)
    : Prop := {
  pk_walk :: WalkKeeps P;
  pk_exists id : kept P (ps_exists id);
  pk_put id kind body : ps_fits id (kind, body) -> kept P (ps_put id kind body);
}.

#[export] Instance intact_promotes {Oid StoreErr ObjErr G : Type} `{PS : PromoteStore Oid StoreErr ObjErr G} :
  PromoteKeeps (fun g g' => ps_intact g -> ps_intact g').
Proof. split; [exact ps_intact_walk | exact ps_intact_exists | exact ps_intact_put]. Qed.

#[export] Hint Extern 1 (PromoteKeeps _) => apply _ : kept.
#[export] Hint Resolve pk_exists pk_put : kept.

Section promote.
Context {Oid : Type} {OL : OidLib Oid} {StoreErr ObjErr DecodeError G : Type}.
Context {OB : ObjectLib Oid DecodeError} {WS : WalkStore Oid StoreErr ObjErr G}.
Context {PS : PromoteStore Oid StoreErr ObjErr G}.
Context {Bundle IoErr PackErr InitErr PackDecodeErr : Type}.
Context {PL : PackLib Oid Bundle PackErr InitErr PackDecodeErr}.

Abbreviation WE := (WalkError Oid StoreErr ObjErr DecodeError).
Abbreviation IE := (IngestError Oid IoErr PackErr InitErr PackDecodeErr ObjErr).
Abbreviation PE := (PromoteError Oid StoreErr ObjErr IE WE DecodeError).
Abbreviation PM A := (SE G PE A).
Abbreviation Objects := (gmap Oid (Kind * bytes)).
Abbreviation Entry := (Oid * Kind * bytes)%type.
Abbreviation Rec := (CommitGraphRecord Oid).

(** ** Operations *)

Fixpoint tree_children (id : Oid) (entries : list (result DecodeError (RawEntry Oid)))
    : result PE (list Oid) :=
  match entries with
  | [] => Ok []
  | Err source :: _ => Err (PDecode id source)
  | Ok entry :: entries' =>
      let? children := tree_children id entries' in
      Ok (if is_commit (re_mode entry) then children else re_oid entry :: children)
  end.

Definition object_children (id : Oid) (kind : Kind) (body : bytes) : result PE (list Oid) :=
  match kind with
  | KBlob => Ok []
  | KTree => tree_children id (tree_iter body (oid_kind id))
  | KCommit =>
      let? (tree, parents) := map_err (PDecode id) (commit_ref body (oid_kind id)) in
      Ok (tree :: parents)
  | KTag =>
      let? target := map_err (PDecode id) (tag_ref body (oid_kind id)) in
      Ok [target]
  end.

(** The stack's top is the head of [stack]. *)
Fixpoint validate_loop (fuel : nat) (staged : StagedPack Bundle) (stack : list (Step Oid))
    (done : gset Oid) (post_order : list Entry) : PM (list Entry) :=
  match stack with
  | [] => se_ret post_order
  | step :: stack' =>
      match fuel with
      | O => se_err POutOfFuel
      | S fuel' =>
          match step with
          | Enter oid referenced_by =>
              if decide (oid ∈ done) then validate_loop fuel' staged stack' done post_order
              else
                let done := {[oid]} ∪ done in
                do! committed <- se_map_err PObjects (ps_exists oid);
                if committed : bool then validate_loop fuel' staged stack' done post_order
                else
                  do! found <- se_lift (map_err PStaged (staged_read staged oid));
                  match found with
                  | None => se_err (Connectivity oid referenced_by)
                  | Some (kind, body) =>
                      do! children <- se_lift (object_children oid kind body);
                      validate_loop fuel' staged
                        (map (fun child => Enter child (Some oid)) children ++ Emit oid kind body :: stack')
                        done post_order
                  end
          | Emit oid kind body =>
              validate_loop fuel' staged stack' done (post_order ++ [(oid, kind, body)])
          end
      end
  end.

Definition validate (fuel : nat) (staged : StagedPack Bundle) (tips : list Oid) : PM (list Entry) :=
  validate_loop fuel staged (map (fun tip => Enter tip None) tips) ∅ [].

Definition group (kind : Kind) (post_order : list Entry) : list Entry :=
  filter (fun e => e.1.2 = kind) post_order.

Fixpoint put_group (kind : Kind) (entries : list Entry) (promoted : list Oid) : PM (list Oid) :=
  match entries with
  | [] => se_ret promoted
  | (oid, _, body) :: entries' =>
      do! _ <- se_map_err PObjects (ps_put oid kind body);
      put_group kind entries' (promoted ++ [oid])
  end.

Fixpoint max_generation (fuel : nat) (parents : list Oid) (max_parent_generation : Z) : PM Z :=
  match parents with
  | [] => se_ret max_parent_generation
  | parent :: parents' =>
      do! record <- se_map_err PWalk (get_commit_info fuel parent);
      max_generation fuel parents' (Z.max max_parent_generation (generation record))
  end.

Fixpoint extend_graph (fuel : nat) (entries : list Entry) (commits : list Oid) : PM (list Oid) :=
  match entries with
  | [] => se_ret commits
  | (oid, _, body) :: entries' =>
      do! (root_tree, parents) <- se_lift (map_err (PDecode oid) (commit_ref body (oid_kind oid)));
      do! max_parent_generation <- max_generation fuel parents 0;
      do! _ <- se_map_err PStore (ws_put_commit_graph oid
                 (mkCommitGraph (wrap 32 (max_parent_generation + 1)) root_tree parents));
      extend_graph fuel entries' (commits ++ [oid])
  end.

(** The writes, blobs first and tags last; the ids in the order written. *)
Definition promote_objects (post_order : list Entry) : PM (list Oid) :=
  do! promoted <- put_group KBlob (group KBlob post_order) [];
  do! promoted <- put_group KTree (group KTree post_order) promoted;
  do! promoted <- put_group KCommit (group KCommit post_order) promoted;
  put_group KTag (group KTag post_order) promoted.

(** [fuel] bounds the validation, [graph_fuel] each backfill. *)
Definition validate_and_promote (fuel graph_fuel : nat) (staged : StagedPack Bundle) (tips : list Oid)
    : PM (Promotion Oid) :=
  do! post_order <- validate fuel staged tips;
  do! promoted <- promote_objects post_order;
  do! commits <- extend_graph graph_fuel (group KCommit post_order) [];
  do! _ <- se_map_err PStore ws_flush;
  se_ret (mkPromotion promoted commits).

(** ** References and the objects a push needs *)

(** [e] refers to [c]: the children the code reads off an entry. *)
Definition refers (e : Entry) (c : Oid) : Prop :=
  exists cs, object_children e.1.1 e.1.2 e.2 = Ok cs /\ c ∈ cs.

(** Every reference of an object of [s] is in [s]. *)
Definition closed (s : Objects) : Prop :=
  forall id kind body c, s !! id = Some (kind, body) -> refers (id, kind, body) c -> is_Some (s !! c).

Lemma children_err id kind body e :
  object_children id kind body = Err e -> exists source, e = PDecode id source.
Proof.
  unfold object_children. destruct kind; [done | | |].
  - induction (tree_iter body (oid_kind id)) as [| [entry | source] es IH]; cbn [tree_children]; [done | |].
    + destruct (tree_children id es); [done | auto].
    + intros [= <-]. by exists source.
  - destruct (commit_ref body (oid_kind id)) as [[t ps] | source]; cbn; [done |]. intros [= <-]. by exists source.
  - destruct (tag_ref body (oid_kind id)) as [t | source]; cbn; [done |]. intros [= <-]. by exists source.
Qed.

Definition ids (l : list Entry) : list Oid := map (fun e => e.1.1) l.

Section validation.
Context (m p : Objects) (tips : list Oid).

Definition child (x c : Oid) : Prop :=
  exists kind body, p !! x = Some (kind, body) /\ refers (x, kind, body) c.

(** What the tips need: themselves, and what an uncommitted needed object
    refers to. *)
Inductive needed : Oid -> Prop :=
  | needed_tip t : t ∈ tips -> needed t
  | needed_child x c : needed x -> m !! x = None -> child x c -> needed c.

(** Names are hashes: no staged object refers back to itself. *)
Definition acyclic (rank : Oid -> nat) : Prop := forall x c, child x c -> rank c < rank x.

(** Why [x] was entered. *)
Definition edge (x : Oid) (referenced_by : option Oid) : Prop :=
  match referenced_by with
  | None => x ∈ tips
  | Some y => needed y /\ m !! y = None /\ child y x
  end.

(** The truth of what a validation reports. *)
Definition validation_fault (e : PE) : Prop :=
  match e with
  | PObjects _ => True
  | PStaged e => exists id, needed id /\ m !! id = None /\ undecodable id e
  | PDecode id source => needed id /\ m !! id = None
      /\ exists kind body, p !! id = Some (kind, body) /\ object_children id kind body = Err (PDecode id source)
  | Connectivity missing referenced_by =>
      m !! missing = None /\ p !! missing = None /\ edge missing referenced_by
  | PStore _ | PWalk _ | POutOfFuel => False
  end.

Definition weight (x : Oid) : nat :=
  match p !! x with
  | Some (kind, body) =>
      match object_children x kind body with Ok cs => S (length cs) | Err _ => 1 end
  | None => 0
  end.

Definition unvisited (done : gset Oid) (x : Oid) : nat := if decide (x ∈ done) then 0 else weight x.

(** A bound on the steps left: those on the stack, and for every object not
    met yet its emission and its children. *)
Definition steps_left (stack : list (Step Oid)) (done : gset Oid) : nat :=
  length stack + sum_list (unvisited done <$> (map_to_list p).*1).

Definition validate_fuel : nat := steps_left (map (fun tip => Enter tip None) tips) ∅.

(** ** The traversal's invariant *)

Definition entered (stack : list (Step Oid)) : list Oid :=
  omap (fun s => match s with Enter x _ => Some x | Emit _ _ _ => None end) stack.
Definition emits (stack : list (Step Oid)) : list Oid :=
  omap (fun s => match s with Enter _ _ => None | Emit x _ _ => Some x end) stack.

Definition resolved (posted : list Oid) (c : Oid) : Prop := is_Some (m !! c) \/ c ∈ posted.

(** Children of a pending emission are settled or lie above it; all above it is
    of smaller rank. *)
Fixpoint stack_ok (rank : Oid -> nat) (posted above : list Oid) (stack : list (Step Oid)) : Prop :=
  match stack with
  | [] => True
  | Enter x _ :: stack' => stack_ok rank posted (x :: above) stack'
  | Emit x _ _ :: stack' =>
      (forall y, y ∈ above -> rank y < rank x)
      /\ (forall c, child x c -> resolved posted c \/ c ∈ above)
      /\ stack_ok rank posted (x :: above) stack'
  end.

(** A staged object with its content, well-formed. *)
Definition staged_entry (e : Entry) : Prop :=
  p !! e.1.1 = Some (e.1.2, e.2) /\ exists cs, object_children e.1.1 e.1.2 e.2 = Ok cs.

(** Children are committed or come first. *)
Definition children_first (post : list Entry) : Prop :=
  forall i e c, post !! i = Some e -> refers e c -> resolved (ids (take i post)) c.

Record validating (rank : Oid -> nat) (stack : list (Step Oid)) (done : gset Oid) (post : list Entry) : Prop := {
  v_done : forall x, x ∈ done -> needed x /\ (is_Some (m !! x) \/ x ∈ ids post \/ x ∈ emits stack);
  v_nodup : NoDup (ids post ++ emits stack);
  v_out : forall x, x ∈ ids post ++ emits stack -> x ∈ done /\ m !! x = None;
  v_post : forall e, e ∈ post -> staged_entry e;
  v_emit : forall x kind body, Emit x kind body ∈ stack -> staged_entry (x, kind, body);
  v_enter : forall x by_, Enter x by_ ∈ stack -> edge x by_;
  v_tips : forall t, t ∈ tips -> t ∈ done \/ t ∈ entered stack;
  v_closed : forall x c, x ∈ done -> m !! x = None -> child x c -> c ∈ done \/ c ∈ entered stack;
  v_first : children_first post;
  v_stack : stack_ok rank (ids post) [] stack;
}.

Lemma edge_needed x by_ : edge x by_ -> needed x.
Proof. destruct by_ as [y |]; cbn; [intros (? & ? & ?); by eapply needed_child | by constructor]. Qed.

Lemma child_of x kind body c : p !! x = Some (kind, body) -> child x c <-> refers (x, kind, body) c.
Proof. intros Hx. split; [intros (k & b & Hb & Hc) | intros Hc; by exists kind, body]. by simplify_eq. Qed.

(** The stack below stays in order when what was above it settles or is
    replaced by steps of no higher rank. *)
Lemma stack_ok_change rank posted posted' above above' stack :
  stack_ok rank posted above stack ->
  (forall y, y ∈ above' -> exists z, z ∈ above /\ rank y <= rank z) ->
  (forall y, y ∈ above -> resolved posted' y \/ y ∈ above') ->
  (forall y, y ∈ posted -> y ∈ posted') ->
  stack_ok rank posted' above' stack.
Proof.
  revert above above'. induction stack as [| [x by_ | x k b] stack IH]; intros above above' Hok Hr Ha Hp;
    cbn [stack_ok] in *; [done | |].
  - apply (IH (x :: above)); [done | | | done].
    + intros y [-> | Hy]%elem_of_cons; [exists x; split; [by left | done] |].
      destruct (Hr y Hy) as (z & Hz & ?). exists z. split; [by right | done].
    + intros y [-> | Hy]%elem_of_cons; [right; by left |]. destruct (Ha y Hy); [by left | right; by right].
  - destruct Hok as (Hlt & Hc & Hok). split; [| split].
    + intros y Hy. destruct (Hr y Hy) as (z & Hz & ?). specialize (Hlt z Hz). lia.
    + intros c Hx. destruct (Hc c Hx) as [[? | ?] | Hy]; [left; by left | left; right; by apply Hp | by apply Ha].
    + apply (IH (x :: above)); [done | | | done].
      * intros y [-> | Hy]%elem_of_cons; [exists x; split; [by left | done] |].
        destruct (Hr y Hy) as (z & Hz & ?). exists z. split; [by right | done].
      * intros y [-> | Hy]%elem_of_cons; [right; by left |]. destruct (Ha y Hy); [by left | right; by right].
Qed.

Lemma stack_ok_below rank posted above stack y x :
  stack_ok rank posted above stack -> y ∈ above -> x ∈ emits stack -> rank y < rank x.
Proof.
  revert above. induction stack as [| [z by_ | z k b] stack IH]; intros above Hok Hy Hx.
  - by apply elem_of_nil in Hx.
  - cbn in Hok. apply (IH (z :: above)); [done | by right | done].
  - cbn in Hok. destruct Hok as (Hlt & _ & Hok). apply elem_of_cons in Hx as [-> | Hx]; [auto |].
    apply (IH (z :: above)); [done | by right | done].
Qed.

Lemma stack_ok_enters rank posted above cs (x : Oid) stack :
  stack_ok rank posted (rev cs ++ above) stack ->
  stack_ok rank posted above (map (fun c => Enter c (Some x)) cs ++ stack).
Proof.
  revert above. induction cs as [| c cs IH]; intros above H; [done |]. cbn [map app stack_ok].
  apply IH. cbn [rev] in H. by rewrite <- app_assoc in H.
Qed.

Lemma entered_enters cs (x : Oid) stack :
  entered (map (fun c => Enter c (Some x)) cs ++ stack) = cs ++ entered stack
  /\ emits (map (fun c => Enter c (Some x)) cs ++ stack) = emits stack.
Proof. induction cs as [| c cs [IH1 IH2]]; [done |]. cbn. split; [| done]. by f_equal. Qed.

Lemma ids_snoc l (e : Entry) : ids (l ++ [e]) = ids l ++ [e.1.1].
Proof. unfold ids. by rewrite map_app. Qed.

Lemma elem_of_ids l x : x ∈ ids l <-> exists e, e ∈ l /\ e.1.1 = x.
Proof.
  unfold ids. rewrite list_elem_of_In, in_map_iff. setoid_rewrite list_elem_of_In. naive_solver.
Qed.

(** ** One step *)

(** An entry is popped because its object is settled. *)
Lemma validating_skip rank x by_ stack done post :
  acyclic rank -> validating rank (Enter x by_ :: stack) done post ->
  x ∈ done \/ is_Some (m !! x) ->
  validating rank stack ({[x]} ∪ done) post.
Proof.
  intros Hacyc [Hd Hnd Hout Hpost Hem Hent Ht Hcl Hf Hst] Hx. cbn [emits entered omap list_omap] in *.
  fold (emits stack) in *. fold (entered stack) in *. cbn [stack_ok] in Hst.
  assert (resolved (ids post) x) as Hres.
  { destruct Hx as [Hx | Hx]; [| by left]. destruct (Hd x Hx) as [_ [? | [? | Hem']]]; [by left | by right |].
    pose proof (stack_ok_below _ _ _ _ x x Hst ltac:(by left) Hem'). lia. }
  split; try done.
  - intros y [->%elem_of_singleton | Hy]%elem_of_union; [| auto].
    split; [by eapply edge_needed, Hent; left |]. destruct Hres; auto.
  - intros y Hy. destruct (Hout y Hy). split; [set_solver | done].
  - intros; eapply Hem; by right.
  - intros; apply Hent; by right.
  - intros t Htin. destruct (Ht t Htin) as [? | [-> | ?]%elem_of_cons]; [left | left | right]; set_solver.
  - intros y c [->%elem_of_singleton | Hy]%elem_of_union Hm Hc.
    + destruct Hx as [Hx | [kb Hx]]; [| congruence].
      destruct (Hcl x c Hx Hm Hc) as [? | [-> | ?]%elem_of_cons]; [left | left | right]; set_solver.
    + destruct (Hcl y c Hy Hm Hc) as [? | [-> | ?]%elem_of_cons]; [left | left | right]; set_solver.
  - eapply stack_ok_change; [done | | | done].
    + intros y Hy. by apply elem_of_nil in Hy.
    + intros y ->%list_elem_of_singleton. by left.
Qed.

(** A new object is entered: its children go above its emission. *)
Lemma validating_enter rank x by_ stack done post kind body cs :
  acyclic rank -> validating rank (Enter x by_ :: stack) done post ->
  x ∉ done -> m !! x = None -> p !! x = Some (kind, body) -> object_children x kind body = Ok cs ->
  validating rank (map (fun c => Enter c (Some x)) cs ++ Emit x kind body :: stack) ({[x]} ∪ done) post.
Proof.
  intros Hacyc [Hd Hnd Hout Hpost Hem Hent Ht Hcl Hf Hst] Hx Hm Hp Hcs. cbn [emits entered omap list_omap] in *.
  fold (emits stack) in *. fold (entered stack) in *.
  destruct (entered_enters cs x (Emit x kind body :: stack)) as [Een Eem].
  cbn [emits entered omap list_omap] in Een, Eem. fold (emits stack) in *. fold (entered stack) in *.
  assert (forall c, child x c <-> c ∈ cs) as Hch.
  { intros c. rewrite (child_of x kind body c Hp). split; [intros (cs' & E & ?) | intros; by exists cs].
    cbn [fst snd] in E. by assert (cs' = cs) as <- by congruence. }
  assert (needed x) as Hn by (eapply edge_needed, Hent; by left).
  split; rewrite ?Een, ?Eem; try done.
  - intros y [->%elem_of_singleton | Hy]%elem_of_union; [split; [done | right; right; by left] |].
    destruct (Hd y Hy) as [? [? | [? | ?]]]; (split; [done |]); [by left | right; by left | right; right; by right].
  - apply NoDup_Permutation_proper with (x :: ids post ++ emits stack); [by rewrite Permutation_middle |].
    constructor; [| done]. intros Hin. by apply Hout in Hin as [? _].
  - intros y Hy. rewrite elem_of_app, elem_of_cons in Hy.
    destruct Hy as [Hy | [-> | Hy]]; [| by set_solver |]; destruct (Hout y) as [? ?]; set_solver.
  - intros y k b. rewrite elem_of_app, elem_of_cons. intros [Hy | [[= -> -> ->] | Hy]]; [| split; [done | by eexists] | by eapply Hem; right].
    apply list_elem_of_In, in_map_iff in Hy as (? & [=] & _).
  - intros y b. rewrite elem_of_app, elem_of_cons. intros [Hy | [[=] | Hy]]; [| by apply Hent; right].
    apply list_elem_of_In, in_map_iff in Hy as (c & [= <- <-] & Hc). cbn.
    split; [done | split; [done |]]. by apply Hch, list_elem_of_In.
  - intros t Htin. rewrite elem_of_union, elem_of_singleton, elem_of_app.
    destruct (Ht t Htin) as [? | [-> | ?]%elem_of_cons]; tauto.
  - intros y c [->%elem_of_singleton | Hy]%elem_of_union Hmy Hc.
    + right. apply Hch in Hc. rewrite elem_of_app. by left.
    + rewrite elem_of_union, elem_of_singleton, elem_of_app.
      destruct (Hcl y c Hy Hmy Hc) as [? | [-> | ?]%elem_of_cons]; tauto.
  - apply stack_ok_enters. rewrite app_nil_r. cbn [stack_ok] in *. split; [| split].
    + intros y Hy. rewrite elem_of_rev in Hy. by apply Hacyc, Hch.
    + intros c Hc%Hch. right. by rewrite elem_of_rev.
    + eapply stack_ok_change; [done | | | done].
      * intros y [-> | Hy]%elem_of_cons; exists x; (split; [by left |]); [done |].
        rewrite elem_of_rev in Hy. apply Hch, Hacyc in Hy. lia.
      * intros y ->%list_elem_of_singleton. right. by left.
Qed.

Lemma validating_emit rank x kind body stack done post :
  validating rank (Emit x kind body :: stack) done post ->
  validating rank stack done (post ++ [(x, kind, body)]).
Proof.
  intros [Hd Hnd Hout Hpost Hem Hent Ht Hcl Hf Hst]. cbn [emits entered omap list_omap] in *.
  fold (emits stack) in *. fold (entered stack) in *. cbn [stack_ok] in Hst. destruct Hst as (_ & Hch & Hst).
  assert (staged_entry (x, kind, body)) as He by (apply Hem; by left).
  pose proof (proj1 He) as Hp. cbn [fst snd] in Hp.
  split; rewrite ?ids_snoc, <- ?app_assoc; try done.
  - intros y Hy. destruct (Hd y Hy) as [? [? | [? | [-> | ?]%elem_of_cons]]]; (split; [done |]).
    1: by left. all: right; rewrite elem_of_app, list_elem_of_singleton; cbn; tauto.
  - intros e [Hin | ->%list_elem_of_singleton]%elem_of_app; [by apply Hpost | done].
  - intros; apply Hem; by right.
  - intros; apply Hent; by right.
  - intros i e c Hi Hc. apply lookup_app_Some in Hi as [Hi | [Hlen Hi]].
    + rewrite take_app_le by (apply lookup_lt_Some in Hi; lia). by apply (Hf i e c).
    + apply list_lookup_singleton_Some in Hi as [Hi <-].
      replace i with (length post) by lia. rewrite take_app_length.
      destruct (Hch c) as [? | Hn]; [by eapply child_of | done | by apply elem_of_nil in Hn].
  - eapply stack_ok_change; [done | | |].
    + intros y Hy. by apply elem_of_nil in Hy.
    + intros y ->%list_elem_of_singleton. left. right. rewrite elem_of_app. right. by left.
    + intros y Hy. rewrite elem_of_app. by left.
Qed.

(** ** The traversal is correct and total *)

Lemma unvisited_mono (done : gset Oid) x y : unvisited ({[x]} ∪ done) y <= unvisited done y.
Proof. unfold unvisited. repeat case_decide; try lia. set_solver. Qed.

Lemma steps_skip x by_ stack done :
  steps_left stack ({[x]} ∪ done) < steps_left (Enter x by_ :: stack) done.
Proof.
  unfold steps_left. cbn [length].
  pose proof (sum_list_mono _ _ (map_to_list p).*1 (unvisited_mono done x)). lia.
Qed.

Lemma steps_enter x by_ stack done kind body cs :
  x ∉ done -> p !! x = Some (kind, body) -> object_children x kind body = Ok cs ->
  steps_left (map (fun c => Enter c (Some x)) cs ++ Emit x kind body :: stack) ({[x]} ∪ done)
  < steps_left (Enter x by_ :: stack) done.
Proof.
  intros Hx Hp Hcs. unfold steps_left. rewrite length_app, length_map. cbn [length].
  pose proof (sum_list_drop _ _ (map_to_list p).*1 x (S (length cs))
    ltac:(apply list_elem_of_fmap; exists (x, (kind, body)); split; [done | by apply elem_of_map_to_list])
    (unvisited_mono done x)) as H.
  assert (unvisited ({[x]} ∪ done) x + S (length cs) <= unvisited done x) as Hdrop.
  { unfold unvisited, weight. by rewrite decide_True, decide_False, Hp, Hcs by set_solver. }
  specialize (H Hdrop). lia.
Qed.

Definition keeps (g g' : G) : Prop := ws_same g g' /\ ps_later g g'.

Lemma keeps_trans g1 g2 g3 : keeps g1 g2 -> keeps g2 g3 -> keeps g1 g3.
Proof.
  intros [Hs12 Hl12] [Hs23 Hl23]. split; [by eapply ws_same_trans |].
  intros s [-> | Hs]%Hl23; [by left |]. destruct (Hl12 s Hs) as [-> | ?]; [left | by right].
  symmetry. apply Hs23.
Qed.

Lemma keeps_refl g : keeps g g.
Proof. split; [done |]. intros s ?. by right. Qed.

Lemma validate_loop_spec rank staged fuel stack done post g :
  staged_objects staged = p -> acyclic rank -> ws_objects g = m ->
  validating rank stack done post -> steps_left stack done <= fuel ->
  let '(r, g') := validate_loop fuel staged stack done post g in
  keeps g g'
  /\ match r with
     | Ok post' => exists done', validating rank [] done' post'
     | Err e => validation_fault e
     end.
Proof.
  intros Hst Hacyc. revert stack done post g.
  induction fuel as [| fuel IH]; intros [| step stack] done post g Hm Hv Hf; cbn [validate_loop];
    try (split; [apply keeps_refl | by exists done]); [cbn in Hf; lia |].
  destruct step as [x by_ | x k b].
  2: { apply IH; [done | by apply validating_emit |]. unfold steps_left in *. cbn in *. lia. }
  assert (edge x by_) as Hedge by (eapply (v_enter _ _ _ _ Hv); by left).
  case_decide as Hx.
  { pose proof (validating_skip _ _ _ _ _ _ Hacyc Hv (or_introl Hx)) as Hv'.
    replace ({[x]} ∪ done) with done in Hv' by set_solver.
    apply IH; [done | done |]. unfold steps_left in *. cbn in *. lia. }
  unfold se_bind at 1, se_map_err. destruct (ps_exists x g) as [r g1] eqn:E.
  apply ps_exists_spec in E as (Hs1 & Hl1 & Hr). assert (keeps g g1) as Hk1 by done.
  destruct r as [committed | e]; cbn [map_err]; [| done]. specialize (Hr _ eq_refl).
  rewrite Hm in Hr. assert (ws_objects g1 = m) as Hm1 by (by rewrite (proj1 Hs1)). destruct committed.
  { symmetry in Hr. apply bool_decide_eq_true in Hr.
    pose proof (validating_skip _ _ _ _ _ _ Hacyc Hv (or_intror Hr)) as Hv'.
    pose proof (steps_skip x by_ stack done).
    specialize (IH stack ({[x]} ∪ done) post g1 Hm1 Hv' ltac:(lia)).
    destruct (validate_loop _ _ _ _ _ g1) as [r g']. destruct IH. split; [by eapply keeps_trans | done]. }
  symmetry in Hr. apply bool_decide_eq_false, eq_None_not_Some in Hr.
  unfold se_bind at 1, se_lift. pose proof (staged_read_spec (IoErr := IoErr) (ObjErr := ObjErr) staged x) as Hread.
  destruct (staged_read staged x) as [found | e]; cbn [map_err].
  2: { split; [done |]. exists x. split; [by eapply edge_needed | done]. }
  rewrite Hst in Hread. destruct found as [[k b] |]; [| by split].
  unfold se_bind at 1. destruct (object_children x k b) as [cs | e] eqn:Hcs.
  - pose proof (validating_enter _ _ _ _ _ _ _ _ _ Hacyc Hv Hx Hr (eq_sym Hread) Hcs) as Hv'.
    pose proof (steps_enter x by_ stack done k b cs Hx (eq_sym Hread) Hcs).
    specialize (IH _ _ post g1 Hm1 Hv' ltac:(lia)).
    destruct (validate_loop _ _ _ _ _ g1) as [r g']. destruct IH. split; [by eapply keeps_trans | done].
  - split; [done |]. destruct (children_err _ _ _ _ Hcs) as [source ->].
    split; [by eapply edge_needed | split; [done |]]. by exists k, b.
Qed.

Lemma validating_start rank : validating rank (map (fun tip => Enter tip None) tips) ∅ [].
Proof.
  assert (forall l : list Oid, emits (map (fun tip => Enter tip None) l) = []
    /\ entered (map (fun tip => Enter tip None) l) = l
    /\ forall posted above, stack_ok rank posted above (map (fun tip => Enter tip None) l)) as Hl.
  { induction l as [| t l (IH1 & IH2 & IH3)]; [done |]. cbn. split; [done | split; [by f_equal |]].
    intros; apply IH3. }
  destruct (Hl tips) as (He & Hn & Hs). split; rewrite ?He, ?Hn; try done; try (intros; set_solver).
  constructor.
Qed.

(** What the end of a traversal has found. *)
Lemma validating_end rank done post x :
  validating rank [] done post -> x ∈ ids post <-> needed x /\ m !! x = None.
Proof.
  intros Hv. cbn. pose proof (v_out _ _ _ _ Hv) as Hout. pose proof (v_done _ _ _ _ Hv) as Hdone.
  cbn in Hout, Hdone. rewrite app_nil_r in Hout. split.
  - intros [Hd Hm]%Hout. split; [by apply Hdone | done].
  - intros [Hn Hm]. assert (x ∈ done) as Hd.
    { clear Hm. induction Hn as [t Ht | y c Hn IH Hm Hc].
      - destruct (v_tips _ _ _ _ Hv t Ht) as [? | H]; [done | by apply elem_of_nil in H].
      - destruct (v_closed _ _ _ _ Hv y c IH Hm Hc) as [? | H]; [done | by apply elem_of_nil in H]. }
    destruct (Hdone x Hd) as (_ & [[kb ?] | [? | H]]); [congruence | done | by apply elem_of_nil in H].
Qed.

(** The new objects of a push, ready to be written. *)
Definition plan (post : list Entry) : Prop :=
  NoDup (ids post)
  /\ (forall x, x ∈ ids post <-> needed x /\ m !! x = None)
  /\ (forall e, e ∈ post -> staged_entry e)
  /\ children_first post.

Lemma validate_spec rank staged fuel g :
  staged_objects staged = p -> ws_objects g = m -> acyclic rank -> validate_fuel <= fuel ->
  let '(r, g') := validate fuel staged tips g in
  keeps g g' /\ match r with Ok post => plan post | Err e => validation_fault e end.
Proof.
  intros Hst Hm Hacyc Hf. unfold validate.
  pose proof (validate_loop_spec rank staged fuel _ _ _ g Hst Hacyc Hm (validating_start rank) Hf) as H.
  destruct (validate_loop _ _ _ _ _ g) as [[post | e] g']; [| done]. destruct H as [Hk [done Hv]].
  split; [done |]. split; [| split; [intros x; by eapply validating_end | split]].
  - pose proof (v_nodup _ _ _ _ Hv) as Hnd. cbn in Hnd. by rewrite app_nil_r in Hnd.
  - apply (v_post _ _ _ _ Hv).
  - apply (v_first _ _ _ _ Hv).
Qed.

End validation.

(** ** The writes *)

Definition entries_map (l : list Entry) : Objects := list_to_map (map (fun e => (e.1.1, (e.1.2, e.2))) l).

Lemma entries_map_lookup l x kb :
  NoDup (ids l) -> entries_map l !! x = Some kb <-> exists e, e ∈ l /\ e.1.1 = x /\ kb = (e.1.2, e.2).
Proof.
  intros Hnd. unfold entries_map. rewrite <- elem_of_list_to_map.
  - rewrite list_elem_of_In, in_map_iff. setoid_rewrite list_elem_of_In. naive_solver.
  - unfold ids in Hnd. by replace (map (fun e : Entry => (e.1.1, (e.1.2, e.2))) l).*1
      with (map (fun e : Entry => e.1.1) l) by (symmetry; apply map_map).
Qed.

Lemma group_perm (post : list Entry) :
  group KBlob post ++ group KTree post ++ group KCommit post ++ group KTag post ≡ₚ post.
Proof.
  unfold group. induction post as [| [[x k] b] post IH]; [done |]. rewrite !filter_cons. cbn [fst snd].
  etrans; [| exact (perm_skip (x, k, b) IH)].
  destruct k; repeat (case_decide as Hd; try discriminate Hd; try (exfalso; by apply Hd)); clear Hd IH;
    cbn [app]; solve_Permutation.
Qed.

(** Storage is closed, and so is every state a crash would leave. *)
Definition crash_safe (g : G) : Prop :=
  closed (ws_objects g) /\ forall s, ps_recover g s -> closed s.

(** Each entry refers to what is [present] or comes before it. *)
Definition ready (present : Oid -> Prop) (l : list Entry) : Prop :=
  forall i e c, l !! i = Some e -> refers e c -> present c \/ c ∈ ids (take i l).

(** What may be written: content under the id that names it. *)
Definition fitting (l : list Entry) : Prop := forall e, e ∈ l -> ps_fits e.1.1 (e.1.2, e.2).

Definition named (p : Objects) : Prop := forall x kb, p !! x = Some kb -> ps_fits x kb.

Lemma plan_fitting m p tips post : named p -> plan m p tips post -> fitting post.
Proof. intros Hn (_ & _ & Hp & _) e He. apply Hn. by apply (Hp e). Qed.

Lemma fitting_app l1 l2 : fitting (l1 ++ l2) <-> fitting l1 /\ fitting l2.
Proof. unfold fitting. setoid_rewrite elem_of_app. naive_solver. Qed.

(** [f] writes the entries [l] in order: all of them, or a prefix if a write
    fails; and safely, if they are ready to be written. *)
Definition writes (f : list Oid -> PM (list Oid)) (l : list Entry) : Prop := fitting l -> forall acc g,
  let '(r, g') := f acc g in
  ws_graph g' = ws_graph g /\ ws_refs g' = ws_refs g
  /\ (ps_intact g -> ps_intact g'
      /\ (ready (fun c => is_Some (ws_objects g !! c)) l -> crash_safe g -> crash_safe g'))
  /\ exists l1, l1 `prefix_of` l /\ ws_objects g' = ws_objects g ∪ entries_map l1
     /\ match r with Ok acc' => l1 = l /\ acc' = acc ++ ids l | Err e => exists o, e = PObjects o end.

Lemma writes_nil : writes se_ret [].
Proof.
  intros _ acc g. cbn. split; [done | split; [done | split; [done |]]]. exists [].
  rewrite app_nil_r. unfold entries_map. cbn. by rewrite (right_id_L ∅ (∪)).
Qed.

Lemma entries_map_present l c : is_Some (entries_map l !! c) <-> c ∈ ids l.
Proof.
  unfold entries_map. induction l as [| e l IH]; cbn [map list_to_map foldr].
  - rewrite lookup_empty. cbn. rewrite elem_of_nil. split; [by intros [? [=]] | done].
  - cbn. rewrite lookup_insert_is_Some, elem_of_cons, IH. destruct (decide (e.1.1 = c)); naive_solver.
Qed.

Lemma closed_insert s x kind body :
  closed s -> (forall c, refers (x, kind, body) c -> is_Some (s !! c)) ->
  closed (s ∪ {[x := (kind, body)]}).
Proof.
  intros Hc Hx y k b c Hy Hr. rewrite lookup_union_is_Some. left.
  apply lookup_union_Some_raw in Hy as [Hy | [_ Hy]]; [by eapply Hc |].
  apply lookup_singleton_Some in Hy as [<- [= <- <-]]. by apply Hx.
Qed.

Lemma ready_app present l1 l2 :
  ready present (l1 ++ l2) <-> ready present l1 /\ ready (fun c => present c \/ c ∈ ids l1) l2.
Proof.
  unfold ready. split.
  - intros H. split; intros i e c Hi Hr.
    + rewrite <- (take_app_le l1 l2) by (apply lookup_lt_Some in Hi; lia).
      eapply H; [by apply lookup_app_l_Some | done].
    + destruct (H (length l1 + i) e c) as [? | Hin]; [| done | auto |].
      { rewrite lookup_app_r by lia. by replace (length l1 + i - length l1) with i by lia. }
      rewrite take_app_add in Hin. unfold ids in Hin. rewrite map_app, elem_of_app in Hin. unfold ids. tauto.
  - intros [H1 H2] i e c Hi Hr. apply lookup_app_Some in Hi as [Hi | [Hle Hi]].
    + rewrite take_app_le by (apply lookup_lt_Some in Hi; lia). by eapply H1.
    + rewrite take_app_ge by lia. unfold ids. rewrite map_app, elem_of_app.
      destruct (H2 _ e c Hi Hr) as [[? | ?] | ?]; auto.
Qed.

Lemma ready_mono (P Q : Oid -> Prop) l : (forall c, P c -> Q c) -> ready P l -> ready Q l.
Proof. intros H HP i e c Hi Hr. destruct (HP i e c Hi Hr); auto. Qed.

Lemma entries_map_app l1 l2 : entries_map (l1 ++ l2) = entries_map l1 ∪ entries_map l2.
Proof. unfold entries_map. by rewrite map_app, list_to_map_app. Qed.

Lemma writes_bind f h l1 l2 :
  writes f l1 -> writes h l2 -> writes (fun acc => do! acc <- f acc; h acc) (l1 ++ l2).
Proof.
  intros Hf Hh [Hl1 Hl2]%fitting_app acc g. unfold se_bind. specialize (Hf Hl1 acc g).
  destruct (f acc g) as [[acc1 | e] g1]; destruct Hf as (Hg1 & Hr1 & Hs1 & l & Hl & Ho1 & Hf).
  - destruct Hf as [-> ->]. specialize (Hh Hl2 (acc ++ ids l1) g1). destruct (h (acc ++ ids l1) g1) as [r g2].
    destruct Hh as (Hg2 & Hr2 & Hs2 & l' & Hl' & Ho2 & Hr).
    split; [congruence | split; [congruence | split]].
    + intros [Hi1 Hc1]%Hs1. destruct (Hs2 Hi1) as [Hi2 Hc2]. split; [done |].
      intros [H1 H2]%ready_app Hs. apply Hc2; [| by apply Hc1]. eapply ready_mono; [| exact H2].
      intros c. rewrite Ho1, lookup_union_is_Some, entries_map_present. tauto.
    + exists (l1 ++ l'). split; [by apply prefix_app | split].
      * by rewrite Ho2, Ho1, entries_map_app, (assoc_L (∪)).
      * destruct r; [| done]. destruct Hr as [-> ->]. split; [done |]. unfold ids.
        by rewrite map_app, app_assoc.
  - split; [done | split; [done | split]].
    + intros [Hi1 Hc1]%Hs1. split; [done |]. intros [H1 _]%ready_app. by apply Hc1.
    + exists l. split; [by apply prefix_app_r | done].
Qed.

Lemma writes_put x kind body :
  writes (fun acc => do! _ <- se_map_err PObjects (ps_put x kind body); se_ret (acc ++ [x])) [(x, kind, body)].
Proof.
  intros Hfit acc g. unfold se_bind, se_map_err. destruct (ps_put x kind body g) as [r g1] eqn:E.
  pose proof (Hfit (x, kind, body) ltac:(by left)) as Hx. cbn [fst snd] in Hx.
  pose proof (ps_put_later _ _ _ _ _ _ Hx E) as Hlater. pose proof (ps_intact_put _ _ _ Hx g) as Hkeep. rewrite E in Hkeep.
  apply ps_put_spec in E as (Hg & Hr & Ho); [| done].
  assert (ps_intact g -> ps_intact g1
    /\ (ready (fun c => is_Some (ws_objects g !! c)) [(x, kind, body)] -> crash_safe g -> crash_safe g1)) as Hs.
  { intros Hi. split; [by apply Hkeep |]. specialize (Hlater Hi). clear Hx. intros Hx [Hc Hrec]. assert (closed (ws_objects g1)) as Hc1.
    { destruct Ho as [-> | [-> _]]; [| done]. apply closed_insert; [done |]. intros c Hr'.
      destruct (Hx 0 (x, kind, body) c eq_refl Hr') as [? | Hin]; [done | by apply elem_of_nil in Hin]. }
    split; [done |]. intros s [-> | ?]%Hlater; auto. }
  destruct r as [[] | e]; cbn [map_err]; (split; [done | split; [done | split; [done |]]]).
  - exists [(x, kind, body)]. destruct Ho as [Ho | [_ [? [=]]]]. split; [done |]. by rewrite Ho.
  - destruct Ho as [Ho | [Ho _]].
    + exists [(x, kind, body)]. split; [done | split; [by rewrite Ho | by eexists]].
    + exists []. split; [apply prefix_nil | split; [| by eexists]]. rewrite Ho. unfold entries_map. cbn.
      by rewrite (right_id_L ∅ (∪)).
Qed.

Lemma writes_ext f h l : (forall acc g, f acc g = h acc g) -> writes f l -> writes h l.
Proof. intros E H Hl acc g. rewrite <- E. by apply H. Qed.

Lemma put_group_writes kind l : (forall e, e ∈ l -> e.1.2 = kind) -> writes (put_group kind l) l.
Proof.
  induction l as [| [[x k] b] l IH]; intros Hk; [exact writes_nil |].
  pose proof (Hk (x, k, b) ltac:(by left)) as E. cbn in E. subst k.
  eapply writes_ext; [| exact (writes_bind _ _ _ _ (writes_put x kind b) (IH ltac:(intros; apply Hk; by right)))].
  intros acc g. cbn [put_group]. unfold se_bind. by destruct (se_map_err PObjects (ps_put x kind b) g) as [[] ?].
Qed.

Lemma group_kind kind post e : e ∈ group kind post -> e.1.2 = kind.
Proof. by intros [? _]%list_elem_of_filter. Qed.

Definition write_order (post : list Entry) : list Entry :=
  group KBlob post ++ group KTree post ++ group KCommit post ++ group KTag post.

Lemma fitting_order post : fitting post -> fitting (write_order post).
Proof. intros H e He. apply H. by rewrite <- (group_perm post). Qed.

Lemma promote_objects_writes post g :
  fitting post ->
  let '(r, g') := promote_objects post g in
  ws_graph g' = ws_graph g /\ ws_refs g' = ws_refs g
  /\ (ps_intact g -> ps_intact g'
      /\ (ready (fun c => is_Some (ws_objects g !! c)) (write_order post) -> crash_safe g -> crash_safe g'))
  /\ exists l, l `prefix_of` write_order post /\ ws_objects g' = ws_objects g ∪ entries_map l
     /\ match r with Ok acc => l = write_order post /\ acc = ids l | Err e => exists o, e = PObjects o end.
Proof.
  intros Hfit. pose proof (fun kind => put_group_writes kind (group kind post) (group_kind kind post)) as Hw.
  pose proof (writes_bind _ _ _ _ (Hw KBlob) (writes_bind _ _ _ _ (Hw KTree)
    (writes_bind _ _ _ _ (Hw KCommit) (Hw KTag))) (fitting_order _ Hfit) [] g) as H.
  unfold promote_objects, write_order. cbn beta in H.
  destruct (se_bind (put_group KBlob _ []) _ g) as [r g'].
  destruct H as (Hg & Hr & Hs & l & Hl & Ho & H). split; [done | split; [done | split; [done |]]]. exists l.
  split; [done | split; [done |]]. destruct r; [| done]. by destruct H as [-> ->].
Qed.

(** ** The write order keeps storage closed *)

Definition level (kind : Kind) : nat :=
  match kind with KBlob => 0 | KTree => 1 | KCommit => 2 | KTag => 3 end.

(** New objects refer to new objects of no later group: trees to trees and
    blobs, commits to a tree and commits. *)
Definition layered (m p : Objects) : Prop := forall x kind body c kind' body',
  p !! x = Some (kind, body) -> refers (x, kind, body) c ->
  m !! c = None -> p !! c = Some (kind', body') -> level kind' <= level kind.

Lemma group_ready m p tips post kind (present : Oid -> Prop) :
  plan m p tips post -> layered m p ->
  (forall c, is_Some (m !! c) -> present c) ->
  (forall e, e ∈ post -> level e.1.2 < level kind -> present e.1.1) ->
  ready present (group kind post).
Proof.
  intros (_ & Hids & Hp & Hf) Hlay Hm Hlow i e c Hi Hr.
  destruct (filter_earlier _ post i e Hi) as (j & Hj & Hbefore).
  pose proof (group_kind kind post e (list_elem_of_lookup_2 _ _ _ Hi)) as Hk.
  destruct (Hf j e c Hj Hr) as [? | Hc]; [left; auto |].
  apply elem_of_ids in Hc as (e' & He' & <-).
  assert (e' ∈ post) as Hpost by (by apply (subseteq_take j)).
  assert (level e'.1.2 <= level kind) as Hle.
  { rewrite <- Hk. eapply (Hlay e.1.1 _ e.2 e'.1.1 _ e'.2).
    - apply (Hp e). by eapply list_elem_of_lookup_2.
    - by destruct e as [[? ?] ?].
    - apply Hids, elem_of_ids. by exists e'.
    - by apply (Hp e'). }
  destruct (decide (level e'.1.2 = level kind)) as [E | E].
  - right. apply elem_of_ids. exists e'. split; [| done]. apply Hbefore; [done |].
    destruct (e'.1.2), kind; done.
  - left. apply Hlow; [done | lia].
Qed.

Lemma group_present kind post e : e ∈ post -> e.1.2 = kind -> e.1.1 ∈ ids (group kind post).
Proof. intros He Hk. apply elem_of_ids. exists e. split; [| done]. by apply list_elem_of_filter. Qed.

Lemma write_order_ready m p tips post :
  plan m p tips post -> layered m p -> ready (fun c => is_Some (m !! c)) (write_order post).
Proof.
  intros Hplan Hlay. unfold write_order. rewrite !ready_app.
  pose proof (fun kind present => group_ready m p tips post kind present Hplan Hlay) as Hr.
  split; [| split; [| split]]; apply Hr; try tauto; intros [[x []] b] He Hl; cbn in Hl; try lia;
    pose proof (group_present _ post _ He eq_refl); cbn [fst snd] in *; tauto.
Qed.

(** ** What promotion keeps *)

Lemma max_generation_kept P {WK : WalkKeeps P} fuel ps n : kept P (max_generation fuel ps n).
Proof. revert n. induction ps; intros; cbn [max_generation]; keep. Qed.

Lemma kept_extend_graph P {WK : WalkKeeps P} fuel l acc : kept P (extend_graph fuel l acc).
Proof.
  pose proof (max_generation_kept P fuel). revert acc.
  induction l as [| [[x k] b] l IH]; intros acc; cbn [extend_graph]; keep.
Qed.

Lemma kept_validate P {PK : PromoteKeeps P} fuel staged tips : kept P (validate fuel staged tips).
Proof.
  unfold validate. generalize (map (fun tip : Oid => Enter tip None) tips), (∅ : gset Oid), ([] : list Entry).
  induction fuel as [| fuel IH]; intros [| [oid by_ | oid kind body] stack] done_ post; cbn [validate_loop]; keep.
Qed.

(** The entries to write are staged objects. *)
Lemma validate_entries fuel staged tips g post g' :
  validate fuel staged tips g = (Ok post, g') ->
  forall e, e ∈ post -> staged_objects staged !! e.1.1 = Some (e.1.2, e.2).
Proof.
  unfold validate.
  assert (forall x k b, Emit x k b ∈ map (fun tip : Oid => Enter tip None) tips ->
    staged_objects staged !! x = Some (k, b)) as Hs.
  { intros x k b Hin. apply list_elem_of_In, in_map_iff in Hin as (? & [=] & _). }
  assert (forall e : Entry, e ∈ [] -> staged_objects staged !! e.1.1 = Some (e.1.2, e.2)) as Hp
    by (intros e He; by apply elem_of_nil in He).
  revert Hs Hp. generalize (map (fun tip : Oid => Enter tip None) tips), (∅ : gset Oid), ([] : list Entry).
  revert g. induction fuel as [| fuel IH]; intros g [| [oid by_ | oid kind body] stack] done_ acc Hs Hp;
    cbn [validate_loop]; try (by intros [= <- <-]); [| eapply IH].
  - assert (forall x k b, Emit x k b ∈ stack -> staged_objects staged !! x = Some (k, b)) as Hs'
      by (intros; apply Hs; by right).
    case_decide; [by eapply IH |]. intros (committed & g1 & _ & Hrun)%se_bind_ok.
    destruct committed; [by eapply IH |].
    apply se_bind_ok in Hrun as (found & g2 & Hread & Hrun). unfold se_lift in Hread. injection Hread as Hread <-.
    pose proof (staged_read_spec (IoErr := IoErr) (ObjErr := ObjErr) staged oid) as Hspec.
    destruct (staged_read staged oid) as [v |]; [| done]. cbn in Hread. injection Hread as ->.
    destruct found as [[kind body] |]; [| done]. apply se_bind_ok in Hrun as (children & g3 & _ & Hrun).
    eapply IH; [| exact Hp | exact Hrun]. intros x k b [Hin | [[= -> -> ->] | Hin]%elem_of_cons]%elem_of_app.
    + apply list_elem_of_In, in_map_iff in Hin as (? & [=] & _).
    + done.
    + by apply Hs'.
  - intros; apply Hs; by right.
  - intros e [He | ->%list_elem_of_singleton]%elem_of_app; [by apply Hp |]. apply Hs. by left.
Qed.

Lemma kept_put_group P {PK : PromoteKeeps P} kind l acc :
  fitting l -> (forall e, e ∈ l -> e.1.2 = kind) -> kept P (put_group kind l acc).
Proof.
  revert acc. induction l as [| [[x k] b] l IH]; intros acc Hf Hk; cbn [put_group]; [keep |].
  pose proof (Hf (x, k, b) ltac:(by left)) as Hx. pose proof (Hk (x, k, b) ltac:(by left)) as E.
  cbn [fst snd] in Hx, E. subst k. apply kept_bind; [apply _ | keep |]. intros _.
  apply IH; intros e He; [apply Hf | apply Hk]; by right.
Qed.

Lemma kept_promotion P {PK : PromoteKeeps P} fuel gfuel staged tips :
  named (staged_objects staged) -> kept P (validate_and_promote fuel gfuel staged tips).
Proof.
  intros Hn. unfold validate_and_promote.
  apply (kept_bind_when _ (fun post => fitting post)); [apply kept_validate; apply _ | |].
  { intros g post g' H e He. apply Hn. by eapply validate_entries. }
  intros post Hf. assert (forall kind acc, kept P (put_group kind (group kind post) acc)) as Hg.
  { intros kind acc. apply kept_put_group; [apply _ | | apply group_kind].
    intros e He. apply Hf. by apply list_elem_of_filter in He as [_ He]. }
  pose proof (kept_extend_graph P gfuel). unfold promote_objects. keep.
Qed.

(** ** The commit graph's extension *)

Section extension.
Context (m : Objects) (rank : Oid -> nat) (fuel : nat).
Context (Hrank : ranked m rank) (Hfuel : graph_fuel m <= fuel).

(** What extending the graph keeps and adds. *)
Definition extends (g g' : G) : Prop :=
  ws_objects g' = ws_objects g /\ ps_later g g' /\ graph_wf True g' /\ ws_graph g ⊆ ws_graph g'.

Lemma extends_trans g1 g2 g3 : extends g1 g2 -> extends g2 g3 -> extends g1 g3.
Proof.
  intros (Ho1 & Hl1 & Hw1 & Hg1) (Ho2 & Hl2 & Hw2 & Hg2).
  split; [congruence | split; [| split; [done | by etrans]]].
  intros s [-> | Hs]%Hl2; [by left |]. destruct (Hl1 s Hs) as [-> | ?]; [left; congruence | by right].
Qed.

Lemma extends_refl g : graph_wf True g -> extends g g.
Proof. intros H. split; [done | split; [| done]]. intros s ?. by right. Qed.

Lemma gen_of_grows (graph graph' : gmap Oid Rec) x :
  graph ⊆ graph' -> x ∈ dom graph -> gen_of graph' x = gen_of graph x.
Proof.
  intros Hsub [r Hx]%elem_of_dom. unfold gen_of. by rewrite Hx, (lookup_weaken _ _ _ _ Hx Hsub).
Qed.

Lemma max_generation_spec parents acc g :
  ws_objects g = m -> graph_wf True g -> (0 <= acc)%Z ->
  let '(r, g') := max_generation fuel parents acc g in
  extends g g'
  /\ match r with
     | Ok n => n = Z.max acc (foldr Z.max 0 (gen_of (ws_graph g') <$> parents))%Z
         /\ forall p, p ∈ parents -> p ∈ dom (ws_graph g')
     | Err e => exists e', e = PWalk e' /\ fault m e'
     end.
Proof.
  revert acc g. induction parents as [| parent parents IH]; intros acc g Hm Hwf Hacc; cbn [max_generation].
  { split; [by apply extends_refl |]. cbn. split; [lia |]. intros p Hp. by apply elem_of_nil in Hp. }
  unfold se_bind, se_map_err. rewrite <- Hm in Hrank, Hfuel.
  pose proof (get_commit_info_total True fuel rank parent g Hwf Hrank Hfuel) as H.
  pose proof (get_commit_info_grows fuel parent g) as Hgrow.
  pose proof (kept_get_commit_info ps_stays fuel parent g : ps_stays _ _) as Hstable.
  destruct (get_commit_info fuel parent g) as [r g1]. destruct H as (Ho & Hwf1 & Hr), Hstable as [_ Hl].
  assert (extends g g1) as He by done. rewrite Hm in *.
  destruct r as [record | e]; cbn [map_err]; [| split; [done |]; by exists e].
  destruct Hr as [Hrec _]. specialize (IH (Z.max acc (generation record)) g1 ltac:(congruence) Hwf1 ltac:(lia)).
  destruct (max_generation fuel parents _ g1) as [r g2]. destruct IH as [He2 IH].
  split; [by eapply extends_trans |]. destruct r as [n | e]; [| done]. destruct IH as [-> Hps].
  assert (parent ∈ dom (ws_graph g1)) as Hd by (apply elem_of_dom; by eexists).
  destruct He2 as (_ & _ & _ & Hsub).
  split.
  - cbn [fmap list_fmap foldr]. rewrite (gen_of_grows _ _ _ Hsub Hd). unfold gen_of at 2. rewrite Hrec. lia.
  - intros p [-> | Hp]%elem_of_cons; [| auto]. by apply (subseteq_dom _ _ Hsub).
Qed.

(** Writing a commit's record: a new one, or the one it already has. *)
Lemma put_record_spec c t ps g :
  ws_objects g = m -> graph_wf True g -> commit_at m c = Some (t, ps) ->
  (forall p, p ∈ ps -> p ∈ dom (ws_graph g)) ->
  let n := wrap 32 (foldr Z.max 0%Z (gen_of (ws_graph g) <$> ps) + 1)%Z in
  let '(r, g') := ws_put_commit_graph c (mkCommitGraph n t ps) g in
  extends g g' /\ (r = Ok tt -> c ∈ dom (ws_graph g')).
Proof.
  intros Hm Hwf Hc Hps n. destruct (ws_put_commit_graph c _ g) as [r g'] eqn:E.
  pose proof (wk_put_commit_graph (P := ps_stays) c (mkCommitGraph n t ps) g) as Hl. rewrite E in Hl.
  destruct Hl as [_ Hl]. apply ws_put_commit_graph_spec in E as (Ho & _ & Hg).
  assert (n = 1 + foldr Z.max 0 (gen_of (ws_graph g) <$> ps))%Z as Hn.
  { unfold n. rewrite Z.add_comm. unfold graph_wf in Hwf. rewrite Hm in Hwf. by eapply generation_fits. }
  destruct Hg as [(rec' & Hg & Hfit) | [Hg [e ->]]]; [rewrite Hfit in Hg by (eapply record_fits; [done | done | apply wrap32_range]) |].
  2: { split; [| done]. split; [done | split; [done | unfold graph_wf; rewrite Ho, Hg; done]]. }
  destruct (decide (c ∈ dom (ws_graph g))) as [Hd | Hd].
  - destruct (Hwf c Hd) as (r' & Hl' & Hc' & Hx). destruct (Hx I) as [_ Hgen]. rewrite Hm in Hc'.
    assert (<[c := mkCommitGraph n t ps]> (ws_graph g) = ws_graph g) as Hid.
    { apply insert_id. rewrite Hl', Hn. destruct r' as [n' t' ps']. cbn in *. congruence. }
    rewrite Hid in Hg. split; [| by rewrite Hg].
    split; [done | split; [done | unfold graph_wf; rewrite Ho, Hg; done]].
  - split; [| rewrite Hg, dom_insert_L; set_solver]. split; [done | split; [done | split]].
    + unfold graph_wf. rewrite Ho, Hg, dom_insert_L. apply good_insert; try done. by rewrite Hm.
    + rewrite Hg. apply insert_subseteq. by apply not_elem_of_dom.
Qed.

Lemma extend_graph_spec l acc g :
  ws_objects g = m -> graph_wf True g ->
  (forall e, e ∈ l -> exists t ps, commit_at m e.1.1 = Some (t, ps)
     /\ commit_ref e.2 (oid_kind e.1.1) = Ok (t, ps)) ->
  let '(r, g') := extend_graph fuel l acc g in
  extends g g'
  /\ match r with
     | Ok commits => commits = acc ++ ids l /\ forall x, x ∈ ids l -> x ∈ dom (ws_graph g')
     | Err (PStore _) => True
     | Err e => exists e', e = PWalk e' /\ fault m e'
     end.
Proof.
  revert acc g. induction l as [| [[x k] b] l IH]; intros acc g Hm Hwf Hl; cbn [extend_graph].
  { split; [by apply extends_refl |]. cbn. rewrite app_nil_r. split; [done |].
    intros x Hx. by apply elem_of_nil in Hx. }
  destruct (Hl (x, k, b) ltac:(by left)) as (t & ps & Hc & Hb). cbn [fst snd] in Hc, Hb. rewrite Hb.
  unfold se_bind at 1. cbn [map_err]. unfold se_lift.
  unfold se_bind at 1. pose proof (max_generation_spec ps 0%Z g Hm Hwf ltac:(lia)) as H.
  destruct (max_generation fuel ps 0%Z g) as [[n | e] g1]; destruct H as [He1 H].
  2: { split; [done |]. destruct H as (e' & -> & ?). by exists e'. }
  destruct H as [-> Hps]. pose proof He1 as (Ho1 & _ & Hwf1 & _).
  unfold se_bind at 1, se_map_err.
  rewrite Z.max_r by apply foldr_max_nonneg.
  pose proof (put_record_spec x t ps g1 ltac:(congruence) Hwf1 Hc Hps) as H. cbn zeta in H.
  destruct (ws_put_commit_graph x _ g1) as [[[] | e] g2]; destruct H as [He2 Hd]; cbn [map_err].
  2: { split; [by eapply extends_trans | done]. }
  pose proof He2 as (Ho2 & _ & Hwf2 & _).
  specialize (IH (acc ++ [x]) g2 ltac:(congruence) Hwf2 ltac:(intros; apply Hl; by right)).
  destruct (extend_graph fuel l (acc ++ [x]) g2) as [r g3]. destruct IH as [He3 IH].
  split; [by eapply extends_trans, extends_trans |]. destruct r as [commits | e]; [| done].
  destruct IH as [-> IH]. split; [by rewrite <- app_assoc |].
  intros y [-> | Hy]%elem_of_cons; [| auto]. destruct He3 as (_ & _ & _ & Hsub).
  by apply (subseteq_dom _ _ Hsub), Hd.
Qed.

End extension.

(** ** Nothing is lost

    Of intact storage, what [g'] may recover to is what [g] could, or holds all
    that [g] held. *)
Definition grows (g g' : G) : Prop :=
  ws_refs g' = ws_refs g /\ ws_objects g ⊆ ws_objects g'
  /\ (ps_intact g -> ps_intact g' /\ forall s, ps_recover g' s -> ps_recover g s \/ ws_objects g ⊆ s).

Lemma grows_trans g1 g2 g3 : grows g1 g2 -> grows g2 g3 -> grows g1 g3.
Proof.
  intros (Hr1 & Ho1 & Hi1) (Hr2 & Ho2 & Hi2). split; [congruence | split; [by etrans |]].
  intros [H2 Hs1]%Hi1. destruct (Hi2 H2) as [H3 Hs2]. split; [done |].
  intros s [Hs | Hs]%Hs2; [auto | right; by etrans].
Qed.

Lemma later_grows g g' :
  ws_refs g' = ws_refs g -> ws_objects g ⊆ ws_objects g' -> (ps_intact g -> ps_intact g' /\ ps_later g g') -> grows g g'.
Proof.
  intros Hr Ho Hl. split; [done | split; [done |]]. intros [Hi Hl']%Hl. split; [done |]. intros s [-> | ?]%Hl'; auto.
Qed.

#[export] Instance grows_order : PreOrder grows.
Proof. split; [| intros ???; apply grows_trans]. intros g. apply later_grows; [done.. |]. intros Hi. split; [done |]. by right. Qed.

(** What looks things up, or writes graph records. *)
Lemma stays_grows {X} (f : G -> X * G) :
  kept ps_stays f -> kept (fun g g' => ps_intact g -> ps_intact g') f -> kept grows f.
Proof.
  intros Hs Hi g. destruct (Hs g) as [[Ho Hr] Hl]. apply later_grows; [done | by rewrite Ho |]. intros Hg.
  split; [by apply Hi | done].
Qed.

#[export] Instance grows_keeps : PromoteKeeps grows.
Proof.
  split; [split; [apply _ | ..] | |]; intros; try (apply stays_grows; auto with kept; fail).
  - apply stays_grows; [| apply ps_intact_exists]. intros g. destruct (ps_exists id g) as [r g'] eqn:E.
    by apply ps_exists_spec in E as ((Ho & _ & Hr) & Hl & _).
  - intros g. pose proof (ps_intact_put _ _ _ H g) as Hi. destruct (ps_put id kind body g) as [r g'] eqn:E. cbn [snd] in *.
    pose proof (ps_put_later _ _ _ _ _ _ H E) as Hl. apply ps_put_spec in E as (_ & Hr & Ho); [| done].
    apply later_grows; [done | | auto]. destruct Ho as [-> | [-> _]]; [apply map_union_subseteq_l | done].
Qed.

(** ** Whom a failure blames *)

(** A walk's failure under a promotion is that of a backfill. *)
Definition backfills {A} (r : result PE A) : Prop :=
  match r with Err (PWalk e) => expects_commit (Err e : result WE A) | _ => True end.

Definition backfilling {A} (f : PM A) : Prop := forall g, backfills (f g).1.

Lemma backfilling_bind {A B} (f : PM A) (k : A -> PM B) :
  backfilling f -> (forall a, backfilling (k a)) -> backfilling (se_bind f k).
Proof.
  intros Hf Hk g. unfold se_bind. specialize (Hf g). destruct (f g) as [[a | e] g1]; [apply Hk |].
  by destruct e.
Qed.

Lemma backfilling_lift {A E} (h : E -> PE) (f : SE G E A) :
  (forall e, backfills (Err (h e) : result PE A)) -> backfilling (se_map_err h f).
Proof. intros Hh g. unfold se_map_err. destruct (f g) as [[a | e] g1]; [done | apply Hh]. Qed.

Lemma backfilling_children {A} id kind body (k : list Oid -> PM A) :
  (forall cs, backfilling (k cs)) -> backfilling (se_bind (se_lift (object_children id kind body)) k).
Proof.
  intros Hk. apply backfilling_bind; [| done]. intros g. unfold se_lift. cbn [fst].
  destruct (object_children id kind body) eqn:E; [done |]. by apply children_err in E as [? ->].
Qed.

Lemma backfilling_validate_loop fuel staged stack done_ post :
  backfilling (validate_loop fuel staged stack done_ post).
Proof.
  revert stack done_ post. induction fuel as [| fuel IH]; intros [| [oid by_ | oid kind body] stack] done_ post;
    cbn [validate_loop]; try (intros ?; exact I); [| apply IH].
  case_decide; [apply IH |]. apply backfilling_bind; [by apply backfilling_lift |].
  intros []; [apply IH |]. apply backfilling_bind; [intros g; cbn; by destruct (staged_read staged oid) |].
  intros [[kind body] |]; [| intros ?; exact I]. apply backfilling_children. intros. apply IH.
Qed.

Lemma backfilling_put_group kind l acc : backfilling (put_group kind l acc).
Proof.
  revert acc. induction l as [| [[x k] b] l IH]; intros acc; cbn [put_group]; [intros ?; exact I |].
  apply backfilling_bind; [by apply backfilling_lift | intros; apply IH].
Qed.

Lemma backfilling_extend_graph fuel l acc : backfilling (extend_graph fuel l acc).
Proof.
  assert (forall ps n, backfilling (max_generation fuel ps n)) as Hmax.
  { induction ps as [| q ps IH]; intros n; cbn [max_generation]; [intros ?; exact I |].
    apply backfilling_bind; [| intros; apply IH]. intros g. unfold se_map_err.
    pose proof (get_commit_info_expects fuel q g) as H. by destruct (get_commit_info fuel q g) as [[] ?]. }
  revert acc. induction l as [| [[x k] b] l IH]; intros acc; cbn [extend_graph]; [intros ?; exact I |].
  apply backfilling_bind; [intros g; cbn; by destruct (commit_ref b (oid_kind x)) |]. intros [t ps].
  apply backfilling_bind; [apply Hmax |]. intros n.
  apply backfilling_bind; [by apply backfilling_lift | intros; apply IH].
Qed.

Lemma promotion_backfills fuel gfuel staged tips : backfilling (validate_and_promote fuel gfuel staged tips).
Proof.
  apply backfilling_bind; [apply backfilling_validate_loop |]. intros post.
  apply backfilling_bind; [repeat (apply backfilling_bind; [apply backfilling_put_group | intros]); apply backfilling_put_group |].
  intros promoted. apply backfilling_bind; [apply backfilling_extend_graph |]. intros commits.
  apply backfilling_bind; [by apply backfilling_lift |]. intros. by intros ?.
Qed.

Lemma stable_safe g g' :
  ws_objects g' = ws_objects g -> ps_later g g' -> crash_safe g -> crash_safe g'.
Proof. intros Ho Hl [Hc Hs]. split; [by rewrite Ho |]. intros s [-> | ?]%Hl; [by rewrite Ho | auto]. Qed.

Lemma flush_spec g :
  let '(r, g') := (se_map_err PStore ws_flush : PM unit) g in
  ws_same g g' /\ ps_later g g'
  /\ match r with
     | Ok _ => forall s, ps_recover g' s -> s = ws_objects g'
     | Err e => exists e', e = PStore e'
     end.
Proof.
  unfold se_map_err. destruct (ws_flush g) as [r g'] eqn:E.
  split; [by eapply ws_flush_spec |]. pose proof (wk_flush (P := ps_stays) g) as [_ Hl]. rewrite E in Hl.
  split; [done |]. destruct r as [[] | e]; cbn; [by eapply ps_flush | by eexists].
Qed.

(** ** The objects after the writes *)

Lemma ids_perm (l l' : list Entry) : l ≡ₚ l' -> ids l ≡ₚ ids l'.
Proof. intros H. unfold ids. by rewrite H. Qed.

Lemma write_order_perm post : write_order post ≡ₚ post.
Proof. apply group_perm. Qed.

(** Some of a plan's entries, written. *)
Lemma written_between m p tips post l :
  plan m p tips post -> l `prefix_of` write_order post ->
  m ⊆ m ∪ entries_map l /\ m ∪ entries_map l ⊆ m ∪ p.
Proof.
  intros (Hnd & _ & Hp & _) [l' Hl]. split; [apply map_union_subseteq_l |].
  apply map_union_mono_l, map_subseteq_spec. intros x kb Hx.
  assert (NoDup (ids l)) as Hndl.
  { apply (NoDup_app (ids l) (ids l')). unfold ids. rewrite <- map_app, <- Hl.
    change (NoDup (ids (write_order post))). by rewrite (ids_perm _ _ (write_order_perm post)). }
  apply entries_map_lookup in Hx as (e & He & <- & ->); [| done].
  apply (Hp e). rewrite <- (write_order_perm post), Hl. apply elem_of_app. by left.
Qed.

Lemma commit_at_weaken m m' x c : m ⊆ m' -> commit_at m x = Some c -> commit_at m' x = Some c.
Proof.
  unfold commit_at. intros Hsub. destruct (m !! x) as [kb |] eqn:E; [| done].
  by rewrite (lookup_weaken _ _ _ _ E Hsub).
Qed.

Lemma graph_good_weaken m m' graph D :
  m ⊆ m' -> graph_good True m graph D -> graph_good True m' graph D.
Proof.
  intros Hsub Hg x Hx. destruct (Hg x Hx) as (r & Hl & Hc & Hr). exists r.
  split; [done | split; [by eapply commit_at_weaken | done]].
Qed.

Lemma ranked_weaken m m' rank : m ⊆ m' -> ranked m' rank -> ranked m rank.
Proof. intros Hsub Hr x t ps Hc. eapply Hr. by eapply commit_at_weaken. Qed.

Lemma graph_fuel_mono m m' : m ⊆ m' -> graph_fuel m <= graph_fuel m'.
Proof.
  intros Hsub. unfold graph_fuel, cost. apply le_n_S.
  transitivity (sum_list (visit_cost m' ∅ <$> (map_to_list m).*1)).
  - apply sum_list_mono. intros x. unfold visit_cost. case_decide; [done |].
    destruct (commit_at m x) as [[t ps] |] eqn:E; [| lia]. by rewrite (commit_at_weaken _ _ _ _ Hsub E).
  - apply sum_list_submseteq, fmap_submseteq, map_to_list_submseteq, Hsub.
Qed.

Lemma plan_commits m p tips post e o :
  plan m p tips post -> e ∈ group KCommit post -> o = m ∪ entries_map (write_order post) ->
  exists t ps, commit_at o e.1.1 = Some (t, ps) /\ commit_ref e.2 (oid_kind e.1.1) = Ok (t, ps).
Proof.
  intros (Hnd & Hids & Hp & _) He ->. pose proof (group_kind _ _ _ He) as Hk.
  apply list_elem_of_filter in He as [_ He].
  destruct (Hp e He) as [_ [cs Hcs]]. rewrite Hk in Hcs. unfold object_children in Hcs.
  destruct (commit_ref e.2 (oid_kind e.1.1)) as [[t ps] | err] eqn:E; [| done].
  exists t, ps. split; [| done]. unfold commit_at.
  assert ((m ∪ entries_map (write_order post)) !! e.1.1 = Some (KCommit, e.2)) as ->; [| by rewrite E].
  rewrite lookup_union_r by (apply Hids, elem_of_ids; by exists e).
  apply entries_map_lookup; [by rewrite (ids_perm _ _ (write_order_perm post)) |].
  exists e. split; [by rewrite write_order_perm | by rewrite Hk].
Qed.

(** ** Correctness *)

(** C13: connectivity validation.  It ends within the stated bound and writes
    nothing.  It succeeds with exactly the objects the tips need and storage
    lacks, once each, as the pack stages them, every one after all objects it
    refers to that are not yet committed; so every object the tips need is
    committed or listed.  A rejection is truthful: the missing object it names
    is in neither place and is referred to as reported, the undecodable one is
    needed and does not decode. *)
Theorem validate_correct fuel rank staged tips g :
  acyclic (staged_objects staged) rank -> validate_fuel (staged_objects staged) tips <= fuel ->
  let '(r, g') := validate fuel staged tips g in
  ws_same g g'
  /\ match r with
     | Ok post => plan (ws_objects g) (staged_objects staged) tips post
     | Err e => validation_fault (ws_objects g) (staged_objects staged) tips e
     end.
Proof.
  intros Hacyc Hf.
  pose proof (validate_spec _ _ tips rank staged fuel g eq_refl eq_refl Hacyc Hf) as H.
  destruct (validate fuel staged tips g) as [r g']. by destruct H as [[Hs _] H].
Qed.

(** The plan, written whole, leaves storage closed. *)
Lemma plan_closed m p tips post : plan m p tips post -> closed m -> closed (m ∪ entries_map (write_order post)).
Proof.
  intros (Hnd & _ & _ & Hfirst) Hc x kind body c Hx Hr. rewrite lookup_union_is_Some, entries_map_present.
  rewrite (ids_perm _ _ (write_order_perm post)).
  apply lookup_union_Some_raw in Hx as [Hx | [_ Hx]]; [left; by eapply Hc |].
  apply entries_map_lookup in Hx as (e & He & <- & [= -> ->]); [| by rewrite (ids_perm _ _ (write_order_perm post))].
  rewrite write_order_perm in He. apply list_elem_of_lookup in He as [i Hi].
  destruct (Hfirst i e c Hi) as [Hm | Hin]; [by destruct e as [[? ?] ?] | by left |].
  right. apply elem_of_ids in Hin as (e' & He' & <-). apply elem_of_ids. exists e'. split; [| done].
  by apply (subseteq_take i).
Qed.

(** The failures that may cut the writes short: those of the stores. *)
Definition cut_short {A} (r : result PE A) : Prop :=
  match r with Err (PStore _ | PObjects _ | PWalk _) => True | _ => False end.

Lemma max_generation_errors fuel ps n g e : (max_generation fuel ps n g).1 = Err e -> cut_short (Err e : result PE unit).
Proof.
  revert n g. induction ps as [| x ps IH]; intros n g; cbn [max_generation]; [done |].
  unfold se_bind, se_map_err. destruct (get_commit_info fuel x g) as [[r | e'] g1]; cbn [map_err]; [apply IH |].
  by intros [= <-].
Qed.

Lemma extend_graph_errors fuel l acc g e :
  (forall e, e ∈ l -> is_ok (commit_ref e.2 (oid_kind e.1.1)) = true) ->
  (extend_graph fuel l acc g).1 = Err e -> cut_short (Err e : result PE unit).
Proof.
  revert acc g. induction l as [| [[x k] b] l IH]; intros acc g Hl; cbn [extend_graph]; [done |].
  pose proof (Hl (x, k, b) ltac:(by left)) as Hb. cbn [fst snd] in Hb.
  destruct (commit_ref b (oid_kind x)) as [[t ps] |]; [| done]. unfold se_bind at 1, se_lift. cbn [map_err].
  unfold se_bind at 1. pose proof (max_generation_errors fuel ps 0%Z g) as Hmax.
  destruct (max_generation fuel ps 0%Z g) as [[n | e'] g1]; [| intros [= <-]; by apply Hmax].
  unfold se_bind at 1, se_map_err. destruct (ws_put_commit_graph x _ g1) as [[[] | e'] g2]; cbn [map_err]; [| by intros [= <-]].
  apply IH. intros e' He'. apply Hl. by right.
Qed.

Lemma plan_decodes m p tips post e :
  plan m p tips post -> e ∈ group KCommit post -> is_ok (commit_ref e.2 (oid_kind e.1.1)) = true.
Proof.
  intros Hp He. by destruct (plan_commits m p tips post e _ Hp He eq_refl) as (t & ps & _ & ->).
Qed.

Lemma promotion_safe fuel gfuel rank staged tips g :
  acyclic (staged_objects staged) rank -> validate_fuel (staged_objects staged) tips <= fuel ->
  named (staged_objects staged) -> ps_intact g -> crash_safe g ->
  let '(r, g') := validate_and_promote fuel gfuel staged tips g in
  (cut_short r -> layered (ws_objects g) (staged_objects staged)) -> crash_safe g'.
Proof.
  intros Hacyc Hf Hn Hi Hsafe. unfold validate_and_promote. unfold se_bind at 1.
  pose proof (kept_validate (fun g g' => ps_intact g -> ps_intact g') fuel staged tips g) as Hi1.
  pose proof (validate_spec _ _ tips rank staged fuel g eq_refl eq_refl Hacyc Hf) as H.
  destruct (validate fuel staged tips g) as [[post | e] g1]; destruct H as [[Hs1 Hl1] Hplan];
    (assert (crash_safe g1) as Hsafe1 by (eapply stable_safe; [apply Hs1 | done..])); [| by intros _].
  specialize (Hi1 Hi). cbn [snd] in Hi1. unfold se_bind at 1.
  pose proof (promote_objects_writes post g1 (plan_fitting _ _ _ _ Hn Hplan)) as H.
  destruct (promote_objects post g1) as [rp g2]. destruct H as (_ & _ & Hs2 & l & _ & Ho2 & Hrp).
  destruct (Hs2 Hi1) as [_ Hw]. rewrite (proj1 Hs1) in Hw, Ho2.
  assert (layered (ws_objects g) (staged_objects staged) -> crash_safe g2) as Hsafe2.
  { intros Hlay. apply Hw; [| done]. by eapply write_order_ready. }
  destruct rp as [promoted | e]; [destruct Hrp as [-> _] | destruct Hrp as [o ->]; intros Hlay; apply Hsafe2, Hlay, I].
  unfold se_bind at 1. pose proof (kept_extend_graph ps_stays gfuel (group KCommit post) [] g2 : ps_stays _ _) as H.
  pose proof (fun e => extend_graph_errors gfuel (group KCommit post) [] g2 e (fun e' => plan_decodes _ _ _ _ e' Hplan)) as Herr.
  destruct (extend_graph gfuel (group KCommit post) [] g2) as [[commits | e] g3]; destruct H as [[Ho3 _] Hl3].
  2: { specialize (Herr e eq_refl). intros Hlay. eapply stable_safe; [done.. |]. by apply Hsafe2, Hlay. }
  unfold se_bind. pose proof (flush_spec g3) as H.
  destruct (se_map_err PStore ws_flush g3) as [[[] | e] g4]; destruct H as (Hs4 & Hl4 & Hend); cbn [snd] in *.
  - intros _. assert (closed (ws_objects g4)) as Hc.
    { rewrite (proj1 Hs4), Ho3, Ho2. eapply plan_closed; [exact Hplan |]. exact (proj1 Hsafe). }
    split; [done |]. by intros s ->%Hend.
  - destruct Hend as [e' ->]. intros Hlay. eapply stable_safe; [apply Hs4 | done |].
    eapply stable_safe; [done.. |]. by apply Hsafe2, Hlay.
Qed.

(** C14: promotion is crash-safe.  If storage is intact and closed under
    references, and so is every state a crash would have left of it, then both
    remain true when the promotion succeeds, whatever the pack, and when
    validation rejects it.  When a write, a read or a flush fails on the way,
    they remain true if no new object refers to a new object of a later kind
    (blobs, trees, commits, tags): the write order then never exposes an object
    before what it refers to.  Nothing in the code makes packs respect that
    order, and [promote_kind_gap] is one that does not. *)
Theorem promote_crash_safe fuel gfuel rank staged tips g :
  acyclic (staged_objects staged) rank -> validate_fuel (staged_objects staged) tips <= fuel ->
  named (staged_objects staged) -> ps_intact g -> crash_safe g ->
  let '(r, g') := validate_and_promote fuel gfuel staged tips g in
  match r with
  | Ok _ | Err (PStaged _ | PDecode _ _ | Connectivity _ _ | POutOfFuel) => crash_safe g'
  | Err (PStore _ | PObjects _ | PWalk _) => layered (ws_objects g) (staged_objects staged) -> crash_safe g'
  end.
Proof.
  intros Ha Hf Hn Hi Hs. pose proof (promotion_safe fuel gfuel rank staged tips g Ha Hf Hn Hi Hs) as H.
  destruct (validate_and_promote fuel gfuel staged tips g) as [[pr | []] g']; try (by apply H); intros Hlay; by apply H.
Qed.

(** What a promotion that ended well has left in [g']. *)
Definition promotion_done (m p : Objects) (tips : list Oid) (pr : Promotion Oid) (g' : G) : Prop :=
  NoDup (promoted pr)
  /\ (forall x, x ∈ promoted pr <-> needed m p tips x /\ m !! x = None)
  /\ (forall x, ws_objects g' !! x = if decide (x ∈ promoted pr) then p !! x else m !! x)
  /\ (forall x, needed m p tips x -> is_Some (ws_objects g' !! x))
  /\ (forall s, ps_recover g' s -> s = ws_objects g')
  /\ (forall x, x ∈ promoted_commits pr <-> x ∈ promoted pr /\ kind_at p x = Some KCommit)
  /\ (forall x, x ∈ promoted_commits pr -> exists r, record_of g' x r).

Lemma promotion_done_intro m p tips post g' :
  plan m p tips post -> ws_objects g' = m ∪ entries_map (write_order post) -> graph_wf True g' ->
  (forall s, ps_recover g' s -> s = ws_objects g') ->
  (forall x, x ∈ ids (group KCommit post) -> x ∈ dom (ws_graph g')) ->
  promotion_done m p tips (mkPromotion (ids (write_order post)) (ids (group KCommit post))) g'.
Proof.
  intros (Hnd & Hids & Hp & _) Ho Hwf Hrec Hd.
  assert (ids (write_order post) ≡ₚ ids post) as Hperm by apply ids_perm, write_order_perm.
  assert (forall x, ws_objects g' !! x = if decide (x ∈ ids (write_order post)) then p !! x else m !! x) as Hlook.
  { intros x. rewrite Ho. case_decide as Hx; rewrite Hperm in Hx.
    - pose proof Hx as [_ Hm]%Hids. rewrite lookup_union_r by done.
      apply elem_of_ids in Hx as (e & He & <-). rewrite (proj1 (Hp e He)).
      apply entries_map_lookup; [by rewrite Hperm |]. exists e. by rewrite write_order_perm.
    - apply lookup_union_l. apply eq_None_not_Some. rewrite entries_map_present. by rewrite Hperm. }
  unfold promotion_done. cbn [promoted promoted_commits].
  split; [by rewrite Hperm | split; [intros x; by rewrite Hperm | split; [done | split; [| split; [done | split]]]]].
  - intros x Hn. rewrite Hlook. destruct (m !! x) as [kb |] eqn:E.
    + rewrite decide_False; [by eexists |]. rewrite Hperm. intros [_ ?]%Hids. congruence.
    + assert (x ∈ ids post) as Hx by (by apply Hids). rewrite decide_True by (by rewrite Hperm).
      apply elem_of_ids in Hx as (e & He & <-). rewrite (proj1 (Hp e He)). by eexists.
  - intros x. rewrite Hperm, !elem_of_ids. unfold kind_at. split.
    + intros (e & He & <-). pose proof (group_kind _ _ _ He) as Hk. apply list_elem_of_filter in He as [_ He].
      split; [by exists e |]. by rewrite (proj1 (Hp e He)), <- Hk.
    + intros [(e & He & <-) Hk]. rewrite (proj1 (Hp e He)) in Hk. injection Hk as Hk. exists e.
      split; [| done]. by apply list_elem_of_filter.
  - intros x Hx%Hd. destruct (Hwf x Hx) as (r & Hl & Hc & _). by exists r.
Qed.

Lemma promotion_spec fuel gfuel rank crank staged tips g :
  acyclic (staged_objects staged) rank -> validate_fuel (staged_objects staged) tips <= fuel ->
  ranked (ws_objects g ∪ staged_objects staged) crank ->
  graph_fuel (ws_objects g ∪ staged_objects staged) <= gfuel ->
  named (staged_objects staged) -> graph_wf True g ->
  let '(r, g') := validate_and_promote fuel gfuel staged tips g in
  graph_wf True g' /\ ws_objects g ⊆ ws_objects g'
  /\ match r with
     | Ok pr => promotion_done (ws_objects g) (staged_objects staged) tips pr g'
     | Err (PStore _) | Err (PObjects _) => True
     | Err (PWalk e) => fault (ws_objects g') e
     | Err e => ws_same g g' /\ validation_fault (ws_objects g) (staged_objects staged) tips e
     end.
Proof.
  intros Hacyc Hf Hr Hgf Hn Hwf. set (m := ws_objects g) in *. set (p := staged_objects staged) in *.
  unfold validate_and_promote. unfold se_bind at 1.
  pose proof (validate_spec m p tips rank staged fuel g eq_refl eq_refl Hacyc Hf) as H.
  destruct (validate fuel staged tips g) as [[post | e] g1]; destruct H as [[Hs1 Hl1] Hplan].
  2: { split; [unfold graph_wf; destruct Hs1 as (-> & -> & _); done | split; [by rewrite (proj1 Hs1) |]].
       by destruct e. }
  destruct Hs1 as (Ho1 & Hg1 & _). unfold se_bind at 1.
  pose proof (promote_objects_writes post g1 (plan_fitting _ _ _ _ Hn Hplan)) as H.
  destruct (promote_objects post g1) as [rp g2]. destruct H as (Hg2 & _ & _ & l & Hl & Ho2 & H).
  rewrite Ho1 in Ho2. fold m in Ho2. destruct (written_between _ _ _ _ _ Hplan Hl) as [Hlow Hhigh].
  rewrite <- Ho2 in Hlow, Hhigh.
  assert (graph_wf True g2) as Hwf2.
  { unfold graph_wf. rewrite Hg2, Hg1. by apply (graph_good_weaken m). }
  destruct rp as [promoted | e]; [| destruct H as [o ->]; done]. destruct H as [-> ->].
  unfold se_bind at 1.
  pose proof (extend_graph_spec _ crank gfuel (ranked_weaken _ _ _ Hhigh Hr)
    (Nat.le_trans _ _ _ (graph_fuel_mono _ _ Hhigh) Hgf) (group KCommit post) [] g2 eq_refl Hwf2
    (fun e He => plan_commits _ _ _ _ e _ Hplan He Ho2)) as H.
  destruct (extend_graph gfuel (group KCommit post) [] g2) as [[commits | e] g3];
    destruct H as [(Ho3 & _ & Hwf3 & _) H].
  2: { rewrite <- Ho3 in Hlow, H. split; [done | split; [done |]].
       destruct e; try done; by destruct H as (e' & [=] & ?); simplify_eq. }
  destruct H as [-> Hd]. unfold se_bind. pose proof (flush_spec g3) as H.
  destruct (se_map_err PStore ws_flush g3) as [[[] | e] g4]; destruct H as ((Ho4 & Hg4 & _) & _ & H);
    (assert (graph_wf True g4) as Hwf4 by (unfold graph_wf; by rewrite Ho4, Hg4));
    (split; [done | split; [by rewrite Ho4, Ho3 |]]); [| by destruct H as [? ->]].
  apply promotion_done_intro; [done | by rewrite Ho4, Ho3 | done | done |].
  intros x Hx. rewrite Hg4. by apply Hd.
Qed.

(** C15: promotion.  On a sound commit graph and an acyclic history it ends,
    keeps the graph sound and only adds objects.  Success means: exactly the
    missing objects were written, as staged; every object the tips need is in
    storage; a crash from here on loses nothing; and each new commit has its
    record in the graph.  A push that fails validation has changed nothing,
    and past it only a store's failure, or an object that storage cannot give
    a generation to, is reported. *)
Theorem promote_correct fuel gfuel rank crank staged tips g :
  acyclic (staged_objects staged) rank -> validate_fuel (staged_objects staged) tips <= fuel ->
  ranked (ws_objects g ∪ staged_objects staged) crank ->
  graph_fuel (ws_objects g ∪ staged_objects staged) <= gfuel ->
  named (staged_objects staged) -> graph_wf True g ->
  let '(r, g') := validate_and_promote fuel gfuel staged tips g in
  graph_wf True g' /\ ws_objects g ⊆ ws_objects g'
  /\ match r with
     | Ok pr => promotion_done (ws_objects g) (staged_objects staged) tips pr g'
     | Err (PStore _) | Err (PObjects _) => True
     | Err (PWalk e) => fault (ws_objects g') e
     | Err e => ws_same g g' /\ validation_fault (ws_objects g) (staged_objects staged) tips e
     end.
Proof. apply promotion_spec. Qed.

End promote.

(** ** A concrete store

    In memory, remembering every state since the last flush, and failing once
    its budget of writes is spent. *)
Module MemPromote.

Abbreviation Objects := (gmap HexOid.t (Kind * bytes)).

Record world : Type := mkWorld { mem : MemWalk.world HexOid.t; past : list Objects; budget : nat }.

Definition lift {E A} (f : SE (MemWalk.world HexOid.t) E A) : SE world E A := fun g =>
  let '(r, w) := f (mem g) in (r, mkWorld w (past g) (budget g)).

Definition put (id : HexOid.t) (kind : Kind) (body : bytes) : SE world unit unit := fun g =>
  match budget g with
  | O => (Err tt, g)
  | S n =>
      let w := MemWalk.mkWorld (MemWalk.objects (mem g) ∪ {[id := (kind, body)]}) (MemWalk.graph (mem g))
                 (MemWalk.refs (mem g)) in
      (Ok tt, mkWorld w (MemWalk.objects w :: past g) n)
  end.

#[refine, export] Instance walk : WalkStore HexOid.t Empty_set unit world := {|
  ws_objects g := MemWalk.objects (mem g);
  ws_graph g := MemWalk.graph (mem g);
  ws_refs g := MemWalk.refs (mem g);
  ws_get_commit_graph id := lift (ws_get_commit_graph (WalkStore := MemWalk.lib) id);
  ws_put_commit_graph id rec := lift (ws_put_commit_graph (WalkStore := MemWalk.lib) id rec);
  ws_get_ref n := lift (ws_get_ref (WalkStore := MemWalk.lib) n);
  ws_list_refs := lift (ws_list_refs (WalkStore := MemWalk.lib));
  ws_flush := fun g => (Ok tt, mkWorld (mem g) [MemWalk.objects (mem g)] (budget g));
  ws_get id := fun g => (Ok (MemWalk.objects (mem g) !! id), g);
  ws_size id := fun g =>
    (Ok ((fun kb => (kb.1, Z.of_nat (length kb.2))) <$> MemWalk.objects (mem g) !! id), g);
|}.
Proof.
  - intros id g r g' [= <- <-]. split; [done |]. by intros v [= <-].
  - intros id rec g r g' [= <- <-]. cbn. eauto 6.
  - intros n g r g' [= <- <-]. split; [done |]. by intros v [= <-].
  - intros g r g' [= <- <-]. split; [done |]. by intros v [= <-].
  - by intros g r g' [= <- <-].
  - intros id g r g' [= <- <-]. split; [done |]. by intros v [= <-].
  - intros id g r g' [= <- <-]. split; [done |]. by intros v [= <-].
Defined.

Definition recover (g : world) (s : Objects) : Prop := s ∈ past g.

#[refine, export] Instance lib : PromoteStore HexOid.t Empty_set unit world := {|
  ps_exists id := fun g => (Ok (bool_decide (is_Some (MemWalk.objects (mem g) !! id))), g);
  ps_put := put;
  ps_fits _ _ := True;
  ps_intact _ := True;
  ps_recover := recover;
|}.
Proof.
  - intros x g r g' [= <- <-]. split; [done | split; [by right |]]. by intros v [= <-].
  - split; [apply (stays_order (fun g => MemWalk.objects (mem g)) (fun g => MemWalk.refs (mem g)) recover) | ..].
    all: try (intros; intros g; split; [done |]; by right).
    intros g. split; [done |]. intros s ->%list_elem_of_singleton. by left.
  - split; [split; [done | by intros ??????] |..]; done.
  - done.
  - done.
  - intros x kind body g r g' _. unfold put. destruct (budget g); intros [= <- <-]; (split; [done | split; [done |]]).
    + right. split; [done | by exists tt].
    + by left.
  - intros x kind body g r g' _. unfold put. destruct (budget g); intros [= <- <-] _; [by right |].
    intros s [-> | ?]%elem_of_cons; [by left | by right].
  - intros g g' [= <-] s. by intros ->%list_elem_of_singleton.
Defined.

Definition objects : Objects := MemWalk.objects MemWalk.repo.
Abbreviation o := MemWalk.o.

(** Commit 1 with its tree and blob is committed; the rest is pushed. *)
Definition held : Objects := filter (fun kv => kv.1 ∈ [o x01; o x04; o x05]) objects.
Definition start (budget : nat) : world := mkWorld (MemWalk.mkWorld held ∅ ∅) [] budget.
Definition staged : StagedPack Objects := mkStaged (Some objects).
Definition tips : list HexOid.t := [o x06].

Definition rank (id : HexOid.t) : nat :=
  if decide (id = o x05) then 0 else if decide (id = o x04) then 1 else S (MemWalk.rank id).

Abbreviation promote budget :=
  (validate_and_promote (OB := PlainObjects.lib) (PS := lib) (PL := PlainPack.lib) (IoErr := Empty_set)
     20 20 staged tips (start budget)).
(** A checkable form of a property of all references in [p]. *)
Section checkable.
Context {StoreErr ObjErr IoErr PackErr InitErr PackDecodeErr : Type}.

Abbreviation kids x kb :=
  (object_children (OB := PlainObjects.lib) (StoreErr := StoreErr) (ObjErr := ObjErr) (IoErr := IoErr)
     (PackErr := PackErr) (InitErr := InitErr) (PackDecodeErr := PackDecodeErr) x kb.1 kb.2).

Definition all_refs_of (p : Objects) (f : HexOid.t -> Kind -> HexOid.t -> bool) : bool :=
  forallb (fun kv => match kids kv.1 kv.2 with
                     | Ok cs => forallb (f kv.1 kv.2.1) cs
                     | Err _ => true
                     end) (map_to_list p).

Lemma all_refs_of_sound p f x kind body c :
  all_refs_of p f = true -> p !! x = Some (kind, body) ->
  refers (OB := PlainObjects.lib) (StoreErr := StoreErr) (ObjErr := ObjErr) (IoErr := IoErr)
    (PackErr := PackErr) (InitErr := InitErr) (PackDecodeErr := PackDecodeErr) (x, kind, body) c ->
  f x kind c = true.
Proof.
  intros Hb Hx (cs & Hcs & Hc). unfold all_refs_of in Hb. rewrite forallb_forall in Hb.
  specialize (Hb (x, (kind, body)) ltac:(by apply list_elem_of_In, elem_of_map_to_list)).
  cbn [fst snd] in Hb, Hcs. rewrite Hcs in Hb. rewrite forallb_forall in Hb.
  by apply Hb, list_elem_of_In.
Qed.

End checkable.

Abbreviation all_refs := (all_refs_of (StoreErr := Empty_set) (ObjErr := unit) (IoErr := Empty_set) (PackErr := unit)
  (InitErr := Empty_set) (PackDecodeErr := unit)).
Abbreviation all_refs_sound := (all_refs_of_sound (StoreErr := Empty_set) (ObjErr := unit) (IoErr := Empty_set) (PackErr := unit)
  (InitErr := Empty_set) (PackDecodeErr := unit)).

Lemma objects_acyclic :
  acyclic (OB := PlainObjects.lib) (StoreErr := Empty_set) (ObjErr := unit) (IoErr := Empty_set)
    (PackErr := unit) (InitErr := Empty_set) (PackDecodeErr := unit)
    (staged_objects (PL := PlainPack.lib) staged) rank.
Proof.
  intros x c (kind & body & Hx & Hc). apply Nat.ltb_lt.
  by apply (all_refs_sound objects (fun x _ c => rank c <? rank x) x kind body).
Qed.

Lemma promote_run : (promote 3).1 = Ok (mkPromotion [o x02; o x03; o x06] [o x02; o x03]).
Proof. by vm_compute. Qed.

Lemma push_fuel_enough :
  validate_fuel (OB := PlainObjects.lib) (StoreErr := Empty_set) (ObjErr := unit) (IoErr := Empty_set)
    (PackErr := unit) (InitErr := Empty_set) (PackDecodeErr := unit) (staged_objects (PL := PlainPack.lib) staged) tips <= 20
  /\ graph_fuel (OB := PlainObjects.lib)
       (ws_objects (start 3) ∪ staged_objects (PL := PlainPack.lib) staged) <= 20.
Proof. split; vm_compute; lia. Qed.

Definition low (p : Objects) (_ : HexOid.t) (kind : Kind) (c : HexOid.t) : bool :=
  match p !! c with Some kb => level kb.1 <=? level kind | None => true end.

Lemma objects_low : all_refs objects (low objects) = true.
Proof. by vm_compute. Qed.

Lemma objects_layered :
  layered (OB := PlainObjects.lib) (StoreErr := Empty_set) (ObjErr := unit) (IoErr := Empty_set)
    (PackErr := unit) (InitErr := Empty_set) (PackDecodeErr := unit)
    (ws_objects (start 2)) (staged_objects (PL := PlainPack.lib) staged).
Proof.
  intros x kind body c kind' body' Hx Hc _ Hc'. apply Nat.leb_le.
  change (objects !! x = Some (kind, body)) in Hx. change (objects !! c = Some (kind', body')) in Hc'.
  pose proof (all_refs_sound objects (low objects) x kind body c objects_low Hx Hc) as H.
  unfold low in H. by rewrite Hc' in H.
Qed.

Lemma held_refs_closed : all_refs held (fun _ _ c => bool_decide (is_Some (held !! c))) = true.
Proof. by vm_compute. Qed.

Lemma start_safe n :
  crash_safe (OB := PlainObjects.lib) (PS := lib) (IoErr := Empty_set)
    (PackErr := unit) (InitErr := Empty_set) (PackDecodeErr := unit) (start n).
Proof.
  split; [| intros s Hs; by apply (elem_of_nil s) in Hs].
  intros x kind body c Hx Hc. change (held !! x = Some (kind, body)) in Hx.
  exact (proj1 (bool_decide_eq_true _) (all_refs_sound held _ x kind body c held_refs_closed Hx Hc)).
Qed.

Definition post : list (HexOid.t * Kind * bytes) :=
  [(o x02, KCommit, oid_bytes (o x04) ++ oid_bytes (o x01));
   (o x03, KCommit, oid_bytes (o x04) ++ oid_bytes (o x02));
   (o x06, KTag, oid_bytes (o x03))].

Abbreviation valid :=
  (validate (OB := PlainObjects.lib) (PS := lib) (PL := PlainPack.lib) (IoErr := Empty_set)
     20 staged tips (start 3)).

Lemma validate_run : valid.1 = Ok post.
Proof. by vm_compute. Qed.

(** A pack whose tree names a commit as a blob. *)
Definition odd_pack : Objects := list_to_map [
  (o x21, (KTree, [x01; x61] ++ oid_bytes (o x22)));
  (o x22, (KCommit, oid_bytes (o x23)));
  (o x23, (KTree, []))].

Definition odd_start : world := mkWorld (MemWalk.mkWorld ∅ ∅ ∅) [] 2.

End MemPromote.

Import MemPromote.

Abbreviation sample_plan m p tips post :=
  (plan (OB := PlainObjects.lib) (StoreErr := Empty_set) (ObjErr := unit) (IoErr := Empty_set)
    (PackErr := unit) (InitErr := Empty_set) (PackDecodeErr := unit) m p tips post).
Abbreviation sample_safe g :=
  (crash_safe (OB := PlainObjects.lib) (PS := MemPromote.lib) (IoErr := Empty_set)
    (PackErr := unit) (InitErr := Empty_set) (PackDecodeErr := unit) g).

Lemma validate_correct_witness : sample_plan (ws_objects (start 3)) objects tips post.
Proof.
  pose proof (validate_correct (OB := PlainObjects.lib) (PS := MemPromote.lib) (PL := PlainPack.lib)
    (IoErr := Empty_set) 20 rank staged tips (start 3) objects_acyclic (proj1 push_fuel_enough)) as H.
  pose proof validate_run as E. destruct valid as [r g]. cbn [fst] in E. subst r. exact (proj2 H).
Defined.

(** The third write fails; and with room for all of them the promotion ends. *)
Lemma promote_crash_safe_witness : sample_safe (promote 2).2 /\ sample_safe (promote 3).2.
Proof.
  pose proof (fun n => promote_crash_safe (OB := PlainObjects.lib) (PS := MemPromote.lib) (PL := PlainPack.lib)
    (IoErr := Empty_set) 20 20 rank staged tips (start n) objects_acyclic (proj1 push_fuel_enough)
    (fun _ _ _ => I) I (start_safe n)) as H. split.
  - assert (is_ok (promote 2).1 = false) as Hr by (by vm_compute). specialize (H 2).
    destruct (promote 2) as [[pr | []] g]; first [discriminate Hr | exact (H objects_layered) | exact H].
  - assert (is_ok (promote 3).1 = true) as Hr by (by vm_compute). specialize (H 3).
    destruct (promote 3) as [[pr | e] g]; [exact H | discriminate Hr].
Defined.

Lemma promote_correct_witness :
  promotion_done (OB := PlainObjects.lib) (PS := MemPromote.lib) (IoErr := Empty_set)
    (PackErr := unit) (InitErr := Empty_set) (PackDecodeErr := unit) (ws_objects (start 3)) objects tips
    (mkPromotion [o x02; o x03; o x06] [o x02; o x03]) (promote 3).2.
Proof.
  pose proof (promote_correct (OB := PlainObjects.lib) (PS := MemPromote.lib) (PL := PlainPack.lib)
    (IoErr := Empty_set) 20 20 rank MemWalk.rank staged tips (start 3) objects_acyclic (proj1 push_fuel_enough)
    ltac:(apply ranked_b_sound; vm_compute; reflexivity) (proj2 push_fuel_enough)
    (fun _ _ _ => I) ltac:(intros x Hx; cbn in Hx; apply elem_of_dom in Hx as [r Hr]; discriminate Hr)) as H.
  pose proof promote_run as E. destruct (promote 3) as [r g]. cbn [fst snd] in *. subst r. exact (proj2 (proj2 H)).
Defined.

(** Without the order of kinds the writes are not crash-safe: nothing checks
    that a tree's blob entry names a blob, and a tree that names a commit is
    written before it. *)
Lemma promote_kind_gap :
  sample_safe odd_start
  /\ ~ sample_safe (validate_and_promote (OB := PlainObjects.lib) (PS := MemPromote.lib) (PL := PlainPack.lib)
          (IoErr := Empty_set) 20 20 (mkStaged (Some odd_pack)) [o x21] odd_start).2.
Proof.
  split.
  - split; [| intros s Hs; by apply (elem_of_nil s) in Hs]. intros x kind body c Hx. discriminate Hx.
  - intros [Hc _]. specialize (Hc (o x21) KTree ([x01; x61] ++ oid_bytes (o x22)) (o x22)).
    destruct Hc as [kb Hkb]; [by vm_compute | exists [o x22]; split; [by vm_compute | by left] |].
    vm_compute in Hkb. discriminate Hkb.
Qed.
