(* ===== verification/Repo.v ===== *)
(** * A repository as the protocol handlers see it

    The handlers work on the store, the object database and the walk's cache
    of one repository.  [RepoStore] adds to the interfaces of the walk and of
    promotion what the handlers ask for besides: ref listings under a prefix,
    compressed reads, and the compare-and-swap of a batch of refs, stated on
    the refs themselves.  One request is served at a time: the interface has
    no writes but its own. *)

From S2P Require Import Prelude Bytes GixHash Values Zlib Store GixObject Walk Graph Effects Promote.
From stdpp Require Import gmap strings sorting.
From Stdlib Require Import Lia.

Section updates.
Context {Oid : Type} {OL : OidLib Oid}.

Abbreviation Refs := (gmap bytes (RefTarget Oid)).

(** A command on the refs: judged by the ref it names, applied if accepted. *)
Definition apply_update (u : RefUpdate Oid) (refs : Refs) : RefOutcome * Refs :=
  let outcome := judge (ru_expected_old u) (refs !! ru_name u) in
  (outcome,
   match outcome with
   | Updated =>
       match ru_new u with
       | Some oid => <[ru_name u := Direct oid]> refs
       | None => delete (ru_name u) refs
       end
   | Rejected _ => refs
   end).

Fixpoint apply_updates (us : list (RefUpdate Oid)) (refs : Refs) : list RefUpdateResult * Refs :=
  match us with
  | [] => ([], refs)
  | u :: us' =>
      let '(outcome, refs1) := apply_update u refs in
      let '(rs, refs2) := apply_updates us' refs1 in
      (mkRefUpdateResult (ru_name u) outcome :: rs, refs2)
  end.

(** A batch lost to another one: every command of it is rejected. *)
Definition all_conflict (us : list (RefUpdate Oid)) : list RefUpdateResult :=
  map (fun u => mkRefUpdateResult (ru_name u) (Rejected REASON_CONFLICT)) us.

Lemma apply_updates_names us refs : rr_name <$> (apply_updates us refs).1 = ru_name <$> us.
Proof.
  revert refs. induction us as [| u us IH]; intros refs; cbn [apply_updates]; [done |].
  destruct (apply_update u refs) as [outcome refs1]. specialize (IH refs1).
  destruct (apply_updates us refs1) as [rs refs2]. cbn in *. by rewrite IH.
Qed.

Lemma all_conflict_names us : rr_name <$> all_conflict us = ru_name <$> us.
Proof. unfold all_conflict. by induction us as [| u us IH]; [done |]; cbn; f_equal. Qed.

(** The reasons a command is rejected for. *)
Definition known_reason (r : RefUpdateResult) : Prop :=
  match rr_outcome r with
  | Updated => True
  | Rejected reason => reason ∈ [REASON_NON_FAST_FORWARD; REASON_SYMBOLIC; REASON_CONFLICT]
  end.

Lemma apply_updates_reasons us refs : Forall known_reason (apply_updates us refs).1.
Proof.
  revert refs. induction us as [| u us IH]; intros refs; cbn [apply_updates]; [constructor |].
  unfold apply_update. set (refs1 := match judge _ _ with Updated => _ | Rejected _ => _ end).
  specialize (IH refs1). destruct (apply_updates us refs1) as [rs refs2]. constructor; [| done].
  unfold known_reason, judge. cbn [rr_outcome]. repeat case_match; set_solver.
Qed.

Lemma all_conflict_reasons us : Forall known_reason (all_conflict us).
Proof. unfold all_conflict. induction us; constructor; [cbn; set_solver | done]. Qed.

(** A batch leaves direct refs where they were or at targets it names. *)
Lemma apply_updates_targets us refs n oid :
  (apply_updates us refs).2 !! n = Some (Direct oid) ->
  refs !! n = Some (Direct oid) \/ exists u, u ∈ us /\ ru_new u = Some oid.
Proof.
  revert refs. induction us as [| u us IH]; intros refs; cbn [apply_updates]; [by left |].
  unfold apply_update. set (refs1 := match judge _ _ with Updated => _ | Rejected _ => _ end).
  specialize (IH refs1). destruct (apply_updates us refs1) as [rs refs2]. cbn [snd] in *.
  intros [H | (u' & Hu & Hn)]%IH; [| right; exists u'; split; [by right | done]].
  subst refs1. destruct (judge _ _); [| by left]. destruct (ru_new u) as [new |] eqn:En.
  - rewrite lookup_insert in H. case_decide; [| by left].
    simplify_eq. right. exists u. split; [by left | done].
  - left. by apply lookup_delete_Some in H as [_ H].
Qed.

(** A listing of the refs under a prefix: all of them, once each, in name
    order. *)
Definition listing (refs : Refs) (prefix : option bytes) (l : list (bytes * RefTarget Oid)) : Prop :=
  StronglySorted (fun a b => bytes_le a.1 b.1 = true) l /\ NoDup l.*1
  /\ forall n t, (n, t) ∈ l <-> refs !! n = Some t /\ starts_with (default [] prefix) n = true.

End updates.

Class RepoStore (Oid StoreErr ObjErr G : Type) `{PS : PromoteStore Oid StoreErr ObjErr G} {Zl : ZlibLib} : Type := {
  rs_list_refs : option bytes -> SE G StoreErr (list (bytes * RefTarget Oid));
  rs_read_compressed : Oid -> SE G ObjErr (option (Kind * Z * bytes));
  rs_update_refs : list (RefUpdate Oid) -> SE G StoreErr (list RefUpdateResult);

  rs_intact_list_refs : forall p, kept (fun g g' => ps_intact g -> ps_intact g') (rs_list_refs p);
  rs_intact_read : forall id, kept (fun g g' => ps_intact g -> ps_intact g') (rs_read_compressed id);
  rs_intact_update : forall us, kept (fun g g' => ps_intact g -> ps_intact g') (rs_update_refs us);
  rs_list_refs_spec : forall p g r g', rs_list_refs p g = (r, g') ->
    ws_same g g' /\ ps_later g g' /\ forall l, r = Ok l -> listing (ws_refs g) p l;
  rs_read_compressed_spec : forall id g r g', rs_read_compressed id g = (r, g') ->
    ws_same g g' /\ ps_later g g'
    /\ forall v, r = Ok v ->
         match v with
         | None => ws_objects g !! id = None
         | Some (kind, size, zlib) => exists body, ws_objects g !! id = Some (kind, body)
             /\ (ps_intact g -> inflate zlib size = Some body)
         end;
  rs_update_refs_spec : forall us g r g', rs_update_refs us g = (r, g') ->
    ws_objects g' = ws_objects g /\ ws_graph g' = ws_graph g /\ ps_later g g'
    /\ match r with
       | Ok rs => apply_updates us (ws_refs g) = (rs, ws_refs g')
                  \/ (rs = all_conflict us /\ ws_refs g' = ws_refs g)
       | Err _ => ws_refs g' = ws_refs g \/ ws_refs g' = (apply_updates us (ws_refs g)).2
       end;
}.

(** What the reads of a repository keep, and what everything on it does. *)
Class ReadKeeps {Oid StoreErr ObjErr G : Type} `{RS : RepoStore Oid StoreErr ObjErr G} (P : G -> G -> Prop) : Prop := {
  dk_walk :: WalkKeeps P;
  dk_list_refs p : kept P (rs_list_refs p);
  dk_read_compressed id : kept P (rs_read_compressed id);
}.

Class RepoKeeps {Oid StoreErr ObjErr G : Type} `{RS : RepoStore Oid StoreErr ObjErr G} (P : G -> G -> Prop) : Prop := {
  rk_read :: ReadKeeps P;
  rk_promote :: PromoteKeeps P;
  rk_update us : kept P (rs_update_refs us);
}.

(** What answering a fetch keeps: it looks things up, and records commits it
    parsed. *)
Class ServeKeeps {Oid StoreErr ObjErr DecodeError G : Type} {OL : OidLib Oid} {Zl : ZlibLib} {OB : ObjectLib Oid DecodeError}
    {WS : WalkStore Oid StoreErr ObjErr G} {PS : PromoteStore Oid StoreErr ObjErr G} {RS : RepoStore Oid StoreErr ObjErr G} (P : G -> G -> Prop) : Prop := {
  sk_history :: HistoryKeeps P;
  sk_list_refs p : kept P (rs_list_refs p);
  sk_read_compressed id : kept P (rs_read_compressed id);
}.

#[export] Instance read_serve {Oid StoreErr ObjErr DecodeError G : Type} {OL : OidLib Oid} {Zl : ZlibLib} {OB : ObjectLib Oid DecodeError}
    {WS : WalkStore Oid StoreErr ObjErr G} {PS : PromoteStore Oid StoreErr ObjErr G} {RS : RepoStore Oid StoreErr ObjErr G} (P : G -> G -> Prop) : ReadKeeps P -> ServeKeeps P.
Proof. intros DK. split; [apply _ | intros p; apply dk_list_refs | intros id; apply dk_read_compressed]. Qed.

Lemma repo_keeps_weaken {Oid StoreErr ObjErr G : Type} `{RS : RepoStore Oid StoreErr ObjErr G} (P Q : G -> G -> Prop) :
  RepoKeeps P -> PreOrder Q -> (forall g g', P g g' -> Q g g') -> RepoKeeps Q.
Proof.
  intros HP HQ Hsub. assert (HW : WalkKeeps Q) by exact (walk_keeps_weaken P Q _ HQ Hsub).
  split; [split; [done | |] | split; [done | |] |]; intros; apply (kept_weaken P Q _ Hsub).
  - apply dk_list_refs.
  - apply dk_read_compressed.
  - apply pk_exists.
  - by apply pk_put.
  - apply rk_update.
Qed.

#[export] Hint Extern 1 (ReadKeeps _) => apply _ : kept.
#[export] Hint Extern 1 (ServeKeeps _) => apply _ : kept.
#[export] Hint Extern 1 (kept _ (rs_list_refs _)) => apply sk_list_refs : kept.
#[export] Hint Extern 1 (kept _ (rs_read_compressed _)) => apply sk_read_compressed : kept.
#[export] Hint Resolve rk_update : kept.

Section keeps.
Context {Oid StoreErr ObjErr G : Type} {OL : OidLib Oid} {WS : WalkStore Oid StoreErr ObjErr G}.
Context {PS : PromoteStore Oid StoreErr ObjErr G} {Zl : ZlibLib} {RS : RepoStore Oid StoreErr ObjErr G}.

Definition intact_kept (g g' : G) : Prop := ps_intact g -> ps_intact g'.

#[export] Instance intact_keeps : RepoKeeps intact_kept.
Proof.
  split; [split; [exact ps_intact_walk | |] | exact intact_promotes |].
  - apply rs_intact_list_refs.
  - apply rs_intact_read.
  - apply rs_intact_update.
Qed.

(** What holds as long as storage is intact. *)
Definition while_intact (P : G -> G -> Prop) (g g' : G) : Prop := ps_intact g -> ps_intact g' /\ P g g'.

#[export] Instance while_intact_order (P : G -> G -> Prop) : PreOrder P -> PreOrder (while_intact P).
Proof.
  intros HP. split; [intros g Hi; by split |]. intros a b c H1 H2 [Hb Hab]%H1. destruct (H2 Hb) as [Hc Hbc].
  split; [done | by etransitivity].
Qed.

Lemma kept_while_intact {X} (P : G -> G -> Prop) (f : G -> X * G) :
  kept intact_kept f -> (forall g, ps_intact g -> P g (f g).2) -> kept (while_intact P) f.
Proof. intros Hi HP g Hg. split; [by apply Hi | by apply HP]. Qed.

(** Reads write nothing, and recover to nothing new. *)
#[export] Instance stays_keeps : ReadKeeps ps_stays.
Proof.
  split; [exact ps_walk | |].
  - intros p g. destruct (rs_list_refs p g) as [r g'] eqn:E.
    apply rs_list_refs_spec in E as ((Ho & _ & Hr) & Hl & _). done.
  - intros id g. destruct (rs_read_compressed id g) as [r g'] eqn:E.
    apply rs_read_compressed_spec in E as ((Ho & _ & Hr) & Hl & _). done.
Qed.

End keeps.

(** ** What serving a fetch keeps *)

Section served.
Context {Oid : Type} {OL : OidLib Oid} {Zl : ZlibLib}.
Context {StoreErr ObjErr DecodeError G : Type} {OB : ObjectLib Oid DecodeError}.
Context {WS : WalkStore Oid StoreErr ObjErr G} {PS : PromoteStore Oid StoreErr ObjErr G}.
Context {RS : RepoStore Oid StoreErr ObjErr G}.

(** Objects and refs stay, nothing recovers to anything new, and the commit
    graph stays exact. *)
Definition served (g g' : G) : Prop :=
  ps_stays g g' /\ (ps_intact g -> ps_intact g')
  /\ forall rank, ranked (ws_objects g) rank -> graph_wf True g -> graph_wf True g'.

#[export] Instance served_order : PreOrder served.
Proof.
  split; [intros g; split; [apply wk_order | done] |].
  intros a b c (S1 & I1 & G1) (S2 & I2 & G2). split; [exact (transitivity S1 S2) |]. split; [auto |].
  intros rank Hr Hw. apply (G2 rank); [| by apply (G1 rank)]. by destruct S1 as [[-> _] _].
Qed.

Lemma lookup_served {X} (f : G -> X * G) :
  kept ps_stays f -> kept intact_kept f -> (forall g, ws_same g (f g).2) -> kept served f.
Proof.
  intros Hs Hi Hw g. split; [apply Hs | split; [apply Hi |]]. intros rank _. unfold graph_wf.
  destruct (Hw g) as (-> & -> & _). done.
Qed.

#[export] Instance served_keeps : ServeKeeps served.
Proof.
  split; [split; [split; [apply _ | | |] |] | |]; intros.
  - apply lookup_served; [auto with kept.. |]. intros g. destruct (ws_get_ref n g) eqn:E. by apply ws_get_ref_spec in E as [? _].
  - apply lookup_served; [auto with kept.. |]. intros g. destruct (ws_get id g) eqn:E. by apply ws_get_spec in E as [? _].
  - apply lookup_served; [auto with kept.. |]. intros g. destruct (ws_size id g) eqn:E. by apply ws_size_spec in E as [? _].
  - intros g. split; [exact (kept_get_commit_info ps_stays fuel id g) | split; [exact (kept_get_commit_info intact_kept fuel id g) |]].
    intros rank Hr Hw. pose proof (get_commit_info_keeps True fuel rank id g Hr Hw) as H.
    by destruct (get_commit_info fuel id g) as [r g'], H.
  - apply lookup_served; [auto with kept.. |]. intros g. destruct (rs_list_refs p g) eqn:E.
    by apply rs_list_refs_spec in E as [? _].
  - apply lookup_served; [auto with kept.. |]. intros g. destruct (rs_read_compressed id g) eqn:E.
    by apply rs_read_compressed_spec in E as [? _].
Qed.

End served.

(** ** The concrete store of Promote.v, with these operations *)
Module MemRepo.

Abbreviation world := MemPromote.world.

Definition ref_le (a b : bytes * RefTarget HexOid.t) : Prop := bytes_le a.1 b.1 = true.

#[export] Instance ref_le_dec : RelDecision ref_le.
Proof. intros a b. unfold ref_le. apply _. Defined.

#[export] Instance ref_le_total : Total ref_le.
Proof. intros a b. apply bytes_le_total. Qed.

#[export] Instance ref_le_trans : Transitive ref_le.
Proof. intros a b c. apply bytes_le_trans. Qed.

Definition refs (g : world) : gmap bytes (RefTarget HexOid.t) := MemWalk.refs (MemPromote.mem g).

Definition list_refs (prefix : option bytes) (g : world) : list (bytes * RefTarget HexOid.t) :=
  merge_sort ref_le
    (filter (fun kv => starts_with (default [] prefix) kv.1 = true) (map_to_list (refs g))).

Lemma list_refs_listing prefix g : listing (refs g) prefix (list_refs prefix g).
Proof.
  unfold listing, list_refs. split; [apply (StronglySorted_merge_sort ref_le) | split].
  - rewrite (merge_sort_Permutation ref_le). apply NoDup_fst_filter, NoDup_fst_map_to_list.
  - intros n t. rewrite (merge_sort_Permutation ref_le), list_elem_of_filter, elem_of_map_to_list. tauto.
Qed.

Definition set_refs (refs : gmap bytes (RefTarget HexOid.t)) (g : world) : world :=
  MemPromote.mkWorld (MemWalk.mkWorld (MemWalk.objects (MemPromote.mem g)) (MemWalk.graph (MemPromote.mem g)) refs)
    (MemPromote.past g) (MemPromote.budget g).

Definition read_compressed (id : HexOid.t) (g : world) : option (Kind * Z * bytes) :=
  (fun kb => (kb.1, Z.of_nat (length kb.2), deflate (Zl := StoredZlib.lib) kb.2 6))
    <$> MemWalk.objects (MemPromote.mem g) !! id.

#[refine, export] Instance lib :
    RepoStore HexOid.t Empty_set unit world (PS := MemPromote.lib) (Zl := StoredZlib.lib) := {|
  rs_list_refs prefix := fun g => (Ok (list_refs prefix g), g);
  rs_read_compressed id := fun g => (Ok (read_compressed id g), g);
  rs_update_refs us := fun g =>
    let '(rs, refs') := apply_updates us (refs g) in (Ok rs, set_refs refs' g);
|}.
Proof.
  - done.
  - done.
  - done.
  - intros p g r g' [= <- <-]. split; [done | split; [by right |]].
    intros l [= <-]. apply list_refs_listing.
  - intros id g r g' [= <- <-]. split; [done | split; [by right |]].
    intros v [= <-]. unfold read_compressed. cbn [ws_objects MemPromote.walk].
    destruct (MemWalk.objects (MemPromote.mem g) !! id) as [[kind body] |]; [| done].
    exists body. split; [done |]. intros _. by apply (inflate_deflate (Zl := StoredZlib.lib)).
  - intros us g r g'. destruct (apply_updates us (refs g)) as [rs refs'] eqn:E. intros [= <- <-].
    split; [done | split; [done | split; [by right |]]]. by left.
Defined.

End MemRepo.
