(* ===== verification/Quiet.v ===== *)
(** * The store with one writer

    SlateDb.v lets other clients commit between any two calls.  One process
    writes a deployed database: then a call changes the contents only by its
    own write, which lands whole or not at all, and what a crash may leave is
    told apart from the contents now.  Here is what the operations of [Store]
    do to such a database. *)

From S2P Require Import Prelude Bytes GixHash Keys Values SlateDb Store GixObject Walk Effects Promote Repo.
From stdpp Require Import gmap strings.
From Stdlib Require Import Lia.

(** ** A database with one writer

    No other client commits, a failed write has landed whole or not at all, and
    what a crash may leave grows only by the newest contents; a successful
    flush leaves nothing but those. *)
Class QuietDb (W Txn DbError : Type) `{Sdb : SlateDb W Txn DbError} : Type := {
  q_recover : W -> Contents -> Prop;
  q_later : W -> W -> Prop := fun w w' => forall m, q_recover w' m -> m = view w' \/ q_recover w m;
  q_view : forall w, q_recover w (view w);

  q_get : forall k w, history (db_get k w).2 = history w /\ q_later w (db_get k w).2;
  q_scan : forall p w, history (db_scan_prefix p w).2 = history w /\ q_later w (db_scan_prefix p w).2;
  q_begin : forall w, history (db_begin w).2 = history w /\ q_later w (db_begin w).2;
  q_flush : forall w, history (db_flush w).2 = history w /\ q_later w (db_flush w).2
    /\ ((db_flush w).1 = Ok tt -> forall m, q_recover (db_flush w).2 m -> m = view w);
  q_put : forall k v d w, q_later w (db_put k v d w).2
    /\ match (db_put k v d w).1 with
       | Ok _ => exists c, history (db_put k v d w).2 = c :: history w
       | Err _ => history (db_put k v d w).2 = history w
                  \/ history (db_put k v d w).2 = <[k := v]> (view w) :: history w
       end;
  q_commit : forall t w, q_later w (txn_commit t w).2
    /\ match (txn_commit t w).1 with
       | Ok _ => exists c, history (txn_commit t w).2 = c :: history w
       | Err e => history (txn_commit t w).2 = history w
                  \/ (is_conflict e = false /\ (forall k, k ∈ txn_reads t -> view w !! k = txn_base t !! k)
                      /\ history (txn_commit t w).2 = overlay (txn_writes t) (view w) :: history w)
       end;
}.

Section quiet.
Context {Oid : Type} {OL : OidLib Oid} {W Txn DbError : Type} {Sdb : SlateDb W Txn DbError}.
Context {Qdb : QuietDb W Txn DbError}.

(** A step that commits [m], or keeps the contents [m]. *)
Definition wrote (m : Contents) (w w' : W) : Prop := view w' = m /\ q_later w w'.

(** A step that leaves the contents alone. *)
Definition still (w w' : W) : Prop := wrote (view w) w w'.

Lemma q_later_trans a b c : still a b -> q_later b c -> q_later a c.
Proof.
  intros [Hv Hl] H m [-> | [-> | Hm]%Hl]%H; [by left | right | by right].
  rewrite Hv. apply q_view.
Qed.

Lemma still_wrote m a b c : still a b -> wrote m b c -> wrote m a c.
Proof. intros Hs [Hv Hl]. split; [done | by eapply q_later_trans]. Qed.

#[export] Instance still_order : PreOrder still.
Proof.
  split.
  - intros w. split; [done |]. by right.
  - intros a b c Hs Hs'. pose proof Hs as [Hv _]. eapply still_wrote; [exact Hs |]. unfold still in Hs'. by rewrite Hv in Hs'.
Qed.

Lemma same_history_still w w' : history w' = history w -> q_later w w' -> still w w'.
Proof. intros E Hl. split; [| done]. unfold view. by rewrite E. Qed.

Lemma still_get k : kept still (db (db_get k)).
Proof. apply kept_map_err. intros w. destruct (q_get k w). by apply same_history_still. Qed.

Lemma still_scan p : kept still (db (db_scan_prefix p)).
Proof. apply kept_map_err. intros w. destruct (q_scan p w). by apply same_history_still. Qed.

Lemma still_flush : kept still flush.
Proof. apply kept_map_err. intros w. destruct (q_flush w) as (? & ? & _). by apply same_history_still. Qed.

Lemma still_begin : kept still (db db_begin).
Proof. apply kept_map_err. intros w. destruct (q_begin w). by apply same_history_still. Qed.

End quiet.

#[export] Hint Resolve still_get still_scan still_flush still_begin : kept.

Section reads.
Context {Oid : Type} {OL : OidLib Oid} {W Txn DbError : Type} {Sdb : SlateDb W Txn DbError}.
Context {Qdb : QuietDb W Txn DbError}.

Lemma still_decode_opt {A} (dec : bytes -> result ValueError A) v :
  kept still (decode_opt (S := W) (DbError := DbError) dec v).
Proof. unfold decode_opt. destruct v; keep. Qed.

Hint Resolve still_decode_opt : kept.

Lemma still_get_object repo (oid : Oid) : kept still (get_object repo oid).
Proof. unfold get_object. keep. Qed.

Lemma still_object_exists repo (oid : Oid) : kept still (object_exists repo oid).
Proof. unfold object_exists. keep. Qed.

Lemma still_get_ref repo n : kept still (get_ref (Oid := Oid) repo n).
Proof. unfold get_ref. keep. Qed.

Lemma still_list_refs repo p : kept still (list_refs (Oid := Oid) repo p).
Proof. unfold list_refs. keep. Qed.

Lemma still_get_commit_graph repo (oid : Oid) : kept still (get_commit_graph repo oid).
Proof. unfold get_commit_graph. keep. Qed.

Lemma still_get_meta repo n : kept still (get_meta repo n).
Proof. unfold get_meta. keep. Qed.

Hint Resolve still_get_meta : kept.

Lemma still_read_repo_id n : kept still (read_repo_id n).
Proof. unfold read_repo_id. keep. Qed.

Lemma still_read_repo_meta id : kept still (read_repo_meta id).
Proof. unfold read_repo_meta. keep. Qed.

Hint Resolve still_read_repo_id still_read_repo_meta : kept.

Lemma still_lookup_repo n : kept still (lookup_repo n).
Proof. unfold lookup_repo. keep. Qed.

End reads.

#[export] Hint Resolve still_get_object still_object_exists still_get_ref still_list_refs still_get_commit_graph
  still_lookup_repo still_read_repo_meta : kept.
(** ** Writes *)

Section writes.
Context {Oid : Type} {OL : OidLib Oid} {W Txn DbError : Type} {Sdb : SlateDb W Txn DbError}.
Context {Qdb : QuietDb W Txn DbError}.

Lemma wrote_same w w' : history w' = history w -> q_later w w' -> wrote (view w) w w'.
Proof. apply same_history_still. Qed.

Lemma view_of w c l : history w = c :: l -> view w = c.
Proof. apply view_cons. Qed.

Lemma still_refl w : wrote (view w) w w.
Proof. apply (reflexivity (R := still)). Qed.

(** A write lands whole or not at all, and has landed when it succeeds. *)
Lemma put_wrote k v d w r w' :
  db (db_put k v d) w = (r, w') -> wrote (<[k := v]> (view w)) w w' \/ (wrote (view w) w w' /\ exists e, r = Err e).
Proof.
  unfold db, se_map_err. destruct (db_put k v d w) as [r0 w0] eqn:E. intros [= <- <-].
  destruct (q_put k v d w) as [Hl Hh]. rewrite E in Hl, Hh. cbn [fst snd] in *. destruct r0 as [[] | e].
  - destruct Hh as [c Hh]. left. split; [| done]. destruct (db_put_ok _ _ _ _ _ E) as (l & Hl' & _).
    rewrite Hl' in Hh. injection Hh as _ ->. by rewrite (view_of _ _ _ Hl').
  - destruct Hh as [Hh | Hh]; [right | left].
    + split; [by apply wrote_same | by eexists].
    + split; [by apply view_of in Hh | done].
Qed.

(** A transaction over the current contents commits over them. *)
Lemma commit_wrote t w r w' :
  txn_commit t w = (r, w') ->
  (txn_valid t (view w) /\ wrote (txn_over t (view w)) w w' /\ forall e, r = Err e -> is_conflict e = false)
  \/ (wrote (view w) w w' /\ exists e, r = Err e).
Proof.
  intros E. destruct (q_commit t w) as [Hl Hh]. rewrite E in Hl, Hh. cbn [fst snd] in *. destruct r as [[] | e].
  - destruct Hh as [c Hh]. left. destruct (commit_over _ _ _ E) as (l & Hl' & _ & Hv).
    rewrite Hl' in Hh. injection Hh as _ ->. split; [done |]. split; [| done]. split; [| done].
    by apply view_of in Hl'.
  - destruct Hh as [Hh | (Hc & Hv & Hh)]; [right | left].
    + split; [by apply wrote_same | by eexists].
    + split; [exact Hv |]. split; [split; [by apply view_of in Hh | done] |]. by intros ? [= ->].
Qed.

(** A batch of ref updates. *)
Lemma update_refs_wrote repo us w r w' :
  update_refs (Oid := Oid) repo us w = (r, w') ->
  (exists rs m, cas_refs repo us (view w) = Ok (rs, m) /\ wrote m w w' /\ forall x, r = Ok x -> x = rs)
  \/ (wrote (view w) w w' /\ forall x, r = Ok x -> x = all_conflict us).
Proof.
  unfold update_refs. generalize UPDATE_REFS_ATTEMPTS as n. intros n. revert w.
  induction n as [| n IH]; intros w; cbn [update_refs_loop].
  { intros [= <- <-]. right. split; [apply still_refl |]. by intros x [= <-]. }
  unfold se_bind at 1. pose proof (still_begin w) as Hs.
  destruct (db db_begin w) as [[t | e] w1] eqn:Hb; cbn [snd] in Hs.
  2: { intros [= <- <-]. right. by split. }
  apply db_begin_ok in Hb as (_ & _ & Ht). destruct (stage_updates repo us t) as [staged t'] eqn:Est.
  unfold se_bind, se_lift. destruct staged as [rs | e]; [| intros [= <- <-]; by right].
  apply stage_updates_cas in Est as [_ Hcas].
  destruct (txn_commit t' w1) as [[[] | e] w2] eqn:Hc; apply commit_wrote in Hc as [(Hv & Hw & He) | [Hw [e0 He]]];
    try done.
  - intros [= <- <-]. left. exists rs, (txn_over t' (view w1)). rewrite <- (Hcas _ Hv), Ht, (proj1 Hs).
    split; [done |]. split; [| by intros x [= <-]]. eapply still_wrote; [exact Hs |]. by rewrite (proj1 Hs) in Hw.
  - rewrite (He e eq_refl). intros [= <- <-]. left. exists rs, (txn_over t' (view w1)).
    rewrite <- (Hcas _ Hv), Ht, (proj1 Hs). split; [done |]. split; [| done].
    eapply still_wrote; [exact Hs |]. by rewrite (proj1 Hs) in Hw.
  - assert (Hs2 : still w w2) by (etransitivity; [exact Hs | exact Hw]).
    destruct (is_conflict e); [| intros [= <- <-]; by right]. intros Hloop.
    specialize (IH _ Hloop). rewrite (proj1 Hs2) in IH.
    destruct IH as [(rs' & m & Hm & Hwm & Hr) | [Hwm Hr]]; [left; exists rs', m | right];
      (split; [done || by eapply still_wrote |]); [split; [by eapply still_wrote | done] | done].
Qed.

(** A creation: the repository was there, or its writes landed, or nothing
    did. *)
Lemma create_repo_wrote name w r w' :
  create_repo (Oid := Oid) name w = (r, w') ->
  (exists n, mapped (DbError := DbError) (view w) name = Ok None /\ counter (DbError := DbError) (view w) = Ok n
     /\ wrote (created (Oid := Oid) name n (view w)) w w'
     /\ forall meta, r = Ok meta -> meta = mkRepoMeta (mkRepoId n) Sha1 DEFAULT_BRANCH)
  \/ (wrote (view w) w w' /\ forall meta, r = Ok meta ->
        exists w1 w2, mapped (DbError := DbError) (view w) name = Ok (Some (rm_id meta))
          /\ still w w1 /\ read_repo_meta (rm_id meta) w1 = (Ok meta, w2)).
Proof.
  unfold create_repo. generalize CREATE_ATTEMPTS as k. intros k. revert w.
  induction k as [| k IH]; intros w; cbn [create_attempts].
  { intros [= <- <-]. right. split; [apply still_refl | done]. }
  unfold se_bind at 1. pose proof (still_begin w) as Hs.
  destruct (db db_begin w) as [[t | e] w1] eqn:Hb; cbn [snd] in Hs.
  2: { intros [= <- <-]. right. by split. }
  apply db_begin_ok in Hb as (_ & Hbase & Ht). destruct (stage_create name t) as [staged t'] eqn:Est.
  unfold se_bind, se_lift. destruct staged as [out | e]; [| intros [= <- <-]; by right].
  apply stage_create_spec in Est as [[Hb' _] Hcr]. destruct out as [id | n].
  - intros Hread. right. pose proof (still_read_repo_meta id w1) as Hs2. rewrite Hread in Hs2. cbn [snd] in Hs2.
    split; [exact (transitivity Hs Hs2) |]. intros meta ->.
    pose proof (read_repo_meta_id _ _ _ _ Hread) as [<- _]. exists w1, w'. split; [| done].
    rewrite <- (proj1 Hs), <- Hbase, <- (Ht (txn_base t)). apply Hcr. intros k' _. by rewrite Hb'.
  - destruct (txn_commit t' w1) as [[[] | e] w2] eqn:Hc; apply commit_wrote in Hc as [(Hv & Hw & He) | [Hw [e0 He]]];
      try done.
    + intros [= <- <-]. left. destruct (Hcr _ Hv) as (Hm & Hcnt & Hover). rewrite Ht, (proj1 Hs) in *.
      exists n. do 2 (split; [done |]). split; [| by intros meta [= <-]]. rewrite <- Hover. by eapply still_wrote.
    + rewrite (He e eq_refl). intros [= <- <-]. left. destruct (Hcr _ Hv) as (Hm & Hcnt & Hover).
      rewrite Ht, (proj1 Hs) in *. exists n. do 2 (split; [done |]). split; [| done]. rewrite <- Hover. by eapply still_wrote.
    + assert (Hs2 : still w w2) by (etransitivity; [exact Hs | exact Hw]).
      destruct (is_conflict e); [| intros [= <- <-]; by right]. intros Hloop.
      specialize (IH _ Hloop). rewrite (proj1 Hs2) in IH.
      destruct IH as [(n' & Hm & Hcnt & Hwm & Hr) | [Hwm Hr]].
      * left. exists n'. do 2 (split; [done |]). split; [by eapply still_wrote | done].
      * right. split; [by eapply still_wrote |]. intros meta Hmeta.
        destruct (Hr meta Hmeta) as (w3 & w4 & Hm & H3 & H4). exists w3, w4. split; [done |]. split; [| done].
        by etransitivity.
Qed.

End writes.

(** ** In memory *)

#[refine, export] Instance mem_quiet : QuietDb MemDb.W MemDb.txn MemDb.error (Sdb := MemDb.lib) := {|
  q_recover w m := m = view (SlateDb := MemDb.lib) w;
|}.
Proof.
  - done.
  - intros k w. split; [done |]. intros m ->. by left.
  - intros p w. split; [done |]. intros m ->. by left.
  - intros w. split; [done |]. intros m ->. by left.
  - intros w. split; [done | split]; [intros m ->; by left | done].
  - intros k v d w. split; [intros m ->; by left |]. cbn. by exists (<[k := v]> (MemDb.cur w)).
  - intros t w. split; [intros m ->; by left |]. cbn. unfold MemDb.commit.
    destruct (decide _); cbn; [by eexists | by left].
Defined.
