(* ===== verification/ObjectDb.v ===== *)
(** * Object content ([src/storage/blobs.rs], [src/storage/objectdb.rs])

    The façade over object content: records and small content in the store,
    blobs over the inline threshold in the object store beside it, all content
    deflated on the way in and inflated on the way out. *)

From S2P Require Import Prelude Bytes GixHash Keys Values Zlib SlateDb Store Quiet.
From stdpp Require Import gmap strings.
From Stdlib Require Import Lia.

(** ** The object store

    The library's [put], [get] and [head] on paths, as far as the program uses
    them; a failed [put] may or may not have landed. *)
Class BlobLib (B BlobErr : Type) : Type := {
  bl_objects : B -> gmap bytes bytes;
  bl_put : bytes -> bytes -> SE B BlobErr unit;
  bl_get : bytes -> SE B BlobErr bytes;
  bl_head : bytes -> SE B BlobErr unit;
  bl_is_not_found : BlobErr -> bool;
  bl_put_spec : forall p c b r b', bl_put p c b = (r, b') ->
    bl_objects b' = <[p := c]> (bl_objects b)
    \/ (bl_objects b' = bl_objects b /\ exists e, r = Err e);
  bl_get_spec : forall p b r b', bl_get p b = (r, b') ->
    bl_objects b' = bl_objects b /\ forall c, r = Ok c -> bl_objects b !! p = Some c;
  bl_head_spec : forall p b r b', bl_head p b = (r, b') ->
    bl_objects b' = bl_objects b
    /\ match r with
       | Ok _ => is_Some (bl_objects b !! p)
       | Err e => bl_is_not_found e = true -> bl_objects b !! p = None
       end;
}.

(** An object store in memory. *)
Module MemBlobs.

Inductive error : Set := NotFound.

#[refine, export] Instance lib : BlobLib (gmap bytes bytes) error := {|
  bl_objects b := b;
  bl_put p c := fun b => (Ok tt, <[p := c]> b);
  bl_get p := fun b => (ok_or (b !! p) NotFound, b);
  bl_head p := fun b => (match b !! p with Some _ => Ok tt | None => Err NotFound end, b);
  bl_is_not_found _ := true;
|}.
Proof.
  - intros p c b r b' [= <- <-]. by left.
  - intros p b r b' [= <- <-]. split; [done |]. intros c. by destruct (b !! p); cbn; [intros [= ->] |].
  - intros p b r b' [= <- <-]. split; [done |]. by destruct (b !! p).
Defined.

End MemBlobs.

Definition BLOBS_PREFIX : bytes := bs "blobs".

Section blobs.
Context {Oid : Type} {OL : OidLib Oid} {B BlobErr : Type} {Bl : BlobLib B BlobErr}.

(** [blobs/<xx>/<rest>] of the id's hex digits. *)
Definition blob_path (oid : Oid) : bytes :=
  let hex := oid_to_hex oid in
  BLOBS_PREFIX ++ [x2f] ++ take 2 hex ++ [x2f] ++ drop 2 hex.

Definition blob_put (oid : Oid) (content : bytes) : SE B BlobErr unit := bl_put (blob_path oid) content.

Definition blob_get (oid : Oid) : SE B BlobErr bytes := bl_get (blob_path oid).

Definition blob_exists (oid : Oid) : SE B BlobErr bool := fun b =>
  match bl_head (blob_path oid) b with
  | (Ok _, b) => (Ok true, b)
  | (Err err, b) => (if bl_is_not_found err then Ok false else Err err, b)
  end.

Lemma blob_path_inj (o p : Oid) : blob_path o = blob_path p -> o = p.
Proof.
  unfold blob_path. intros H. apply app_inv_head in H. injection H as H.
  assert (forall q : Oid, length (take 2 (oid_to_hex q)) = 2) as Hl.
  { intros q. rewrite length_take, oid_hex_len. destruct (oid_kind q); cbn; lia. }
  apply app_inj_1 in H as [H1 [= H2]]; [| by rewrite !Hl].
  assert (oid_to_hex o = oid_to_hex p) as H.
  { by rewrite <- (take_drop 2 (oid_to_hex o)), H1, H2, take_drop. }
  apply (inj Some). by rewrite <- !oid_hex_round, H.
Qed.

End blobs.

Inductive ObjectDbError (Oid DbError BlobErr : Type) : Type :=
  | OStore (e : StoreError DbError)
  | OBlob (e : BlobErr)
  | CorruptZlib (oid : Oid).
Arguments OStore {Oid DbError BlobErr}.
Arguments OBlob {Oid DbError BlobErr}.
Arguments CorruptZlib {Oid DbError BlobErr}.

Section objectdb.
Context {Oid : Type} {OL : OidLib Oid} {W Txn DbError : Type} {Sdb : SlateDb W Txn DbError}.
Context {B BlobErr : Type} {Bl : BlobLib B BlobErr} {Zl : ZlibLib}.

Abbreviation OE := (ObjectDbError Oid DbError BlobErr).
Abbreviation OM A := (SE (W * B) OE A).

(** The façade's settings; its two stores are the state. *)
Record ObjectDb : Type := mkObjectDb { inline_threshold : nat; compression_level : Z }.

Definition o_store {A} (m : SE W (StoreError DbError) A) : OM A := fun '(w, b) =>
  let '(r, w) := m w in (map_err OStore r, (w, b)).
Definition o_blob {A} (m : SE B BlobErr A) : OM A := fun '(w, b) =>
  let '(r, b) := m b in (map_err OBlob r, (w, b)).

Definition compress (db : ObjectDb) (content : bytes) : bytes := deflate content (compression_level db).

(** The record a write makes, an offloaded blob uploaded before it is returned. *)
Definition choose_record (db : ObjectDb) (oid : Oid) (kind : Kind) (body : bytes) : OM ObjectRecord :=
  let uncompressed_len := Z.of_nat (length body) in
  match kind with
  | KBlob =>
      if inline_threshold db <? length body then
        do! _ <- o_blob (blob_put oid (compress db body));
        se_ret (BlobPointer uncompressed_len)
      else se_ret (BlobInline uncompressed_len (compress db body))
  | KTree => se_ret (Tree uncompressed_len (compress db body))
  | KCommit => se_ret (Commit uncompressed_len (compress db body))
  | KTag => se_ret (Tag uncompressed_len (compress db body))
  end.

Definition odb_put (db : ObjectDb) (repo : RepoId) (oid : Oid) (kind : Kind) (body : bytes)
    (durability : Durability) : OM unit :=
  do! present <- o_store (object_exists repo oid);
  if present : bool then se_ret tt
  else
    do! record <- choose_record db oid kind body;
    o_store (put_object repo oid record durability).

(** A record's length and stream, fetched from the blob store if offloaded. *)
Definition record_stream (oid : Oid) (record : ObjectRecord) : OM (Z * bytes) :=
  match record with
  | BlobPointer size => do! stream <- o_blob (blob_get oid); se_ret (size, stream)
  | BlobInline n zlib | Tree n zlib | Commit n zlib | Tag n zlib => se_ret (n, zlib)
  end.

Definition odb_get (repo : RepoId) (oid : Oid) : OM (option (Kind * bytes)) :=
  do! record <- o_store (get_object repo oid);
  match record with
  | None => se_ret None
  | Some record =>
      let kind := record_kind record in
      do! (uncompressed_len, stream) <- record_stream oid record;
      do! content <- se_lift (ok_or (inflate stream uncompressed_len) (CorruptZlib oid));
      se_ret (Some (kind, content))
  end.

Definition read_compressed (repo : RepoId) (oid : Oid) : OM (option (Kind * Z * bytes)) :=
  do! record <- o_store (get_object repo oid);
  match record with
  | None => se_ret None
  | Some record =>
      let kind := record_kind record in
      do! (uncompressed_len, stream) <- record_stream oid record;
      se_ret (Some (kind, uncompressed_len, stream))
  end.

Definition object_size (repo : RepoId) (oid : Oid) : OM (option (Kind * Z)) :=
  do! record <- o_store (get_object repo oid);
  match record with
  | None => se_ret None
  | Some record => se_ret (Some (record_kind record, record_size record))
  end.

Definition odb_exists (repo : RepoId) (oid : Oid) : OM bool := o_store (object_exists repo oid).

(** ** What the stores hold

    [names] is the content each id names: ids are hashes of content, so one
    content each. *)
Section content.
Context (names : Oid -> Kind * bytes).

(** [record] and the blobs beside it give back the named content. *)
Definition holds (blobs : gmap bytes bytes) (oid : Oid) (record : ObjectRecord) : Prop :=
  record_wf record /\ record_kind record = (names oid).1
  /\ record_size record = Z.of_nat (length (names oid).2)
  /\ exists z, match record with
              | BlobPointer _ => blobs !! blob_path oid = Some z
              | BlobInline _ s | Tree _ s | Commit _ s | Tag _ s => z = s
              end /\ inflate z (record_size record) = Some (names oid).2.

Definition objects_ok (m : Contents) (blobs : gmap bytes bytes) : Prop :=
  forall repo oid v, repo_wf repo -> m !! object_key repo oid = Some v ->
    exists record, v = record_encode record /\ holds blobs oid record.

(** The content [m] stores under [oid]. *)
Definition stored (m : Contents) (repo : RepoId) (oid : Oid) : option (Kind * bytes) :=
  match m !! object_key repo oid with Some _ => Some (names oid) | None => None end.

Lemma o_store_inv {A} (f : SE W (StoreError DbError) A) w b r s' :
  o_store f (w, b) = (r, s') -> exists r0 w', f w = (r0, w') /\ r = map_err OStore r0 /\ s' = (w', b).
Proof. unfold o_store. destruct (f w) as [r0 w']. intros [= <- <-]. eauto. Qed.

Lemma o_blob_inv {A} (f : SE B BlobErr A) w b r s' :
  (o_blob f : OM A) (w, b) = (r, s') -> exists r0 b', f b = (r0, b') /\ r = map_err OBlob r0 /\ s' = (w, b').
Proof. unfold o_blob. destruct (f b) as [r0 b']. intros [= <- <-]. eauto. Qed.

(** An object lookup answers from the contents at its return. *)
Lemma get_object_inv repo oid w r w' :
  get_object repo oid w = (r, w') ->
  evolves w w'
  /\ match r with
     | Ok record => match view w' !! object_key repo oid with
                    | Some v => exists rec, record = Some rec /\ record_decode v = Ok rec
                    | None => record = None
                    end
     | Err (Value e) => exists v, view w' !! object_key repo oid = Some v /\ record_decode v = Err e
     | Err e => exists e0, e = Db e0
     end.
Proof.
  unfold get_object, se_bind, db, se_map_err. destruct (db_get _ w) as [r0 w0] eqn:E.
  apply db_get_spec in E as [Hev Hv]. destruct r0 as [v | e]; cbn [map_err].
  2: { intros [= <- <-]. split; [done | by eexists]. }
  specialize (Hv v eq_refl). subst v. unfold decode_opt.
  destruct (view w0 !! object_key repo oid) as [v |] eqn:Ev.
  - unfold se_bind, se_lift. destruct (record_decode v) as [rec | e] eqn:Ed; cbn [map_err];
      intros [= <- <-]; rewrite Ev; eauto.
  - intros [= <- <-]. by rewrite Ev.
Qed.

Lemma object_exists_inv repo oid w r w' :
  object_exists repo oid w = (r, w') ->
  evolves w w' /\ forall e, r = Ok e -> e = bool_decide (is_Some (view w' !! object_key repo oid)).
Proof.
  unfold object_exists, se_bind, db, se_map_err. destruct (db_get _ w) as [r0 w0] eqn:E.
  apply db_get_spec in E as [Hev Hv]. destruct r0 as [v | e]; cbn [map_err]; intros [= <- <-]; (split; [done |]);
    [| done]. specialize (Hv v eq_refl). intros e [= <-]. rewrite <- Hv. by destruct v.
Qed.

(** The stream of a record that holds is the stored one, or the blob store
    failed. *)
Lemma record_stream_spec oid record w b :
  let '(r, (w', b')) := (record_stream oid record : OM _) (w, b) in
  w' = w /\ bl_objects b' = bl_objects b
  /\ (holds (bl_objects b) oid record ->
      match r with
      | Ok (n, z) => n = Z.of_nat (length (names oid).2) /\ inflate z n = Some (names oid).2
      | Err e => exists e0, e = OBlob e0
      end).
Proof.
  assert (forall n z, record_size record = n ->
    match record with
    | BlobPointer _ => bl_objects b !! blob_path oid = Some z
    | BlobInline _ s | Tree _ s | Commit _ s | Tag _ s => z = s
    end ->
    holds (bl_objects b) oid record ->
    n = Z.of_nat (length (names oid).2) /\ inflate z n = Some (names oid).2) as Hval.
  { intros n z <- Hz (_ & _ & Hs & z' & Hz' & Hi). split; [done |].
    replace z with z'; [done |]. destruct record; congruence. }
  destruct record; cbn [record_stream];
    try (split; [done | split; [done |]]; by apply Hval).
  unfold se_bind. destruct (o_blob (blob_get oid) (w, b)) as [r0 s0] eqn:E.
  apply o_blob_inv in E as (r1 & b1 & E & -> & ->). apply bl_get_spec in E as [Hb Hc].
  destruct r1 as [c | e]; cbn; (split; [done | split; [done |]]); [| by eexists].
  by apply Hval, Hc.
Qed.

(** ** Reads *)

(** What a read of stored objects may fail with: the stores, not the content. *)
Definition store_fault (e : OE) : Prop := match e with OStore (Db _) | OBlob _ => True | _ => False end.

Lemma read_record repo oid w b :
  repo_wf repo ->
  let '(r, (w', b')) := (o_store (get_object repo oid) : OM _) (w, b) in
  b' = b /\ evolves w w'
  /\ (objects_ok (view w') (bl_objects b) ->
      match r with
      | Ok (Some record) => holds (bl_objects b) oid record /\ stored (view w') repo oid = Some (names oid)
      | Ok None => stored (view w') repo oid = None
      | Err e => store_fault e
      end).
Proof.
  intros Hrepo. destruct (o_store (get_object repo oid) (w, b)) as [r [w' b']] eqn:E.
  apply o_store_inv in E as (r0 & w0 & E & -> & [= -> ->]).
  apply get_object_inv in E as [Hev Hr]. split; [done | split; [done |]]. intros Hok. unfold stored.
  destruct r0 as [record | e]; cbn [map_err].
  - destruct (view w0 !! object_key repo oid) as [v |] eqn:Ev; [| by subst].
    destruct Hr as (rec & -> & Hd). split; [| done].
    destruct (Hok repo oid v Hrepo Ev) as (rec' & -> & Hh).
    rewrite (proj1 (record_codec [] rec') (proj1 Hh)) in Hd. by injection Hd as <-.
  - assert ((exists e0, e = Db e0) \/ exists e0 v, view w0 !! object_key repo oid = Some v /\ record_decode v = Err e0)
      as [[e0 ->] | (e0 & v & Ev & Hd)]; [| done |].
    { destruct e; try (by left; apply Hr); try (by destruct Hr as (? & [=])). right. by exists e. }
 destruct (Hok repo oid v Hrepo Ev) as (rec' & -> & Hh).
    rewrite (proj1 (record_codec [] rec') (proj1 Hh)) in Hd. done.
Qed.

(** Over stores whose records hold their named content, a read returns exactly
    that content, the stored stream returns it deflated under its true length,
    and the size lookup its kind and length — all three [None] exactly when the
    repository has no record.  None of them ever reports corruption or touches
    what is stored. *)
Lemma object_reads_spec repo oid w b :
  repo_wf repo ->
  (let '(r, (w', b')) := odb_get repo oid (w, b) in
   bl_objects b' = bl_objects b /\ evolves w w' /\ (objects_ok (view w') (bl_objects b) ->
     match r with Ok v => v = stored (view w') repo oid | Err e => store_fault e end))
  /\ (let '(r, (w', b')) := read_compressed repo oid (w, b) in
      bl_objects b' = bl_objects b /\ evolves w w' /\ (objects_ok (view w') (bl_objects b) ->
        match r with
        | Ok (Some (kind, n, z)) => exists content, stored (view w') repo oid = Some (kind, content)
            /\ n = Z.of_nat (length content) /\ inflate z n = Some content
        | Ok None => stored (view w') repo oid = None
        | Err e => store_fault e
        end))
  /\ (let '(r, (w', b')) := object_size repo oid (w, b) in
      b' = b /\ evolves w w' /\ (objects_ok (view w') (bl_objects b) ->
        match r with
        | Ok v => v = (fun kb => (kb.1, Z.of_nat (length kb.2))) <$> stored (view w') repo oid
        | Err e => store_fault e
        end)).
Proof.
  intros Hrepo. unfold odb_get, read_compressed, object_size, se_bind.
  pose proof (read_record repo oid w b Hrepo) as Hr.
  destruct (o_store (get_object repo oid) (w, b)) as [r [w1 b1]]. destruct Hr as (-> & Hev & Hr).
  destruct r as [[record |] | e].
  2, 3: split; [| split]; (split; [done | split; [done |]]); intros Hok; specialize (Hr Hok);
    try done; by rewrite Hr.
  pose proof (record_stream_spec oid record w1 b) as Hs.
  destruct (record_stream oid record (w1, b)) as [rs [w2 b2]]. destruct Hs as (-> & Hb & Hs).
  assert (objects_ok (view w1) (bl_objects b) -> record_kind record = (names oid).1
    /\ record_size record = Z.of_nat (length (names oid).2) /\ stored (view w1) repo oid = Some (names oid)
    /\ match rs with
       | Ok (n, z) => n = Z.of_nat (length (names oid).2) /\ inflate z n = Some (names oid).2
       | Err e => exists e0, e = OBlob e0
       end) as Hall.
  { intros Hok. destruct (Hr Hok) as [Hh Hst]. split; [apply Hh | split; [apply Hh | split; [done | by apply Hs]]]. }
  split; [destruct rs as [[n z] | e] | split; [destruct rs as [[n z] | e] |]].
  - unfold se_lift. destruct (inflate z n) as [content |] eqn:Ei; cbn; (split; [done | split; [done |]]);
      intros Hok; destruct (Hall Hok) as (Hk & _ & Hst & -> & Hi); [| congruence].
    assert (content = (names oid).2) as -> by congruence. rewrite Hst, Hk. by destruct (names oid).
  - split; [done | split; [done |]]. intros Hok. by destruct (Hall Hok) as (_ & _ & _ & e0 & ->).
  - split; [done | split; [done |]]. intros Hok. destruct (Hall Hok) as (-> & _ & -> & -> & Hi).
    exists (names oid).2. by destruct (names oid).
  - split; [done | split; [done |]]. intros Hok. by destruct (Hall Hok) as (_ & _ & _ & e0 & ->).
  - cbn. split; [done | split; [done |]]. intros Hok. destruct (Hall Hok) as (-> & -> & -> & _). done.
Qed.

(** ** Writes *)

Lemma holds_put blobs oid kind body level oid' record :
  names oid = (kind, body) -> (0 <= level <= 9)%Z ->
  holds blobs oid' record -> holds (<[blob_path oid := deflate body level]> blobs) oid' record.
Proof.
  intros Hn Hl (Hwf & Hk & Hs & z & Hz & Hi). split; [done | split; [done | split; [done |]]].
  destruct record; try (by exists z). destruct (decide (oid' = oid)) as [-> | Hne].
  - exists (deflate body level). rewrite lookup_insert_eq. split; [done |].
    rewrite Hs, Hn. by apply inflate_deflate.
  - exists z. rewrite lookup_insert_ne; [done |]. intros E. apply Hne. by symmetry; apply blob_path_inj.
Qed.

Lemma objects_ok_put m blobs oid kind body level :
  names oid = (kind, body) -> (0 <= level <= 9)%Z ->
  objects_ok m blobs -> objects_ok m (<[blob_path oid := deflate body level]> blobs).
Proof.
  intros Hn Hl Hok repo' oid' v Hr Hv. destruct (Hok repo' oid' v Hr Hv) as (rec & -> & Hh).
  exists rec. split; [done |]. by eapply holds_put.
Qed.

Lemma objects_ok_insert m blobs repo oid record :
  repo_wf repo -> objects_ok m blobs -> holds blobs oid record ->
  objects_ok (<[object_key repo oid := record_encode record]> m) blobs.
Proof.
  intros Hrepo Hok Hh repo' oid' v Hrepo'. destruct (decide (object_key repo oid = object_key repo' oid')) as [E | E].
  - rewrite E, lookup_insert_eq. intros [= <-]. exists record. split; [done |].
    destruct (encode_preamble_inj _ _ _ _ _ _ Hrepo Hrepo' E) as (_ & _ & Ho).
    by apply oid_bytes_inj in Ho as <-.
  - rewrite lookup_insert_ne by done. by apply Hok.
Qed.

(** The record a write chooses, with its blob uploaded first. *)
Lemma choose_record_spec db oid kind body w b :
  names oid = (kind, body) -> is_u64 (Z.of_nat (length body)) -> (0 <= compression_level db <= 9)%Z ->
  let '(r, (w', b')) := choose_record db oid kind body (w, b) in
  w' = w
  /\ (bl_objects b' = bl_objects b \/ bl_objects b' = <[blob_path oid := compress db body]> (bl_objects b))
  /\ match r with
     | Ok record => holds (bl_objects b') oid record
     | Err e => exists e0, e = OBlob e0
     end.
Proof.
  intros Hn Hlen Hl. pose proof (inflate_deflate body _ Hl) as Hi. unfold choose_record, compress.
  assert (forall record blobs, record_kind record = kind -> record_size record = Z.of_nat (length body) ->
    match record with
    | BlobPointer _ => blobs !! blob_path oid = Some (deflate body (compression_level db))
    | BlobInline _ s | Tree _ s | Commit _ s | Tag _ s => s = deflate body (compression_level db)
    end -> holds blobs oid record) as Hholds.
  { intros record blobs Hk Hs Hz. unfold holds, record_wf. rewrite Hn, Hs. cbn [fst snd].
    split; [done | split; [done | split; [done |]]]. exists (deflate body (compression_level db)).
    split; [| done]. destruct record; done. }
  destruct kind; [destruct (inline_threshold db <? length body) | ..]; try (split; [done | split; [by left | by apply Hholds]]).
  unfold se_bind.
  destruct (o_blob (blob_put oid (deflate body (compression_level db))) (w, b)) as [r0 s0] eqn:E.
  apply o_blob_inv in E as (r1 & b1 & E & -> & ->). apply bl_put_spec in E.
  destruct r1 as [[] | e]; cbn.
  - destruct E as [E | (_ & e & [=])]. split; [done | split; [by right |]]. apply Hholds; [done | done |].
    rewrite E. by rewrite lookup_insert_eq.
  - split; [done | split; [| by eexists]]. destruct E as [? | [? _]]; auto.
Qed.

(** A write over a database others may write to: it never harms a record that
    held its content, and success found a record or added one that holds. *)
Lemma put_beside_others db repo oid kind body durability w b :
  names oid = (kind, body) -> is_u64 (Z.of_nat (length body)) -> (0 <= compression_level db <= 9)%Z ->
  repo_wf repo ->
  let '(r, (w', b')) := odb_put db repo oid kind body durability (w, b) in
  (forall m, objects_ok m (bl_objects b) -> objects_ok m (bl_objects b'))
  /\ (r = Ok tt ->
      (evolves w w' /\ bl_objects b' = bl_objects b /\ is_Some (view w' !! object_key repo oid))
      \/ exists l record, history w' = <[object_key repo oid := record_encode record]> (hd ∅ l) :: l
           /\ suffix (history w) l /\ holds (bl_objects b') oid record
           /\ (objects_ok (hd ∅ l) (bl_objects b) -> objects_ok (view w') (bl_objects b'))).
Proof.
  intros Hn Hlen Hl Hrepo. unfold odb_put. unfold se_bind at 1.
  destruct (o_store (object_exists repo oid) (w, b)) as [r [w1 b1]] eqn:E.
  apply o_store_inv in E as (r0 & w0 & E & -> & [= -> ->]). apply object_exists_inv in E as [Hev He].
  destruct r0 as [present | e]; cbn [map_err]; [| by split].
  specialize (He present eq_refl). destruct present.
  { split; [done |]. intros _. left. split; [done | split; [done |]]. by apply eq_sym, bool_decide_eq_true in He. }
  unfold se_bind at 1. pose proof (choose_record_spec db oid kind body w0 b Hn Hlen Hl) as Hrec.
  destruct (choose_record db oid kind body (w0, b)) as [rr [w2 b2]].
  destruct Hrec as (-> & Hb & Hrec).
  assert (forall m, objects_ok m (bl_objects b) -> objects_ok m (bl_objects b2)) as Hkeep.
  { intros m Hok. destruct Hb as [-> | ->]; [done |]. by eapply objects_ok_put. }
  destruct rr as [record | e]; [| by split].
  destruct (o_store (put_object repo oid record durability) (w0, b2)) as [r3 [w3 b3]] eqn:E.
  apply o_store_inv in E as (r4 & w4 & E & -> & [= -> ->]). split; [done |].
  intros Hr. right. unfold put_object, Store.db in E. unfold se_map_err in E.
  destruct (db_put _ _ _ w0) as [[[] | e] w5] eqn:Eput; injection E as <- <-; [| done].
  apply db_put_ok in Eput as (l & Hh & Hsuf). exists l, record.
  split; [done | split; [by eapply evolves_suffix | split; [done |]]].
  intros Hok. rewrite (view_cons _ _ _ Hh). apply objects_ok_insert; auto.
Qed.

Section one_writer.
Context {Qdb : QuietDb W Txn DbError}.

(** With one writer: the record lands whole, over contents without one and
    after its blob, or nothing lands; and nothing else changes. *)
Lemma odb_put_wrote db repo oid kind body durability w b r w' b' :
  names oid = (kind, body) -> is_u64 (Z.of_nat (length body)) -> (0 <= compression_level db <= 9)%Z ->
  odb_put db repo oid kind body durability (w, b) = (r, (w', b')) ->
  q_later w w'
  /\ (bl_objects b' = bl_objects b
      \/ (view w !! object_key repo oid = None /\ bl_objects b' = <[blob_path oid := compress db body]> (bl_objects b)))
  /\ ((exists record, history w' = <[object_key repo oid := record_encode record]> (view w) :: history w
         /\ view w !! object_key repo oid = None /\ holds (bl_objects b') oid record)
      \/ (history w' = history w /\ (r = Ok tt -> is_Some (view w !! object_key repo oid)))).
Proof.
  intros Hn Hlen Hl. unfold odb_put. unfold se_bind at 1.
  destruct (o_store (object_exists repo oid) (w, b)) as [r0 s0] eqn:E.
  apply o_store_inv in E as (r1 & w1 & E & -> & ->). pose proof E as Ex. apply object_exists_inv in E as [_ He].
  assert (history w1 = history w /\ q_later w w1) as [Hh Hq].
  { unfold object_exists, se_bind, Store.db, se_map_err in Ex. pose proof (q_get (object_key repo oid) w) as Hg.
    destruct (db_get _ w) as [[v | e] w2]; injection Ex as _ <-; exact Hg. }
  assert (view w1 = view w) as Hv by (unfold view; by rewrite Hh). rewrite Hv in He.
  destruct r1 as [present | e]; cbn [map_err]; [| intros [= <- <- <-]; split; [done | split; [by left | by right]]].
  specialize (He present eq_refl). destruct present.
  { intros [= <- <- <-]. split; [done | split; [by left | right]]. split; [done |]. intros _.
    by apply eq_sym, bool_decide_eq_true in He. }
  apply eq_sym, bool_decide_eq_false, eq_None_not_Some in He.
  unfold se_bind. pose proof (choose_record_spec db oid kind body w1 b Hn Hlen Hl) as Hrec.
  destruct (choose_record db oid kind body (w1, b)) as [rr [w2 b2]]. destruct Hrec as (-> & Hb & Hrec).
  assert (Hb' : bl_objects b2 = bl_objects b
    \/ (view w !! object_key repo oid = None /\ bl_objects b2 = <[blob_path oid := compress db body]> (bl_objects b)))
    by (destruct Hb; auto).
  destruct rr as [record | e]; [| intros [= <- <- <-]; split; [done | split; [done | by right]]].
  destruct (o_store (put_object repo oid record durability) (w1, b2)) as [r3 s3] eqn:E. intros [= <- ->].
  apply o_store_inv in E as (r4 & w4 & E & -> & [= -> ->]). unfold put_object, Store.db, se_map_err in E.
  match type of E with context [db_put ?k ?v ?d w1] => pose proof (q_put k v d w1) as [Hl4 Hput]; destruct (db_put k v d w1) as [[[] | e] w5] eqn:Eput end;
    injection E as <- <-; cbn [fst snd] in *.
  all: split; [intros m [-> | Hm]%Hl4; [by left | by right; apply Hq in Hm as [-> |]; [rewrite Hv; apply q_view |]] | split; [done |]].
  - left. exists record. destruct Hput as [c Hput]. apply db_put_ok in Eput as (l & Hh4 & _). rewrite Hh4 in Hput.
    injection Hput as _ ->. by rewrite Hh4, Hh.
  - destruct Hput as [Hput | Hput]; [right | left].
    + split; [by rewrite Hput, Hh | done].
    + exists record. rewrite Hput, Hv, Hh. done.
Qed.

(** C12: object writes.  However writing content under its own name ends — a
    lookup, the upload of its blob or the write of its record failed, or
    success — the contents are what they were, or have one new record, the
    object's; and then the record holds the content, its blob, if offloaded,
    being in place.  Every record that held its content still does, so that
    sound contents stay sound: those before, those after, and those a crash
    may leave at any point since.  Success means that the object is stored. *)
Theorem object_put_safe db repo oid kind body durability w b :
  names oid = (kind, body) -> is_u64 (Z.of_nat (length body)) -> (0 <= compression_level db <= 9)%Z ->
  repo_wf repo ->
  let '(r, (w', b')) := odb_put db repo oid kind body durability (w, b) in
  (history w' = history w
   \/ exists record, history w' = <[object_key repo oid := record_encode record]> (view w) :: history w
        /\ view w !! object_key repo oid = None /\ holds (bl_objects b') oid record)
  /\ (forall m, objects_ok m (bl_objects b) -> objects_ok m (bl_objects b'))
  /\ ((forall m, q_recover w m -> objects_ok m (bl_objects b)) ->
      objects_ok (view w') (bl_objects b') /\ forall m, q_recover w' m -> objects_ok m (bl_objects b'))
  /\ (r = Ok tt -> is_Some (view w' !! object_key repo oid)).
Proof.
  intros Hn Hlen Hl Hrepo. destruct (odb_put db repo oid kind body durability (w, b)) as [r [w' b']] eqn:E.
  apply odb_put_wrote in E as (Hlater & Hb & Hw); [| done..].
  assert (forall m, objects_ok m (bl_objects b) -> objects_ok m (bl_objects b')) as Hkeep.
  { intros m Hok. destruct Hb as [-> | [_ ->]]; [done |]. by apply objects_ok_put with (kind := kind). }
  assert ((forall m, q_recover w m -> objects_ok m (bl_objects b)) -> objects_ok (view w') (bl_objects b')) as Hview.
  { intros Hok. pose proof (Hkeep _ (Hok _ (q_view w))) as Hv. destruct Hw as [(rec & Hh & _ & Hrec) | [Hh _]].
    - rewrite (view_cons _ _ _ Hh). by apply objects_ok_insert.
    - unfold view. by rewrite Hh. }
  split; [destruct Hw as [Hw | [Hw _]]; [by right | by left] |]. split; [done |]. split.
  - intros Hok. split; [auto |]. intros m [-> | Hm]%Hlater; auto.
  - intros ->. destruct Hw as [(rec & Hh & _) | [Hh Hs]]; unfold view; rewrite Hh; [| by apply Hs].
    cbn. rewrite lookup_insert_eq. by eexists.
Qed.

End one_writer.

End content.

End objectdb.

(** ** A concrete store *)
Module ObjectSample.

Abbreviation put_sample oid w b :=
  (odb_put (Sdb := MemDb.lib) (Bl := MemBlobs.lib) (Zl := StoredZlib.lib) (mkObjectDb 2 6) (mkRepoId 1) oid
     KBlob (bs "hello") Relaxed (w, b)).
Abbreviation get_sample oid w b :=
  (odb_get (Sdb := MemDb.lib) (Bl := MemBlobs.lib) (Zl := StoredZlib.lib) (mkRepoId 1) oid (w, b)).

Definition names (_ : HexOid.t) : Kind * bytes := (KBlob, bs "hello").
Definition oid : HexOid.t := HexOid.fill x11.
Definition other : HexOid.t := HexOid.fill x22.

(** The world after the write. *)
Definition contents : Contents := <[object_key (mkRepoId 1) oid := record_encode (BlobPointer 5)]> ∅.
Definition world : MemDb.W := [contents].
Definition blobs : gmap bytes bytes := {[blob_path oid := x78 :: bs "hello"]}.

Lemma put_result : (put_sample oid [] ∅).1 = Ok tt.
Proof. by vm_compute. Qed.

Lemma get_result : (get_sample oid world blobs).1 = Ok (Some (KBlob, bs "hello")).
Proof. by vm_compute. Qed.

Lemma contents_ok : objects_ok (Zl := StoredZlib.lib) names contents blobs.
Proof.
  apply objects_ok_insert; [by vm_compute | intros r o v _ Hv; by rewrite lookup_empty in Hv |].
  split; [by vm_compute | split; [done | split; [done |]]]. exists (x78 :: bs "hello"). by vm_compute.
Qed.

End ObjectSample.

Import ObjectSample.

(** A store that holds another blob: the new one is uploaded beside it. *)
Lemma object_put_safe_witness :
  let '(r, (w', b')) := put_sample other world blobs in
  history (SlateDb := MemDb.lib) w' <> world
  /\ objects_ok (Zl := StoredZlib.lib) names (view (SlateDb := MemDb.lib) w') b'.
Proof.
  pose proof (object_put_safe (Sdb := MemDb.lib) (Qdb := mem_quiet) (Bl := MemBlobs.lib) (Zl := StoredZlib.lib) names
    (mkObjectDb 2 6) (mkRepoId 1) other KBlob (bs "hello") Relaxed world blobs eq_refl
    ltac:(by vm_compute) ltac:(cbn; lia) ltac:(by vm_compute)) as H.
  assert (length (put_sample other world blobs).2.1 = 2) as Hlen by (by vm_compute).
  destruct (put_sample other world blobs) as [r [w' b']]. destruct H as (_ & _ & H & _). split.
  - intros E. cbn [fst snd] in Hlen. cbn in E. by rewrite E in Hlen.
  - refine (proj1 (H _)). intros m ->. exact contents_ok.
Defined.
