(* ===== verification/PlanPack.v ===== *)
(** * Fetch planning ([src/protocol/upload_pack.rs], [plan_pack])

    The composition behind every fetch: wants are split, commits selected,
    objects collected, and the result scheduled for the pack writer.  The
    theorems put the walk's together: what a plan holds exactly, and that it
    leaves the client no hole. *)

From S2P Require Import Prelude Bytes GixHash Values GixObject Walk Graph Discovery Collect Effects.
From stdpp Require Import gmap strings sorting.
From Stdlib Require Import Lia.

Record ScheduledObject (Oid : Type) : Type := mkScheduled { so_oid : Oid; so_delta_group : option Z }.
Arguments mkScheduled {Oid}.
Arguments so_oid {Oid}.
Arguments so_delta_group {Oid}.

(** The timings are not modelled. *)
Record PackPlan (Oid : Type) : Type := mkPlan { pp_objects : list (ScheduledObject Oid); pp_common : list Oid }.
Arguments mkPlan {Oid}.
Arguments pp_objects {Oid}.
Arguments pp_common {Oid}.

(** A hash over the reversed path, [wrapping_mul] then [wrapping_add]. *)
Definition name_hash (path : bytes) : Z :=
  fold_left (fun hash byte => wrap 32 (wrap 32 (hash * 33) + u8 byte)) (rev path) 5381%Z.

(** ** The sort of the scheduled blobs *)

(** A scheduled blob: hash, path, size, position and id. *)
Definition BlobKey (Oid : Type) : Type := Z * bytes * Z * Z * Oid.

Section keys.
Context {Oid : Type}.

Definition bk_hash (k : BlobKey Oid) : Z := k.1.1.1.1.
Definition bk_path (k : BlobKey Oid) : bytes := k.1.1.1.2.
Definition bk_size (k : BlobKey Oid) : Z := k.1.1.2.
Definition bk_pos (k : BlobKey Oid) : Z := k.1.2.
Definition bk_oid (k : BlobKey Oid) : Oid := k.2.

(** [Ord::cmp] chained with [then_with]: hash, path, size, position. *)
Definition key_cmp_le (a b : BlobKey Oid) : bool :=
  if (bk_hash a =? bk_hash b)%Z then
    if decide (bk_path a = bk_path b) then
      if (bk_size a =? bk_size b)%Z then (bk_pos a <=? bk_pos b)%Z else (bk_size a <? bk_size b)%Z
    else bytes_le (bk_path a) (bk_path b)
  else (bk_hash a <? bk_hash b)%Z.

Definition key_order (a b : BlobKey Oid) : Prop := key_cmp_le a b = true.

#[export] Instance key_order_dec : RelDecision key_order.
Proof. intros a b. unfold key_order. apply _. Defined.

#[export] Instance key_order_total : Total key_order.
Proof.
  intros a b. unfold key_order, key_cmp_le. rewrite (Z.eqb_sym (bk_hash b)), (Z.eqb_sym (bk_size b)).
  destruct (Z.eqb_spec (bk_hash a) (bk_hash b)); [| lia].
  destruct (decide (bk_path a = bk_path b)) as [E | E].
  - rewrite decide_True by done. destruct (Z.eqb_spec (bk_size a) (bk_size b)); lia.
  - rewrite decide_False by done. apply bytes_le_total.
Qed.

#[export] Instance key_order_trans : Transitive key_order.
Proof.
  intros a b c. unfold key_order, key_cmp_le.
  destruct (Z.eqb_spec (bk_hash a) (bk_hash b)) as [E1 | N1], (Z.eqb_spec (bk_hash b) (bk_hash c)) as [E2 | N2];
    destruct (Z.eqb_spec (bk_hash a) (bk_hash c)); try lia.
  destruct (decide (bk_path a = bk_path b)) as [F1 | M1], (decide (bk_path b = bk_path c)) as [F2 | M2].
  - rewrite decide_True by congruence.
    destruct (Z.eqb_spec (bk_size a) (bk_size b)), (Z.eqb_spec (bk_size b) (bk_size c)),
      (Z.eqb_spec (bk_size a) (bk_size c)); lia.
  - rewrite decide_False by congruence. by rewrite F1.
  - rewrite decide_False by congruence. by rewrite <- F2.
  - intros H1 H2. pose proof (bytes_le_trans _ _ _ H1 H2) as H.
    destruct (decide (bk_path a = bk_path c)) as [F | M]; [| done].
    destruct M1. apply bytes_le_antisym; [done | by rewrite F].
Qed.

End keys.

Section plan.
Context {Oid : Type} {OL : OidLib Oid} {StoreErr ObjErr DecodeError G : Type}.
Context {OB : ObjectLib Oid DecodeError} {WS : WalkStore Oid StoreErr ObjErr G}.

Abbreviation WE := (WalkError Oid StoreErr ObjErr DecodeError).
Abbreviation WM A := (SE G WE A).
Abbreviation Info := (gmap Oid (Kind * Z)).

(** ** Operations *)

Definition plain_schedule (objects : list Oid) : list (ScheduledObject Oid) :=
  map (fun oid => mkScheduled oid None) objects.

(** The loop that tells the blobs to sort from the objects that stay in walk
    order; a missing [info] entry is the source's indexing panic. *)
Fixpoint split_schedule (info : Info) (paths : gmap Oid bytes) (position : Z) (objects : list Oid)
    : result WE (list (Z * ScheduledObject Oid) * list (BlobKey Oid)) :=
  match objects with
  | [] => Ok ([], [])
  | oid :: objects' =>
      let fix_ '(fixed, blobs) := ((position, mkScheduled oid None) :: fixed, blobs) in
      match paths !! oid with
      | None => let? rest := split_schedule info paths (position + 1) objects' in Ok (fix_ rest)
      | Some path =>
          let? (kind, size) := ok_or (info !! oid) WPanicked in
          let? rest := split_schedule info paths (position + 1) objects' in
          if decide (kind <> KBlob) then Ok (fix_ rest)
          else Ok (rest.1, (name_hash path, path, size, position, oid) :: rest.2)
      end
  end.

Definition position_le (a b : Z * ScheduledObject Oid) : Prop := (a.1 <= b.1)%Z.
#[export] Instance position_le_dec : RelDecision position_le := fun a b => Z_le_dec a.1 b.1.

Definition schedule_for_ofs (collected : CollectedObjects Oid) : WM (list (ScheduledObject Oid)) :=
  do! entries <- object_info (co_objects collected);
  let info : Info := list_to_map (rev (map (fun e => (e.1.1, (e.1.2, e.2))) entries)) in
  do! (fixed, blobs) <- se_lift (split_schedule info (blob_paths collected) 0 (co_objects collected));
  se_ret (map snd (merge_sort position_le fixed)
          ++ map (fun k => mkScheduled (bk_oid k) (Some (bk_hash k))) (merge_sort key_order blobs)).

(** The direct wants appended to the walk's objects, each once. *)
Fixpoint add_direct (direct : list Oid) (seen : gset Oid) (objects : list Oid) : list Oid :=
  match direct with
  | [] => objects
  | oid :: direct' =>
      if decide (oid ∈ seen) then add_direct direct' seen objects
      else add_direct direct' ({[oid]} ∪ seen) (objects ++ [oid])
  end.

(** The collection, its paths recorded only for delta planning. *)
Definition collect_selection (fuel : nat) (selection : Selection Oid) (filter : FilterSpec) (ofs_deltas : bool)
    : WM (CollectedObjects Oid) :=
  if ofs_deltas then collect_with_paths fuel (to_send selection) (common selection) filter
  else
    do! objects <- collect fuel (to_send selection) (common selection) filter;
    se_ret (mkCollected objects ∅).

Definition plan_pack (fuel : nat) (wants haves : list Oid) (filter : FilterSpec) (ofs_deltas : bool)
    : WM (PackPlan Oid) :=
  do! partition <- partition_wants wants;
  match wp_history partition with
  | [] => se_ret (mkPlan (plain_schedule (wp_direct partition)) [])
  | history =>
      do! selection <- select_commits fuel history haves;
      do! collected <- collect_selection fuel selection filter ofs_deltas;
      let objects := add_direct (wp_direct partition) (list_to_set (co_objects collected))
                       (co_objects collected) in
      do! scheduled <-
        (if ofs_deltas then schedule_for_ofs (mkCollected objects (blob_paths collected))
         else se_ret (plain_schedule objects));
      se_ret (mkPlan scheduled (common selection))
  end.

Lemma kept_plan_pack (P : G -> G -> Prop) {HK : HistoryKeeps P} fuel wants haves filter ofs :
  kept P (plan_pack fuel wants haves filter ofs).
Proof. unfold plan_pack, collect_selection, schedule_for_ofs, object_info. keep. Qed.

(** ** The schedule *)

(** What scheduling makes of [objects]: first, in their order, those that are
    not path-known blobs; then these, grouped by the hash of their paths and
    ordered by hash, path, size and position. *)
Definition scheduled_as (m : gmap Oid (Kind * bytes)) (paths : gmap Oid bytes) (objects : list Oid)
    (scheduled : list (ScheduledObject Oid)) : Prop :=
  exists (fixed : list Oid) (blobs : list (BlobKey Oid)),
    scheduled = plain_schedule fixed ++ map (fun k => mkScheduled (bk_oid k) (Some (bk_hash k))) blobs
    /\ fixed `sublist_of` objects
    /\ StronglySorted key_order blobs
    /\ fixed ++ map bk_oid blobs ≡ₚ objects
    /\ (forall oid, oid ∈ fixed -> paths !! oid = None \/ kind_at m oid <> Some KBlob)
    /\ forall k, k ∈ blobs -> paths !! bk_oid k = Some (bk_path k) /\ bk_hash k = name_hash (bk_path k)
         /\ objects !! Z.to_nat (bk_pos k) = Some (bk_oid k)
         /\ exists body, m !! bk_oid k = Some (KBlob, body) /\ bk_size k = Z.of_nat (length body).

Definition info_ok (m : gmap Oid (Kind * bytes)) (info : Info) (objects : list Oid) : Prop :=
  forall oid, oid ∈ objects -> exists kind body, info !! oid = Some (kind, Z.of_nat (length body))
    /\ m !! oid = Some (kind, body).

Lemma object_info_map m ids entries :
  Forall2 (fun id e => e.1.1 = id /\ exists body, m !! id = Some (e.1.2, body) /\ e.2 = Z.of_nat (length body))
    ids entries ->
  info_ok m (list_to_map (rev (map (fun e => (e.1.1, (e.1.2, e.2))) entries))) ids.
Proof.
  intros Hall oid Hin. set (l := rev (map _ entries)).
  assert (forall o kn, (o, kn) ∈ l -> exists body, m !! o = Some (kn.1, body) /\ kn.2 = Z.of_nat (length body)) as Hl.
  { intros o kn Hl. unfold l in Hl. rewrite elem_of_rev, list_elem_of_In, in_map_iff in Hl.
    destruct Hl as (e & [= <- <-] & He%list_elem_of_In).
    apply list_elem_of_lookup in He as [i Hi]. destruct (Forall2_lookup_r _ _ _ _ _ Hall Hi) as (id & _ & -> & body & ? & ?).
    by exists body. }
  assert (is_Some ((list_to_map l : Info) !! oid)) as [[kind n] Hk].
  { apply elem_of_dom. rewrite dom_list_to_map_L. apply elem_of_list_to_set, list_elem_of_fmap.
    apply list_elem_of_lookup in Hin as [i Hi]. destruct (Forall2_lookup_l _ _ _ _ _ Hall Hi) as (e & He & <- & _).
    exists (e.1.1, (e.1.2, e.2)). split; [done |]. unfold l. rewrite elem_of_rev, list_elem_of_In, in_map_iff.
    exists e. split; [done |]. apply list_elem_of_In. by eapply list_elem_of_lookup_2. }
  pose proof (elem_of_list_to_map_2 _ _ _ Hk) as Hmem. destruct (Hl _ _ Hmem) as (body & Hm & Hn). cbn in *.
  exists kind, body. by rewrite Hk, Hn.
Qed.

Definition position_lt (a b : Z * ScheduledObject Oid) : Prop := (a.1 < b.1)%Z.

#[local] Instance position_le_total : Total position_le.
Proof. intros a b. unfold position_le. lia. Qed.
#[local] Instance position_le_trans : Transitive position_le.
Proof. intros a b c. unfold position_le. lia. Qed.
#[local] Instance position_lt_antisymm : AntiSymm (=) position_lt.
Proof. intros a b. unfold position_lt. lia. Qed.

Lemma sorted_distinct l :
  StronglySorted position_le l -> NoDup l.*1 -> StronglySorted position_lt l.
Proof.
  induction 1 as [| a l Hl IH Ha]; [constructor |]. rewrite fmap_cons. intros [Hn Hd]%NoDup_cons.
  constructor; [auto |]. rewrite Forall_forall in *. intros b Hb. specialize (Ha b Hb).
  unfold position_le, position_lt in *. assert (a.1 <> b.1); [| lia].
  intros E. apply Hn. rewrite E. by apply list_elem_of_fmap_2.
Qed.

Lemma lt_sorted l : StronglySorted position_lt l -> NoDup l.*1.
Proof.
  induction 1 as [| a l Hl IH Ha]; [constructor |]. rewrite fmap_cons. constructor; [| done].
  intros (b & E & Hb)%list_elem_of_fmap. rewrite Forall_forall in Ha. specialize (Ha b Hb).
  unfold position_lt in Ha. lia.
Qed.

(** Sorting what is already in order changes nothing. *)
Lemma merge_sort_sorted l : StronglySorted position_lt l -> merge_sort position_le l = l.
Proof.
  intros Hl. apply (StronglySorted_unique position_lt); [| done | apply merge_sort_Permutation].
  apply sorted_distinct; [apply (StronglySorted_merge_sort position_le) |].
  rewrite merge_sort_Permutation. by apply lt_sorted.
Qed.

(** The split of the objects from position [i] on. *)
Definition split_as (m : gmap Oid (Kind * bytes)) (paths : gmap Oid bytes) (i : nat) (objects : list Oid)
    (fixed : list (Z * ScheduledObject Oid)) (blobs : list (BlobKey Oid)) : Prop :=
  exists fs, map snd fixed = plain_schedule fs /\ fs `sublist_of` objects
    /\ StronglySorted position_lt fixed /\ Forall (fun e => (Z.of_nat i <= e.1)%Z) fixed
    /\ fs ++ map bk_oid blobs ≡ₚ objects
    /\ (forall oid, oid ∈ fs -> paths !! oid = None \/ kind_at m oid <> Some KBlob)
    /\ forall k, k ∈ blobs -> paths !! bk_oid k = Some (bk_path k) /\ bk_hash k = name_hash (bk_path k)
         /\ (exists j, bk_pos k = Z.of_nat (i + j) /\ objects !! j = Some (bk_oid k))
         /\ exists body, m !! bk_oid k = Some (KBlob, body) /\ bk_size k = Z.of_nat (length body).

Lemma split_as_fixed m paths i oid objects fixed blobs :
  paths !! oid = None \/ kind_at m oid <> Some KBlob ->
  split_as m paths (S i) objects fixed blobs ->
  split_as m paths i (oid :: objects) ((Z.of_nat i, mkScheduled oid None) :: fixed) blobs.
Proof.
  intros Ho (fs & Hfs & Hsub & Hs & Hlow & Hp & Hf & Hb). exists (oid :: fs).
  split; [cbn; by rewrite Hfs | split; [by apply sublist_skip | split; [| split; [| split; [| split]]]]].
  - constructor; [done |]. eapply Forall_impl; [exact Hlow |]. intros e He. unfold position_lt. cbn [fst] in *. lia.
  - constructor; [cbn; lia |]. eapply Forall_impl; [exact Hlow |]. intros e He. cbn [fst] in *. lia.
  - cbn. by rewrite Hp.
  - by intros o [-> | ?]%elem_of_cons; [| apply Hf].
  - intros k Hk. destruct (Hb k Hk) as (? & ? & (j & Hj & Hl) & ?). split; [done | split; [done | split; [| done]]].
    exists (S j). split; [lia | done].
Qed.

Lemma split_as_blob m paths i oid path body objects fixed blobs :
  paths !! oid = Some path -> m !! oid = Some (KBlob, body) ->
  split_as m paths (S i) objects fixed blobs ->
  split_as m paths i (oid :: objects) fixed
    ((name_hash path, path, Z.of_nat (length body), Z.of_nat i, oid) :: blobs).
Proof.
  intros Hpath Hm (fs & Hfs & Hsub & Hs & Hlow & Hp & Hf & Hb). exists fs.
  split; [done | split; [by apply sublist_cons | split; [done | split; [| split; [| split; [done |]]]]]].
  - eapply Forall_impl; [exact Hlow |]. intros e He. cbn [fst] in *. lia.
  - cbn [map]. rewrite <- Permutation_middle, Hp. done.
  - intros k [-> | Hk]%elem_of_cons.
    + split; [done | split; [done | split]]; [| by exists body]. exists 0. cbn. split; [lia | done].
    + destruct (Hb k Hk) as (? & ? & (j & Hj & Hl) & ?). split; [done | split; [done | split; [| done]]].
      exists (S j). split; [lia | done].
Qed.

Lemma split_schedule_spec m info paths i objects :
  info_ok m info objects ->
  exists fixed blobs, split_schedule info paths (Z.of_nat i) objects = Ok (fixed, blobs)
    /\ split_as m paths i objects fixed blobs.
Proof.
  revert i. induction objects as [| oid objects IH]; intros i Hinfo; cbn [split_schedule].
  { exists [], []. split; [done |]. exists []. split; [done | split; [done | split; [constructor | split; [constructor | split; [done |]]]]].
    split; by intros ? ?%elem_of_nil. }
  destruct (IH (S i)) as (fixed & blobs & E & Hs); [intros o Ho; apply Hinfo; by right |].
  replace (Z.of_nat i + 1)%Z with (Z.of_nat (S i)) by lia.
  destruct (paths !! oid) as [path |] eqn:Hpath.
  2: { rewrite E. eexists _, _. split; [done |]. apply split_as_fixed; auto. }
  destruct (Hinfo oid (list_elem_of_here _ _)) as (kind & body & -> & Hm). cbn [ok_or]. rewrite E.
  case_decide as Hk.
  - eexists _, _. split; [done |]. apply split_as_fixed; [right; unfold kind_at; rewrite Hm; cbn; congruence | done].
  - assert (kind = KBlob) as -> by (by destruct kind; try (exfalso; by apply Hk)). eexists _, _. split; [done |].
    by apply split_as_blob.
Qed.

Lemma schedule_for_ofs_spec collected g :
  let '(r, g') := schedule_for_ofs collected g in
  ws_same g g'
  /\ match r with
     | Ok scheduled => scheduled_as (ws_objects g) (blob_paths collected) (co_objects collected) scheduled
     | Err (MissingObject id) => id ∈ co_objects collected /\ ws_objects g !! id = None
     | Err e => exists o, e = WObjects o
     end.
Proof.
  unfold schedule_for_ofs, se_bind. pose proof (object_info_spec (DecodeError := DecodeError) (co_objects collected) g) as H.
  destruct (object_info (DecodeError := DecodeError) (co_objects collected) g) as [[entries | e] g']; destruct H as [Hs H]; [| by split].
  apply object_info_map in H. unfold se_lift.
  destruct (split_schedule_spec _ _ (blob_paths collected) 0 _ H) as (fixed & blobs & E & Hsplit).
  change (Z.of_nat 0) with 0%Z in E. rewrite E. split; [done |]. destruct Hsplit as (fs & Hfs & Hsub & Hord & _ & Hp & Hf & Hb).
  exists fs, (merge_sort key_order blobs). rewrite (merge_sort_sorted _ Hord), Hfs.
  pose proof (merge_sort_Permutation key_order blobs) as Hperm.
  split; [done | split; [done | split; [apply (StronglySorted_merge_sort key_order) | split; [| split; [done |]]]]].
  - rewrite <- Hp. apply Permutation_app_head. by rewrite Hperm.
  - intros k Hk. rewrite Hperm in Hk. destruct (Hb k Hk) as (? & ? & (j & Hj & Hl) & ?).
    split; [done | split; [done | split; [| done]]]. rewrite Hj. by rewrite Nat2Z.id.
Qed.

(** ** The plan *)

Lemma add_direct_spec direct seen objects :
  NoDup objects -> (forall x, x ∈ seen <-> x ∈ objects) ->
  NoDup (add_direct direct seen objects)
  /\ forall x, x ∈ add_direct direct seen objects <-> x ∈ objects \/ x ∈ direct.
Proof.
  revert seen objects. induction direct as [| d direct IH]; intros seen objects Hnd Hseen; cbn [add_direct].
  { split; [done |]. intros x. rewrite elem_of_nil. tauto. }
  case_decide as Hd.
  - destruct (IH seen objects Hnd Hseen) as [Hnd' Hmem]. split; [done |]. intros x. rewrite Hmem, elem_of_cons.
    apply Hseen in Hd. split; [tauto |]. intros [? | [-> | ?]]; auto.
  - destruct (IH ({[d]} ∪ seen) (objects ++ [d])) as [Hnd' Hmem].
    + apply NoDup_app. split; [done | split; [| apply NoDup_singleton]].
      intros x Hx ->%list_elem_of_singleton. by apply Hd, Hseen.
    + intros x. rewrite elem_of_union, elem_of_singleton, elem_of_app, list_elem_of_singleton, Hseen. tauto.
    + split; [done |]. intros x. rewrite Hmem, elem_of_app, list_elem_of_singleton, elem_of_cons. tauto.
Qed.

Lemma plain_oids objects : map so_oid (plain_schedule objects) = objects.
Proof. unfold plain_schedule. rewrite map_map. cbn. apply map_id. Qed.

Lemma scheduled_oids m paths objects scheduled :
  scheduled_as m paths objects scheduled -> map so_oid scheduled ≡ₚ objects.
Proof.
  intros (fixed & blobs & -> & _ & _ & Hp & _). rewrite map_app, plain_oids, map_map. cbn. done.
Qed.

(** A repository whose fetches are well behaved: records name the right trees
    and parents, history and tags are acyclic, trees are not listed as leaves,
    and the fuel covers the objects. *)
Record fetchable (m : gmap Oid (Kind * bytes)) (rank : Oid -> nat) (fuel : nat) (g : G) : Prop := {
  f_objects : ws_objects g = m;
  f_graph : graph_wf False g;
  f_ranked : ranked m rank;
  f_tags : tags_ranked m rank fuel;
  f_leaves : leaves_ok m;
  f_fuel : select_fuel m + 2 <= fuel;
}.

(** The wants that drive history. *)
Definition history_wants (m : gmap Oid (Kind * bytes)) (wants : list Oid) : list Oid :=
  filter (fun w => kind_at m w = Some KCommit \/ kind_at m w = Some KTag) wants.

(** [p] is a path of blob [x] in one of the commits sent. *)
Definition true_path (m : gmap Oid (Kind * bytes)) (ids : list Oid) (x : Oid) (p : bytes) : Prop :=
  exists root t q n, root ∈ commit_roots m ids /\ named_tree m root q t /\ tree_link m false t n x
    /\ p = join_path q n.

(** [x] is a tree of the commits in [ids], or an admitted blob of one. *)
Definition under (m : gmap Oid (Kind * bytes)) (filter : FilterSpec) (ids : list Oid) (x : Oid) : Prop :=
  tree_under m (commit_roots m ids) x \/ blob_under m (commit_roots m ids) x /\ ~ filtered m filter x.

(** What a plan of [wants] holds: the direct wants, the commits and tags
    selected, and the trees and admitted blobs those bring that the common
    haves do not. *)
Definition planned (m : gmap Oid (Kind * bytes)) (wants haves : list Oid) (filter : FilterSpec)
    (ofs_deltas : bool) (plan : PackPlan Oid) : Prop :=
  exists objects,
    NoDup objects
    /\ (forall w, w ∈ wants -> is_Some (m !! w))
    /\ if decide (history_wants m wants = [])
       then pp_objects plan = plain_schedule objects /\ pp_common plan = []
         /\ forall x, x ∈ objects <-> x ∈ wants
       else exists graph W commits tags sel,
         selected False m graph (history_wants m wants) haves sel W commits tags
         /\ pp_common plan = common sel
         /\ (if ofs_deltas : bool
             then exists paths, scheduled_as m paths objects (pp_objects plan)
                  /\ forall x p, paths !! x = Some p -> true_path m (to_send sel) x p
             else pp_objects plan = plain_schedule objects)
         /\ (forall x, x ∈ objects <->
               (x ∈ wants /\ (kind_at m x = Some KTree \/ kind_at m x = Some KBlob))
               \/ x ∈ to_send sel \/ picked m filter (to_send sel) (common sel) x)
         /\ forall x, under m filter (to_send sel) x ->
              x ∈ objects \/ held m filter (commit_roots m (common sel)) x.

(** The collection a plan makes, whether or not it records paths. *)
Lemma collect_selection_spec fuel rank m sel filter ofs_deltas g :
  collectable m rank fuel g ->
  let '(r, g') := collect_selection fuel sel filter ofs_deltas g in
  ws_objects g' = m
  /\ match r with
     | Ok col => NoDup (co_objects col)
         /\ (forall x, x ∈ co_objects col <-> x ∈ to_send sel \/ picked m filter (to_send sel) (common sel) x)
         /\ (forall x p, blob_paths col !! x = Some p -> true_path m (to_send sel) x p)
         /\ forall x, under m filter (to_send sel) x ->
              x ∈ co_objects col \/ held m filter (commit_roots m (common sel)) x
     | Err e => fault m e
     end.
Proof.
  intros Hc.
  assert (let '(r, g') := collect_inner fuel (to_send sel) (common sel) filter ofs_deltas g in
    ws_objects g' = m /\ match r with
      | Ok col => NoDup (co_objects col)
          /\ (forall x, x ∈ co_objects col <-> x ∈ to_send sel \/ picked m filter (to_send sel) (common sel) x)
          /\ (forall x p, blob_paths col !! x = Some p -> true_path m (to_send sel) x p)
          /\ forall x, under m filter (to_send sel) x ->
               x ∈ co_objects col \/ held m filter (commit_roots m (common sel)) x
      | Err e => fault m e end) as H.
  { pose proof (collect_spec fuel rank m (to_send sel) (common sel) filter ofs_deltas g Hc) as H.
    destruct (collect_inner _ _ _ _ _ g) as [[col | e] g']; destruct H as [Ho H]; (split; [done |]); [| done].
    destruct H as (have & acc & -> & -> & Hhave & Hinv & Hsent & Hroots).
    assert (forall x, x ∈ Walk.order acc.1 <-> x ∈ to_send sel \/ picked m filter (to_send sel) (common sel) x) as Hx.
    { intros x. eapply walk_inv_exact; try done. apply (c_leaves _ _ _ _ Hc). }
    split; [apply (w_ok _ _ _ _ _ _ _ _ Hinv) | split; [done | split]].
    - intros x p Hp. by apply (w_paths _ _ _ _ _ _ _ _ Hinv).
    - intros x Hu. rewrite <- Hhave. destruct (decide (x ∈ have)) as [| Hn]; [by right | left].
      apply Hx. right. split; [by rewrite <- Hhave | done]. }
  unfold collect_selection. destruct ofs_deltas; [done |]. unfold collect, se_bind.
  destruct (collect_inner fuel (to_send sel) (common sel) filter false g) as [[col | e] g']; [| done].
  destruct H as (Ho & Hnd & Hcol & _ & Hu). split; [done | split; [done | split; [done | split; [| done]]]].
  intros x p. cbn. by rewrite lookup_empty.
Qed.

Lemma plan_pack_spec fuel rank m wants haves filter ofs_deltas g :
  fetchable m rank fuel g ->
  let '(r, g') := plan_pack fuel wants haves filter ofs_deltas g in
  ws_objects g' = m
  /\ match r with
     | Ok plan => planned m wants haves filter ofs_deltas plan
     | Err e => fault m e
     end.
Proof.
  intros [Ho Hwf Hr Ht Hleaves Hfuel]. unfold plan_pack, se_bind.
  pose proof (partition_wants_spec (DecodeError := DecodeError) wants g) as H. rewrite Ho in H.
  destruct (partition_wants wants g) as [[p | e] g1]; destruct H as [(Ho1 & Hg1 & _) H]; rewrite Ho in Ho1.
  2: { split; [done |]. destruct e; solve [done | by destruct H | by destruct H as [? [=]]]. }
  destruct H as (Hhist & Hnd & Hdirect & Hall). fold (history_wants m wants) in Hhist.
  assert (graph_wf False g1) as Hwf1 by (unfold graph_wf; rewrite Ho1, Hg1, <- Ho; exact Hwf).
  destruct (wp_history p) as [| w0 ws] eqn:Ehist.
  { split; [done |]. exists (wp_direct p). split; [done | split; [done |]].
    rewrite decide_True by done. split; [done | split; [done |]]. intros x. rewrite Hdirect. split; [tauto |]. intros Hx.
    split; [done |]. destruct (Hall x Hx) as [[k b] Hkb]. unfold kind_at. rewrite Hkb. cbn.
    assert (x ∉ history_wants m wants) as Hno by (rewrite <- Hhist; apply not_elem_of_nil).
    unfold history_wants in Hno. rewrite list_elem_of_filter in Hno. unfold kind_at in Hno. rewrite Hkb in Hno.
    cbn in Hno. destruct k; tauto. }
  rewrite <- Ho1 in Hr, Ht, Hfuel.
  pose proof (select_spec False fuel rank (w0 :: ws) haves g1 Hwf1 Hr Ht ltac:(lia)) as H.
  destruct (select_commits fuel (w0 :: ws) haves g1) as [[sel | e] g2]; destruct H as (Ho2 & Hwf2 & H);
    rewrite Ho1 in *; [| done].
  destruct H as (W & commits & tags & Hsel).
  assert (collectable m rank fuel g2) as Hc.
  { split; [done.. | unfold select_fuel in Hfuel; split; lia]. }
  pose proof (collect_selection_spec fuel rank m sel filter ofs_deltas g2 Hc) as H.
  destruct (collect_selection fuel sel filter ofs_deltas g2) as [[col | e] g3]; destruct H as [Ho3 H]; [| done].
  destruct H as (Hndc & Hcol & Hpaths & Hunder).
  destruct (add_direct_spec (wp_direct p) (list_to_set (co_objects col)) (co_objects col) Hndc) as [Hndo Hmem];
    [intros x; apply elem_of_list_to_set |].
  set (objects := add_direct _ _ _) in *.
  assert (forall scheduled, (if ofs_deltas then exists paths, scheduled_as m paths objects scheduled
        /\ forall x p, paths !! x = Some p -> true_path m (to_send sel) x p
      else scheduled = plain_schedule objects) ->
    planned m wants haves filter ofs_deltas (mkPlan scheduled (common sel))) as Hplan.
  { intros scheduled Hs. exists objects. split; [done | split; [done |]].
    rewrite decide_False by (rewrite <- Hhist; done). rewrite <- Hhist. exists (ws_graph g2), W, commits, tags, sel.
    split; [done | split; [done | split; [done | split]]]; intros x.
    - rewrite Hmem, Hcol, Hdirect. tauto.
    - intros [? | ?]%Hunder; [left; apply Hmem; by left | by right]. }
  destruct ofs_deltas; [| by split; [| apply Hplan]].
  pose proof (schedule_for_ofs_spec (mkCollected objects (blob_paths col)) g3) as H.
  destruct (schedule_for_ofs _ g3) as [[scheduled | e] g4]; destruct H as [(Ho4 & _) H]; rewrite Ho3 in *.
  - split; [congruence |]. apply Hplan. by exists (blob_paths col).
  - split; [congruence |]. destruct e; solve [done | by destruct H | by destruct H as [? [=]]].
Qed.

(** ** No hole *)

(** What commit [c] brings: its history, and each commit's trees and blobs. *)
Definition listed (m : gmap Oid (Kind * bytes)) (c x : Oid) : Prop :=
  exists c', reach m c c'
    /\ (x = c' \/ exists r ps t, commit_at m c' = Some (r, ps) /\ tree_from m r t /\ (x = t \/ leaf m t x)).

Lemma peels_unique m w c tags c' tags' :
  peels m w c tags -> peels m w c' tags' -> c' = c /\ tags' = tags.
Proof.
  intros Hp. revert c' tags'. induction Hp as [w body Hw | w body target c tags Hw Ht Hp IH];
    intros c' tags' Hp'; inversion Hp'; simplify_eq; [done |].
  assert (target0 = target) as -> by congruence. by destruct (IH _ _ H1) as [-> ->].
Qed.

Lemma peels_history m w c tags : peels m w c tags -> kind_at m w = Some KCommit \/ kind_at m w = Some KTag.
Proof. unfold kind_at. destruct 1 as [w body -> | w body target c tags -> _ _]; auto. Qed.

(** What a sent commit brings is planned, or brought by a have. *)
Lemma sent_listed m ids haves (objects : list Oid) c x :
  (forall x, under m FilterNone ids x -> x ∈ objects \/ held m FilterNone (commit_roots m haves) x) ->
  c ∈ ids ->
  (exists r ps t, commit_at m c = Some (r, ps) /\ tree_from m r t /\ (x = t \/ leaf m t x)) ->
  x ∈ objects \/ exists h, h ∈ haves /\ listed m h x.
Proof.
  intros Hunder Hc (r & ps & t & Hcm & Ht & Hx).
  assert (r ∈ commit_roots m ids) as Hr by (apply commit_roots_spec; by exists c, ps).
  destruct (Hunder x) as [? | Hh]; [| by left |].
  - destruct Hx as [-> | Hx]; [left; by exists r |]. right. split; [by exists r, t | by intros []].
  - right. destruct Hh as (r' & t' & Hr' & Ht' & Hx').
    apply commit_roots_spec in Hr' as (h & ps' & Hh & Hhm). exists h. split; [done |]. exists h.
    split; [apply rtc_refl |]. right. exists r', ps', t'. split; [done | split; [done |]].
    destruct Hx' as [? | [? _]]; auto.
Qed.

(** C7: a fetch plan is exact.  Over a repository in good order, planning ends,
    changes no object and fails only with a store's failure or the fault of an
    object — a want that is not stored, above all.  The plan holds, once each:
    the wanted trees and blobs, the commits and tags selected for the wants,
    and exactly the trees and admitted blobs these bring that the common haves
    do not.  Its order is the walk's; for offset deltas, blobs with a path
    follow, grouped by the hash of a path they really have. *)
Theorem plan_pack_exact fuel rank wants haves filter ofs_deltas g :
  fetchable (ws_objects g) rank fuel g ->
  let '(r, g') := plan_pack fuel wants haves filter ofs_deltas g in
  ws_objects g' = ws_objects g
  /\ match r with
     | Ok plan => planned (ws_objects g) wants haves filter ofs_deltas plan
     | Err e => fault (ws_objects g) e
     end.
Proof. apply plan_pack_spec. Qed.

(** C6: an unfiltered fetch leaves no hole.  Whatever a want brings — the tags
    on the way to its commit, that commit, its history, and every tree and
    blob of any commit in it — is in the pack or is brought by a have the
    client was told is common; wanted trees and blobs are in the pack. *)
Theorem plan_pack_complete fuel rank wants haves ofs_deltas g :
  fetchable (ws_objects g) rank fuel g ->
  match (plan_pack fuel wants haves FilterNone ofs_deltas g).1 with
  | Ok plan => forall w, w ∈ wants ->
      (forall c tags, peels (ws_objects g) w c tags ->
         (forall t, t ∈ tags -> t ∈ map so_oid (pp_objects plan))
         /\ forall x, listed (ws_objects g) c x ->
              x ∈ map so_oid (pp_objects plan)
              \/ exists h, h ∈ pp_common plan /\ h ∈ haves /\ listed (ws_objects g) h x)
      /\ (kind_at (ws_objects g) w = Some KTree \/ kind_at (ws_objects g) w = Some KBlob ->
          w ∈ map so_oid (pp_objects plan))
  | Err _ => True
  end.
Proof.
  intros Hf. pose proof (plan_pack_spec fuel rank _ wants haves FilterNone ofs_deltas g Hf) as H.
  destruct (plan_pack fuel wants haves FilterNone ofs_deltas g) as [[plan | e] g']; cbn [fst]; [| done].
  destruct H as (_ & objects & _ & Hall & H). set (m := ws_objects g) in *. intros w Hw.
  destruct (decide (history_wants m wants = [])) as [Hnil | Hne].
  - destruct H as (-> & _ & Hmem). rewrite plain_oids. split; [| intros _; by apply Hmem].
    intros c tags Hp%peels_history. assert (w ∈ history_wants m wants) as Hin by (by apply list_elem_of_filter).
    rewrite Hnil in Hin. by apply elem_of_nil in Hin.
  - destruct H as (graph & W & commits & tags & sel & Hsel & -> & Hsched & Hmem & Hunder).
    assert (forall x, x ∈ map so_oid (pp_objects plan) <-> x ∈ objects) as Hoids.
    { intros x. destruct ofs_deltas; [| by rewrite Hsched, plain_oids].
      destruct Hsched as (paths & Hs & _). by rewrite (scheduled_oids _ _ _ _ Hs). }
    split; [| intros Hk; apply Hoids, Hmem; by left].
    intros c wtags Hp.
    destruct Hsel as [(chains & Hch & -> & Htags) Hsend _ [_ Hcommon] _ Hcomplete _ _ _].
    assert (w ∈ history_wants m wants) as Hin
      by (apply list_elem_of_filter; split; [by eapply peels_history | done]).
    apply list_elem_of_lookup in Hin as [i Hi].
    destruct (Forall2_lookup_l _ _ _ _ _ Hch Hi) as ([c' wtags'] & Hci & Hp'). cbn in Hp'.
    destruct (peels_unique _ _ _ _ _ _ Hp Hp') as [-> ->]. apply list_elem_of_lookup_2 in Hci.
    split.
    + intros t Ht. apply Hoids, Hmem. right. left. rewrite Hsend. apply elem_of_app. right.
      apply Htags, list_elem_of_In, in_concat. exists wtags.
      split; apply list_elem_of_In; [| done]. apply list_elem_of_fmap. by exists (c, wtags).
    + intros x (c' & Hr & Hx).
      assert (x ∈ objects \/ exists h, h ∈ common sel /\ listed m h x) as [? | (h & Hh & Hl)].
      { destruct (Hcomplete c') as [Hc' | (h & Hh & Hr')].
        - exists c. split; [| done]. apply list_elem_of_fmap. by exists (c, wtags).
        - assert (c' ∈ to_send sel) as Hs by (rewrite Hsend; apply elem_of_app; by left).
          destruct Hx as [-> | Hx]; [left; apply Hmem; auto |]. by eapply sent_listed.
        - right. exists h. split; [done |]. by exists c'. }
      * left. by apply Hoids.
      * right. exists h. split; [done | split; [by apply Hcommon | done]].
Qed.

End plan.

(** ** A concrete fetch *)
Module PlanSample.

Import CollectSample DiscoverySample.

Abbreviation plan wants haves ofs :=
  (plan_pack (OB := PlainObjects.lib) (WS := MemWalk.lib) 100 wants haves FilterNone ofs MemWalk.repo).

Lemma repo_fetchable :
  fetchable (OB := PlainObjects.lib) (WS := MemWalk.lib) (MemWalk.objects MemWalk.repo) MemWalk.rank 100
    MemWalk.repo.
Proof.
  split; [done | apply repo_collectable | apply GraphSample.repo_ranked | apply repo_tags |
    apply repo_collectable | apply Nat.leb_le; by vm_compute].
Qed.

(** The tag of commit 3 by a client that has commit 1: the tree and its blob
    come with the have. *)
Lemma plan_tag :
  (plan [oid x06] [oid x01] true).1
  = Ok (mkPlan (plain_schedule [oid x03; oid x02; oid x06]) [oid x01]).
Proof. by vm_compute. Qed.

(** From nothing, everything; the blob is grouped by its path [a]. *)
Definition whole : PackPlan HexOid.t :=
  mkPlan (plain_schedule [oid x03; oid x04; oid x02; oid x01; oid x06]
          ++ [mkScheduled (oid x05) (Some 177670%Z)]) [].

Lemma plan_whole : (plan [oid x06] [] true).1 = Ok whole.
Proof. by vm_compute. Qed.

Lemma tag_peels : peels (OB := PlainObjects.lib) (MemWalk.objects MemWalk.repo) (oid x06) (oid x03) [oid x06].
Proof.
  eapply peels_tag; [by vm_compute | by vm_compute |]. eapply peels_commit. by vm_compute.
Qed.

Lemma blob_listed : listed (OB := PlainObjects.lib) (MemWalk.objects MemWalk.repo) (oid x03) (oid x05).
Proof.
  exists (oid x03). split; [apply rtc_refl |]. right. exists (oid x04), [oid x02], (oid x04).
  split; [by vm_compute | split; [apply rtc_refl | right]].
  exists [x61], ([x01; x61] ++ oid_bytes (oid x05)), (mkRawEntry MBlob [x61] (oid x05)).
  split; [by vm_compute | split; [left | done]].
Qed.

End PlanSample.

Import CollectSample PlanSample.

Lemma plan_pack_exact_witness :
  planned (OB := PlainObjects.lib) (MemWalk.objects MemWalk.repo) [oid x06] [] FilterNone true whole.
Proof.
  pose proof (plan_pack_exact (OB := PlainObjects.lib) (WS := MemWalk.lib) 100 MemWalk.rank
    [oid x06] [] FilterNone true MemWalk.repo repo_fetchable) as H.
  pose proof plan_whole as E. destruct (plan [oid x06] [] true) as [r g']. cbn [fst] in E. subst r.
  exact (proj2 H).
Defined.

Lemma plan_pack_complete_witness :
  oid x05 ∈ map so_oid (pp_objects whole)
  \/ exists h, h ∈ pp_common whole /\ h ∈ [] /\ listed (OB := PlainObjects.lib) (MemWalk.objects MemWalk.repo) h (oid x05).
Proof.
  pose proof (plan_pack_complete (OB := PlainObjects.lib) (WS := MemWalk.lib) 100 MemWalk.rank
    [oid x06] [] true MemWalk.repo repo_fetchable) as H.
  pose proof plan_whole as E. destruct (plan [oid x06] [] true) as [r g']. cbn [fst] in E, H. subst r.
  exact (proj2 (proj1 (H (oid x06) ltac:(left)) _ _ tag_peels) (oid x05) blob_listed).
Defined.
