(* ===== verification/Pkt.v ===== *)
(** * The pkt-line framing the protocol handlers read and write

    The codec is a third-party crate ([gix_packetline_blocking]); [PktLib] is
    what the handlers rely on of it: every writer appends a frame, a frame
    decodes to the line it was made from whatever follows it, and the size
    limits.  [PlainPkt] is an implementation of the interface. *)

From S2P Require Import Prelude Bytes GixHash.
From stdpp Require Import strings countable.
From Stdlib Require Import Lia.

(** [PacketLineRef]. *)
Inductive PacketLine : Set :=
  | PktData (data : bytes)
  | PktFlush
  | PktDelimiter
  | PktResponseEnd.

(** [Channel]: the side-band channels. *)
Inductive Channel : Set := ChData | ChProgress | ChError.

Definition channel_byte (c : Channel) : byte :=
  match c with ChData => x01 | ChProgress => x02 | ChError => x03 end.

(** [MAX_BAND_DATA]: the data limit less the channel byte. *)
Definition MAX_DATA_LEN : nat := Z.to_nat 65516.
Definition MAX_BAND_DATA : nat := Z.to_nat 65515.

(** [f] decodes to [line], whatever follows. *)
Definition frames (streaming : bytes -> option (PacketLine * nat)) (line : PacketLine) (f : bytes) : Prop :=
  0 < length f /\ forall rest, streaming (f ++ rest) = Some (line, length f).

Class PktLib (PktErr : Type) : Type := {
  (** [decode::streaming]: [Some] for a complete line with the bytes it took *)
  pkt_streaming : bytes -> option (PacketLine * nat);
  (** [encode::data_to_write] and the others, as the bytes they append *)
  pkt_data : bytes -> result PktErr bytes;
  pkt_error : bytes -> result PktErr bytes;
  pkt_band : Channel -> bytes -> result PktErr bytes;
  pkt_flush : result PktErr bytes;
  pkt_delim : result PktErr bytes;

  pkt_streaming_consumes b line n : pkt_streaming b = Some (line, n) -> 0 < n <= length b;
  pkt_streaming_bound b d n : pkt_streaming b = Some (PktData d, n) -> length d <= MAX_DATA_LEN;
  pkt_data_ok d : 0 < length d <= MAX_DATA_LEN <-> is_ok (pkt_data d) = true;
  pkt_data_frames d f : pkt_data d = Ok f -> frames pkt_streaming (PktData d) f;
  pkt_error_ok m : 0 < length m <= MAX_DATA_LEN - 4 <-> is_ok (pkt_error m) = true;
  pkt_error_frames m f : pkt_error m = Ok f -> frames pkt_streaming (PktData (bs "ERR " ++ m)) f;
  pkt_band_ok c d : 0 < length d <= MAX_BAND_DATA <-> is_ok (pkt_band c d) = true;
  pkt_band_frames c d f : pkt_band c d = Ok f -> frames pkt_streaming (PktData (channel_byte c :: d)) f;
  pkt_flush_frames : exists f, pkt_flush = Ok f /\ frames pkt_streaming PktFlush f;
  pkt_delim_frames : exists f, pkt_delim = Ok f /\ frames pkt_streaming PktDelimiter f;
}.

Section pkt.
Context {PktErr : Type} {Pk : PktLib PktErr}.

(** [b] is the lines [ls] in order, then [rest]. *)
Inductive lines_of : bytes -> list PacketLine -> bytes -> Prop :=
  | lines_nil b : lines_of b [] b
  | lines_cons b line n ls rest :
      pkt_streaming b = Some (line, n) -> lines_of (drop n b) ls rest -> lines_of b (line :: ls) rest.

Lemma lines_of_app b ls rest ls' rest' :
  lines_of b ls rest -> lines_of rest ls' rest' -> lines_of b (ls ++ ls') rest'.
Proof. induction 1; [done |]. intros. cbn [app]. econstructor; eauto. Qed.

Lemma lines_of_frame line f b ls rest :
  frames pkt_streaming line f -> lines_of b ls rest -> lines_of (f ++ b) (line :: ls) rest.
Proof. intros [_ Hf] Hb. econstructor; [apply Hf |]. by rewrite drop_app_length. Qed.

Lemma lines_of_det b ls rest ls' rest' :
  lines_of b ls rest -> lines_of b ls' rest' -> length ls = length ls' -> ls = ls' /\ rest = rest'.
Proof.
  intros H. revert ls' rest'. induction H as [b | b line n ls rest Hs H IH]; intros ls' rest' H' Hlen.
  - destruct ls'; [| done]. by inversion H'.
  - destruct ls' as [| line' ls']; [done |]. inversion H' as [| ? ? n' ? ? Hs' H'']; subst.
    rewrite Hs in Hs'. simplify_eq. destruct (IH _ _ H'') as [-> ->]; [cbn [length] in Hlen; lia | done].
Qed.

(** Reading on is reading the next line. *)
Lemma lines_of_next b ls line rest :
  lines_of b (line :: ls) rest <-> exists n, pkt_streaming b = Some (line, n) /\ lines_of (drop n b) ls rest.
Proof.
  split.
  - intros H. inversion H; subst. eauto.
  - intros (n & ? & ?). by econstructor.
Qed.

Lemma lines_of_head b ls lines rest tail line n :
  pkt_streaming b = Some (line, n) -> lines_of b (map PktData lines ++ tail :: ls) rest ->
  (exists d lines', lines = d :: lines' /\ line = PktData d
     /\ lines_of (drop n b) (map PktData lines' ++ tail :: ls) rest)
  \/ (lines = [] /\ line = tail /\ lines_of (drop n b) ls rest).
Proof.
  intros Hs H. destruct lines as [| d lines]; cbn [map app] in H; apply lines_of_next in H as (n' & Hs' & H);
    rewrite Hs in Hs'; injection Hs' as -> ->; eauto 8.
Qed.

Lemma lines_of_length b ls rest : lines_of b ls rest -> length ls + length rest <= length b.
Proof.
  induction 1 as [b | b line n ls rest Hs H IH]; cbn [length]; [lia |].
  apply pkt_streaming_consumes in Hs. rewrite length_drop in IH. lia.
Qed.

(** What the writers append is one line, and they only fail on a size. *)
Lemma data_ok d : 0 < length d -> length d <= MAX_DATA_LEN ->
  exists f, pkt_data d = Ok f /\ frames pkt_streaming (PktData d) f.
Proof.
  intros H1 H2. pose proof (proj1 (pkt_data_ok d) (conj H1 H2)) as H.
  destruct (pkt_data d) as [f | e] eqn:E; [| done]. eauto using pkt_data_frames.
Qed.

Lemma band_ok c d : 0 < length d -> length d <= MAX_BAND_DATA ->
  exists f, pkt_band c d = Ok f /\ frames pkt_streaming (PktData (channel_byte c :: d)) f.
Proof.
  intros H1 H2. pose proof (proj1 (pkt_band_ok c d) (conj H1 H2)) as H.
  destruct (pkt_band c d) as [f | e] eqn:E; [| done]. eauto using pkt_band_frames.
Qed.

Lemma error_ok m : 0 < length m -> length m <= MAX_DATA_LEN - 4 ->
  exists f, pkt_error m = Ok f /\ frames pkt_streaming (PktData (bs "ERR " ++ m)) f.
Proof.
  intros H1 H2. pose proof (proj1 (pkt_error_ok m) (conj H1 H2)) as H.
  destruct (pkt_error m) as [f | e] eqn:E; [| done]. eauto using pkt_error_frames.
Qed.

(** ** Building a body *)

(** The writers run one after the other on a buffer, stopping at a failure. *)
Fixpoint write_all (ops : list (result PktErr bytes)) : result PktErr bytes :=
  match ops with
  | [] => Ok []
  | op :: ops' => let? f := op in let? fs := write_all ops' in Ok (f ++ fs)
  end.

(** Operations that append the lines [ls]. *)
Definition writes (ops : list (result PktErr bytes)) (ls : list PacketLine) : Prop :=
  Forall2 (fun op line => forall f, op = Ok f -> frames pkt_streaming line f) ops ls.

Lemma write_all_rest ops ls b rest :
  writes ops ls -> write_all ops = Ok b -> lines_of (b ++ rest) ls rest.
Proof.
  intros H. revert b. induction H as [| op line ops ls Hop _ IH]; intros b; cbn [write_all].
  - intros [= <-]. constructor.
  - destruct op as [f | e]; [| done]. destruct (write_all ops) as [fs | e]; [| done].
    intros [= <-]. rewrite <- app_assoc. eapply lines_of_frame; [by apply Hop | by apply IH].
Qed.

Lemma write_all_lines ops ls b :
  writes ops ls -> write_all ops = Ok b -> lines_of b ls [].
Proof. intros H E. rewrite <- (app_nil_r b). by eapply write_all_rest. Qed.

Lemma write_all_ok ops : Forall (fun op => is_ok op = true) ops -> exists b, write_all ops = Ok b.
Proof.
  induction 1 as [| op ops Hop _ [b IH]]; cbn [write_all]; [by eexists |].
  destruct op as [f | e]; [| done]. rewrite IH. by eexists.
Qed.

Lemma write_all_app ops ops' :
  write_all (ops ++ ops') = let? a := write_all ops in let? b := write_all ops' in Ok (a ++ b).
Proof.
  induction ops as [| op ops IH]; cbn [app write_all].
  - by destruct (write_all ops').
  - destruct op as [f | e]; [| done]. rewrite IH. destruct (write_all ops) as [a | e]; [| done].
    destruct (write_all ops'); [| done]. by rewrite app_assoc.
Qed.

Lemma flush_ok : is_ok pkt_flush = true.
Proof. by destruct pkt_flush_frames as (f & -> & _). Qed.

Lemma delim_ok : is_ok pkt_delim = true.
Proof. by destruct pkt_delim_frames as (f & -> & _). Qed.

Lemma flush_frames f : pkt_flush = Ok f -> frames pkt_streaming PktFlush f.
Proof. destruct pkt_flush_frames as (f' & -> & ?). by intros [= <-]. Qed.

Lemma delim_frames f : pkt_delim = Ok f -> frames pkt_streaming PktDelimiter f.
Proof. destruct pkt_delim_frames as (f' & -> & ?). by intros [= <-]. Qed.

(** [ops] succeed and append [ls]. *)
Definition ready (ops : list (result PktErr bytes)) (ls : list PacketLine) : Prop :=
  Forall2 (fun op line => exists f, op = Ok f /\ frames pkt_streaming line f) ops ls.

Lemma ready_body ops ls : ready ops ls ->
  exists b, write_all ops = Ok b
    /\ forall rest ls' r, lines_of rest ls' r -> lines_of (b ++ rest) (ls ++ ls') r.
Proof.
  induction 1 as [| op line ops ls (f & -> & Hf) _ (b & IH & Hb)]; cbn [write_all].
  - by exists [].
  - rewrite IH. exists (f ++ b). split; [done |]. intros rest ls' r Hr. rewrite <- app_assoc.
    cbn [app]. apply lines_of_frame; [done | auto].
Qed.

Lemma ready_lines_app ops ls ops' ls' : ready ops ls -> ready ops' ls' -> ready (ops ++ ops') (ls ++ ls').
Proof. apply Forall2_app. Qed.

Lemma ready_data d ops ls :
  0 < length d -> length d <= MAX_DATA_LEN -> ready ops ls -> ready (pkt_data d :: ops) (PktData d :: ls).
Proof. intros H1 H2 H. constructor; [by apply data_ok | done]. Qed.

Lemma ready_flush ops ls : ready ops ls -> ready (pkt_flush :: ops) (PktFlush :: ls).
Proof. intros H. constructor; [apply pkt_flush_frames | done]. Qed.

Lemma ready_delim ops ls : ready ops ls -> ready (pkt_delim :: ops) (PktDelimiter :: ls).
Proof. intros H. constructor; [apply pkt_delim_frames | done]. Qed.

Lemma ready_map {A} (f : A -> bytes) (l : list A) :
  Forall (fun a => 0 < length (f a) <= MAX_DATA_LEN) l ->
  ready (map (fun a => pkt_data (f a)) l) (map (fun a => PktData (f a)) l).
Proof. induction 1 as [| a l [H1 H2] _ IH]; [constructor | by apply ready_data]. Qed.

Lemma lines_of_packets ls packets :
  Forall2 (frames pkt_streaming) ls packets -> lines_of (concat packets) ls [].
Proof. induction 1; [constructor | by apply lines_of_frame]. Qed.

(** The text of a data line, its newline optional. *)
Definition line_text (data : bytes) : option bytes :=
  from_utf8 (default data (Prelude.strip_suffix (bs "
") data)).

End pkt.

(** A capability token's name, its [=value] dropped. *)
Definition token_name (token : bytes) : bytes :=
  match split_on x3d token with name :: _ => name | [] => token end.

(** Whether a list of tokens offers the capability. *)
Definition offered (name : bytes) (tokens : list bytes) : bool :=
  existsb (fun t => bool_decide (token_name t = name)) tokens.

(** ** An implementation

    Four hexadecimal digits of the length, prefix included; [0000], [0001]
    and [0002] are the control lines. *)
Module PlainPkt.

Inductive error : Set := TooLong | Empty.

Definition prefix (n : nat) : bytes := mbind HexOid.hex_byte (be_bytes 2 (Z.of_nat n)).

Definition streaming (b : bytes) : option (PacketLine * nat) :=
  if decide (length b < 4) then None
  else
    match HexOid.unhex (take 4 b) with
    | None => None
    | Some l =>
        let n := Z.to_nat (from_be_bytes l) in
        if decide (n = 0) then Some (PktFlush, 4)
        else if decide (n = 1) then Some (PktDelimiter, 4)
        else if decide (n = 2) then Some (PktResponseEnd, 4)
        else if decide (n <= 4 \/ MAX_DATA_LEN + 4 < n \/ length b < n) then None
        else Some (PktData (drop 4 (take n b)), n)
    end.

Definition data (d : bytes) : result error bytes :=
  if decide (MAX_DATA_LEN < length d) then Err TooLong
  else if decide (d = []) then Err Empty
  else Ok (prefix (length d + 4) ++ d).

Definition error_line (m : bytes) : result error bytes :=
  if decide (m = []) then Err Empty else data (bs "ERR " ++ m).

Definition band (c : Channel) (d : bytes) : result error bytes :=
  if decide (d = []) then Err Empty else data (channel_byte c :: d).

Lemma length_prefix n : length (prefix n) = 4.
Proof. unfold prefix. cbn [be_bytes seq map rev app]. done. Qed.

Lemma unhex_prefix n : HexOid.unhex (prefix n) = Some (be_bytes 2 (Z.of_nat n)).
Proof. apply HexOid.unhex_hex. Qed.

#[local] Opaque prefix.

Lemma prefix_value n : (Z.of_nat n < 65536)%Z -> Z.to_nat (from_be_bytes (be_bytes 2 (Z.of_nat n))) = n.
Proof. intros Hn. rewrite from_be_bytes_small by lia. lia. Qed.

Lemma streaming_prefix n b :
  (Z.of_nat n < 65536)%Z -> streaming (prefix n ++ b) =
    if decide (n = 0) then Some (PktFlush, 4)
    else if decide (n = 1) then Some (PktDelimiter, 4)
    else if decide (n = 2) then Some (PktResponseEnd, 4)
    else if decide (n <= 4 \/ MAX_DATA_LEN + 4 < n \/ length (prefix n ++ b) < n) then None
    else Some (PktData (take (n - 4) b), n).
Proof.
  intros Hn. unfold streaming. rewrite decide_False by (rewrite length_app, length_prefix; lia).
  rewrite take_app_le, take_ge by (rewrite length_prefix; lia).
  rewrite unhex_prefix, prefix_value by done.
  repeat (case_decide; [done |]). f_equal. f_equal. f_equal.
  rewrite take_app, take_ge by (rewrite length_prefix; lia).
  rewrite drop_app_length' by (by rewrite length_prefix). by rewrite length_prefix.
Qed.

Lemma data_frames d f : data d = Ok f -> frames streaming (PktData d) f.
Proof.
  unfold data. case_decide as Hl; [done |]. case_decide as He; [done |]. intros [= <-].
  unfold MAX_DATA_LEN in Hl. assert (0 < length d) by (destruct d; [done | cbn; lia]).
  split; [rewrite length_app, length_prefix; lia |].
  intros rest. rewrite <- app_assoc, streaming_prefix by lia.
  do 3 (rewrite decide_False by lia). rewrite decide_False.
  - rewrite length_app, length_prefix. rewrite take_app_length' by lia. do 2 f_equal. lia.
  - unfold MAX_DATA_LEN. rewrite !length_app, length_prefix. lia.
Qed.

Lemma data_is_ok d : 0 < length d <= MAX_DATA_LEN <-> is_ok (data d) = true.
Proof.
  unfold data. case_decide; cbn [is_ok]; [split; [lia | done] |]. case_decide as He; cbn [is_ok].
  - rewrite He. cbn. split; [lia | done].
  - split; [done |]. intros _. destruct d; [done | cbn [length] in *; lia].
Qed.

Lemma prefixed_ok c d (x : bytes) :
  length x = c -> 0 < c < MAX_DATA_LEN ->
  0 < length d <= MAX_DATA_LEN - c <-> is_ok (if decide (d = []) then Err Empty else data (x ++ d)) = true.
Proof.
  intros Hx Hc. case_decide as Hd; cbn [is_ok].
  - rewrite Hd. cbn. split; [lia | done].
  - rewrite <- data_is_ok, length_app, Hx. destruct d; [done |]. cbn [length]. lia.
Qed.

Lemma control_frames n line :
  n < 3 -> (forall rest, streaming (prefix n ++ rest) = Some (line, 4)) -> frames streaming line (prefix n).
Proof. intros _ H. split; [rewrite length_prefix; lia |]. intros rest. by rewrite length_prefix. Qed.

#[refine, export] Instance lib : PktLib error := {|
  pkt_streaming := streaming;
  pkt_data := data;
  pkt_error := error_line;
  pkt_band := band;
  pkt_flush := Ok (prefix 0);
  pkt_delim := Ok (prefix 1);
|}.
Proof.
  - intros b line n. unfold streaming. case_decide as Hl; [done |]. case_match; [| done]. cbv zeta.
    repeat (case_decide; [intros [= <- <-]; lia |]).
    intros [= <- <-]. lia.
  - intros b d n. unfold streaming. case_decide as Hl; [done |]. case_match; [| done]. cbv zeta.
    repeat (case_decide; [done |]). intros [= <- _]. rewrite length_drop, length_take. lia.
  - apply data_is_ok.
  - apply data_frames.
  - intros m. apply (prefixed_ok 4 m (bs "ERR ")); [done | unfold MAX_DATA_LEN; lia].
  - intros m f. unfold error_line. case_decide; [done |]. apply data_frames.
  - intros c d. replace MAX_BAND_DATA with (MAX_DATA_LEN - 1) by done.
    apply (prefixed_ok 1 d [channel_byte c]); [done | unfold MAX_DATA_LEN; lia].
  - intros c d f. unfold band. case_decide; [done |]. apply data_frames.
  - eexists. split; [done |]. apply control_frames; [lia |]. intros. by rewrite streaming_prefix by lia.
  - eexists. split; [done |]. apply control_frames; [lia |]. intros. by rewrite streaming_prefix by lia.
Defined.

#[local] Transparent prefix.

End PlainPkt.
