(* ===== verification/Errors.v ===== *)
(** * Error classification ([src/error.rs])

    The one place that maps a domain error to what a client may see of it.
    [Classify] is the trait; its instances follow the code's, one per error
    type.  Logging the source chain of a server fault is not modelled. *)

From S2P Require Import Prelude Bytes GixHash Values GixObject Walk Store PackOut ObjectDb Ingest Promote.
From stdpp Require Import strings.

(** The code's [Class]. *)
Inductive ErrorClass : Set :=
  | Client (reason : bytes)
  | NotFound
  | ServerFault.

#[export] Instance ErrorClass_eq_dec : EqDecision ErrorClass.
Proof. solve_decision. Defined.

Class Classify (E : Type) : Type := class : E -> ErrorClass.

(** [classify] logs a server fault and hands the class on. *)
Definition classify {E} `{Classify E} (err : E) : ErrorClass := class err.

#[export] Instance classify_store {DbError} : Classify (StoreError DbError) := fun _ => ServerFault.

#[export] Instance classify_objectdb {Oid DbError BlobErr} : Classify (ObjectDbError Oid DbError BlobErr) :=
  fun err =>
    match err with
    | OStore e => class e
    | OBlob _ | ObjectDb.CorruptZlib _ => ServerFault
    end.

#[export] Instance classify_ingest {Oid IoErr PackErr InitErr PackDecodeErr ObjErr} `{Classify ObjErr} :
    Classify (IngestError Oid IoErr PackErr InitErr PackDecodeErr ObjErr) :=
  fun err =>
    match err with
    | Pack _ => Client (bs "index-pack failed")
    | BaseLookup e => class e
    | Io _ | BundleInit _ | IDecode _ _ => ServerFault
    end.

(** The markers [POutOfFuel], [OutOfFuel], [WPanicked] and [Panicked] are the
    model's; they are filed with the server's faults, and the components'
    theorems show that they do not arise. *)
#[export] Instance classify_promote {Oid StoreErr ObjErr IngestErr WalkErr DecodeError}
    `{Classify StoreErr, Classify ObjErr, Classify IngestErr, Classify WalkErr} :
    Classify (PromoteError Oid StoreErr ObjErr IngestErr WalkErr DecodeError) :=
  fun err =>
    match err with
    | Connectivity _ _ => Client (bs "missing necessary objects")
    | PStore e => class e
    | PObjects e => class e
    | PStaged e => class e
    | PWalk e => class e
    | PDecode _ _ | POutOfFuel => ServerFault
    end.

#[export] Instance classify_pack_out {Oid E IoError} `{Classify E} : Classify (PackOutError Oid E IoError) :=
  fun err =>
    match err with
    | Input e => class e
    | Write _ | PackOut.CorruptZlib _ | PackTruncated _ _ | Panicked => ServerFault
    end.

#[export] Instance classify_walk {Oid StoreErr ObjErr DecodeError} `{OidLib Oid, Classify StoreErr, Classify ObjErr} :
    Classify (WalkError Oid StoreErr ObjErr DecodeError) :=
  fun err =>
    match err with
    | UnknownWant oid => Client (bs "not our ref " ++ oid_to_hex oid)
    | UnsupportedWant _ _ => Client (bs "want is not a commit or tag")
    | WStore e => class e
    | WObjects e => class e
    | MissingObject _ | UnexpectedKind _ _ _ | Decode _ _ | DiscoveryStalled _ | OutOfFuel | WPanicked =>
        ServerFault
    end.

(** ** What a client may learn

    Storage errors are server faults, all of them, and so is what wraps
    them. *)
Class Internal (E : Type) `{Classify E} : Prop := internal : forall err : E, class err = ServerFault.

#[export] Instance internal_store {DbError} : Internal (StoreError DbError).
Proof. done. Qed.

#[export] Instance internal_objectdb {Oid DbError BlobErr} : Internal (ObjectDbError Oid DbError BlobErr).
Proof. by intros [| |]. Qed.

Section client.
Context {Oid StoreErr ObjErr DecodeError : Type} `{OidLib Oid}.
Context `{Internal StoreErr, Internal ObjErr}.

(** A walk blames its client for its wants only. *)
Lemma walk_class (err : WalkError Oid StoreErr ObjErr DecodeError) :
  class err = ServerFault
  \/ (exists oid, err = UnknownWant oid /\ class err = Client (bs "not our ref " ++ oid_to_hex oid))
  \/ (exists oid kind, err = UnsupportedWant oid kind
        /\ class err = Client (bs "want is not a commit or tag")).
Proof. destruct err; cbn; rewrite ?internal; eauto 6. Qed.

Context {IoErr PackErr InitErr PackDecodeErr : Type}.

(** A push is blamed for a pack that does not index, and for objects it lacks. *)
Lemma ingest_class (err : IngestError Oid IoErr PackErr InitErr PackDecodeErr ObjErr) :
  class err = ServerFault \/ (exists e, err = Pack e /\ class err = Client (bs "index-pack failed")).
Proof. destruct err; cbn; rewrite ?internal; eauto. Qed.

End client.
