(* ===== verification/Http.v ===== *)
(** * The HTTP surface ([src/protocol/http.rs]): requests and responses

    Endpoint and repository names out of request paths, the service
    parameter, the metrics label, and the responses every handler builds.
    The routes themselves are in Server.v, over the handlers.  Request
    correlation ids and tracing spans are not modelled. *)

From S2P Require Import Prelude Bytes.
From stdpp Require Import strings.
From Stdlib Require Import Lia.

Definition INFO_REFS : bytes := bs "info/refs".
Definition UPLOAD_PACK : bytes := bs "git-upload-pack".
Definition RECEIVE_PACK : bytes := bs "git-receive-pack".
Definition SERVICE_UPLOAD_PACK : bytes := bs "git-upload-pack".
Definition SERVICE_RECEIVE_PACK : bytes := bs "git-receive-pack".

Definition OK : Z := 200.
Definition BAD_REQUEST : Z := 400.
Definition NOT_FOUND : Z := 404.
Definition INTERNAL_SERVER_ERROR : Z := 500.

(** ** Responses

    A body is the bytes the client reads; a streamed one is the concatenation
    of its chunks. *)
Record Response : Type := mkResponse {
  rp_status : Z;
  rp_content_type : bytes;
  rp_cache_control : bytes;
  rp_body : bytes;
}.

Definition git_response (status : Z) (content_type body : bytes) : Response :=
  mkResponse status content_type (bs "no-cache") body.

Definition plain (status : Z) (message : bytes) : Response :=
  git_response status (bs "text/plain; charset=utf-8") message.

Definition internal_error : Response := plain INTERNAL_SERVER_ERROR (bs "internal server error").

(** ** Names *)

Inductive RepoNameError : Set := InvalidRepoName.

Definition strip_endpoint (path endpoint : bytes) : option bytes :=
  if decide (path = endpoint) then Some []
  else
    match Prelude.strip_suffix endpoint path with
    | Some p => Prelude.strip_suffix (bs "/") p
    | None => None
    end.

(** The loop over the components. *)
Definition bad_component (c : bytes) : bool :=
  bool_decide (c = []) || bool_decide (c = bs ".") || bool_decide (c = bs "..").

Definition repo_name (prefix : bytes) : result RepoNameError bytes :=
  let name := default prefix (Prelude.strip_suffix (bs ".git") prefix) in
  if decide (name = []) then Err InvalidRepoName
  else if existsb bad_component (split_on x2f name) then Err InvalidRepoName
  else Ok name.

(** [Iterator::find_map] over the pairs of a query. *)
Fixpoint find_map {A B} (f : A -> option B) (l : list A) : option B :=
  match l with
  | [] => None
  | a :: l' => match f a with Some b => Some b | None => find_map f l' end
  end.

Definition service_param (query : option bytes) : option bytes :=
  match query with
  | None => None
  | Some q => find_map (Prelude.strip_prefix (bs "service=")) (split_on x26 q)
  end.

Inductive Endpoint : Set := AdvertUpload | AdvertReceive | ReceivePackRpc | UploadPackRpc.

Definition endpoint_label (e : Endpoint) : bytes :=
  match e with
  | AdvertUpload => bs "advert-upload"
  | AdvertReceive => bs "advert-receive"
  | ReceivePackRpc => bs "receive-pack"
  | UploadPackRpc => bs "upload-pack"
  end.

Definition classify_endpoint (path : bytes) (query : option bytes) : option bytes :=
  let path := default path (Prelude.strip_prefix (bs "/") path) in
  match strip_endpoint path INFO_REFS with
  | Some _ =>
      match service_param query with
      | Some s =>
          if decide (s = SERVICE_UPLOAD_PACK) then Some (endpoint_label AdvertUpload)
          else if decide (s = SERVICE_RECEIVE_PACK) then Some (endpoint_label AdvertReceive)
          else None
      | None => None
      end
  | None =>
      match strip_endpoint path RECEIVE_PACK with
      | Some _ => Some (endpoint_label ReceivePackRpc)
      | None =>
          match strip_endpoint path UPLOAD_PACK with
          | Some _ => Some (endpoint_label UploadPackRpc)
          | None => None
          end
      end
  end.

(** [str::contains]. *)
Fixpoint contains (needle hay : bytes) : bool :=
  starts_with needle hay || match hay with [] => false | _ :: hay' => contains needle hay' end.

(** [header] is the [Git-Protocol] header's value where the request has one
    and it reads as a string. *)
Definition wants_v2 (header : option bytes) : bool :=
  match header with Some value => contains (bs "version=2") value | None => false end.

(** ** Names stay where they are

    What a file system, or any reader that honours [.] and [..], makes of a
    path: [None] once it leaves the root. *)
Fixpoint walk_path (at_ : list bytes) (components : list bytes) : option (list bytes) :=
  match components with
  | [] => Some at_
  | c :: components' =>
      if decide (c = [] \/ c = bs ".") then walk_path at_ components'
      else if decide (c = bs "..") then
        match at_ with
        | [] => None
        | _ => walk_path (removelast at_) components'
        end
      else walk_path (at_ ++ [c]) components'
  end.

Lemma walk_plain cs at_ :
  existsb bad_component cs = false -> walk_path at_ cs = Some (at_ ++ cs).
Proof.
  revert at_. induction cs as [| c cs IH]; intros at_; cbn [existsb walk_path].
  - by rewrite app_nil_r.
  - intros [Hc Hcs]%orb_false_iff. unfold bad_component in Hc.
    apply orb_false_iff in Hc as [[H1 H2]%orb_false_iff H3].
    apply bool_decide_eq_false in H1, H2, H3.
    rewrite decide_False by tauto. rewrite decide_False by done. rewrite IH by done.
    by rewrite <- app_assoc.
Qed.

Lemma repo_name_Ok prefix name :
  repo_name prefix = Ok name <->
  (prefix = name ++ bs ".git" \/ (prefix = name /\ Prelude.strip_suffix (bs ".git") prefix = None))
  /\ name <> [] /\ existsb bad_component (split_on x2f name) = false.
Proof.
  unfold repo_name. destruct (Prelude.strip_suffix (bs ".git") prefix) as [n |] eqn:E; cbn [default from_option id].
  - apply strip_suffix_Some in E as ->. case_decide as Hn; [| case_match eqn:Hb].
    + split; [done |]. intros ([H | [_ H]] & Hne & _); [| done].
      apply app_inj_2 in H as [-> _]; [done | done].
    + split; [done |]. intros ([H | [_ H]] & Hne & Hc); [| done].
      apply app_inj_2 in H as [-> _]; [congruence | done].
    + split.
      * intros [= <-]. auto.
      * intros ([H | [_ H]] & _ & _); [| done].
        by apply app_inj_2 in H as [-> _].
  - assert (forall k, prefix <> k ++ bs ".git") as Hno.
    { intros k ->. by rewrite strip_suffix_app in E. }
    case_decide as Hn; [| case_match eqn:Hb].
    + split; [done |]. intros ([H | [-> _]] & Hne & _); [by apply Hno in H | done].
    + split; [done |]. intros ([H | [-> _]] & Hne & Hc); [by apply Hno in H | congruence].
    + split; [intros [= <-]; auto |]. intros ([H | [-> _]] & Hne & Hc); [by apply Hno in H | done].
Qed.

(** C31: repository names.  A path prefix is refused, or it names, with its one
    optional [.git] removed, a sequence of plain components: followed from any
    directory the name leads to exactly those components below it, so no
    request reaches outside the directory its names are kept under; names
    round trip — every sequence of plain components is the name of its own
    prefix with [.git] appended — and different names lead to different
    places. *)
Theorem repo_name_safe :
  (forall prefix name, repo_name prefix = Ok name ->
     (prefix = name \/ prefix = name ++ bs ".git")
     /\ forall at_, walk_path at_ (split_on x2f name) = Some (at_ ++ split_on x2f name))
  /\ (forall name, name <> [] -> existsb bad_component (split_on x2f name) = false ->
        repo_name (name ++ bs ".git") = Ok name)
  /\ (forall p q n m at_, repo_name p = Ok n -> repo_name q = Ok m ->
        walk_path at_ (split_on x2f n) = walk_path at_ (split_on x2f m) -> n = m).
Proof.
  split_and!.
  - intros prefix name (Hp & _ & Hc)%repo_name_Ok. split; [destruct Hp as [-> | [-> _]]; auto |].
    intros at_. by apply walk_plain.
  - intros name Hne Hc. apply repo_name_Ok. auto.
  - intros p q n m at_ (_ & _ & Hn)%repo_name_Ok (_ & _ & Hm)%repo_name_Ok.
    rewrite !walk_plain by done. intros [= H%app_inv_head].
    by rewrite <- (join_split_on x2f n), <- (join_split_on x2f m), H.
Qed.
