(* ===== verification/Advertise.v ===== *)
(** * Service advertisements ([src/protocol/advertise.rs])

    The three advertisements as the pkt-lines they write, and what a client
    reads back from them. *)

From S2P Require Import Prelude Bytes GixHash Values Pkt.
From stdpp Require Import strings.
From Stdlib Require Import Lia.

Definition UPLOAD_ADVERTISEMENT_CONTENT_TYPE : bytes := bs "application/x-git-upload-pack-advertisement".
Definition RECEIVE_ADVERTISEMENT_CONTENT_TYPE : bytes := bs "application/x-git-receive-pack-advertisement".

(** The package's version, fixed when it is built. *)
Definition CARGO_PKG_VERSION : bytes := bs "0.1.0".

Definition agent : bytes := bs "miscreant/" ++ CARGO_PKG_VERSION.

Definition nl : bytes := [x0a].
Definition nul : bytes := [x00].

Record UploadRef (Oid : Type) : Type := mkUploadRef {
  ur_name : bytes;
  ur_oid : Oid;
  ur_peeled : option Oid;
}.
Arguments mkUploadRef {Oid}.
Arguments ur_name {Oid}.
Arguments ur_oid {Oid}.
Arguments ur_peeled {Oid}.

Section advertise.
Context {PktErr : Type} {Pk : PktLib PktErr} {Oid : Type} {OL : OidLib Oid}.

Abbreviation R A := (result PktErr A).

(** The protocol-v2 capability advertisement. *)
Definition advertise_upload_pack : R bytes :=
  write_all
    [ pkt_data (bs "# service=git-upload-pack" ++ nl);
      pkt_flush;
      pkt_data (bs "version 2" ++ nl);
      pkt_data (bs "agent=" ++ agent ++ nl);
      pkt_data (bs "ls-refs=unborn" ++ nl);
      pkt_data (bs "fetch=filter" ++ nl);
      pkt_data (bs "object-info" ++ nl);
      pkt_data (bs "object-format=sha1" ++ nl);
      pkt_flush ].

Definition receive_caps : bytes :=
  bs "report-status delete-refs side-band-64k ofs-delta agent=" ++ agent.

(** One line of a ref; the first written carries the capabilities. *)
Definition ref_line (first : bool) (caps : bytes) (oid : Oid) (name : bytes) : bytes :=
  if first then oid_to_hex oid ++ bs " " ++ name ++ nul ++ caps ++ nl
  else oid_to_hex oid ++ bs " " ++ name ++ nl.

(** The line that carries the capabilities when there is no ref to. *)
Definition null_line (object_format : HashKind) (caps : bytes) : bytes :=
  oid_to_hex (oid_null object_format) ++ bs " capabilities^{}" ++ nul ++ caps ++ nl.

(** The loop over the refs: the lines of the direct ones, and whether the
    first is still to come. *)
Fixpoint receive_lines (refs : list (bytes * RefTarget Oid)) (first : bool) : list (R bytes) * bool :=
  match refs with
  | [] => ([], first)
  | (_, Reference _) :: refs' => receive_lines refs' first
  | (name, Direct oid) :: refs' =>
      let '(ops, first') := receive_lines refs' false in
      (pkt_data (ref_line first receive_caps oid name) :: ops, first')
  end.

Definition advertise_receive_pack (refs : list (bytes * RefTarget Oid)) (object_format : HashKind) : R bytes :=
  let '(ops, first) := receive_lines refs true in
  write_all
    ([pkt_data (bs "# service=git-receive-pack" ++ nl); pkt_flush] ++ ops
     ++ (if first then [pkt_data (null_line object_format receive_caps)] else []) ++ [pkt_flush]).

Definition v0_caps (head_symref_target : option bytes) : bytes :=
  bs "multi_ack_detailed side-band-64k no-progress ofs-delta agent=" ++ agent
  ++ match head_symref_target with
     | Some target => bs " symref=HEAD:" ++ target
     | None => []
     end.

Definition peeled_line (oid : Oid) (name : bytes) : bytes :=
  oid_to_hex oid ++ bs " " ++ name ++ bs "^{}" ++ nl.

Fixpoint upload_lines (refs : list (UploadRef Oid)) (first : bool) (caps : bytes) : list (R bytes) :=
  match refs with
  | [] => []
  | advertised :: refs' =>
      pkt_data (ref_line first caps (ur_oid advertised) (ur_name advertised))
      :: match ur_peeled advertised with
         | Some peeled => [pkt_data (peeled_line peeled (ur_name advertised))]
         | None => []
         end
      ++ upload_lines refs' false caps
  end.

Definition advertise_upload_pack_v0 (refs : list (UploadRef Oid)) (head_symref_target : option bytes)
    (object_format : HashKind) : R bytes :=
  let caps := v0_caps head_symref_target in
  write_all
    ([pkt_data (bs "# service=git-upload-pack" ++ nl); pkt_flush]
     ++ (match refs with
         | [] => [pkt_data (null_line object_format caps)]
         | _ => upload_lines refs true caps
         end)
     ++ [pkt_flush]).

Definition error_line (message : bytes) : R bytes := pkt_error message.

(** ** What an advertisement reads as *)

(** The texts of a ref and of what it peels to. *)
Fixpoint upload_texts (refs : list (UploadRef Oid)) (first : bool) (caps : bytes) : list bytes :=
  match refs with
  | [] => []
  | advertised :: refs' =>
      ref_line first caps (ur_oid advertised) (ur_name advertised)
      :: match ur_peeled advertised with Some peeled => [peeled_line peeled (ur_name advertised)] | None => [] end
      ++ upload_texts refs' false caps
  end.

Definition upload_v0_lines (refs : list (UploadRef Oid)) (head_symref_target : option bytes)
    (object_format : HashKind) : list PacketLine :=
  let caps := v0_caps head_symref_target in
  PktData (bs "# service=git-upload-pack" ++ nl) :: PktFlush
  :: map PktData (match refs with [] => [null_line object_format caps] | _ => upload_texts refs true caps end)
  ++ [PktFlush].

(** The direct refs, which are those a push may move. *)
Definition direct_refs (refs : list (bytes * RefTarget Oid)) : list (bytes * Oid) :=
  omap (fun r => match r.2 with Direct oid => Some (r.1, oid) | Reference _ => None end) refs.

Definition receive_texts (refs : list (bytes * Oid)) (object_format : HashKind) : list bytes :=
  match refs with
  | [] => [null_line object_format receive_caps]
  | (name, oid) :: refs' => ref_line true receive_caps oid name :: map (fun r => ref_line false receive_caps r.2 r.1) refs'
  end.

Definition receive_adv_lines (refs : list (bytes * RefTarget Oid)) (object_format : HashKind) : list PacketLine :=
  PktData (bs "# service=git-receive-pack" ++ nl) :: PktFlush
  :: map PktData (receive_texts (direct_refs refs) object_format) ++ [PktFlush].

Lemma upload_lines_texts refs first caps : upload_lines refs first caps = map pkt_data (upload_texts refs first caps).
Proof.
  revert first. induction refs as [| a refs IH]; intros first; [done |]. cbn [upload_lines upload_texts map].
  f_equal. rewrite map_app, IH. by destruct (ur_peeled a).
Qed.

Lemma receive_lines_false refs :
  receive_lines refs false = (map pkt_data (map (fun r => ref_line false receive_caps r.2 r.1) (direct_refs refs)), false).
Proof.
  induction refs as [| [name [oid | inner]] refs IH]; [done | |]; cbn [receive_lines]; [| done]. by rewrite IH.
Qed.

Lemma receive_lines_texts refs object_format :
  let '(ops, first) := receive_lines refs true in
  ops ++ (if first then [pkt_data (null_line object_format receive_caps)] else [])
  = map pkt_data (receive_texts (direct_refs refs) object_format).
Proof.
  induction refs as [| [name [oid | inner]] refs IH]; [done | |]; cbn [receive_lines]; [| done].
  rewrite receive_lines_false. cbn. by rewrite app_nil_r.
Qed.

Lemma texts_write texts : writes (map pkt_data texts) (map PktData texts).
Proof. apply Forall2_fmap, Forall_Forall2_diag, Forall_forall. intros d _ f. apply pkt_data_frames. Qed.

Lemma framed_write service texts :
  writes ([pkt_data service; pkt_flush] ++ map pkt_data texts ++ [pkt_flush])
    (PktData service :: PktFlush :: map PktData texts ++ [PktFlush]).
Proof.
  constructor; [intros f; apply pkt_data_frames | constructor; [apply flush_frames |]].
  apply Forall2_app; [apply texts_write | constructor; [apply flush_frames | constructor]].
Qed.

Lemma upload_pack_v0_reads refs symref object_format b :
  advertise_upload_pack_v0 refs symref object_format = Ok b -> lines_of b (upload_v0_lines refs symref object_format) [].
Proof.
  unfold advertise_upload_pack_v0. intros H. eapply write_all_lines; [| exact H].
  replace (match refs with [] => [pkt_data (null_line object_format (v0_caps symref))] | _ => upload_lines refs true (v0_caps symref) end)
    with (map pkt_data (match refs with [] => [null_line object_format (v0_caps symref)] | _ => upload_texts refs true (v0_caps symref) end))
    by (destruct refs; [done | by rewrite upload_lines_texts]).
  apply framed_write.
Qed.

Lemma receive_pack_reads refs object_format :
  advertise_receive_pack refs object_format
  = write_all ([pkt_data (bs "# service=git-receive-pack" ++ nl); pkt_flush]
      ++ map pkt_data (receive_texts (direct_refs refs) object_format) ++ [pkt_flush]).
Proof.
  unfold advertise_receive_pack. pose proof (receive_lines_texts refs object_format) as H.
  destruct (receive_lines refs true) as [ops first]. by rewrite <- H, <- !app_assoc.
Qed.

(** An advertisement is written when all its lines fit, and never otherwise. *)
Lemma framed_ok service texts :
  0 < length service <= MAX_DATA_LEN ->
  is_ok (write_all ([pkt_data service; pkt_flush] ++ map pkt_data texts ++ [pkt_flush])) = true
  <-> Forall (fun t => 0 < length t <= MAX_DATA_LEN) texts.
Proof.
  intros Hs. assert (forall ops : list (result PktErr bytes), is_ok (write_all ops) = true <-> Forall (fun op => is_ok op = true) ops) as Hall.
  { induction ops as [| [f | e] ops IH]; cbn [write_all]; [done | |].
    - rewrite Forall_cons, <- IH. cbn. destruct (write_all ops); cbn; tauto.
    - rewrite Forall_cons. cbn. split; [done | by intros [? _]]. }
  rewrite Hall, Forall_app, Forall_app, Forall_cons, !Forall_singleton, flush_ok, <- pkt_data_ok, Forall_map.
  setoid_rewrite <- pkt_data_ok. tauto.
Qed.

End advertise.
