(* ===== verification/Stream.v ===== *)
(** * Streaming a pack ([src/protocol/upload_pack.rs], the response half)

    Objects are read in plan order and handed to the pack writer, whose bytes
    leave through one of two [io::Write] sinks: framed into side-band packets,
    or raw.  The response channel is bounded and its reader may hang up; the
    model counts the chunks it still takes.  Timing, metrics and the
    interleaving of the lookup task with the writer are not modelled: lookups
    arrive in plan order whatever their concurrency. *)

From S2P Require Import Prelude Bytes GixHash Values Zlib PackDelta PackOut Store GixObject Walk Effects Promote Repo PlanPack Pkt.
From S2P Require Import Errors.
From stdpp Require Import gmap strings.
From Stdlib Require Import Lia.

Lemma dec_digits_length fuel n acc : length acc < length (dec_digits fuel n acc) <= S fuel + length acc.
Proof.
  revert n acc. induction fuel as [| fuel IH]; intros n acc; cbn [dec_digits]; [cbn [length]; lia |].
  destruct (n <? 10)%Z; [cbn [length]; lia |]. specialize (IH (n / 10)%Z (as_u8 (48 + n mod 10) :: acc)).
  cbn [length] in IH. lia.
Qed.

Lemma dec_length n w : (0 <= n < 2 ^ w)%Z -> (0 < w)%Z -> 0 < length (dec n) <= Z.to_nat w.
Proof.
  intros Hn Hw. unfold dec. pose proof (dec_digits_length (Z.to_nat (Z.log2 n)) n []) as H. cbn [length] in H.
  assert (Z.log2 n < w)%Z; [| lia].
  destruct (decide (n = 0%Z)) as [-> |]; [done |]. apply Z.log2_lt_pow2; lia.
Qed.

Lemma dec_digits_value fuel n acc :
  (0 <= n)%Z -> (n < 2 ^ (Z.of_nat fuel + 1))%Z ->
  exists l, dec_digits fuel n acc = l ++ acc /\ decimal l = n
    /\ Forall (fun b => (48 <= u8 b < 58)%Z) l.
Proof.
  revert n acc. induction fuel as [| fuel IH]; intros n acc H0 Hn; cbn [dec_digits].
  - exists [as_u8 (48 + n mod 10)]. cbn in Hn. rewrite Z.mod_small by lia.
    split; [done |]. unfold decimal. cbn [fold_left]. rewrite u8_as_u8_small by lia.
    split; [lia |]. constructor; [| done]. rewrite u8_as_u8_small; lia.
  - pose proof (Z.mod_pos_bound n 10 eq_refl) as Hm. destruct (Z.ltb_spec n 10).
    + exists [as_u8 (48 + n mod 10)]. rewrite Z.mod_small in * by lia. split; [done |].
      unfold decimal. cbn [fold_left]. rewrite u8_as_u8_small by lia. split; [lia |].
      constructor; [| done]. rewrite u8_as_u8_small; lia.
    + destruct (IH (n / 10)%Z (as_u8 (48 + n mod 10) :: acc)) as (l & E & Hv & Hd).
      { apply Z.div_pos; lia. }
      { replace (Z.of_nat (S fuel) + 1)%Z with (1 + (Z.of_nat fuel + 1))%Z in Hn by lia.
        rewrite Z.pow_add_r in Hn by lia. apply Z.div_lt_upper_bound; lia. }
      exists (l ++ [as_u8 (48 + n mod 10)]). rewrite E, <- app_assoc. split; [done |].
      unfold decimal in *. rewrite fold_left_app, Hv. cbn [fold_left]. rewrite u8_as_u8_small by lia.
      split; [pose proof (Z.div_mod n 10); lia |]. apply Forall_app. split; [done |].
      constructor; [| done]. rewrite u8_as_u8_small; lia.
Qed.

(** The printed digits denote the number. *)
Lemma decimal_dec n : (0 <= n)%Z -> decimal (dec n) = n /\ Forall (fun b => (48 <= u8 b < 58)%Z) (dec n).
Proof.
  intros Hn. destruct (dec_digits_value (Z.to_nat (Z.log2 n)) n []) as (l & E & Hv & Hd); [done | |].
  - rewrite Z2Nat.id by apply Z.log2_nonneg. destruct (decide (n = 0%Z)) as [-> |]; [done |].
    apply Z.log2_lt_pow2; lia.
  - unfold dec. by rewrite E, app_nil_r.
Qed.

(** ** The response channel *)

Record Body : Type := mkBody {
  sent : list bytes;
  (** the chunks the client takes before it hangs up, if it ever does *)
  room : option nat;
}.

(** The two io errors of the sinks: the channel is closed, or a packet could
    not be encoded. *)
Inductive IoError (PktErr : Type) : Type := BrokenPipe | OtherIo (e : PktErr).
Arguments BrokenPipe {PktErr}.
Arguments OtherIo {PktErr}.

(** [gix_hash::io::Error]. *)
Inductive HashIoError (PktErr HashErr : Type) : Type :=
  | HashIo (e : IoError PktErr)
  | Hasher (e : HashErr).
Arguments HashIo {PktErr HashErr}.
Arguments Hasher {PktErr HashErr}.

(** What the pack library does with the sink it was given: calls of
    [write_all] and [flush], or a failure of its own hasher. *)
Inductive WriteOp (HashErr : Type) : Type :=
  | OpWrite (data : bytes)
  | OpFlush
  | OpFail (e : HashErr).
Arguments OpWrite {HashErr}.
Arguments OpFlush {HashErr}.
Arguments OpFail {HashErr}.

(** The pack library's entry iterator ([FromEntriesIter]) over any sink: the
    calls for the header, for each entry and for the trailing checksum, after
    which it flushes. *)
Class PackFormat (Oid Digest HashErr F : Type) : Type := {
  pf_start : HashKind -> F;
  pf_header : Z -> F -> list (WriteOp HashErr) * F;
  pf_entry : Entry Oid -> F -> list (WriteOp HashErr) * F;
  pf_trailer : F -> list (WriteOp HashErr) * Digest;
  pf_trailer_flushes f : exists ops, (pf_trailer f).1 = ops ++ [OpFlush];
}.

Inductive FetchObjectError (Oid ObjErr : Type) : Type :=
  | FObjects (e : ObjErr)
  | Missing (oid : Oid).
Arguments FObjects {Oid ObjErr}.
Arguments Missing {Oid ObjErr}.

#[export] Instance classify_fetch_object {Oid ObjErr} `{Classify ObjErr} : Classify (FetchObjectError Oid ObjErr) :=
  fun err => match err with FObjects e => class e | Missing _ => ServerFault end.

(** The two sinks: the bytes accepted and not yet sent, and all accepted so
    far. *)
Record Writer : Type := mkWriter {
  wr_body : Body;
  wr_buf : bytes;
  wr_bytes_written : Z;
}.

Section stream.
Context {Oid : Type} {OL : OidLib Oid} {PktErr : Type} {Pk : PktLib PktErr} {Zl : ZlibLib}.
Context {Digest HashErr F : Type} {PF : PackFormat Oid Digest HashErr F}.

Abbreviation IoE := (IoError PktErr).
Abbreviation HioE := (HashIoError PktErr HashErr).
Abbreviation Op := (WriteOp HashErr).

Definition body_send (chunk : bytes) : SE Body IoE unit := fun b =>
  match room b with
  | None => (Ok tt, mkBody (sent b ++ [chunk]) None)
  | Some (S n) => (Ok tt, mkBody (sent b ++ [chunk]) (Some n))
  | Some O => (Err BrokenPipe, b)
  end.

Definition send_framed (framing : bytes -> result PktErr bytes) (data : bytes) : SE Body IoE unit :=
  do! packet <- se_lift (map_err OtherIo (framing data)); body_send packet.

Definition send_band (channel : Channel) (data : bytes) : SE Body IoE unit :=
  send_framed (pkt_band channel) data.

(** ** The sinks

    [BandWriter] frames what it sends as channel-1 packets, [RawWriter] sends
    it as it is; they buffer alike. *)
Section writer.
Context (framing : bytes -> result PktErr bytes).

Definition on_body {A} (m : SE Body IoE A) : SE Writer IoE A := fun w =>
  let '(r, b) := m (wr_body w) in (r, mkWriter b (wr_buf w) (wr_bytes_written w)).

(** The loop of [write]; its buffer shrinks by a full packet every turn. *)
Fixpoint drain (fuel : nat) : SE Writer IoE unit := fun w =>
  if decide (MAX_BAND_DATA <= length (wr_buf w)) then
    match fuel with
    | O => (Ok tt, w)
    | S fuel' =>
        let rest := drop MAX_BAND_DATA (wr_buf w) in
        let full := take MAX_BAND_DATA (wr_buf w) in
        (do! _ <- on_body (send_framed framing full); drain fuel')
          (mkWriter (wr_body w) rest (wr_bytes_written w))
    end
  else (Ok tt, w).

Definition writer_write (data : bytes) : SE Writer IoE nat := fun w =>
  let buf := wr_buf w ++ data in
  (do! _ <- drain (length buf); se_ret (length data))
    (mkWriter (wr_body w) buf (wr_bytes_written w + Z.of_nat (length data))).

Definition writer_flush : SE Writer IoE unit := fun w =>
  if decide (wr_buf w = []) then (Ok tt, w)
  else on_body (send_framed framing (wr_buf w)) (mkWriter (wr_body w) [] (wr_bytes_written w)).

(** One call of the pack library.  [write_all] is content with the first
    [write], which takes all it is given. *)
Definition run_op (op : Op) : SE Writer HioE unit :=
  match op with
  | OpWrite data => do! _ <- se_map_err HashIo (writer_write data); se_ret tt
  | OpFlush => se_map_err HashIo writer_flush
  | OpFail e => se_err (Hasher e)
  end.

Fixpoint run_ops (ops : list Op) : SE Writer HioE unit :=
  match ops with
  | [] => se_ret tt
  | op :: ops' => do! _ <- run_op op; run_ops ops'
  end.

(** Run the calls, then hand on what the library goes on with. *)
Definition perform {A} (ops : list Op) (f : F) (a : A) : SE (Writer * F) HioE A := fun '(w, _) =>
  let '(r, w) := run_ops ops w in
  (match r with Ok _ => Ok a | Err e => Err e end, (w, f)).

#[local] Instance pack_writer : @PackWriter Oid HioE (Writer * F) Digest := {
  pw_header n := fun s => let '(ops, f) := pf_header n s.2 in perform ops f tt s;
  pw_entry e := fun s => let '(ops, f) := pf_entry e s.2 in perform ops f tt s;
  pw_trailer := fun s => let '(ops, digest) := pf_trailer s.2 in perform ops s.2 digest s;
}.

End writer.

(** ** The two halves of a streamed response *)

Context {StoreErr ObjErr G : Type} {WS : WalkStore Oid StoreErr ObjErr G}.
Context {PS : PromoteStore Oid StoreErr ObjErr G} {RS : RepoStore Oid StoreErr ObjErr G}.
Context {CO : Classify ObjErr}.

Abbreviation FE := (FetchObjectError Oid ObjErr).
Abbreviation Item := (result FE (PackEntry Oid)).
Abbreviation PoE := (PackOutError Oid FE HioE).

(** The entry made of a lookup. *)
Definition fetched (object : ScheduledObject Oid) (r : result ObjErr (option (Kind * Z * bytes))) : Item :=
  match r with
  | Ok (Some (kind, decompressed_size, zlib)) =>
      Ok (mkPackEntry (so_oid object) kind decompressed_size zlib (so_delta_group object))
  | Ok None => Err (Missing (so_oid object))
  | Err err => Err (FObjects err)
  end.

(** What the writer receives, up to the first failure. *)
Fixpoint feed_objects (objects : list (ScheduledObject Oid)) : G -> list Item * G :=
  match objects with
  | [] => fun g => ([], g)
  | object :: objects' => fun g =>
      let '(r, g) := rs_read_compressed (so_oid object) g in
      match fetched object r with
      | Err e => ([Err e], g)
      | Ok entry => let '(items, g) := feed_objects objects' g in (Ok entry :: items, g)
      end
  end.

Definition is_broken_pipe (err : PoE) : bool :=
  match err with Write (HashIo BrokenPipe) => true | _ => false end.

Definition new_writer (body : Body) : Writer := mkWriter body [] 0.

(** The pack written through a sink, and the channel after it. *)
Definition write_through (framing : bytes -> result PktErr bytes) (objects : list Item) (count : Z)
    (object_hash : HashKind) (ofs_deltas : bool) (body : Body) : result PoE Digest * Body :=
  let '(outcome, s) :=
    write_pack_with_options (PW := pack_writer framing) objects count (mkPackOptions ofs_deltas)
      DeltaStats_default (new_writer body, pf_start object_hash) in
  (outcome, wr_body (ws_out s).1).

Definition progress_line (verb : bytes) (count : Z) : bytes := verb ++ bs " " ++ dec count ++ bs " objects" ++ [x0a].

Definition stream_pack (objects : list Item) (body : Body) (count : Z) (object_hash : HashKind)
    (sideband no_progress ofs_deltas : bool) : Body :=
  if sideband then
    let body := if no_progress then body
                else (send_band ChProgress (progress_line (bs "packing") count) body).2 in
    let '(outcome, body) := write_through (pkt_band ChData) objects count object_hash ofs_deltas body in
    match outcome with
    | Ok _ =>
        let body := if no_progress then body
                    else (send_band ChProgress (progress_line (bs "packed") count) body).2 in
        match pkt_flush with
        | Ok flush => (body_send flush body).2
        | Err _ => body
        end
    | Err err =>
        if is_broken_pipe err then body
        else
          let reason := match classify err with
                        | Client reason => reason
                        | NotFound | ServerFault => bs "internal error"
                        end in
          (send_band ChError reason body).2
    end
  else (write_through (fun data => Ok data) objects count object_hash ofs_deltas body).2.

(** ** A reader that hangs up sees a prefix

    [cutting P]: however many chunks the channel still takes, [P] sends what
    it would have sent, up to that many; if that is all of it, nothing else
    changes, and if not, [P] fails with a broken pipe then and there. *)
Class HasBody (S : Type) : Type := {
  chan : S -> Body;
  limit : option nat -> S -> S;
  chan_limit r s : chan (limit r s) = mkBody (sent (chan s)) r;
  limit_limit r r' s : limit r (limit r' s) = limit r s;
  limit_room s : limit (room (chan s)) s = s;
}.

#[refine, local] Instance body_has_body : HasBody Body := {|
  chan b := b;
  limit r b := mkBody (sent b) r;
|}.
Proof. all: by try intros []. Defined.

#[refine, local] Instance writer_has_body : HasBody Writer := {|
  chan w := wr_body w;
  limit r w := mkWriter (mkBody (sent (wr_body w)) r) (wr_buf w) (wr_bytes_written w);
|}.
Proof. - done. - done. - by intros [[] ? ?]. Defined.

#[refine, local] Instance pair_has_body : HasBody (Writer * F) := {|
  chan s := wr_body s.1;
  limit r s := (limit r s.1, s.2);
|}.
Proof. - done. - done. - by intros [[[] ? ?] ?]. Defined.

#[refine, local] Instance state_has_body : HasBody (WriteState (W := Writer * F)) := {|
  chan s := wr_body (ws_out s).1;
  limit r s := mkWriteState (limit r (ws_out s)) (ws_written s) (ws_planner s);
|}.
Proof. - done. - done. - by intros [[[[] ? ?] ?] ? ?]. Defined.

Definition cutting {S A E} `{HasBody S} (broken : E) (P : SE S E A) : Prop := forall s, room (chan s) = None ->
  exists new, sent (chan (P s).2) = sent (chan s) ++ new /\ room (chan (P s).2) = None
    /\ (P s).1 <> Err broken
    /\ forall m,
         if decide (length new <= m)
         then P (limit (Some m) s) = ((P s).1, limit (Some (m - length new)) (P s).2)
         else (P (limit (Some m) s)).1 = Err broken
              /\ chan (P (limit (Some m) s)).2 = mkBody (sent (chan s) ++ take m new) (Some 0).

Section cutting.
Context {S : Type} {HB : HasBody S}.

Lemma cutting_pure {A E} (broken : E) (f : S -> result E A) (g : S -> S) :
  (forall s, f s <> Err broken) -> (forall r s, f (limit r s) = f s) ->
  (forall r s, g (limit r s) = limit r (g s)) -> (forall s, chan (g s) = chan s) ->
  cutting broken (fun s => (f s, g s)).
Proof.
  intros Hf Hfl Hgl Hg s Hs. exists []. cbn [fst snd length]. rewrite Hg, app_nil_r.
  split; [done | split; [done | split; [done |]]]. intros m. rewrite decide_True by lia.
  by rewrite Hfl, Hgl, Nat.sub_0_r.
Qed.

Lemma cutting_ret {A E} (broken : E) (a : A) : cutting broken (se_ret a).
Proof. by apply (cutting_pure _ (fun _ => Ok a) (fun s => s)). Qed.

Lemma cutting_err {A E} (broken e : E) : e <> broken -> cutting (A := A) broken (se_err e).
Proof. intros He. apply (cutting_pure _ (fun _ => Err e) (fun s => s)); congruence. Qed.

Lemma cutting_bind {A B E} (broken : E) (P : SE S E A) (k : A -> SE S E B) :
  cutting broken P -> (forall a, cutting broken (k a)) -> cutting broken (se_bind P k).
Proof.
  intros HP Hk s Hs. destruct (HP s Hs) as (new & Hsent & Hroom & Hne & Hm).
  unfold se_bind. destruct (P s) as [[a | e] s1]; cbn [fst snd] in *.
  - destruct (Hk a s1 Hroom) as (new' & Hsent' & Hroom' & Hne' & Hm').
    exists (new ++ new'). rewrite Hsent', Hsent, app_assoc.
    split; [done | split; [done | split; [done |]]]. intros m. specialize (Hm m).
    rewrite length_app. destruct (decide (length new <= m)) as [Hle |].
    + rewrite Hm. specialize (Hm' (m - length new)).
      destruct (decide (length new' <= m - length new)).
      * rewrite decide_True, Hm' by lia. do 3 f_equal. lia.
      * rewrite decide_False by lia. destruct Hm' as [-> ->]. split; [done |].
        by rewrite Hsent, take_app, (take_ge new) by lia; rewrite app_assoc.
    + rewrite decide_False by lia. destruct (P (limit (Some m) s)) as [r s2].
      cbn [fst snd] in Hm. destruct Hm as [-> Hc]. cbn [fst snd]. split; [done |].
      rewrite Hc. by rewrite take_app_le by lia.
  - exists new. split; [done | split; [done | split; [congruence |]]]. intros m. specialize (Hm m).
    destruct (decide (length new <= m)); [by rewrite Hm |].
    destruct (P (limit (Some m) s)) as [r s2]. cbn [fst snd] in Hm. by destruct Hm as [-> Hc].
Qed.

(** Through a change of state and of errors. *)
Lemma cutting_through {T A B E E'} {HT : HasBody T} (broken : E) (broken' : E') (P : SE S E A)
    (get : T -> S) (put : S -> T -> T) (h : result E A -> T -> result E' B) :
  (forall t, chan (get t) = chan t) -> (forall s t, chan (put s t) = chan s) ->
  (forall r t, get (limit r t) = limit r (get t)) ->
  (forall r r' s t, put (limit r s) (limit r' t) = limit r (put s t)) ->
  (forall r x t, h x (limit r t) = h x t) ->
  (forall x t, h x t = Err broken' <-> x = Err broken) ->
  cutting broken P ->
  cutting broken' (fun t => let '(r, s) := P (get t) in (h r t, put s t)).
Proof.
  intros Hg Hp Hgl Hpl Hhl Hh HP t Ht. rewrite <- Hg in Ht.
  destruct (HP _ Ht) as (new & Hsent & Hroom & Hne & Hm). exists new.
  destruct (P (get t)) as [x s] eqn:E0; cbn [fst snd] in *. rewrite Hp, <- (Hg t).
  split; [done | split; [done | split; [by rewrite Hh |]]]. intros m. specialize (Hm m).
  rewrite Hgl. destruct (decide (length new <= m)).
  - by rewrite Hm, Hhl, Hpl.
  - destruct (P (limit (Some m) (get t))) as [y s'] eqn:E1. cbn [fst snd] in *.
    destruct Hm as [-> Hc]. rewrite Hp, Hhl. split; [by apply Hh | done].
Qed.

End cutting.

Lemma body_send_cutting chunk : cutting BrokenPipe (body_send chunk).
Proof.
  intros [l r]. cbn. intros ->. exists [chunk]. split; [done | split; [done | split; [done |]]].
  intros m. unfold body_send. cbn. destruct m as [| m]; [by rewrite decide_False, app_nil_r by lia |].
  rewrite decide_True by lia. do 3 f_equal. lia.
Qed.

Lemma lift_cutting {S A E} `{HasBody S} (broken : E) (r : result E A) :
  r <> Err broken -> cutting broken (se_lift r).
Proof. intros Hr. by apply (cutting_pure _ (fun _ => r) (fun s => s)). Qed.

Lemma send_framed_cutting framing data : cutting BrokenPipe (send_framed framing data).
Proof.
  apply cutting_bind; [| intros; apply body_send_cutting].
  apply lift_cutting. by destruct (framing data).
Qed.

Section sink.
Context (framing : bytes -> result PktErr bytes).

Lemma on_body_cutting {A} (m : SE Body IoE A) : cutting BrokenPipe m -> cutting BrokenPipe (on_body m).
Proof.
  apply (cutting_through _ _ m wr_body (fun b w => mkWriter b (wr_buf w) (wr_bytes_written w))
    (fun r _ => r)); done.
Qed.

(** A choice of program that does not look at the room. *)
Lemma cutting_choice {T I A E} {HT : HasBody T} (broken : E) (P : I -> SE T E A) (i : T -> I) (g : T -> T) :
  (forall t, chan (g t) = chan t) -> (forall r t, g (limit r t) = limit r (g t)) ->
  (forall r t, i (limit r t) = i t) -> (forall i, cutting broken (P i)) ->
  cutting broken (fun t => P (i t) (g t)).
Proof.
  intros Hc Hl Hi HP t Ht. rewrite <- Hc in Ht. destruct (HP (i t) _ Ht) as (new & H).
  exists new. rewrite <- (Hc t). destruct H as (? & ? & ? & Hm).
  split; [done | split; [done | split; [done |]]]. intros m. specialize (Hm m). by rewrite Hl, Hi.
Qed.

(** The buffer a turn of the loop leaves, and the packet it sends. *)
Definition drain_packet (w : Writer) : option bytes :=
  if decide (MAX_BAND_DATA <= length (wr_buf w)) then Some (take MAX_BAND_DATA (wr_buf w)) else None.
Definition drain_rest (w : Writer) : Writer :=
  if decide (MAX_BAND_DATA <= length (wr_buf w))
  then mkWriter (wr_body w) (drop MAX_BAND_DATA (wr_buf w)) (wr_bytes_written w) else w.

Lemma drain_S fuel w :
  drain framing (S fuel) w =
    (match drain_packet w with
     | Some full => do! _ <- on_body (send_framed framing full); drain framing fuel
     | None => se_ret tt
     end) (drain_rest w).
Proof. cbn [drain]. unfold drain_packet, drain_rest. by case_decide. Qed.

Lemma cutting_ext {T A E} {HT : HasBody T} (broken : E) (P Q : SE T E A) :
  (forall t, P t = Q t) -> cutting broken P -> cutting broken Q.
Proof.
  intros HPQ HP t Ht. destruct (HP t Ht) as (new & H1 & H2 & H3 & Hm). exists new.
  rewrite <- !HPQ. split; [done | split; [done | split; [done |]]].
  intros m. specialize (Hm m). by rewrite <- !HPQ.
Qed.

Lemma drain_cutting fuel : cutting BrokenPipe (drain framing fuel).
Proof.
  induction fuel as [| fuel IH].
  - apply (cutting_ext _ (se_ret tt)); [| apply cutting_ret]. intros w. cbn [drain]. by case_decide.
  - eapply cutting_ext; [intros w; symmetry; apply drain_S |].
    apply (cutting_choice BrokenPipe
      (fun packet => match packet with
                     | Some full => do! _ <- on_body (send_framed framing full); drain framing fuel
                     | None => se_ret tt
                     end) drain_packet drain_rest).
    + intros w. unfold drain_rest. by case_decide.
    + intros r w. unfold drain_rest. cbn. by case_decide.
    + done.
    + intros [full |]; [| apply cutting_ret].
      apply cutting_bind; [apply on_body_cutting, send_framed_cutting | done].
Qed.

Lemma writer_write_cutting data : cutting BrokenPipe (writer_write framing data).
Proof.
  apply (cutting_choice BrokenPipe (fun fuel => do! _ <- drain framing fuel; se_ret (length data))
    (fun w => length (wr_buf w ++ data))
    (fun w => mkWriter (wr_body w) (wr_buf w ++ data) (wr_bytes_written w + Z.of_nat (length data)))); try done.
  intros fuel. apply cutting_bind; [apply drain_cutting | intros; apply cutting_ret].
Qed.

Lemma writer_flush_cutting : cutting BrokenPipe (writer_flush framing).
Proof.
  set (flush_of buf := match buf with [] => se_ret tt | _ => on_body (send_framed framing buf) end).
  apply (cutting_ext _ (fun w => flush_of (wr_buf w) (mkWriter (wr_body w) [] (wr_bytes_written w)))).
  { intros [b [| x buf] n]; [done |]. unfold writer_flush. by rewrite decide_False. }
  apply (cutting_choice BrokenPipe flush_of wr_buf (fun w => mkWriter (wr_body w) [] (wr_bytes_written w)));
    try done.
  intros [| x buf]; [apply cutting_ret | apply on_body_cutting, send_framed_cutting].
Qed.

Lemma map_err_cutting {T A E E'} {HT : HasBody T} (broken : E) (broken' : E') (f : E -> E') (P : SE T E A) :
  (forall e, f e = broken' <-> e = broken) -> cutting broken P -> cutting broken' (se_map_err f P).
Proof.
  intros Hf. apply (cutting_through _ _ P (fun t => t) (fun s _ => s) (fun r _ => map_err f r)); try done.
  intros [a | e] _; cbn; [done |]. split; [intros [= ->%Hf]; done | intros [= ->]; f_equal; by apply Hf].
Qed.

Lemma run_ops_cutting ops : cutting (HashIo BrokenPipe) (run_ops framing ops).
Proof.
  induction ops as [| op ops IH]; [apply cutting_ret |]. apply cutting_bind; [| done].
  assert (forall e : IoE, HashIo (HashErr := HashErr) e = HashIo BrokenPipe <-> e = BrokenPipe) as Hio
    by (split; congruence).
  destruct op as [data | | e]; cbn [run_op].
  - apply cutting_bind; [| intros; apply cutting_ret].
    eapply map_err_cutting; [done | apply writer_write_cutting].
  - eapply map_err_cutting; [done | apply writer_flush_cutting].
  - by apply cutting_err.
Qed.

Lemma perform_cutting {A} (ops : list Op) (f : F) (a : A) : cutting (HashIo BrokenPipe) (perform framing ops f a).
Proof.
  apply (cutting_ext (HashIo BrokenPipe : HioE) (fun s => let '(r, w) := run_ops framing ops s.1 in
    (match r with Ok _ => Ok a | Err e => Err e end, (w, f)))); [by intros [] |].
  apply (cutting_through (HashIo BrokenPipe) _ (run_ops framing ops) fst (fun w _ => (w, f))
    (fun r _ => match r with Ok _ => Ok a | Err e => Err e end)); try done; [| apply run_ops_cutting].
  intros [u | e] t; [done |]. split; congruence.
Qed.

(** The failure a closed channel makes of a pack write. *)
Definition broken_pipe : PoE := Write (HashIo BrokenPipe).

Lemma on_out_cutting {A} (m : SE (Writer * F) HioE A) :
  cutting (HashIo BrokenPipe) m -> cutting broken_pipe (on_out (E := FE) m).
Proof.
  apply (cutting_through (HashIo BrokenPipe) broken_pipe m ws_out
    (fun out s => mkWriteState out (ws_written s) (ws_planner s)) (fun r _ => map_err Write r)); try done.
  intros [a | e] s; [done |]. unfold broken_pipe. cbn. split; congruence.
Qed.

Lemma next_entry_cutting options (item : Item) :
  cutting broken_pipe (next_entry (W := Writer * F) (IoError := HioE) options item).
Proof.
  apply (cutting_ext broken_pipe
    (fun s => ((next_entry (W := Writer * F) (IoError := HioE) options item s).1,
               (next_entry (W := Writer * F) (IoError := HioE) options item s).2)));
    [intros s; by destruct (next_entry options item s) |].
  assert (forall planner n g, (delta_or_full (E := FE) (IoError := HioE) planner n g).1
    <> Err broken_pipe) as Hd.
  { intros o n [c st]. unfold delta_or_full, keep_full. repeat case_match; cbn; try done; congruence. }
  apply cutting_pure.
  - intros s. unfold next_entry. destruct item as [o | e]; [| done].
    destruct (ofs_deltas options); [| done].
    specialize (Hd o (Z.to_nat (ws_written s)) (ws_planner s)).
    destruct (delta_or_full _ _ _) as [[entry | e] planner]; cbn in *; congruence.
  - intros r s. unfold next_entry. cbn [limit state_has_body ws_written ws_planner].
    destruct item as [o | e]; [| done].
    destruct (if ofs_deltas options then _ else _) as [[entry | e] planner]; done.
  - intros r s. unfold next_entry. cbn [limit state_has_body ws_written ws_planner ws_out].
    destruct item as [o | e]; [| done].
    destruct (if ofs_deltas options then _ else _) as [[entry | e] planner]; done.
  - intros s. unfold next_entry. destruct item as [o | e]; [| done].
    destruct (if ofs_deltas options then _ else _) as [[entry | e] planner]; done.
Qed.

#[local] Existing Instance pack_writer.

(** What one of the library's calls performs: its operations, its next state
    and its result. *)
Lemma performs_cutting {A} (step : F -> list Op * F * A) :
  cutting (HashIo BrokenPipe) (fun s : Writer * F => let '(ops, f, a) := step s.2 in perform framing ops f a s).
Proof.
  eapply cutting_ext; [| apply (cutting_choice (HashIo BrokenPipe)
    (fun x => perform framing x.1.1 x.1.2 x.2) (fun s : Writer * F => step s.2) (fun s => s)); try done].
  { intros s. cbn. by destruct (step s.2) as [[ops f] a]. }
  intros [[ops f] a]. apply perform_cutting.
Qed.

Lemma pw_header_cutting n : cutting (HashIo BrokenPipe) (pw_header (PackWriter := pack_writer framing) n).
Proof.
  eapply cutting_ext; [| apply (performs_cutting (fun f => (pf_header n f, tt)))].
  intros s. cbn. by destruct (pf_header n s.2).
Qed.

Lemma pw_entry_cutting e : cutting (HashIo BrokenPipe) (pw_entry (PackWriter := pack_writer framing) e).
Proof.
  eapply cutting_ext; [| apply (performs_cutting (fun f => (pf_entry e f, tt)))].
  intros s. cbn. by destruct (pf_entry e s.2).
Qed.

Lemma pw_trailer_cutting : cutting (HashIo BrokenPipe) (pw_trailer (PackWriter := pack_writer framing)).
Proof.
  eapply cutting_ext; [| apply (performs_cutting (fun f => ((pf_trailer f).1, f, (pf_trailer f).2)))].
  intros s. cbn. by destruct (pf_trailer s.2).
Qed.

Lemma write_entries_cutting options (items : list Item) :
  cutting broken_pipe (write_entries (PW := pack_writer framing) options items).
Proof.
  induction items as [| item items IH]; cbn [write_entries]; [apply cutting_ret |].
  apply cutting_bind; [apply next_entry_cutting |]. intros e.
  apply cutting_bind; [apply on_out_cutting, pw_entry_cutting | done].
Qed.

Lemma write_through_cutting (items : list Item) count hash ofs :
  cutting broken_pipe (write_through framing items count hash ofs).
Proof.
  set (start := fun b => mkWriteState (new_writer b, pf_start hash) 0
    (DeltaCandidates_default, DeltaStats_default)).
  set (counted := fun (digest : Digest) (s : WriteState (W := Writer * F)) =>
    if negb (ws_written s =? count)%Z
    then (@Err PoE Digest (PackTruncated (ws_written s) count), s) else (Ok digest, s)).
  set (P := do! _ <- on_out (pw_header (PackWriter := pack_writer framing) count);
            do! _ <- write_entries (PW := pack_writer framing) (mkPackOptions ofs) items;
            do! digest <- on_out (pw_trailer (PackWriter := pack_writer framing)); counted digest).
  assert (cutting broken_pipe P) as HP.
  { apply cutting_bind; [apply on_out_cutting, pw_header_cutting |]. intros _.
    apply cutting_bind; [apply write_entries_cutting |]. intros _.
    apply cutting_bind; [apply on_out_cutting, pw_trailer_cutting |]. intros d.
    apply (cutting_ext _ (fun s : WriteState (W := Writer * F) => (if negb (ws_written s =? count)%Z
      then Err (PackTruncated (ws_written s) count) else Ok d, s)));
      [intros s; unfold counted; by destruct (negb _) |].
    apply cutting_pure; try done. intros s. by destruct (negb _). }
  intros b Hb. destruct (HP (start b) Hb) as (new & H1 & H2 & H3 & Hm). exists new.
  assert (forall b, write_through framing items count hash ofs b = ((P (start b)).1, chan (P (start b)).2)) as Ew.
  { intros b'. transitivity (let '(outcome, s) := P (start b') in (outcome, wr_body (ws_out s).1)); [done |].
    by destruct (P (start b')). }
  rewrite Ew. cbn [fst snd]. split; [done | split; [done | split; [done |]]].
  intros m. specialize (Hm m). rewrite Ew. change (start (limit (Some m) b)) with (limit (Some m) (start b)).
  case_decide; [by rewrite Hm | done].
Qed.

End sink.

(** The same for what is sent without looking at the outcome. *)
Definition prefixing (P : Body -> Body) : Prop := forall b, room b = None ->
  exists new, P b = mkBody (sent b ++ new) None
    /\ forall m, P (mkBody (sent b) (Some m)) = mkBody (sent b ++ take m new) (Some (m - length new)).

Lemma prefixing_id : prefixing (fun b => b).
Proof. intros [l r]. cbn. intros ->. exists []. split; [by rewrite app_nil_r |]. intros m. by rewrite take_nil, app_nil_r, Nat.sub_0_r. Qed.

Lemma cutting_body {A E} (broken : E) (P : SE Body E A) b : cutting broken P -> room b = None ->
  exists new, (P b).2 = mkBody (sent b ++ new) None /\ (P b).1 <> Err broken
    /\ forall m, let '(r, b') := P (mkBody (sent b) (Some m)) in
         b' = mkBody (sent b ++ take m new) (Some (m - length new))
         /\ r = if decide (length new <= m) then (P b).1 else Err broken.
Proof.
  intros HP Hb. destruct (HP b Hb) as (new & H1 & H2 & H3 & Hm). exists new.
  assert ((P b).2 = mkBody (sent b ++ new) None) as E1 by (destruct (P b) as [? []]; cbn in *; congruence).
  split; [done | split; [done |]]. intros m. specialize (Hm m).
  change (limit (Some m) b) with (mkBody (sent b) (Some m)) in Hm. case_decide.
  - rewrite Hm, E1. cbn. by rewrite take_ge.
  - destruct (P (mkBody (sent b) (Some m))) as [r b']. destruct Hm as [Hr Hc]. cbn in Hr, Hc.
    subst. split; [f_equal; f_equal; lia | done].
Qed.

Lemma prefixing_cutting {A E} (broken : E) (P : SE Body E A) : cutting broken P -> prefixing (fun b => (P b).2).
Proof.
  intros HP b Hb. destruct (cutting_body _ _ _ HP Hb) as (new & H1 & _ & Hm). exists new.
  split; [done |]. intros m. specialize (Hm m).
  destruct (P (mkBody (sent b) (Some m))) as [r b']. by destruct Hm.
Qed.

(** What follows depends on the outcome, except after a broken pipe, when
    nothing follows. *)
Lemma prefixing_then {A E} (broken : E) (P : SE Body E A) (k : result E A -> Body -> Body) :
  cutting broken P -> (forall b, k (Err broken) b = b) -> (forall r, prefixing (k r)) ->
  prefixing (fun b => k (P b).1 (P b).2).
Proof.
  intros HP Hk Hp b Hb. destruct (cutting_body _ _ _ HP Hb) as (new & H1 & _ & Hm).
  destruct (Hp (P b).1 (P b).2) as (new' & H1' & Hm'); [by rewrite H1 |]. exists (new ++ new').
  rewrite H1', H1. cbn [sent]. split; [by rewrite app_assoc |]. intros m. specialize (Hm m).
  rewrite length_app. destruct (P (mkBody (sent b) (Some m))) as [r b']. destruct Hm as [-> ->]. cbn [fst snd].
  rewrite H1 in Hm'. cbn [sent] in Hm'. case_decide.
  - rewrite (take_ge new), Hm', take_app, (take_ge new), app_assoc by lia. do 2 f_equal. lia.
  - rewrite Hk, take_app_le by lia. f_equal. f_equal. lia.
Qed.

Lemma prefixing_compose (P Q : Body -> Body) : prefixing P -> prefixing Q -> prefixing (fun b => Q (P b)).
Proof.
  intros HP HQ b Hb. destruct (HP b Hb) as (new & H1 & Hm).
  destruct (HQ (P b)) as (new' & H1' & Hm'); [by rewrite H1 |]. exists (new ++ new').
  rewrite H1 in *. cbn [sent] in *. split; [by rewrite H1', app_assoc |].
  intros m. rewrite Hm, length_app. specialize (Hm' (m - length new)).
  destruct (decide (length new <= m)).
  - rewrite (take_ge new), Hm', take_app, (take_ge new), app_assoc by lia. do 2 f_equal. lia.
  - destruct (HQ (mkBody (sent b ++ take m new) None) eq_refl) as (new2 & _ & Hm2).
    cbn [sent] in Hm2. rewrite (proj2 (Nat.sub_0_le m (length new))) by lia.
    rewrite Hm2. cbn [take]. rewrite app_nil_r, take_app_le by lia. f_equal. f_equal. lia.
Qed.

Definition stream_pack_end (count : Z) (no_progress : bool) (outcome : result PoE Digest) (body : Body) : Body :=
  match outcome with
  | Ok _ =>
      let body := if no_progress then body
                  else (send_band ChProgress (progress_line (bs "packed") count) body).2 in
      match pkt_flush with
      | Ok flush => (body_send flush body).2
      | Err _ => body
      end
  | Err err =>
      if is_broken_pipe err then body
      else
        (send_band ChError (match classify err with
                            | Client reason => reason
                            | NotFound | ServerFault => bs "internal error"
                            end) body).2
  end.

Lemma send_band_prefixing c data : prefixing (fun b => (send_band c data b).2).
Proof. eapply prefixing_cutting, send_framed_cutting. Qed.

Lemma progress_prefixing (no_progress : bool) data :
  prefixing (fun body => if no_progress then body else (send_band ChProgress data body).2).
Proof. destruct no_progress; [apply prefixing_id | apply send_band_prefixing]. Qed.

Lemma stream_pack_end_prefixing count no_progress outcome : prefixing (stream_pack_end count no_progress outcome).
Proof.
  unfold stream_pack_end. destruct outcome as [d | err].
  - apply (prefixing_compose _ (fun body => match pkt_flush with
      | Ok flush => (body_send flush body).2 | Err _ => body end) (progress_prefixing _ _)).
    destruct pkt_flush; [eapply prefixing_cutting, body_send_cutting | apply prefixing_id].
  - destruct (is_broken_pipe err); [apply prefixing_id | apply send_band_prefixing].
Qed.

(** Whatever the input, a reader that hangs up has seen a prefix of what the
    others see. *)
Lemma stream_pack_prefixing items count hash sideband no_progress ofs :
  prefixing (fun body => stream_pack items body count hash sideband no_progress ofs).
Proof.
  unfold stream_pack. destruct sideband; [| eapply prefixing_cutting, write_through_cutting].
  apply (prefixing_compose (fun body => if no_progress then body else _)
    (fun body => let '(outcome, body) := write_through (pkt_band ChData) items count hash ofs body in
                 stream_pack_end count no_progress outcome body)); [apply progress_prefixing |].
  pose proof (prefixing_then broken_pipe (write_through (pkt_band ChData) items count hash ofs)
    (stream_pack_end count no_progress) (write_through_cutting _ _ _ _ _) (fun _ => eq_refl)
    (stream_pack_end_prefixing count no_progress)) as H.
  intros b Hb. destruct (H b Hb) as (new & H1 & H2). exists new. split.
  - rewrite <- H1. by destruct (write_through _ _ _ _ _ b).
  - intros m. rewrite <- H2. by destruct (write_through _ _ _ _ _ (mkBody _ _)).
Qed.

(** ** What arrives when nobody hangs up *)

(** The data calls before a failing one, and that failure. *)
Fixpoint payload (ops : list Op) : bytes :=
  match ops with
  | [] => []
  | OpWrite data :: ops' => data ++ payload ops'
  | OpFlush :: ops' => payload ops'
  | OpFail _ :: _ => []
  end.
Fixpoint failure (ops : list Op) : option HashErr :=
  match ops with
  | [] => None
  | OpFail e :: _ => Some e
  | _ :: ops' => failure ops'
  end.

Definition packet_size (c : bytes) : Prop := 0 < length c <= MAX_BAND_DATA.

Section delivery.
Context (framing : bytes -> result PktErr bytes).
Context (framing_ok : forall c, packet_size c -> is_ok (framing c) = true).

(** The sink went from [w] to [w'] taking [data]: it sent some of the bytes
    and holds the rest. *)
Definition moved (w : Writer) (data : bytes) (w' : Writer) : Prop :=
  exists chunks packets, Forall2 (fun c f => framing c = Ok f) chunks packets /\ Forall packet_size chunks
    /\ wr_body w' = mkBody (sent (wr_body w) ++ packets) None
    /\ wr_buf w ++ data = concat chunks ++ wr_buf w'.

Lemma moved_refl w : room (wr_body w) = None -> moved w [] w.
Proof.
  destruct w as [[l r] buf n]. cbn. intros ->. exists [], []. cbn. by rewrite !app_nil_r.
Qed.

Lemma moved_room w data w' : moved w data w' -> room (wr_body w') = None.
Proof. by intros (? & ? & _ & _ & -> & _). Qed.

Lemma moved_trans w d w1 d' w' : moved w d w1 -> moved w1 d' w' -> moved w (d ++ d') w'.
Proof.
  intros (cs & ps & F1 & S1 & B1 & E1) (cs' & ps' & F2 & S2 & B2 & E2).
  exists (cs ++ cs'), (ps ++ ps'). split; [by apply Forall2_app | split; [by apply Forall_app |]].
  rewrite B2, B1. cbn [sent]. split; [by rewrite app_assoc |].
  by rewrite app_assoc, E1, <- app_assoc, E2, concat_app, app_assoc.
Qed.

Lemma send_framed_ok c b : packet_size c -> room b = None ->
  exists f, framing c = Ok f /\ send_framed framing c b = (Ok tt, mkBody (sent b ++ [f]) None).
Proof.
  intros Hc Hb. pose proof (framing_ok c Hc) as Hf. destruct (framing c) as [f | e] eqn:E; [| done].
  exists f. split; [done |]. unfold send_framed, se_bind, se_lift. rewrite E. cbn [map_err].
  unfold body_send. by rewrite Hb.
Qed.

Lemma drain_ok fuel w : room (wr_body w) = None -> length (wr_buf w) <= fuel ->
  exists w', drain framing fuel w = (Ok tt, w') /\ moved w [] w' /\ length (wr_buf w') < MAX_BAND_DATA.
Proof.
  revert w. induction fuel as [| fuel IH]; intros w Hw Hl; cbn [drain].
  - exists w. case_decide; (split; [done |]); (split; [by apply moved_refl |]); unfold MAX_BAND_DATA in *; lia.
  - case_decide as Hd; [| exists w; split; [done |]; split; [by apply moved_refl | lia]].
    assert (packet_size (take MAX_BAND_DATA (wr_buf w))) as Hp.
    { unfold packet_size. rewrite length_take. unfold MAX_BAND_DATA in *. lia. }
    destruct (send_framed_ok _ (wr_body w) Hp Hw) as (f & Hf & Hs).
    unfold se_bind, on_body. cbn [wr_body wr_buf wr_bytes_written]. rewrite Hs.
    match goal with |- context [drain framing fuel ?w1] => destruct (IH w1) as (w' & Hr & Hm & Hb) end.
    { done. }
    { cbn [wr_buf]. rewrite length_drop. unfold MAX_BAND_DATA in *. lia. }
    exists w'. split; [done | split; [| done]]. change (@nil byte) with (@nil byte ++ []).
    eapply moved_trans; [| exact Hm]. exists [take MAX_BAND_DATA (wr_buf w)], [f]. cbn.
    split; [by constructor | split; [by constructor | split; [done |]]].
    by rewrite !app_nil_r, take_drop.
Qed.

Lemma run_op_ok op w : room (wr_body w) = None -> length (wr_buf w) < MAX_BAND_DATA ->
  exists r w', run_op framing op w = (r, w') /\ moved w (payload [op]) w' /\ length (wr_buf w') < MAX_BAND_DATA
    /\ r = match failure [op] with Some e => Err (Hasher e) | None => Ok tt end
    /\ (op = OpFlush -> wr_buf w' = []).
Proof.
  intros Hw Hl. destruct op as [data | | e]; cbn [run_op].
  - destruct (drain_ok (length (wr_buf w ++ data))
      (mkWriter (wr_body w) (wr_buf w ++ data) (wr_bytes_written w + Z.of_nat (length data))))
      as (w' & Hr & Hm & Hb); [done | done |].
    unfold se_bind, se_map_err, writer_write. unfold se_bind. rewrite Hr. cbn [map_err].
    exists (Ok tt), w'. split; [done |]. split; [| done].
    destruct Hm as (cs & ps & F1 & S1 & B1 & E1). exists cs, ps. cbn [wr_buf wr_body payload] in *.
    rewrite !app_nil_r in *. done.
  - unfold se_map_err, writer_flush. case_decide as Hd.
    + exists (Ok tt), w. split; [done |]. split; [by apply moved_refl | done].
    + assert (packet_size (wr_buf w)) as Hp.
      { unfold packet_size. split; [destruct (wr_buf w); [done | cbn; lia] | lia]. }
      destruct (send_framed_ok _ (wr_body w) Hp Hw) as (f & Hf & Hs).
      unfold on_body. cbn [wr_body wr_buf wr_bytes_written]. rewrite Hs. cbn [map_err].
      eexists (Ok tt), _. split; [done |]. cbn [wr_buf]. split; [| unfold MAX_BAND_DATA; cbn; split; [lia | done]].
      exists [wr_buf w], [f]. cbn. split; [by constructor | split; [by constructor | by rewrite !app_nil_r]].
  - exists (Err (Hasher e)), w. split; [done |]. split; [by apply moved_refl | done].
Qed.

Lemma run_ops_ok ops w : room (wr_body w) = None -> length (wr_buf w) < MAX_BAND_DATA ->
  exists r w', run_ops framing ops w = (r, w') /\ moved w (payload ops) w'
    /\ r = match failure ops with Some e => Err (Hasher e) | None => Ok tt end
    /\ (failure ops = None -> last ops = Some OpFlush -> wr_buf w' = []).
Proof.
  revert w. induction ops as [| op ops IH]; intros w Hw Hl; cbn [run_ops].
  { eexists _, w. split; [done |]. split; [by apply moved_refl | done]. }
  destruct (run_op_ok op w Hw Hl) as (r & w1 & Hr & Hm & Hb & Er & Hf). unfold se_bind. rewrite Hr.
  destruct (IH w1 (moved_room _ _ _ Hm) Hb) as (r' & w' & Hr' & Hm' & Er' & Hf').
  pose proof (moved_trans _ _ _ _ _ Hm Hm') as Hmm.
  destruct op as [data | | e]; cbn [payload failure] in *; rewrite ?app_nil_r in *; rewrite Er.
  - exists r', w'. split; [done | split; [done | split; [done |]]]. intros Hn. destruct ops; [done | auto].
  - exists r', w'. split; [done | split; [done | split; [done |]]]. intros Hn. destruct ops as [| op' ops]; [| auto].
    intros _. cbn [run_ops] in Hr'. injection Hr' as <- <-. by apply Hf.
  - by exists (Err (Hasher e)), w1.
Qed.

End delivery.

(** The pack library's calls for the entries, and for a pack of them that
    ends with its trailer or, [complete] false, without. *)
Fixpoint entry_calls (entries : list (Entry Oid)) (f : F) : list Op * F :=
  match entries with
  | [] => ([], f)
  | e :: entries' =>
      let '(ops, f) := pf_entry e f in
      let '(ops', f) := entry_calls entries' f in (ops ++ ops', f)
  end.

Definition pack_calls (complete : bool) (count : Z) (entries : list (Entry Oid)) (hash : HashKind) : list Op :=
  let '(ops, f) := pf_header count (pf_start hash) in
  let '(ops', f) := entry_calls entries f in
  ops ++ ops' ++ (if complete then (pf_trailer f).1 else []).

Section calls.
Context (framing : bytes -> result PktErr bytes).
#[local] Existing Instance pack_writer.

Lemma run_ops_app ops ops' w :
  run_ops framing (ops ++ ops') w
  = match run_ops framing ops w with (Ok _, w1) => run_ops framing ops' w1 | (Err e, w1) => (Err e, w1) end.
Proof.
  revert w. induction ops as [| op ops IH]; intros w; [done |]. cbn [app run_ops]. unfold se_bind.
  destruct (run_op framing op w) as [[u | e] w1]; [apply IH | done].
Qed.

Lemma emit_calls entries w f :
  let '(r, s) := emit (PW := pack_writer framing) entries (w, f) in
  let '(ops, f') := entry_calls entries f in
  let '(r', w') := run_ops framing ops w in
  r = r' /\ s.1 = w' /\ (r' = Ok tt -> s.2 = f').
Proof.
  revert w f. induction entries as [| e entries IH]; intros w f; cbn [emit entry_calls]; [done |].
  cbn [pw_entry pack_writer snd]. unfold se_bind, perform. cbn [fst snd].
  destruct (pf_entry e f) as [ops f1]. destruct (run_ops framing ops w) as [[u | err] w1] eqn:E.
  - destruct u. cbv beta iota zeta. specialize (IH w1 f1). destruct (emit entries (w1, f1)) as [r s].
    destruct (entry_calls entries f1) as [ops' f']. by rewrite run_ops_app, E.
  - destruct (entry_calls entries f1) as [ops' f']. by rewrite run_ops_app, E.
Qed.

(** Writing a pack of given entries, whole or cut short, is making its calls. *)
Lemma pack_of_calls count entries hash w :
  let '(r, s) := pack_of (PW := pack_writer framing) count entries (w, pf_start hash) in
  let '(r', w') := run_ops framing (pack_calls true count entries hash) w in
  s.1 = w' /\ (match r with Ok _ => Ok tt | Err e => Err e end) = r'.
Proof.
  unfold pack_of, pack_calls. cbn [pw_header pw_trailer pack_writer snd]. unfold se_bind, perform. cbn [fst snd].
  destruct (pf_header count (pf_start hash)) as [ops f].
  pose proof (emit_calls entries) as He.
  destruct (run_ops framing ops w) as [[[] | err] w1] eqn:E.
  - cbv beta iota zeta. specialize (He w1 f). destruct (emit entries (w1, f)) as [r [w2 f2]].
    destruct (entry_calls entries f) as [ops' f']. rewrite !run_ops_app, E. cbn [fst snd] in He.
    rewrite run_ops_app. destruct (run_ops framing ops' w1) as [r' w'].
    destruct He as (-> & -> & Hf). destruct r' as [[] | e]; [| done]. rewrite (Hf eq_refl). cbn [snd].
    destruct (pf_trailer f') as [ops3 digest]. cbn [fst].
    by destruct (run_ops framing ops3 w') as [[[] | e] w3].
  - destruct (entry_calls entries f) as [ops' f']. by rewrite run_ops_app, E.
Qed.

Lemma emit_of_calls count entries hash w :
  let '(r, s) := (do! _ <- pw_header (PackWriter := pack_writer framing) count;
                  emit (PW := pack_writer framing) entries) (w, pf_start hash) in
  let '(r', w') := run_ops framing (pack_calls false count entries hash) w in
  s.1 = w' /\ r = r'.
Proof.
  unfold pack_calls. cbn [pw_header pack_writer snd]. unfold se_bind, perform. cbn [fst snd].
  destruct (pf_header count (pf_start hash)) as [ops f].
  pose proof (emit_calls entries) as He.
  destruct (run_ops framing ops w) as [[[] | err] w1] eqn:E.
  - cbv beta iota zeta. specialize (He w1 f). destruct (emit entries (w1, f)) as [r [w2 f2]].
    destruct (entry_calls entries f) as [ops' f']. rewrite app_nil_r, run_ops_app, E.
    destruct (run_ops framing ops' w1) as [r' w']. by destruct He as (-> & -> & _).
  - destruct (entry_calls entries f) as [ops' f']. by rewrite run_ops_app, E.
Qed.

End calls.

Lemma pack_calls_flush count entries hash :
  last (pack_calls true count entries hash) = Some OpFlush.
Proof.
  unfold pack_calls. destruct (pf_header count (pf_start hash)) as [ops f].
  destruct (entry_calls entries f) as [ops' f']. destruct (pf_trailer_flushes f') as [ops3 ->].
  by rewrite !app_assoc, last_snoc.
Qed.

(** What was fed to the writer: all objects, or those before a failed lookup. *)
Definition is_whole (tail : list Item) : bool := match tail with [] => true | _ => false end.

Definition fed (objects : list (PackEntry Oid)) (count : Z) (tail : list Item) : Prop :=
  (tail = [] /\ count = Z.of_nat (length objects)) \/ exists e, tail = [Err e].

(** How a write ends: done, on a hasher's failure, or on a failed lookup. *)
Definition outcome_of (calls : list Op) (tail : list Item) (r : result PoE Digest) : Prop :=
  match r with
  | Ok _ => tail = [] /\ failure calls = None
  | Err (Write (Hasher _)) => failure calls <> None
  | Err (Input e) => tail = [Err e] /\ failure calls = None
  | Err _ => False
  end.

Lemma write_through_ok framing objects bodies tail count hash ofs body :
  (forall c, packet_size c -> is_ok (framing c) = true) -> room body = None ->
  Forall2 object_ok objects bodies -> (Z.of_nat (length objects) < 2 ^ 32)%Z -> fed objects count tail ->
  exists entries chunks packets rest r,
    pack_resolves [] objects bodies entries
    /\ (let calls := pack_calls (is_whole tail) count entries hash in
        Forall2 (fun c f => framing c = Ok f) chunks packets /\ Forall packet_size chunks
        /\ payload calls = concat chunks ++ rest /\ (tail = [] -> failure calls = None -> rest = [])
        /\ write_through framing (map Ok objects ++ tail) count hash ofs body
           = (r, mkBody (sent body ++ packets) None)
        /\ outcome_of calls tail r).
Proof.
  intros Hf Hroom Hos Hmax Hfed. set (w := new_writer body).
  assert (length (wr_buf w) < MAX_BAND_DATA) as Hl by (cbn; unfold MAX_BAND_DATA; lia).
  unfold write_through. fold w. destruct Hfed as [[-> ->] | [e ->]]; cbn [is_whole].
  - rewrite app_nil_r.
    destruct (write_pack_good (PW := pack_writer framing) (E := FE) objects bodies (Z.of_nat (length objects))
      (mkPackOptions ofs) DeltaStats_default (w, pf_start hash) Hos Hmax) as (entries & Hpr & Hrun).
    set (calls := pack_calls true (Z.of_nat (length objects)) entries hash).
    destruct (run_ops_ok framing Hf calls w Hroom Hl)
      as (r & w' & Hr & (chunks & packets & F1 & S1 & B1 & E1) & Er & Hflush).
    pose proof (pack_of_calls framing (Z.of_nat (length objects)) entries hash w) as Hc.
    fold calls in Hc. rewrite Hr in Hc.
    destruct (write_pack_with_options _ _ _ _ _) as [ro so].
    destruct (pack_of _ _ _) as [io out']. destruct Hrun as [-> Hout], Hc as [Hs Hio].
    exists entries, chunks, packets, (wr_buf w'). eexists. split; [done |].
    split; [done | split; [done | split; [done | split; [| split]]]].
    + intros _ Hn. apply Hflush; [done | apply pack_calls_flush].
    + f_equal. by rewrite Hout, Hs, B1.
    + unfold settled. rewrite Z.eqb_refl. subst r.
      fold calls. unfold outcome_of.
      destruct io as [d | err]; destruct (failure calls); simplify_eq; done.
  - destruct (write_pack_bad (PW := pack_writer framing) objects bodies (Err e) [] count
      (mkPackOptions ofs) DeltaStats_default (w, pf_start hash) (Input e) Hos Hmax eq_refl) as (entries & Hpr & Hrun).
    set (calls := pack_calls false count entries hash).
    destruct (run_ops_ok framing Hf calls w Hroom Hl)
      as (r & w' & Hr & (chunks & packets & F1 & S1 & B1 & E1) & Er & _).
    pose proof (emit_of_calls framing count entries hash w) as Hc.
    fold calls in Hc. rewrite Hr in Hc.
    destruct (write_pack_with_options _ _ _ _ _) as [ro so].
    destruct (se_bind _ _ _) as [io out']. destruct Hrun as [-> Hout], Hc as [Hs Hio].
    exists entries, chunks, packets, (wr_buf w'). eexists. split; [done |].
    split; [done | split; [done | split; [done | split; [done | split]]]].
    + f_equal. by rewrite Hout, Hs, B1.
    + subst r io. fold calls. unfold outcome_of. by destruct (failure calls).
Qed.

(** ** The stream a client reads *)

Definition progress_lines (no_progress : bool) (verb : bytes) (count : Z) : list PacketLine :=
  if no_progress then [] else [PktData (channel_byte ChProgress :: progress_line verb count)].

Definition data_line (chunk : bytes) : PacketLine := PktData (channel_byte ChData :: chunk).

(** How a side-band stream ends: in a flush, or in an error. *)
Definition ending_lines (no_progress complete : bool) (count : Z) : list PacketLine :=
  if complete then progress_lines no_progress (bs "packed") count ++ [PktFlush]
  else [PktData (channel_byte ChError :: bs "internal error")].

Definition band_lines (no_progress complete : bool) (count : Z) (chunks : list bytes) : list PacketLine :=
  progress_lines no_progress (bs "packing") count ++ map data_line chunks
  ++ ending_lines no_progress complete count.

(** [P] appends packets that read as [ls]. *)
Definition appends (P : Body -> Body) (ls : list PacketLine) : Prop := forall b, room b = None ->
  exists packets, P b = mkBody (sent b ++ packets) None /\ Forall2 (frames pkt_streaming) ls packets.

Lemma appends_nil : appends (fun b => b) [].
Proof. intros [l r]. cbn. intros ->. exists []. by rewrite app_nil_r. Qed.

Lemma appends_compose P Q ls ls' : appends P ls -> appends Q ls' -> appends (fun b => Q (P b)) (ls ++ ls').
Proof.
  intros HP HQ b Hb. destruct (HP b Hb) as (ps & E1 & F1).
  destruct (HQ (P b)) as (ps' & E2 & F2); [by rewrite E1 |]. exists (ps ++ ps').
  rewrite E2, E1. cbn [sent]. split; [by rewrite app_assoc | by apply Forall2_app].
Qed.

Lemma appends_band c d : packet_size d -> appends (fun b => (send_band c d b).2) [PktData (channel_byte c :: d)].
Proof.
  intros Hd b Hb. destruct (send_framed_ok (pkt_band c) (fun d Hd => proj1 (pkt_band_ok c d) Hd) d b Hd Hb)
    as (f & Hf & Hs).
  exists [f]. unfold send_band. rewrite Hs. split; [done |]. constructor; [by apply pkt_band_frames | done].
Qed.

Lemma progress_size verb count : length verb <= 64 -> (0 <= count < 2 ^ 32)%Z -> packet_size (progress_line verb count).
Proof.
  intros Hv Hc. pose proof (dec_length count 32 Hc eq_refl). unfold packet_size, progress_line, MAX_BAND_DATA.
  rewrite !length_app. assert (length (bs " ") = 1) by done. assert (length (bs " objects") = 8) by done.
  cbn [length]. lia.
Qed.

Lemma appends_progress (no_progress : bool) verb count :
  length verb <= 64 -> (0 <= count < 2 ^ 32)%Z ->
  appends (fun b => if no_progress then b else (send_band ChProgress (progress_line verb count) b).2)
    (progress_lines no_progress verb count).
Proof.
  intros Hv Hc. unfold progress_lines. destruct no_progress; [apply appends_nil |].
  by apply appends_band, progress_size.
Qed.

Lemma appends_end {II : Internal ObjErr} (no_progress complete : bool) count (r : result PoE Digest) :
  (0 <= count < 2 ^ 32)%Z ->
  match r with Ok _ => complete = true | Err e => complete = false /\ is_broken_pipe e = false end ->
  appends (stream_pack_end count no_progress r) (ending_lines no_progress complete count).
Proof.
  intros Hc Hr. unfold stream_pack_end, ending_lines. destruct r as [d | e].
  - rewrite Hr. destruct pkt_flush_frames as (f & -> & Hf).
    apply (appends_compose _ (fun b => (body_send f b).2)); [apply appends_progress; [cbn; lia | done] |].
    intros b Hb. exists [f]. unfold body_send. rewrite Hb. split; [done |]. by constructor.
  - destruct Hr as [-> ->]. assert (classify e = ServerFault) as ->.
    { destruct e as [[err | id] | | | |]; cbn; [apply internal | done..]. }
    apply appends_band. unfold packet_size, MAX_BAND_DATA. cbn. lia.
Qed.

(** The packets of a stream, and what a reader that hangs up has of them. *)
Lemma stream_pack_sent {II : Internal ObjErr} objects bodies tail count hash sideband no_progress ofs body :
  room body = None -> Forall2 object_ok objects bodies -> (Z.of_nat (length objects) < 2 ^ 32)%Z ->
  (0 <= count < 2 ^ 32)%Z -> fed objects count tail ->
  exists entries chunks rest packets,
    pack_resolves [] objects bodies entries
    /\ (let calls := pack_calls (is_whole tail) count entries hash in
        let complete := is_whole tail && bool_decide (failure calls = None) in
        Forall packet_size chunks /\ payload calls = concat chunks ++ rest /\ (complete = true -> rest = [])
        /\ stream_pack (map Ok objects ++ tail) body count hash sideband no_progress ofs
           = mkBody (sent body ++ packets) None
        /\ (if sideband then Forall2 (frames pkt_streaming) (band_lines no_progress complete count chunks) packets
            else packets = chunks)
        /\ forall m, stream_pack (map Ok objects ++ tail) (mkBody (sent body) (Some m)) count hash sideband no_progress ofs
           = mkBody (sent body ++ take m packets) (Some (m - length packets))).
Proof.
  intros Hroom Hos Hmax Hcount Hfed.
  assert (exists entries chunks rest packets,
    pack_resolves [] objects bodies entries
    /\ (let calls := pack_calls (is_whole tail) count entries hash in
        let complete := is_whole tail && bool_decide (failure calls = None) in
        Forall packet_size chunks /\ payload calls = concat chunks ++ rest /\ (complete = true -> rest = [])
        /\ stream_pack (map Ok objects ++ tail) body count hash sideband no_progress ofs
           = mkBody (sent body ++ packets) None
        /\ (if sideband then Forall2 (frames pkt_streaming) (band_lines no_progress complete count chunks) packets
            else packets = chunks))) as (entries & chunks & rest & packets & Hpr & HS & HP & HR & Hrun & Hlines).
  2: { exists entries, chunks, rest, packets. split; [done |]. repeat (split; [done |]).
       destruct (stream_pack_prefixing (map Ok objects ++ tail) count hash sideband no_progress ofs body Hroom)
         as (new & E & Hm). rewrite Hrun in E. injection E as E%app_inv_head. subst new. exact Hm. }
  unfold stream_pack. destruct sideband.
  - pose proof (appends_progress no_progress (bs "packing") count) as Hp.
    destruct (Hp ltac:(cbn; lia) Hcount body Hroom) as (ps1 & E1 & F1). cbv beta zeta. rewrite E1.
    destruct (write_through_ok (pkt_band ChData) objects bodies tail count hash ofs (mkBody (sent body ++ ps1) None)
      (fun c Hc => proj1 (pkt_band_ok ChData c) Hc) eq_refl Hos Hmax Hfed)
      as (entries & chunks & ps2 & rest & r & Hpr & F2 & HS & HP & HR & Hw & Ho).
    rewrite Hw. exists entries, chunks, rest.
    set (calls := pack_calls (is_whole tail) count entries hash) in *.
    set (complete := is_whole tail && bool_decide (failure calls = None)).
    destruct (appends_end no_progress complete count r Hcount) with (b := mkBody ((sent body ++ ps1) ++ ps2) None)
      as (ps3 & E3 & F3); [| done |].
    { unfold complete, outcome_of in *. destruct r as [d | [e | [e | e] | | |]]; try done.
      - destruct Ho as [-> ->]. done.
      - by destruct Ho as [-> ->].
      - split; [| done]. rewrite bool_decide_eq_false_2 by done. apply andb_false_r. }
    exists (ps1 ++ ps2 ++ ps3). split; [done | split; [done | split; [done | split; [| split]]]].
    + intros [Hw1 Hw2%bool_decide_eq_true]%andb_true_iff. apply HR; [by destruct tail | done].
    + cbn [sent]. unfold stream_pack_end in E3. rewrite E3. cbn [sent]. by rewrite <- !app_assoc.
    + unfold band_lines. apply Forall2_app; [done |]. apply Forall2_app; [| done].
      apply Forall2_fmap_l. eapply Forall2_impl; [exact F2 |]. intros c f. apply pkt_band_frames.
  - destruct (write_through_ok (fun data => Ok data) objects bodies tail count hash ofs body
      (fun _ _ => eq_refl) Hroom Hos Hmax Hfed)
      as (entries & chunks & packets & rest & r & Hpr & F2 & HS & HP & HR & Hw & Ho).
    exists entries, chunks, rest, packets. rewrite Hw.
    split; [done | split; [done | split; [done | split; [| split; [done |]]]]].
    + intros [Hw1 Hw2%bool_decide_eq_true]%andb_true_iff. apply HR; [by destruct tail | done].
    + clear - F2. induction F2 as [| c f cs fs [= ->] _ ->]; done.
Qed.

(** C8: streaming delivers the pack.  For objects whose stored streams
    inflate, the packets sent read, in order, as the progress lines, the pack
    of one resolving entry per object cut into channel-1 packets within the
    size limit — all of it, its checksum last, unless an object could not be
    read or the hasher failed — and a closing flush, or an error line in its
    place; without side-band the packets are the pack's bytes alone.  A
    client that hangs up has received exactly a prefix of those packets. *)
Theorem stream_pack_delivers {II : Internal ObjErr} objects bodies tail count hash sideband no_progress ofs body :
  room body = None -> Forall2 object_ok objects bodies -> (Z.of_nat (length objects) < 2 ^ 32)%Z ->
  (0 <= count < 2 ^ 32)%Z -> fed objects count tail ->
  exists entries chunks rest packets,
    pack_resolves [] objects bodies entries
    /\ (let calls := pack_calls (is_whole tail) count entries hash in
        let complete := is_whole tail && bool_decide (failure calls = None) in
        Forall packet_size chunks /\ payload calls = concat chunks ++ rest /\ (complete = true -> rest = [])
        /\ stream_pack (map Ok objects ++ tail) body count hash sideband no_progress ofs
           = mkBody (sent body ++ packets) None
        /\ (if sideband then Forall2 (frames pkt_streaming) (band_lines no_progress complete count chunks) packets
            else packets = chunks)
        /\ forall m, stream_pack (map Ok objects ++ tail) (mkBody (sent body) (Some m)) count hash sideband no_progress ofs
           = mkBody (sent body ++ take m packets) (Some (m - length packets))).
Proof. apply stream_pack_sent. Qed.

(** What a lookup of stored objects feeds the writer. *)
Definition stored_as (m : gmap Oid (Kind * bytes)) (o : ScheduledObject Oid) (e : PackEntry Oid) (body : bytes) : Prop :=
  pe_id e = so_oid o /\ pe_delta_group e = so_delta_group o /\ m !! so_oid o = Some (pe_kind e, body).

(** Why the feed stopped before [o]. *)
Definition feed_fault (m : gmap Oid (Kind * bytes)) (o : ScheduledObject Oid) (e : FE) : Prop :=
  match e with FObjects _ => True | Missing oid => oid = so_oid o /\ m !! oid = None end.

Definition sized (m : gmap Oid (Kind * bytes)) : Prop :=
  forall id kb, m !! id = Some kb -> is_u64 (Z.of_nat (length kb.2)).

(** Sizes are 64-bit and streams inflate. *)
Definition readable (g : G) : Prop := sized (ws_objects g) /\ ps_intact g.

Lemma readable_after {X} (f : G -> X * G) g :
  kept intact_kept f -> ws_objects (f g).2 = ws_objects g -> readable g -> readable (f g).2.
Proof. intros Hk Ho [Hs Hi]. split; [by rewrite Ho | by apply Hk]. Qed.

Lemma feed_objects_spec objects g :
  readable g ->
  let '(items, g') := feed_objects objects g in
  ws_same g g' /\ exists entries bodies tail, items = map Ok entries ++ tail
    /\ Forall2 object_ok entries bodies
    /\ Forall3 (stored_as (ws_objects g)) (take (length entries) objects) entries bodies
    /\ ((tail = [] /\ length entries = length objects)
        \/ exists o e, tail = [Err e] /\ objects !! length entries = Some o /\ feed_fault (ws_objects g) o e).
Proof.
  revert g. induction objects as [| o objects IH]; intros g Hsz; cbn [feed_objects].
  { split; [done |]. exists [], [], []. split; [done |]. split; [constructor |]. split; [constructor | auto]. }
  pose proof (readable_after _ g (rs_intact_read (so_oid o))) as Hnext.
  destruct (rs_read_compressed (so_oid o) g) as [r g1] eqn:Er. cbn [snd] in Hnext.
  apply rs_read_compressed_spec in Er as (Hs1 & _ & Hr). pose proof Hs1 as (Ho1 & Hg1 & Hf1).
  assert (forall e, feed_fault (ws_objects g) o e -> ws_same g g1
    /\ exists entries bodies tail, [Err e] = map Ok entries ++ tail
    /\ Forall2 object_ok entries bodies
    /\ Forall3 (stored_as (ws_objects g)) (take (length entries) (o :: objects)) entries bodies
    /\ ((tail = [] /\ length entries = length (o :: objects))
        \/ exists o' e', tail = [Err e'] /\ (o :: objects) !! length entries = Some o'
             /\ feed_fault (ws_objects g) o' e')) as Hstop.
  { intros e He. split; [done |]. exists [], [], [Err e]. split; [done |]. split; [constructor |].
    split; [constructor |]. right. by exists o, e. }
  destruct r as [[[[kind size] zlib] |] | err]; cbn [fetched].
  - destruct (Hr _ eq_refl) as (body & Hb & Hi). specialize (Hi (proj2 Hsz)). specialize (IH g1).
    destruct (feed_objects objects g1) as [items g2]. rewrite Ho1 in IH.
    destruct (IH (Hnext Ho1 Hsz)) as (Hs2 & entries & bodies & tail & -> & Hok & Hst & Ht).
    split; [by eapply ws_same_trans |].
    exists (mkPackEntry (so_oid o) kind size zlib (so_delta_group o) :: entries), (body :: bodies), tail.
    split; [done |]. split; [| split].
    + constructor; [| done]. split; [| done]. cbn. rewrite <- (inflate_length _ _ _ Hi). by apply (proj1 Hsz _ _ Hb).
    + cbn [length take]. constructor; [done | exact Hst].
    + destruct Ht as [[-> Hl] | Ht]; [left; cbn; auto | by right].
  - apply Hstop. split; [done |]. exact (Hr _ eq_refl).
  - by apply Hstop.
Qed.

End stream.

(** ** A sample format

    Entries behind a kind byte and a length; the checksum is a constant. *)
Module PlainFormat.

Definition kind_byte (k : Kind) : byte :=
  match k with KCommit => x01 | KTree => x02 | KBlob => x03 | KTag => x04 end.

Definition entry {Oid} (e : Entry Oid) : bytes :=
  match en_kind e with
  | Base kind => [kind_byte kind]
  | DeltaRef i => [x06] ++ be_bytes 4 (Z.of_nat i)
  end ++ be_bytes 4 (en_decompressed_size e) ++ en_compressed_data e.

#[refine, export] Instance lib {Oid} : PackFormat Oid unit Empty_set unit := {|
  pf_start _ := tt;
  pf_header n _ := ([OpWrite (bs "PACK"); OpWrite (be_bytes 4 2 ++ be_bytes 4 n)], tt);
  pf_entry e _ := ([OpWrite (entry e)], tt);
  pf_trailer _ := ([OpWrite (bs "checksum"); OpFlush], tt);
|}.
Proof. intros _. by exists [OpWrite (bs "checksum")]. Defined.

End PlainFormat.

Module StreamSample.

Abbreviation world := MemPromote.world.
Abbreviation o := MemWalk.o.

Definition store : world := MemPromote.mkWorld MemWalk.repo [] 0.

(** The objects of the sample repository but its tag. *)
Definition schedule : list (ScheduledObject HexOid.t) :=
  [mkScheduled (o x03) None; mkScheduled (o x04) None; mkScheduled (o x05) (Some 7%Z)].

Definition items : list (result (FetchObjectError HexOid.t unit) (PackEntry HexOid.t)) :=
  (feed_objects (RS := MemRepo.lib) schedule store).1.

Definition entry_of (o : ScheduledObject HexOid.t) (kind : Kind) (body : bytes) : PackEntry HexOid.t :=
  mkPackEntry (so_oid o) kind (Z.of_nat (length body)) (deflate (Zl := StoredZlib.lib) body 6) (so_delta_group o).

Definition bodies : list bytes :=
  [oid_bytes (o x04) ++ oid_bytes (o x02); [x01; x61] ++ oid_bytes (o x05); bs "hello"].

Definition entries : list (PackEntry HexOid.t) :=
  [entry_of (mkScheduled (o x03) None) KCommit (oid_bytes (o x04) ++ oid_bytes (o x02));
   entry_of (mkScheduled (o x04) None) KTree ([x01; x61] ++ oid_bytes (o x05));
   entry_of (mkScheduled (o x05) (Some 7%Z)) KBlob (bs "hello")].

Lemma fed_items : items = map Ok entries.
Proof. by vm_compute. Qed.

#[export] Instance internal_unit : Classify unit := fun _ => ServerFault.

Abbreviation stream room :=
  (stream_pack (Pk := PlainPkt.lib) (Zl := StoredZlib.lib) (PF := PlainFormat.lib (Oid := HexOid.t))
     (ObjErr := unit)
     (map Ok entries ++ []) (mkBody [] room) 3 Sha1 true false true).

(** Two progress lines, one packet of data and the flush. *)
Example stream_all : length (sent (stream None)) = 4.
Proof. by vm_compute. Qed.

Example stream_cut : sent (stream (Some 2)) = take 2 (sent (stream None)).
Proof. by vm_compute. Qed.

Lemma entries_ok : Forall2 (object_ok (Zl := StoredZlib.lib)) entries bodies.
Proof. repeat (constructor; [split; [vm_compute; split; congruence | by vm_compute] |]). constructor. Qed.

Lemma never_fails (x : option Empty_set) : x = None.
Proof. by destruct x as [[] |]. Qed.

End StreamSample.

Import StreamSample.

Lemma stream_pack_delivers_witness :
  exists chunks packets, stream None = mkBody packets None
    /\ Forall2 (frames (pkt_streaming (PktLib := PlainPkt.lib))) (band_lines false true 3 chunks) packets
    /\ stream (Some 2) = mkBody (take 2 packets) (Some (2 - length packets)).
Proof.
  destruct (stream_pack_delivers (Pk := PlainPkt.lib) (Zl := StoredZlib.lib) (PF := PlainFormat.lib (Oid := HexOid.t))
    (ObjErr := unit) (II := fun _ => eq_refl) entries bodies [] 3 Sha1 true false true (mkBody [] None))
    as (es & chunks & rest & packets & _ & _ & _ & _ & Hrun & Hlines & Hcut).
  - reflexivity.
  - exact entries_ok.
  - reflexivity.
  - split; [discriminate | reflexivity].
  - left. split; reflexivity.
  - exists chunks, packets. split; [exact Hrun | split; [| exact (Hcut 2)]].
    rewrite (never_fails (failure _)) in Hlines. exact Hlines.
Defined.
