(* ===== verification/UploadPack.v ===== *)
(** * The protocol-v2 fetch endpoint ([src/protocol/upload_pack.rs])

    Requests are parsed, dispatched on their command, and answered: [ls-refs],
    [fetch], [object-format] and [object-info].  Planning a fetch is in
    PlanPack.v, streaming its pack in Stream.v; metrics, tracing and timings
    are not modelled. *)

From S2P Require Import Prelude Bytes GixHash Values Zlib PackDelta PackOut Store GixObject Walk Graph Discovery Collect.
From S2P Require Import Effects Promote Repo PlanPack Pkt Errors Http Advertise Stream.
From stdpp Require Import gmap strings sorting.
From Stdlib Require Import Lia.

Definition RESULT_CONTENT_TYPE : bytes := bs "application/x-git-upload-pack-result".
Definition MAX_SYMREF_DEPTH : nat := 5.
Definition MAX_PEEL_DEPTH : nat := 5.

(** ** Requests *)

Record Request : Type := mkRequest {
  rq_command : bytes;
  rq_object_format : option bytes;
  rq_args : list bytes;
}.

Inductive ParseError : Set := MalformedRequest.

Record FetchArgs (Oid : Type) : Type := mkFetchArgs {
  fa_wants : list Oid;
  fa_haves : list Oid;
  fa_done : bool;
  fa_no_progress : bool;
  fa_ofs_delta : bool;
  fa_filter : FilterSpec;
}.
Arguments mkFetchArgs {Oid}.
Arguments fa_wants {Oid}.
Arguments fa_haves {Oid}.
Arguments fa_done {Oid}.
Arguments fa_no_progress {Oid}.
Arguments fa_ofs_delta {Oid}.
Arguments fa_filter {Oid}.

Record ObjectInfoArgs (Oid : Type) : Type := mkObjectInfoArgs { oi_size : bool; oi_oids : list Oid }.
Arguments mkObjectInfoArgs {Oid}.
Arguments oi_size {Oid}.
Arguments oi_oids {Oid}.

Record LsRefsArgs : Type := mkLsRefsArgs {
  lr_prefixes : list bytes;
  lr_symrefs : bool;
  lr_peel : bool;
  lr_unborn : bool;
}.

Inductive Resolution (Oid : Type) : Type := Resolved (oid : Oid) | Dangling | TooDeep.
Arguments Resolved {Oid}.
Arguments Dangling {Oid}.
Arguments TooDeep {Oid}.

Inductive LsRefsError (Oid StoreErr ObjErr DecodeError PktErr : Type) : Type :=
  | LsStore (e : StoreErr)
  | LsObjects (e : ObjErr)
  | LsDecode (oid : Oid) (source : DecodeError)
  | LsIo (e : PktErr).
Arguments LsStore {Oid StoreErr ObjErr DecodeError PktErr}.
Arguments LsObjects {Oid StoreErr ObjErr DecodeError PktErr}.
Arguments LsDecode {Oid StoreErr ObjErr DecodeError PktErr}.
Arguments LsIo {Oid StoreErr ObjErr DecodeError PktErr}.

#[export] Instance classify_ls_refs {Oid StoreErr ObjErr DecodeError PktErr} `{Classify StoreErr, Classify ObjErr} :
    Classify (LsRefsError Oid StoreErr ObjErr DecodeError PktErr) :=
  fun err =>
    match err with
    | LsStore e => class e
    | LsObjects e => class e
    | LsDecode _ _ | LsIo _ => ServerFault
    end.

Section parse.
Context {PktErr : Type} {Pk : PktLib PktErr} {Oid : Type} {OL : OidLib Oid}.

(** The loop over the packets; every packet takes at least a byte. *)
Fixpoint parse_packets (fuel : nat) (body : bytes) (command object_format : option bytes)
    (args : list bytes) (in_args : bool) : result ParseError Request :=
  match fuel with
  | O => Err MalformedRequest
  | S fuel' =>
      match pkt_streaming body with
      | None => Err MalformedRequest
      | Some (line, consumed) =>
          let body := drop consumed body in
          match line with
          | PktFlush =>
              match command with
              | Some command => Ok (mkRequest command object_format args)
              | None => Err MalformedRequest
              end
          | PktDelimiter =>
              if in_args then Err MalformedRequest
              else parse_packets fuel' body command object_format args true
          | PktData data =>
              match line_text data with
              | None => Err MalformedRequest
              | Some text =>
                  if in_args then parse_packets fuel' body command object_format (args ++ [text]) in_args
                  else
                    match Prelude.strip_prefix (bs "command=") text with
                    | Some name =>
                        match command with
                        | Some _ => Err MalformedRequest
                        | None => parse_packets fuel' body (Some name) object_format args in_args
                        end
                    | None =>
                        match Prelude.strip_prefix (bs "object-format=") text with
                        | Some format => parse_packets fuel' body command (Some format) args in_args
                        | None => parse_packets fuel' body command object_format args in_args
                        end
                    end
              end
          | PktResponseEnd => Err MalformedRequest
          end
      end
  end.

Definition parse_request (body : bytes) : result ParseError Request :=
  parse_packets (S (length body)) body None None [] false.

(** The loop of [FetchArgs::parse]; the error is the [ERR] message. *)
Fixpoint parse_fetch (args : list bytes) (parsed : FetchArgs Oid) : result bytes (FetchArgs Oid) :=
  match args with
  | [] => Ok parsed
  | arg :: args' =>
      let 'mkFetchArgs wants haves done no_progress ofs_delta filter := parsed in
      match Prelude.strip_prefix (bs "want ") arg with
      | Some hex =>
          let? oid := ok_or (oid_from_hex hex) (bs "invalid want: " ++ hex) in
          parse_fetch args' (mkFetchArgs (wants ++ [oid]) haves done no_progress ofs_delta filter)
      | None =>
      match Prelude.strip_prefix (bs "have ") arg with
      | Some hex =>
          let? oid := ok_or (oid_from_hex hex) (bs "invalid have: " ++ hex) in
          parse_fetch args' (mkFetchArgs wants (haves ++ [oid]) done no_progress ofs_delta filter)
      | None =>
      match Prelude.strip_prefix (bs "filter ") arg with
      | Some spec =>
          let? filter := ok_or (filter_parse spec) (bs "unsupported filter: " ++ spec) in
          parse_fetch args' (mkFetchArgs wants haves done no_progress ofs_delta filter)
      | None =>
          if decide (arg = bs "done") then
            parse_fetch args' (mkFetchArgs wants haves true no_progress ofs_delta filter)
          else if decide (arg = bs "no-progress") then
            parse_fetch args' (mkFetchArgs wants haves done true ofs_delta filter)
          else if decide (arg = bs "ofs-delta") then
            parse_fetch args' (mkFetchArgs wants haves done no_progress true filter)
          else if decide (arg = bs "thin-pack" \/ arg = bs "include-tag") then parse_fetch args' parsed
          else Err (bs "unexpected fetch argument: " ++ arg)
      end end end
  end.

Definition FetchArgs_default : FetchArgs Oid := mkFetchArgs [] [] false false false FilterNone.
Definition FetchArgs_parse (args : list bytes) : result bytes (FetchArgs Oid) := parse_fetch args FetchArgs_default.

Fixpoint parse_object_info (args : list bytes) (parsed : ObjectInfoArgs Oid) : result bytes (ObjectInfoArgs Oid) :=
  match args with
  | [] => Ok parsed
  | arg :: args' =>
      match Prelude.strip_prefix (bs "oid ") arg with
      | Some hex =>
          let? oid := ok_or (oid_from_hex hex) (bs "invalid oid: " ++ hex) in
          parse_object_info args' (mkObjectInfoArgs (oi_size parsed) (oi_oids parsed ++ [oid]))
      | None =>
          if decide (arg = bs "size") then parse_object_info args' (mkObjectInfoArgs true (oi_oids parsed))
          else Err (bs "unexpected object-info argument: " ++ arg)
      end
  end.

Definition ObjectInfoArgs_parse (args : list bytes) : result bytes (ObjectInfoArgs Oid) :=
  parse_object_info args (mkObjectInfoArgs false []).

(** The error is the argument itself. *)
Fixpoint parse_ls_refs (args : list bytes) (parsed : LsRefsArgs) : result bytes LsRefsArgs :=
  match args with
  | [] => Ok parsed
  | arg :: args' =>
      let 'mkLsRefsArgs prefixes symrefs peel unborn := parsed in
      match Prelude.strip_prefix (bs "ref-prefix ") arg with
      | Some prefix => parse_ls_refs args' (mkLsRefsArgs (prefixes ++ [prefix]) symrefs peel unborn)
      | None =>
          if decide (arg = bs "symrefs") then parse_ls_refs args' (mkLsRefsArgs prefixes true peel unborn)
          else if decide (arg = bs "peel") then parse_ls_refs args' (mkLsRefsArgs prefixes symrefs true unborn)
          else if decide (arg = bs "unborn") then parse_ls_refs args' (mkLsRefsArgs prefixes symrefs peel true)
          else Err arg
      end
  end.

Definition LsRefsArgs_parse (args : list bytes) : result bytes LsRefsArgs :=
  parse_ls_refs args (mkLsRefsArgs [] false false false).

(** ** The grammar of a request *)

(** The texts of data lines, newlines dropped. *)
Definition texts (lines ts : list bytes) : Prop := Forall2 (fun d t => line_text d = Some t) lines ts.

Definition commands (ts : list bytes) : list bytes := omap (Prelude.strip_prefix (bs "command=")) ts.
Definition formats (ts : list bytes) : list bytes := omap (Prelude.strip_prefix (bs "object-format=")) ts.

(** An optional value and those after it: the last one. *)
Definition latest (o : option bytes) (l : list bytes) : option bytes :=
  match last l with Some x => Some x | None => o end.

Lemma latest_cons o x l : latest o (x :: l) = latest (Some x) l.
Proof. unfold latest. rewrite last_cons. by destruct (last l). Qed.

Lemma format_not_command t f : Prelude.strip_prefix (bs "object-format=") t = Some f ->
  Prelude.strip_prefix (bs "command=") t = None.
Proof. intros ->%strip_prefix_Some. done. Qed.

Lemma command_not_format t n : Prelude.strip_prefix (bs "command=") t = Some n ->
  Prelude.strip_prefix (bs "object-format=") t = None.
Proof. intros ->%strip_prefix_Some. done. Qed.

(** The arguments, once past the delimiter. *)
Lemma parse_args_grammar fuel body command format args req :
  length body < fuel ->
  parse_packets fuel body command format args true = Ok req <->
  exists lines ts rest, lines_of body (map PktData lines ++ [PktFlush]) rest /\ texts lines ts
    /\ command = Some (rq_command req) /\ format = rq_object_format req /\ args ++ ts = rq_args req.
Proof.
  revert body args. induction fuel as [| fuel IH]; intros body args Hl; [lia |]. cbn [parse_packets].
  destruct (pkt_streaming body) as [[line n] |] eqn:Es.
  2: { split; [done |]. intros (lines & ts & rest & H & _).
       destruct lines; apply lines_of_next in H as (? & ? & _); congruence. }
  pose proof (pkt_streaming_consumes _ _ _ Es) as Hn.
  assert (length (drop n body) < fuel) as Hl' by (rewrite length_drop; lia).
  pose proof (fun lines rest H => lines_of_head _ [] lines rest PktFlush _ _ Es H) as Hhead.
  destruct line as [data | | |].
  - destruct (line_text data) as [text |] eqn:Et.
    + rewrite (IH _ _ Hl'). split.
      * intros (lines & ts & rest & H & Ht & Hc & Hf & Ha). exists (data :: lines), (text :: ts), rest.
        split; [by econstructor |]. split; [by constructor |]. rewrite <- Ha, <- app_assoc. done.
      * intros (lines & ts & rest & H & Ht & Hc & Hf & Ha).
        destruct (Hhead _ _ H) as [(d & lines' & -> & [= <-] & H') | (_ & [=] & _)].
        inversion Ht as [| ? t ? ts' E1 Ht' E2 E3]; simplify_eq. exists lines', ts', rest.
        split; [done | split; [done | split; [done | split; [done |]]]]. by rewrite <- app_assoc.
    + split; [done |]. intros (lines & ts & rest & H & Ht & _).
      destruct (Hhead _ _ H) as [(d & lines' & -> & [= <-] & H') | (_ & [=] & _)].
      inversion Ht; congruence.
  - split.
    + destruct command as [c |]; [| done]. intros [= <-]. exists [], [], (drop n body).
      split; [econstructor; [exact Es | constructor] |]. split; [constructor |]. by rewrite app_nil_r.
    + intros (lines & ts & rest & H & Ht & -> & -> & Ha).
      destruct (Hhead _ _ H) as [(d & lines' & -> & [=] & H') | (-> & _ & _)].
      inversion Ht; subst. rewrite app_nil_r in Ha. subst. by destruct req.
  - split; [done |]. intros (lines & ts & rest & H & _).
    by destruct (Hhead _ _ H) as [(d & lines' & -> & [=] & H') | (_ & [=] & _)].
  - split; [done |]. intros (lines & ts & rest & H & _).
    by destruct (Hhead _ _ H) as [(d & lines' & -> & [=] & H') | (_ & [=] & _)].
Qed.

(** The lines of a request: capabilities, then perhaps arguments. *)
Definition request_lines (caps : list bytes) (args : option (list bytes)) : list PacketLine :=
  map PktData caps
  ++ match args with None => [PktFlush] | Some lines => PktDelimiter :: map PktData lines ++ [PktFlush] end.

(** [body] frames [req] after the commands [cs] and the format [format]. *)
Definition frames_request (cs : list bytes) (format : option bytes) (body : bytes) (req : Request) : Prop :=
  exists caps cts args rest, lines_of body (request_lines caps args) rest /\ texts caps cts
    /\ cs ++ commands cts = [rq_command req]
    /\ latest format (formats cts) = rq_object_format req
    /\ match args with None => rq_args req = [] | Some lines => texts lines (rq_args req) end.

Lemma frames_request_data cs format body data n text req :
  pkt_streaming body = Some (PktData data, n) -> line_text data = Some text ->
  frames_request cs format body req
  <-> frames_request (cs ++ commands [text]) (latest format (formats [text])) (drop n body) req.
Proof.
  intros Es Et. unfold frames_request, request_lines. split.
  - intros (caps & cts & args & rest & H & Ht & Hc & Hf & Ha).
    assert (exists caps', caps = data :: caps' /\ lines_of (drop n body) (request_lines caps' args) rest)
      as (caps' & -> & H').
    { destruct args; destruct (lines_of_head _ _ _ _ _ _ _ Es H) as [(d & caps' & -> & [= <-] & H') | (_ & [=] & _)]; eauto. }
    inversion Ht as [| ? t ? cts' E1 Ht' E2 E3]; simplify_eq. exists caps', cts', args, rest.
    split; [done | split; [done | split; [| split; [| done]]]].
    + rewrite <- Hc, <- app_assoc. f_equal. unfold commands. cbn. by destruct (Prelude.strip_prefix _ text).
    + rewrite <- Hf. unfold formats, latest. cbn. destruct (Prelude.strip_prefix _ text); [| done].
      cbn. rewrite last_cons. by destruct (last _).
  - intros (caps & cts & args & rest & H & Ht & Hc & Hf & Ha). exists (data :: caps), (text :: cts), args, rest.
    split; [by econstructor | split; [by constructor | split; [| split; [| done]]]].
    + rewrite <- Hc, <- app_assoc. f_equal. unfold commands. cbn. by destruct (Prelude.strip_prefix _ text).
    + rewrite <- Hf. unfold formats, latest. cbn. destruct (Prelude.strip_prefix _ text); [| done].
      cbn. rewrite last_cons. by destruct (last _).
Qed.

Lemma commands_one t : commands [t] = option_list (Prelude.strip_prefix (bs "command=") t).
Proof. unfold commands. cbn. by destruct (Prelude.strip_prefix _ t). Qed.

Lemma formats_one t : formats [t] = option_list (Prelude.strip_prefix (bs "object-format=") t).
Proof. unfold formats. cbn. by destruct (Prelude.strip_prefix _ t). Qed.

Lemma parse_caps_grammar fuel body command format req :
  length body < fuel ->
  parse_packets fuel body command format [] false = Ok req
  <-> frames_request (option_list command) format body req.
Proof.
  revert body command format. induction fuel as [| fuel IH]; intros body command format Hl; [lia |].
  cbn [parse_packets]. destruct (pkt_streaming body) as [[line n] |] eqn:Es.
  2: { split; [done |]. intros (caps & cts & args & rest & H & _). unfold request_lines in H.
       destruct caps, args; apply lines_of_next in H as (? & ? & _); congruence. }
  pose proof (pkt_streaming_consumes _ _ _ Es) as Hn.
  assert (length (drop n body) < fuel) as Hl' by (rewrite length_drop; lia).
  destruct line as [data | | |].
  - destruct (line_text data) as [text |] eqn:Et.
    + rewrite (frames_request_data _ _ _ _ _ _ _ Es Et), commands_one, formats_one.
      destruct (Prelude.strip_prefix (bs "command=") text) as [name |] eqn:Ec.
      * rewrite (command_not_format _ _ Ec). destruct command as [c |].
        -- split; [done |]. by intros (? & ? & ? & ? & _ & _ & [=] & _).
        -- by rewrite IH by done.
      * destruct (Prelude.strip_prefix (bs "object-format=") text) as [f |]; rewrite IH by done;
          cbn [option_list]; by rewrite app_nil_r.
    + split; [done |]. intros (caps & cts & args & rest & H & Ht & _). unfold request_lines in H.
      destruct args; destruct (lines_of_head _ _ _ _ _ _ _ Es H) as [(d & caps' & -> & [= <-] & H') | (_ & [=] & _)];
        inversion Ht; congruence.
  - split.
    + destruct command as [c |]; [| done]. intros [= <-]. exists [], [], None, (drop n body).
      split; [econstructor; [exact Es | constructor] |]. split; [constructor |]. done.
    + intros (caps & cts & args & rest & H & Ht & Hc & Hf & Ha). unfold request_lines in H.
      destruct args; destruct (lines_of_head _ _ _ _ _ _ _ Es H) as [(d & caps' & -> & [=] & H') | (-> & [=] & _)].
      inversion Ht; subst. cbn in Hc. rewrite app_nil_r in Hc. destruct command; [| done]. cbn in Hc, Hf.
      destruct req as [c f a]. cbn in *. by simplify_eq.
  - rewrite (parse_args_grammar _ _ _ _ [] _ Hl'). split.
    + intros (lines & ts & rest & H & Ht & -> & Hf & Ha). exists [], [], (Some lines), rest.
      split; [by econstructor |]. split; [constructor |]. cbn. split; [done | split; [done |]]. by rewrite <- Ha.
    + intros (caps & cts & args & rest & H & Ht & Hc & Hf & Ha). unfold request_lines in H.
      destruct args as [lines |]; destruct (lines_of_head _ _ _ _ _ _ _ Es H) as [(d & caps' & -> & [=] & H') | (-> & [=] & H')].
      inversion Ht; subst. cbn in Hc, Hf. rewrite app_nil_r in Hc. destruct command; [| done].
      exists lines, (rq_args req), rest. cbn in Hc. split; [done | split; [done |]]. by simplify_eq.
  - split; [done |]. intros (caps & cts & args & rest & H & Ht & _). unfold request_lines in H.
    destruct args; by destruct (lines_of_head _ _ _ _ _ _ _ Es H) as [(d & caps' & -> & [=] & H') | (_ & [=] & _)].
Qed.

(** C29: the request grammar.  A body is a command request exactly when it
    starts with text lines, one of them naming the one command and the last
    [object-format] the format, then perhaps a delimiter and argument lines,
    then a flush; the request is what those lines say, newlines dropped, and
    what follows the flush is ignored. *)
Theorem parse_request_grammar body req :
  parse_request body = Ok req
  <-> exists caps cts args rest,
        lines_of body (request_lines caps args) rest /\ texts caps cts
        /\ commands cts = [rq_command req] /\ last (formats cts) = rq_object_format req
        /\ match args with None => rq_args req = [] | Some lines => texts lines (rq_args req) end.
Proof.
  unfold parse_request. rewrite parse_caps_grammar by lia. unfold frames_request, latest. cbn [option_list app].
  assert (forall cts, match last (formats cts) with Some x => Some x | None => None end = last (formats cts)) as E
    by (intros; by destruct (last _)).
  by setoid_rewrite E.
Qed.

(** ** A client's fetch request *)

Definition filter_args (filter : FilterSpec) : list bytes :=
  match filter with
  | FilterNone => []
  | BlobNone => [bs "filter blob:none"]
  | BlobLimit n => [bs "filter blob:limit=" ++ dec n]
  end.

Definition fetch_lines (a : FetchArgs Oid) : list bytes :=
  map (fun o => bs "want " ++ oid_to_hex o) (fa_wants a) ++ map (fun o => bs "have " ++ oid_to_hex o) (fa_haves a)
  ++ (if fa_no_progress a then [bs "no-progress"] else []) ++ (if fa_ofs_delta a then [bs "ofs-delta"] else [])
  ++ filter_args (fa_filter a) ++ (if fa_done a then [bs "done"] else []).

Definition fetch_packets (a : FetchArgs Oid) : list (result PktErr bytes) :=
  [pkt_data (bs "command=fetch" ++ nl); pkt_data (bs "object-format=sha1" ++ nl); pkt_delim]
  ++ map (fun arg => pkt_data (arg ++ nl)) (fetch_lines a) ++ [pkt_flush].

Lemma parse_fetch_wants ws rest wants haves d np ofs f :
  parse_fetch (map (fun o => bs "want " ++ oid_to_hex o) ws ++ rest) (mkFetchArgs wants haves d np ofs f)
  = parse_fetch rest (mkFetchArgs (wants ++ ws) haves d np ofs f).
Proof.
  revert wants. induction ws as [| w ws IH]; intros wants; cbn [map app]; [by rewrite app_nil_r |].
  cbn [parse_fetch]. rewrite strip_prefix_app, oid_hex_round. cbn [ok_or]. by rewrite IH, <- app_assoc.
Qed.

Lemma parse_fetch_haves hs rest wants haves d np ofs f :
  parse_fetch (map (fun o => bs "have " ++ oid_to_hex o) hs ++ rest) (mkFetchArgs wants haves d np ofs f)
  = parse_fetch rest (mkFetchArgs wants (haves ++ hs) d np ofs f).
Proof.
  revert haves. induction hs as [| h hs IH]; intros haves; cbn [map app]; [by rewrite app_nil_r |].
  cbn [parse_fetch]. change (Prelude.strip_prefix (bs "want ") (bs "have " ++ oid_to_hex h)) with (@None bytes).
  rewrite strip_prefix_app, oid_hex_round. cbn [ok_or]. by rewrite IH, <- app_assoc.
Qed.

Lemma parse_fetch_filter arg filter rest wants haves d np ofs f :
  filter_parse arg = Some filter ->
  parse_fetch ((bs "filter " ++ arg) :: rest) (mkFetchArgs wants haves d np ofs f)
  = parse_fetch rest (mkFetchArgs wants haves d np ofs filter).
Proof.
  intros Hf. cbn [parse_fetch].
  change (Prelude.strip_prefix (bs "want ") (bs "filter " ++ arg)) with (@None bytes).
  change (Prelude.strip_prefix (bs "have ") (bs "filter " ++ arg)) with (@None bytes).
  by rewrite strip_prefix_app, Hf.
Qed.

Lemma is_digit_dec n : (0 <= n)%Z -> dec n <> [] /\ Forall (fun b => is_digit b = true) (dec n).
Proof.
  intros Hn. split.
  - intros E. pose proof (dec_length n (Z.log2 n + 1)) as H. rewrite E in H. cbn [length] in H.
    pose proof (Z.log2_nonneg n). destruct (decide (n = 0%Z)) as [-> |]; [by vm_compute in E |].
    pose proof (Z.log2_spec n ltac:(lia)). unfold Z.succ in *. lia.
  - eapply Forall_impl; [apply decimal_dec, Hn |]. intros b Hb. unfold is_digit, in_range. cbn beta in Hb. lia.
Qed.

Lemma FetchArgs_round a :
  match fa_filter a with BlobLimit n => is_u64 n | _ => True end -> FetchArgs_parse (fetch_lines a) = Ok a.
Proof.
  destruct a as [wants haves d np ofs filter]. cbn [fa_filter]. intros Hf.
  unfold FetchArgs_parse, FetchArgs_default, fetch_lines. cbn [fa_wants fa_haves fa_done fa_no_progress fa_ofs_delta fa_filter].
  rewrite parse_fetch_wants, parse_fetch_haves. cbn [app].
  assert (forall np ofs, parse_fetch (filter_args filter ++ (if d then [bs "done"] else []))
    (mkFetchArgs wants haves false np ofs FilterNone) = Ok (mkFetchArgs wants haves d np ofs filter)) as Htail.
  { intros np' ofs'. destruct filter as [| | n]; cbn [filter_args app].
    - by destruct d.
    - rewrite (parse_fetch_filter (bs "blob:none") BlobNone) by done. by destruct d.
    - rewrite (parse_fetch_filter (bs "blob:limit=" ++ dec n) (BlobLimit n)); [by destruct d |].
      destruct Hf as [H0 H1]. destruct (is_digit_dec n H0) as [Hne Hd].
      rewrite filter_parse_limit, parse_unit_digits by done.
      rewrite (proj1 (decimal_dec n H0)). by destruct (Z.ltb_spec n (2 ^ 64)); [| lia]. }
  specialize (Htail np ofs). destruct np, ofs; exact Htail.
Qed.

(** A line of ASCII text up to a newline reads as itself. *)
Definition plain_text (t : bytes) : Prop := Forall (fun b => (u8 b < 128)%Z) t.

Lemma line_text_utf8 t : utf8_valid t = true -> line_text (t ++ nl) = Some t.
Proof.
  intros Ht. unfold line_text. change (bs "
") with nl. rewrite strip_suffix_app. cbn [default from_option id].
  by apply from_utf8_valid.
Qed.

Lemma line_text_nl t : plain_text t -> line_text (t ++ nl) = Some t.
Proof. intros Ht. by apply line_text_utf8, ascii_utf8. Qed.

Lemma fetch_lines_plain a :
  match fa_filter a with BlobLimit n => is_u64 n | _ => True end ->
  Forall (fun t => plain_text t /\ length t <= 100) (fetch_lines a).
Proof.
  intros Hf. unfold fetch_lines.
  assert (forall pre (o : Oid), plain_text pre -> length pre <= 8 ->
    plain_text (pre ++ oid_to_hex o) /\ length (pre ++ oid_to_hex o) <= 100) as Hoid.
  { intros pre o Hp Hl. split; [apply Forall_app; split; [done | apply hex_ascii] |].
    rewrite length_app, oid_hex_len. destruct (oid_kind o); cbn; lia. }
  assert (forall t, bool_decide (length t <= 100) && forallb (fun b => u8 b <? 128)%Z t = true ->
    plain_text t /\ length t <= 100) as Hconst.
  { intros t [Hl%bool_decide_eq_true Ht]%andb_true_iff. split; [| done].
    apply List.Forall_forall. intros b Hb. rewrite forallb_forall in Ht. specialize (Ht b Hb). lia. }
  rewrite !Forall_app. split; [| split; [| split; [| split; [| split]]]].
  - apply Forall_fmap, Forall_true. intros o. apply (Hoid (bs "want ")); [by repeat constructor | cbn; lia].
  - apply Forall_fmap, Forall_true. intros o. apply (Hoid (bs "have ")); [by repeat constructor | cbn; lia].
  - destruct (fa_no_progress a); constructor; [by apply Hconst | done].
  - destruct (fa_ofs_delta a); constructor; [by apply Hconst | done].
  - destruct (fa_filter a) as [| | n]; cbn [filter_args]; [done | constructor; [by apply Hconst | done] |].
    constructor; [| done]. destruct Hf as [H0 H1]. pose proof (dec_length n 64 (conj H0 H1) eq_refl).
    split; [| rewrite length_app; cbn in *; lia]. apply Forall_app. split; [by repeat constructor |].
    eapply Forall_impl; [apply decimal_dec, H0 |]. cbn. lia.
  - destruct (fa_done a); constructor; [by apply Hconst | done].
Qed.

(** C30: fetch requests round trip.  A client's request for any wants, haves,
    flags and filter — its limit a 64-bit number — is framed, parsed and
    dispatched back to exactly those arguments. *)
Theorem fetch_request_roundtrip (a : FetchArgs Oid) :
  match fa_filter a with BlobLimit n => is_u64 n | _ => True end ->
  exists body req, write_all (fetch_packets a) = Ok body /\ parse_request body = Ok req
    /\ rq_command req = bs "fetch" /\ rq_object_format req = Some (bs "sha1")
    /\ FetchArgs_parse (rq_args req) = Ok a.
Proof.
  intros Hf. pose proof (fetch_lines_plain a Hf) as Hpl.
  destruct (ready_body (fetch_packets a)
    (request_lines [bs "command=fetch" ++ nl; bs "object-format=sha1" ++ nl]
       (Some (map (fun arg => arg ++ nl) (fetch_lines a))))) as (body & Hw & Hb).
  { unfold fetch_packets, request_lines. cbn [map app].
    apply ready_data; [cbn; lia | cbn; unfold MAX_DATA_LEN; lia |].
    apply ready_data; [cbn; lia | cbn; unfold MAX_DATA_LEN; lia |]. apply ready_delim. rewrite map_map.
    apply ready_lines_app; [| apply ready_flush; constructor]. apply (ready_map (fun arg => arg ++ nl)).
    eapply Forall_impl; [exact Hpl |]. cbn. intros t [_ Hl]. rewrite length_app. cbn. unfold MAX_DATA_LEN. lia. }
  exists body, (mkRequest (bs "fetch") (Some (bs "sha1")) (fetch_lines a)).
  split; [done |]. cbn [rq_command rq_object_format rq_args].
  split; [| split; [done | split; [done | by apply FetchArgs_round]]].
  apply parse_caps_grammar; [lia |].
  exists [bs "command=fetch" ++ nl; bs "object-format=sha1" ++ nl], [bs "command=fetch"; bs "object-format=sha1"],
    (Some (map (fun arg => arg ++ nl) (fetch_lines a))), [].
  split; [rewrite <- (app_nil_r body), <- (app_nil_r (request_lines _ _)); apply Hb; constructor |].
  split; [repeat constructor |]. split; [done | split; [done |]]. cbn [rq_args].
  clear - Hpl. unfold texts. induction Hpl as [| t ts [Ht _] _ IH]; cbn [map]; [constructor |].
  constructor; [by apply line_text_nl | done].
Qed.

End parse.

Section upload_pack.
Context {PktErr : Type} {Pk : PktLib PktErr} {Oid : Type} {OL : OidLib Oid} {Zl : ZlibLib}.
Context {Digest HashErr F : Type} {PF : PackFormat Oid Digest HashErr F}.
Context {StoreErr ObjErr DecodeError G : Type} {OB : ObjectLib Oid DecodeError}.
Context {WS : WalkStore Oid StoreErr ObjErr G} {PS : PromoteStore Oid StoreErr ObjErr G}.
Context {RS : RepoStore Oid StoreErr ObjErr G} {CS : Classify StoreErr} {CO : Classify ObjErr}.

Abbreviation WE := (WalkError Oid StoreErr ObjErr DecodeError).
Abbreviation LE := (LsRefsError Oid StoreErr ObjErr DecodeError PktErr).
Abbreviation R A := (result PktErr A).

(** ** Rejections *)

Definition err_line (message : bytes) : Response :=
  match error_line message with
  | Ok body => git_response OK RESULT_CONTENT_TYPE body
  | Err _ => internal_error
  end.

Definition version_error : Response :=
  match error_line (bs "git protocol version 2 required") with
  | Ok body => git_response BAD_REQUEST RESULT_CONTENT_TYPE body
  | Err _ => internal_error
  end.

(** Counting the rejection is not modelled. *)
Definition reject_fetch (message : bytes) : Response := err_line message.

Definition error_response (c : ErrorClass) : Response :=
  match c with
  | Client reason => err_line reason
  | Errors.NotFound => plain NOT_FOUND (bs "repository not found")
  | ServerFault => internal_error
  end.

(** ** fetch *)

Definition ack_line (oid : Oid) : bytes := bs "ACK " ++ oid_to_hex oid ++ nl.

(** The packets that come before the pack. *)
Definition negotiation_packets (done : bool) (common : list Oid) : list (R bytes) :=
  (if done then []
   else [pkt_data (bs "acknowledgments" ++ nl)]
        ++ match common with
           | [] => [pkt_data (bs "NAK" ++ nl)]
           | _ => map (fun oid => pkt_data (ack_line oid)) common
           end
        ++ [pkt_data (bs "ready" ++ nl); pkt_delim])
  ++ [pkt_data (bs "packfile" ++ nl)].

Definition negotiation_prefix (done : bool) (common : list Oid) : R bytes :=
  write_all (negotiation_packets done common).

(** The response: the prefix, then what the pipeline sends while the client
    listens. *)
Definition stream_pack_response (objects : list (ScheduledObject Oid)) (count : Z) (object_hash : HashKind)
    (prefix : bytes) (sideband no_progress ofs_deltas : bool) (room : option nat) : G -> Response * G := fun g =>
  let '(items, g) := feed_objects objects g in
  let body := stream_pack items (mkBody [] room) count object_hash sideband no_progress ofs_deltas in
  (git_response OK RESULT_CONTENT_TYPE (prefix ++ concat (sent body)), g).

(** [u32::try_from(len)]. *)
Definition pack_count (objects : list (ScheduledObject Oid)) : option Z :=
  let n := Z.of_nat (length objects) in if (n <? 2 ^ 32)%Z then Some n else None.

Definition fetch (fuel : nat) (object_hash : HashKind) (args : list bytes) (room : option nat) : G -> Response * G :=
  fun g =>
    match FetchArgs_parse args with
    | Err message => (reject_fetch message, g)
    | Ok parsed =>
        match fa_wants parsed with
        | [] => (reject_fetch (bs "fetch requires at least one want"), g)
        | _ =>
            let '(planned, g) :=
              plan_pack fuel (fa_wants parsed) (fa_haves parsed) (fa_filter parsed) (fa_ofs_delta parsed) g in
            match planned with
            | Err err => (error_response (classify (err : WE)), g)
            | Ok plan =>
                match pack_count (pp_objects plan) with
                | None => (reject_fetch (bs "too many objects for one pack"), g)
                | Some count =>
                    match negotiation_prefix (fa_done parsed) (pp_common plan) with
                    | Err _ => (internal_error, g)
                    | Ok prefix =>
                        stream_pack_response (pp_objects plan) count object_hash prefix true
                          (fa_no_progress parsed) (fa_ofs_delta parsed) room g
                    end
                end
            end
        end
    end.

(** ** object-format and object-info *)

Definition object_format (meta : RepoMeta) : Response :=
  match write_all [pkt_data (kind_name (rm_object_format meta) ++ nl); pkt_flush] with
  | Ok body => git_response OK RESULT_CONTENT_TYPE body
  | Err _ => internal_error
  end.

Definition size_line (oid : Oid) (size : Z) : bytes := oid_to_hex oid ++ bs " " ++ dec size ++ nl.

(** The loop over the oids; an early return is a response. *)
Fixpoint object_sizes_body (oids : list Oid) : SE G Response bytes :=
  match oids with
  | [] => se_ret []
  | oid :: oids' => fun g =>
      match ws_size oid g with
      | (Ok (Some (_, size)), g) =>
          match pkt_data (size_line oid size) with
          | Ok line => (do! rest <- object_sizes_body oids'; se_ret (line ++ rest)) g
          | Err _ => (Err internal_error, g)
          end
      | (Ok None, g) => (Err (err_line (bs "unknown object " ++ oid_to_hex oid)), g)
      | (Err err, g) => (Err (error_response (classify err)), g)
      end
  end.

Definition object_info (args : list bytes) : G -> Response * G := fun g =>
  match ObjectInfoArgs_parse args with
  | Err message => (err_line message, g)
  | Ok parsed =>
      match pkt_data (bs "size" ++ nl) with
      | Err _ => (internal_error, g)
      | Ok header =>
          match object_sizes_body (oi_oids parsed) g with
          | (Err response, g) => (response, g)
          | (Ok lines, g) =>
              match pkt_flush with
              | Ok flush => (git_response OK RESULT_CONTENT_TYPE (header ++ lines ++ flush), g)
              | Err _ => (internal_error, g)
              end
          end
      end
  end.

(** ** ls-refs *)

(** A [BTreeMap]'s insertion, the map as its entries in key order. *)
Fixpoint btree_insert (name : bytes) (target : RefTarget Oid) (refs : list (bytes * RefTarget Oid))
    : list (bytes * RefTarget Oid) :=
  match refs with
  | [] => [(name, target)]
  | (n, t) :: refs' =>
      if decide (name = n) then (name, target) :: refs'
      else if bytes_le name n then (name, target) :: refs
      else (n, t) :: btree_insert name target refs'
  end.

Fixpoint gather_prefixes (prefixes : list bytes) (refs : list (bytes * RefTarget Oid))
    : SE G StoreErr (list (bytes * RefTarget Oid)) :=
  match prefixes with
  | [] => se_ret refs
  | prefix :: prefixes' =>
      do! found <- rs_list_refs (Some prefix);
      gather_prefixes prefixes' (fold_left (fun refs r => btree_insert r.1 r.2 refs) found refs)
  end.

Definition gather_refs (prefixes : list bytes) : SE G StoreErr (list (bytes * RefTarget Oid)) :=
  match prefixes with
  | [] => rs_list_refs None
  | _ => gather_prefixes prefixes []
  end.

Fixpoint resolve_loop (depth : nat) (current : RefTarget Oid) : SE G StoreErr (Resolution Oid) :=
  match depth with
  | O => se_ret TooDeep
  | S depth' =>
      match current with
      | Direct oid => se_ret (Resolved oid)
      | Reference name =>
          do! next <- ws_get_ref name;
          match next with
          | Some next => resolve_loop depth' next
          | None => se_ret Dangling
          end
      end
  end.

Definition resolve_ref (target : RefTarget Oid) : SE G StoreErr (Resolution Oid) :=
  resolve_loop MAX_SYMREF_DEPTH target.

Fixpoint peel_loop (depth : nat) (current : Oid) (peeled : bool) : SE G LE (option Oid) :=
  match depth with
  | O => se_ret (if peeled then Some current else None)
  | S depth' =>
      do! found <- se_map_err LsObjects (ws_get current);
      match found with
      | None => se_ret None
      | Some (kind, body) =>
          if decide (kind <> KTag) then se_ret (if peeled then Some current else None)
          else
            do! target <- se_lift (map_err (LsDecode current) (tag_ref body (oid_kind current)));
            peel_loop depth' target true
      end
  end.

Definition peel_ref (oid : Oid) : SE G LE (option Oid) := peel_loop MAX_PEEL_DEPTH oid false.

Definition ls_ref_line (args : LsRefsArgs) (head name : bytes) (target : RefTarget Oid) (peeled : option Oid) : bytes :=
  head ++ bs " " ++ name
  ++ match target with
     | Reference inner => if lr_symrefs args then bs " symref-target:" ++ inner else []
     | Direct _ => []
     end
  ++ match peeled with Some p => bs " peeled:" ++ oid_to_hex p | None => [] end ++ nl.

(** What one ref adds to the body. *)
Definition ls_ref (args : LsRefsArgs) (name : bytes) (target : RefTarget Oid) : SE G LE bytes :=
  do! resolution <- se_map_err LsStore (resolve_ref target);
  match resolution with
  | Resolved oid =>
      do! peeled <- (if lr_peel args then peel_ref oid else se_ret None);
      se_lift (map_err LsIo (pkt_data (ls_ref_line args (oid_to_hex oid) name target peeled)))
  | Dangling =>
      match target with
      | Reference _ =>
          if lr_unborn args
          then se_lift (map_err LsIo (pkt_data (ls_ref_line args (bs "unborn") name target None)))
          else se_ret []
      | Direct _ => se_ret []
      end
  | TooDeep => se_ret []
  end.

Fixpoint ls_ref_lines (args : LsRefsArgs) (refs : list (bytes * RefTarget Oid)) : SE G LE bytes :=
  match refs with
  | [] => se_ret []
  | (name, target) :: refs' =>
      do! line <- ls_ref args name target;
      do! rest <- ls_ref_lines args refs';
      se_ret (line ++ rest)
  end.

Definition build_ls_refs (args : LsRefsArgs) : SE G LE bytes :=
  do! refs <- se_map_err LsStore (gather_refs (lr_prefixes args));
  do! lines <- ls_ref_lines args refs;
  do! flush <- se_lift (map_err LsIo pkt_flush);
  se_ret (lines ++ flush).

Definition ls_refs (args : list bytes) : G -> Response * G := fun g =>
  match LsRefsArgs_parse args with
  | Err arg => (err_line (bs "unexpected ls-refs argument: " ++ arg), g)
  | Ok parsed =>
      match build_ls_refs parsed g with
      | (Ok body, g) => (git_response OK RESULT_CONTENT_TYPE body, g)
      | (Err err, g) => (error_response (classify err), g)
      end
  end.

(** ** Dispatch

    The repository a name resolves to is what [lookup] found. *)
Definition dispatch (fuel : nat) (meta : RepoMeta) (request : Request) (room : option nat) : G -> Response * G :=
  if decide (rq_command request = bs "ls-refs") then ls_refs (rq_args request)
  else if decide (rq_command request = bs "fetch") then fetch fuel (rm_object_format meta) (rq_args request) room
  else if decide (rq_command request = bs "object-format") then fun g => (object_format meta, g)
  else if decide (rq_command request = bs "object-info") then object_info (rq_args request)
  else fun g => (err_line (bs "unknown command: " ++ rq_command request), g).

(** ** What a fetch answers *)

Definition prefix_lines (done : bool) (common : list Oid) : list PacketLine :=
  (if done then []
   else [PktData (bs "acknowledgments" ++ nl)]
        ++ match common with
           | [] => [PktData (bs "NAK" ++ nl)]
           | _ => map (fun oid => PktData (ack_line oid)) common
           end
        ++ [PktData (bs "ready" ++ nl); PktDelimiter])
  ++ [PktData (bs "packfile" ++ nl)].

Lemma oid_hex_bound (oid : Oid) : 0 < length (oid_to_hex oid) <= 64.
Proof. rewrite oid_hex_len. destruct (oid_kind oid); cbn; lia. Qed.

Lemma short_line (s : bytes) : bool_decide (s <> [] /\ length s <= 200) = true -> 0 < length s <= MAX_DATA_LEN.
Proof.
  intros [Hs Hl]%bool_decide_eq_true. unfold MAX_DATA_LEN.
  assert (0 < length s) by (destruct s; [done | cbn; lia]). lia.
Qed.

Lemma ack_line_size oid : 0 < length (ack_line oid) <= MAX_DATA_LEN.
Proof.
  unfold ack_line, MAX_DATA_LEN. rewrite !length_app. pose proof (oid_hex_bound oid).
  assert (length (bs "ACK ") = 4) by done. assert (length nl = 1) by done. lia.
Qed.

Ltac ready_lines :=
  repeat first
    [ apply ready_flush | apply ready_delim
    | apply ready_data; [by apply short_line | by apply short_line |] ];
  try constructor.

Lemma negotiation_prefix_lines done common :
  ready (negotiation_packets done common) (prefix_lines done common).
Proof.
  unfold negotiation_packets, prefix_lines. apply ready_lines_app; [destruct done; [constructor |] | ready_lines].
  apply ready_lines_app; [ready_lines |]. apply ready_lines_app; [| ready_lines].
  destruct common as [| c common]; [ready_lines |]. apply (ready_map ack_line).
  apply Forall_forall. intros. apply ack_line_size.
Qed.

(** The packets of a body a client may stop reading. *)
Definition received (room : option nat) (packets : list bytes) : bytes :=
  concat (match room with None => packets | Some n => take n packets end).

(** [body] is the answer to a fetch of [objects]: the lines [ls], then a pack of
    one resolving entry per object read — of all, its trailer included, when
    [complete] — in side-band packets if the client takes them. *)
Definition pack_answer (m : gmap Oid (Kind * bytes)) (objects : list (ScheduledObject Oid)) (count : Z)
    (hash : HashKind) (sideband no_progress : bool) (ls : list PacketLine) (room : option nat) (body : bytes) : Prop :=
  exists head entries bodies es chunks packets complete,
    body = head ++ received room packets
    /\ (forall rest ls' r, lines_of rest ls' r -> lines_of (head ++ rest) (ls ++ ls') r)
    /\ Forall3 (stored_as m) (take (length entries) objects) entries bodies
    /\ pack_resolves [] entries bodies es
    /\ Forall packet_size chunks
    /\ (if sideband then lines_of (concat packets) (band_lines no_progress complete count chunks) []
        else packets = chunks)
    /\ if complete : bool
       then length entries = length objects /\ concat chunks = payload (pack_calls (F := F) true count es hash)
       else length entries < length objects
            \/ failure (pack_calls (F := F) (bool_decide (length entries = length objects)) count es hash) <> None.

Lemma stream_pack_response_spec {II : Internal ObjErr} objects count hash head ls sideband no_progress ofs room g :
  readable g -> pack_count objects = Some count ->
  (forall rest ls' r, lines_of rest ls' r -> lines_of (head ++ rest) (ls ++ ls') r) ->
  let '(resp, g') := stream_pack_response objects count hash head sideband no_progress ofs room g in
  ws_objects g' = ws_objects g
  /\ exists body, resp = git_response OK RESULT_CONTENT_TYPE body
     /\ pack_answer (ws_objects g) objects count hash sideband no_progress ls room body.
Proof.
  intros Hsz Hcount Hhead. unfold pack_count in Hcount.
  destruct (Z.ltb_spec (Z.of_nat (length objects)) (2 ^ 32)) as [Hlt |]; [| done]. injection Hcount as <-.
  unfold stream_pack_response. pose proof (feed_objects_spec objects g Hsz) as H.
  destruct (feed_objects objects g) as [items g'].
  destruct H as ((Ho & _) & entries & bodies & tail & -> & Hok & Hst & Ht). split; [done |].
  eexists. split; [done |].
  assert (length entries <= length objects) as Hle.
  { destruct Ht as [[_ Hl] | (o & e & _ & Hl & _)]; [lia |]. apply lookup_lt_Some in Hl. lia. }
  destruct (stream_pack_sent entries bodies tail (Z.of_nat (length objects)) hash sideband no_progress ofs
    (mkBody [] None)) as (es & chunks & rest & packets & Hpr & HS & HP & HR & Hrun & Hlines & Hcut);
    [done | done | lia | lia | |].
  { destruct Ht as [[-> Hl] | (o & e & -> & _)]; [left; split; [done | by rewrite Hl] | right; by eexists]. }
  cbn [sent app] in Hrun, Hcut. set (whole := is_whole tail) in *. set (n := Z.of_nat (length objects)) in *.
  exists head, entries, bodies, es, chunks, packets, (whole && bool_decide (failure (pack_calls whole n es hash) = None)).
  split.
  { destruct room as [k |]; cbn [received].
    - rewrite (Hcut k). done.
    - by rewrite Hrun. }
  split; [done | split; [done | split; [done | split; [done | split; [destruct sideband; [by apply lines_of_packets | done] |]]]]].
  destruct (bool_decide_reflect (failure (pack_calls whole n es hash) = None)) as [Hf | Hf].
  - rewrite andb_true_r in *. destruct Ht as [[-> Hl] | (o & e & -> & Hl & _)].
    + cbn [is_whole] in *. subst whole. split; [done |]. rewrite HP, (HR eq_refl). by rewrite app_nil_r.
    + left. apply lookup_lt_Some in Hl. done.
  - rewrite andb_false_r. destruct Ht as [[-> Hl] | (o & e & -> & Hl & _)].
    + right. by rewrite bool_decide_eq_true_2.
    + left. apply lookup_lt_Some in Hl. done.
Qed.

(** The answer to a walk's fault: in-band for a want it blames, else a bare
    server error. *)
Definition fault_answer (m : gmap Oid (Kind * bytes)) (resp : Response) : Prop :=
  exists e : WE, fault m e
    /\ (resp = internal_error
        \/ (exists w, e = UnknownWant w /\ m !! w = None
              /\ resp = err_line (bs "not our ref " ++ oid_to_hex w))
        \/ exists w kind, e = UnsupportedWant w kind /\ resp = err_line (bs "want is not a commit or tag")).

Lemma fault_answered {IS : Internal StoreErr} {IO : Internal ObjErr} m (e : WE) :
  fault m e -> fault_answer m (error_response (classify e)).
Proof.
  intros H. exists e. split; [done |].
  destruct (walk_class e) as [E | [(oid & -> & E) | (oid & kind & -> & E)]]; unfold classify; rewrite E; cbn.
  - by left.
  - right. left. by exists oid.
  - right. right. by exists oid, kind.
Qed.

(** The answers to a fetch. *)
Definition fetch_answer (m : gmap Oid (Kind * bytes)) (parsed : FetchArgs Oid) (hash : HashKind) (room : option nat)
    (resp : Response) : Prop :=
  fault_answer m resp
  \/ exists plan, planned m (fa_wants parsed) (fa_haves parsed) (fa_filter parsed) (fa_ofs_delta parsed) plan
     /\ match pack_count (pp_objects plan) with
        | None => resp = reject_fetch (bs "too many objects for one pack")
        | Some count => exists body, resp = git_response OK RESULT_CONTENT_TYPE body
            /\ pack_answer m (pp_objects plan) count hash true (fa_no_progress parsed)
                 (prefix_lines (fa_done parsed) (pp_common plan)) room body
        end.


(** ** What ls-refs lists *)

Definition name_le (a b : bytes * RefTarget Oid) : Prop := bytes_le a.1 b.1 = true.

(** The refs under any of the prefixes, or all for no prefix: once each, in
    name order. *)
Definition gathered (refs : gmap bytes (RefTarget Oid)) (prefixes : list bytes) (l : list (bytes * RefTarget Oid)) : Prop :=
  StronglySorted name_le l /\ NoDup l.*1
  /\ forall n t, (n, t) ∈ l <->
       refs !! n = Some t /\ (prefixes = [] \/ exists p, p ∈ prefixes /\ starts_with p n = true).

Lemma btree_insert_elem n t l n' t' :
  StronglySorted name_le l -> NoDup l.*1 ->
  (n', t') ∈ btree_insert n t l <-> (n' = n /\ t' = t) \/ (n' <> n /\ (n', t') ∈ l).
Proof.
  induction l as [| [m u] l IH]; intros Hs Hd; cbn [btree_insert].
  - rewrite list_elem_of_singleton, elem_of_nil. split; [intros [= -> ->]; auto | intros [[-> ->] | [_ []]]; done].
  - apply StronglySorted_inv in Hs as [Hs Hf]. rewrite fmap_cons in Hd. apply NoDup_cons in Hd as [Hn Hd].
    assert (forall t', (m, t') ∉ l) as Hm.
    { intros t'' Hin. apply Hn. apply list_elem_of_fmap. by exists (m, t''). }
    case_decide as E; [subst m | destruct (bytes_le n m) eqn:El].
    + rewrite !elem_of_cons. split.
      * intros [[= -> ->] | Hin]; [by left |]. right. split; [| by right]. intros ->. by apply Hm in Hin.
      * intros [[-> ->] | [Hne [[= -> ->] | Hin]]]; [by left | done | by right].
    + rewrite !elem_of_cons. split.
      * intros [[= -> ->] | [[= -> ->] | Hin]]; [by left | right; by split; [| left] |].
        right. split; [| by right]. intros ->.
        rewrite List.Forall_forall in Hf. specialize (Hf (n, t')). rewrite <- list_elem_of_In in Hf.
        apply E. apply bytes_le_antisym; [done | by apply Hf].
      * intros [[-> ->] | [Hne Hin]]; [by left | by right].
    + rewrite !elem_of_cons, (IH Hs Hd). split.
      * intros [[= -> ->] | [[-> ->] | [Hne Hin]]]; [right; by split; [| left] | by left | right; by split; [| right]].
      * intros [[-> ->] | [Hne [[= -> ->] | Hin]]]; auto.
Qed.

Lemma btree_insert_sorted n t l :
  StronglySorted name_le l -> NoDup l.*1 ->
  StronglySorted name_le (btree_insert n t l) /\ NoDup (btree_insert n t l).*1.
Proof.
  induction l as [| [m u] l IH]; intros Hs Hd; cbn [btree_insert].
  { split; [repeat constructor | cbn; apply NoDup_singleton]. }
  pose proof Hs as [Hs' Hf]%StronglySorted_inv. pose proof Hd as Hd0.
  rewrite fmap_cons in Hd. apply NoDup_cons in Hd as [Hn Hd].
  case_decide as E; [subst m | destruct (bytes_le n m) eqn:El].
  - split; [by constructor |]. cbn. by apply NoDup_cons.
  - split.
    + constructor; [done |]. constructor; [done |]. eapply Forall_impl; [exact Hf |].
      intros [k v] Hk. unfold name_le in *. cbn in *. by eapply bytes_le_trans.
    + rewrite fmap_cons. apply NoDup_cons. split; [| done]. cbn. rewrite elem_of_cons. intros [-> | Hin]; [done |].
      apply list_elem_of_fmap in Hin as ([k v] & -> & Hin). rewrite List.Forall_forall in Hf.
      specialize (Hf _ (proj1 (list_elem_of_In _ _) Hin)). unfold name_le in Hf. cbn in *.
      apply E. by apply bytes_le_antisym.
  - destruct (IH Hs' Hd) as [Hs2 Hd2]. pose proof (bytes_le_total n m) as [? | Hmn]; [congruence |]. split.
    + constructor; [done |]. apply List.Forall_forall. intros [k v] Hin%list_elem_of_In.
      apply (btree_insert_elem n t l) in Hin as [[-> ->] | [_ Hin]]; [done | | done | done].
      rewrite List.Forall_forall in Hf. by apply Hf, list_elem_of_In.
    + rewrite fmap_cons. apply NoDup_cons. split; [| done]. cbn.
      intros ([k v] & -> & Hin)%list_elem_of_fmap.
      apply (btree_insert_elem n t l) in Hin as [[-> ->] | [_ Hin]]; [done | | done | done].
      apply Hn, list_elem_of_fmap. by exists (k, v).
Qed.

Lemma fold_insert_spec (refs : gmap bytes (RefTarget Oid)) found l :
  (forall n t, (n, t) ∈ found -> refs !! n = Some t) -> (forall n t, (n, t) ∈ l -> refs !! n = Some t) ->
  StronglySorted name_le l -> NoDup l.*1 ->
  let l' := fold_left (fun refs r => btree_insert r.1 r.2 refs) found l in
  StronglySorted name_le l' /\ NoDup l'.*1 /\ forall n t, (n, t) ∈ l' <-> (n, t) ∈ l \/ (n, t) ∈ found.
Proof.
  revert l. induction found as [| [n t] found IH]; intros l Hf Hl Hs Hd; cbn [fold_left].
  - split; [done | split; [done |]]. intros n t. rewrite elem_of_nil. tauto.
  - destruct (btree_insert_sorted n t l Hs Hd) as [Hs' Hd'].
    destruct (IH (btree_insert n t l)) as (Hs2 & Hd2 & H); [set_solver | | done | done |].
    { intros n' t' [[-> ->] | [_ Hin]]%btree_insert_elem; [apply Hf; by left | auto | done | done]. }
    split; [done | split; [done |]]. intros n' t'. rewrite H, btree_insert_elem, elem_of_cons by done.
    assert (refs !! n = Some t) as E by (apply Hf; by left).
    assert (forall u, (n, u) ∈ l -> u = t) as Hu by (intros u Hin%Hl; congruence).
    clear - Hu. split.
    + intros [[[-> ->] | [_ Hin]] | Hin]; auto.
    + intros [Hin | [E | Hin]]; [| injection E as -> ->; auto | auto].
      destruct (decide (n' = n)) as [-> | Hne]; [apply Hu in Hin as ->; auto | auto].
Qed.

Lemma gather_prefixes_spec prefixes done_ l g :
  StronglySorted name_le l /\ NoDup l.*1
    /\ (forall n t, (n, t) ∈ l <-> ws_refs g !! n = Some t /\ exists p, p ∈ done_ /\ starts_with p n = true) ->
  let '(r, g') := gather_prefixes prefixes l g in
  ws_same g g' /\ forall l', r = Ok l' ->
    StronglySorted name_le l' /\ NoDup l'.*1
    /\ forall n t, (n, t) ∈ l' <-> ws_refs g !! n = Some t
         /\ exists p, p ∈ done_ ++ prefixes /\ starts_with p n = true.
Proof.
  revert done_ l g. induction prefixes as [| p prefixes IH]; intros done_ l g (Hs & Hd & Hl); cbn [gather_prefixes].
  - split; [done |]. intros l' [= <-]. by rewrite app_nil_r.
  - unfold se_bind. destruct (rs_list_refs (Some p) g) as [[found | e] g1] eqn:Er;
      apply rs_list_refs_spec in Er as (Hsame & _ & Hf); [| done].
    destruct (Hf _ eq_refl) as (_ & _ & Hfound). pose proof Hsame as (_ & _ & Hr1).
    destruct (fold_insert_spec (ws_refs g) found l) as (Hs' & Hd' & Hin); [| | done | done |].
    { intros n t. rewrite Hfound. tauto. }
    { intros n t. rewrite Hl. tauto. }
    specialize (IH (done_ ++ [p]) (fold_left (fun refs r => btree_insert r.1 r.2 refs) found l) g1).
    destruct (gather_prefixes _ _ g1) as [r g2]. rewrite Hr1, <- app_assoc in IH.
    destruct IH as [Hsame2 IH].
    + split; [done | split; [done |]]. intros n t. rewrite Hin, Hl, Hfound. cbn [default from_option id].
      setoid_rewrite elem_of_app. setoid_rewrite list_elem_of_singleton. split.
      * intros [[? (q & ? & ?)] | [? ?]]; (split; [done |]); [by exists q; auto | by exists p; auto].
      * intros [? (q & [? | ->] & ?)]; [left | right]; eauto.
    + split; [by eapply ws_same_trans | done].
Qed.

Lemma gather_refs_spec prefixes g :
  let '(r, g') := gather_refs prefixes g in
  ws_same g g' /\ forall l, r = Ok l -> gathered (ws_refs g) prefixes l.
Proof.
  destruct prefixes as [| p prefixes].
  - cbn [gather_refs]. destruct (rs_list_refs None g) as [r g'] eqn:Er.
    apply rs_list_refs_spec in Er as (Hsame & _ & Hf). split; [done |]. intros l E.
    destruct (Hf _ E) as (Hs & Hd & Hl). split; [done | split; [done |]]. intros n t. rewrite Hl. cbn. tauto.
  - unfold gather_refs. pose proof (gather_prefixes_spec (p :: prefixes) [] [] g) as H.
    destruct (gather_prefixes (p :: prefixes) [] g) as [r g']. destruct H as [Hsame H].
    + split; [constructor | split; [constructor |]]. intros n t. rewrite elem_of_nil. set_solver.
    + split; [done |]. intros l E. destruct (H _ E) as (Hs & Hd & Hl). split; [done | split; [done |]].
      intros n t. rewrite Hl. cbn [app]. split; [intros [? ?]; auto | intros [? [? | ?]]; [done | auto]].
Qed.

(** A ref target followed through [n] reads of other refs: to an object, or to
    a name that is no ref. *)
Inductive leads (refs : gmap bytes (RefTarget Oid)) : RefTarget Oid -> nat -> option Oid -> Prop :=
  | leads_direct oid : leads refs (Direct oid) 0 (Some oid)
  | leads_dangling name : refs !! name = None -> leads refs (Reference name) 1 None
  | leads_next name t n r : refs !! name = Some t -> leads refs t n r -> leads refs (Reference name) (S n) r.

Lemma resolve_loop_spec depth target g :
  let '(r, g') := resolve_loop depth target g in
  ws_same g g'
  /\ match r with
     | Ok (Resolved oid) => exists n, n < depth /\ leads (ws_refs g) target n (Some oid)
     | Ok Dangling => exists n, n <= depth /\ leads (ws_refs g) target n None
     | Ok TooDeep => forall n o, leads (ws_refs g) target n o -> depth < n + (if o then 1 else 0)
     | Err _ => True
     end.
Proof.
  revert target g. induction depth as [| depth IH]; intros target g; cbn [resolve_loop].
  { split; [done |]. intros n o H. destruct H; lia. }
  destruct target as [oid | name]; [split; [done |]; exists 0; split; [lia | constructor] |].
  unfold se_bind. destruct (ws_get_ref name g) as [[v | e] g1] eqn:Er;
    apply ws_get_ref_spec in Er as (Hsame & Hv); [| done]. pose proof Hsame as (_ & _ & Hr1).
  specialize (Hv _ eq_refl). destruct v as [next |].
  - specialize (IH next g1). destruct (resolve_loop depth next g1) as [r g2]. rewrite Hr1 in IH.
    destruct IH as [Hsame2 IH]. split; [by eapply ws_same_trans |].
    destruct r as [[oid | |] | e]; [| | | done].
    + destruct IH as (n & Hn & Hl). exists (S n). split; [lia | by econstructor].
    + destruct IH as (n & Hn & Hl). exists (S n). split; [lia | by econstructor].
    + intros n o H. inversion H as [| ? Hnone | ? t n' ? Ht Hl]; subst; [congruence |].
      rewrite Ht in Hv. injection Hv as ->. specialize (IH _ _ Hl). destruct o; lia.
  - split; [done |]. exists 1. split; [lia | by constructor].
Qed.

(** Tags followed through [n] of them. *)
Inductive tag_steps (m : gmap Oid (Kind * bytes)) : Oid -> nat -> Oid -> Prop :=
  | tag_here x : tag_steps m x 0 x
  | tag_step x body y n z : m !! x = Some (KTag, body) -> tag_ref body (oid_kind x) = Ok y ->
      tag_steps m y n z -> tag_steps m x (S n) z.

(** The failures a listing can surface. *)
Definition ls_fault (m : gmap Oid (Kind * bytes)) (e : LE) : Prop :=
  match e with
  | LsStore _ | LsObjects _ => True
  | LsDecode oid source => exists body, m !! oid = Some (KTag, body) /\ tag_ref body (oid_kind oid) = Err source
  | LsIo e => exists d, pkt_data d = Err e /\ MAX_DATA_LEN < length d
  end.

(** What [peel] adds for [oid]: nothing for an object that is no tag or a
    chain that ends in a missing one, else what the chain leads to — a
    stored object that is no tag, unless the chain is as long as is looked
    at. *)
Definition peeled_as (m : gmap Oid (Kind * bytes)) (depth : nat) (oid : Oid) (p : option Oid) : Prop :=
  match p with
  | Some x => exists n, tag_steps m oid n x /\ 0 < n <= depth
      /\ (n < depth -> exists kind body, m !! x = Some (kind, body) /\ kind <> KTag)
  | None => (exists kind body, m !! oid = Some (kind, body) /\ kind <> KTag)
      \/ exists n x, tag_steps m oid n x /\ m !! x = None /\ n < depth
  end.

Lemma peel_loop_tags depth current (peeled : bool) g :
  let '(r, g') := peel_loop depth current peeled g in
  ws_same g g'
  /\ match r with
     | Ok (Some x) => exists n, tag_steps (ws_objects g) current n x /\ n <= depth /\ (peeled = false -> 0 < n)
         /\ (n < depth -> exists kind body, ws_objects g !! x = Some (kind, body) /\ kind <> KTag)
     | Ok None => (peeled = false /\ (depth = 0 \/ exists kind body, ws_objects g !! current = Some (kind, body) /\ kind <> KTag))
         \/ exists n x, tag_steps (ws_objects g) current n x /\ ws_objects g !! x = None /\ n < depth
     | Err e => ls_fault (ws_objects g) e
     end.
Proof.
  revert current peeled g. induction depth as [| depth IH]; intros current peeled g; cbn [peel_loop].
  { destruct peeled; (split; [done |]); [| by left; auto]. exists 0. split; [constructor | split; [done | split; [done | lia]]]. }
  unfold se_bind at 1. unfold se_map_err at 1.
  destruct (ws_get current g) as [[v | e] g1] eqn:Er; apply ws_get_spec in Er as (Hsame & Hv); cbn [map_err]; [| done].
  specialize (Hv _ eq_refl). destruct v as [[kind body] |].
  2: { split; [done |]. right. exists 0, current. split; [constructor | split; [done | lia]]. }
  case_decide as Hk.
  { destruct peeled; (split; [done |]).
    - exists 0. split; [constructor | split; [lia | split; [done |]]]. intros _. by exists kind, body.
    - left. split; [done |]. right. by exists kind, body. }
  subst kind. unfold se_bind, se_lift.
  destruct (tag_ref body (oid_kind current)) as [target | source] eqn:Et; cbn [map_err].
  - specialize (IH target true g1). destruct (peel_loop depth target true g1) as [r g2].
    pose proof Hsame as (Ho & _). rewrite Ho in IH. destruct IH as [Hsame2 IH].
    split; [by eapply ws_same_trans |]. destruct r as [[x |] | e]; [| | done].
    + destruct IH as (n & Hn & Hle & _ & Hend). exists (S n). split; [by econstructor |].
      split; [lia | split; [lia |]]. intros. apply Hend. lia.
    + destruct IH as [[[=] _] | (n & x & Hn & Hx & Hlt)]. right. exists (S n), x.
      split; [by econstructor | split; [done | lia]].
  - split; [done |]. exists body. by rewrite Hv.
Qed.

(** The line of one ref, if it has one. *)
Definition listed_line (m : gmap Oid (Kind * bytes)) (refs : gmap bytes (RefTarget Oid)) (args : LsRefsArgs)
    (name : bytes) (target : RefTarget Oid) (line : option bytes) : Prop :=
  (exists n oid p, leads refs target n (Some oid) /\ n < MAX_SYMREF_DEPTH
     /\ (if lr_peel args then peeled_as m MAX_PEEL_DEPTH oid p else p = None)
     /\ line = Some (ls_ref_line args (oid_to_hex oid) name target p))
  \/ (exists n, leads refs target n None /\ n <= MAX_SYMREF_DEPTH
     /\ line = if lr_unborn args then Some (ls_ref_line args (bs "unborn") name target None) else None)
  \/ ((forall n o, leads refs target n o -> MAX_SYMREF_DEPTH < n + (if o then 1 else 0)) /\ line = None).

Lemma pkt_line_ok d f : pkt_data d = Ok f -> forall b ls rest,
  lines_of b ls rest -> lines_of (f ++ b) (PktData d :: ls) rest.
Proof. intros Hf b ls rest. apply lines_of_frame. by apply pkt_data_frames. Qed.

Lemma ls_ref_line_nonempty args head name target p : 0 < length (ls_ref_line args head name target p).
Proof. unfold ls_ref_line. rewrite !length_app. cbn [length bs]. assert (length nl = 1) by done. lia. Qed.

Lemma pkt_line_err d e : 0 < length d -> pkt_data d = Err e -> MAX_DATA_LEN < length d.
Proof.
  intros Hd He. destruct (decide (MAX_DATA_LEN < length d)) as [| Hn]; [done |].
  assert (is_ok (pkt_data d) = true) as H by (apply pkt_data_ok; lia). by rewrite He in H.
Qed.

(** Sending a ref's line. *)
Lemma peel_ref_spec oid g :
  let '(r, g') := peel_ref oid g in
  ws_same g g'
  /\ match r with Ok p => peeled_as (ws_objects g) MAX_PEEL_DEPTH oid p | Err e => ls_fault (ws_objects g) e end.
Proof.
  pose proof (peel_loop_tags MAX_PEEL_DEPTH oid false g) as Hp. unfold peel_ref.
  destruct (peel_loop MAX_PEEL_DEPTH oid false g) as [rp g2]. destruct Hp as [Hs Hp]. split; [done |].
  destruct rp as [[x |] | e]; [| | done].
  - destruct Hp as (k & ? & ? & ? & ?). exists k. split; [done | split; [split; auto | done]].
  - destruct Hp as [[_ [[=] | ?]] | ?]; [by left | by right].
Qed.

Lemma ls_line_spec args head name target p :
  match map_err (LsIo (Oid := Oid) (StoreErr := StoreErr) (ObjErr := ObjErr) (DecodeError := DecodeError))
          (pkt_data (ls_ref_line args head name target p)) with
  | Ok f => forall b ls rest, lines_of b ls rest ->
      lines_of (f ++ b) (PktData (ls_ref_line args head name target p) :: ls) rest
  | Err e => forall m, ls_fault m e
  end.
Proof.
  destruct (pkt_data _) as [f | e] eqn:E; cbn [map_err]; [by apply pkt_line_ok |].
  intros m. exists (ls_ref_line args head name target p). split; [done |].
  eapply pkt_line_err; [apply ls_ref_line_nonempty | exact E].
Qed.

Lemma ls_ref_spec args name target g :
  let '(r, g') := ls_ref args name target g in
  ws_same g g'
  /\ match r with
     | Ok f => exists line, listed_line (ws_objects g) (ws_refs g) args name target line
         /\ forall b ls rest, lines_of b ls rest ->
              lines_of (f ++ b) (map PktData (option_list line) ++ ls) rest
     | Err e => ls_fault (ws_objects g) e
     end.
Proof.
  unfold ls_ref, resolve_ref. unfold se_bind at 1. unfold se_map_err at 1.
  pose proof (resolve_loop_spec MAX_SYMREF_DEPTH target g) as H.
  destruct (resolve_loop MAX_SYMREF_DEPTH target g) as [r g1]. destruct H as [Hsame H].
  destruct r as [[oid | |] | e]; cbn [map_err]; [| | | done].
  - destruct H as (n & Hn & Hl).
    assert (let '(rp, g2) := (if lr_peel args then peel_ref oid else se_ret None) g1 in
      ws_same g g2 /\ match rp with
        | Ok p => if lr_peel args then peeled_as (ws_objects g) MAX_PEEL_DEPTH oid p else p = None
        | Err e => ls_fault (ws_objects g) e end) as Hp.
    { destruct (lr_peel args); [| done]. pose proof (peel_ref_spec oid g1) as Hp. pose proof Hsame as (Ho & _).
      rewrite Ho in Hp. destruct (peel_ref oid g1) as [rp g2]. destruct Hp as [Hs2 Hp].
      split; [by eapply ws_same_trans | done]. }
    unfold se_bind. destruct ((if lr_peel args then peel_ref oid else se_ret None) g1) as [[p | e] g2];
      destruct Hp as [Hs2 Hp]; [| done].
    pose proof (ls_line_spec args (oid_to_hex oid) name target p) as Hline. unfold se_lift.
    destruct (map_err LsIo _) as [f | e]; (split; [done |]); [| done].
    eexists. split; [left; by exists n, oid, p | exact Hline].
  - destruct H as (n & Hn & Hl).
    destruct target as [oid | inner]; [by inversion Hl |]. destruct (lr_unborn args) eqn:Eu.
    + pose proof (ls_line_spec args (bs "unborn") name (Reference inner) None) as Hline. unfold se_lift.
      destruct (map_err LsIo _) as [f | e]; (split; [done |]); [| done].
      eexists. split; [right; left; exists n; rewrite Eu; done | exact Hline].
    + split; [done |]. exists None. split; [right; left; exists n; rewrite Eu; done | done].
  - split; [done |]. exists None. split; [by right; right | done].
Qed.

Lemma ls_ref_lines_spec args refs g :
  let '(r, g') := ls_ref_lines args refs g in
  ws_same g g'
  /\ match r with
     | Ok f => exists lines,
         Forall2 (fun nt line => listed_line (ws_objects g) (ws_refs g) args nt.1 nt.2 line) refs lines
         /\ forall b ls rest, lines_of b ls rest ->
              lines_of (f ++ b) (map PktData (omap id lines) ++ ls) rest
     | Err e => ls_fault (ws_objects g) e
     end.
Proof.
  revert g. induction refs as [| [name target] refs IH]; intros g; cbn [ls_ref_lines].
  { split; [done |]. exists []. split; [constructor | done]. }
  unfold se_bind. pose proof (ls_ref_spec args name target g) as H.
  destruct (ls_ref args name target g) as [[f | e] g1]; destruct H as [Hsame H]; [| done].
  destruct H as (line & Hline & Hf). pose proof Hsame as (Ho & _ & Hr). specialize (IH g1).
  rewrite Ho, Hr in IH. destruct (ls_ref_lines args refs g1) as [[fs | e] g2]; destruct IH as [Hs2 IH];
    (split; [by eapply ws_same_trans |]); [| done].
  destruct IH as (lines & Hlines & Hfs). exists (line :: lines). split; [by constructor |].
  intros b ls rest Hb. rewrite <- app_assoc. specialize (Hf _ _ _ (Hfs _ _ _ Hb)).
  cbn. destruct line; exact Hf.
Qed.

(** Every branch of a listing, the chains at the caps included. *)
Lemma ls_refs_lines {IS : Internal StoreErr} {IO : Internal ObjErr} args g parsed :
  LsRefsArgs_parse args = Ok parsed ->
  let '(resp, g') := ls_refs args g in
  ws_same g g'
  /\ ((resp = internal_error /\ exists e : LE, ls_fault (ws_objects g) e)
      \/ exists listing lines body, gathered (ws_refs g) (lr_prefixes parsed) listing
         /\ Forall2 (fun nt line => listed_line (ws_objects g) (ws_refs g) parsed nt.1 nt.2 line) listing lines
         /\ resp = git_response OK RESULT_CONTENT_TYPE body
         /\ lines_of body (map PktData (omap id lines) ++ [PktFlush]) []).
Proof.
  intros Hp. unfold ls_refs. rewrite Hp. unfold build_ls_refs. unfold se_bind, se_map_err, se_lift.
  assert (forall e : LE, error_response (classify e) = internal_error) as Herr.
  { intros [e | e | oid e | e]; unfold classify; cbn; rewrite ?internal; done. }
  pose proof (gather_refs_spec (lr_prefixes parsed) g) as H.
  destruct (gather_refs (lr_prefixes parsed) g) as [[refs | e] g1]; destruct H as [Hs1 Hgather]; cbn [map_err].
  2: { split; [done |]. left. split; [apply Herr | by exists (LsStore e)]. }
  pose proof Hs1 as (Ho & _ & Hr). pose proof (ls_ref_lines_spec parsed refs g1) as H.
  destruct (ls_ref_lines parsed refs g1) as [[fs | e] g2]; destruct H as [Hs2 H]; rewrite Ho in H.
  2: { split; [by eapply ws_same_trans |]. left. split; [apply Herr | by exists e]. }
  rewrite Hr in H. destruct H as (lines & Hlines & Hfs). destruct pkt_flush_frames as (fl & -> & Hfl). cbn [map_err se_ret].
  split; [by eapply ws_same_trans |]. right. exists refs, lines, (fs ++ fl).
  split; [by apply Hgather | split; [done | split; [done |]]]. apply Hfs.
  rewrite <- (app_nil_r fl). apply lines_of_frame; [done | constructor].
Qed.

(** What the caps are documented to mean.  A symbolic ref is followed through
    [MAX_SYMREF_DEPTH] others and no more; a tag is peeled to the object that
    ends its chain, if it is stored and the chain has [MAX_PEEL_DEPTH] tags at
    most, and not at all otherwise. *)
Definition documented_peel (m : gmap Oid (Kind * bytes)) (oid : Oid) (p : option Oid) : Prop :=
  match p with
  | Some x => exists n kind body, tag_steps m oid n x /\ 0 < n <= MAX_PEEL_DEPTH
      /\ m !! x = Some (kind, body) /\ kind <> KTag
  | None => forall n x kind body, tag_steps m oid n x -> m !! x = Some (kind, body) -> kind <> KTag ->
      n = 0 \/ MAX_PEEL_DEPTH < n
  end.

Definition documented_line (m : gmap Oid (Kind * bytes)) (refs : gmap bytes (RefTarget Oid)) (args : LsRefsArgs)
    (name : bytes) (target : RefTarget Oid) (line : option bytes) : Prop :=
  (exists n oid p, leads refs target n (Some oid) /\ n <= MAX_SYMREF_DEPTH
     /\ (if lr_peel args then documented_peel m oid p else p = None)
     /\ line = Some (ls_ref_line args (oid_to_hex oid) name target p))
  \/ (exists n, leads refs target n None /\ n <= MAX_SYMREF_DEPTH
     /\ line = if lr_unborn args then Some (ls_ref_line args (bs "unborn") name target None) else None)
  \/ ((forall n o, leads refs target n o -> MAX_SYMREF_DEPTH < n) /\ line = None).

(** The chains on which the code keeps to that: not of [MAX_SYMREF_DEPTH]
    symbolic refs, and of so many tags only if they lead to a stored object
    that is no tag. *)
Definition within_caps (m : gmap Oid (Kind * bytes)) (refs : gmap bytes (RefTarget Oid)) (target : RefTarget Oid) : Prop :=
  (forall oid, ~ leads refs target MAX_SYMREF_DEPTH (Some oid))
  /\ forall n oid x, leads refs target n (Some oid) -> tag_steps m oid MAX_PEEL_DEPTH x ->
       exists kind body, m !! x = Some (kind, body) /\ kind <> KTag.

Lemma tag_steps_end m oid n x n' x' :
  tag_steps m oid n x -> (forall body, m !! x <> Some (KTag, body)) -> tag_steps m oid n' x' ->
  n' <= n /\ (n' = n -> x' = x).
Proof.
  intros H Hx. revert n'. induction H as [x | y body z n x Hy Hz H IH]; intros n' H'.
  - inversion H' as [| ? body ? ? ? Hb]; subst; [done |]. by destruct (Hx body).
  - inversion H' as [| ? body' z' ? ? Hy' Hz' H'']; subst; [split; [lia | done] |].
    assert (z' = z) as -> by congruence. destruct (IH Hx _ H'') as [? E]. split; [lia |]. intros. apply E. lia.
Qed.

Lemma peeled_documented m oid p :
  (forall x, tag_steps m oid MAX_PEEL_DEPTH x -> exists kind body, m !! x = Some (kind, body) /\ kind <> KTag) ->
  peeled_as m MAX_PEEL_DEPTH oid p -> documented_peel m oid p.
Proof.
  intros Hcap. destruct p as [x |]; cbn.
  - intros (n & Hn & Hle & Hend).
    assert (exists kind body, m !! x = Some (kind, body) /\ kind <> KTag) as (kind & body & Hx & Hk).
    { destruct (decide (n < MAX_PEEL_DEPTH)); [by apply Hend |]. apply Hcap. by replace MAX_PEEL_DEPTH with n by lia. }
    by exists n, kind, body.
  - intros H n x kind body Hn Hx Hk. left. assert (forall b, m !! x <> Some (KTag, b)) as Hend by congruence.
    destruct H as [(k & b & Ho & Hk') | (n' & y & Hn' & Hy & _)].
    + inversion Hn; subst; [done | congruence].
    + assert (forall b, m !! y <> Some (KTag, b)) as Hy' by congruence.
      destruct (tag_steps_end _ _ _ _ _ _ Hn Hend Hn') as [H1 E].
      destruct (tag_steps_end _ _ _ _ _ _ Hn' Hy' Hn) as [H2 _]. assert (y = x) as -> by (apply E; lia). congruence.
Qed.

Lemma listed_documented m refs args name target line :
  within_caps m refs target -> listed_line m refs args name target line -> documented_line m refs args name target line.
Proof.
  intros [Hsym Htag] [(n & oid & p & Hl & Hn & Hp & ->) | [H | [Hfar ->]]]; [left | by right; left | right; right].
  - exists n, oid, p. split; [done | split; [lia | split; [| done]]]. destruct (lr_peel args); [| done].
    apply peeled_documented; [| done]. intros x. by apply (Htag n).
  - split; [| done]. intros n o Hl. pose proof (Hfar n o Hl) as Hlt. destruct o as [oid |]; [| lia].
    assert (n <> MAX_SYMREF_DEPTH) by (intros ->; by apply (Hsym oid)). lia.
Qed.


Lemma leads_fun refs target n o n' o' : leads refs target n o -> leads refs target n' o' -> n = n' /\ o = o'.
Proof.
  intros H. revert n' o'. induction H as [oid | name Hn | name t n r Ht H IH]; intros n' o' H'; inversion H'; subst;
    try done; try congruence. assert (t0 = t) as -> by congruence. destruct (IH _ _ ltac:(done)) as [-> ->]. done.
Qed.

(** A chain of exactly [MAX_SYMREF_DEPTH] symbolic refs that ends at an object
    is taken for one beyond the cap, although only longer ones are documented
    to be left out. *)
Theorem symref_at_cap target oid g :
  leads (ws_refs g) target MAX_SYMREF_DEPTH (Some oid) ->
  match (resolve_ref target g).1 with Ok r => r = TooDeep | Err _ => True end.
Proof.
  intros Hl. pose proof (resolve_loop_spec MAX_SYMREF_DEPTH target g) as H. unfold resolve_ref.
  destruct (resolve_loop MAX_SYMREF_DEPTH target g) as [[[x | |] | e] g']; destruct H as [_ H]; cbn; [| | done..].
  - destruct H as (n & Hn & Hl'). destruct (leads_fun _ _ _ _ _ _ Hl Hl') as [<- _]. lia.
  - destruct H as (n & _ & Hl'). by destruct (leads_fun _ _ _ _ _ _ Hl Hl').
Qed.

Lemma peel_loop_deep depth current (peeled : bool) x g :
  tag_steps (ws_objects g) current depth x -> (depth = 0 -> peeled = true) ->
  match (peel_loop depth current peeled g).1 with
  | Ok p => p = Some x
  | Err (LsObjects _) => True
  | Err _ => False
  end.
Proof.
  revert current peeled g. induction depth as [| depth IH]; intros current peeled g Ht Hp; cbn [peel_loop].
  { inversion Ht; subst. by rewrite Hp. }
  inversion Ht as [| ? body y ? ? Hx Hy Ht']; subst. unfold se_bind at 1. unfold se_map_err at 1.
  destruct (ws_get current g) as [[v | e] g1] eqn:Er; apply ws_get_spec in Er as ((Ho & _) & Hv); cbn [map_err]; [| done].
  rewrite (Hv _ eq_refl), Hx. rewrite decide_False by tauto. unfold se_bind, se_lift. rewrite Hy. cbn [map_err].
  rewrite <- Ho in Ht'. by apply IH.
Qed.

(** A chain of five tags or more is peeled to the fifth one's target,
    whatever that is: it may be a sixth tag, or an object that is not there,
    although a chain beyond the cap is documented to be left unpeeled. *)
Theorem peel_ref_deep oid x g :
  tag_steps (ws_objects g) oid MAX_PEEL_DEPTH x ->
  match (peel_ref oid g).1 with
  | Ok p => p = Some x
  | Err (LsObjects _) => True
  | Err _ => False
  end.
Proof. intros H. by apply peel_loop_deep. Qed.

(** ** What object-info answers *)

Definition info_packets (m : gmap Oid (Kind * bytes)) (oids : list Oid) : list PacketLine :=
  omap (fun oid => (fun kb => PktData (size_line oid (Z.of_nat (length kb.2)))) <$> m !! oid) oids.

Lemma size_line_size oid size : is_u64 size -> 0 < length (size_line oid size) <= MAX_DATA_LEN.
Proof.
  intros Hs. unfold size_line, MAX_DATA_LEN. rewrite !length_app. pose proof (oid_hex_bound oid).
  pose proof (dec_length size 64 Hs eq_refl). assert (length (bs " ") = 1) by done. assert (length nl = 1) by done. lia.
Qed.

Lemma object_sizes_body_spec {IO : Internal ObjErr} oids g :
  sized (ws_objects g) ->
  let '(r, g') := object_sizes_body oids g in
  ws_same g g'
  /\ match r with
     | Ok body => (forall oid, oid ∈ oids -> is_Some (ws_objects g !! oid))
         /\ forall b ls rest, lines_of b ls rest -> lines_of (body ++ b) (info_packets (ws_objects g) oids ++ ls) rest
     | Err resp => resp = internal_error
         \/ exists oid, oid ∈ oids /\ ws_objects g !! oid = None
              /\ resp = err_line (bs "unknown object " ++ oid_to_hex oid)
     end.
Proof.
  intros Hsz. revert g Hsz. induction oids as [| oid oids IH]; intros g Hsz; cbn [object_sizes_body].
  { split; [done |]. split; [| done]. intros oid []%elem_of_nil. }
  destruct (ws_size oid g) as [[v | e] g1] eqn:Er; apply ws_size_spec in Er as (Hsame & Hv).
  2: { split; [done |]. left. unfold classify. by rewrite internal. }
  specialize (Hv _ eq_refl). destruct (ws_objects g !! oid) as [[kind body] |] eqn:Eo; cbn in Hv; subst v.
  2: { split; [done |]. right. exists oid. split; [by left | done]. }
  destruct (data_ok (size_line oid (Z.of_nat (length body)))) as (f & -> & Hf);
    [apply size_line_size; apply (Hsz _ _ Eo).. |].
  unfold se_bind. specialize (IH g1). pose proof Hsame as (Ho & _). rewrite Ho in IH. specialize (IH Hsz).
  destruct (object_sizes_body oids g1) as [[rest | resp] g2]; destruct IH as [Hs2 IH];
    (split; [by eapply ws_same_trans |]).
  - destruct IH as [Hin Hls]. split.
    + intros x [-> | Hx]%elem_of_cons; [by rewrite Eo | auto].
    + intros b ls r Hb. unfold info_packets. cbn. rewrite Eo. cbn. rewrite <- app_assoc.
      apply lines_of_frame; [done | by apply Hls].
  - destruct IH as [-> | (x & Hx & Hn & ->)]; [by left | right; exists x; split; [by right | done]].
Qed.

(** [object-info] reports the content length of every object asked for, in
    request order, or refuses one that is not stored. *)
Lemma object_info_answers {IO : Internal ObjErr} args g parsed :
  ObjectInfoArgs_parse args = Ok parsed -> sized (ws_objects g) ->
  let '(resp, g') := object_info args g in
  ws_same g g'
  /\ (resp = internal_error
      \/ (exists oid, oid ∈ oi_oids parsed /\ ws_objects g !! oid = None
            /\ resp = err_line (bs "unknown object " ++ oid_to_hex oid))
      \/ (forall oid, oid ∈ oi_oids parsed -> is_Some (ws_objects g !! oid))
         /\ exists body, resp = git_response OK RESULT_CONTENT_TYPE body
            /\ lines_of body (PktData (bs "size" ++ nl) :: info_packets (ws_objects g) (oi_oids parsed) ++ [PktFlush]) []).
Proof.
  intros Hp Hsz. unfold object_info. rewrite Hp.
  destruct (data_ok (bs "size" ++ nl)) as (h & -> & Hh); [by apply short_line.. |].
  pose proof (object_sizes_body_spec (oi_oids parsed) g Hsz) as H.
  destruct (object_sizes_body (oi_oids parsed) g) as [[body | resp] g1]; destruct H as [Hs H].
  - destruct pkt_flush_frames as (fl & -> & Hfl). split; [done |]. right. right. split; [apply H |].
    eexists. split; [done |]. apply lines_of_frame; [done |]. apply H.
    rewrite <- (app_nil_r fl). apply lines_of_frame; [done | constructor].
  - split; [done |]. destruct H; auto.
Qed.

End upload_pack.

(** ** What serving keeps *)

Section serving.
Context {PktErr : Type} {Pk : PktLib PktErr} {Oid : Type} {OL : OidLib Oid} {Zl : ZlibLib}.
Context {Digest HashErr F : Type} {PF : PackFormat Oid Digest HashErr F}.
Context {StoreErr ObjErr DecodeError G : Type} {OB : ObjectLib Oid DecodeError}.
Context {WS : WalkStore Oid StoreErr ObjErr G} {PS : PromoteStore Oid StoreErr ObjErr G}.
Context {RS : RepoStore Oid StoreErr ObjErr G} {CS : Classify StoreErr} {CO : Classify ObjErr}.
Context (P : G -> G -> Prop) {SK : ServeKeeps P}.

Lemma kept_feed_objects objects : kept P (feed_objects objects).
Proof using SK.
  induction objects as [| object objects IH]; cbn [feed_objects]; [apply kept_pair, _ |].
  apply (kept_then P (rs_read_compressed (so_oid object))); [apply sk_read_compressed |]. intros r.
  destruct (fetched object r); [| apply kept_pair, _].
  apply (kept_then P (feed_objects objects)); [exact IH |]. intros items. apply kept_pair, _.
Qed.

Lemma kept_stream_response objects count hash prefix sideband np ofs room :
  kept P (stream_pack_response objects count hash prefix sideband np ofs room).
Proof using SK.
  unfold stream_pack_response. apply (kept_then P (feed_objects objects)); [apply kept_feed_objects |].
  intros items. apply kept_pair, _.
Qed.

Lemma kept_object_sizes_body oids : kept P (object_sizes_body oids).
Proof using SK.
  induction oids as [| oid oids IH]; cbn [object_sizes_body]; [apply kept_ret, _ |].
  apply (kept_then P (ws_size oid)); [apply lk_size |]. intros [[[kind size] |] | e]; [| apply kept_pair, _..].
  destruct (pkt_data _); [| apply kept_pair, _].
  change (kept P (do! rest <- object_sizes_body oids; se_ret (a ++ rest))). keep.
Qed.

Lemma kept_object_info args : kept P (object_info args).
Proof using SK.
  unfold object_info. destruct (ObjectInfoArgs_parse args) as [parsed |]; [| apply kept_pair, _].
  destruct (pkt_data _); [| apply kept_pair, _].
  apply (kept_then P (object_sizes_body (oi_oids parsed))); [apply kept_object_sizes_body |].
  intros [lines | response]; [| apply kept_pair, _]. destruct pkt_flush; apply kept_pair, _.
Qed.

Lemma kept_resolve_ref target : kept P (resolve_ref target).
Proof using SK.
  unfold resolve_ref. generalize MAX_SYMREF_DEPTH as depth. intros depth. revert target.
  induction depth as [| depth IH]; intros target; cbn [resolve_loop]; [apply kept_ret, _ |]. keep.
Qed.

Lemma kept_peel_ref oid : kept P (peel_ref (PktErr := PktErr) oid).
Proof using SK.
  unfold peel_ref. generalize MAX_PEEL_DEPTH as depth. intros depth. generalize false as peeled.
  revert oid. induction depth as [| depth IH]; intros oid peeled; cbn [peel_loop]; [apply kept_ret, _ |]. keep.
Qed.

Hint Resolve kept_resolve_ref kept_peel_ref : kept.

Lemma kept_gather_refs prefixes : kept P (gather_refs prefixes).
Proof using SK.
  assert (H : forall ps refs, kept P (gather_prefixes ps refs)).
  { induction ps as [| p ps IH]; intros refs; cbn [gather_prefixes]; keep. }
  unfold gather_refs. destruct prefixes; [auto with kept | apply H].
Qed.

Lemma kept_ls_ref_lines args refs : kept P (ls_ref_lines args refs).
Proof using SK.
  induction refs as [| [name target] refs IH]; cbn [ls_ref_lines]; [apply kept_ret, _ |].
  apply kept_bind; [apply _ | unfold ls_ref; keep | keep].
Qed.

Hint Resolve kept_gather_refs kept_ls_ref_lines : kept.

Lemma kept_ls_refs args : kept P (ls_refs args).
Proof using SK.
  unfold ls_refs. destruct (LsRefsArgs_parse args) as [parsed |]; [| apply kept_pair, _].
  apply (kept_then P (build_ls_refs parsed)); [unfold build_ls_refs; keep |].
  intros [body | e]; apply kept_pair, _.
Qed.

Hint Resolve kept_stream_response kept_plan_pack : kept.

Lemma kept_fetch fuel hash args room : kept P (fetch fuel hash args room).
Proof using SK.
  unfold fetch. destruct (FetchArgs_parse args) as [parsed |]; [| apply kept_pair, _].
  destruct (fa_wants parsed); [apply kept_pair, _ |].
  apply (kept_then P (plan_pack fuel _ _ _ _)); [auto with kept |]. intros [plan | e]; [| apply kept_pair, _].
  destruct (pack_count (pp_objects plan)); [| apply kept_pair, _].
  destruct (negotiation_prefix _ _); [| apply kept_pair, _]. apply kept_stream_response.
Qed.

Lemma kept_dispatch fuel meta request room : kept P (dispatch fuel meta request room).
Proof using SK.
  unfold dispatch. case_decide; [apply kept_ls_refs |]. case_decide; [apply kept_fetch |].
  case_decide; [apply kept_pair, _ |]. case_decide; [apply kept_object_info | apply kept_pair, _].
Qed.

End serving.

(** ** A concrete endpoint *)
Module FetchSample.

Import CollectSample PlanSample.

Abbreviation world := MemPromote.world.

#[export] Instance class_unit : Classify unit := fun _ => ServerFault.
#[export] Instance class_empty : Classify Empty_set := fun _ => ServerFault.

Definition store : world := MemPromote.mkWorld MemWalk.repo [] 0.

Lemma store_fetchable :
  fetchable (OB := PlainObjects.lib) (WS := MemPromote.walk) (MemWalk.objects MemWalk.repo) MemWalk.rank 100 store.
Proof. destruct repo_fetchable as [H1 H2 H3 H4 H5 H6]. by split. Qed.

Lemma all_sized (m : gmap HexOid.t (Kind * bytes)) :
  forallb (fun kv => (Z.of_nat (length kv.2.2) <? 2 ^ 64)%Z) (map_to_list m) = true -> sized m.
Proof.
  intros H id kb Hid. apply elem_of_map_to_list, list_elem_of_In in Hid.
  rewrite forallb_forall in H. specialize (H _ Hid). cbn in H. unfold is_u64. lia.
Qed.

Lemma store_readable : readable (PS := MemPromote.lib) store.
Proof. split; [| done]. apply all_sized. by vm_compute. Qed.

(** Everything the tag brings, with offset deltas. *)
Definition wanted : FetchArgs HexOid.t := mkFetchArgs [oid x06] [] true false true FilterNone.

Abbreviation fetch_sample args room :=
  (fetch (Pk := PlainPkt.lib) (Zl := StoredZlib.lib) (PF := PlainFormat.lib (Oid := HexOid.t))
     (OB := PlainObjects.lib) (WS := MemPromote.walk) (PS := MemPromote.lib) (RS := MemRepo.lib)
     100 Sha1 args room store).

(** The lines of the answer. *)
Fixpoint split_lines (fuel : nat) (b : bytes) : list PacketLine :=
  match fuel, pkt_streaming (PktLib := PlainPkt.lib) b with
  | S fuel', Some (line, n) => line :: split_lines fuel' (drop n b)
  | _, _ => []
  end.

(** A heading, progress, one packet of pack data, progress and the flush. *)
Example fetch_lines_count : length (split_lines 100 (rp_body (fetch_sample (fetch_lines wanted) None).1)) = 5.
Proof. by vm_compute. Qed.

Lemma wanted_parses : FetchArgs_parse (fetch_lines wanted) = Ok wanted.
Proof. by apply FetchArgs_round. Qed.

Definition listing_args : list bytes := [bs "peel"; bs "symrefs"; bs "unborn"; bs "ref-prefix refs/tags/"].

Lemma listing_parses : LsRefsArgs_parse listing_args = Ok (mkLsRefsArgs [bs "refs/tags/"] true true true).
Proof. by vm_compute. Qed.

(** Tag 7 of tag 8, and so on to tag 12. *)
Definition deep : world :=
  MemPromote.mkWorld (MemWalk.mkWorld
    (list_to_map [(MemWalk.o x07, (KTag, oid_bytes (MemWalk.o x08))); (MemWalk.o x08, (KTag, oid_bytes (MemWalk.o x09)));
       (MemWalk.o x09, (KTag, oid_bytes (MemWalk.o x0a))); (MemWalk.o x0a, (KTag, oid_bytes (MemWalk.o x0b)));
       (MemWalk.o x0b, (KTag, oid_bytes (MemWalk.o x0c))); (MemWalk.o x0c, (KTag, oid_bytes (MemWalk.o x03)))])
    ∅ {[bs "HEAD" := Reference (bs "refs/heads/main"); bs "refs/tags/deep" := Direct (MemWalk.o x07)]}) [] 0.

Lemma deep_steps : tag_steps (OB := PlainObjects.lib) (ws_objects (WalkStore := MemPromote.walk) deep)
  (MemWalk.o x07) MAX_PEEL_DEPTH (MemWalk.o x0c).
Proof. do 5 (eapply tag_step; [by vm_compute | by vm_compute |]). constructor. Qed.

End FetchSample.

Import FetchSample.


Lemma fetch_request_roundtrip_witness :
  exists body req, write_all (fetch_packets (Pk := PlainPkt.lib) wanted) = Ok body
    /\ parse_request (Pk := PlainPkt.lib) body = Ok req /\ rq_command req = bs "fetch"
    /\ rq_object_format req = Some (bs "sha1") /\ FetchArgs_parse (rq_args req) = Ok wanted.
Proof. exact (fetch_request_roundtrip (Pk := PlainPkt.lib) wanted I). Defined.


Lemma peel_ref_deep_witness :
  match (peel_ref (PktErr := PlainPkt.error) (OB := PlainObjects.lib) (WS := MemPromote.walk) (MemWalk.o x07) deep).1 with
  | Ok p => p = Some (MemWalk.o x0c)
  | Err (LsObjects _) => True
  | Err _ => False
  end.
Proof.
  exact (peel_ref_deep (PktErr := PlainPkt.error) (OB := PlainObjects.lib) (WS := MemPromote.walk) (MemWalk.o x07) (MemWalk.o x0c) deep deep_steps).
Defined.
