(* ===== verification/ReceivePack.v ===== *)
(** * The push endpoint ([src/protocol/receive_pack.rs])

    A push is parsed, its pack ingested and promoted, its ref updates applied
    as one compare-and-swap, and a report returned.  Ingestion is in Ingest.v,
    promotion in Promote.v, the refs in Repo.v; metrics, tracing and timings
    are not modelled.  The repository is already resolved: see Server.v. *)

From S2P Require Import Prelude Bytes GixHash Values Zlib Store GixObject Walk Graph Effects Ingest Promote Repo Pkt Errors Http.
From S2P Require Import Advertise Keys.
From stdpp Require Import gmap strings.
From Stdlib Require Import Lia.

Definition RESULT_CONTENT_TYPE : bytes := bs "application/x-git-receive-pack-result".
Definition NG_UNPACKER_ERROR : bytes := bs "unpacker error".

Record Command (Oid : Type) : Type := mkCommand {
  cmd_old : option Oid;
  cmd_new : option Oid;
  cmd_name : bytes;
}.
Arguments mkCommand {Oid}.
Arguments cmd_old {Oid}.
Arguments cmd_new {Oid}.
Arguments cmd_name {Oid}.

Record Caps : Set := mkCaps { cp_report_status : bool; cp_side_band_64k : bool }.
Definition Caps_default : Caps := mkCaps false false.

Record Request (Oid : Type) : Type := mkRequest {
  rq_commands : list (Command Oid);
  rq_caps : Caps;
  rq_pack : bytes;
}.
Arguments mkRequest {Oid}.
Arguments rq_commands {Oid}.
Arguments rq_caps {Oid}.
Arguments rq_pack {Oid}.

Inductive ParseError : Set := MalformedPush.

Inductive RefStatus : Set := StatusOk | Ng (reason : bytes).

Section parse.
Context {PktErr : Type} {Pk : PktLib PktErr} {Oid : Type} {OL : OidLib Oid}.

(** ** Requests *)

Definition parse_oid (hex : bytes) : result ParseError (option Oid) :=
  let? id := ok_or (oid_from_hex hex) MalformedPush in
  Ok (if oid_is_null id then None else Some id).

Definition parse_caps (b : bytes) : Caps :=
  fold_left (fun caps token =>
    let name := token_name token in
    if decide (name = bs "report-status") then mkCaps true (cp_side_band_64k caps)
    else if decide (name = bs "side-band-64k") then mkCaps (cp_report_status caps) true
    else caps)
  (split_on x20 (from_utf8_lossy b)) Caps_default.

Definition parse_command (data : bytes) : result ParseError (Command Oid * option Caps) :=
  let data := default data (Prelude.strip_suffix nl data) in
  let '(command_bytes, caps) :=
    match split_once x00 data with
    | Some (command_bytes, rest) => (command_bytes, Some (parse_caps rest))
    | None => (data, None)
    end in
  let? text := ok_or (from_utf8 command_bytes) MalformedPush in
  match splitn 3 x20 text with
  | old :: new :: name :: _ =>
      if decide (name = []) then Err MalformedPush
      else
        let? old := parse_oid old in
        let? new := parse_oid new in
        Ok (mkCommand old new name, caps)
  | _ => Err MalformedPush
  end.

(** The loop over the packets, each of which takes at least a byte. *)
Fixpoint parse_commands (fuel : nat) (body : bytes) (commands : list (Command Oid)) (caps : Caps) (first : bool)
    : result ParseError (Request Oid) :=
  match fuel with
  | O => Err MalformedPush
  | S fuel' =>
      match pkt_streaming body with
      | None => Err MalformedPush
      | Some (line, consumed) =>
          let body := drop consumed body in
          match line with
          | PktFlush => Ok (mkRequest commands caps body)
          | PktData data =>
              let? (command, line_caps) := parse_command data in
              let caps := if first then default caps line_caps else caps in
              parse_commands fuel' body (commands ++ [command]) caps false
          | PktDelimiter | PktResponseEnd => Err MalformedPush
          end
      end
  end.

Definition parse_request (body : bytes) : result ParseError (Request Oid) :=
  parse_commands (S (length body)) body [] Caps_default true.

(** ** Reports *)

Definition status_line (s : bytes * RefStatus) : bytes :=
  match s.2 with
  | StatusOk => bs "ok " ++ s.1 ++ nl
  | Ng reason => bs "ng " ++ s.1 ++ bs " " ++ reason ++ nl
  end.

Definition report_inner (unpack_line : bytes) (statuses : list (bytes * RefStatus)) : result PktErr bytes :=
  write_all ([pkt_data (unpack_line ++ nl)] ++ map (fun s => pkt_data (status_line s)) statuses ++ [pkt_flush]).

Definition report_body (unpack_line : bytes) (statuses : list (bytes * RefStatus)) (side_band : bool)
    : result PktErr bytes :=
  let? inner := report_inner unpack_line statuses in
  if negb side_band then Ok inner
  else write_all (map (pkt_band ChData) (chunks MAX_BAND_DATA inner) ++ [pkt_flush]).

Definition build_report (caps : Caps) (unpack_line : bytes) (statuses : list (bytes * RefStatus)) : Response :=
  if negb (cp_report_status caps) then git_response OK RESULT_CONTENT_TYPE []
  else
    match report_body unpack_line statuses (cp_side_band_64k caps) with
    | Ok body => git_response OK RESULT_CONTENT_TYPE body
    | Err _ => internal_error
    end.

Definition push_failed (request : Request Oid) (cls : ErrorClass) : Response :=
  match cls with
  | Client reason =>
      build_report (rq_caps request) (bs "unpack " ++ reason)
        (map (fun cmd => (cmd_name cmd, Ng NG_UNPACKER_ERROR)) (rq_commands request))
  | Errors.NotFound => plain NOT_FOUND (bs "repository not found")
  | ServerFault => internal_error
  end.

Definition result_status (r : RefUpdateResult) : bytes * RefStatus :=
  (rr_name r, match rr_outcome r with Updated => StatusOk | Rejected reason => Ng reason end).

Definition report_success (request : Request Oid) (results : list RefUpdateResult) : Response :=
  build_report (rq_caps request) (bs "unpack ok") (map result_status results).

(** ** Reading a report *)

Definition report_lines (unpack_line : bytes) (lines : list bytes) : list PacketLine :=
  PktData (unpack_line ++ nl) :: map PktData lines ++ [PktFlush].

(** [b] reads as [ls], in channel-1 packets up to a flush if side-band is on. *)
Definition carries (side_band : bool) (b : bytes) (ls : list PacketLine) : Prop :=
  if side_band then
    exists pieces, lines_of b (map (fun c => PktData (channel_byte ChData :: c)) pieces ++ [PktFlush]) []
      /\ lines_of (concat pieces) ls []
  else lines_of b ls [].

Lemma report_inner_ok unpack_line statuses :
  length unpack_line < MAX_DATA_LEN ->
  Forall (fun s => length (status_line s) <= MAX_DATA_LEN) statuses ->
  exists b, report_inner unpack_line statuses = Ok b /\ lines_of b (report_lines unpack_line (map status_line statuses)) [].
Proof.
  intros Hu Hs. unfold report_inner.
  assert (ready ([pkt_data (unpack_line ++ nl)] ++ map (fun s => pkt_data (status_line s)) statuses ++ [pkt_flush])
    (report_lines unpack_line (map status_line statuses))) as Hr.
  { assert (length nl = 1) as Hnl by done. apply ready_data; [rewrite length_app; lia.. |]. rewrite map_map.
    apply ready_lines_app; [| apply ready_flush; constructor]. apply (ready_map status_line).
    eapply Forall_impl; [exact Hs |]. intros s Hl. split; [| done].
    unfold status_line. destruct s.2; rewrite !length_app, ?Hnl; lia. }
  apply ready_body in Hr as (b & -> & Hb). exists b. split; [done |].
  specialize (Hb [] [] [] (lines_nil [])). by rewrite !app_nil_r in Hb.
Qed.

Lemma report_body_ok unpack_line statuses side_band :
  length unpack_line < MAX_DATA_LEN ->
  Forall (fun s => length (status_line s) <= MAX_DATA_LEN) statuses ->
  exists b, report_body unpack_line statuses side_band = Ok b
    /\ carries side_band b (report_lines unpack_line (map status_line statuses)).
Proof.
  intros Hu Hs. unfold report_body. destruct (report_inner_ok _ _ Hu Hs) as (inner & -> & Hl).
  destruct side_band; cbn [negb carries]; [| by exists inner].
  assert (ready (map (pkt_band ChData) (chunks MAX_BAND_DATA inner) ++ [pkt_flush])
    (map (fun c => PktData (channel_byte ChData :: c)) (chunks MAX_BAND_DATA inner) ++ [PktFlush])) as Hr.
  { apply ready_lines_app; [| apply ready_flush; constructor].
    assert (0 < MAX_BAND_DATA) as Hpos by (unfold MAX_BAND_DATA; lia).
    pose proof (chunks_bound MAX_BAND_DATA inner Hpos) as Hb. revert Hb. generalize (chunks MAX_BAND_DATA inner).
    induction 1 as [| c cs [H1 H2] _ IH]; [constructor |]. cbn [map].
    constructor; [by apply band_ok | exact IH]. }
  apply ready_body in Hr as (b & -> & Hb). exists b. split; [done |].
  exists (chunks MAX_BAND_DATA inner). split.
  - specialize (Hb [] [] [] (lines_nil [])). by rewrite !app_nil_r in Hb.
  - by rewrite concat_chunks by (unfold MAX_BAND_DATA; lia).
Qed.

(** The response a client that asked for a report can read as one. *)
Definition reports (request : Request Oid) (resp : Response) (unpack_line : bytes) (lines : list bytes) : Prop :=
  exists b, resp = git_response OK RESULT_CONTENT_TYPE b
    /\ if cp_report_status (rq_caps request)
       then carries (cp_side_band_64k (rq_caps request)) b (report_lines unpack_line lines)
       else b = [].

(** ** A parsed push always fits its report *)

Definition name_bound : nat := MAX_DATA_LEN - 82.

Lemma parse_oid_length hex r : parse_oid hex = Ok r -> 40 <= length hex.
Proof.
  unfold parse_oid. destruct (oid_from_hex hex) as [o |] eqn:E; [| done]. intros _.
  rewrite (oid_from_hex_len _ _ E). destruct (oid_kind o); cbn; lia.
Qed.

Lemma splitn3 (l a b c : bytes) rest : splitn 3 x20 l = a :: b :: c :: rest ->
  l = a ++ x20 :: b ++ x20 :: c /\ x20 ∉ a /\ x20 ∉ b.
Proof.
  cbn [splitn]. destruct (split_once x20 l) as [[a' l1] |] eqn:E1; [| done].
  destruct (split_once x20 l1) as [[b' l2] |] eqn:E2; [| done]. intros [= -> -> -> _].
  apply split_once_Some in E1 as [-> ?], E2 as [-> ?]. done.
Qed.

Lemma stripped_length (p data : bytes) : length (default data (Prelude.strip_suffix p data)) <= length data.
Proof.
  destruct (Prelude.strip_suffix p data) as [d |] eqn:E; cbn; [| done].
  apply strip_suffix_Some in E as ->. rewrite length_app. lia.
Qed.

Lemma parse_command_bound data command caps :
  parse_command data = Ok (command, caps) -> length data <= MAX_DATA_LEN -> length (cmd_name command) <= name_bound.
Proof.
  unfold parse_command. pose proof (stripped_length nl data) as Hd.
  set (d := default data _) in *. clearbody d. intros H Hl.
  assert (forall text, length text <= length d ->
    match splitn 3 x20 text with
    | old :: new :: name :: _ =>
        if decide (name = []) then Err MalformedPush
        else let? old := parse_oid old in let? new := parse_oid new in Ok (mkCommand old new name, caps)
    | _ => Err MalformedPush
    end = Ok (command, caps) -> length (cmd_name command) <= name_bound) as Hfields.
  { intros text Ht Hf. destruct (splitn 3 x20 text) as [| old [| new [| name rest]]] eqn:E; try done.
    apply splitn3 in E as (-> & _). case_decide; [done |].
    destruct (parse_oid old) as [o |] eqn:Eo; [| done]. destruct (parse_oid new) as [n |] eqn:En; [| done].
    injection Hf as <-. apply parse_oid_length in Eo, En. cbn [cmd_name]. unfold name_bound.
    rewrite length_app in Ht. cbn [length] in Ht. rewrite length_app in Ht. cbn [length] in Ht. lia. }
  destruct (split_once x00 d) as [[cb rest] |] eqn:Es.
  - apply split_once_Some in Es as [-> _]. destruct (from_utf8 cb) as [text |] eqn:Eu; [| done].
    apply from_utf8_Some in Eu as [-> _]. cbn [ok_or] in H.
    apply (Hfields cb); [rewrite length_app; lia |]. repeat case_match; simplify_eq; done.
  - destruct (from_utf8 d) as [text |] eqn:Eu; [| done]. apply from_utf8_Some in Eu as [-> _]. cbn [ok_or] in H.
    apply (Hfields d); [done |]. repeat case_match; simplify_eq; done.
Qed.

Lemma parse_commands_bound fuel body commands caps first request :
  parse_commands fuel body commands caps first = Ok request ->
  Forall (fun cmd => length (cmd_name cmd) <= name_bound) commands ->
  Forall (fun cmd => length (cmd_name cmd) <= name_bound) (rq_commands request).
Proof.
  revert body commands caps first. induction fuel as [| fuel IH]; intros body commands caps first; [done |].
  cbn [parse_commands]. destruct (pkt_streaming body) as [[[data | | |] n] |] eqn:Es; try done.
  - destruct (parse_command data) as [[command line_caps] |] eqn:Ec; [| done].
    intros H Hc. eapply IH; [exact H |]. apply Forall_app. split; [done |].
    apply Forall_singleton. eapply parse_command_bound; [done | by eapply pkt_streaming_bound].
  - by intros [= <-] Hc.
Qed.

Lemma build_report_reports body request unpack_line statuses :
  parse_request body = Ok request -> length unpack_line <= 100 ->
  statuses.*1 = cmd_name <$> rq_commands request ->
  Forall (fun s => match s.2 with StatusOk => True | Ng reason => length reason <= 50 end) statuses ->
  reports request (build_report (rq_caps request) unpack_line statuses) unpack_line (map status_line statuses).
Proof.
  intros Hp Hu Hn Hs. apply parse_commands_bound in Hp; [| constructor].
  assert (Forall (fun s => length (status_line s) <= MAX_DATA_LEN) statuses) as Hl.
  { apply Forall_forall. intros s Hin. rewrite Forall_forall in Hs. specialize (Hs s Hin).
    assert (length s.1 <= name_bound) as Hb.
    { assert (s.1 ∈ cmd_name <$> rq_commands request) as Hi by (rewrite <- Hn; by apply list_elem_of_fmap_2).
      apply list_elem_of_fmap in Hi as (cmd & -> & Hi). rewrite Forall_forall in Hp. by apply Hp. }
    assert (length nl = 1) as Hnl by done. unfold status_line, name_bound, MAX_DATA_LEN in *.
    assert (length (bs "ok ") = 3) as H1 by done. assert (length (bs "ng ") = 3) as H2 by done.
    assert (length (bs " ") = 1) as H3 by done.
    destruct s.2; rewrite !length_app; lia. }
  unfold reports, build_report. destruct (cp_report_status (rq_caps request)); cbn [negb]; [| by exists []].
  assert (length unpack_line < MAX_DATA_LEN) as Hu' by (unfold MAX_DATA_LEN; lia).
  destruct (report_body_ok unpack_line statuses (cp_side_band_64k (rq_caps request)) Hu' Hl) as (b & -> & Hb).
  by exists b.
Qed.

(** ** The grammar of a push *)

(** The capabilities of the command lines: the first one's, if it has any. *)
Definition first_caps (parsed : list (Command Oid * option Caps)) : Caps :=
  match parsed with (_, Some caps) :: _ => caps | _ => Caps_default end.

Lemma parse_commands_grammar fuel body commands caps first request :
  length body < fuel ->
  parse_commands fuel body commands caps first = Ok request <->
  exists lines parsed, lines_of body (map PktData lines ++ [PktFlush]) (rq_pack request)
    /\ Forall2 (fun d p => parse_command d = Ok p) lines parsed
    /\ rq_commands request = commands ++ parsed.*1
    /\ rq_caps request = match parsed with (_, Some c) :: _ => if first then c else caps | _ => caps end.
Proof.
  revert body commands caps first. induction fuel as [| fuel IH]; intros body commands caps first Hl; [lia |].
  cbn [parse_commands]. destruct (pkt_streaming body) as [[line n] |] eqn:Es.
  2: { split; [done |]. intros (lines & parsed & H & _).
       destruct lines; apply lines_of_next in H as (? & ? & _); congruence. }
  pose proof (pkt_streaming_consumes _ _ _ Es) as Hn.
  assert (length (drop n body) < fuel) as Hl' by (rewrite length_drop; lia).
  pose proof (fun lines rest H => lines_of_head _ [] lines rest PktFlush _ _ Es H) as Hhead.
  destruct line as [data | | |]; [| | split; [done |]; intros (lines & parsed & H & _);
    by destruct (Hhead _ _ H) as [(d & lines' & -> & [=] & H') | (_ & [=] & _)]..].
  - destruct (parse_command data) as [[command line_caps] | e] eqn:Ec.
    + rewrite (IH _ _ _ _ Hl'). split.
      * intros (lines & parsed & H & Hp & Hc & Hcaps). exists (data :: lines), ((command, line_caps) :: parsed).
        split; [by econstructor | split; [by constructor |]]. rewrite Hc, Hcaps, <- app_assoc. split; [done |].
        by destruct parsed as [| [? []] ?], line_caps, first.
      * intros (lines & parsed & H & Hp & Hc & Hcaps).
        destruct (Hhead _ _ H) as [(d & lines' & -> & [= <-] & H') | (_ & [=] & _)].
        inversion Hp as [| ? p ? parsed' E1 Hp' E2 E3]; simplify_eq.
        assert (p = (command, line_caps)) as -> by congruence. exists lines', parsed'.
        split; [done | split; [done |]]. rewrite Hc, Hcaps, <- app_assoc. split; [done |].
        by destruct parsed' as [| [? []] ?], line_caps, first.
    + split; [done |]. intros (lines & parsed & H & Hp & _).
      destruct (Hhead _ _ H) as [(d & lines' & -> & [= <-] & H') | (_ & [=] & _)]. inversion Hp; congruence.
  - split.
    + intros [= <-]. exists [], []. split; [econstructor; [exact Es | constructor] |]. split; [constructor |].
      cbn. by rewrite app_nil_r.
    + intros (lines & parsed & H & Hp & Hc & Hcaps).
      destruct (Hhead _ _ H) as [(d & lines' & -> & [=] & H') | (-> & _ & H')].
      inversion Hp; subst. cbn in Hc, Hcaps. rewrite app_nil_r in Hc. inversion H'; subst.
      by destruct request; cbn in *; subst.
Qed.

(** ** A client's request *)

(** The zero id stands for no object. *)
Definition oid_or_zero (k : HashKind) (o : option Oid) : bytes := oid_to_hex (default (oid_null k) o).

Definition command_text (k : HashKind) (cmd : Command Oid) : bytes :=
  oid_or_zero k (cmd_old cmd) ++ x20 :: oid_or_zero k (cmd_new cmd) ++ x20 :: cmd_name cmd.

(** The command lines, capabilities on the first. *)
Definition push_lines (k : HashKind) (cmd : Command Oid) (cmds : list (Command Oid)) (tokens : list bytes)
    (ending : bytes) : list bytes :=
  (command_text k cmd ++ x00 :: join_with x20 tokens ++ ending) :: map (fun c => command_text k c ++ ending) cmds.

Definition command_ok (cmd : Command Oid) : Prop :=
  cmd_name cmd <> [] /\ x00 ∉ cmd_name cmd /\ utf8_valid (cmd_name cmd) = true
  /\ (forall o, cmd_old cmd = Some o \/ cmd_new cmd = Some o -> oid_is_null o = false).

Lemma parse_caps_tokens tokens :
  tokens <> [] -> Forall (fun t => x20 ∉ t) tokens -> utf8_valid (join_with x20 tokens) = true ->
  parse_caps (join_with x20 tokens) = mkCaps (offered (bs "report-status") tokens) (offered (bs "side-band-64k") tokens).
Proof.
  intros Hne Ht Hu. unfold parse_caps. rewrite lossy_valid by exact Hu. rewrite split_on_join by assumption. clear Hne Ht Hu.
  enough (forall c, fold_left (fun caps token =>
    let name := token_name token in
    if decide (name = bs "report-status") then mkCaps true (cp_side_band_64k caps)
    else if decide (name = bs "side-band-64k") then mkCaps (cp_report_status caps) true
    else caps) tokens c
    = mkCaps (cp_report_status c || offered (bs "report-status") tokens)
        (cp_side_band_64k c || offered (bs "side-band-64k") tokens)) as H by apply H.
  unfold offered. induction tokens as [| t tokens IH]; intros [r s]; cbn [fold_left existsb].
  { by rewrite !orb_false_r. }
  rewrite IH. repeat case_decide; cbn [cp_report_status cp_side_band_64k]; repeat case_bool_decide;
    try congruence;
    try match goal with H : ?n = bs "report-status", H' : ?n = bs "side-band-64k" |- _ => rewrite H in H'; discriminate H' end;
    by destruct r, s.
Qed.

Lemma parse_oid_or_zero k o :
  (forall x, o = Some x -> oid_is_null x = false) -> parse_oid (oid_or_zero k o) = Ok o.
Proof.
  intros Ho. unfold parse_oid, oid_or_zero. rewrite oid_hex_round. cbn [ok_or].
  destruct o as [x |]; cbn [default from_option id]; [by rewrite Ho |].
  unfold oid_is_null. by rewrite oid_null_kind, bool_decide_eq_true_2.
Qed.

Lemma hex_no_space k o : x20 ∉ oid_or_zero k o.
Proof. by apply hex_not_in. Qed.

Lemma command_text_splits k cmd :
  splitn 3 x20 (command_text k cmd) = [oid_or_zero k (cmd_old cmd); oid_or_zero k (cmd_new cmd); cmd_name cmd].
Proof.
  cbn [splitn]. unfold command_text.
  rewrite (proj2 (split_once_Some x20 _ (oid_or_zero k (cmd_old cmd)) _)) by (split; [done | apply hex_no_space]).
  by rewrite (proj2 (split_once_Some x20 _ (oid_or_zero k (cmd_new cmd)) _)) by (split; [done | apply hex_no_space]).
Qed.

Lemma command_text_plain k cmd :
  command_ok cmd -> from_utf8 (command_text k cmd) = Some (command_text k cmd) /\ x00 ∉ command_text k cmd.
Proof.
  intros (_ & Hnul & Hu & _). split.
  - apply from_utf8_valid. unfold command_text.
    replace (oid_or_zero k (cmd_old cmd) ++ x20 :: oid_or_zero k (cmd_new cmd) ++ x20 :: cmd_name cmd)
      with ((oid_or_zero k (cmd_old cmd) ++ [x20] ++ oid_or_zero k (cmd_new cmd) ++ [x20]) ++ cmd_name cmd)
      by (rewrite <- !app_assoc; done).
    apply utf8_valid_app; [| done]. repeat (apply Forall_app; split);
      try apply hex_ascii; repeat constructor.
  - unfold command_text. rewrite elem_of_app, elem_of_cons, elem_of_app, elem_of_cons.
    assert (forall o, x00 ∉ oid_or_zero k o) as Hh by (intros o; by apply hex_not_in).
    intros [H | [[=] | [H | [[=] | H]]]]; [by eapply Hh | by eapply Hh | done].
Qed.

(** The lines end in a newline, or in anything else. *)
Definition ends_ok (ending line : bytes) : Prop :=
  ending = nl \/ (ending = [] /\ Prelude.strip_suffix nl line = None).

Lemma ends_stripped ending line :
  ends_ok ending line -> default (line ++ ending) (Prelude.strip_suffix nl (line ++ ending)) = line.
Proof.
  intros [-> | [-> H]]; [by rewrite strip_suffix_app |]. by rewrite app_nil_r, H.
Qed.

Lemma parse_command_fields k cmd (caps : option Caps) :
  command_ok cmd ->
  match splitn 3 x20 (command_text k cmd) with
  | old :: new :: name :: _ =>
      if decide (name = []) then Err MalformedPush
      else let? old := parse_oid old in let? new := parse_oid new in Ok (mkCommand old new name, caps)
  | _ => Err MalformedPush
  end = Ok (cmd, caps).
Proof.
  intros (Hne & _ & _ & Hnull). rewrite command_text_splits, decide_False by done.
  rewrite !parse_oid_or_zero by auto. by destruct cmd.
Qed.

Lemma parse_command_plain k cmd ending :
  command_ok cmd -> ends_ok ending (command_text k cmd) -> parse_command (command_text k cmd ++ ending) = Ok (cmd, None).
Proof.
  intros Hc He. unfold parse_command. rewrite ends_stripped by done.
  destruct (command_text_plain k cmd Hc) as [Hu Hn].
  rewrite (proj2 (split_once_None _ _) Hn), Hu. cbn [ok_or]. by apply parse_command_fields.
Qed.

Lemma parse_command_first k cmd tokens ending :
  command_ok cmd -> ends_ok ending (command_text k cmd ++ x00 :: join_with x20 tokens) ->
  parse_command (command_text k cmd ++ x00 :: join_with x20 tokens ++ ending)
  = Ok (cmd, Some (parse_caps (join_with x20 tokens))).
Proof.
  intros Hc He. unfold parse_command.
  replace (command_text k cmd ++ x00 :: join_with x20 tokens ++ ending)
    with ((command_text k cmd ++ x00 :: join_with x20 tokens) ++ ending) by (rewrite <- app_assoc; done).
  rewrite ends_stripped by done. destruct (command_text_plain k cmd Hc) as [Hu Hn].
  rewrite (proj2 (split_once_Some x00 _ (command_text k cmd) _)) by done.
  rewrite Hu. cbn [ok_or]. by apply parse_command_fields.
Qed.

(** The grammar of a push.  A body is a push exactly when it is command
    lines, a flush, and then the pack, to its last byte; its commands are the
    lines', in order, and its capabilities the first line's. *)
Theorem push_request_grammar body request :
  parse_request body = Ok request <->
  exists lines parsed, lines_of body (map PktData lines ++ [PktFlush]) (rq_pack request)
    /\ Forall2 (fun d p => parse_command d = Ok p) lines parsed
    /\ rq_commands request = parsed.*1 /\ rq_caps request = first_caps parsed.
Proof. unfold parse_request. rewrite parse_commands_grammar by lia. done. Qed.

(** Push requests round trip.  A client's commands — creations, deletions
    and updates of any ids — with its capabilities on the first line, each
    line ended by a newline or not, and any pack behind the flush, frame and
    parse back to themselves. *)
Theorem push_request_roundtrip k cmd cmds tokens ending body pack :
  Forall command_ok (cmd :: cmds) ->
  tokens <> [] -> Forall (fun t => x20 ∉ t) tokens -> utf8_valid (join_with x20 tokens) = true ->
  ends_ok ending (command_text k cmd ++ x00 :: join_with x20 tokens) ->
  Forall (fun c => ends_ok ending (command_text k c)) cmds ->
  write_all (map pkt_data (push_lines k cmd cmds tokens ending) ++ [pkt_flush]) = Ok body ->
  parse_request (body ++ pack)
  = Ok (mkRequest (cmd :: cmds) (mkCaps (offered (bs "report-status") tokens) (offered (bs "side-band-64k") tokens)) pack).
Proof.
  intros Hc Hne Ht Hu He Hes Hb. unfold parse_request. apply parse_commands_grammar; [lia |].
  apply Forall_cons in Hc as [Hc Hcs].
  exists (push_lines k cmd cmds tokens ending),
    ((cmd, Some (parse_caps (join_with x20 tokens))) :: map (fun c => (c, None)) cmds).
  split; [| split; [| split]].
  - apply (write_all_rest _ _ _ pack) with (2 := Hb). apply Forall2_app.
    + apply Forall2_fmap, Forall_Forall2_diag, Forall_forall. intros d _ f. apply pkt_data_frames.
    + constructor; [apply flush_frames | constructor].
  - constructor; [by apply parse_command_first |]. clear - Hcs Hes.
    induction cmds as [| c cmds IH]; [constructor |]. apply Forall_cons in Hcs as [? ?], Hes as [? ?].
    constructor; [by apply parse_command_plain | auto].
  - cbn. f_equal. clear. by induction cmds as [| c cmds IH]; [| cbn; f_equal].
  - symmetry. by apply parse_caps_tokens.
Qed.

End parse.

Section push.
Context {PktErr : Type} {Pk : PktLib PktErr} {Oid : Type} {OL : OidLib Oid}.
Context {StoreErr ObjErr DecodeError G : Type} {OB : ObjectLib Oid DecodeError} {Zl : ZlibLib}.
Context {WS : WalkStore Oid StoreErr ObjErr G} {PS : PromoteStore Oid StoreErr ObjErr G}.
Context {RS : RepoStore Oid StoreErr ObjErr G}.
Context {Bundle IoErr PackErr InitErr PackDecodeErr : Type}.
Context {PL : PackLib Oid Bundle PackErr InitErr PackDecodeErr}.
Context {CS : Classify StoreErr} {CO : Classify ObjErr}.

Abbreviation IE := (IngestError Oid IoErr PackErr InitErr PackDecodeErr ObjErr).
Abbreviation WE := (WalkError Oid StoreErr ObjErr DecodeError).
Abbreviation PE := (PromoteError Oid StoreErr ObjErr IE WE DecodeError).
Abbreviation Objects := (gmap Oid (Kind * bytes)).

(** ** The handler *)

Definition tips_of (request : Request Oid) : list Oid := omap cmd_new (rq_commands request).

Definition updates_of (request : Request Oid) : list (RefUpdate Oid) :=
  map (fun cmd => mkRefUpdate (cmd_name cmd) (cmd_old cmd) (cmd_new cmd)) (rq_commands request).

(** From ingestion on; [spooling] is the failure to spool the pack, if it
    fails. *)
Definition push (fuel gfuel : nat) (meta : RepoMeta) (spooling : option IoErr) (request : Request Oid)
    : G -> Response * G := fun g =>
  let input := match spooling with Some e => Err e | None => Ok (rq_pack request) end in
  match ingest_pack input (rm_object_format meta) g with
  | (Err err, g) => (push_failed request (classify (err : IE)), g)
  | (Ok staged, g) =>
      match validate_and_promote fuel gfuel staged (tips_of request) g with
      | (Err err, g) => (push_failed request (classify (err : PE)), g)
      | (Ok _, g) =>
          match rs_update_refs (updates_of request) g with
          | (Ok results, g) => (report_success request results, g)
          | (Err _, g) => (internal_error, g)
          end
      end
  end.

(** ** What a push may assume of its pack *)

(** [s] is what the pack stages over the objects [m]. *)
Definition staged_from (m : Objects) (hash : HashKind) (pack : bytes) (s : StagedPack Bundle) : Prop :=
  match pack with
  | [] => s = mkStaged None
  | _ => (write_bundle pack hash m : result IE _) = Ok (bundle s)
  end.

Abbreviation staged_acyclic := (acyclic (IoErr := IoErr) (PackErr := PackErr) (InitErr := InitErr)
  (PackDecodeErr := PackDecodeErr) (StoreErr := StoreErr) (ObjErr := ObjErr) (OB := OB)).
Abbreviation staged_fuel := (validate_fuel (IoErr := IoErr) (PackErr := PackErr) (InitErr := InitErr)
  (PackDecodeErr := PackDecodeErr) (StoreErr := StoreErr) (ObjErr := ObjErr) (OB := OB)).
Abbreviation staged_layered := (layered (IoErr := IoErr) (PackErr := PackErr) (InitErr := InitErr)
  (PackDecodeErr := PackDecodeErr) (StoreErr := StoreErr) (ObjErr := ObjErr) (OB := OB)).
Abbreviation push_edge := (edge (IoErr := IoErr) (PackErr := PackErr) (InitErr := InitErr)
  (PackDecodeErr := PackDecodeErr) (StoreErr := StoreErr) (ObjErr := ObjErr) (OB := OB)).
Abbreviation safe := (crash_safe (IoErr := IoErr) (PackErr := PackErr) (InitErr := InitErr)
  (PackDecodeErr := PackDecodeErr) (OB := OB)).
Abbreviation done_with := (promotion_done (IoErr := IoErr) (PackErr := PackErr) (InitErr := InitErr)
  (PackDecodeErr := PackDecodeErr) (OB := OB)).
Abbreviation refer := (refers (IoErr := IoErr) (PackErr := PackErr) (InitErr := InitErr)
  (PackDecodeErr := PackDecodeErr) (StoreErr := StoreErr) (ObjErr := ObjErr) (OB := OB)).

(** Whatever the pack stages is named by hashes, which makes it acyclic, and
    fits the bounds. *)
Record pushable (fuel gfuel : nat) (meta : RepoMeta) (request : Request Oid) (m : Objects) : Prop := {
  pu_index : indexes_over_bases;
  pu_pack : forall s, staged_from m (rm_object_format meta) (rq_pack request) s ->
    named (staged_objects s) /\ exists rank crank, staged_acyclic (staged_objects s) rank
      /\ staged_fuel (staged_objects s) (tips_of request) <= fuel
      /\ ranked (m ∪ staged_objects s) crank /\ graph_fuel (m ∪ staged_objects s) <= gfuel;
}.

(** No new object the pack stages refers to a new object of a later kind
    (blobs, trees, commits, tags).  The code does not check it; no object git
    writes breaks it. *)
Definition ordered (meta : RepoMeta) (request : Request Oid) (m : Objects) : Prop :=
  forall s, staged_from m (rm_object_format meta) (rq_pack request) s -> staged_layered m (staged_objects s).

(** ** A sound repository *)

(** The objects now, and those a crash may leave. *)
Definition durably (g : G) (P : Objects -> Prop) : Prop := P (ws_objects g) /\ forall s, ps_recover g s -> P s.

Definition refs_stored (g : G) : Prop := forall n oid, ws_refs g !! n = Some (Direct oid) ->
  durably g (fun s => is_Some (s !! oid)).

Record sound (g : G) : Prop := {
  so_safe : safe g;
  so_graph : graph_wf True g;
  so_refs : refs_stored g;
  so_intact : ps_intact g;
}.

Inductive reach (s : Objects) (x : Oid) : Oid -> Prop :=
  | reach_refl : reach s x x
  | reach_step y kind body c : reach s x y -> s !! y = Some (kind, body) -> refer (y, kind, body) c -> reach s x c.

(** No ref's history has a hole, now or after a crash. *)
Definition whole (g : G) : Prop := forall n oid c, ws_refs g !! n = Some (Direct oid) ->
  durably g (fun s => reach s oid c -> is_Some (s !! c)).

Lemma sound_whole g : sound g -> whole g.
Proof.
  intros [[Hc Hcs] _ Hr _] n oid c Hn. destruct (Hr n oid Hn) as [Hs Hss].
  split; [| intros s Hrec; specialize (Hss s Hrec); specialize (Hcs s Hrec)].
  all: intros Hx; destruct Hx as [| y kind body c Hy Hl Hc']; [done |].
  - by eapply Hc.
  - by eapply Hcs.
Qed.

(** Growing does not make a hole, sound or not: what the refs reach is what
    they reached. *)
Lemma grown_whole g g' : sound g -> grows g g' -> whole g'.
Proof.
  intros Hs (Hr & Ho & Hi) n oid c Hn. rewrite Hr in Hn. pose proof (so_safe _ Hs) as [Hc _].
  destruct (Hi (so_intact _ Hs)) as [_ Hrec].
  assert (forall s, ws_objects g ⊆ s -> reach s oid c -> is_Some (s !! c)) as Hin.
  { intros s Hsub Hx. cut (is_Some (ws_objects g !! c)); [intros [kb Hkb]; exists kb; by eapply lookup_weaken |].
    induction Hx as [| y kind body c _ IH Hl Href]; [exact (proj1 (so_refs _ Hs n oid Hn)) |].
    destruct IH as [[k b] Hy]. rewrite (lookup_weaken _ _ _ _ Hy Hsub) in Hl. injection Hl as -> ->. by eapply Hc. }
  split; [by apply Hin |]. intros s [Hs' | Hsub]%Hrec; [| by apply Hin].
  by apply (proj2 (sound_whole g Hs n oid c Hn)).
Qed.

(** ** The handler keeps it sound *)

Lemma kept_push (P : G -> G -> Prop) {RK : RepoKeeps P} fuel gfuel meta spooling (request : Request Oid) g :
  (forall s, staged_from (ws_objects g) (rm_object_format meta) (rq_pack request) s -> named (staged_objects s)) ->
  indexes_over_bases -> P g (push fuel gfuel meta spooling request g).2.
Proof.
  intros Hn Hix. pose proof (wk_order (P := P)) as Hpre. unfold push. set (input := match spooling with Some _ => _ | None => _ end).
  pose proof (kept_ingest P input (rm_object_format meta) g) as H1.
  pose proof (ingest_spec input (rm_object_format meta) g Hix) as Hs.
  destruct (ingest_pack input (rm_object_format meta) g) as [[s | e] g1]; [| exact H1]. cbn [snd] in H1.
  assert (named (staged_objects s)) as Hns.
  { apply Hn. destruct Hs as (_ & pack & Hp & Hs). subst input. destruct spooling; [done |]. by injection Hp as <-. }
  pose proof (kept_promotion (IoErr := IoErr) P fuel gfuel s (tips_of request) Hns g1) as H2.
  destruct (validate_and_promote fuel gfuel s (tips_of request) g1) as [[pr | e] g2]; cbn [snd] in H2;
    [| by etransitivity].
  pose proof (rk_update (P := P) (updates_of request) g2) as H3.
  destruct (rs_update_refs (updates_of request) g2) as [[rs | e] g3]; (etransitivity; [exact H1 | by etransitivity]).
Qed.

Lemma durably_grows g g' (oid : Oid) :
  ps_intact g -> grows g g' -> durably g (fun s => is_Some (s !! oid)) -> durably g' (fun s => is_Some (s !! oid)).
Proof.
  intros Hin (_ & Ho & [_ Hs]%(fun H => H Hin)) [Hi Hr].
  assert (forall s, ws_objects g ⊆ s -> is_Some (s !! oid)) as Hw.
  { intros s Hsub. destruct Hi as [kb Hkb]. exists kb. by eapply lookup_weaken. }
  split; [by apply Hw |]. intros s [Hrec | Hsub]%Hs; auto.
Qed.

Lemma refs_stored_grows g g' : ps_intact g -> grows g g' -> refs_stored g -> refs_stored g'.
Proof.
  intros Hi Hg Hr n oid Hn. pose proof Hg as (Href & _). rewrite Href in Hn.
  eapply durably_grows; [done.. | by eapply Hr].
Qed.

(** Refs move to the tips only, once those are durable. *)
Lemma refs_stored_updated g g' us :
  ws_objects g' = ws_objects g -> ps_later g g' ->
  (ws_refs g' = ws_refs g \/ ws_refs g' = (apply_updates us (ws_refs g)).2) ->
  (forall u oid, u ∈ us -> ru_new u = Some oid -> durably g (fun s => is_Some (s !! oid))) ->
  refs_stored g -> refs_stored g'.
Proof.
  intros Ho Hl Hrefs Hnew Hr n oid Hn.
  assert (durably g (fun s => is_Some (s !! oid))) as [Hi Hs].
  { destruct Hrefs as [E | E]; rewrite E in Hn; [by eapply Hr |].
    apply apply_updates_targets in Hn as [Hn | (u & Hu & Hnu)]; [by eapply Hr | by eapply Hnew]. }
  split; [by rewrite Ho |]. intros s [-> | Hrec]%Hl; [by rewrite Ho | auto].
Qed.

Lemma update_tips u oid request : u ∈ updates_of request -> ru_new u = Some oid -> oid ∈ tips_of request.
Proof.
  unfold updates_of, tips_of. intros Hu Hn. apply list_elem_of_fmap in Hu as (cmd & -> & Hc).
  apply list_elem_of_omap. by exists cmd.
Qed.

(** ** What a push is answered *)

(** The lines of a report, as the protocol has them. *)
Definition refused_lines (request : Request Oid) : list bytes :=
  map (fun cmd => bs "ng " ++ cmd_name cmd ++ bs " unpacker error" ++ nl) (rq_commands request).

Definition outcome_line (r : RefUpdateResult) : bytes :=
  match rr_outcome r with
  | Updated => bs "ok " ++ rr_name r ++ nl
  | Rejected reason => bs "ng " ++ rr_name r ++ bs " " ++ reason ++ nl
  end.

(** The outcomes of a push; [report] holds of a response that reports an
    unpack line and the lines of the commands. *)
Inductive pushed (report : Response -> bytes -> list bytes -> Prop)
    (meta : RepoMeta) (request : Request Oid) (g : G) (resp : Response) (g' : G) : Prop :=
  | pushed_fault :
      resp = internal_error ->
      ws_objects g ⊆ ws_objects g' ->
      ws_refs g' = ws_refs g \/ ws_refs g' = (apply_updates (updates_of request) (ws_refs g)).2 ->
      pushed report meta request g resp g'
  | pushed_bad_pack :
      report resp (bs "unpack index-pack failed") (refused_lines request) ->
      ws_same g g' -> rq_pack request <> [] ->
      is_ok (write_bundle (rq_pack request) (rm_object_format meta) (ws_objects g) : result IE _) = false ->
      pushed report meta request g resp g'
  | pushed_incomplete s missing referenced_by :
      report resp (bs "unpack missing necessary objects") (refused_lines request) ->
      ws_same g g' -> staged_from (ws_objects g) (rm_object_format meta) (rq_pack request) s ->
      ws_objects g !! missing = None -> staged_objects s !! missing = None ->
      push_edge (ws_objects g) (staged_objects s) (tips_of request) missing referenced_by ->
      pushed report meta request g resp g'
  | pushed_done s pr results :
      report resp (bs "unpack ok") (map outcome_line results) ->
      rr_name <$> results = cmd_name <$> rq_commands request ->
      staged_from (ws_objects g) (rm_object_format meta) (rq_pack request) s ->
      done_with (ws_objects g) (staged_objects s) (tips_of request) pr g' ->
      apply_updates (updates_of request) (ws_refs g) = (results, ws_refs g')
      \/ (results = all_conflict (updates_of request) /\ ws_refs g' = ws_refs g) ->
      pushed report meta request g resp g'.

(** [resp] is built from statuses that give the lines and always fit. *)
Definition builds (request : Request Oid) (resp : Response) (unpack_line : bytes) (lines : list bytes) : Prop :=
  exists statuses, resp = build_report (rq_caps request) unpack_line statuses
    /\ length unpack_line <= 100 /\ lines = map status_line statuses
    /\ statuses.*1 = cmd_name <$> rq_commands request
    /\ Forall (fun s => match s.2 with StatusOk => True | Ng reason => length reason <= 50 end) statuses.

Lemma refused_builds request reason :
  length reason <= 90 ->
  builds request (push_failed request (Client reason)) (bs "unpack " ++ reason) (refused_lines request).
Proof.
  intros Hr. exists (map (fun cmd => (cmd_name cmd, Ng NG_UNPACKER_ERROR)) (rq_commands request)).
  split; [done | split; [cbn; lia | split; [by rewrite map_map | split; [by rewrite <- list_fmap_compose |]]]].
  apply Forall_fmap, Forall_true. cbn. lia.
Qed.

Lemma success_builds request results :
  rr_name <$> results = cmd_name <$> rq_commands request -> Forall known_reason results ->
  builds request (report_success request results) (bs "unpack ok") (map outcome_line results).
Proof.
  intros Hn Hk. exists (map result_status results).
  split; [done | split; [cbn; lia | split; [| split; [by rewrite <- Hn, <- list_fmap_compose |]]]].
  - rewrite map_map. apply map_ext. intros [n [|]]; done.
  - apply Forall_fmap. eapply Forall_impl; [exact Hk |]. intros [n [| reason]] Hr; [done |]. cbn in *.
    repeat (apply elem_of_cons in Hr as [-> | Hr]; [cbn; lia |]). by apply elem_of_nil in Hr.
Qed.

Lemma builds_reports body request resp unpack_line lines :
  parse_request body = Ok request -> builds request resp unpack_line lines -> reports request resp unpack_line lines.
Proof. intros Hp (statuses & -> & Hu & -> & Hn & Hs). by eapply build_report_reports. Qed.

Lemma results_names (request : Request Oid) refs refs' results :
  apply_updates (updates_of request) refs = (results, refs')
  \/ (results = all_conflict (updates_of request) /\ refs' = refs) ->
  rr_name <$> results = cmd_name <$> rq_commands request /\ Forall known_reason results.
Proof.
  assert (ru_name <$> updates_of request = cmd_name <$> rq_commands request) as Hn
    by (unfold updates_of; by rewrite <- list_fmap_compose).
  intros [E | [-> _]].
  - pose proof (apply_updates_names (updates_of request) refs) as H1.
    pose proof (apply_updates_reasons (updates_of request) refs) as H2. rewrite E in H1, H2. by rewrite <- Hn.
  - rewrite all_conflict_names. split; [done | apply all_conflict_reasons].
Qed.

Lemma ingested meta spooling (request : Request Oid) g s g1 :
  indexes_over_bases ->
  ingest_pack match spooling with Some e => Err e | None => Ok (rq_pack request) end (rm_object_format meta) g
    = (Ok s : result IE _, g1) ->
  staged_from (ws_objects g) (rm_object_format meta) (rq_pack request) s.
Proof.
  intros Hix E. pose proof (ingest_spec (match spooling with Some e => Err e | None => Ok (rq_pack request) end)
    (rm_object_format meta) g Hix) as H. rewrite E in H. destruct H as (_ & pack & Hp & H).
  destruct spooling; [done |]. injection Hp as <-. exact H.
Qed.

Lemma ingest_refused {IO : Internal ObjErr} meta spooling (request : Request Oid) g e g1 :
  indexes_over_bases ->
  ingest_pack match spooling with Some e => Err e | None => Ok (rq_pack request) end (rm_object_format meta) g
    = (Err e : result IE _, g1) ->
  pushed (builds request) meta request g (push_failed request (classify e)) g1.
Proof.
  intros Hix E. pose proof (ingest_spec (match spooling with Some e => Err e | None => Ok (rq_pack request) end)
    (rm_object_format meta) g Hix) as H. rewrite E in H. destruct H as (Hs & H). pose proof Hs as (Ho & _ & Hr).
  destruct (ingest_class e) as [Hc | (pe & -> & Hc)]; unfold classify; rewrite Hc.
  - apply pushed_fault; [done | by rewrite Ho | by left].
  - destruct H as (pack & Hp & Hne & Hw). destruct spooling; [done |]. injection Hp as <-.
    apply pushed_bad_pack; [apply (refused_builds _ (bs "index-pack failed")); cbn; lia | done..].
Qed.

(** A promotion blames the client for missing objects alone. *)
Lemma promote_class {IS : Internal StoreErr} {IO : Internal ObjErr} fuel gfuel s tips g e g1 :
  validate_and_promote fuel gfuel s tips g = (Err e : result PE _, g1) ->
  (forall x, e = PStaged x -> exists id, undecodable id x) ->
  class e = ServerFault
  \/ exists missing by_, e = Connectivity missing by_ /\ class e = Client (bs "missing necessary objects").
Proof.
  intros E Hst. pose proof (promotion_backfills (IoErr := IoErr) fuel gfuel s tips g) as Hb. rewrite E in Hb. cbn [fst] in Hb.
  destruct e as [e | e | e | e | id src | missing by_ |]; cbn [class classify_promote]; rewrite ?internal; eauto 6.
  - destruct (Hst _ eq_refl) as (id & src & ->). by left.
  - destruct (walk_class e) as [-> | [(oid & -> & _) | (oid & kind & -> & _)]]; [by left | done..].
Qed.

Lemma done_with_later m p tips pr g g' :
  ws_objects g' = ws_objects g -> ws_graph g' = ws_graph g -> ps_later g g' ->
  done_with m p tips pr g -> done_with m p tips pr g'.
Proof.
  intros Ho Hg Hl (H1 & H2 & H3 & H4 & H5 & H6 & H7).
  split; [done | split; [done | split; [by rewrite Ho | split; [by rewrite Ho | split; [| split; [done |]]]]]].
  - intros s [-> | Hs]%Hl; [done |]. by rewrite Ho, (H5 s Hs).
  - intros x (r & Hx & Hc)%H7. exists r. unfold record_of. by rewrite Hg, Ho.
Qed.

Lemma push_spec {IS : Internal StoreErr} {IO : Internal ObjErr} fuel gfuel meta spooling (request : Request Oid) g :
  pushable fuel gfuel meta request (ws_objects g) -> graph_wf True g ->
  let '(resp, g') := push fuel gfuel meta spooling request g in
  pushed (builds request) meta request g resp g'
  /\ (sound g -> whole g' /\ (resp <> internal_error \/ ordered meta request (ws_objects g) -> sound g')).
Proof.
  intros [Hix Hpack] Hwf.
  unfold push.
  pose proof (kept_ingest intact_kept (match spooling with Some e => Err e | None => Ok (rq_pack request) end)
    (rm_object_format meta) g) as Hi1.
  pose proof (kept_ingest ps_stays (match spooling with Some e => Err e | None => Ok (rq_pack request) end)
    (rm_object_format meta) g : ps_stays _ _) as Hst.
  destruct (ingest_pack _ _ g) as [r g1] eqn:Ei. cbn [snd] in Hi1, Hst. destruct Hst as [[Ho1 Hr1] Hl1].
  assert (ws_graph g1 = ws_graph g) as Hg1.
  { pose proof (ingest_spec (match spooling with Some e => Err e | None => Ok (rq_pack request) end)
      (rm_object_format meta) g Hix) as H. rewrite Ei in H. by destruct H as ((_ & ? & _) & _). }
  assert (grows g g1) as Hgr1 by (apply later_grows; [done | by rewrite Ho1 | auto]).
  assert (graph_wf True g1) as Hwf1 by (unfold graph_wf; by rewrite Ho1, Hg1).
  assert (sound g -> sound g1) as Hso1.
  { intros [Hs _ Hr Hi]. split; [by eapply stable_safe | done | by eapply refs_stored_grows | auto]. }
  assert (sound g1 -> whole g1 /\ sound g1) as Hend1 by (intros H; split; [by apply sound_whole | done]).
  destruct r as [s | e]; [| split; [by eapply ingest_refused | intros [Hw1 Hs1]%Hso1%Hend1; auto]].
  pose proof (ingested _ _ _ _ _ _ Hix Ei) as Hs. destruct (Hpack s Hs) as (Hnamed & rank & crank & Ha & Hf & Hrk & Hgf).
  rewrite <- Ho1 in Hrk, Hgf.
  pose proof (promotion_spec (IoErr := IoErr) fuel gfuel rank crank s (tips_of request) g1 Ha Hf Hrk Hgf Hnamed Hwf1) as Hp.
  pose proof (promotion_safe (IoErr := IoErr) fuel gfuel rank s (tips_of request) g1 Ha Hf Hnamed) as Hsafe.
  pose proof (kept_promotion (IoErr := IoErr) grows fuel gfuel s (tips_of request) Hnamed g1) as Hgr2.
  pose proof (kept_promotion (IoErr := IoErr) intact_kept fuel gfuel s (tips_of request) Hnamed g1) as Hi2.
  destruct (validate_and_promote fuel gfuel s (tips_of request) g1) as [r g2] eqn:Ep. cbn [snd] in *.
  destruct Hp as (Hwf2 & Hsub2 & Hp). rewrite Ho1 in Hsub2, Hp.
  assert (sound g -> (cut_short r -> ordered meta request (ws_objects g)) -> sound g2) as Hso2.
  { intros [Hs1 _ Hr Hi]%Hso1 Hord. split; [| done | by eapply refs_stored_grows | auto]. apply (Hsafe Hi Hs1).
    intros Hcut. rewrite Ho1. by apply (Hord Hcut). }
  pose proof (grows_trans _ _ _ Hgr1 Hgr2) as Hgr. destruct Hgr2 as (Hr2 & _ & _). destruct r as [pr | e].
  2: { split.
       - destruct (promote_class _ _ _ _ _ _ _ Ep) as [Hc | (missing & by_ & -> & Hc)].
         { intros x ->. destruct Hp as [_ (id & _ & _ & Hu)]. by exists id. }
         + unfold classify. rewrite Hc. apply pushed_fault; [done | done | left; congruence].
         + unfold classify. rewrite Hc. destruct Hp as [Hsame (Hm & Hst & He)].
           eapply pushed_incomplete; [apply (refused_builds _ (bs "missing necessary objects")); cbn; lia | | done..]. destruct Hsame as (? & ? & ?). split; [congruence | split; congruence].
       - intros Hsg. split; [by eapply grown_whole |]. intros Hor. apply Hso2; [done |]. intros Hcut.
         destruct Hor as [Hne | Hord]; [| done]. destruct Hne.
         destruct (promote_class _ _ _ _ _ _ _ Ep) as [Hc | (missing & by_ & -> & _)]; [| | done].
         { intros x ->. done. } unfold classify. by rewrite Hc. }
  pose proof (rk_update (P := intact_kept) (updates_of request) g2) as Hi3.
  destruct (rs_update_refs (updates_of request) g2) as [r g3] eqn:Eu. cbn [snd] in Hi3.
  apply rs_update_refs_spec in Eu as (Ho3 & Hg3 & Hl3 & Hu).
  pose proof (done_with_later _ _ _ _ _ _ Ho3 Hg3 Hl3 Hp) as Hdone.
  assert (ws_refs g3 = ws_refs g2 \/ ws_refs g3 = (apply_updates (updates_of request) (ws_refs g2)).2) as Hrefs.
  { destruct r as [rs |]; [| done]. destruct Hu as [E | [_ ->]]; [right; by rewrite E | by left]. }
  assert (sound g -> sound g3) as Hso3.
  { intros Hsg. destruct (Hso2 Hsg) as [Hs2 _ Hrs Hin2]; [done |]. split; [by eapply stable_safe | unfold graph_wf; by rewrite Ho3, Hg3 | | auto].
    eapply refs_stored_updated; [done | done | done | | done].
    intros u oid Hin Hn. pose proof (update_tips _ _ _ Hin Hn) as Ht.
    destruct Hp as (_ & _ & _ & Hall & Hrec & _).
    assert (is_Some (ws_objects g2 !! oid)) as Hi by (by apply Hall, needed_tip).
    split; [done |]. by intros x ->%Hrec. }
  assert (sound g -> whole g3 /\ sound g3) as Hend by (intros H; split; [by apply sound_whole, Hso3 | by apply Hso3]).
  rewrite Hr2, Hr1 in *. destruct r as [rs | e]; (split; [| intros [Hw3 Hs3]%Hend; auto]).
  - destruct (results_names _ _ _ _ Hu) as [Hn Hk].
    eapply pushed_done; [by apply success_builds | done..].
  - apply pushed_fault; [done | by rewrite Ho3 | done].
Qed.

Lemma pushed_reports body meta request g resp g' :
  parse_request body = Ok request ->
  pushed (builds request) meta request g resp g' -> pushed (reports request) meta request g resp g'.
Proof.
  intros Hp [? ? ? | ? ? ? ? | s missing by_ ? ? ? ? ? ? | s pr results ? Hn ? ? Hr].
  - by apply pushed_fault.
  - apply pushed_bad_pack; [by eapply builds_reports | done..].
  - eapply pushed_incomplete; [by eapply builds_reports | done..].
  - eapply pushed_done; [by eapply builds_reports | done..].
Qed.

(** C3: a push is answered truthfully.  Its pack is refused by the indexer, or
    lacks a named object its tips need, and then nothing has changed and the
    report says so, every command refused; or it is served: exactly the
    objects the tips need and storage lacked are stored and durable, the
    commands are applied, in order, each judged by the ref it finds — or, a
    batch lost to another, none is — and the report holds one line per
    command with its outcome.  Anything else is a server error that has lost
    nothing and left the refs alone or wholly updated.  Reports always fit
    their packets; a client that asked for none gets none. *)
Theorem push_answers {IS : Internal StoreErr} {IO : Internal ObjErr} fuel gfuel meta spooling body request g :
  parse_request body = Ok request ->
  pushable fuel gfuel meta request (ws_objects g) -> graph_wf True g ->
  let '(resp, g') := push fuel gfuel meta spooling request g in
  pushed (reports request) meta request g resp g'.
Proof.
  intros Hb Hp Hwf. pose proof (push_spec fuel gfuel meta spooling request g Hp Hwf) as H.
  destruct (push fuel gfuel meta spooling request g) as [resp g'].
  eapply pushed_reports; [done | apply H].
Qed.

(** C2: a push keeps the repository whole.  Into a sound repository — storage
    closed under references, now and in every state a crash would leave, the
    commit graph exact, the refs' targets durable — whatever the pack and
    however the push ends, no ref, old or new, reaches an object that is missing
    from storage or would be missing after a crash.  And the repository is sound
    again afterwards, ready for the next push, unless the push was answered with
    a server error and its pack holds a new object that refers to a new object
    of a later kind, which the code does not check ([promote_kind_gap]). *)
Theorem push_keeps_whole {IS : Internal StoreErr} {IO : Internal ObjErr} fuel gfuel meta spooling
    (request : Request Oid) g :
  pushable fuel gfuel meta request (ws_objects g) -> sound g ->
  let '(resp, g') := push fuel gfuel meta spooling request g in
  whole g' /\ (resp <> internal_error \/ ordered meta request (ws_objects g) -> sound g').
Proof.
  intros Hp Hs. pose proof (push_spec fuel gfuel meta spooling request g Hp (so_graph _ Hs)) as H.
  destruct (push fuel gfuel meta spooling request g) as [resp g']. by apply H.
Qed.

End push.

(** ** A push into the sample repository *)
Module PushSample.

Import MemPromote.

#[export] Instance class_unit : Classify unit := fun _ => ServerFault.
#[export] Instance class_empty : Classify Empty_set := fun _ => ServerFault.

Definition meta : RepoMeta := mkRepoMeta (mkRepoId 1) Sha1 (bs "main").

(** Commits 2 and 3 and the tag of 3, for a new tag ref. *)
Definition create : Command HexOid.t := mkCommand None (Some (o x06)) (bs "refs/tags/v1").
Definition tokens : list bytes := [[]; bs "report-status"; bs "side-band-64k"; bs "agent=git/2"].
Definition pack : bytes := mbind RawPack.entry post.
Definition request : Request HexOid.t := mkRequest [create] (mkCaps true true) pack.
Definition new : gmap HexOid.t (Kind * bytes) := RawPack.index pack.

Definition commands : bytes :=
  match write_all (map (pkt_data (PktLib := PlainPkt.lib)) (push_lines Sha1 create [] tokens nl)
                   ++ [pkt_flush (PktLib := PlainPkt.lib)]) with
  | Ok b => b
  | Err _ => []
  end.

Lemma commands_written :
  write_all (map (pkt_data (PktLib := PlainPkt.lib)) (push_lines Sha1 create [] tokens nl)
             ++ [pkt_flush (PktLib := PlainPkt.lib)]) = Ok commands.
Proof. by vm_compute. Qed.

Lemma create_ok : Forall command_ok [create].
Proof.
  repeat constructor; cbn; try done.
  - rewrite list_elem_of_In. cbn. intuition discriminate.
  - intros x [[=] | [= <-]]. by vm_compute.
Qed.

Lemma request_parses : parse_request (Pk := PlainPkt.lib) (commands ++ pack) = Ok request.
Proof. by vm_compute. Qed.

Abbreviation push_sample budget :=
  (push (Pk := PlainPkt.lib) (Zl := StoredZlib.lib) (OB := PlainObjects.lib) (WS := MemPromote.walk)
     (PS := MemPromote.lib) (RS := MemRepo.lib) (PL := RawPack.lib) (IoErr := Empty_set)
     20 20 meta None request (start budget)).

Lemma new_acyclic :
  acyclic (OB := PlainObjects.lib) (StoreErr := Empty_set) (ObjErr := unit) (IoErr := Empty_set)
    (PackErr := unit) (InitErr := Empty_set) (PackDecodeErr := unit) new rank.
Proof.
  intros x c (kind & body & Hx & Hc). apply Nat.ltb_lt.
  by apply (all_refs_sound new (fun x _ c => rank c <? rank x) x kind body).
Qed.

Lemma new_low : all_refs new (low new) = true.
Proof. by vm_compute. Qed.

Lemma new_layered m :
  layered (OB := PlainObjects.lib) (StoreErr := Empty_set) (ObjErr := unit) (IoErr := Empty_set)
    (PackErr := unit) (InitErr := Empty_set) (PackDecodeErr := unit) m new.
Proof.
  intros x kind body c kind' body' Hx Hc _ Hc'. apply Nat.leb_le.
  pose proof (all_refs_sound new (low new) x kind body c new_low Hx Hc) as H.
  unfold low in H. by rewrite Hc' in H.
Qed.

Lemma new_bounds :
  validate_fuel (OB := PlainObjects.lib) (StoreErr := Empty_set) (ObjErr := unit) (IoErr := Empty_set)
    (PackErr := unit) (InitErr := Empty_set) (PackDecodeErr := unit) new (tips_of request) <= 20
  /\ graph_fuel (OB := PlainObjects.lib) (held ∪ new) <= 20.
Proof. split; vm_compute; lia. Qed.

Lemma new_ranked : ranked (OB := PlainObjects.lib) (held ∪ new) MemWalk.rank.
Proof. apply ranked_b_sound. by vm_compute. Qed.

Lemma staged_whole s m h p :
  p <> [] ->
  staged_from (ObjErr := unit) (PL := RawPack.lib) (IoErr := Empty_set) m h p s ->
  s = mkStaged (Some (RawPack.index p)).
Proof.
  unfold staged_from, write_bundle. destruct p as [| b p]; [done |]. intros _. destruct s as [bd].
  cbn [write_to_directory to_bundle RawPack.lib map_err bundle]. by intros [= <-].
Qed.

Lemma request_pushable budget :
  pushable (OB := PlainObjects.lib) (PS := MemPromote.lib) (PL := RawPack.lib)
    (IoErr := Empty_set) 20 20 meta request (ws_objects (start budget)).
Proof.
  split; [exact RawPack.raw_indexes |]. intros s Hs.
  assert (s = mkStaged (Some new)) as -> by (eapply (staged_whole _ _ _ pack); [discriminate | exact Hs]).
  split; [done |]. exists rank, MemWalk.rank. split; [exact new_acyclic | split; [exact (proj1 new_bounds) |]].
  split; [exact new_ranked | exact (proj2 new_bounds)].
Qed.

Lemma request_ordered budget :
  ordered (PL := RawPack.lib) (OB := PlainObjects.lib) (StoreErr := Empty_set) (ObjErr := unit) (IoErr := Empty_set)
    meta request (ws_objects (start budget)).
Proof. intros s Hs. assert (s = mkStaged (Some new)) as -> by (eapply (staged_whole _ _ _ pack); [discriminate | exact Hs]).
  apply new_layered.
Qed.

Lemma start_wf budget : graph_wf (OB := PlainObjects.lib) True (start budget).
Proof. intros x Hx. cbn in Hx. apply elem_of_dom in Hx as [r Hr]. discriminate Hr. Qed.

Lemma start_sound budget :
  sound (OB := PlainObjects.lib) (WS := MemPromote.walk) (PS := MemPromote.lib) (IoErr := Empty_set)
    (PackErr := unit) (InitErr := Empty_set) (PackDecodeErr := unit) (start budget).
Proof. split; [apply start_safe | apply start_wf | | done]. intros n oid Hn. discriminate Hn. Qed.

(** The tag is there, and the report says so. *)
Example pushed_tag :
  ws_refs (push_sample 3).2 !! bs "refs/tags/v1" = Some (Direct (o x06))
  /\ (push_sample 3).1 = build_report (Pk := PlainPkt.lib) (mkCaps true true) (bs "unpack ok") [(bs "refs/tags/v1", StatusOk)].
Proof. split; by vm_compute. Qed.

End PushSample.

Import PushSample.

Lemma push_request_roundtrip_witness : parse_request (Pk := PlainPkt.lib) (commands ++ pack) = Ok request.
Proof.
  apply (push_request_roundtrip (Pk := PlainPkt.lib) Sha1 create [] tokens nl commands pack).
  - exact create_ok.
  - discriminate.
  - repeat constructor; rewrite list_elem_of_In; cbn; intuition discriminate.
  - reflexivity.
  - left. reflexivity.
  - constructor.
  - exact commands_written.
Defined.

Lemma push_answers_witness :
  pushed (OB := PlainObjects.lib) (WS := MemPromote.walk) (PS := MemPromote.lib)
    (PL := RawPack.lib) (IoErr := Empty_set) (reports (Pk := PlainPkt.lib) request)
    meta request (MemPromote.start 3) (push_sample 3).1 (push_sample 3).2.
Proof.
  pose proof (push_answers (Pk := PlainPkt.lib) (Zl := StoredZlib.lib) (OB := PlainObjects.lib) (WS := MemPromote.walk)
    (PS := MemPromote.lib) (RS := MemRepo.lib) (PL := RawPack.lib) (IoErr := Empty_set)
    (IS := fun _ => eq_refl) (IO := fun _ => eq_refl) 20 20 meta None (commands ++ pack) request (MemPromote.start 3)
    request_parses (request_pushable 3) (start_wf 3)) as H.
  destruct (push_sample 3) as [resp g']. exact H.
Defined.

(** The second object's write fails. *)
Lemma push_keeps_whole_witness :
  whole (OB := PlainObjects.lib) (WS := MemPromote.walk) (PS := MemPromote.lib) (IoErr := Empty_set)
    (PackErr := unit) (InitErr := Empty_set) (PackDecodeErr := unit) (push_sample 1).2
  /\ sound (OB := PlainObjects.lib) (WS := MemPromote.walk) (PS := MemPromote.lib) (IoErr := Empty_set)
    (PackErr := unit) (InitErr := Empty_set) (PackDecodeErr := unit) (push_sample 1).2.
Proof.
  pose proof (push_keeps_whole (Pk := PlainPkt.lib) (Zl := StoredZlib.lib) (OB := PlainObjects.lib) (WS := MemPromote.walk)
    (PS := MemPromote.lib) (RS := MemRepo.lib) (PL := RawPack.lib) (IoErr := Empty_set)
    (IS := fun _ => eq_refl) (IO := fun _ => eq_refl) 20 20 meta None request (MemPromote.start 1)
    (request_pushable 1) (start_sound 1)) as H.
  destruct (push_sample 1) as [resp g']. split; [exact (proj1 H) |]. exact (proj2 H (or_intror (request_ordered 1))).
Defined.
