(* ===== verification/UploadPackV0.v ===== *)
(** * The classic fetch endpoint ([src/protocol/upload_pack_v0.rs])

    The v0 framing over the machinery of UploadPack.v: the ref advertisement,
    request lines, negotiation rounds and the final round that streams the
    pack.  Metrics, tracing and timings are not modelled. *)

From S2P Require Import Prelude Bytes GixHash Values Zlib PackDelta PackOut Store GixObject Walk Graph Discovery Collect.
From S2P Require Import Effects Promote Repo PlanPack Pkt Errors Http Advertise Stream UploadPack Keys.
From stdpp Require Import gmap strings sorting.
From Stdlib Require Import Lia.

Definition HEAD_REF : bytes := bs "HEAD".

Record Request (Oid : Type) : Type := mkRequest {
  rq_wants : list Oid;
  rq_haves : list Oid;
  rq_done : bool;
  rq_side_band_64k : bool;
  rq_no_progress : bool;
  rq_ofs_delta : bool;
  rq_multi_ack_detailed : bool;
}.
Arguments mkRequest {Oid}.
Arguments rq_wants {Oid}.
Arguments rq_haves {Oid}.
Arguments rq_done {Oid}.
Arguments rq_side_band_64k {Oid}.
Arguments rq_no_progress {Oid}.
Arguments rq_ofs_delta {Oid}.
Arguments rq_multi_ack_detailed {Oid}.

Definition Request_default {Oid} : Request Oid := mkRequest [] [] false false false false false.

Inductive ParseError : Set := Malformed | Filter.

Section parse.
Context {PktErr : Type} {Pk : PktLib PktErr} {Oid : Type} {OL : OidLib Oid}.

(** ** Requests *)

Definition parse_caps (caps : bytes) (request : Request Oid) : Request Oid :=
  fold_left (fun '(mkRequest wants haves done band quiet ofs multi) token =>
    let name := token_name token in
    if decide (name = bs "side-band-64k") then mkRequest wants haves done true quiet ofs multi
    else if decide (name = bs "no-progress") then mkRequest wants haves done band true ofs multi
    else if decide (name = bs "multi_ack_detailed") then mkRequest wants haves done band quiet ofs true
    else if decide (name = bs "ofs-delta") then mkRequest wants haves done band quiet true multi
    else mkRequest wants haves done band quiet ofs multi)
  (split_on x20 caps) request.

Definition push_want (oid : Oid) (r : Request Oid) : Request Oid :=
  mkRequest (rq_wants r ++ [oid]) (rq_haves r) (rq_done r) (rq_side_band_64k r) (rq_no_progress r)
    (rq_ofs_delta r) (rq_multi_ack_detailed r).
Definition push_have (oid : Oid) (r : Request Oid) : Request Oid :=
  mkRequest (rq_wants r) (rq_haves r ++ [oid]) (rq_done r) (rq_side_band_64k r) (rq_no_progress r)
    (rq_ofs_delta r) (rq_multi_ack_detailed r).
Definition set_done (r : Request Oid) : Request Oid :=
  mkRequest (rq_wants r) (rq_haves r) true (rq_side_band_64k r) (rq_no_progress r)
    (rq_ofs_delta r) (rq_multi_ack_detailed r).

(** What a text line makes of the request, [done] aside, and whether the next
    want is still the first. *)
Definition parse_text (text : bytes) (request : Request Oid) (first_want : bool)
    : result ParseError (Request Oid * bool) :=
  match Prelude.strip_prefix (bs "want ") text with
  | Some rest =>
      let '(hex, caps) :=
        match split_once x20 rest with Some (hex, caps) => (hex, Some caps) | None => (rest, None) end in
      let? oid := ok_or (oid_from_hex hex) Malformed in
      let request := push_want oid request in
      if first_want then
        Ok (match caps with Some caps => parse_caps caps request | None => request end, false)
      else Ok (request, false)
  | None =>
      match Prelude.strip_prefix (bs "have ") text with
      | Some hex => let? oid := ok_or (oid_from_hex hex) Malformed in Ok (push_have oid request, first_want)
      | None =>
          match Prelude.strip_prefix (bs "filter ") text with
          | Some _ => Err Filter
          | None => Err Malformed
          end
      end
  end.

(** The loop: it ends with the body, or at [done]; every packet takes at least
    a byte. *)
Fixpoint parse_lines (fuel : nat) (body : bytes) (request : Request Oid) (first_want saw_line : bool)
    : result ParseError (Request Oid) :=
  match body with
  | [] => if saw_line then Ok request else Err Malformed
  | _ =>
      match fuel with
      | O => Err Malformed
      | S fuel' =>
          match pkt_streaming body with
          | None => Err Malformed
          | Some (line, consumed) =>
              let body := drop consumed body in
              match line with
              | PktFlush => parse_lines fuel' body request first_want true
              | PktData data =>
                  match line_text data with
                  | None => Err Malformed
                  | Some text =>
                      if decide (text = bs "done") then Ok (set_done request)
                      else
                        let? (request, first_want) := parse_text text request first_want in
                        parse_lines fuel' body request first_want true
                  end
              | PktDelimiter | PktResponseEnd => Err Malformed
              end
          end
      end
  end.

Definition parse_request (body : bytes) : result ParseError (Request Oid) :=
  parse_lines (length body) body Request_default true false.

(** ** Acknowledgements *)

Definition common_line (oid : Oid) : bytes := bs "ACK " ++ oid_to_hex oid ++ bs " common" ++ nl.
Definition ready_line (oid : Oid) : bytes := bs "ACK " ++ oid_to_hex oid ++ bs " ready" ++ nl.
Definition nak_line : bytes := bs "NAK" ++ nl.

Definition ack_negotiation_packets (common : list Oid) (ready multi_ack_detailed : bool)
    : list (result PktErr bytes) :=
  (if multi_ack_detailed then
     map (fun oid => pkt_data (common_line oid)) common
     ++ match ready, last common with
        | true, Some oid => [pkt_data (ready_line oid)]
        | _, _ => []
        end
   else [])
  ++ [pkt_data nak_line].

Definition ack_negotiation_block (common : list Oid) (ready multi_ack_detailed : bool) : result PktErr bytes :=
  write_all (ack_negotiation_packets common ready multi_ack_detailed).

Definition ack_done_line (common : list Oid) : result PktErr bytes :=
  match last common with
  | Some oid => write_all [pkt_data (ack_line oid)]
  | None => write_all [pkt_data nak_line]
  end.

Definition malformed : Response :=
  match error_line (bs "malformed upload-pack request") with
  | Ok body => git_response BAD_REQUEST RESULT_CONTENT_TYPE body
  | Err _ => internal_error
  end.

(** ** A client's request *)

Definition want_text (oid : Oid) : bytes := bs "want " ++ oid_to_hex oid.
Definition have_text (oid : Oid) : bytes := bs "have " ++ oid_to_hex oid.

(** The packets of a round: wants, the first with capabilities, a flush,
    haves, and [done] or a flush. *)
Definition v0_packets (w : Oid) (ws haves : list Oid) (tokens : list bytes) (finished : bool) : list (result PktErr bytes) :=
  map (fun t => pkt_data (t ++ nl)) ((want_text w ++ x20 :: join_with x20 tokens) :: map want_text ws)
  ++ [pkt_flush] ++ map (fun t => pkt_data (t ++ nl)) (map have_text haves)
  ++ [if finished then pkt_data (bs "done" ++ nl) else pkt_flush].

Fixpoint fold_texts (texts : list bytes) (request : Request Oid) (first_want : bool)
    : result ParseError (Request Oid * bool) :=
  match texts with
  | [] => Ok (request, first_want)
  | text :: texts' =>
      let? (request, first_want) := parse_text text request first_want in fold_texts texts' request first_want
  end.

Lemma parse_text_not_done r first : parse_text (bs "done") r first = Err Malformed.
Proof. done. Qed.

(** Reading text lines folds their texts. *)
Lemma parse_lines_texts texts fuel body r first saw r' first' tail :
  Forall (fun t => utf8_valid t = true) texts -> fold_texts texts r first = Ok (r', first') ->
  lines_of body (map (fun t => PktData (t ++ nl)) texts ++ tail) [] -> tail <> [] -> length body <= fuel ->
  exists fuel' body' saw', length body' <= fuel' /\ lines_of body' tail []
    /\ parse_lines fuel body r first saw = parse_lines fuel' body' r' first' saw'.
Proof.
  revert fuel body r first saw. induction texts as [| t texts IH]; intros fuel body r first saw Hu Hf Hl Htail Hfuel.
  { injection Hf as <- <-. by exists fuel, body, saw. }
  apply Forall_cons in Hu as [Ht Hu]. cbn [fold_texts] in Hf.
  destruct (parse_text t r first) as [[r1 first1] | e] eqn:Ep; [| done].
  cbn [map app] in Hl. apply lines_of_next in Hl as (n & Hs & Hl).
  pose proof (pkt_streaming_consumes _ _ _ Hs) as Hn.
  destruct fuel as [| fuel]; [lia |].
  destruct (IH fuel (drop n body) r1 first1 true Hu Hf Hl Htail) as (fuel' & body' & saw' & H1 & H2 & H3);
    [rewrite length_drop; lia |].
  exists fuel', body', saw'. split; [done | split; [done |]]. rewrite <- H3.
  destruct body as [| b body]; [cbn in Hn; lia |]. cbn [parse_lines]. rewrite Hs.
  rewrite line_text_utf8 by done. rewrite decide_False; [by rewrite Ep |].
  intros ->. by rewrite parse_text_not_done in Ep.
Qed.

Lemma parse_lines_flush fuel body r first saw tail :
  lines_of body (PktFlush :: tail) [] -> length body <= fuel ->
  exists fuel' body', length body' <= fuel' /\ lines_of body' tail []
    /\ parse_lines fuel body r first saw = parse_lines fuel' body' r first true.
Proof.
  intros Hl Hfuel. apply lines_of_next in Hl as (n & Hs & Hl). pose proof (pkt_streaming_consumes _ _ _ Hs) as Hn.
  destruct fuel as [| fuel]; [lia |]. exists fuel, (drop n body). split; [rewrite length_drop; lia | split; [done |]].
  destruct body as [| b body]; [cbn in Hn; lia |]. cbn [parse_lines]. by rewrite Hs.
Qed.

Lemma fold_wants ws r :
  fold_texts (map want_text ws) r false
  = Ok (mkRequest (rq_wants r ++ ws) (rq_haves r) (rq_done r) (rq_side_band_64k r) (rq_no_progress r)
          (rq_ofs_delta r) (rq_multi_ack_detailed r), false).
Proof.
  revert r. induction ws as [| w ws IH]; intros r; cbn [map fold_texts]; [by rewrite app_nil_r; destruct r |].
  unfold parse_text, want_text at 1. rewrite strip_prefix_app.
  rewrite (proj2 (split_once_None x20 _)) by (by apply hex_not_in).
  rewrite oid_hex_round. cbn [ok_or]. rewrite IH. unfold push_want. cbn. by rewrite <- app_assoc.
Qed.

Lemma fold_haves hs r first :
  fold_texts (map have_text hs) r first
  = Ok (mkRequest (rq_wants r) (rq_haves r ++ hs) (rq_done r) (rq_side_band_64k r) (rq_no_progress r)
          (rq_ofs_delta r) (rq_multi_ack_detailed r), first).
Proof.
  revert r. induction hs as [| h hs IH]; intros r; cbn [map fold_texts]; [by rewrite app_nil_r; destruct r |].
  unfold parse_text, have_text at 1 2. rewrite strip_prefix_app.
  assert (Prelude.strip_prefix (bs "want ") (bs "have " ++ oid_to_hex h) = None) as -> by done.
  rewrite oid_hex_round. cbn [ok_or]. rewrite IH. unfold push_have. cbn. by rewrite <- app_assoc.
Qed.

Lemma parse_caps_offered tokens r :
  tokens <> [] -> Forall (fun t => x20 ∉ t) tokens ->
  parse_caps (join_with x20 tokens) r
  = mkRequest (rq_wants r) (rq_haves r) (rq_done r)
      (rq_side_band_64k r || offered (bs "side-band-64k") tokens)
      (rq_no_progress r || offered (bs "no-progress") tokens)
      (rq_ofs_delta r || offered (bs "ofs-delta") tokens)
      (rq_multi_ack_detailed r || offered (bs "multi_ack_detailed") tokens).
Proof.
  intros Hne Ht. unfold parse_caps. rewrite split_on_join by assumption. clear Hne Ht. unfold offered.
  revert r. induction tokens as [| t tokens IH]; intros [ws hs d a b c e]; cbn [fold_left existsb].
  { cbn. by rewrite !orb_false_r. }
  rewrite IH. clear IH. generalize (token_name t). intros name.
  repeat case_decide; cbn; subst; try (rewrite !bool_decide_eq_false_2 by done);
    repeat (rewrite bool_decide_eq_true_2 by done); cbn; rewrite ?orb_true_r, ?orb_false_r; try done.
Qed.

Lemma want_utf8 oid : utf8_valid (want_text oid) = true /\ utf8_valid (have_text oid) = true.
Proof.
  split; apply ascii_utf8, Forall_app; (split; [| apply hex_ascii]); apply Forall_forall;
    intros b Hb; apply list_elem_of_In in Hb; cbn in Hb; intuition (subst; by vm_compute).
Qed.

Lemma first_want_utf8 oid caps :
  utf8_valid caps = true -> utf8_valid (want_text oid ++ x20 :: caps) = true.
Proof.
  intros Hc. change (x20 :: caps) with ([x20] ++ caps). rewrite app_assoc. apply utf8_valid_app; [| done].
  apply Forall_app. split; [| by repeat constructor]. apply Forall_app. split; [| apply hex_ascii].
  apply Forall_forall. intros b Hb. apply list_elem_of_In in Hb. cbn in Hb. intuition (subst; by vm_compute).
Qed.

Lemma fold_first_want w tokens :
  tokens <> [] -> Forall (fun t => x20 ∉ t) tokens ->
  parse_text (want_text w ++ x20 :: join_with x20 tokens) Request_default true
  = Ok (mkRequest [w] [] false (offered (bs "side-band-64k") tokens) (offered (bs "no-progress") tokens)
          (offered (bs "ofs-delta") tokens) (offered (bs "multi_ack_detailed") tokens), false).
Proof.
  intros Hne Ht. unfold parse_text, want_text. rewrite <- app_assoc, strip_prefix_app.
  rewrite (proj2 (split_once_Some x20 _ (oid_to_hex w) (join_with x20 tokens))) by (split; [done | by apply hex_not_in]).
  rewrite oid_hex_round. cbn [ok_or]. by rewrite parse_caps_offered.
Qed.

(** Classic requests round trip.  A client's wants, the first with its
    capabilities, and haves, with or without a final [done], frame and parse
    back to themselves, each capability seen exactly if offered. *)
Theorem v0_request_roundtrip w ws haves tokens finished body :
  tokens <> [] -> Forall (fun t => x20 ∉ t) tokens -> utf8_valid (join_with x20 tokens) = true ->
  write_all (v0_packets w ws haves tokens finished) = Ok body ->
  parse_request body
  = Ok (mkRequest (w :: ws) haves finished (offered (bs "side-band-64k") tokens) (offered (bs "no-progress") tokens)
          (offered (bs "ofs-delta") tokens) (offered (bs "multi_ack_detailed") tokens)).
Proof.
  intros Hne Ht Hu Hb. set (first := want_text w ++ x20 :: join_with x20 tokens).
  set (last_line := if finished then PktData (bs "done" ++ nl) else PktFlush).
  assert (forall texts, writes (map (fun t => pkt_data (t ++ nl)) texts) (map (fun t => PktData (t ++ nl)) texts)) as Hw.
  { intros texts. rewrite <- !(map_map (fun t => t ++ nl)). apply texts_write. }
  assert (lines_of body (map (fun t => PktData (t ++ nl)) (first :: map want_text ws)
    ++ PktFlush :: map (fun t => PktData (t ++ nl)) (map have_text haves) ++ [last_line]) []) as Hl.
  { eapply write_all_lines; [| exact Hb]. apply Forall2_app; [apply Hw |]. constructor; [apply flush_frames |].
    apply Forall2_app; [apply Hw |]. constructor; [| constructor]. unfold last_line.
    destruct finished; [intros f; apply pkt_data_frames | apply flush_frames]. }
  unfold parse_request.
  set (caps r ws := mkRequest (w :: ws) r false (offered (bs "side-band-64k") tokens) (offered (bs "no-progress") tokens)
          (offered (bs "ofs-delta") tokens) (offered (bs "multi_ack_detailed") tokens)).
  destruct (parse_lines_texts (first :: map want_text ws) (length body) body Request_default true false
    (caps [] ws) false (PktFlush :: map (fun t => PktData (t ++ nl)) (map have_text haves) ++ [last_line])) as (f1 & b1 & s1 & H1 & L1 & ->); [| | exact Hl | done | done |].
  { constructor; [by apply first_want_utf8 |]. apply Forall_forall. intros t Hin.
    apply list_elem_of_fmap in Hin as (x & -> & _). apply want_utf8. }
  { cbn [fold_texts]. unfold first. rewrite fold_first_want by done. by rewrite fold_wants. }
  destruct (parse_lines_flush f1 b1 (caps [] ws) false s1 _ L1 H1) as (f2 & b2 & H2 & L2 & ->).
  destruct (parse_lines_texts (map have_text haves) f2 b2 (caps [] ws) false true (caps haves ws) false [last_line])
    as (f3 & b3 & s3 & H3 & L3 & ->); [| | exact L2 | done | done |].
  { apply Forall_forall. intros t Hin. apply list_elem_of_fmap in Hin as (x & -> & _). apply want_utf8. }
  { by rewrite fold_haves. }
  unfold last_line in L3. destruct finished.
  - apply lines_of_next in L3 as (n & Hs & L3). pose proof (pkt_streaming_consumes _ _ _ Hs) as Hn.
    destruct f3 as [| f3]; [lia |]. destruct b3 as [| b b3]; [cbn in Hn; lia |]. cbn [parse_lines]. rewrite Hs.
    rewrite line_text_utf8 by done. by rewrite decide_True.
  - destruct (parse_lines_flush f3 b3 (caps haves ws) false s3 [] L3 H3) as (f4 & b4 & H4 & L4 & ->).
    inversion L4; subst. by destruct f4.
Qed.

End parse.

Section upload_pack_v0.
Context {PktErr : Type} {Pk : PktLib PktErr} {Oid : Type} {OL : OidLib Oid} {Zl : ZlibLib}.
Context {Digest HashErr F : Type} {PF : PackFormat Oid Digest HashErr F}.
Context {StoreErr ObjErr DecodeError G : Type} {OB : ObjectLib Oid DecodeError}.
Context {WS : WalkStore Oid StoreErr ObjErr G} {PS : PromoteStore Oid StoreErr ObjErr G}.
Context {RS : RepoStore Oid StoreErr ObjErr G} {CS : Classify StoreErr} {CO : Classify ObjErr}.

Abbreviation WE := (WalkError Oid StoreErr ObjErr DecodeError).
Abbreviation LE := (LsRefsError Oid StoreErr ObjErr DecodeError PktErr).

(** ** The advertisement *)

(** The loop that takes [HEAD] out of a listing. *)
Fixpoint take_head (refs : list (bytes * RefTarget Oid)) (head_target : option (RefTarget Oid))
    (rest : list (bytes * RefTarget Oid)) : option (RefTarget Oid) * list (bytes * RefTarget Oid) :=
  match refs with
  | [] => (head_target, rest)
  | (name, target) :: refs' =>
      if decide (name = HEAD_REF) then take_head refs' (Some target) rest
      else take_head refs' head_target (rest ++ [(name, target)])
  end.

(** The advertised [HEAD], and the symref capability's target. *)
Definition advertise_head (head_target : option (RefTarget Oid))
    : SE G LE (list (UploadRef Oid) * option bytes) :=
  match head_target with
  | None => se_ret ([], None)
  | Some target =>
      do! resolution <- se_map_err LsStore (resolve_ref target);
      match resolution with
      | Resolved oid =>
          se_ret ([mkUploadRef HEAD_REF oid None],
                  match target with Reference inner => Some inner | Direct _ => None end)
      | Dangling | TooDeep => se_ret ([], None)
      end
  end.

Fixpoint advertise_rest (rest : list (bytes * RefTarget Oid)) (advertised : list (UploadRef Oid))
    : SE G LE (list (UploadRef Oid)) :=
  match rest with
  | [] => se_ret advertised
  | (name, target) :: rest' =>
      do! resolution <- se_map_err LsStore (resolve_ref target);
      match resolution with
      | Resolved oid =>
          do! peeled <- peel_ref oid;
          advertise_rest rest' (advertised ++ [mkUploadRef name oid peeled])
      | Dangling | TooDeep => advertise_rest rest' advertised
      end
  end.

Definition build_advertisement (meta : RepoMeta) : SE G LE bytes :=
  do! refs <- se_map_err LsStore (rs_list_refs None);
  let '(head_target, rest) := take_head refs None [] in
  do! (advertised, symref_target) <- advertise_head head_target;
  do! advertised <- advertise_rest rest advertised;
  se_lift (map_err LsIo (advertise_upload_pack_v0 advertised symref_target (rm_object_format meta))).

(** The error is logged and dropped. *)
Definition advertise (meta : RepoMeta) : SE G unit bytes := se_map_err (fun _ => tt) (build_advertisement meta).

(** ** Fetches *)

Definition classify_walk_error (err : WE) : Response := error_response (classify err).

Definition negotiate (fuel : nat) (request : Request Oid) : G -> Response * G := fun g =>
  match partition_wants (rq_wants request) g with
  | (Err err, g) => (classify_walk_error err, g)
  | (Ok partition, g) =>
      match select_commits fuel (wp_history partition) (rq_haves request) g with
      | (Err err, g) => (classify_walk_error err, g)
      | (Ok selection, g) =>
          let ready := negb (bool_decide (common selection = [])) && bounded_by_haves selection in
          match ack_negotiation_block (common selection) ready (rq_multi_ack_detailed request) with
          | Ok body => (git_response OK RESULT_CONTENT_TYPE body, g)
          | Err _ => (internal_error, g)
          end
      end
  end.

Definition stream_done_round (fuel : nat) (meta : RepoMeta) (request : Request Oid) (room : option nat)
    : G -> Response * G := fun g =>
  match plan_pack fuel (rq_wants request) (rq_haves request) FilterNone (rq_ofs_delta request) g with
  | (Err err, g) => (classify_walk_error err, g)
  | (Ok plan, g) =>
      match pack_count (pp_objects plan) with
      | None => (reject_fetch (bs "too many objects for one pack"), g)
      | Some count =>
          match ack_done_line (pp_common plan) with
          | Err _ => (internal_error, g)
          | Ok prefix =>
              stream_pack_response (pp_objects plan) count (rm_object_format meta) prefix
                (rq_side_band_64k request) (rq_no_progress request) (rq_ofs_delta request) room g
          end
      end
  end.

(** A parsed request, its repository found. *)
Definition upload_pack (fuel : nat) (meta : RepoMeta) (request : Request Oid) (room : option nat)
    : G -> Response * G := fun g =>
  match rq_wants request with
  | [] => (reject_fetch (bs "fetch requires at least one want"), g)
  | _ => if rq_done request then stream_done_round fuel meta request room g else negotiate fuel request g
  end.

(** ** What serving keeps *)

Section serving_v0.
Context (P : G -> G -> Prop) {SK : ServeKeeps P}.

#[local] Hint Extern 1 (kept _ (resolve_ref _)) => exact (kept_resolve_ref (OB := OB) P _) : kept.
#[local] Hint Extern 1 (kept _ (peel_ref _)) => exact (kept_peel_ref P _) : kept.
#[local] Hint Resolve kept_plan_pack : kept.

Lemma kept_advertise meta : kept P (advertise meta).
Proof using SK.
  assert (H : forall rest advertised, kept P (advertise_rest rest advertised)).
  { induction rest as [| [name target] rest IH]; intros advertised; cbn [advertise_rest]; keep. }
  unfold advertise, build_advertisement. apply kept_map_err.
  apply kept_bind; [apply _ | keep |]. intros refs. destruct (take_head refs None []) as [head rest].
  apply kept_bind; [apply _ | unfold advertise_head; keep |]. intros [advertised symref]. keep.
Qed.

Lemma kept_upload_pack_v0 fuel meta request room : kept P (upload_pack fuel meta request room).
Proof using SK.
  unfold upload_pack. destruct (rq_wants request) eqn:Ew; [apply kept_pair, _ |].
  destruct (rq_done request).
  - unfold stream_done_round. apply (kept_then P (plan_pack fuel _ _ _ _)); [auto with kept |].
    intros [plan | e]; [| apply kept_pair, _]. destruct (pack_count _); [| apply kept_pair, _].
    destruct (ack_done_line _); [| apply kept_pair, _]. exact (kept_stream_response (OB := OB) P _ _ _ _ _ _ _ _).
  - unfold negotiate. apply (kept_then P (partition_wants _)); [auto with kept |].
    intros [partition | e]; [| apply kept_pair, _].
    apply (kept_then P (select_commits fuel _ _)); [auto with kept |]. intros [selection | e]; [| apply kept_pair, _].
    cbv zeta. destruct (ack_negotiation_block _ _ _); apply kept_pair, _.
Qed.

End serving_v0.

(** ** What the advertisement says *)

(** The entry of a ref in the advertisement: none unless it leads to an
    object through fewer than [MAX_SYMREF_DEPTH] symbolic refs. *)
Definition advertised_as (m : gmap Oid (Kind * bytes)) (refs : gmap bytes (RefTarget Oid))
    (r : bytes * RefTarget Oid) (entry : option (UploadRef Oid)) : Prop :=
  match entry with
  | Some u => ur_name u = r.1
      /\ (exists n, n < MAX_SYMREF_DEPTH /\ leads refs r.2 n (Some (ur_oid u)))
      /\ peeled_as m MAX_PEEL_DEPTH (ur_oid u) (ur_peeled u)
  | None => forall n oid, leads refs r.2 n (Some oid) -> MAX_SYMREF_DEPTH <= n
  end.

Definition head_as (refs : gmap bytes (RefTarget Oid)) (head : list (UploadRef Oid)) (symref : option bytes) : Prop :=
  (exists target oid n, refs !! HEAD_REF = Some target /\ n < MAX_SYMREF_DEPTH /\ leads refs target n (Some oid)
     /\ head = [mkUploadRef HEAD_REF oid None]
     /\ symref = match target with Reference inner => Some inner | Direct _ => None end)
  \/ (head = [] /\ symref = None
      /\ forall target n oid, refs !! HEAD_REF = Some target -> leads refs target n (Some oid) -> MAX_SYMREF_DEPTH <= n).

Lemma take_head_spec refs head rest :
  NoDup refs.*1 ->
  take_head refs head rest =
    (match list_find (fun r => r.1 = HEAD_REF) refs with Some (_, r) => Some r.2 | None => head end,
     rest ++ filter (fun r => r.1 <> HEAD_REF) refs).
Proof.
  revert head rest. induction refs as [| [name target] refs IH]; intros head rest Hnd; cbn [take_head].
  { cbn. by rewrite app_nil_r. }
  rewrite fmap_cons in Hnd. apply NoDup_cons in Hnd as [Hn Hnd]. cbn [fst] in Hn. cbn [list_find]. rewrite filter_cons. cbn [fst].
  destruct (decide (name = HEAD_REF)) as [E | E].
  - rewrite IH by done. rewrite (decide_False (P := name <> HEAD_REF)) by (intros H; by apply H). f_equal.
    destruct (list_find (fun r : bytes * RefTarget Oid => r.1 = HEAD_REF) refs) as [[i r] |] eqn:Ef;
      [| done].
    apply list_find_Some in Ef as (Hi & Hr & _). destruct Hn. rewrite E, <- Hr.
    apply (list_elem_of_fmap_2 fst). by eapply list_elem_of_lookup_2.
  - rewrite IH by done. rewrite (decide_True (P := name <> HEAD_REF)) by done.
    rewrite <- app_assoc. f_equal. by destruct (list_find _ refs) as [[i r] |].
Qed.

Lemma listed_head refs l :
  listing refs None l ->
  match list_find (fun r : bytes * RefTarget Oid => r.1 = HEAD_REF) l with Some (_, r) => Some r.2 | None => None end
  = refs !! HEAD_REF.
Proof.
  intros (_ & _ & Hl). destruct (list_find _ l) as [[i [n t]] |] eqn:E.
  - apply list_find_Some in E as (Hi & Hn & _). cbn in *. subst n. symmetry.
    apply (Hl HEAD_REF t). by eapply list_elem_of_lookup_2.
  - apply list_find_None in E. destruct (refs !! HEAD_REF) as [t |] eqn:Er; [| done].
    exfalso. rewrite Forall_forall in E. apply (E (HEAD_REF, t)); [| done]. by apply Hl.
Qed.

Lemma leads_unique (refs : gmap bytes (RefTarget Oid)) target n n' r r' :
  leads refs target n r -> leads refs target n' r' -> n = n' /\ r = r'.
Proof.
  intros H. revert n' r'. induction H as [oid | name Hn | name t n r Hn H IH]; intros n' r' H';
    inversion H' as [| | ? t' m ? Hn' Ht']; simplify_eq; try done.
  by destruct (IH _ _ Ht') as [-> ->].
Qed.

Lemma resolves_spec target g :
  let '(r, g') := resolve_ref target g in
  ws_same g g'
  /\ match r with
     | Ok (Resolved oid) => exists n, n < MAX_SYMREF_DEPTH /\ leads (ws_refs g) target n (Some oid)
     | Ok _ => forall n oid, leads (ws_refs g) target n (Some oid) -> MAX_SYMREF_DEPTH <= n
     | Err _ => True
     end.
Proof.
  pose proof (resolve_loop_spec MAX_SYMREF_DEPTH target g) as H. unfold resolve_ref.
  destruct (resolve_loop MAX_SYMREF_DEPTH target g) as [[[oid | |] | e] g']; destruct H as [Hs H];
    (split; [done |]); [done | | | done].
  - destruct H as (n & _ & Hl). intros n' oid Hl'. destruct (leads_unique _ _ _ _ _ _ Hl Hl') as [_ [=]].
  - intros n oid Hl. specialize (H _ _ Hl). cbn in H. lia.
Qed.

Lemma advertise_rest_spec rest advertised g :
  let '(r, g') := advertise_rest rest advertised g in
  ws_same g g'
  /\ match r with
     | Ok ads => exists entries, Forall2 (advertised_as (ws_objects g) (ws_refs g)) rest entries
         /\ ads = advertised ++ omap id entries
     | Err e => ls_fault (ws_objects g) e
     end.
Proof.
  revert advertised g. induction rest as [| [name target] rest IH]; intros advertised g; cbn [advertise_rest].
  { split; [done |]. exists []. split; [constructor | by rewrite app_nil_r]. }
  unfold se_bind at 1, se_map_err. pose proof (resolves_spec target g) as H.
  destruct (resolve_ref target g) as [r g1]. destruct H as [Hs H].
  pose proof Hs as (Ho & _ & Hr).
  assert (forall g2 ads entry, ws_same g g2 -> advertised_as (ws_objects g) (ws_refs g) (name, target) entry ->
    ads = advertised ++ option_list entry ->
    let '(r, g') := advertise_rest rest ads g2 in
    ws_same g g'
    /\ match r with
       | Ok ads => exists entries, Forall2 (advertised_as (ws_objects g) (ws_refs g)) ((name, target) :: rest) entries
           /\ ads = advertised ++ omap id entries
       | Err e => ls_fault (ws_objects g) e
       end) as Hnext.
  { intros g2 ads entry Hs2 He ->. pose proof Hs2 as (Ho2 & _ & Hr2).
    specialize (IH (advertised ++ option_list entry) g2). rewrite Ho2, Hr2 in IH.
    destruct (advertise_rest rest _ g2) as [[ads | e] g3]; destruct IH as [Hs3 IH];
      (split; [by eapply ws_same_trans |]); [| done].
    destruct IH as (entries & Hes & ->). exists (entry :: entries). split; [by constructor |].
    rewrite <- app_assoc. by destruct entry. }
  destruct r as [[oid | |] | e]; cbn [map_err].
  - unfold se_bind. pose proof (peel_ref_spec oid g1) as Hp.
    destruct (peel_ref oid g1) as [[p | e] g2]; destruct Hp as [Hs2 Hp]; rewrite Ho in Hp.
    + by apply (Hnext g2 _ (Some (mkUploadRef name oid p))); [eapply ws_same_trans | split; [| split] |].
    + split; [by eapply ws_same_trans | done].
  - apply (Hnext g1 _ None); [done | done | by rewrite app_nil_r].
  - apply (Hnext g1 _ None); [done | done | by rewrite app_nil_r].
  - done.
Qed.

(** ** What a fetch is answered *)

Definition negotiation_lines (common : list Oid) (ready multi_ack_detailed : bool) : list PacketLine :=
  (if multi_ack_detailed then
     map (fun oid => PktData (common_line oid)) common
     ++ match ready, last common with true, Some oid => [PktData (ready_line oid)] | _, _ => [] end
   else [])
  ++ [PktData nak_line].

Definition done_line (common : list Oid) : list PacketLine :=
  [PktData (match last common with Some oid => ack_line oid | None => nak_line end)].

Lemma acks_fit (oid : Oid) :
  0 < length (common_line oid) <= MAX_DATA_LEN /\ 0 < length (ready_line oid) <= MAX_DATA_LEN.
Proof.
  unfold common_line, ready_line, MAX_DATA_LEN. rewrite !length_app. pose proof (oid_hex_bound oid).
  assert (length (bs "ACK ") = 4) by done. assert (length (bs " common") = 7) by done.
  assert (length (bs " ready") = 6) by done. assert (length nl = 1) by done. lia.
Qed.

Lemma negotiation_ready common ready detailed :
  Pkt.ready (ack_negotiation_packets common ready detailed) (negotiation_lines common ready detailed).
Proof.
  unfold ack_negotiation_packets, negotiation_lines. apply ready_lines_app; [| apply ready_data; [by apply short_line | by apply short_line | constructor]].
  destruct detailed; [| constructor]. apply ready_lines_app.
  - apply (ready_map common_line). apply Forall_forall. intros oid _. apply acks_fit.
  - destruct ready; [| constructor]. destruct (last common) as [oid |]; [| constructor].
    apply ready_data; [apply acks_fit.. | constructor].
Qed.

Lemma done_line_reads common :
  exists b, ack_done_line common = Ok b
    /\ forall rest ls r, lines_of rest ls r -> lines_of (b ++ rest) (done_line common ++ ls) r.
Proof.
  assert (forall d : bytes, 0 < length d <= MAX_DATA_LEN -> Pkt.ready [pkt_data d] [PktData d]) as Hr
    by (intros d [H1 H2]; apply ready_data; [done.. | constructor]).
  unfold ack_done_line, done_line. destruct (last common) as [oid |]; apply ready_body, Hr;
    [apply ack_line_size | by apply short_line].
Qed.

(** The answer to a request: a fault's, or a negotiation round's, or the last
    acknowledgement and the pack.  Generations, as far as they are [exact],
    settle whether a round ends with [ready]: when a commit that a common one
    reaches lies below every commit there is to send. *)
Definition v0_answer (m : gmap Oid (Kind * bytes)) (graph : gmap Oid (CommitGraphRecord Oid)) (exact : Prop)
    (request : Request Oid) (hash : HashKind) (room : option nat) (resp : Response) : Prop :=
  fault_answer (StoreErr := StoreErr) (ObjErr := ObjErr) m resp
  \/ (if rq_done request then
        exists plan, planned m (rq_wants request) (rq_haves request) FilterNone (rq_ofs_delta request) plan
          /\ match pack_count (pp_objects plan) with
             | None => resp = reject_fetch (bs "too many objects for one pack")
             | Some count => exists body, resp = git_response OK RESULT_CONTENT_TYPE body
                 /\ pack_answer (F := F) m (pp_objects plan) count hash (rq_side_band_64k request) (rq_no_progress request)
                      (done_line (pp_common plan)) room body
             end
      else
        exists sel W commits tags ready body,
          selected exact m graph (history_wants m (rq_wants request)) (rq_haves request) sel W commits tags
          /\ resp = git_response OK RESULT_CONTENT_TYPE body
          /\ lines_of body (negotiation_lines (common sel) ready (rq_multi_ack_detailed request)) []
          /\ (ready = true -> common sel <> [])
          /\ (exact -> (ready = true <-> exists c, from_have m (common sel) c
                /\ forall s, s ∈ commits -> (gen_of graph c < gen_of graph s)%Z))).

Lemma graph_wf_exact g : graph_wf False g -> graph_wf (graph_wf True g) g.
Proof.
  intros Hf id Hid. destruct (Hf id Hid) as (r & Hr & Hc & _). exists r. split; [done | split; [done |]].
  intros Ht. destruct (Ht id Hid) as (r' & Hr' & _ & Hx). assert (r' = r) as -> by congruence. by apply Hx.
Qed.

Lemma negotiate_spec {IS : Internal StoreErr} {IO : Internal ObjErr} fuel rank m request hash room g :
  fetchable m rank fuel g -> rq_done request = false ->
  let '(resp, g') := negotiate fuel request g in
  v0_answer m (ws_graph g') (graph_wf True g) request hash room resp.
Proof.
  intros [Ho Hwf Hr Ht _ Hfuel] Hd. unfold negotiate, v0_answer. rewrite Hd.
  pose proof (partition_wants_spec (DecodeError := DecodeError) (rq_wants request) g) as H. rewrite Ho in H.
  destruct (partition_wants (rq_wants request) g) as [[p | e] g1]; destruct H as [(Ho1 & Hg1 & _) H]; rewrite Ho in Ho1.
  2: { left. apply fault_answered. destruct e; solve [done | by destruct H | by destruct H as [? [=]]]. }
  destruct H as (Hhist & _). fold (history_wants m (rq_wants request)) in Hhist.
  assert (graph_wf (graph_wf True g) g1) as Hwf1.
  { pose proof (graph_wf_exact g Hwf) as H. unfold graph_wf at 1. rewrite Ho1, Hg1, <- Ho. exact H. }
  rewrite <- Ho1 in Hr, Ht, Hfuel.
  pose proof (select_spec (graph_wf True g) fuel rank (wp_history p) (rq_haves request) g1 Hwf1 Hr Ht ltac:(lia)) as H.
  destruct (select_commits fuel (wp_history p) (rq_haves request) g1) as [[sel | e] g2]; destruct H as (Ho2 & _ & H);
    rewrite Ho1 in *.
  2: { left. by apply fault_answered. }
  destruct H as (W & commits & tags & Hsel). rewrite Hhist in Hsel. unfold ack_negotiation_block.
  set (ready := negb (bool_decide (common sel = [])) && bounded_by_haves sel).
  destruct (ready_body _ _ (negotiation_ready (common sel) ready (rq_multi_ack_detailed request))) as (b & -> & Hb).
  right. exists sel, W, commits, tags, ready, b. split; [done | split; [done | split; [| split]]].
  - specialize (Hb [] [] [] (lines_nil [])). by rewrite !app_nil_r in Hb.
  - unfold ready. intros [Hne%negb_true_iff _]%andb_true_iff. by apply bool_decide_eq_false in Hne.
  - intros Hex. rewrite <- (s_bounded _ _ _ _ _ _ _ _ _ Hsel Hex). unfold ready. rewrite andb_true_iff. split; [tauto |].
    intros Hbd. split; [| done]. apply negb_true_iff, bool_decide_eq_false. intros E.
    apply (s_bounded _ _ _ _ _ _ _ _ _ Hsel Hex) in Hbd as (c & (h & Hh & _) & _). rewrite E in Hh.
    by apply not_elem_of_nil in Hh.
Qed.

Lemma done_round_spec {IS : Internal StoreErr} {IO : Internal ObjErr} fuel rank m meta request room g :
  fetchable m rank fuel g -> readable g -> rq_done request = true ->
  let '(resp, g') := stream_done_round fuel meta request room g in
  v0_answer m (ws_graph g') (graph_wf True g) request (rm_object_format meta) room resp.
Proof.
  intros Hf Hsz Hd. unfold stream_done_round, v0_answer. rewrite Hd.
  pose proof (plan_pack_spec fuel rank m (rq_wants request) (rq_haves request) FilterNone (rq_ofs_delta request) g Hf) as H.
  pose proof (f_objects _ _ _ _ Hf) as Hm.
  pose proof (readable_after _ g (kept_plan_pack intact_kept fuel (rq_wants request) (rq_haves request) FilterNone
    (rq_ofs_delta request))) as Hnext.
  destruct (plan_pack _ _ _ _ _ g) as [[plan | e] g1]; destruct H as [Ho H].
  2: { left. by apply fault_answered. }
  destruct (pack_count (pp_objects plan)) as [count |] eqn:Ec.
  2: { right. exists plan. by rewrite Ec. }
  destruct (done_line_reads (pp_common plan)) as (head & -> & Hhead).
  pose proof (stream_pack_response_spec (pp_objects plan) count (rm_object_format meta) head _
    (rq_side_band_64k request) (rq_no_progress request) (rq_ofs_delta request) room g1 (Hnext (eq_trans Ho (eq_sym Hm)) Hsz) Ec Hhead) as Hs.
  destruct (stream_pack_response _ _ _ _ _ _ _ _ g1) as [resp g2]. destruct Hs as [Ho2 Hs].
  rewrite Ho in *. right. exists plan. by rewrite Ec.
Qed.


(** The classic advertisement is exact.  It changes nothing; it fails only
    with a store's failure, a tag that does not decode or a line that outgrows
    its packet; else it reads as the service line, [HEAD] first when it leads
    to an object through fewer than five symbolic refs, then every other ref
    that does, once each in name order, with what its tag peels to, the
    capabilities — [HEAD]'s target among them — on the first line, and a
    flush. *)
Theorem advertisement_v0_exact meta g :
  let '(r, g') := build_advertisement meta g in
  ws_same g g'
  /\ match r with
     | Ok b => exists refs head symref entries,
         listing (ws_refs g) None refs /\ head_as (ws_refs g) head symref
         /\ Forall2 (advertised_as (ws_objects g) (ws_refs g)) (filter (fun r => r.1 <> HEAD_REF) refs) entries
         /\ lines_of b (upload_v0_lines (head ++ omap id entries) symref (rm_object_format meta)) []
     | Err (LsIo _) => True
     | Err e => ls_fault (ws_objects g) e
     end.
Proof.
  unfold build_advertisement. unfold se_bind at 1, se_map_err at 1.
  destruct (rs_list_refs None g) as [r g1] eqn:El. apply rs_list_refs_spec in El as (Hs1 & _ & Hl).
  destruct r as [refs | e]; cbn [map_err]; [| done]. specialize (Hl refs eq_refl).
  rewrite take_head_spec by apply Hl. rewrite (listed_head _ _ Hl). cbn [app].
  pose proof Hs1 as (Ho1 & _ & Hr1). unfold se_bind at 1.
  assert (let '(r, g2) := advertise_head (ws_refs g !! HEAD_REF) g1 in ws_same g g2
    /\ match r with Ok (head, symref) => head_as (ws_refs g) head symref | Err e => ls_fault (ws_objects g) e end) as Hh.
  { unfold advertise_head. destruct (ws_refs g !! HEAD_REF) as [target |] eqn:Eh.
    2: { split; [done |]. right. split; [done | split; [done |]]. congruence. }
    unfold se_bind, se_map_err. pose proof (resolves_spec target g1) as H. rewrite Hr1 in H.
    destruct (resolve_ref target g1) as [[[oid | |] | e] g2]; destruct H as [Hs2 H]; cbn [map_err];
      (split; [by eapply ws_same_trans |]); [| | | done].
    - destruct H as (n & Hn & Hlead). left. by exists target, oid, n.
    - right. split; [done | split; [done |]]. intros t n oid Ht. rewrite Eh in Ht. injection Ht as <-. apply H.
    - right. split; [done | split; [done |]]. intros t n oid Ht. rewrite Eh in Ht. injection Ht as <-. apply H. }
  destruct (advertise_head _ g1) as [[[head symref] | e] g2]; destruct Hh as [Hs2 Hh]; [| split; [done | by destruct e]].
  unfold se_bind at 1. pose proof Hs2 as (Ho2 & _ & Hr2).
  pose proof (advertise_rest_spec (filter (fun r => r.1 <> HEAD_REF) refs) head g2) as H. rewrite Ho2, Hr2 in H.
  destruct (advertise_rest _ _ g2) as [[ads | e] g3]; destruct H as [Hs3 H];
    [| split; [by eapply ws_same_trans | by destruct e]].
  destruct H as (entries & Hes & ->). unfold se_lift.
  split; [by eapply ws_same_trans |]. destruct (advertise_upload_pack_v0 _ _ _) as [b | e] eqn:Eb; cbn [map_err]; [| done].
  exists refs, head, symref, entries. split; [done | split; [done | split; [done |]]]. by apply upload_pack_v0_reads.
Qed.

End upload_pack_v0.

(** ** Classic fetches from the sample repository *)
Module ClassicSample.

Import FetchSample.

Abbreviation o := MemWalk.o.

Definition tokens : list bytes := [bs "multi_ack_detailed"; bs "side-band-64k"; bs "agent=git/2"].

Definition request (finished : bool) : Request HexOid.t :=
  mkRequest [o x03] [o x01; o x21] finished true false false true.

Definition body (finished : bool) : bytes :=
  match write_all (v0_packets (Pk := PlainPkt.lib) (o x03) [] [o x01; o x21] tokens finished) with
  | Ok b => b
  | Err _ => []
  end.

Lemma body_written finished :
  write_all (v0_packets (Pk := PlainPkt.lib) (o x03) [] [o x01; o x21] tokens finished) = Ok (body finished).
Proof. destruct finished; by vm_compute. Qed.

Lemma tokens_plain : Forall (fun t => x20 ∉ t) tokens.
Proof. repeat constructor; rewrite list_elem_of_In; cbn; intuition discriminate. Qed.

Abbreviation serve finished :=
  (upload_pack (Pk := PlainPkt.lib) (Zl := StoredZlib.lib) (PF := PlainFormat.lib (Oid := HexOid.t))
     (OB := PlainObjects.lib) (WS := MemPromote.walk) (PS := MemPromote.lib) (RS := MemRepo.lib)
     100 (mkRepoMeta (mkRepoId 1) Sha1 (bs "main")) (request finished) None store).

(** Commit 1 is common, and bounds the walk. *)
Example negotiated :
  split_lines 100 (rp_body (serve false).1) = negotiation_lines [o x01] true true.
Proof. by vm_compute. Qed.

(** A heading, progress, data, progress and the flush. *)
Example served_lines : length (split_lines 100 (rp_body (serve true).1)) = 5.
Proof. by vm_compute. Qed.

(** [HEAD], the branch, and the capabilities on the first line. *)
Example advertised :
  match (build_advertisement (Pk := PlainPkt.lib) (Zl := StoredZlib.lib) (OB := PlainObjects.lib) (WS := MemPromote.walk)
    (PS := MemPromote.lib) (RS := MemRepo.lib) (mkRepoMeta (mkRepoId 1) Sha1 (bs "main")) store).1 with
  | Ok b => split_lines 100 b
      = upload_v0_lines [mkUploadRef (bs "HEAD") (o x03) None; mkUploadRef (bs "refs/heads/main") (o x03) None]
          (Some (bs "refs/heads/main")) Sha1
  | Err _ => False
  end.
Proof. by vm_compute. Qed.

End ClassicSample.

Import FetchSample ClassicSample.

Lemma v0_request_roundtrip_witness : parse_request (Pk := PlainPkt.lib) (body true) = Ok (request true).
Proof.
  exact (v0_request_roundtrip (Pk := PlainPkt.lib) (o x03) [] [o x01; o x21] tokens true (body true)
    ltac:(discriminate) tokens_plain eq_refl (body_written true)).
Defined.

