(* ===== verification/Server.v ===== *)
(** * Requests ([src/protocol/http.rs], [src/lib.rs], and the entry points of
    the three handlers)

    Routing, the advertisements, and the part of each handler that comes before
    its repository is known: parsing, the object format, and resolving the
    repository.  [AppStore] is the store of all repositories; each keeps the
    interfaces the handlers are proved against.  Percent-decoding of paths,
    decompression and size limits of bodies belong to the HTTP library and are
    not modelled, nor are access logs and metrics. *)

From S2P Require Import Prelude Bytes GixHash Keys Values Zlib PackDelta PackOut Store GixObject Walk Graph Discovery.
From S2P Require Import Effects Ingest Promote Repo PlanPack Pkt Errors Http Advertise Stream.
From S2P Require UploadPack ReceivePack UploadPackV0.
From stdpp Require Import gmap strings.
From Stdlib Require Import Lia.

(** ** The store of all repositories

    Ids are 64-bit.  [as_room] says that the stores are in order — what is stored
    is what the ids name, and the registry maps names to different ids — and that
    an id is left to hand out: from the last one on, the counter gives the same
    id again and again. *)
Class AppStore (Oid StoreErr ObjErr G : Type) `{OidLib Oid} {Zl : ZlibLib} : Type := {
  as_walk : RepoId -> WalkStore Oid StoreErr ObjErr G;
  as_promote : forall r, PromoteStore Oid StoreErr ObjErr G (WS := as_walk r);
  as_repo : forall r, RepoStore Oid StoreErr ObjErr G (PS := as_promote r);
  as_repos : G -> gmap bytes RepoMeta;
  as_room : G -> Prop;
  lookup_repo : bytes -> SE G StoreErr (option RepoMeta);
  get_or_create_repo : bytes -> SE G StoreErr RepoMeta;

  (** nothing of repository [r] changed *)
  as_same_repo : RepoId -> G -> G -> Prop := fun r g g' =>
    ws_same (WalkStore := as_walk r) g g' /\ ps_later (PromoteStore := as_promote r) g g'
    /\ (ps_intact (PromoteStore := as_promote r) g -> ps_intact (PromoteStore := as_promote r) g');
  as_same : G -> G -> Prop := fun g g' =>
    as_repos g' = as_repos g /\ forall r, repo_wf r -> as_same_repo r g g';
  as_others : RepoId -> G -> G -> Prop := fun r g g' =>
    as_repos g' = as_repos g /\ forall r', repo_wf r' -> r' <> r -> as_same_repo r' g g';
  (** a new id for a new name, and the new repository's [HEAD] *)
  as_created : bytes -> RepoMeta -> G -> G -> Prop := fun name meta g g' =>
    as_repos g !! name = None /\ as_repos g' = <[name := meta]> (as_repos g)
    /\ (forall n m, as_repos g !! n = Some m -> rm_id m <> rm_id meta)
    /\ (forall r, repo_wf r -> r <> rm_id meta -> as_same_repo r g g')
    /\ ws_objects (WalkStore := as_walk (rm_id meta)) g' = ws_objects (WalkStore := as_walk (rm_id meta)) g
    /\ ws_graph (WalkStore := as_walk (rm_id meta)) g' = ws_graph (WalkStore := as_walk (rm_id meta)) g
    /\ ws_refs (WalkStore := as_walk (rm_id meta)) g'
       = <[HEAD_REF := Reference (rm_default_branch meta)]> (ws_refs (WalkStore := as_walk (rm_id meta)) g)
    /\ ps_later (PromoteStore := as_promote (rm_id meta)) g g'
    /\ (ps_intact (PromoteStore := as_promote (rm_id meta)) g -> ps_intact (PromoteStore := as_promote (rm_id meta)) g');

  as_repos_wf : forall g n m, as_repos g !! n = Some m -> repo_wf (rm_id m);
  as_ids : forall g n1 n2 m1 m2, as_room g -> as_repos g !! n1 = Some m1 -> as_repos g !! n2 = Some m2 ->
    rm_id m1 = rm_id m2 -> n1 = n2;
  as_intact : forall g r, as_room g -> ps_intact (PromoteStore := as_promote r) g;
  as_isolated : forall r, repo_wf r -> RepoKeeps (RS := as_repo r) (while_intact (PS := as_promote r) (as_others r));
  lookup_repo_spec : forall name g r g', lookup_repo name g = (r, g') ->
    as_same g g' /\ forall v, r = Ok v -> v = as_repos g !! name;
  get_or_create_repo_spec : forall name g r g', as_room g -> get_or_create_repo name g = (r, g') ->
    match r with
    | Ok meta => (as_same g g' /\ as_repos g !! name = Some meta) \/ (repo_wf (rm_id meta) /\ as_created name meta g g')
    | Err _ => as_same g g' \/ exists meta, repo_wf (rm_id meta) /\ as_created name meta g g'
    end;
}.

(** [headers] as far as the server reads them: the [Git-Protocol] header. *)
Record HttpRequest : Type := mkHttpRequest {
  hr_path : bytes;
  hr_query : option bytes;
  hr_git_protocol : option bytes;
  hr_body : bytes;
}.

Inductive Method : Set := Get | Post.

Section server.
Context {PktErr : Type} {Pk : PktLib PktErr} {Oid : Type} {OL : OidLib Oid} {Zl : ZlibLib}.
Context {Digest HashErr F : Type} {PF : PackFormat Oid Digest HashErr F}.
Context {StoreErr ObjErr DecodeError G : Type} {OB : ObjectLib Oid DecodeError}.
Context {AS : AppStore Oid StoreErr ObjErr G} {CS : Classify StoreErr} {CO : Classify ObjErr}.
Context {Bundle IoErr PackErr InitErr PackDecodeErr : Type}.
Context {PL : PackLib Oid Bundle PackErr InitErr PackDecodeErr}.

(** The configuration, and the bounds on the model's loops. *)
Context (auto_create_repos : bool) (fuel gfuel : nat).

(** What happens outside: how much of a streamed response its client reads,
    and whether a received pack can be spooled. *)
Context (room : option nat) (spooling : option IoErr).

(** ** Entry points *)

Definition not_found : Response := plain NOT_FOUND (bs "repository not found").

(** The object format a request may ask for. *)
Definition unsupported_format (format : option bytes) : option bytes :=
  match format with
  | Some format => if decide (format <> bs "sha1") then Some format else None
  | None => None
  end.

(** [upload_pack::upload_pack]. *)
Definition upload_pack (repo : bytes) (git_protocol : option bytes) (body : bytes) : G -> Response * G := fun g =>
  if negb (wants_v2 git_protocol) then (UploadPack.version_error, g)
  else
    match UploadPack.parse_request body with
    | Err _ => (plain BAD_REQUEST (bs "malformed upload-pack request"), g)
    | Ok request =>
        match unsupported_format (UploadPack.rq_object_format request) with
        | Some format => (UploadPack.err_line (bs "unsupported object format: " ++ format), g)
        | None =>
            match lookup_repo repo g with
            | (Ok (Some meta), g) =>
                UploadPack.dispatch (RS := as_repo (rm_id meta)) fuel meta request room g
            | (Ok None, g) => (not_found, g)
            | (Err err, g) => (UploadPack.error_response (classify err), g)
            end
        end
    end.

(** [upload_pack_v0::upload_pack]. *)
Definition upload_pack_v0 (repo body : bytes) : G -> Response * G := fun g =>
  match UploadPackV0.parse_request body with
  | Err UploadPackV0.Filter => (UploadPack.reject_fetch (bs "filter requires protocol v2"), g)
  | Err UploadPackV0.Malformed => (UploadPackV0.malformed, g)
  | Ok request =>
      match lookup_repo repo g with
      | (Ok (Some meta), g) => UploadPackV0.upload_pack (RS := as_repo (rm_id meta)) fuel meta request room g
      | (Ok None, g) => (not_found, g)
      | (Err err, g) => (UploadPack.error_response (classify err), g)
      end
  end.

(** [receive_pack::resolve_repo]; the error is logged and dropped. *)
Definition resolve_repo (repo : bytes) : SE G unit (option RepoMeta) :=
  se_map_err (fun _ => tt)
    (if auto_create_repos then do! meta <- get_or_create_repo repo; se_ret (Some meta)
     else lookup_repo repo).

(** [receive_pack::receive_pack]. *)
Definition receive_pack (repo body : bytes) : G -> Response * G := fun g =>
  match ReceivePack.parse_request body with
  | Err _ => (plain BAD_REQUEST (bs "malformed receive-pack request"), g)
  | Ok request =>
      match resolve_repo repo g with
      | (Ok (Some meta), g) => ReceivePack.push (RS := as_repo (rm_id meta)) fuel gfuel meta spooling request g
      | (Ok None, g) => (not_found, g)
      | (Err _, g) => (internal_error, g)
      end
  end.

(** ** Advertisements *)

Definition upload_pack_advert (repo : bytes) (git_protocol : option bytes) : G -> Response * G := fun g =>
  match lookup_repo repo g with
  | (Ok (Some meta), g) =>
      if wants_v2 git_protocol then
        match advertise_upload_pack with
        | Ok body => (git_response OK UPLOAD_ADVERTISEMENT_CONTENT_TYPE body, g)
        | Err _ => (internal_error, g)
        end
      else
        match UploadPackV0.advertise (RS := as_repo (rm_id meta)) meta g with
        | (Ok body, g) => (git_response OK UPLOAD_ADVERTISEMENT_CONTENT_TYPE body, g)
        | (Err _, g) => (internal_error, g)
        end
  | (Ok None, g) => (not_found, g)
  | (Err _, g) => (internal_error, g)
  end.

Definition receive_pack_advert (repo : bytes) : G -> Response * G := fun g =>
  let answer (meta : RepoMeta) (g : G) : Response * G :=
    match rs_list_refs (RepoStore := as_repo (rm_id meta)) None g with
    | (Ok refs, g) =>
        match advertise_receive_pack refs (rm_object_format meta) with
        | Ok body => (git_response OK RECEIVE_ADVERTISEMENT_CONTENT_TYPE body, g)
        | Err _ => (internal_error, g)
        end
    | (Err _, g) => (internal_error, g)
    end in
  if auto_create_repos then
    match get_or_create_repo repo g with
    | (Ok meta, g) => answer meta g
    | (Err _, g) => (internal_error, g)
    end
  else
    match lookup_repo repo g with
    | (Ok (Some meta), g) => answer meta g
    | (Ok None, g) => (not_found, g)
    | (Err _, g) => (internal_error, g)
    end.

(** ** Routes *)

Definition bad_name : Response := plain BAD_REQUEST (bs "invalid repository name").

Definition info_refs (r : HttpRequest) : G -> Response * G := fun g =>
  match strip_endpoint (hr_path r) INFO_REFS with
  | None => (plain NOT_FOUND (bs "not found"), g)
  | Some prefix =>
      match repo_name prefix with
      | Err InvalidRepoName => (bad_name, g)
      | Ok repo =>
          match service_param (hr_query r) with
          | Some s =>
              if decide (s = SERVICE_UPLOAD_PACK) then upload_pack_advert repo (hr_git_protocol r) g
              else if decide (s = SERVICE_RECEIVE_PACK) then receive_pack_advert repo g
              else (plain BAD_REQUEST (bs "missing or unsupported service parameter"), g)
          | None => (plain BAD_REQUEST (bs "missing or unsupported service parameter"), g)
          end
      end
  end.

Definition git_rpc (r : HttpRequest) : G -> Response * G := fun g =>
  match strip_endpoint (hr_path r) RECEIVE_PACK with
  | Some prefix =>
      match repo_name prefix with
      | Ok repo => receive_pack repo (hr_body r) g
      | Err InvalidRepoName => (bad_name, g)
      end
  | None =>
      match strip_endpoint (hr_path r) UPLOAD_PACK with
      | Some prefix =>
          match repo_name prefix with
          | Ok repo =>
              if wants_v2 (hr_git_protocol r) then upload_pack repo (hr_git_protocol r) (hr_body r) g
              else upload_pack_v0 repo (hr_body r) g
          | Err InvalidRepoName => (bad_name, g)
          end
      | None => (plain NOT_FOUND (bs "not found"), g)
      end
  end.

(** The catch-all route of [app]. *)
Definition app (m : Method) (r : HttpRequest) : G -> Response * G :=
  match m with Get => info_refs r | Post => git_rpc r end.

End server.

(** ** Requests keep every repository whole *)

Section whole.
Context {PktErr : Type} {Pk : PktLib PktErr} {Oid : Type} {OL : OidLib Oid} {Zl : ZlibLib}.
Context {Digest HashErr F : Type} {PF : PackFormat Oid Digest HashErr F}.
Context {StoreErr ObjErr DecodeError G : Type} {OB : ObjectLib Oid DecodeError}.
Context {AS : AppStore Oid StoreErr ObjErr G} {CS : Classify StoreErr} {CO : Classify ObjErr}.
Context {Bundle IoErr PackErr InitErr PackDecodeErr : Type}.
Context {PL : PackLib Oid Bundle PackErr InitErr PackDecodeErr}.

Abbreviation sound_in r g := (ReceivePack.sound (DecodeError := DecodeError) (IoErr := IoErr) (PackErr := PackErr)
  (InitErr := InitErr) (PackDecodeErr := PackDecodeErr) (OB := OB) (PS := as_promote r) g).

(** What leaves a repository's objects, and gives it no direct ref, leaves it
    as sound as it was. *)
Lemma sound_kept r g g' :
  ws_objects (WalkStore := as_walk r) g' = ws_objects (WalkStore := as_walk r) g ->
  ps_later (PromoteStore := as_promote r) g g' ->
  (ps_intact (PromoteStore := as_promote r) g -> ps_intact (PromoteStore := as_promote r) g') ->
  (forall n oid, ws_refs (WalkStore := as_walk r) g' !! n = Some (Direct oid) ->
     ws_refs (WalkStore := as_walk r) g !! n = Some (Direct oid)) ->
  (graph_wf (WS := as_walk r) (OB := OB) True g -> graph_wf (WS := as_walk r) (OB := OB) True g') ->
  sound_in r g -> sound_in r g'.
Proof.
  intros Ho Hl Hi Hr Hg [[Hc Hcs] Hw Hs Hin].
  assert (Hd : forall P : gmap Oid (Kind * bytes) -> Prop,
    ReceivePack.durably (PS := as_promote r) g P -> ReceivePack.durably (PS := as_promote r) g' P).
  { intros P [H1 H2]. split; [by rewrite Ho |]. intros s [-> | Hrec]%Hl; [by rewrite Ho | auto]. }
  split; [exact (Hd _ (conj Hc Hcs)) | auto | | auto]. intros n oid Hn. apply Hd, (Hs n oid), Hr, Hn.
Qed.

Lemma sound_same_repo r g g' : as_same_repo r g g' -> sound_in r g -> sound_in r g'.
Proof.
  intros ((Ho & Hg & Hr) & Hl & Hi). apply sound_kept; [done.. | by rewrite Hr |]. unfold graph_wf. by rewrite Ho, Hg.
Qed.

Lemma sound_served r g g' rank :
  served (PS := as_promote r) (OB := OB) g g' -> ranked (ws_objects (WalkStore := as_walk r) g) rank ->
  sound_in r g -> sound_in r g'.
Proof. intros ([[Ho Hr] Hl] & Hi & Hg) Hrk. apply sound_kept; [done.. | by rewrite Hr | by apply (Hg rank)]. Qed.

Lemma sound_created name meta g g' r :
  repo_wf r -> as_created name meta g g' -> sound_in r g -> sound_in r g'.
Proof.
  intros Hr (_ & _ & _ & Hoth & Ho & Hg & Hrefs & Hl & Hi). destruct (decide (r = rm_id meta)) as [-> | Hne].
  - apply sound_kept; [done.. | | unfold graph_wf; by rewrite Ho, Hg]. intros n oid. rewrite Hrefs, lookup_insert.
    by case_decide.
  - apply sound_same_repo, Hoth; done.
Qed.


(** The repository a request names. *)
Definition requested (m : Method) (r : HttpRequest) : option bytes :=
  let endpoint :=
    match m with
    | Get => strip_endpoint (hr_path r) INFO_REFS
    | Post => match strip_endpoint (hr_path r) RECEIVE_PACK with
              | Some prefix => Some prefix
              | None => strip_endpoint (hr_path r) UPLOAD_PACK
              end
    end in
  prefix ← endpoint; match repo_name prefix with Ok name => Some name | Err _ => None end.

(** A request reached the repository [meta] under [name], there or created for
    it. *)
Definition entered (name : bytes) (meta : RepoMeta) (g g1 : G) : Prop :=
  repo_wf (rm_id meta)
  /\ ((as_same g g1 /\ as_repos g !! name = Some meta) \/ as_created name meta g g1).

Lemma lookup_entered name g meta g1 : lookup_repo name g = (Ok (Some meta), g1) -> entered name meta g g1.
Proof.
  intros E. apply lookup_repo_spec in E as [Hs Hr]. specialize (Hr _ eq_refl). symmetry in Hr.
  split; [by eapply as_repos_wf | by left].
Qed.

Context (auto_create_repos : bool) (fuel gfuel : nat) (room : option nat) (spooling : option IoErr).

(** The body of a push. *)
Definition push_body (m : Method) (r : HttpRequest) : option bytes :=
  match m, strip_endpoint (hr_path r) RECEIVE_PACK with
  | Post, Some _ => Some (hr_body r)
  | _, _ => None
  end.

(** What was done in it: a read, or a push, if the request has a body for one. *)
Inductive answered (body : option bytes) (meta : RepoMeta) (g : G) (resp : Response) (g' : G) : Prop :=
  | answered_read :
      served (OB := OB) (PS := as_promote (rm_id meta)) g g' ->
      while_intact (PS := as_promote (rm_id meta)) (as_others (rm_id meta)) g g' -> answered body meta g resp g'
  | answered_push b request :
      body = Some b -> ReceivePack.parse_request b = Ok request ->
      (resp, g') = ReceivePack.push (RS := as_repo (rm_id meta)) (OB := OB) fuel gfuel meta spooling request g ->
      answered body meta g resp g'.

(** What a request comes to. *)
Definition handled (name : bytes) (body : option bytes) (g : G) (out : Response * G) : Prop :=
  as_same g out.2 \/ exists meta g1, entered name meta g g1 /\ answered body meta g1 out.1 out.2.

Lemma serve_others r : repo_wf r -> ServeKeeps (OB := OB) (RS := as_repo r) (while_intact (PS := as_promote r) (as_others r)).
Proof. intros Hr. pose proof (as_isolated r Hr) as HI. apply _. Qed.

(** A handler that reads, in the repository it was let into. *)
Lemma handled_read {X} name body meta (f : G -> X * G) resp g g1 :
  entered name meta g g1 ->
  (forall P, ServeKeeps (OB := OB) (RS := as_repo (rm_id meta)) P -> kept P f) -> handled name body g (resp, (f g1).2).
Proof.
  intros He Hf. right. exists meta, g1. split; [done |]. apply answered_read.
  - exact (Hf _ served_keeps g1).
  - exact (Hf _ (serve_others _ (proj1 He)) g1).
Qed.

Lemma as_same_refl g : as_same g g.
Proof. split; [done |]. intros r _. split; [by repeat split | split; [| done]]. intros s. by right. Qed.

Lemma lookup_same name g r g' : lookup_repo name g = (r, g') -> as_same g g'.
Proof. intros E. by apply lookup_repo_spec in E as [? _]. Qed.

Hint Resolve as_same_refl lookup_same : core.

Lemma upload_pack_handled name git_protocol body g :
  handled name None g (upload_pack fuel room name git_protocol body g).
Proof.
  unfold upload_pack. destruct (negb _); [by left; cbn; auto |].
  destruct (UploadPack.parse_request body) as [request |]; [| by left; cbn; auto].
  destruct (unsupported_format _); [by left; cbn; auto |].
  destruct (lookup_repo name g) as [[[meta |] | e] g1] eqn:E; [| by left; cbn; eauto..].
  rewrite (surjective_pairing (UploadPack.dispatch _ _ _ _ _)).
  apply (handled_read name None meta (UploadPack.dispatch (RS := as_repo (rm_id meta)) fuel meta request room) _ g g1);
    [by apply lookup_entered |]. intros P HP. apply UploadPack.kept_dispatch, HP.
Qed.

Lemma upload_pack_v0_handled name body g :
  handled name None g (upload_pack_v0 fuel room name body g).
Proof.
  unfold upload_pack_v0. destruct (UploadPackV0.parse_request body) as [request | []]; [| by left; cbn; auto..].
  destruct (lookup_repo name g) as [[[meta |] | e] g1] eqn:E; [| by left; cbn; eauto..].
  rewrite (surjective_pairing (UploadPackV0.upload_pack _ _ _ _ _)).
  apply (handled_read name None meta (UploadPackV0.upload_pack (RS := as_repo (rm_id meta)) fuel meta request room) _ g g1);
    [by apply lookup_entered |]. intros P HP. apply UploadPackV0.kept_upload_pack_v0, HP.
Qed.

(** Resolving a repository, creating it if the server is to. *)
Lemma resolve_entered name g r g1 :
  as_room g -> resolve_repo auto_create_repos name g = (r, g1) ->
  match r with
  | Ok (Some meta) => entered name meta g g1
  | _ => as_same g g1 \/ exists meta, entered name meta g g1
  end.
Proof.
  intros Hroom. unfold resolve_repo, se_map_err. destruct auto_create_repos.
  - unfold se_bind. destruct (get_or_create_repo name g) as [r0 g0] eqn:E. apply get_or_create_repo_spec in E; [| done].
    destruct r0 as [meta | e]; intros [= <- <-]; cbn.
    + destruct E as [[Hs Hl] | [Hw Hc]]; (split; [| auto]); [by eapply as_repos_wf | done].
    + destruct E as [Hs | (meta & Hw & Hc)]; [by left | right]. exists meta. split; auto.
  - destruct (lookup_repo name g) as [r0 g0] eqn:E. intros [= <- <-].
    destruct r0 as [[meta |] | e]; cbn; [by apply lookup_entered | left; by eapply lookup_same..].
Qed.

Lemma served_refl r g : served (PS := as_promote r) (OB := OB) g g.
Proof. apply (reflexivity (R := served (PS := as_promote r) (OB := OB))). Qed.

(** Stopped once there. *)
Lemma handled_stopped name body resp g g1 :
  (as_same g g1 \/ exists meta, entered name meta g g1) -> handled name body g (resp, g1).
Proof.
  intros [Hs | (meta & He)]; [by left | right]. exists meta, g1. split; [done |]. apply answered_read; [apply served_refl |].
  pose proof (as_isolated _ (proj1 He)) as HI.
  apply (wk_order (P := while_intact (PS := as_promote (rm_id meta)) (as_others (rm_id meta))) (WS := as_walk (rm_id meta))).
Qed.

Lemma receive_pack_handled name body g :
  as_room g -> handled name (Some body) g (receive_pack auto_create_repos fuel gfuel spooling name body g).
Proof.
  intros Hroom. unfold receive_pack. destruct (ReceivePack.parse_request body) as [request |] eqn:Ep; [| by left; cbn; auto].
  destruct (resolve_repo auto_create_repos name g) as [r g1] eqn:E. apply resolve_entered in E; [| done].
  destruct r as [[meta |] | e]; [| by apply handled_stopped..].
  right. exists meta, g1. split; [done |]. apply (answered_push (Some body) meta g1 _ _ body request); [done.. |]. by rewrite <- surjective_pairing.
Qed.

Lemma upload_advert_handled name git_protocol g :
  handled name None g (upload_pack_advert name git_protocol g).
Proof.
  unfold upload_pack_advert. destruct (lookup_repo name g) as [[[meta |] | e] g1] eqn:E; [| by left; cbn; eauto..].
  destruct (wants_v2 git_protocol).
  { destruct advertise_upload_pack; apply handled_stopped; right; exists meta; by apply lookup_entered. }
  pose proof (fun resp => handled_read name None meta (UploadPackV0.advertise (RS := as_repo (rm_id meta)) meta) resp g g1
    (lookup_entered _ _ _ _ E) (fun P HP => UploadPackV0.kept_advertise P meta)) as H.
  destruct (UploadPackV0.advertise meta g1) as [[resp | e] g2]; apply H.
Qed.

Lemma receive_advert_handled name g :
  as_room g -> handled name None g (receive_pack_advert auto_create_repos name g).
Proof.
  intros Hroom. assert (Hans : forall meta g1 resp, entered name meta g g1 ->
    handled name None g (resp, (rs_list_refs (RepoStore := as_repo (rm_id meta)) None g1).2)).
  { intros meta g1 resp He. apply (handled_read name None meta (rs_list_refs (RepoStore := as_repo (rm_id meta)) None) resp g g1 He).
    intros P HP. apply sk_list_refs. }
  assert (Hlist : forall meta g1, entered name meta g g1 -> handled name None g
    (match rs_list_refs (RepoStore := as_repo (rm_id meta)) None g1 with
     | (Ok refs, g) => match advertise_receive_pack refs (rm_object_format meta) with
                       | Ok body => (git_response OK RECEIVE_ADVERTISEMENT_CONTENT_TYPE body, g)
                       | Err _ => (internal_error, g)
                       end
     | (Err _, g) => (internal_error, g)
     end)).
  { intros meta g1 He. pose proof (fun resp => Hans meta g1 resp He) as Hans1.
    destruct (rs_list_refs None g1) as [[refs | e] g2]; [| apply Hans1].
    destruct (advertise_receive_pack refs (rm_object_format meta)); apply Hans1. }
  unfold receive_pack_advert. pose proof (resolve_entered name g) as Hres. unfold resolve_repo, se_map_err, se_bind in Hres.
  destruct auto_create_repos.
  - destruct (get_or_create_repo name g) as [[meta | e] g1]; specialize (Hres _ _ Hroom eq_refl); cbn in Hres.
    + by apply Hlist.
    + by apply handled_stopped.
  - destruct (lookup_repo name g) as [[[meta |] | e] g1]; specialize (Hres _ _ Hroom eq_refl); cbn in Hres.
    + by apply Hlist.
    + by apply handled_stopped.
    + by apply handled_stopped.
Qed.

(** Every request is refused, or handled in the repository it names. *)
Lemma app_handled m r g :
  as_room g ->
  let out := app auto_create_repos fuel gfuel room spooling m r g in
  out.2 = g \/ exists name, requested m r = Some name /\ handled name (push_body m r) g out.
Proof.
  intros Hroom. unfold app, requested, push_body. destruct m.
  - unfold info_refs. destruct (strip_endpoint (hr_path r) INFO_REFS) as [prefix |]; [| by left]. cbn [mbind option_bind].
    destruct (repo_name prefix) as [name | []]; [| by left]. destruct (service_param (hr_query r)) as [s |]; [| by left].
    case_decide; [right; exists name; split; [done | apply upload_advert_handled] |].
    case_decide; [right; exists name; split; [done | by apply receive_advert_handled] | by left].
  - unfold git_rpc. destruct (strip_endpoint (hr_path r) RECEIVE_PACK) as [prefix |].
    + cbn [mbind option_bind]. destruct (repo_name prefix) as [name | []]; [| by left].
      right. exists name. split; [done | by apply receive_pack_handled].
    + destruct (strip_endpoint (hr_path r) UPLOAD_PACK) as [prefix |]; [| by left]. cbn [mbind option_bind].
      destruct (repo_name prefix) as [name | []]; [| by left].
      right. exists name. split; [done |].
      destruct (wants_v2 (hr_git_protocol r)); [apply upload_pack_handled | apply upload_pack_v0_handled].
Qed.


(** *** Isolation *)

(** What a push asks of the outside world, in the repository it is for. *)
Definition fit_request (m : Method) (r : HttpRequest) (g : G) : Prop := forall name b request meta g1,
  requested m r = Some name -> push_body m r = Some b -> ReceivePack.parse_request b = Ok request ->
  entered name meta g g1 ->
  ReceivePack.pushable (IoErr := IoErr) (StoreErr := StoreErr) (ObjErr := ObjErr) (OB := OB) (PS := as_promote (rm_id meta)) fuel gfuel
    meta request (ws_objects (WalkStore := as_walk (rm_id meta)) g).

Lemma entered_objects name meta g g1 :
  entered name meta g g1 ->
  ws_objects (WalkStore := as_walk (rm_id meta)) g1 = ws_objects (WalkStore := as_walk (rm_id meta)) g.
Proof.
  intros [Hw [[[_ Hs] _] | (_ & _ & _ & _ & Ho & _)]]; [| done]. destruct (Hs _ Hw) as ((Ho & _) & _). exact Ho.
Qed.

Lemma entered_intact name meta g g1 :
  as_room g -> entered name meta g g1 -> ps_intact (PromoteStore := as_promote (rm_id meta)) g1.
Proof.
  intros Hroom [Hw [[[_ Hs] _] | (_ & _ & _ & _ & _ & _ & _ & _ & Hi)]]; [| by apply Hi, as_intact].
  destruct (Hs _ Hw) as (_ & _ & Hi). by apply Hi, as_intact.
Qed.

(** What was done in a repository stays in it. *)
Lemma answered_others name meta m r g g1 resp g' :
  requested m r = Some name -> as_room g -> fit_request m r g -> entered name meta g g1 ->
  answered (push_body m r) meta g1 resp g' -> as_others (rm_id meta) g1 g'.
Proof.
  intros Hn Hroom Hfit He Ha. pose proof (entered_intact _ _ _ _ Hroom He) as Hi.
  destruct Ha as [Hs Ho | b request Hb Hp E]; [by apply Ho |].
  pose proof (as_isolated _ (proj1 He)) as HI. destruct (Hfit name b request meta g1 Hn Hb Hp He) as [Hix Hpack].
  pose proof (ReceivePack.kept_push (RK := HI) (while_intact (PS := as_promote (rm_id meta)) (as_others (rm_id meta)))
    fuel gfuel meta spooling request g1) as H.
  rewrite <- E in H. apply H; [| done..]. intros s Hst. rewrite (entered_objects _ _ _ _ He) in Hst. by apply Hpack.
Qed.

Lemma same_repo_trans r a b c : as_same_repo r a b -> as_same_repo r b c -> as_same_repo r a c.
Proof.
  intros ((? & ? & ?) & L1 & I1) ((Ho & ? & ?) & L2 & I2). split; [split_and!; congruence |]. split; [| auto].
  intros s [-> | [-> | Hs]%L1]%L2; [by left | left; congruence | by right].
Qed.

(** C5: a request touches the repository it names and no other: whatever the
    request and however it ends, every repository of another name is still
    registered as it was, with the same objects, refs and commit graph, and a
    crash could leave nothing of it that it could not have left before. *)
Theorem app_isolated m r g name meta :
  as_room g -> fit_request m r g -> as_repos g !! name = Some meta -> requested m r <> Some name ->
  let '(_, g') := app auto_create_repos fuel gfuel room spooling m r g in
  as_repos g' !! name = Some meta /\ as_same_repo (rm_id meta) g g'.
Proof.
  intros Hroom Hfit Hl Hne. pose proof (app_handled m r g Hroom) as H. destruct (app _ _ _ _ _ m r g) as [resp g'].
  cbn [fst snd] in H. pose proof (as_repos_wf g name meta Hl) as Hw.
  assert (Hrefl : as_same_repo (rm_id meta) g g) by (by apply as_same_refl).
  destruct H as [-> | (name' & Hn' & [[Hr Hs] | (meta' & g1 & He & Ha)])]; [done | cbn in Hr; rewrite Hr; auto |].
  assert (name <> name') as Hnn by congruence.
  destruct (answered_others name' meta' m r g g1 resp g' Hn' Hroom Hfit He Ha) as [Hr1 Ho1].
  destruct He as [Hw' [[[Hr Hs] Hl'] | (Hnone & Hr & Hfresh & Hoth & _)]].
  - assert (rm_id meta <> rm_id meta') as Hid by (intros E; by apply Hnn, (as_ids g name name' meta meta')).
    rewrite Hr1, Hr. split; [done |]. eapply same_repo_trans; [by apply Hs | by apply Ho1].
  - assert (rm_id meta <> rm_id meta') as Hid by (by eapply Hfresh).
    rewrite Hr1, Hr, lookup_insert_ne by done. split; [done |].
    eapply same_repo_trans; [by apply Hoth | by apply Ho1].
Qed.

(** *** Soundness *)

(** What a push asks of its pack's order, if it may be cut short. *)
Definition ordered_request (m : Method) (r : HttpRequest) (g : G) : Prop := forall name b request meta g1,
  requested m r = Some name -> push_body m r = Some b -> ReceivePack.parse_request b = Ok request ->
  entered name meta g g1 ->
  ReceivePack.ordered (IoErr := IoErr) (StoreErr := StoreErr) (ObjErr := ObjErr) (OB := OB)
    meta request (ws_objects (WalkStore := as_walk (rm_id meta)) g).

Definition app_sound (g : G) : Prop := forall r, repo_wf r -> sound_in r g.

(** No repository's history is circular, or too deep for a generation. *)
Definition histories (g : G) : Prop := forall r, repo_wf r -> exists rank, ranked (OB := OB) (ws_objects (WalkStore := as_walk r) g) rank.

Lemma sound_entered name meta g g1 r :
  repo_wf r -> entered name meta g g1 -> sound_in r g -> sound_in r g1.
Proof.
  intros Hr [Hw [[[_ Hs] _] | Hc]]; [by apply sound_same_repo, Hs | by eapply sound_created].
Qed.

Lemma sound_answered {IS : Internal StoreErr} {IO : Internal ObjErr} name meta m r g g1 resp g' :
  requested m r = Some name -> fit_request m r g -> resp <> internal_error \/ ordered_request m r g ->
  histories g -> entered name meta g g1 ->
  answered (push_body m r) meta g1 resp g' -> sound_in (rm_id meta) g1 -> sound_in (rm_id meta) g'.
Proof.
  intros Hn Hfit Hor Hh He [Hs Ho | b request Hb Hp E] Hsound.
  - destruct (Hh _ (proj1 He)) as [rank Hrank]. eapply sound_served; [exact Hs | | done].
    by rewrite (entered_objects _ _ _ _ He).
  - pose proof (Hfit name b request meta g1 Hn Hb Hp He) as Hpush. rewrite <- (entered_objects _ _ _ _ He) in Hpush.
    pose proof (ReceivePack.push_spec (RS := as_repo (rm_id meta)) fuel gfuel meta spooling request g1 Hpush (ReceivePack.so_graph _ Hsound)) as H.
    rewrite <- E in H. apply (proj2 H); [done |]. rewrite (entered_objects _ _ _ _ He).
    destruct Hor as [Hne | Hord]; [by left | right]. by eapply Hord.
Qed.

(** A request keeps every repository sound, the one it may create included,
    if its pack is in order or it is not answered with a server error. *)
Lemma app_keeps_sound {IS : Internal StoreErr} {IO : Internal ObjErr} m r g :
  as_room g -> fit_request m r g -> histories g -> app_sound g ->
  let '(resp, g') := app auto_create_repos fuel gfuel room spooling m r g in
  resp <> internal_error \/ ordered_request m r g -> app_sound g'.
Proof.
  intros Hroom Hfit Hh Hs. pose proof (app_handled m r g Hroom) as H.
  destruct (app _ _ _ _ _ m r g) as [resp g']. cbn [fst snd] in *. intros Hor.
  destruct H as [-> | (name & Hn & [[_ Hsame] | (meta & g1 & He & Ha)])]; [done | |]; intros id Hid.
  - apply (sound_same_repo id g g'); auto.
  - pose proof (sound_entered name meta g g1 id Hid He (Hs id Hid)) as H1.
    destruct (decide (id = rm_id meta)) as [-> | Hne]; [by eapply sound_answered |].
    destruct (answered_others name meta m r g g1 resp g' Hn Hroom Hfit He Ha) as [_ Ho].
    eapply sound_same_repo; [by apply Ho | done].
Qed.

End whole.
