(* ===== verification/Backend.v ===== *)
(** * The stores behind the handlers

    The handlers are proved over interfaces ([WalkStore], [PromoteStore],
    [RepoStore], [AppStore]).  This file discharges them for the code that runs
    behind them: [Store] and [ObjectDb] over SlateDB and an object store, one
    writer at a time.  The state is that of the two stores, whatever they hold;
    what a repository holds is read off it the way the code reads it.  [inv] is
    the invariant the operations keep, for the contents now and for all those a
    crash may leave: records hold the content their ids name, blobs included,
    and the registry is sound. *)

From S2P Require Import Prelude Bytes GixHash Keys Values Zlib SlateDb Store GixObject Walk Effects Promote Repo Quiet ObjectDb.
From stdpp Require Import gmap strings.
From Stdlib Require Import Lia.

(** ** What the contents hold *)

Section keyed.
Context {A B : Type} `{Countable A} (enc : A -> bytes) (dec : bytes -> option A) (f : A -> bytes -> option B).
Context (dec_enc : forall a, dec (enc a) = Some a) (dec_Some : forall k a, dec k = Some a -> k = enc a).

(** The entries of [m] whose keys encode an [A], read by [f]. *)
Definition keyed (m : Contents) : gmap A B :=
  list_to_map (omap (fun kv => a ← dec kv.1; b ← f a kv.2; Some (a, b)) (map_to_list m)).

Lemma keyed_lookup m a : keyed m !! a = m !! enc a ≫= f a.
Proof using dec_enc dec_Some.
  unfold keyed. apply option_eq. intros b.
  set (l := omap _ _).
  assert (Hin : forall a b, (a, b) ∈ l <-> exists v, m !! enc a = Some v /\ f a v = Some b).
  { intros a' b'. unfold l. rewrite list_elem_of_omap. split.
    - intros ([k v] & Hkv & E). apply elem_of_map_to_list in Hkv. cbn in E.
      destruct (dec k) as [a0 |] eqn:Ed; [| done]. cbn in E. destruct (f a0 v) as [b0 |] eqn:Ef; [| done].
      injection E as -> ->. apply dec_Some in Ed as ->. by exists v.
    - intros (v & Hv & Hf). exists (enc a', v). rewrite elem_of_map_to_list. split; [done |]. cbn.
      by rewrite dec_enc; cbn; rewrite Hf. }
  assert (Hfun : forall a b b', (a, b) ∈ l -> (a, b') ∈ l -> b = b').
  { intros a' b1 b2 (v & Hv & H1)%Hin (v' & Hv' & H2)%Hin. congruence. }
  transitivity ((a, b) ∈ l).
  - split; [apply elem_of_list_to_map_2 |]. intros Hab.
    destruct (list_to_map l !! a) as [b' |] eqn:E.
    + f_equal. eapply Hfun; [by apply elem_of_list_to_map_2 | done].
    + exfalso. apply (not_elem_of_list_to_map_2 (M := gmap A) l a E). apply list_elem_of_fmap. by exists (a, b).
  - rewrite Hin. destruct (m !! enc a) as [v |]; cbn.
    + split; [by intros (v' & [= <-] & ?) | by exists v].
    + split; [by intros (v' & ? & _) | done].
Qed.

End keyed.

(** Keys of different repositories, segments or names differ. *)
Lemma key_inj r s x r' s' y :
  repo_wf r -> repo_wf r' -> encode_preamble [] r s ++ x = encode_preamble [] r' s' ++ y ->
  r = r' /\ s = s' /\ x = y.
Proof. apply encode_preamble_inj. Qed.

(** The rest of a key of repository [r] and segment [s]. *)
Definition key_rest (r : RepoId) (s : Segment) (k : bytes) : option bytes := Prelude.strip_prefix (segment_prefix r s) k.

Section contents.
Context {Oid : Type} {OL : OidLib Oid} {Zl : ZlibLib}.

Definition dec_oid_key (r : RepoId) (s : Segment) (k : bytes) : option Oid := key_rest r s k ≫= oid_try_from.

Lemma dec_oid_key_enc r s (o : Oid) : dec_oid_key r s (segment_prefix r s ++ oid_bytes o) = Some o.
Proof. unfold dec_oid_key, key_rest. rewrite Prelude.strip_prefix_app. cbn. apply oid_try_from_bytes. Qed.

Lemma dec_oid_key_Some r s k (o : Oid) : dec_oid_key r s k = Some o -> k = segment_prefix r s ++ oid_bytes o.
Proof.
  unfold dec_oid_key, key_rest. destruct (Prelude.strip_prefix _ k) as [rest |] eqn:E; [| done]. cbn.
  apply Prelude.strip_prefix_Some in E as ->. by intros <-%oid_try_from_sound.
Qed.

(** What a record's stream, in it or beside it, inflates to.  A stream that is
    missing or does not inflate is reported as an error by every read of the
    content; zeros of the recorded length stand for it. *)
Definition record_content (blobs : gmap bytes bytes) (o : Oid) (record : ObjectRecord) : bytes :=
  let stream := match record with
                | BlobPointer _ => blobs !! blob_path o
                | BlobInline _ z | Tree _ z | Commit _ z | Tag _ z => Some z
                end in
  default (replicate (Z.to_nat (record_size record)) x00) (z ← stream; inflate z (record_size record)).

Definition read_object (blobs : gmap bytes bytes) (o : Oid) (v : bytes) : option (Kind * bytes) :=
  match record_decode v with
  | Ok record => Some (record_kind record, record_content blobs o record)
  | Err _ => Some (KBlob, [])
  end.

(** The objects, commit-graph records and refs of a repository; a value that
    does not decode is reported as an error by every read of it, so what it
    stands for here is never seen. *)
Definition objects_of (blobs : gmap bytes bytes) (r : RepoId) (m : Contents) : gmap Oid (Kind * bytes) :=
  keyed (dec_oid_key r Object) (read_object blobs) m.

Definition read_graph (o : Oid) (v : bytes) : option (CommitGraphRecord Oid) :=
  match graph_decode v (oid_kind o) with Ok rec => Some rec | Err _ => Some (mkCommitGraph 0 o []) end.

Definition graph_of (r : RepoId) (m : Contents) : gmap Oid (CommitGraphRecord Oid) :=
  keyed (dec_oid_key r CommitGraph) read_graph m.

Definition read_target (_ : bytes) (v : bytes) : option (RefTarget Oid) :=
  match target_decode v with Ok t => Some t | Err _ => None end.

Definition refs_of (r : RepoId) (m : Contents) : gmap bytes (RefTarget Oid) := keyed (key_rest r Ref) read_target m.

Lemma objects_lookup blobs r m (o : Oid) : objects_of blobs r m !! o = m !! object_key r o ≫= read_object blobs o.
Proof.
  exact (keyed_lookup (fun o => object_key r o) (dec_oid_key r Object) (read_object blobs) (dec_oid_key_enc r Object)
    (dec_oid_key_Some r Object) m o).
Qed.

Lemma objects_present blobs r m (o : Oid) : is_Some (objects_of blobs r m !! o) <-> is_Some (m !! object_key r o).
Proof.
  rewrite objects_lookup. destruct (m !! object_key r o) as [v |]; cbn; [| done].
  unfold read_object. destruct (record_decode v); split; eauto.
Qed.

(** What a record gives back, when the reads of it succeed. *)
Lemma record_content_read blobs o record z content :
  match record with
  | BlobPointer _ => blobs !! blob_path o = Some z
  | BlobInline _ s | Tree _ s | Commit _ s | Tag _ s => z = s
  end ->
  inflate z (record_size record) = Some content -> record_content blobs o record = content.
Proof. intros Hz Hi. unfold record_content. destruct record; subst; try rewrite Hz; cbn [mbind option_bind]; by rewrite Hi. Qed.

Lemma record_content_length blobs o record :
  record_wf record -> Z.of_nat (length (record_content blobs o record)) = record_size record.
Proof.
  intros Hwf. unfold record_content. set (stream := match record with BlobPointer _ => _ | _ => _ end).
  destruct (stream ≫= _) as [content |] eqn:E; cbn.
  - destruct stream as [z |]; [| done]. by apply inflate_length in E.
  - rewrite length_replicate. unfold record_wf, is_u64 in Hwf. lia.
Qed.

(** Records that hold what their ids name give it back. *)
Lemma read_held names blobs (o : Oid) record :
  holds names blobs o record -> read_object blobs o (record_encode record) = Some (names o).
Proof.
  intros (Hwf & Hk & Hs & z & Hz & Hi). unfold read_object. rewrite (proj1 (record_codec [] record) Hwf), Hk.
  rewrite (record_content_read blobs o record z (names o).2); [by destruct (names o) | done..].
Qed.

Lemma objects_named names blobs r m (o : Oid) :
  repo_wf r -> objects_ok names m blobs -> objects_of blobs r m !! o = (fun _ => names o) <$> m !! object_key r o.
Proof.
  intros Hr Hok. rewrite objects_lookup. destruct (m !! object_key r o) as [v |] eqn:E; [| done].
  destruct (Hok r o v Hr E) as (record & -> & Hh). by apply read_held.
Qed.

Lemma graph_lookup r m (o : Oid) : graph_of r m !! o = m !! commit_key r o ≫= read_graph o.
Proof.
  exact (keyed_lookup (fun o => commit_key r o) (dec_oid_key r CommitGraph) read_graph (dec_oid_key_enc r CommitGraph)
    (dec_oid_key_Some r CommitGraph) m o).
Qed.

Lemma refs_lookup r m n : refs_of r m !! n = m !! ref_key r n ≫= read_target n.
Proof.
  apply (keyed_lookup (fun n => ref_key r n) (key_rest r Ref) read_target).
  - intros a. apply Prelude.strip_prefix_app.
  - intros k a E. by apply Prelude.strip_prefix_Some in E.
Qed.

(** Contents that agree on a repository's keys hold the same of it. *)
Lemma objects_agree blobs r m m' :
  (forall o : Oid, m' !! object_key r o = m !! object_key r o) -> objects_of blobs r m' = objects_of blobs r m.
Proof. intros H. apply map_eq. intros o. by rewrite !objects_lookup, H. Qed.

Lemma graph_agree r m m' :
  (forall o : Oid, m' !! commit_key r o = m !! commit_key r o) -> graph_of r m' = graph_of r m.
Proof. intros H. apply map_eq. intros o. by rewrite !graph_lookup, H. Qed.

Lemma refs_agree r m m' : (forall n, m' !! ref_key r n = m !! ref_key r n) -> refs_of r m' = refs_of r m.
Proof. intros H. apply map_eq. intros n. by rewrite !refs_lookup, H. Qed.

(** A repository's contents, all three. *)
Definition same_contents (blobs : gmap bytes bytes) (r : RepoId) (m m' : Contents) : Prop :=
  objects_of blobs r m' = objects_of blobs r m /\ graph_of r m' = graph_of r m /\ refs_of r m' = refs_of r m.

Lemma contents_agree blobs r m m' :
  (forall s x, s <> Meta -> m' !! (segment_prefix r s ++ x) = m !! (segment_prefix r s ++ x)) -> same_contents blobs r m m'.
Proof.
  intros H. split; [| split]; [apply objects_agree | apply graph_agree | apply refs_agree]; intros x; by apply H.
Qed.

(** A write under a key of one repository is not seen by another. *)
Lemma insert_elsewhere blobs r r' s x v m :
  repo_wf r -> repo_wf r' -> r <> r' -> same_contents blobs r' m (<[segment_prefix r s ++ x := v]> m).
Proof.
  intros Hr Hr' Hne. apply contents_agree. intros s' y _. apply lookup_insert_ne.
  intros (E & _)%key_inj; done.
Qed.

Lemma delete_elsewhere blobs r r' s x m :
  repo_wf r -> repo_wf r' -> r <> r' -> same_contents blobs r' m (delete (segment_prefix r s ++ x) m).
Proof.
  intros Hr Hr' Hne. apply contents_agree. intros s' y _. apply lookup_delete_ne.
  intros (E & _)%key_inj; done.
Qed.

Lemma same_contents_trans blobs r a b c :
  same_contents blobs r a b -> same_contents blobs r b c -> same_contents blobs r a c.
Proof. unfold same_contents. intros (E1 & E2 & E3) (F1 & F2 & F3). split_and!; congruence. Qed.

Lemma objects_put blobs r m (o : Oid) v kb :
  repo_wf r -> read_object blobs o v = Some kb ->
  objects_of blobs r (<[object_key r o := v]> m) = <[o := kb]> (objects_of blobs r m)
    /\ graph_of r (<[object_key r o := v]> m) = graph_of r m
    /\ refs_of r (<[object_key r o := v]> m) = refs_of r m.
Proof.
  intros Hr Hv. split; [| split].
  - apply map_eq. intros p. rewrite objects_lookup. destruct (decide (o = p)) as [<- | Hne].
    + by rewrite !lookup_insert_eq.
    + rewrite !lookup_insert_ne, objects_lookup; [done | done |].
      intros (_ & _ & E)%key_inj; [| done..]. by apply oid_bytes_inj in E.
  - apply graph_agree. intros p. apply lookup_insert_ne. intros (_ & E & _)%key_inj; done.
  - apply refs_agree. intros p. apply lookup_insert_ne. intros (_ & E & _)%key_inj; done.
Qed.

(** A blob uploaded for an object without a record is not seen. *)
Lemma objects_blob blobs r m (o : Oid) z :
  m !! object_key r o = None -> objects_of (<[blob_path o := z]> blobs) r m = objects_of blobs r m.
Proof.
  intros Hn. apply map_eq. intros p. rewrite !objects_lookup. destruct (decide (o = p)) as [<- | Hne]; [by rewrite Hn |].
  destruct (m !! object_key r p) as [v |]; [| done]. cbn. unfold read_object. destruct (record_decode v) as [rec |]; [| done].
  do 2 f_equal. unfold record_content. destruct rec; try done.
  rewrite lookup_insert_ne; [done |]. by intros E%blob_path_inj.
Qed.

Lemma graph_put blobs r m (o : Oid) v rec :
  repo_wf r -> read_graph o v = Some rec ->
  graph_of r (<[commit_key r o := v]> m) = <[o := rec]> (graph_of r m)
    /\ objects_of blobs r (<[commit_key r o := v]> m) = objects_of blobs r m /\ refs_of r (<[commit_key r o := v]> m) = refs_of r m.
Proof.
  intros Hr Hrec. split; [| split].
  - apply map_eq. intros p. rewrite graph_lookup. destruct (decide (o = p)) as [<- | Hne].
    + by rewrite !lookup_insert_eq.
    + rewrite !lookup_insert_ne, graph_lookup; [done | done |].
      intros (_ & _ & E)%key_inj; [| done..]. by apply oid_bytes_inj in E.
  - apply objects_agree. intros p. apply lookup_insert_ne. intros (_ & E & _)%key_inj; done.
  - apply refs_agree. intros p. apply lookup_insert_ne. intros (_ & E & _)%key_inj; done.
Qed.

(** Setting or deleting a ref. *)
Lemma refs_set blobs r m n (new : option Oid) :
  repo_wf r ->
  refs_of r (set_ref r n new m) = match new with Some o => <[n := Direct o]> (refs_of r m) | None => delete n (refs_of r m) end
    /\ objects_of blobs r (set_ref r n new m) = objects_of blobs r m /\ graph_of r (set_ref r n new m) = graph_of r m.
Proof.
  intros Hr.
  assert (Hframe : forall k, k <> ref_key r n -> set_ref r n new m !! k = m !! k) by (intros k; apply set_ref_ne).
  split; [| split].
  - apply map_eq. intros p. rewrite refs_lookup. destruct (decide (n = p)) as [<- | Hne].
    + unfold set_ref. destruct new as [o |]; [rewrite !lookup_insert_eq | by rewrite !lookup_delete_eq].
      cbn [mbind option_bind]. unfold read_target. by rewrite (proj1 (target_codec [] (Direct o)) I).
    + rewrite Hframe by (by intros E%ref_key_inj).
      destruct new; [rewrite lookup_insert_ne by done | rewrite lookup_delete_ne by done]; by rewrite refs_lookup.
  - apply objects_agree. intros p. apply Hframe. intros (_ & E & _)%key_inj; done.
  - apply graph_agree. intros p. apply Hframe. intros (_ & E & _)%key_inj; done.
Qed.

Lemma set_ref_elsewhere blobs r r' m n (new : option Oid) :
  repo_wf r -> repo_wf r' -> r <> r' -> same_contents blobs r' m (set_ref r n new m).
Proof. intros. unfold set_ref. destruct new; [by apply insert_elsewhere | by apply delete_elsewhere]. Qed.

(** A batch on the database is the batch on the refs. *)
Lemma cas_refs_of blobs r us m rs m' :
  repo_wf r -> cas_refs (Oid := Oid) r us m = Ok (rs, m') ->
  apply_updates us (refs_of r m) = (rs, refs_of r m')
  /\ objects_of blobs r m' = objects_of blobs r m /\ graph_of r m' = graph_of r m
  /\ forall r', repo_wf r' -> r <> r' -> same_contents blobs r' m m'.
Proof.
  intros Hr. revert m rs. induction us as [| u us IH]; intros m rs; cbn [cas_refs apply_updates].
  { intros [= <- <-]. repeat split. }
  unfold cas_ref, apply_update. destruct (ref_at r (ru_name u) m) as [t |] eqn:Et; [| done].
  assert (Ht : refs_of r m !! ru_name u = t).
  { rewrite refs_lookup. unfold ref_at in Et. destruct (m !! ref_key r (ru_name u)) as [v |]; [| by injection Et as <-].
    cbn. unfold read_target. destruct (target_decode v); [by injection Et as <- | done]. }
  rewrite Ht. set (m1 := match judge _ t with Updated => _ | Rejected _ => _ end).
  destruct (cas_refs r us m1) as [[rs1 m2] |] eqn:E; [| done]. intros [= <- <-].
  destruct (IH m1 rs1 E) as (Ha & Ho & Hg & He). set (refs1 := match judge _ t with Updated => _ | Rejected _ => _ end).
  assert (H1 : refs_of r m1 = refs1 /\ objects_of blobs r m1 = objects_of blobs r m /\ graph_of r m1 = graph_of r m
    /\ forall r', repo_wf r' -> r <> r' -> same_contents blobs r' m m1).
  { unfold m1, refs1. destruct (judge _ t); [| by repeat split].
    destruct (refs_set blobs r m (ru_name u) (ru_new u) Hr) as (H1 & H2 & H3). split_and!; [done.. |].
    intros r' Hr' Hne. by apply set_ref_elsewhere. }
  destruct H1 as (H1 & H2 & H3 & H4). rewrite <- H1, Ha. split_and!; [done | congruence | congruence |].
  intros r' Hr' Hne. eapply same_contents_trans; [by apply H4 | by apply He].
Qed.

End contents.

(** ** The registry *)

Section registry.
Context {DbError : Type}.

Abbreviation Mapped := (mapped (DbError := DbError)).
Abbreviation Counter := (counter (DbError := DbError)).

Definition dec_name (k : bytes) : option bytes := key_rest RepoId_GLOBAL Meta k ≫= Prelude.strip_prefix META_REPO_PREFIX.

Definition read_id (name : bytes) (v : bytes) : option RepoId :=
  match meta_decode v with Ok value => mkRepoId <$> raw_u64 value | Err _ => None end.

(** The ids names are mapped to. *)
Definition ids_of (m : Contents) : gmap bytes RepoId := keyed dec_name read_id m.

Lemma ids_lookup m name : ids_of m !! name = m !! meta_key RepoId_GLOBAL (repo_name_key name) ≫= read_id name.
Proof.
  apply (keyed_lookup (fun name => meta_key RepoId_GLOBAL (repo_name_key name)) dec_name read_id).
  - intros a. unfold dec_name, key_rest, meta_key, segment_prefix, repo_name_key.
    rewrite Prelude.strip_prefix_app. cbn [mbind option_bind]. apply Prelude.strip_prefix_app.
  - intros k a. unfold dec_name, key_rest. destruct (Prelude.strip_prefix _ k) as [rest |] eqn:E; [| done].
    apply Prelude.strip_prefix_Some in E as ->. cbn [mbind option_bind]. by intros ->%Prelude.strip_prefix_Some.
Qed.

Lemma ids_mapped m name id : ids_of m !! name = Some id <-> Mapped m name = Ok (Some id).
Proof.
  rewrite ids_lookup. unfold mapped. destruct (m !! _) as [v |]; cbn [mbind option_bind]; [| done].
  unfold read_id. destruct (meta_decode v) as [value |]; cbn [map_err]; [| done].
  unfold decode_repo_id. destruct (raw_u64 value) as [n |]; cbn; [| done].
  split; [by intros [= <-] | by intros [= <-]].
Qed.

Lemma mapped_wf m name id : Mapped m name = Ok (Some id) -> repo_wf id.
Proof.
  intros H%ids_mapped. rewrite ids_lookup in H. destruct (m !! _) as [v |]; [| done]. cbn [mbind option_bind] in H.
  unfold read_id in H. destruct (meta_decode v) as [value |]; [| done]. unfold raw_u64 in H.
  destruct value; try done. case_decide as Hb; [| done]. injection H as <-. unfold repo_wf, is_u64. cbn [repo_u64].
  match goal with |- context [from_be_bytes ?b] => pose proof (from_be_range b) as Hr; rewrite Hb in Hr end. lia.
Qed.

(** What is recorded of a repository. *)
Definition format_at (m : Contents) (id : RepoId) : option HashKind :=
  match m !! meta_key id META_OBJECT_FORMAT with
  | Some v => match meta_decode v with
              | Ok (Utf8 s) => match parse_object_format (DbError := Empty_set) s with Ok k => Some k | Err _ => None end
              | _ => None
              end
  | None => None
  end.

Definition branch_at (m : Contents) (id : RepoId) : option bytes :=
  match m !! meta_key id META_DEFAULT_BRANCH with
  | Some v => match meta_decode v with Ok (Utf8 s) => Some s | _ => None end
  | None => Some DEFAULT_BRANCH
  end.

Definition meta_at (m : Contents) (id : RepoId) : option RepoMeta :=
  k ← format_at m id; b ← branch_at m id; Some (mkRepoMeta id k b).

Lemma meta_at_id m id meta : meta_at m id = Some meta -> rm_id meta = id.
Proof. unfold meta_at. destruct (format_at m id); [| done]. destruct (branch_at m id); [| done]. by intros [= <-]. Qed.

Definition repos_of (m : Contents) : gmap bytes RepoMeta := omap (meta_at m) (ids_of m).

Lemma repos_lookup m name : repos_of m !! name = ids_of m !! name ≫= meta_at m.
Proof. apply lookup_omap. Qed.

(** The registry is in order, or every id has been handed out. *)
Definition registry_sane (m : Contents) : Prop := registry_ok (DbError := DbError) m \/ Counter m = Ok (2 ^ 64 - 1)%Z.

Lemma registry_agree m m' :
  (forall k, m' !! meta_key RepoId_GLOBAL k = m !! meta_key RepoId_GLOBAL k) -> registry_sane m -> registry_sane m'.
Proof.
  intros H. unfold registry_sane, registry_ok. assert (Counter m' = Counter m) as -> by (unfold counter; by rewrite H).
  assert (Hm : forall name, Mapped m' name = Mapped m name) by (intros name; unfold mapped; by rewrite H).
  intros [(next & Hc & Hr & Hb & Hi) | Hc]; [left | by right]. exists next. do 2 (split; [done |]).
  split; [intros name id | intros n1 n2 id]; rewrite !Hm; eauto.
Qed.

Lemma repos_agree m m' :
  (forall r k, repo_wf r -> m' !! meta_key r k = m !! meta_key r k) -> repos_of m' = repos_of m.
Proof.
  intros H. apply map_eq. intros name. rewrite !repos_lookup, !ids_lookup, H by apply global_wf.
  destruct (m !! _) as [v |] eqn:E; [| done]. cbn [mbind option_bind].
  destruct (read_id name v) as [id |] eqn:Ei; [| done]. cbn [mbind option_bind].
  assert (repo_wf id) as Hid.
  { apply (mapped_wf m name), ids_mapped. by rewrite ids_lookup, E. }
  unfold meta_at, format_at, branch_at. by rewrite !H.
Qed.

End registry.

(** ** The state of the two stores *)

Section backend.
Context {Oid : Type} {OL : OidLib Oid} {W Txn DbError : Type} {Sdb : SlateDb W Txn DbError}.
Context {Qdb : QuietDb W Txn DbError} {B BlobErr : Type} {Bl : BlobLib B BlobErr} {Zl : ZlibLib}.

(** The content each id names, and the façade's settings. *)
Context (names : Oid -> Kind * bytes) (odb : ObjectDb) (level_ok : (0 <= compression_level odb <= 9)%Z).

Abbreviation StoreErr := (StoreError DbError).
Abbreviation ObjErr := (ObjectDbError Oid DbError BlobErr).
Abbreviation RawM E A := (SE (W * B) E A).

(** Contents and the blobs beside them that tell the truth. *)
Record sane (m : Contents) (blobs : gmap bytes bytes) : Prop := {
  sane_objects : objects_ok names m blobs;
  sane_registry : registry_sane (DbError := DbError) m
}.

(** So do those a crash may leave, the current ones among them. *)
Definition inv (s : W * B) : Prop := forall m, q_recover s.1 m -> sane m (bl_objects s.2).

Lemma inv_view s : inv s -> sane (view s.1) (bl_objects s.2).
Proof. intros H. apply H, q_view. Qed.

(** A write of sane contents, the blobs having grown in truth. *)
Lemma inv_wrote m s s' :
  inv s -> wrote m s.1 s'.1 -> (forall x, sane x (bl_objects s.2) -> sane x (bl_objects s'.2)) ->
  sane m (bl_objects s'.2) -> inv s'.
Proof. intros Hi [Hv Hl] Hb Hm x [-> | Hx]%Hl; [by rewrite Hv | by apply Hb, Hi]. Qed.

(** Steps that change neither store. *)
Definition quiet (s s' : W * B) : Prop := still s.1 s'.1 /\ bl_objects s'.2 = bl_objects s.2.

#[export] Instance quiet_order : PreOrder quiet.
Proof.
  split.
  - intros s. split; [apply (reflexivity (R := still)) | done].
  - intros a b c [H1 E1] [H2 E2]. split; [exact (transitivity H1 H2) | congruence].
Qed.

Lemma inv_quiet s s' : inv s -> quiet s s' -> inv s'.
Proof.
  intros Hi [Hs Hb]. apply (inv_wrote (view s.1) s); [done | exact Hs | by rewrite Hb |]. rewrite Hb. by apply inv_view.
Qed.

(** An operation of the store alone, the blobs beside it. *)
Definition on_store {A} (f : SE W StoreErr A) : RawM StoreErr A := fun '(w, b) => let '(r, w) := f w in (r, (w, b)).

Lemma quiet_on_store {A} (f : SE W StoreErr A) : kept still f -> kept quiet (on_store f).
Proof. intros Hf [w b]. specialize (Hf w). unfold on_store. by destruct (f w). Qed.

Lemma quiet_o_store {A} (f : SE W StoreErr A) : kept still f -> kept quiet (o_store f : RawM ObjErr A).
Proof. intros Hf [w b]. specialize (Hf w). unfold o_store. by destruct (f w). Qed.

Lemma quiet_record_stream oid record : kept quiet (record_stream oid record : RawM ObjErr _).
Proof.
  intros [w b]. pose proof (record_stream_spec (DbError := DbError) names oid record w b) as H.
  destruct (record_stream oid record (w, b)) as [r [w' b']]. destruct H as (-> & Hb & _).
  split; [apply (reflexivity (R := still)) | done].
Qed.

Hint Resolve quiet_o_store quiet_record_stream : kept.

Lemma quiet_get repo oid : kept quiet (odb_get repo oid : RawM ObjErr _).
Proof. unfold odb_get. keep. Qed.

Lemma quiet_read_compressed repo oid : kept quiet (read_compressed repo oid : RawM ObjErr _).
Proof. unfold read_compressed. keep. Qed.

Lemma quiet_size repo oid : kept quiet (object_size repo oid : RawM ObjErr _).
Proof. unfold object_size. keep. Qed.

Lemma quiet_exists repo oid : kept quiet (odb_exists repo oid : RawM ObjErr _).
Proof. unfold odb_exists. keep. Qed.

(** *** What is kept elsewhere *)

Lemma objects_ok_agree m m' blobs :
  (forall r (o : Oid), repo_wf r -> m' !! object_key r o = m !! object_key r o) ->
  objects_ok names m blobs -> objects_ok names m' blobs.
Proof. intros H Hok r o v Hr. rewrite H by done. by apply Hok. Qed.

Lemma sane_blobs m b b' :
  (forall x, objects_ok names x b -> objects_ok names x b') -> sane m b -> sane m b'.
Proof. intros H [Ho Hr]. split; auto. Qed.

(** A key that is neither an object's nor a registry's. *)
Lemma sane_frame m m' blobs :
  (forall r s x, repo_wf r -> (s = Object \/ s = Meta /\ r = RepoId_GLOBAL) ->
     m' !! (segment_prefix r s ++ x) = m !! (segment_prefix r s ++ x)) ->
  sane m blobs -> sane m' blobs.
Proof.
  intros H [Ho Hr]. split.
  - eapply objects_ok_agree; [| exact Ho]. intros r o Hw. apply H; [done | by left].
  - eapply registry_agree; [| exact Hr]. intros k. apply H; [apply global_wf | by right].
Qed.

Lemma sane_graph_put m blobs r (o : Oid) v : repo_wf r -> sane m blobs -> sane (<[commit_key r o := v]> m) blobs.
Proof.
  intros Hr. apply sane_frame. intros r' s x Hr' Hs. apply lookup_insert_ne.
  intros (_ & E & _)%key_inj; [| done..]. by destruct Hs as [-> | [-> _]].
Qed.

Lemma sane_cas m blobs r us rs m' : repo_wf r -> cas_refs r us m = Ok (rs, m') -> sane m blobs -> sane m' blobs.
Proof.
  intros Hr Hc. apply sane_frame. intros r' s x Hr' Hs. eapply cas_refs_frame; [exact Hc |].
  intros (u & E & _)%list_elem_of_fmap. apply key_inj in E as (_ & E & _); [| done..].
  by destruct Hs as [-> | [-> _]].
Qed.

Lemma created_frame name n m r s x :
  repo_wf r -> repo_wf (mkRepoId n) -> (s = Object \/ s = CommitGraph \/ (s = Ref /\ r <> mkRepoId n)) ->
  created (Oid := Oid) name n m !! (segment_prefix r s ++ x) = m !! (segment_prefix r s ++ x).
Proof.
  intros Hr Hn Hs. unfold created.
  rewrite lookup_insert_ne; [| intros (E1 & E & _)%key_inj; [| done..]; destruct Hs as [-> | [-> | [-> ?]]]; congruence].
  do 5 (rewrite lookup_insert_ne;
    [| intros (_ & E & _)%key_inj; [by destruct Hs as [-> | [-> | [-> _]]] | done || apply global_wf | done]]).
  done.
Qed.

Lemma sane_created m blobs name n :
  (FIRST_REPO_ID <= n < 2 ^ 64)%Z -> mapped (DbError := DbError) m name = Ok None -> counter (DbError := DbError) m = Ok n ->
  sane m blobs -> sane (created (Oid := Oid) name n m) blobs.
Proof.
  intros Hn Hm Hc [Ho Hr]. assert (repo_wf (mkRepoId n)) as Hw by (unfold repo_wf, is_u64, FIRST_REPO_ID in *; cbn; lia).
  split.
  - eapply objects_ok_agree; [| exact Ho]. intros r o Hr'. apply created_frame; [done.. | by left].
  - destruct (decide (n < 2 ^ 64 - 1)%Z) as [Hlt | Hlt].
    + left. destruct Hr as [Hr | Hr]; [| rewrite Hc in Hr; injection Hr as ->; lia]. by apply registry_created.
    + right. rewrite counter_created by done. unfold saturating_succ. do 2 f_equal. lia.
Qed.


(** *** Writes *)

(** What callers put: content under the id that names it, of a length that fits
    its record.  The stores check neither. *)
Definition fits (oid : Oid) (kb : Kind * bytes) : Prop := names oid = kb /\ is_u64 (Z.of_nat (length kb.2)).

Definition contents (g : W * B) : Contents := view g.1.
Definition blobs (g : W * B) : gmap bytes bytes := bl_objects g.2.

Lemma on_store_inv {A} (f : SE W StoreErr A) s r s' :
  on_store f s = (r, s') -> f s.1 = (r, s'.1) /\ s'.2 = s.2.
Proof. destruct s as [w b]. unfold on_store. destruct (f w) eqn:E. cbn [fst snd]. by intros [= <- <-]. Qed.

Lemma keeps_quiet {E A} (m : RawM E A) : kept quiet m -> forall s, inv s -> inv (m s).2.
Proof. intros Hm s Hi. eapply inv_quiet; [exact Hi | apply Hm]. Qed.

Lemma keeps_put repo oid kind body d :
  repo_wf repo -> fits oid (kind, body) -> forall s, inv s -> inv ((odb_put odb repo oid kind body d : RawM ObjErr unit) s).2.
Proof.
  intros Hr [Hn Hlen] [w b] Hi. destruct (odb_put odb repo oid kind body d (w, b)) as [r [w' b']] eqn:E. cbn [snd].
  apply (odb_put_wrote names) in E as (Hl & Hb & Hw); [| done..].
  assert (Hgrow : forall x, sane x (bl_objects b) -> sane x (bl_objects b')).
  { intros x. destruct Hb as [-> | [_ ->]]; [done |]. apply sane_blobs. intros y. by apply objects_ok_put with (kind := kind). }
  assert (Hv : sane (view w) (bl_objects b)) by apply (inv_view _ Hi).
  intros m [-> | Hm]%Hl; [| by apply Hgrow, Hi]. cbn [fst snd].
  destruct Hw as [(rec & Hh & _ & Hrec) | [Hh _]]; [rewrite (view_cons _ _ _ Hh) | unfold view at 1; rewrite Hh; by apply Hgrow].
  destruct (Hgrow _ Hv) as [Ho Hreg]. split; [by apply objects_ok_insert |].
  eapply registry_agree; [| exact Hreg]. intros k. apply lookup_insert_ne.
  intros (_ & E & _)%key_inj; [done | done | apply global_wf].
Qed.

Lemma keeps_put_graph repo (oid : Oid) rec d :
  repo_wf repo -> forall s, inv s -> inv (on_store (put_commit_graph repo oid rec d) s).2.
Proof.
  intros Hr s Hi. destruct (on_store (put_commit_graph repo oid rec d) s) as [r s'] eqn:E.
  apply on_store_inv in E as [E Hb]. apply put_wrote in E. pose proof (inv_view _ Hi). cbn [snd].
  destruct E as [Hw | [Hw _]]; (apply (inv_wrote _ _ _ Hi Hw); [by rewrite Hb |]); rewrite Hb; [by apply sane_graph_put | done].
Qed.

Lemma keeps_update_refs repo us : repo_wf repo -> forall s, inv s -> inv (on_store (update_refs repo us) s).2.
Proof.
  intros Hr s Hi. destruct (on_store (update_refs repo us) s) as [r s'] eqn:E.
  apply on_store_inv in E as [E Hb]. apply update_refs_wrote in E. pose proof (inv_view _ Hi). cbn [snd].
  destruct E as [(rs & m & Hc & Hw & _) | [Hw _]]; (apply (inv_wrote _ _ _ Hi Hw); [by rewrite Hb |]); rewrite Hb;
    [by eapply sane_cas | done].
Qed.

Lemma counter_range m blobs n :
  sane m blobs -> counter (DbError := DbError) m = Ok n -> (FIRST_REPO_ID <= n < 2 ^ 64)%Z.
Proof.
  intros [_ [(next & Hc & Hr & _) | Hc]] Hn; rewrite Hc in Hn; injection Hn as <-; [done | unfold FIRST_REPO_ID; lia].
Qed.

Lemma keeps_create name : forall s, inv s -> inv (on_store (create_repo (Oid := Oid) name) s).2.
Proof.
  intros s Hi. destruct (on_store (create_repo name) s) as [r s'] eqn:E.
  apply on_store_inv in E as [E Hb]. apply create_repo_wrote in E. pose proof (inv_view _ Hi). cbn [snd].
  destruct E as [(n & Hm & Hc & Hw & _) | [Hw _]]; (apply (inv_wrote _ _ _ Hi Hw); [by rewrite Hb |]); rewrite Hb; [| done].
  apply sane_created; [by eapply counter_range | done..].
Qed.


(** ** The interfaces *)

Abbreviation State := (W * B)%type.

(** Ids are 64-bit. *)
Definition norm (r : RepoId) : RepoId := mkRepoId (repo_u64 r mod 2 ^ 64)%Z.

Lemma norm_wf r : repo_wf (norm r).
Proof. unfold repo_wf, is_u64, norm. cbn [repo_u64]. pose proof (Z.mod_pos_bound (repo_u64 r) (2 ^ 64)). lia. Qed.

Lemma norm_id r : repo_wf r -> norm r = r.
Proof. intros Hr. destruct r as [n]. unfold norm. cbn. f_equal. by apply Z.mod_small. Qed.

(** An operation that leaves the stores alone, and answers from what they hold. *)
Definition reads {Er A} (m : SE State Er A) (P : State -> A -> Prop) : Prop := forall g r g', m g = (r, g') ->
  quiet g g' /\ forall v, r = Ok v -> P g v.

Lemma quiet_reads {Er A} (m : RawM Er A) (P : State -> A -> Prop) :
  kept quiet m -> (forall g v g', m g = (Ok v, g') -> P g v) -> reads m P.
Proof.
  intros Hq Hm g r g' E. pose proof (Hq g) as Hs. rewrite E in Hs. split; [exact Hs |]. intros v ->. by eapply Hm.
Qed.

(** One of the store alone. *)
Lemma store_reads {A} (f : SE W StoreErr A) (P : State -> A -> Prop) :
  kept still f -> (forall g v w', f g.1 = (Ok v, w') -> view w' = contents g -> P g v) -> reads (on_store f) P.
Proof.
  intros Hs Hf. apply quiet_reads; [by apply quiet_on_store |]. intros g v g' [E _]%on_store_inv.
  eapply Hf; [exact E |]. pose proof (Hs g.1) as [Hv _]. by rewrite E in Hv.
Qed.

Section repo.
Context (repo : RepoId) (repo_ok : repo_wf repo).

(** The repository's objects. *)
Definition objects (g : State) : gmap Oid (Kind * bytes) := objects_of (blobs g) repo (contents g).

Definition get_commit_graph_op (oid : Oid) : SE State StoreErr (option (CommitGraphRecord Oid)) :=
  on_store (get_commit_graph repo oid).
Definition get_ref_op (n : bytes) : SE State StoreErr (option (RefTarget Oid)) := on_store (get_ref repo n).
Definition list_refs_op (p : option bytes) : SE State StoreErr (list (bytes * RefTarget Oid)) := on_store (list_refs repo p).
Definition flush_op : SE State StoreErr unit := on_store flush.
Definition get_op (oid : Oid) : SE State ObjErr (option (Kind * bytes)) := odb_get repo oid.
Definition size_op (oid : Oid) : SE State ObjErr (option (Kind * Z)) := object_size repo oid.
Definition read_compressed_op (oid : Oid) : SE State ObjErr (option (Kind * Z * bytes)) := read_compressed repo oid.
Definition exists_op (oid : Oid) : SE State ObjErr bool := odb_exists repo oid.
Definition put_commit_graph_op (oid : Oid) (rec : CommitGraphRecord Oid) : SE State StoreErr unit :=
  on_store (put_commit_graph repo oid rec Relaxed).
Definition put_op (oid : Oid) (kind : Kind) (body : bytes) : SE State ObjErr unit := odb_put odb repo oid kind body Relaxed.
Definition update_refs_op (us : list (RefUpdate Oid)) : SE State StoreErr (list RefUpdateResult) :=
  on_store (update_refs repo us).

(** *** Reads *)

Lemma reads_commit_graph oid : reads (get_commit_graph_op oid) (fun g v => v = graph_of repo (contents g) !! oid).
Proof.
  apply store_reads; [apply still_get_commit_graph |]. intros g v w' E Hv. unfold get_commit_graph in E.
  apply se_bind_ok in E as (b & w1 & Hg%db_ok & Hd). apply db_get_spec in Hg as [_ Hg]. specialize (Hg b eq_refl).
  apply decode_opt_ok in Hd as [-> Hd]. rewrite graph_lookup, <- Hv, <- Hg. destruct b as [b |]; [| done].
  destruct Hd as (x & Hx & ->). cbn. unfold read_graph. by rewrite Hx.
Qed.

Lemma reads_ref n : reads (get_ref_op n) (fun g v => v = refs_of repo (contents g) !! n).
Proof.
  apply store_reads; [apply still_get_ref |]. intros g v w' E Hv. unfold get_ref in E.
  apply se_bind_ok in E as (b & w1 & Hg%db_ok & Hd). apply db_get_spec in Hg as [_ Hg]. specialize (Hg b eq_refl).
  apply decode_opt_ok in Hd as [-> Hd]. rewrite refs_lookup, <- Hv, <- Hg. destruct b as [b |]; [| done].
  destruct Hd as (x & Hx & ->). cbn. unfold read_target. by rewrite Hx.
Qed.

Lemma reads_list p : reads (list_refs_op p) (fun g l => listing (refs_of repo (contents g)) p l).
Proof.
  apply store_reads; [apply still_list_refs |]. intros g l w' E Hv.
  destruct (list_refs_spec repo p _ _ _ repo_ok E) as (Hin & Hnd & Hsort). split; [| split; [done |]].
  - clear - Hsort. induction Hsort as [| a l Hs IH Hall]; constructor; [done |]. eapply Forall_impl; [exact Hall |].
    intros b. apply Is_true_true.
  - intros n t. rewrite Hin, refs_lookup, Hv. unfold ref_at. destruct (contents g !! ref_key repo n) as [v |]; cbn.
    + unfold read_target. destruct (target_decode v); [| split; intros [? ?]; simplify_eq].
      split; intros [? ?]; simplify_eq; done.
    + split; intros [? ?]; simplify_eq.
Qed.

Lemma o_store_ok {A} (f : SE W StoreErr A) g v g' :
  (o_store f : RawM ObjErr A) g = (Ok v, g') -> f g.1 = (Ok v, g'.1) /\ g'.2 = g.2.
Proof. destruct g as [w b]. intros ([x | e] & w' & E & [=] & ->)%o_store_inv. by subst. Qed.

(** The record found is the one stored. *)
Lemma get_object_ok oid g record g' :
  (o_store (get_object repo oid) : RawM ObjErr _) g = (Ok record, g') ->
  g'.2 = g.2 /\ match contents g !! object_key repo oid with
                | Some v => exists rec, record = Some rec /\ record_decode v = Ok rec
                | None => record = None
                end.
Proof.
  intros [E Hb]%o_store_ok. split; [done |]. pose proof (still_get_object repo oid g.1) as [Hv _]. rewrite E in Hv.
  apply get_object_inv in E as [_ E]. cbn [snd] in Hv. unfold contents. by rewrite <- Hv.
Qed.

Lemma record_stream_ok oid record g n z g' :
  (record_stream oid record : RawM ObjErr _) g = (Ok (n, z), g') ->
  n = record_size record
  /\ match record with
     | BlobPointer _ => blobs g !! blob_path oid = Some z
     | BlobInline _ s | Tree _ s | Commit _ s | Tag _ s => z = s
     end.
Proof.
  destruct record; cbn [record_stream]; try by intros [= <- <- _].
  intros (c & g1 & E & [= <- <- _])%se_bind_ok. destruct g as [w b]. apply o_blob_inv in E as (r1 & b1 & E & Hr & ->).
  destruct r1 as [c' |]; [| done]. injection Hr as <-. apply bl_get_spec in E as [_ Hc]. split; [done | by apply Hc].
Qed.

Lemma reads_get oid : reads (get_op oid) (fun g v => v = objects g !! oid).
Proof.
  apply quiet_reads; [apply quiet_get |]. intros g v g'. unfold get_op, odb_get.
  intros (record & g1 & [Hb Hrec]%get_object_ok & E)%se_bind_ok. unfold objects. rewrite objects_lookup.
  destruct (contents g !! object_key repo oid) as [b |]; [| by subst record; injection E as <- _].
  destruct Hrec as (rec & -> & Hd). cbn [mbind option_bind]. unfold read_object. rewrite Hd.
  apply se_bind_ok in E as ([n z] & g2 & [-> Hz]%record_stream_ok & E).
  apply se_bind_ok in E as (content & g3 & [Hi _]%se_lift_ok & [= <- _]).
  unfold blobs in Hz. rewrite Hb in Hz. do 2 f_equal. symmetry. apply record_content_read with z; [done |].
  by destruct (inflate z (record_size rec)); [injection Hi as -> |].
Qed.

Lemma reads_size oid : reads (size_op oid) (fun g v => v = (fun kb => (kb.1, Z.of_nat (length kb.2))) <$> objects g !! oid).
Proof.
  apply quiet_reads; [apply quiet_size |]. intros g v g'. unfold size_op, object_size.
  intros (record & g1 & [Hb Hrec]%get_object_ok & E)%se_bind_ok. unfold objects. rewrite objects_lookup.
  destruct (contents g !! object_key repo oid) as [b |]; [| by subst record; injection E as <- _].
  destruct Hrec as (rec & -> & Hd). injection E as <- _. cbn [mbind option_bind fmap option_fmap option_map]. unfold read_object.
  rewrite Hd. cbn. rewrite record_content_length; [done |]. by apply (proj2 (record_codec b rec)).
Qed.

Lemma reads_compressed oid :
  reads (read_compressed_op oid) (fun g v =>
    match v with
    | None => objects g !! oid = None
    | Some (kind, size, zlib) => exists body, objects g !! oid = Some (kind, body)
        /\ Z.of_nat (length body) = size /\ (inv g -> inflate zlib size = Some body)
    end).
Proof.
  apply quiet_reads; [apply quiet_read_compressed |]. intros g v g'. unfold read_compressed_op, read_compressed.
  intros (record & g1 & [Hb Hrec]%get_object_ok & E)%se_bind_ok. pose proof (objects_lookup (blobs g) repo (contents g) oid) as Ho.
  change (objects_of (blobs g) repo (contents g)) with (objects g) in Ho. rewrite Ho.
  destruct (contents g !! object_key repo oid) as [b |] eqn:Ev; [| by subst record; injection E as <- _].
  destruct Hrec as (rec & -> & Hd). apply se_bind_ok in E as ([n z] & g2 & [-> Hz]%record_stream_ok & [= <- _]).
  unfold blobs in Hz. rewrite Hb in Hz. cbn [mbind option_bind]. unfold read_object. rewrite Hd.
  eexists. split; [done |]. split; [apply record_content_length, (proj2 (record_codec b rec)), Hd |]. intros Hi.
  destruct (sane_objects _ _ (inv_view _ Hi) repo oid b repo_ok Ev) as (rec' & -> & Hwf & _ & _ & z' & Hz' & Hinf).
  rewrite (proj1 (record_codec [] rec') Hwf) in Hd. injection Hd as ->.
  rewrite (record_content_read (blobs g) oid rec z' _ Hz' Hinf). replace z with z'; [done |]. destruct rec; congruence.
Qed.

Lemma reads_exists oid : reads (exists_op oid) (fun g v => v = bool_decide (is_Some (objects g !! oid))).
Proof.
  apply quiet_reads; [apply quiet_exists |]. intros g v g'. unfold exists_op, odb_exists. intros [E Hb]%o_store_ok.
  pose proof (still_object_exists repo oid g.1) as [Hv _]. rewrite E in Hv. apply object_exists_inv in E as [_ E].
  rewrite (E v eq_refl). cbn [snd] in Hv. rewrite Hv. apply bool_decide_ext. symmetry. apply objects_present.
Qed.

(** *** Writes *)

Lemma put_graph_contents oid rec g r g' :
  put_commit_graph_op oid rec g = (r, g') ->
  blobs g' = blobs g /\ q_later g.1 g'.1
  /\ (contents g' = <[commit_key repo oid := graph_encode rec]> (contents g) \/ (contents g' = contents g /\ exists e, r = Err e)).
Proof.
  intros [E Hb]%on_store_inv. apply put_wrote in E. fold (contents g) in E. split; [unfold blobs; by rewrite Hb |].
  destruct E as [[Hv Hl] | [[Hv Hl] He]]; (split; [done |]); [by left | by right].
Qed.

Lemma put_graph_frame oid rec g r g' :
  put_commit_graph_op oid rec g = (r, g') ->
  objects g' = objects g /\ refs_of (Oid := Oid) repo (contents g') = refs_of repo (contents g)
  /\ ((exists rec', graph_of repo (contents g') = <[oid := rec']> (graph_of repo (contents g))
         /\ (graph_fits (oid_kind oid) rec -> rec' = rec))
      \/ (graph_of (Oid := Oid) repo (contents g') = graph_of repo (contents g) /\ exists e, r = Err e)).
Proof.
  intros (Hb & _ & [Hc | [Hc He]])%put_graph_contents; unfold objects; rewrite Hb, Hc; [| auto].
  assert (exists rec', read_graph oid (graph_encode rec) = Some rec' /\ (graph_fits (oid_kind oid) rec -> rec' = rec)) as (rec' & Hrec & Hw).
  { unfold read_graph. destruct (graph_decode (graph_encode rec) (oid_kind oid)) as [rec' | e] eqn:Ed; eexists; (split; [done |]);
      intros [Hw Hl]; rewrite graph_decode_round in Ed by done; by simplify_eq. }
  destruct (graph_put (blobs g) repo (contents g) oid (graph_encode rec) rec' repo_ok Hrec) as (-> & -> & ->).
  do 2 (split; [done |]). left. by exists rec'.
Qed.

(** The object of a write lands whole or not at all, its blob before it. *)
Lemma put_contents oid kind body g r g' :
  is_u64 (Z.of_nat (length body)) -> put_op oid kind body g = (r, g') ->
  q_later g.1 g'.1
  /\ (blobs g' = blobs g \/ contents g !! object_key repo oid = None /\ exists z, blobs g' = <[blob_path oid := z]> (blobs g))
  /\ ((exists v, contents g' = <[object_key repo oid := v]> (contents g)
         /\ contents g !! object_key repo oid = None /\ read_object (blobs g') oid v = Some (kind, body))
      \/ (contents g' = contents g /\ (r = Ok tt -> is_Some (contents g !! object_key repo oid)))).
Proof.
  intros Hlen E. destruct g as [w b], g' as [w' b'].
  apply (odb_put_wrote (fun _ => (kind, body))) in E as (Hl & Hb & Hw); [| done..]. split; [done |]. split.
  - destruct Hb as [Hb | [Hn Hb]]; [by left | right]. split; [done | by eexists].
  - destruct Hw as [(rec & Hh & Hn & Hrec) | [Hh Hok]]; [left | right].
    + exists (record_encode rec). split; [by apply view_of in Hh | split; [done |]].
      exact (read_held (fun _ => (kind, body)) _ _ _ Hrec).
    + split; [| done]. unfold contents, view. cbn [fst]. by rewrite Hh.
Qed.

Lemma union_present (m : gmap Oid (Kind * bytes)) (x : Oid) kb : is_Some (m !! x) -> m ∪ {[x := kb]} = m.
Proof.
  intros [kb' Hx]. apply map_eq. intros y. rewrite lookup_union. destruct (decide (x = y)) as [<- | Hne].
  - by rewrite Hx, lookup_singleton_eq.
  - rewrite lookup_singleton_ne by done. by destruct (m !! y).
Qed.

Lemma union_absent (m : gmap Oid (Kind * bytes)) (x : Oid) kb : m !! x = None -> m ∪ {[x := kb]} = <[x := kb]> m.
Proof.
  intros Hx. apply map_eq. intros y. rewrite lookup_union. destruct (decide (x = y)) as [<- | Hne].
  - by rewrite Hx, lookup_singleton_eq, lookup_insert_eq.
  - rewrite lookup_singleton_ne, lookup_insert_ne by done. by destruct (m !! y).
Qed.

Lemma put_objects oid kind body g r g' :
  fits oid (kind, body) -> put_op oid kind body g = (r, g') ->
  graph_of (Oid := Oid) repo (contents g') = graph_of repo (contents g)
  /\ refs_of (Oid := Oid) repo (contents g') = refs_of repo (contents g)
  /\ (objects g' = objects g ∪ {[oid := (kind, body)]} \/ (objects g' = objects g /\ exists e, r = Err e)).
Proof.
  intros [_ Hlen] (_ & Hb & Hc)%put_contents; [| done].
  assert (objects_of (blobs g') repo (contents g) = objects g) as Ho.
  { destruct Hb as [-> | (Hn & z & ->)]; [done | by apply objects_blob]. }
  destruct Hc as [(v & Hc & Hn & Hv) | [Hc Hok]]; unfold objects at 1 3; rewrite Hc.
  - destruct (objects_put (blobs g') repo (contents g) oid v _ repo_ok Hv) as (-> & -> & ->). rewrite Ho.
    do 2 (split; [done |]). left. symmetry. apply union_absent. unfold objects. by rewrite objects_lookup, Hn.
  - do 2 (split; [done |]). rewrite Ho. destruct r as [[] | e]; [left | right; split; [done | by exists e]].
    symmetry. apply union_present, objects_present. by apply Hok.
Qed.

Lemma inv_put oid kind body g : fits oid (kind, body) -> inv g -> inv (put_op oid kind body g).2.
Proof. intros Hf. by apply keeps_put. Qed.

Lemma update_contents us g r g' :
  update_refs_op us g = (r, g') ->
  blobs g' = blobs g /\ q_later g.1 g'.1
  /\ ((exists rs, cas_refs repo us (contents g) = Ok (rs, contents g') /\ forall x, r = Ok x -> x = rs)
      \/ (contents g' = contents g /\ forall x, r = Ok x -> x = all_conflict us)).
Proof.
  intros [E Hb]%on_store_inv. apply update_refs_wrote in E. fold (contents g) in E. split; [unfold blobs; by rewrite Hb |].
  destruct E as [(rs & m & Hc & [Hv Hl] & Hr) | [[Hv Hl] Hr]]; (split; [done |]); [left; exists rs | by right].
  unfold contents at 2. by rewrite Hv.
Qed.

(** *** The instances *)

Lemma quiet_contents g g' : quiet g g' -> contents g' = contents g /\ blobs g' = blobs g.
Proof. by intros [[H _] Hb]. Qed.

Lemma quiet_objects g g' : quiet g g' -> objects g' = objects g.
Proof. intros [Hc Hb]%quiet_contents. unfold objects. by rewrite Hc, Hb. Qed.

(** What a crash may leave of the repository's objects. *)
Definition recovers (g : State) (s : gmap Oid (Kind * bytes)) : Prop :=
  exists m, q_recover g.1 m /\ s = objects_of (blobs g) repo m.

Lemma later_recovers g g' s :
  blobs g' = blobs g -> q_later g.1 g'.1 -> recovers g' s -> s = objects g' \/ recovers g s.
Proof.
  intros Hb Hl (m & [-> | Hm]%Hl & ->); [by left | right]. exists m. by rewrite Hb.
Qed.

Lemma quiet_recovers g g' s : quiet g g' -> recovers g' s -> s = objects g' \/ recovers g s.
Proof. intros [[_ Hl] Hb]. by apply later_recovers. Qed.

(** Of stores in order a write brings back nothing else. *)
Lemma put_recovers oid kind body g r g' s :
  fits oid (kind, body) -> put_op oid kind body g = (r, g') -> inv g -> recovers g' s -> s = objects g' \/ recovers g s.
Proof.
  intros Hf E Hi (m & Hm & ->). pose proof (inv_put oid kind body g Hf Hi) as Hi'. rewrite E in Hi'. cbn [snd] in Hi'.
  destruct Hf as [_ Hlen]. apply put_contents in E as (Hl & _ & _); [| done].
  pose proof (sane_objects _ _ (Hi' m Hm)) as Ho'. destruct (Hl m Hm) as [-> | Hr]; [by left | right].
  exists m. split; [done |]. apply map_eq. intros o. unfold blobs.
  rewrite (objects_named names _ repo m o repo_ok Ho'). symmetry.
  apply (objects_named names _ repo m o repo_ok), (sane_objects _ _ (Hi m Hr)).
Qed.

#[refine] Definition backend_walk : WalkStore Oid StoreErr ObjErr State := {|
  ws_objects := objects;
  ws_graph g := graph_of repo (contents g);
  ws_refs g := refs_of repo (contents g);
  ws_get_commit_graph := get_commit_graph_op;
  ws_put_commit_graph := put_commit_graph_op;
  ws_get_ref := get_ref_op;
  ws_list_refs := list_refs_op None;
  ws_flush := flush_op;
  ws_get := get_op;
  ws_size := size_op;
|}.
Proof.
  all: assert (Hsame : forall g g', quiet g g' -> objects g' = objects g
    /\ graph_of (Oid := Oid) repo (contents g') = graph_of repo (contents g)
    /\ refs_of (Oid := Oid) repo (contents g') = refs_of repo (contents g))
    by (intros g g' Hq; rewrite (quiet_objects _ _ Hq); by destruct (quiet_contents _ _ Hq) as [-> _]).
  - intros id g r g' [Hq Hr]%reads_commit_graph. split; [by apply Hsame | done].
  - intros id rec g r g' (Ho & Hr & Hg)%put_graph_frame. by split; [| split].
  - intros n g r g' [Hq Hr]%reads_ref. split; [by apply Hsame | done].
  - intros g r g' [Hq Hr]%reads_list. split; [by apply Hsame |]. intros l ->.
    destruct (Hr l eq_refl) as (_ & Hnd & Hin). apply NoDup_Permutation.
    + by apply NoDup_fmap_1 in Hnd.
    + apply NoDup_map_to_list.
    + intros [n t]. rewrite elem_of_map_to_list, Hin. cbn. split; [by intros [? _] | by split].
  - intros g r g' E. pose proof (quiet_on_store flush still_flush g) as Hq. unfold flush_op in E. rewrite E in Hq.
    by apply Hsame.
  - intros id g r g' [Hq Hr]%reads_get. split; [by apply Hsame | done].
  - intros id g r g' [Hq Hr]%reads_size. split; [by apply Hsame | done].
Defined.

Lemma quiet_same g g' :
  quiet g g' -> ws_same (WalkStore := backend_walk) g g' /\ forall s, recovers g' s -> s = objects g' \/ recovers g s.
Proof.
  intros Hq. split; [| intros s; by apply quiet_recovers]. unfold ws_same. cbn. rewrite (quiet_objects _ _ Hq).
  by destruct (quiet_contents _ _ Hq) as [-> _].
Qed.

Lemma quiet_stays g g' :
  quiet g g' ->
  (objects g' = objects g /\ refs_of (Oid := Oid) repo (contents g') = refs_of repo (contents g))
  /\ forall s, recovers g' s -> s = objects g' \/ recovers g s.
Proof.
  intros Hq. split; [| intros s; by apply quiet_recovers]. rewrite (quiet_objects _ _ Hq).
  by destruct (quiet_contents _ _ Hq) as [-> _].
Qed.

(** What every operation but a put of the walk's keeps. *)
Lemma quiet_walk (P : State -> State -> Prop) :
  PreOrder P -> (forall g g', quiet g g' -> P g g') ->
  (forall id rec, kept P (put_commit_graph_op id rec)) -> WalkKeeps (WS := backend_walk) P.
Proof.
  intros HP Hq Hput.
  split; [done | intros id g | intros id rec | intros n g | intros g | intros g | intros id g | intros id g]; [| by apply Hput |..];
    apply Hq.
  - exact (quiet_on_store _ (still_get_commit_graph repo id) g).
  - exact (quiet_on_store _ (still_get_ref repo n) g).
  - exact (quiet_on_store _ (still_list_refs repo None) g).
  - exact (quiet_on_store _ still_flush g).
  - exact (quiet_get repo id g).
  - exact (quiet_size repo id g).
Qed.

Lemma inv_walk : WalkKeeps (WS := backend_walk) (fun g g' => inv g -> inv g').
Proof.
  apply quiet_walk; [split; [by intros g Hi | intros a b c Hab Hbc Hi; by apply Hbc, Hab] | intros g g' Hq Hi; by eapply inv_quiet |].
  intros id rec g. by apply keeps_put_graph.
Qed.

#[refine] Definition backend_promote : PromoteStore Oid StoreErr ObjErr State (WS := backend_walk) := {|
  ps_exists := exists_op;
  ps_put := put_op;
  ps_fits := fits;
  ps_intact := inv;
  ps_recover := recovers;
|}.
Proof.
  - intros id g r g' [Hq Hr]%reads_exists. destruct (quiet_same g g' Hq) as [H1 H2]. by split; [| split].
  - apply quiet_walk; [| apply quiet_stays |].
    + split; [intros g; split; [done | by right] |]. intros a b c [[E1 E2] L1] [[F1 F2] L2]. split; [split; congruence |].
      cbn in *. intros s [-> | [-> | Hs]%L1]%L2; [by left | left; congruence | by right].
    + intros id rec g. destruct (put_commit_graph_op id rec g) as [r g'] eqn:E. cbn [snd].
      pose proof (put_graph_frame _ _ _ _ _ E) as (Ho & Hr & _). apply put_graph_contents in E as (Hb & Hl & _).
      split; [done |]. intros s. by apply later_recovers.
  - exact inv_walk.
  - intros id g. exact (keeps_quiet _ (quiet_exists repo id) g).
  - intros id kind body Hf g. by apply keeps_put.
  - intros id kind body g r g' Hf E. by apply (put_objects id kind body g r g').
  - intros id kind body g r g' Hf E Hi s. by eapply put_recovers.
  - intros g g' E s (m & Hm & ->). change (ws_flush g) with (flush_op g) in E.
    apply on_store_inv in E as [E Hb]. unfold flush in E. apply db_ok in E.
    destruct (q_flush g.1) as (Hh & _ & Hf). rewrite E in Hh, Hf. cbn [fst snd] in Hh, Hf.
    rewrite (Hf eq_refl m Hm). cbn. unfold objects, contents, view. by rewrite Hh.
Defined.

#[refine] Definition backend_repo : RepoStore Oid StoreErr ObjErr State (PS := backend_promote) := {|
  rs_list_refs := list_refs_op;
  rs_read_compressed := read_compressed_op;
  rs_update_refs := update_refs_op;
|}.
Proof.
  - intros p g. exact (keeps_quiet _ (quiet_on_store _ (still_list_refs repo p)) g).
  - intros id g. exact (keeps_quiet _ (quiet_read_compressed repo id) g).
  - intros us g. by apply keeps_update_refs.
  - intros p g r g' [Hq Hr]%reads_list. destruct (quiet_same g g' Hq) as [H1 H2]. by split; [| split].
  - intros id g r g' [Hq Hr]%reads_compressed. destruct (quiet_same g g' Hq) as [H1 H2]. split; [done | split; [done |]].
    intros v Hv. specialize (Hr v Hv). destruct v as [[[kind size] zlib] |]; [| done].
    destruct Hr as (body & Hb & _ & Hi). by exists body.
  - intros us g r g' (Hb & Hl & Hc)%update_contents. cbn.
    assert (Hrec : forall s, recovers g' s -> s = objects g' \/ recovers g s) by (intros s; by apply later_recovers).
    destruct Hc as [(rs & Hcas & Hr) | [Hc Hr]].
    + destruct (cas_refs_of (blobs g) repo us (contents g) rs (contents g') repo_ok Hcas) as (Ha & Ho & Hg & _).
      split; [unfold objects; by rewrite Hb | split; [done |]]. split; [exact Hrec |].
      destruct r as [x | e]; [| right; by rewrite Ha]. left. by rewrite (Hr x eq_refl).
    + split; [unfold objects; by rewrite Hb, Hc | split; [by rewrite Hc |]]. split; [exact Hrec |]. rewrite Hc.
      destruct r as [x | e]; [| by left]. right. split; [| done]. by apply Hr.
Defined.

End repo.

(** ** All repositories *)

(** Nothing of repository [r] changed. *)
Definition same_repo (r : RepoId) (g g' : State) : Prop :=
  (objects r g' = objects r g /\ graph_of (Oid := Oid) r (contents g') = graph_of r (contents g)
   /\ refs_of (Oid := Oid) r (contents g') = refs_of r (contents g))
  /\ forall s, recovers r g' s -> s = objects r g' \/ recovers r g s.

Definition others (r : RepoId) (g g' : State) : Prop :=
  repos_of (contents g') = repos_of (contents g) /\ forall r', repo_wf r' -> r' <> r -> same_repo r' g g'.

#[export] Instance same_repo_order r : PreOrder (same_repo r).
Proof.
  split; [intros g; split; [by repeat split | by right] |].
  intros a b c [(E1 & E2 & E3) L1] [(F1 & F2 & F3) L2]. split; [split_and!; congruence |].
  intros s [-> | [-> | Hs]%L1]%L2; [by left | left | by right]. by symmetry.
Qed.

#[export] Instance others_order r : PreOrder (others r).
Proof.
  split; [intros g; split; [done |]; intros; apply (reflexivity (R := same_repo r')) |].
  intros a b c [E1 H1] [E2 H2]. split; [congruence |]. intros r' Hw Hne.
  exact (transitivity (R := same_repo r') (H1 r' Hw Hne) (H2 r' Hw Hne)).
Qed.

(** A step of the store alone. *)
Lemma later_same_repo r g g' :
  blobs g' = blobs g -> q_later g.1 g'.1 -> same_contents (blobs g) r (contents g) (contents g') -> same_repo r g g'.
Proof.
  intros Hb Hl (Ho & Hg & Hr). split; [unfold objects; rewrite Hb; by split_and! |]. intros s. by apply later_recovers.
Qed.

Lemma quiet_others r g g' : quiet g g' -> others r g g'.
Proof.
  intros Hq. destruct (quiet_contents _ _ Hq) as [Hc Hb]. split; [by rewrite Hc |]. intros r' _ _.
  apply later_same_repo; [done | apply Hq |]. rewrite Hc. by repeat split.
Qed.

Lemma registry_insert m r s x v :
  repo_wf r -> s <> Meta -> repos_of (<[segment_prefix r s ++ x := v]> m) = repos_of m.
Proof.
  intros Hr Hs. apply (repos_agree (DbError := DbError)). intros r' k Hr'. apply lookup_insert_ne.
  intros (_ & E & _)%key_inj; done.
Qed.

Lemma put_graph_others r id rec g :
  repo_wf r -> others r g (put_commit_graph_op r id rec g).2.
Proof.
  intros Hr. destruct (put_commit_graph_op r id rec g) as [r0 g'] eqn:E. apply put_graph_contents in E as (Hb & Hl & Hc).
  cbn [snd]. destruct Hc as [Hc | [Hc _]]; (split; [rewrite Hc |]).
  - by apply (registry_insert _ r CommitGraph (oid_bytes id)).
  - intros r' Hr' Hne. apply later_same_repo; [done.. |]. rewrite Hc. by apply insert_elsewhere.
  - done.
  - intros r' _ _. apply later_same_repo; [done.. |]. rewrite Hc. by repeat split.
Qed.

(** Blobs are shared: of stores in order, an upload changes no repository's
    objects. *)
Lemma put_others r id kind body g :
  repo_wf r -> fits id (kind, body) -> inv g -> others r g (put_op r id kind body g).2.
Proof.
  intros Hr Hf Hi. pose proof (inv_put r Hr id kind body g Hf Hi) as Hi'.
  destruct (put_op r id kind body g) as [r0 g'] eqn:E. cbn [snd] in *. destruct Hf as [_ Hlen].
  apply put_contents in E as (Hl & _ & Hc); [| done].
  assert (Hrest : repos_of (contents g') = repos_of (contents g)
    /\ forall r', repo_wf r' -> r' <> r -> forall s x, s <> Meta ->
         contents g' !! (segment_prefix r' s ++ x) = contents g !! (segment_prefix r' s ++ x)).
  { destruct Hc as [(v & -> & _) | [-> _]]; [| done]. split; [by apply (registry_insert _ r Object (oid_bytes id)) |].
    intros r' Hr' Hne s x _. apply lookup_insert_ne. intros (E & _)%key_inj; done. }
  destruct Hrest as [Hreg Hrest]. split; [done |]. intros r' Hr' Hne.
  assert (Hnamed : forall g m o, inv g -> q_recover g.1 m ->
    objects_of (blobs g) r' m !! o = (fun _ => names o) <$> m !! object_key r' o).
  { intros g0 m o H0 Hm. apply objects_named; [done | by apply H0]. }
  split; [split_and! |].
  - apply map_eq. intros o. unfold objects. rewrite !Hnamed by (done || apply q_view).
    f_equal. by apply (Hrest r' Hr' Hne Object (oid_bytes o)).
  - apply graph_agree. intros o. by apply (Hrest r' Hr' Hne CommitGraph (oid_bytes o)).
  - apply refs_agree. intros n. by apply (Hrest r' Hr' Hne Ref n).
  - intros s (m & Hm & ->). destruct (Hl m Hm) as [-> | Hm']; [by left | right]. exists m. split; [done |].
    apply map_eq. intros o. by rewrite !Hnamed.
Qed.

Lemma update_refs_others r us g : repo_wf r -> others r g (update_refs_op r us g).2.
Proof.
  intros Hr. destruct (update_refs_op r us g) as [r0 g'] eqn:E. apply update_contents in E as (Hb & Hl & Hc). cbn [snd].
  destruct Hc as [(rs & Hcas & _) | [Hc _]]; split.
  - apply (repos_agree (DbError := DbError)). intros r' k Hr'. eapply cas_refs_frame; [exact Hcas |].
    intros (u & E & _)%list_elem_of_fmap. by apply key_inj in E as (_ & E & _).
  - intros r' Hr' Hne. apply later_same_repo; [done.. |].
    destruct (cas_refs_of (blobs g) r us _ _ _ Hr Hcas) as (_ & _ & _ & He). apply He; [done | congruence].
  - by rewrite Hc.
  - intros r' _ _. apply later_same_repo; [done.. |]. rewrite Hc. by repeat split.
Qed.

(** What is done in one repository stays there. *)
Lemma backend_isolated r (Hr : repo_wf r) :
  RepoKeeps (RS := backend_repo r Hr) (while_intact (PS := backend_promote r Hr) (others r)).
Proof.
  assert (Hq : forall g g', quiet g g' -> while_intact (PS := backend_promote r Hr) (others r) g g').
  { intros g g' Hq Hi. split; [by eapply inv_quiet | by apply quiet_others]. }
  assert (Hwalk : WalkKeeps (WS := backend_walk r Hr) (while_intact (PS := backend_promote r Hr) (others r))).
  { apply quiet_walk; [apply _ | done |]. intros id rec g Hi. split; [by apply keeps_put_graph | by apply put_graph_others]. }
  split; [split; [done | intros p g | intros id g] | split; [done | intros id g | intros id kind body Hf g Hi] | intros us g Hi].
  - apply Hq, quiet_on_store, still_list_refs.
  - apply Hq, quiet_read_compressed.
  - apply Hq. exact (quiet_exists r id g).
  - split; [exact (inv_put r Hr id kind body g Hf Hi) | exact (put_others r id kind body g Hr Hf Hi)].
  - split; [exact (keeps_update_refs r us Hr g Hi) | exact (update_refs_others r us g Hr)].
Qed.

(** C22: the stores refine finite maps.  Whatever the stores hold, every read
    that succeeds — of an object, its stream, its size, its presence, a ref, a
    listing, a commit-graph record — answers from the maps the database's keys
    and the blobs stand for, and writes nothing.  Over stores that tell the
    truth every object is the content its id names, and its stream inflates to
    it.  A batch of ref updates judges and applies its commands on the map of
    refs, in order, all at once or not at all, and touches no object, no record
    and no other repository. *)
Theorem backend_refines_maps r (Hr : repo_wf r) :
  (forall oid, reads (get_op r oid) (fun g v => v = objects r g !! oid)
     /\ reads (size_op r oid) (fun g v => v = (fun kb => (kb.1, Z.of_nat (length kb.2))) <$> objects r g !! oid)
     /\ reads (exists_op r oid) (fun g v => v = bool_decide (is_Some (objects r g !! oid)))
     /\ reads (read_compressed_op r oid) (fun g v =>
          match v with
          | None => objects r g !! oid = None
          | Some (kind, size, zlib) => exists body, objects r g !! oid = Some (kind, body)
              /\ Z.of_nat (length body) = size /\ (inv g -> inflate zlib size = Some body)
          end)
     /\ reads (get_commit_graph_op r oid) (fun g v => v = graph_of r (contents g) !! oid))
  /\ (forall oid g kb, inv g -> objects r g !! oid = Some kb -> kb = names oid)
  /\ (forall n, reads (get_ref_op r n) (fun g v => v = refs_of r (contents g) !! n))
  /\ (forall p, reads (list_refs_op r p) (fun g l => listing (refs_of r (contents g)) p l))
  /\ (forall us g res g', update_refs_op r us g = (res, g') ->
       (contents g' = contents g /\ blobs g' = blobs g /\ forall x, res = Ok x -> x = all_conflict us)
       \/ ((forall x, res = Ok x -> x = (apply_updates us (refs_of r (contents g))).1)
           /\ refs_of r (contents g') = (apply_updates us (refs_of r (contents g))).2
           /\ objects r g' = objects r g
           /\ graph_of r (contents g') = graph_of (Oid := Oid) r (contents g)
           /\ forall r', repo_wf r' -> r <> r' -> same_repo r' g g')).
Proof.
  split; [| split; [| split; [| split]]].
  - intros oid. split; [by apply reads_get | split; [by apply reads_size | split; [by apply reads_exists |]]].
    split; [by apply reads_compressed | by apply reads_commit_graph].
  - intros oid g kb Hi. unfold objects. rewrite (objects_named names (blobs g) r (contents g) oid Hr (sane_objects _ _ (inv_view _ Hi))).
    destruct (_ !! object_key r oid); [by intros [= <-] | done].
  - intros n. by apply reads_ref.
  - intros p. by apply reads_list.
  - intros us g res g' E. pose proof (update_refs_others r us g Hr) as [_ Hoth]. rewrite E in Hoth. cbn [snd] in Hoth.
    apply update_contents in E as (Hb & _ & [(rs & Hcas & Hres) | [? ?]]); [right | by left].
    destruct (cas_refs_of (blobs g) r us _ _ _ Hr Hcas) as (-> & Ho & Hg & _).
    split; [done | split; [done | split; [unfold objects; by rewrite Hb | split; [done |]]]].
    intros r' Hr' Hne. apply Hoth; [done | congruence].
Qed.

End backend.
