(* ===== verification/Serve.v ===== *)
(** * The server over its stores

    [AppStore], the interface the routes of [Server] are proved against, is
    discharged by the store of [Backend]; the guarantees of the handlers then
    hold of the server as it is deployed, for every repository at once. *)

From S2P Require Import Prelude Bytes GixHash Keys Values Zlib PackDelta PackOut SlateDb Store GixObject Walk Graph Discovery.
From S2P Require Import Effects Ingest Promote Repo PlanPack Pkt Errors Http Advertise Stream Quiet ObjectDb Backend Server.
From S2P Require UploadPack ReceivePack UploadPackV0.
From stdpp Require Import gmap strings.
From Stdlib Require Import Lia.

(** Keys of other segments, or of other names. *)
Ltac apart := let E1 := fresh in let E2 := fresh in
  intros (_ & E1 & E2)%key_inj;
  [first [discriminate E1 | apply (f_equal (map Byte.to_N)) in E2; vm_compute in E2; discriminate E2] | done..].

(** ** The registry's operations *)

Section registry.
Context {Oid : Type} {OL : OidLib Oid} {W Txn DbError : Type} {Sdb : SlateDb W Txn DbError}.
Context {Qdb : QuietDb W Txn DbError}.

Lemma get_meta_view id n w v w' :
  get_meta id n w = (Ok v, w') ->
  still w w' /\ match v with
                | Some x => exists b, view w !! meta_key id n = Some b /\ meta_decode b = Ok x
                | None => view w !! meta_key id n = None
                end.
Proof.
  intros E. pose proof (still_get_meta id n w) as Hs. rewrite E in Hs. split; [exact Hs |]. unfold get_meta in E.
  apply se_bind_ok in E as (b & w1 & Hg%db_ok & Hd). apply db_get_spec in Hg as [_ Hg]. specialize (Hg b eq_refl).
  apply decode_opt_ok in Hd as [-> Hd]. cbn [snd] in Hs. rewrite (proj1 Hs) in Hg. rewrite <- Hg. destruct b as [b |].
  - destruct Hd as (x & Hx & ->). by exists b.
  - by rewrite Hd.
Qed.

(** What is read of a repository is what is recorded of it. *)
Lemma read_repo_meta_view id w meta w' : read_repo_meta id w = (Ok meta, w') -> meta_at (view w) id = Some meta.
Proof.
  unfold read_repo_meta. intros (f & w1 & [Hs1 H1]%get_meta_view & H)%se_bind_ok.
  apply se_bind_ok in H as (k & w2 & H2 & H). apply se_bind_ok in H as (br & w3 & [Hs3 H3]%get_meta_view & H).
  apply se_bind_ok in H as (d & w4 & H4 & [= <- <-]). unfold meta_at, format_at, branch_at.
  destruct f as [[] |]; try done. apply se_lift_ok in H2 as [H2 ->]. destruct H1 as (b & -> & ->).
  assert (parse_object_format (DbError := Empty_set) s = Ok k) as ->.
  { revert H2. unfold parse_object_format. case_decide; [by intros [= ->] |]. case_decide; [by intros [= ->] | done]. }
  rewrite (proj1 Hs1) in H3. cbn [mbind option_bind].
  destruct br as [[] |]; try done.
  - destruct H3 as (b2 & -> & ->). by injection H4 as -> _.
  - rewrite H3. by injection H4 as -> _.
Qed.

Lemma read_repo_id_view name w v w' :
  read_repo_id name w = (Ok v, w') -> still w w' /\ ids_of (view w) !! name = v.
Proof.
  intros E. pose proof (still_read_repo_id name w) as Hs. rewrite E in Hs. split; [exact Hs |]. unfold read_repo_id in E.
  apply se_bind_ok in E as (b & w1 & Hg%db_ok & Hd). apply db_get_spec in Hg as [He Hg]. specialize (Hg b eq_refl).
  rewrite ids_lookup. pose proof (q_get (meta_key RepoId_GLOBAL (repo_name_key name)) w) as Hq.
  cbn [snd] in Hs. assert (view w' = view w1) as Hv.
  { destruct b as [b |]; [| by injection Hd as _ ->]. apply se_bind_ok in Hd as (x & w2 & [_ ->]%se_lift_ok & Hd).
    apply se_bind_ok in Hd as (id & w3 & [_ ->]%se_lift_ok & [= _ ->]). done. }
  rewrite <- (proj1 Hs), Hv, <- Hg. destruct b as [b |]; [| by injection Hd as <-]. cbn [mbind option_bind].
  apply se_bind_ok in Hd as (x & w2 & [Hx _]%se_lift_ok & Hd). apply se_bind_ok in Hd as (id & w3 & [Hi _]%se_lift_ok & [= <- _]).
  unfold read_id. destruct (meta_decode b); [| done]. injection Hx as ->. unfold decode_repo_id in Hi.
  destruct (raw_u64 x); [| done]. by injection Hi as <-.
Qed.

Lemma lookup_repo_view name w v w' :
  Store.lookup_repo name w = (Ok v, w') -> v = repos_of (view w) !! name.
Proof.
  unfold Store.lookup_repo. intros (id & w1 & [Hs H1]%read_repo_id_view & H)%se_bind_ok. rewrite repos_lookup, H1.
  destruct id as [id |]; [| by injection H as <-].
  apply se_bind_ok in H as (meta & w2 & H2%read_repo_meta_view & [= <- _]). rewrite (proj1 Hs) in H2. by rewrite <- H2.
Qed.

(** *** A creation *)

(** An id is left to hand out, and the registry is in order. *)
Definition room_in (m : Contents) : Prop :=
  registry_ok (DbError := DbError) m /\ exists n, counter (DbError := DbError) m = Ok n /\ (n < 2 ^ 64 - 1)%Z.

Lemma ids_range m next name id :
  counter (DbError := DbError) m = Ok next -> registry_ok (DbError := DbError) m ->
  ids_of m !! name = Some id -> (FIRST_REPO_ID <= repo_u64 id < next)%Z.
Proof.
  intros Hn (next' & Hc & _ & Hlt & _) H. assert (next' = next) as -> by congruence. apply (Hlt name).
  by apply ids_mapped.
Qed.

Lemma created_ids name n m :
  (FIRST_REPO_ID <= n < 2 ^ 64)%Z -> ids_of (created (Oid := Oid) name n m) = <[name := mkRepoId n]> (ids_of m).
Proof.
  intros Hn. apply map_eq. intros x. apply option_eq. intros id. rewrite (ids_mapped (DbError := DbError)), mapped_created by done.
  rewrite lookup_insert. case_decide as E; case_decide as E'; try (symmetry in E'; congruence); try congruence.
  - split; congruence.
  - by rewrite <- (ids_mapped (DbError := DbError)).
Qed.

Lemma created_meta_at name n m id :
  (FIRST_REPO_ID <= n < 2 ^ 64)%Z -> repo_wf id -> (FIRST_REPO_ID <= repo_u64 id)%Z ->
  meta_at (created (Oid := Oid) name n m) id
  = if decide (id = mkRepoId n) then Some (mkRepoMeta (mkRepoId n) Sha1 DEFAULT_BRANCH) else meta_at m id.
Proof.
  intros Hn Hid Hlo. assert (repo_wf (mkRepoId n)) as Hw by (unfold repo_wf, is_u64, FIRST_REPO_ID in *; cbn; lia).
  assert (id <> RepoId_GLOBAL) as Hg by (intros ->; unfold FIRST_REPO_ID in *; cbn in Hlo; lia).
  case_decide as E.
  - subst id.
    assert (Hf : created (Oid := Oid) name n m !! meta_key (mkRepoId n) META_OBJECT_FORMAT
      = Some (meta_encode (Utf8 OBJECT_FORMAT_SHA1))).
    { unfold created. do 3 (rewrite lookup_insert_ne by apart). apply lookup_insert_eq. }
    assert (Hb : created (Oid := Oid) name n m !! meta_key (mkRepoId n) META_DEFAULT_BRANCH
      = Some (meta_encode (Utf8 DEFAULT_BRANCH))).
    { unfold created. do 2 (rewrite lookup_insert_ne by apart). apply lookup_insert_eq. }
    unfold meta_at, format_at, branch_at. rewrite Hf, Hb, (proj1 (meta_codec [] (Utf8 OBJECT_FORMAT_SHA1)) eq_refl).
    by rewrite (proj1 (meta_codec [] (Utf8 DEFAULT_BRANCH)) eq_refl).
  - assert (Hk : forall k, created (Oid := Oid) name n m !! meta_key id k = m !! meta_key id k).
    { intros k. unfold created. repeat (rewrite lookup_insert_ne;
        [| intros (E1 & E2 & _)%key_inj; [by congruence | done || apply global_wf | done || apply global_wf]]). done. }
    unfold meta_at, format_at, branch_at. by rewrite !Hk.
Qed.

Lemma created_repos name n m :
  room_in m -> mapped (DbError := DbError) m name = Ok None -> counter (DbError := DbError) m = Ok n ->
  let meta := mkRepoMeta (mkRepoId n) Sha1 DEFAULT_BRANCH in
  repos_of (created (Oid := Oid) name n m) = <[name := meta]> (repos_of m)
  /\ repos_of m !! name = None /\ (forall x y, repos_of m !! x = Some y -> rm_id y <> mkRepoId n).
Proof.
  intros [Hok _] Hm Hc meta. assert (FIRST_REPO_ID <= n < 2 ^ 64)%Z as Hn.
  { destruct Hok as (next & Hc' & Hr & _). congruence. }
  assert (Hnone : ids_of m !! name = None).
  { destruct (ids_of m !! name) as [id |] eqn:E; [| done]. apply (ids_mapped (DbError := DbError)) in E. congruence. }
  assert (Hother : forall x id, ids_of m !! x = Some id -> id <> mkRepoId n /\ (FIRST_REPO_ID <= repo_u64 id)%Z /\ repo_wf id).
  { intros x id H. pose proof (ids_range m n x id Hc Hok H). split; [| split; [lia |]].
    - intros ->. cbn in *. lia.
    - eapply (mapped_wf (DbError := DbError)), (ids_mapped (DbError := DbError)), H. }
  split_and!.
  - apply map_eq. intros x. rewrite repos_lookup, created_ids by done. rewrite !lookup_insert. case_decide as E.
    + cbn [mbind option_bind]. rewrite created_meta_at; [by rewrite decide_True | done | unfold repo_wf, is_u64, FIRST_REPO_ID in *; cbn; lia | cbn; lia].
    + rewrite repos_lookup. destruct (ids_of m !! x) as [id |] eqn:Ei; [| done]. cbn [mbind option_bind].
      destruct (Hother _ _ Ei) as (Hne & Hlo & Hw). rewrite created_meta_at by done. by rewrite decide_False.
  - by rewrite repos_lookup, Hnone.
  - intros x y Hy. rewrite repos_lookup in Hy. destruct (ids_of m !! x) as [id |] eqn:Ei; [| done]. cbn in Hy.
    apply meta_at_id in Hy as ->. by apply (Hother x).
Qed.

End registry.

(** ** The interface discharged *)

Section app.
Context {Oid : Type} {OL : OidLib Oid} {W Txn DbError : Type} {Sdb : SlateDb W Txn DbError}.
Context {Qdb : QuietDb W Txn DbError} {B BlobErr : Type} {Bl : BlobLib B BlobErr} {Zl : ZlibLib}.
Context (names : Oid -> Kind * bytes) (odb : ObjectDb) (level_ok : (0 <= compression_level odb <= 9)%Z).

Abbreviation StoreErr := (StoreError DbError).
Abbreviation ObjErr := (ObjectDbError Oid DbError BlobErr).
Abbreviation State := (W * B)%type.

Definition repo_walk (r : RepoId) : WalkStore Oid StoreErr ObjErr State := backend_walk names (norm r) (norm_wf r).
Definition repo_promote (r : RepoId) : PromoteStore Oid StoreErr ObjErr State (WS := repo_walk r) :=
  backend_promote names odb level_ok (norm r) (norm_wf r).
Definition repo_store (r : RepoId) : RepoStore Oid StoreErr ObjErr State (PS := repo_promote r) :=
  backend_repo names odb level_ok (norm r) (norm_wf r).

Definition lookup_op (name : bytes) : SE State StoreErr (option RepoMeta) := on_store (Store.lookup_repo name).

Definition get_or_create_op (name : bytes) : SE State StoreErr RepoMeta := on_store (Store.get_or_create_repo name).

Lemma inv_get_or_create name : forall s, inv names s -> inv names (get_or_create_op name s).2.
Proof.
  intros [w b] Hi. pose proof (still_lookup_repo name w) as Hs. unfold get_or_create_op, on_store, Store.get_or_create_repo, se_bind.
  destruct (Store.lookup_repo name w) as [[found | e] w1]; cbn [snd] in Hs;
    (assert (Hi1 : inv names (w1, b)) by (by eapply inv_quiet)).
  - destruct found; [done |]. exact (keeps_create names name (w1, b) Hi1).
  - done.
Qed.

(** Everything recorded of a repository is the same. *)
Lemma same_repo_norm r g g' :
  repo_wf r -> same_repo r g g' ->
  ws_same (WalkStore := repo_walk r) g g' /\ ps_later (PromoteStore := repo_promote r) g g'.
Proof.
  intros Hr [Hs Hl]. unfold ws_same, ps_later. cbn. rewrite (norm_id r Hr). destruct Hs as (? & ? & ?). by repeat split.
Qed.

(** Nothing of repository [r] changed. *)
Definition kept_repo (r : RepoId) (g g' : State) : Prop :=
  ws_same (WalkStore := repo_walk r) g g' /\ ps_later (PromoteStore := repo_promote r) g g'
  /\ (ps_intact (PromoteStore := repo_promote r) g -> ps_intact (PromoteStore := repo_promote r) g').

Definition kept_registry (g g' : State) : Prop := repos_of (contents g') = repos_of (contents g).

Lemma same_kept_repo r g g' : repo_wf r -> (inv names g -> inv names g') -> same_repo r g g' -> kept_repo r g g'.
Proof. intros Hr Hi Hs. destruct (same_repo_norm r g g' Hr Hs). by split; [| split]. Qed.

Lemma quiet_kept g g' : quiet g g' -> kept_registry g g' /\ forall r, repo_wf r -> kept_repo r g g'.
Proof.
  intros Hq. destruct (quiet_contents g g' Hq) as [Hc Hb]. split; [unfold kept_registry; by rewrite Hc |].
  intros r Hr. apply same_kept_repo; [done | intros Hi; by eapply inv_quiet |].
  apply later_same_repo; [done | apply Hq |]. rewrite Hc. by repeat split.
Qed.

(** The new repository, under the id [n]. *)
Lemma created_kept name n g g' :
  room_in (DbError := DbError) (contents g) -> mapped (DbError := DbError) (contents g) name = Ok None ->
  counter (DbError := DbError) (contents g) = Ok n ->
  wrote (created (Oid := Oid) name n (contents g)) g.1 g'.1 -> blobs g' = blobs g -> (inv names g -> inv names g') ->
  let meta := mkRepoMeta (mkRepoId n) Sha1 DEFAULT_BRANCH in
  repo_wf (rm_id meta)
  /\ repos_of (contents g) !! name = None
  /\ repos_of (contents g') = <[name := meta]> (repos_of (contents g))
  /\ (forall x y, repos_of (contents g) !! x = Some y -> rm_id y <> rm_id meta)
  /\ (forall r, repo_wf r -> r <> rm_id meta -> kept_repo r g g')
  /\ ws_objects (WalkStore := repo_walk (rm_id meta)) g' = ws_objects (WalkStore := repo_walk (rm_id meta)) g
  /\ ws_graph (WalkStore := repo_walk (rm_id meta)) g' = ws_graph (WalkStore := repo_walk (rm_id meta)) g
  /\ ws_refs (WalkStore := repo_walk (rm_id meta)) g'
     = <[HEAD_REF := Reference (rm_default_branch meta)]> (ws_refs (WalkStore := repo_walk (rm_id meta)) g)
  /\ ps_later (PromoteStore := repo_promote (rm_id meta)) g g'
  /\ (ps_intact (PromoteStore := repo_promote (rm_id meta)) g -> ps_intact (PromoteStore := repo_promote (rm_id meta)) g').
Proof.
  intros Hroom Hm Hc [Hv Hl] Hb Hi meta. assert (FIRST_REPO_ID <= n < 2 ^ 64)%Z as Hn.
  { destruct Hroom as [(next & Hc' & Hr & _) _]. congruence. }
  assert (repo_wf (rm_id meta)) as Hw by (unfold repo_wf, is_u64, FIRST_REPO_ID in *; cbn; lia).
  destruct (created_repos (Oid := Oid) name n _ Hroom Hm Hc) as (H1 & H2 & H3). change (view g'.1) with (contents g') in Hv.
  assert (Hframe : forall r s x, repo_wf r -> (s = Object \/ s = CommitGraph \/ (s = Ref /\ r <> mkRepoId n)) ->
    contents g' !! (segment_prefix r s ++ x) = contents g !! (segment_prefix r s ++ x)).
  { intros r s x Hr Hs. rewrite Hv. by apply created_frame. }
  assert (Hobj : forall r, repo_wf r -> objects_of (Oid := Oid) (blobs g) r (contents g') = objects_of (blobs g) r (contents g)).
  { intros r Hr. apply objects_agree. intros o. apply Hframe; [done | by left]. }
  split; [done |]. split; [done |]. rewrite Hv at 1. do 2 (split; [done |]). split_and!.
  - intros r Hr Hne. apply same_kept_repo; [done.. |]. apply later_same_repo; [done.. |]. split; [by apply Hobj |].
    split; [apply graph_agree | apply refs_agree]; intros x; apply Hframe; auto.
  - cbn -[norm]. rewrite (norm_id (mkRepoId n) Hw). unfold objects. rewrite Hb. by apply Hobj.
  - cbn -[norm]. rewrite (norm_id (mkRepoId n) Hw). apply graph_agree. intros x. apply Hframe; auto.
  - cbn -[norm]. rewrite (norm_id (mkRepoId n) Hw). apply map_eq. intros x. rewrite lookup_insert, !refs_lookup, Hv. unfold created.
    case_decide as E.
    + subst x. rewrite lookup_insert_eq. cbn [mbind option_bind]. unfold read_target.
      by rewrite (proj1 (target_codec [] (Reference (Oid := Oid) DEFAULT_BRANCH)) eq_refl).
    + rewrite lookup_insert_ne by (by intros E'%ref_key_inj). do 5 (rewrite lookup_insert_ne by apart). done.
  - intros s Hrec. exact (later_recovers _ g g' s Hb Hl Hrec).
  - done.
Qed.

(** A creation on request: the repository that was there, a new one, or an
    error with either. *)
Lemma get_or_create_wrote name w r w' :
  Store.get_or_create_repo (Oid := Oid) name w = (r, w') ->
  (still w w' /\ forall meta, r = Ok meta -> repos_of (view w) !! name = Some meta)
  \/ exists n, mapped (DbError := DbError) (view w) name = Ok None /\ counter (DbError := DbError) (view w) = Ok n
     /\ wrote (created (Oid := Oid) name n (view w)) w w'
     /\ forall meta, r = Ok meta -> meta = mkRepoMeta (mkRepoId n) Sha1 DEFAULT_BRANCH.
Proof.
  unfold Store.get_or_create_repo, se_bind. pose proof (still_lookup_repo name w) as Hs.
  destruct (Store.lookup_repo name w) as [[found | e] w1] eqn:E; cbn [snd] in Hs.
  2: { intros [= <- <-]. left. by split. }
  apply lookup_repo_view in E. destruct found as [meta |].
  { intros [= <- <-]. left. split; [done |]. by intros ? [= <-]. }
  intros Hc. apply create_repo_wrote in Hc as [(n & Hm & Hcnt & Hw & Hr) | [Hw Hr]]; rewrite (proj1 Hs) in *.
  - right. exists n. do 2 (split; [done |]). split; [by eapply still_wrote | done].
  - left. split; [by eapply still_wrote |]. intros meta Hmeta.
    destruct (Hr meta Hmeta) as (w2 & w3 & Hm & Hs2 & Hread). apply read_repo_meta_view in Hread.
    rewrite (proj1 Hs2), (proj1 Hs) in Hread. apply (ids_mapped (DbError := DbError)) in Hm.
    by rewrite repos_lookup, Hm.
Qed.

Lemma lookup_op_spec name g r g' :
  lookup_op name g = (r, g') ->
  quiet g g' /\ forall v, r = Ok v -> v = repos_of (contents g) !! name.
Proof.
  intros E. unfold lookup_op in E. pose proof (quiet_on_store _ (still_lookup_repo name) g) as Hq. rewrite E in Hq. split; [exact Hq |].
  apply on_store_inv in E as [E _]. intros v ->. by apply lookup_repo_view in E.
Qed.

Definition kept_others (r : RepoId) (g g' : State) : Prop :=
  kept_registry g g' /\ forall r', repo_wf r' -> r' <> r -> kept_repo r' g g'.

#[export] Instance kept_repo_order r : PreOrder (kept_repo r).
Proof.
  split; [intros g; split; [by repeat split | split; [| done]]; intros s; by right |].
  intros a b c (S1 & L1 & I1) (S2 & L2 & I2). unfold ws_same in *. split; [| split; [| auto]].
  - destruct S1 as (? & ? & ?), S2 as (? & ? & ?). split_and!; congruence.
  - intros s [-> | [-> | Hs]%L1]%L2; [by left | left | by right]. symmetry. apply S2.
Qed.

#[export] Instance kept_others_order r : PreOrder (kept_others r).
Proof.
  split; [intros g; split; [done |]; intros; apply (reflexivity (R := kept_repo r')) |].
  intros a b c [E1 H1] [E2 H2]. split; [unfold kept_registry in *; congruence |]. intros r' Hw Hne.
  exact (transitivity (R := kept_repo r') (H1 r' Hw Hne) (H2 r' Hw Hne)).
Qed.

Lemma repo_isolated r :
  repo_wf r -> RepoKeeps (RS := repo_store r) (while_intact (PS := repo_promote r) (kept_others r)).
Proof.
  intros Hr.
  apply (repo_keeps_weaken _ _ (backend_isolated names odb level_ok (norm r) (norm_wf r)) (while_intact_order _ _)).
  intros g g' H Hi. destruct (H Hi) as [Hi' [He Hs]]. split; [done |]. split; [exact He |]. intros r' Hr' Hne.
  apply same_kept_repo; [done.. |]. apply Hs; [done | by rewrite norm_id].
Qed.

#[refine] Definition app_store : AppStore Oid StoreErr ObjErr State := {|
  as_walk := repo_walk;
  as_promote := repo_promote;
  as_repo := repo_store;
  as_repos g := repos_of (contents (Sdb := Sdb) g);
  as_room g := room_in (DbError := DbError) (contents g) /\ inv names g;
  Server.lookup_repo := lookup_op;
  Server.get_or_create_repo := get_or_create_op;
|}.
Proof.
  - intros g n m H. rewrite repos_lookup in H. destruct (ids_of _ !! n) as [id |] eqn:E; [| done]. cbn in H.
    apply meta_at_id in H as ->. eapply (mapped_wf (DbError := DbError)), (ids_mapped (DbError := DbError)), E.
  - intros g n1 n2 m1 m2 [[(next & _ & _ & _ & Hinj) _] _] H1 H2 E. rewrite repos_lookup in H1, H2.
    destruct (ids_of _ !! n1) as [id1 |] eqn:E1; [| done]. destruct (ids_of _ !! n2) as [id2 |] eqn:E2; [| done].
    cbn in H1, H2. apply meta_at_id in H1, H2. apply (ids_mapped (DbError := DbError)) in E1, E2.
    apply (Hinj n1 n2 id1); congruence.
  - by intros g r [_ Hi].
  - exact repo_isolated.
  - intros name g r g' [Hq Hr]%lookup_op_spec. split; [by apply quiet_kept | done].
  - intros name g r g' [Hroom _] E. pose proof (inv_get_or_create name g) as Hi. rewrite E in Hi. cbn [snd] in Hi.
    apply on_store_inv in E as [E Hb].
    apply get_or_create_wrote in E as [[Hs Hr] | (n & Hm & Hc & Hw & Hr)].
    + assert (Hsame := quiet_kept g g' (conj Hs (f_equal bl_objects Hb))). destruct r as [meta | e]; left; [| done].
      split; [done |]. by apply Hr.
    + pose proof (created_kept name n g g' Hroom Hm Hc Hw (f_equal bl_objects Hb) Hi) as Hcr. destruct r as [meta | e].
      * right. rewrite (Hr meta eq_refl). exact Hcr.
      * right. eexists. exact Hcr.
Defined.

End app.

(** ** The server from a fresh store *)

Section deployed.
Context {PktErr : Type} {Pk : PktLib PktErr} {Oid : Type} {OL : OidLib Oid}.
Context {W Txn DbError : Type} {Sdb : SlateDb W Txn DbError} {Qdb : QuietDb W Txn DbError}.
Context {B BlobErr : Type} {Bl : BlobLib B BlobErr} {Zl : ZlibLib}.
Context {Digest HashErr F : Type} {PF : PackFormat Oid Digest HashErr F}.
Context {DecodeError : Type} {OB : ObjectLib Oid DecodeError}.
Context {Bundle IoErr PackErr InitErr PackDecodeErr : Type}.
Context {PL : PackLib Oid Bundle PackErr InitErr PackDecodeErr}.
Context (names : Oid -> Kind * bytes) (odb : ObjectDb) (level_ok : (0 <= compression_level odb <= 9)%Z).

Abbreviation StoreErr := (StoreError DbError).
Abbreviation ObjErr := (ObjectDbError Oid DbError BlobErr).
Abbreviation State := (W * B)%type.

#[local] Instance deployed_app : AppStore Oid StoreErr ObjErr State := app_store names odb level_ok.

(** Ids name contents, so that histories have no cycles: a commit is hashed
    after its parents. *)
Definition names_ranked (rank : Oid -> nat) : Prop := forall m,
  (forall o kb, m !! o = Some kb -> kb = names o) -> ranked (OB := OB) m rank.

Lemma stored_named g r (o : Oid) kb :
  inv names g -> ws_objects (WalkStore := repo_walk names r) g !! o = Some kb -> kb = names o.
Proof.
  intros Hi. change (objects (norm r) g !! o = Some kb -> kb = names o). unfold objects.
  rewrite (objects_named names (blobs g) (norm r) (contents g) o (norm_wf r) (sane_objects _ _ _ (inv_view _ _ Hi))).
  destruct (_ !! object_key (norm r) o); [by intros [= <-] | done].
Qed.

Lemma names_histories rank g :
  names_ranked rank -> inv names g -> histories (OB := OB) (StoreErr := StoreErr) (ObjErr := ObjErr) g.
Proof. intros Hr Hi r _. exists rank. apply Hr. intros o kb. by apply stored_named. Qed.

(** Nothing stored, and nothing a crash could bring back. *)
Definition fresh (g : State) : Prop := forall m, q_recover g.1 m -> m = ∅.

(** Any requests, one after the other, with an id left for each to create a
    repository under.  Of a push, its pack is a pack, and if the push ends in a
    server error its references respect the order the kinds are stored in: what
    the code does not check, and needs for a promotion that is cut short. *)
Inductive reachable : State -> Prop :=
  | reach_fresh g : fresh g -> reachable g
  | reach_request auto_create_repos fuel gfuel room (spooling : option IoErr) m r g resp g' :
      reachable g -> room_in (DbError := DbError) (contents g) ->
      fit_request (OB := OB) (IoErr := IoErr) (PL := PL) fuel gfuel m r g ->
      Server.app auto_create_repos fuel gfuel room spooling m r g = (resp, g') ->
      resp <> internal_error \/ ordered_request (OB := OB) (IoErr := IoErr) (PL := PL) m r g ->
      reachable g'.

Abbreviation Sound g := (app_sound (OB := OB) (StoreErr := StoreErr) (ObjErr := ObjErr) (IoErr := IoErr) (PackErr := PackErr)
  (InitErr := InitErr) (PackDecodeErr := PackDecodeErr) g).

Lemma sane_empty (b : gmap bytes bytes) : sane (DbError := DbError) names ∅ b.
Proof.
  split; [intros r oid v _ Hv; by rewrite lookup_empty in Hv |]. left. exists FIRST_REPO_ID.
  split; [done | split; [by compute |]].
  split; intros *; by rewrite <- (ids_mapped (DbError := DbError)), ids_lookup, lookup_empty.
Qed.

Lemma fresh_inv g : fresh g -> inv names g.
Proof. intros Hf m ->%Hf. apply sane_empty. Qed.

Lemma fresh_sound g : fresh g -> Sound g.
Proof.
  intros Hf r Hr. assert (Hv : contents g = ∅) by (apply Hf, q_view).
  assert (Ho : forall b, objects_of (Oid := Oid) b (norm r) ∅ = ∅)
    by (intros b; apply map_eq; intros o; by rewrite objects_lookup, !lookup_empty).
  assert (Hg : graph_of (Oid := Oid) (norm r) ∅ = ∅) by (apply map_eq; intros o; by rewrite graph_lookup, !lookup_empty).
  assert (Hc : forall s : gmap Oid (Kind * bytes), s = ∅ ->
    closed (OB := OB) (StoreErr := StoreErr) (ObjErr := ObjErr) (IoErr := IoErr) (PackErr := PackErr)
      (InitErr := InitErr) (PackDecodeErr := PackDecodeErr) s).
  { intros s -> x kind body c Hx. by rewrite lookup_empty in Hx. }
  split; [split | | | by apply fresh_inv].
  - apply Hc. cbn -[norm]. unfold objects. by rewrite Hv.
  - intros s (m & ->%Hf & ->). by apply Hc.
  - intros x Hx. cbn -[norm] in Hx. rewrite Hv, Hg, dom_empty_L in Hx. by apply not_elem_of_empty in Hx.
  - intros n oid Hn. cbn -[norm] in Hn. rewrite Hv, refs_lookup, lookup_empty in Hn. done.
Qed.

(** Soundness of any repository has the stores in order. *)
Lemma sound_inv g : Sound g -> inv names g.
Proof. intros Hs. exact (ReceivePack.so_intact _ (Hs RepoId_GLOBAL global_wf)). Qed.

Lemma reachable_sound rank g : names_ranked rank -> reachable g -> Sound g.
Proof.
  intros Hr. induction 1 as [g Hf | auto fuel gfuel room spooling m r g resp g' _ IH Hroom Hfit E Hor]; [by apply fresh_sound |].
  pose proof (sound_inv g IH) as Hi.
  pose proof (app_keeps_sound (AS := deployed_app) (PL := PL) auto fuel gfuel room spooling m r g (conj Hroom Hi) Hfit
    (names_histories rank g Hr Hi) IH) as H.
  rewrite E in H. by apply H.
Qed.

(** C4: the server, from a fresh store, keeps its repositories whole.
    Whatever requests it has served, if each pack pushed is one whose ids name
    its objects, and each push answered with a server error had a pack in the
    order the kinds are stored in: however each request ended, every object
    stored reads back as the content its id names, and no ref of any repository
    reaches an object that is missing, or that would be missing after a
    crash. *)
Theorem served_whole rank g :
  names_ranked rank -> reachable g ->
  objects_ok names (contents g) (blobs g)
  /\ forall r, repo_wf r ->
       ReceivePack.whole (OB := OB) (PS := repo_promote names odb level_ok r) (IoErr := IoErr) (PackErr := PackErr) (InitErr := InitErr)
         (PackDecodeErr := PackDecodeErr) g.
Proof.
  intros Hr Hg. pose proof (reachable_sound rank g Hr Hg) as Hs. split; [apply (inv_view names g (sound_inv g Hs)) |].
  intros r Hw. exact (ReceivePack.sound_whole (PS := repo_promote names odb level_ok r) g (Hs r Hw)).
Qed.

End deployed.

(** ** A server in memory *)

Module ServeSample.

Abbreviation o := MemWalk.o.
Abbreviation objects := MemPromote.objects.

Definition names (id : HexOid.t) : Kind * bytes := default (KBlob, []) (objects !! id).
Definition odb : ObjectDb := mkObjectDb 4 6.

Lemma level_ok : (0 <= compression_level odb <= 9)%Z.
Proof. cbn. lia. Qed.

Abbreviation State := (list Contents * gmap bytes bytes)%type.

Abbreviation contents := (Backend.contents (Sdb := MemDb.lib)).
Abbreviation blobs := (Backend.blobs (Bl := MemBlobs.lib)).
Abbreviation inv := (Backend.inv (Sdb := MemDb.lib) (Qdb := mem_quiet) (Bl := MemBlobs.lib) (Zl := StoredZlib.lib) names).

Definition empty : State := ([], ∅).

Lemma sample_names_ranked : names_ranked (OB := PlainObjects.lib) names MemWalk.rank.
Proof.
  intros m Hm. assert (Hall : ranked (OB := PlainObjects.lib) objects MemWalk.rank) by (apply ranked_b_sound; by vm_compute).
  intros c t ps Hc. apply (Hall c t ps). unfold commit_at in *. destruct (m !! c) as [kb |] eqn:E; [| done].
  rewrite (Hm c kb E) in Hc. unfold names in Hc. by destruct (objects !! c).
Qed.

(** The sample repository, pushed whole under a new tag. *)
Definition pack : bytes := mbind RawPack.entry (map (fun kv => (kv.1, kv.2.1, kv.2.2)) (map_to_list objects)).
Definition request : ReceivePack.Request HexOid.t :=
  ReceivePack.mkRequest [ReceivePack.PushSample.create] (ReceivePack.mkCaps true true) pack.

Definition visit : HttpRequest :=
  mkHttpRequest (bs "team/repo/info/refs") (Some (bs "service=git-receive-pack")) None [].
Definition push : HttpRequest := mkHttpRequest (bs "team/repo/git-receive-pack") None None (ReceivePack.PushSample.commands ++ pack).
Definition visit_other : HttpRequest :=
  mkHttpRequest (bs "other/info/refs") (Some (bs "service=git-receive-pack")) None [].

Abbreviation serve := (Server.app (Pk := PlainPkt.lib) (Zl := StoredZlib.lib) (PF := PlainFormat.lib) (OB := PlainObjects.lib)
  (AS := app_store (Sdb := MemDb.lib) (Qdb := mem_quiet) (Bl := MemBlobs.lib) (Zl := StoredZlib.lib) names odb level_ok)
  (PL := RawPack.lib) true 60 60 None (None : option Empty_set)).

Definition visited : State := (serve Get visit empty).2.
Definition pushed : State := (serve Post push visited).2.

Example visited_repo : repos_of (contents visited) !! bs "team/repo" = Some (mkRepoMeta (mkRepoId 1) Sha1 DEFAULT_BRANCH).
Proof. by vm_compute. Qed.

Example tag_pushed : refs_of (Oid := HexOid.t) (mkRepoId 1) (contents pushed) !! bs "refs/tags/v1" = Some (Direct (o x06)).
Proof. by vm_compute. Qed.

Lemma pack_indexed : RawPack.index pack = objects.
Proof. apply (bool_decide_eq_true _). by vm_compute. Qed.

Lemma push_parsed : ReceivePack.parse_request (Pk := PlainPkt.lib) (hr_body push) = Ok request.
Proof. by vm_compute. Qed.

Abbreviation StoreErr := (StoreError MemDb.error).
Abbreviation ObjErr := (ObjectDbError HexOid.t MemDb.error MemBlobs.error).
Abbreviation checked p f := (MemPromote.all_refs_of (StoreErr := StoreErr) (ObjErr := ObjErr) (IoErr := Empty_set)
  (PackErr := unit) (InitErr := Empty_set) (PackDecodeErr := unit) p f).

Definition short (p : gmap HexOid.t (Kind * bytes)) : bool :=
  forallb (fun kv => (Z.of_nat (length kv.2.2) <? 2 ^ 64)%Z) (map_to_list p).

Lemma short_sound p x kb : short p = true -> p !! x = Some kb -> is_u64 (Z.of_nat (length kb.2)).
Proof.
  intros Hb Hx. unfold short in Hb. rewrite forallb_forall in Hb.
  specialize (Hb (x, kb) ltac:(by apply list_elem_of_In, elem_of_map_to_list)). cbn [snd] in Hb. unfold is_u64. lia.
Qed.

Lemma objects_checked :
  checked objects (fun x _ c => MemPromote.rank c <? MemPromote.rank x) = true
  /\ checked objects (MemPromote.low objects) = true
  /\ short objects = true.
Proof. split_and!; by vm_compute. Qed.

Lemma objects_fit x kb : objects !! x = Some kb -> fits names x kb.
Proof.
  intros Hx. split; [unfold names; by rewrite Hx |]. exact (short_sound _ _ _ (proj2 (proj2 objects_checked)) Hx).
Qed.

Lemma objects_layers m :
  layered (OB := PlainObjects.lib) (StoreErr := StoreErr) (ObjErr := ObjErr) (IoErr := Empty_set)
    (PackErr := unit) (InitErr := Empty_set) (PackDecodeErr := unit) m objects.
Proof.
  intros x kind body c kind' body' Hx Hc _ Hc'. apply Nat.leb_le. destruct objects_checked as (_ & Hb & _).
  pose proof (MemPromote.all_refs_of_sound objects _ x kind body c Hb Hx Hc) as H.
  unfold MemPromote.low in H. by rewrite Hc' in H.
Qed.

Lemma objects_ordered :
  acyclic (OB := PlainObjects.lib) (StoreErr := StoreErr) (ObjErr := ObjErr) (IoErr := Empty_set)
    (PackErr := unit) (InitErr := Empty_set) (PackDecodeErr := unit) objects MemPromote.rank.
Proof.
  intros x c (kind & body & Hx & Hc). apply Nat.ltb_lt. destruct objects_checked as (Hb & _ & _).
  by apply (MemPromote.all_refs_of_sound objects _ x kind body c Hb Hx Hc).
Qed.

Lemma objects_bounds :
  validate_fuel (OB := PlainObjects.lib) (StoreErr := StoreErr) (ObjErr := ObjErr) (IoErr := Empty_set)
    (PackErr := unit) (InitErr := Empty_set) (PackDecodeErr := unit) objects (ReceivePack.tips_of request) <= 60
  /\ graph_fuel (OB := PlainObjects.lib) objects <= 60.
Proof. split; vm_compute; lia. Qed.

Lemma visited_contents : contents visited = created (Oid := HexOid.t) (bs "team/repo") 1 ∅.
Proof. apply (bool_decide_eq_true _). by vm_compute. Qed.

Lemma visited_objects b r : repo_wf r -> objects_of (Oid := HexOid.t) (Zl := StoredZlib.lib) b r (contents visited) = ∅.
Proof.
  intros Hr. rewrite visited_contents. transitivity (objects_of (Oid := HexOid.t) (Zl := StoredZlib.lib) b r ∅).
  - apply objects_agree. intros x. apply created_frame; [done | by compute | by left].
  - apply map_eq. intros x. by rewrite objects_lookup, !lookup_empty.
Qed.

Abbreviation sample_walk r :=
  (repo_walk (Sdb := MemDb.lib) (Qdb := mem_quiet) (Bl := MemBlobs.lib) (Zl := StoredZlib.lib) names r).
Abbreviation sample_promote r :=
  (repo_promote (Sdb := MemDb.lib) (Qdb := mem_quiet) (Bl := MemBlobs.lib) (Zl := StoredZlib.lib) names odb level_ok r).
Abbreviation sample_app :=
  (app_store (Sdb := MemDb.lib) (Qdb := mem_quiet) (Bl := MemBlobs.lib) (Zl := StoredZlib.lib) names odb level_ok).

Lemma push_staged m k s :
  ReceivePack.staged_from (PL := RawPack.lib) (IoErr := Empty_set) (ObjErr := ObjErr)
    m k pack s -> s = mkStaged (Some objects).
Proof.
  destruct s as [bd]. unfold ReceivePack.staged_from, write_bundle. rewrite <- pack_indexed.
  destruct pack as [| c p] eqn:Ep; [by vm_compute in Ep |].
  cbn [write_to_directory to_bundle RawPack.lib map_err bundle]. by intros [= <-].
Qed.

Lemma push_fits :
  fit_request (OB := PlainObjects.lib) (Pk := PlainPkt.lib) (PL := RawPack.lib) (IoErr := Empty_set) (AS := sample_app)
    60 60 Post push visited.
Proof.
  intros name b req meta g1 _ [= <-] Hp [Hw _]. change (ReceivePack.parse_request (Pk := PlainPkt.lib) (hr_body push) = Ok req) in Hp.
  rewrite push_parsed in Hp. injection Hp as <-. split; [exact RawPack.raw_indexes |]. intros s ->%push_staged.
  assert (Ho : ws_objects (WalkStore := sample_walk (rm_id meta)) visited = ∅)
    by exact (visited_objects (blobs visited) (norm (rm_id meta)) (norm_wf _)).
  split; [intros x kb Hx; by apply objects_fit |]. exists MemPromote.rank, MemWalk.rank.
  split; [exact objects_ordered | split; [exact (proj1 objects_bounds) |]].
  change (ranked (OB := PlainObjects.lib) (ws_objects (WalkStore := sample_walk (rm_id meta)) visited ∪ objects) MemWalk.rank
    /\ graph_fuel (OB := PlainObjects.lib) (ws_objects (WalkStore := sample_walk (rm_id meta)) visited ∪ objects) <= 60).
  rewrite Ho, (left_id_L ∅ (∪)). split; [apply ranked_b_sound; by vm_compute | exact (proj2 objects_bounds)].
Qed.

(** Its references respect the order the kinds are stored in. *)
Lemma push_ordered :
  ordered_request (OB := PlainObjects.lib) (Pk := PlainPkt.lib) (PL := RawPack.lib) (IoErr := Empty_set) (AS := sample_app)
    Post push visited.
Proof.
  intros name b req meta g1 _ [= <-] Hp _. change (ReceivePack.parse_request (Pk := PlainPkt.lib) (hr_body push) = Ok req) in Hp.
  rewrite push_parsed in Hp. injection Hp as <-. intros s ->%push_staged. apply objects_layers.
Qed.

Lemma room_at (g : State) n :
  inv g -> counter (DbError := MemDb.error) (contents g) = Ok n -> (n < 2 ^ 64 - 1)%Z -> room_in (DbError := MemDb.error) (contents g).
Proof.
  intros Hi Hc Hn. split; [| by exists n].
  destruct (sane_registry _ _ _ (inv_view _ g Hi)) as [H | H]; [exact H |].
  change (counter (DbError := MemDb.error) (contents g) = Ok (2 ^ 64 - 1)%Z) in H. rewrite Hc in H. injection H as ->. lia.
Qed.

End ServeSample.

Import ServeSample.

Abbreviation sample_reachable g := (reachable (Pk := PlainPkt.lib) (PF := PlainFormat.lib) (OB := PlainObjects.lib) (PL := RawPack.lib)
  (IoErr := Empty_set) (Sdb := MemDb.lib) (Qdb := mem_quiet) (Bl := MemBlobs.lib) (Zl := StoredZlib.lib) names odb level_ok g).

Lemma sample_inv g : sample_reachable g -> inv g.
Proof.
  intros Hg. refine (sound_inv names odb level_ok g _). exact (reachable_sound names odb level_ok MemWalk.rank g sample_names_ranked Hg).
Qed.

Lemma empty_reachable : sample_reachable empty.
Proof. apply reach_fresh. by intros m ->. Qed.

Lemma visited_reachable : sample_reachable visited.
Proof.
  apply (reach_request names odb level_ok true 60 60 None (None : option Empty_set) Get visit empty (serve Get visit empty).1 visited).
  - exact empty_reachable.
  - apply (room_at empty 1); [by apply sample_inv, empty_reachable | by vm_compute | lia].
  - intros name b req meta g1 _ [=].
  - apply surjective_pairing.
  - right. intros name b req meta g1 _ [=].
Qed.

Lemma pushed_reachable : sample_reachable pushed.
Proof.
  apply (reach_request names odb level_ok true 60 60 None (None : option Empty_set) Post push visited (serve Post push visited).1 pushed).
  - exact visited_reachable.
  - apply (room_at visited 2); [by apply sample_inv, visited_reachable | by vm_compute | lia].
  - exact push_fits.
  - apply surjective_pairing.
  - right. exact push_ordered.
Qed.

(** A repository created by a visit, a push into it, and the tag's history is
    whole. *)
Lemma served_whole_witness :
  refs_of (Oid := HexOid.t) (mkRepoId 1) (contents pushed) !! bs "refs/tags/v1" = Some (Direct (o x06))
  /\ objects_ok (Zl := StoredZlib.lib) names (contents pushed) (blobs pushed)
  /\ forall r, repo_wf r ->
       ReceivePack.whole (OB := PlainObjects.lib) (PS := sample_promote r) (IoErr := Empty_set) (PackErr := unit)
         (InitErr := Empty_set) (PackDecodeErr := unit) pushed.
Proof.
  split; [exact tag_pushed |].
  exact (served_whole (OB := PlainObjects.lib) names odb level_ok MemWalk.rank pushed sample_names_ranked pushed_reachable).
Defined.

(** Another repository is created beside it. *)
Lemma app_isolated_witness :
  let '(_, g') := serve Get visit_other pushed in
  as_repos (AppStore := sample_app) g' !! bs "team/repo" = Some (mkRepoMeta (mkRepoId 1) Sha1 DEFAULT_BRANCH)
  /\ as_same_repo (AppStore := sample_app) (mkRepoId 1) pushed g'.
Proof.
  apply (app_isolated (AS := sample_app) (PL := RawPack.lib) true 60 60 None (None : option Empty_set) Get visit_other pushed
    (bs "team/repo") (mkRepoMeta (mkRepoId 1) Sha1 DEFAULT_BRANCH)).
  - pose proof (sample_inv pushed pushed_reachable) as Hi. split; [| exact Hi].
    apply (room_at pushed 2 Hi); [by vm_compute | lia].
  - intros name b req meta g1 _ [=].
  - by vm_compute.
  - by vm_compute.
Defined.

(** The blob that was pushed, read back. *)
Abbreviation sample_get := (get_op (Sdb := MemDb.lib) (Bl := MemBlobs.lib) (Zl := StoredZlib.lib) (mkRepoId 1)).

Lemma blob_read : (sample_get (o x05) pushed).1 = Ok (Some (KBlob, bs "hello")).
Proof. by vm_compute. Qed.

Lemma backend_refines_maps_witness :
  Some (KBlob, bs "hello") = Backend.objects (Oid := HexOid.t) (Sdb := MemDb.lib) (Bl := MemBlobs.lib) (Zl := StoredZlib.lib)
    (mkRepoId 1) pushed !! o x05
  /\ (KBlob, bs "hello") = names (o x05).
Proof.
  destruct (backend_refines_maps (Sdb := MemDb.lib) (Qdb := mem_quiet) (Bl := MemBlobs.lib) (Zl := StoredZlib.lib) names
    (mkRepoId 1) ltac:(by compute)) as (H & Hnamed & _).
  destruct (H (o x05)) as [Hget _]. pose proof blob_read as E.
  destruct (sample_get (o x05) pushed) as [r g'] eqn:Eg. pose proof (proj2 (Hget pushed r g' Eg) _ E) as Hx.
  split; [exact Hx | exact (Hnamed (o x05) pushed _ (sample_inv pushed pushed_reachable) (eq_sym Hx))].
Defined.
