(* ===== verification/Config.v ===== *)
(** * Configuration and start-up ([src/config.rs], [src/main.rs], and
    [AppState] of [src/lib.rs])

    The layers a setting comes from, the checks made before storage is opened,
    the storage URL, and what the server is built with.  The command-line
    parser, the file system, TOML and URLs are not the program's: their answers
    are inputs or an interface.  A path is its components, as [Path] compares
    them, on Unix. *)

From S2P Require Import Prelude Bytes ObjectDb.
From stdpp Require Import strings.
From Stdlib Require Import Lia.

(** ** Paths *)

Abbreviation path := bytes.

Inductive Component : Set :=
  | RootDir
  | CurDir
  | ParentDir
  | Normal (name : bytes).

#[export] Instance Component_eq_dec : EqDecision Component.
Proof. solve_decision. Defined.

Definition is_absolute (p : path) : bool := starts_with (bs "/") p.

Definition piece (first : bool) (name : bytes) : option Component :=
  if decide (name = []) then None
  else if decide (name = bs ".") then if first then Some CurDir else None
  else if decide (name = bs "..") then Some ParentDir
  else Some (Normal name).

(** [Path::components]: repeated separators and inner [.]s do not count. *)
Definition components (p : path) : list Component :=
  (if is_absolute p then [RootDir] else [])
  ++ match split_on x2f p with
     | [] => []
     | first :: rest => omap id [piece true first] ++ omap (piece false) rest
     end.

(** [Path::join]. *)
Definition join (base p : path) : path :=
  if is_absolute p then p
  else match last base with
       | Some c => if decide (c = x2f) then base ++ p else base ++ bs "/" ++ p
       | None => p
       end.

(** [PathBuf::push] of a component, and [PathBuf::pop]. *)
Definition push (out : list Component) (c : Component) : list Component :=
  match c with RootDir => [RootDir] | _ => out ++ [c] end.

Definition pop (out : list Component) : list Component :=
  match last out with
  | Some RootDir | None => out
  | Some _ => removelast out
  end.

Definition clean_step (out : list Component) (c : Component) : list Component :=
  match c with
  | CurDir => out
  | ParentDir => pop out
  | other => push out other
  end.

Definition clean_path (p : path) : list Component := fold_left clean_step (components p) [].

(** ** Settings *)

Inductive IpAddr : Set :=
  | V4 (a b c d : byte)
  | V6 (segments : list Z).

Record SocketAddr : Set := mkAddr { sa_ip : IpAddr; sa_port : Z }.

Record Config : Set := mkConfig {
  bind_addr : SocketAddr;
  storage_url : bytes;
  inline_threshold : Z;
  auto_create_repos : bool;
  staging_root : path;
  cache_dir : option path;
  cache_memory_bytes : Z;
  cache_disk_bytes : Z;
  warm_on_start : bool;
  object_compression_level : Z;
  config_path : option path;
}.

Record FileConfig : Set := mkFile {
  f_bind_addr : option SocketAddr;
  f_storage_url : option bytes;
  f_inline_threshold : option Z;
  f_auto_create_repos : option bool;
  f_staging_root : option path;
  f_cache_dir : option path;
  f_cache_memory_bytes : option Z;
  f_cache_disk_bytes : option Z;
  f_warm_on_start : option bool;
  f_object_compression_level : option Z;
  f_log_filter : option bytes;
}.

Definition default_bind_addr : SocketAddr := mkAddr (V4 x7f x00 x00 x01) 8470.

(** [std::env::temp_dir] is the environment's. *)
Definition default_staging_root (temp_dir : path) : path := join temp_dir (bs "miscreant-staging").

Definition Config_default (temp_dir : path) : Config :=
  mkConfig default_bind_addr (bs "file://./miscreant-data") 65536 true (default_staging_root temp_dir) None
    536870912 34359738368 false 6 None.

Definition DEFAULT_LOG_FILTER : bytes := bs "info".

(** clap's [ValueSource]. *)
Inductive ValueSource : Set := DefaultValue | EnvVariable | CommandLine.

#[export] Instance ValueSource_eq_dec : EqDecision ValueSource.
Proof. solve_decision. Defined.

Section merge.
(** [ArgMatches::value_source]. *)
Context (value_source : string -> option ValueSource).

Definition left_at_default (id : string) : bool := bool_decide (value_source id = Some DefaultValue).

(** [if left_at_default(id) && let Some(value) = file { config.id = value; }] *)
Definition layer {A} (id : string) (file : option A) (value : A) : A :=
  match left_at_default id, file with
  | true, Some v => v
  | _, _ => value
  end.

Definition layer_cache_dir (file : option path) (value : option path) : option path :=
  match value_source "cache_dir", file with
  | Some (CommandLine | EnvVariable), _ => value
  | _, Some v => Some v
  | _, None => value
  end.

Definition merge_file_config (config : Config) (file : FileConfig) : Config :=
  mkConfig
    (layer "bind_addr" (f_bind_addr file) (bind_addr config))
    (layer "storage_url" (f_storage_url file) (storage_url config))
    (layer "inline_threshold" (f_inline_threshold file) (inline_threshold config))
    (layer "auto_create_repos" (f_auto_create_repos file) (auto_create_repos config))
    (layer "staging_root" (f_staging_root file) (staging_root config))
    (layer_cache_dir (f_cache_dir file) (cache_dir config))
    (layer "cache_memory_bytes" (f_cache_memory_bytes file) (cache_memory_bytes config))
    (layer "cache_disk_bytes" (f_cache_disk_bytes file) (cache_disk_bytes config))
    (layer "warm_on_start" (f_warm_on_start file) (warm_on_start config))
    (layer "object_compression_level" (f_object_compression_level file) (object_compression_level config))
    (config_path config).

End merge.

(** ** Start-up *)

Inductive ConfigFileError (IoErr TomlErr : Type) : Type :=
  | FileRead (path : path) (source : IoErr)
  | FileParse (path : path) (source : TomlErr).
Arguments FileRead {IoErr TomlErr}.
Arguments FileParse {IoErr TomlErr}.

Inductive StartupError (IoErr TomlErr : Type) : Type :=
  | BadFile (source : ConfigFileError IoErr TomlErr)
  | BadLevel (level : Z)
  | BadFilter (filter : bytes)
  | WarmWithoutCache.
Arguments BadFile {IoErr TomlErr}.
Arguments BadLevel {IoErr TomlErr}.
Arguments BadFilter {IoErr TomlErr}.
Arguments WarmWithoutCache {IoErr TomlErr}.

Section startup.
Context {IoErr TomlErr : Type}.
Context (read_to_string : path -> result IoErr bytes) (from_toml : bytes -> result TomlErr FileConfig).
Context (is_directive : bytes -> bool).

Definition FileConfig_load (p : path) : result (ConfigFileError IoErr TomlErr) FileConfig :=
  let? text := map_err (FileRead p) (read_to_string p) in map_err (FileParse p) (from_toml text).

(** [main] up to the subcommand: the settings, and the log filter. *)
Definition configure (value_source : string -> option ValueSource) (config : Config)
    : result (StartupError IoErr TomlErr) (Config * bytes) :=
  let? file_config :=
    match config_path config with
    | Some p => let? file := map_err BadFile (FileConfig_load p) in Ok (Some file)
    | None => Ok None
    end in
  let config :=
    match file_config with
    | Some file => merge_file_config value_source config file
    | None => config
    end in
  if (9 <? object_compression_level config)%Z then Err (BadLevel (object_compression_level config))
  else
    let log_filter := default DEFAULT_LOG_FILTER (file_config ≫= f_log_filter) in
    if is_directive log_filter then Ok (config, log_filter) else Err (BadFilter log_filter).

(** [serve]'s own check. *)
Definition check_serve (config : Config) : result (StartupError IoErr TomlErr) unit :=
  if warm_on_start config && bool_decide (cache_dir config = None) then Err WarmWithoutCache else Ok tt.

End startup.

(** ** Storage *)

(** URLs, as far as the program uses them. *)
Class UrlLib (Url : Type) : Type := {
  from_file_path : list Component -> option Url;
  url_parse : bytes -> option Url;
  username : Url -> bytes;
  password : Url -> option bytes;
  set_username : bytes -> Url -> option Url;
  set_password : option bytes -> Url -> option Url;
  scheme : Url -> bytes;
  url_string : Url -> bytes;

  set_username_spec : forall name u u', set_username name u = Some u' -> username u' = name /\ password u' = password u;
  set_password_spec : forall secret u u', set_password secret u = Some u' -> password u' = secret /\ username u' = username u;
}.

(** The settings of the two stores. *)
Record CacheConfig : Set := mkCacheConfig { cc_dir : option path; memory_bytes : Z; disk_bytes : Z }.

Section storage.
Context {Url : Type} {Ul : UrlLib Url} {IoErr : Type}.

Inductive UrlError : Type :=
  | NoCurrentDir (source : IoErr)
  | InvalidInput (cleaned : list Component).

(** [str::contains]. *)
Fixpoint contains (sub b : bytes) : bool :=
  starts_with sub b || match b with [] => false | _ :: b' => contains sub b' end.

(** What follows the [file] scheme, or the whole of a bare path; [None] for
    another scheme. *)
Definition path_part (raw : bytes) : option bytes :=
  match Prelude.strip_prefix (bs "file://") raw with
  | Some rest => Some rest
  | None =>
      match Prelude.strip_prefix (bs "file:") raw with
      | Some rest => Some rest
      | None => if contains (bs "://") raw || starts_with (bs "memory:") raw then None else Some raw
      end
  end.

(** [std::env::current_dir] is the environment's. *)
Definition normalize_storage_url (current_dir : result IoErr path) (raw : bytes) : result UrlError bytes :=
  match path_part raw with
  | None => Ok raw
  | Some p =>
      let? absolute :=
        if is_absolute p then Ok p
        else let? cwd := map_err NoCurrentDir current_dir in Ok (join cwd p) in
      let cleaned := clean_path absolute in
      match from_file_path cleaned with
      | Some url => Ok (url_string url)
      | None => Err (InvalidInput cleaned)
      end
  end.

(** What [AppState::with_metrics] opens. *)
Definition with_metrics (current_dir : result IoErr path) (config : Config) : result UrlError (bytes * CacheConfig * ObjectDb) :=
  let? storage_url := normalize_storage_url current_dir (storage_url config) in
  let cache := mkCacheConfig (cache_dir config) (cache_memory_bytes config) (cache_disk_bytes config) in
  Ok (storage_url, cache, mkObjectDb (Z.to_nat (inline_threshold config)) (object_compression_level config)).

Definition redact_storage_url (raw : bytes) : bytes :=
  match url_parse raw with
  | None => raw
  | Some url =>
      if bool_decide (username url = []) && bool_decide (password url = None) then url_string url
      else
        match set_username [] url ≫= set_password None with
        | Some url => url_string url
        | None => scheme url ++ bs "://<redacted>"
        end
  end.

End storage.
Arguments UrlError : clear implicits.

(** ** Cleaned paths *)

(** The names a path comes down to, the last one first: each [..] takes away the
    nearest name before it, and nothing at the root. *)
Fixpoint survivors (skip : nat) (reversed : list Component) : list bytes :=
  match reversed with
  | [] | RootDir :: _ => []
  | CurDir :: l => survivors skip l
  | ParentDir :: l => survivors (S skip) l
  | Normal name :: l => match skip with O => name :: survivors 0 l | S skip' => survivors skip' l end
  end.

Lemma survivors_drop skip l : survivors skip l = drop skip (survivors 0 l).
Proof.
  revert skip. induction l as [| [] l IH]; intros skip; cbn [survivors]; [by rewrite drop_nil | by rewrite drop_nil | auto | |].
  - by rewrite (IH (S skip)), (IH 1), drop_drop.
  - destruct skip as [| skip]; [done | exact (IH skip)].
Qed.

Definition relative (c : Component) : Prop := c <> RootDir.

Lemma clean_fold l :
  Forall relative l ->
  fold_left clean_step l [RootDir] = RootDir :: map Normal (rev (survivors 0 (rev l))).
Proof.
  induction l as [| c l IH] using rev_ind; intros Hl; [done |]. apply Forall_app in Hl as [Hl Hc].
  rewrite fold_left_app, IH, rev_app_distr by done. cbn [fold_left rev app].
  destruct c as [| | | name]; cbn [survivors clean_step]; [by apply Forall_cons in Hc as [[] _] | done | |].
  - rewrite (survivors_drop 1). destruct (survivors 0 (rev l)) as [| name rest]; [done |].
    cbn [drop rev]. rewrite map_app. cbn [map]. unfold pop. rewrite app_comm_cons, last_snoc. cbn [last].
    by rewrite removelast_last.
  - cbn [push rev]. by rewrite map_app.
Qed.

(** Names a component may have. *)
Definition proper (name : bytes) : Prop := name <> [] /\ name <> bs "." /\ name <> bs ".." /\ x2f ∉ name.

Lemma components_absolute p :
  is_absolute p = true ->
  exists rest, components p = RootDir :: rest /\ Forall relative rest /\ forall name, Normal name ∈ rest -> proper name.
Proof.
  intros Ha. unfold components. rewrite Ha. cbn [app]. eexists. split; [done |].
  pose proof (split_on_no_sep x2f p) as Hs. destruct (split_on x2f p) as [| first rest]; [split; [constructor |]; by intros name ?%elem_of_nil |].
  assert (Hp : forall b name c, x2f ∉ name -> piece b name = Some c -> relative c /\ forall n, c = Normal n -> proper n).
  { intros b name c Hn. unfold piece. repeat case_decide; [done | | |].
    - destruct b; [| done]. by intros [= <-].
    - by intros [= <-].
    - intros [= <-]. split; [done |]. by intros n [= <-]. }
  assert (Hall : forall c, c ∈ omap id [piece true first] ++ omap (piece false) rest -> relative c /\ forall n, c = Normal n -> proper n).
  { apply Forall_cons in Hs as [Hf Hr]. intros c [(o & Ho & E)%list_elem_of_omap | (name & Hn & E)%list_elem_of_omap]%elem_of_app.
    - apply list_elem_of_singleton in Ho as ->. by apply (Hp true first).
    - rewrite List.Forall_forall in Hr. apply list_elem_of_In in Hn. by apply (Hp false name), E; apply Hr. }
  split; [apply List.Forall_forall; intros c Hc%list_elem_of_In; by apply Hall | intros name Hn; by eapply Hall].
Qed.

Lemma survivors_root skip l : survivors skip (l ++ [RootDir]) = survivors skip l.
Proof.
  revert skip. induction l as [| [] l IH]; intros skip; cbn [app survivors]; [done.. | |].
  all: try apply IH. destruct skip; [by rewrite IH | apply IH].
Qed.

Lemma survivors_from skip l name : name ∈ survivors skip l -> Normal name ∈ l.
Proof.
  revert skip. induction l as [| [] l IH]; intros skip; cbn [survivors]; [by intros ?%elem_of_nil | by intros ?%elem_of_nil | | |].
  - intros H%IH. by right.
  - intros H%IH. by right.
  - destruct skip; [intros [-> | H%IH]%elem_of_cons; [by left | by right] | intros H%IH; by right].
Qed.

(** The path of names, as text. *)
Definition display (names : list bytes) : path := bs "/" ++ join_with x2f names.

Lemma display_components names : Forall proper names -> components (display names) = RootDir :: map Normal names.
Proof.
  intros Hn. unfold components. change (is_absolute (display names)) with true. cbn [app]. f_equal.
  change (display names) with (x2f :: join_with x2f names). cbn [split_on]. rewrite decide_True by done. cbn [omap list_omap].
  change (piece true []) with (@None Component). cbn [id app].
  destruct names as [| name names]; [done |].
  rewrite split_on_join; [| done | eapply Forall_impl; [exact Hn |]; by intros ? (_ & _ & _ & ?)].
  induction Hn as [| n l (H1 & H2 & H3 & _) _ IH]; [done |]. cbn [omap list_omap map].
  unfold piece at 1. rewrite !decide_False by done. by rewrite IH.
Qed.

(** Where an absolute path leads. *)
Definition location (p : path) : list bytes := rev (survivors 0 (rev (components p))).

Lemma clean_path_location p :
  is_absolute p = true -> clean_path p = RootDir :: map Normal (location p) /\ Forall proper (location p).
Proof.
  intros (rest & Hc & Hrel & Hp)%components_absolute. unfold clean_path, location. rewrite Hc. cbn [fold_left clean_step push rev].
  rewrite survivors_root, clean_fold by done. split; [done |]. apply List.Forall_forall. intros name Hn%list_elem_of_In.
  apply Hp. apply elem_of_rev, survivors_from in Hn. by apply elem_of_rev.
Qed.

Lemma location_display names : Forall proper names -> location (display names) = names.
Proof.
  intros Hn. unfold location. rewrite display_components by done. cbn [rev]. rewrite survivors_root.
  rewrite <- map_rev. transitivity (rev (rev names)); [f_equal | by rewrite rev_involutive].
  induction (rev names) as [| n l IH]; [done |]. cbn. by rewrite IH.
Qed.

Lemma join_absolute base p : is_absolute base = true -> is_absolute (join base p) = true.
Proof.
  intros Hb. unfold join. destruct (is_absolute p) eqn:E; [done |]. destruct (last base) as [c |] eqn:El.
  - destruct base as [| b base]; [done |]. case_decide; exact Hb.
  - by apply last_None in El as ->.
Qed.

Section urls.
Context {Url : Type} {Ul : UrlLib Url} {IoErr : Type}.

(** What follows [file://] is taken as a path as it is written, the escapes of a
    URL included. *)
Lemma url_taken_undecoded (dir : result IoErr path) p :
  is_absolute p = true ->
  normalize_storage_url dir (bs "file://" ++ p)
  = match from_file_path (RootDir :: map Normal (location p)) with
    | Some url => Ok (url_string url)
    | None => Err (InvalidInput (RootDir :: map Normal (location p)))
    end.
Proof.
  intros Hp. unfold normalize_storage_url. change (path_part (bs "file://" ++ p)) with (Some p).
  cbn [mbind result_bind]. rewrite Hp. cbn [mbind result_bind].
  by destruct (clean_path_location p Hp) as [-> _].
Qed.

(** C38: a storage URL is opened where it points.  A URL of another scheme is
    left alone; a [file] URL or a path, relative to the current directory or
    not, becomes the URL of an absolute path with no [.] and no [..], naming
    the place the components lead to, each [..] taking back the name before it;
    the only other outcome is an error, when that path has no URL.  The plain
    [file://] spelling of the place gives the same URL in any directory, so
    where the URL needs no escapes normalizing it again changes nothing. *)
Theorem normalize_storage_url_canonical (cwd : path) raw :
  is_absolute cwd = true ->
  match normalize_storage_url (IoErr := IoErr) (Ok cwd) raw with
  | Ok out =>
      (path_part raw = None /\ out = raw)
      \/ exists p names url, path_part raw = Some p /\ names = location (join cwd p) /\ Forall proper names
           /\ from_file_path (RootDir :: map Normal names) = Some url /\ out = url_string url
           /\ (forall dir, normalize_storage_url (IoErr := IoErr) dir (bs "file://" ++ display names) = Ok out)
           /\ (out = bs "file://" ++ display names -> forall dir, normalize_storage_url (IoErr := IoErr) dir out = Ok out)
  | Err e => exists p, path_part raw = Some p /\ e = InvalidInput (RootDir :: map Normal (location (join cwd p)))
      /\ from_file_path (Url := Url) (RootDir :: map Normal (location (join cwd p))) = None
  end.
Proof.
  intros Hcwd. unfold normalize_storage_url at 1. destruct (path_part raw) as [p |] eqn:Ep; [| by left].
  assert (E : (if is_absolute p then Ok p else let? cwd := map_err NoCurrentDir (Ok cwd) in Ok (join cwd p))
    = Ok (E := UrlError IoErr) (join cwd p)).
  { unfold join. by destruct (is_absolute p). }
  cbn [map_err mbind result_bind] in *. rewrite E. cbn [mbind result_bind].
  destruct (clean_path_location (join cwd p) (join_absolute _ _ Hcwd)) as [Hc Hp]. rewrite Hc.
  destruct (from_file_path _) as [url |] eqn:Eu; [| by exists p].
  right. exists p, (location (join cwd p)), url. do 5 (split; [done |]).
  assert (forall dir : result IoErr path,
    normalize_storage_url dir (bs "file://" ++ display (location (join cwd p))) = Ok (url_string url)) as Hagain.
  { intros dir. rewrite url_taken_undecoded by done. by rewrite location_display, Eu. }
  split; [done |]. intros Hplain dir. rewrite Hplain at 1. apply Hagain.
Qed.


(** *** Logged URLs *)

(** What is logged of a storage URL holds no credentials: it is the text of
    a URL without user name and password, or its scheme; only a string that is
    no URL is logged as it is. *)
Theorem redacted_has_no_credentials raw url :
  url_parse raw = Some url ->
  (exists url', redact_storage_url raw = url_string url' /\ username url' = [] /\ password url' = None)
  \/ redact_storage_url raw = scheme url ++ bs "://<redacted>".
Proof.
  intros E. unfold redact_storage_url. rewrite E. destruct (bool_decide (username url = []) && _) eqn:Eb.
  - apply andb_true_iff in Eb as [Hu%bool_decide_eq_true Hp%bool_decide_eq_true]. left. by exists url.
  - destruct (set_username [] url) as [u1 |] eqn:E1; [| by right]. cbn [mbind option_bind].
    destruct (set_password None u1) as [u2 |] eqn:E2; [| by right]. left. exists u2. split; [done |].
    apply set_username_spec in E1 as [E1 _]. apply set_password_spec in E2 as [-> ->]. done.
Qed.

End urls.

(** ** The layers of a setting *)

Definition from_user (src : option ValueSource) : bool :=
  match src with Some (CommandLine | EnvVariable) => true | _ => false end.

(** An explicit value, else the file's, else the built-in one. *)
Definition effective {A} (src : option ValueSource) (cli : A) (file : option A) (builtin : A) : A :=
  if from_user src then cli else default builtin file.

(** What clap documents of a parse: every setting with a built-in default has
    a source and the default when that is it, and the one without a default
    has none when it was not given. *)
Record parsed (value_source : string -> option ValueSource) (builtin config : Config) : Prop := {
  pa_source : forall id, id ∈ ["bind_addr"; "storage_url"; "inline_threshold"; "auto_create_repos"; "staging_root";
    "cache_memory_bytes"; "cache_disk_bytes"; "warm_on_start"; "object_compression_level"] -> is_Some (value_source id);
  pa_bind : value_source "bind_addr" = Some DefaultValue -> bind_addr config = bind_addr builtin;
  pa_url : value_source "storage_url" = Some DefaultValue -> storage_url config = storage_url builtin;
  pa_inline : value_source "inline_threshold" = Some DefaultValue -> inline_threshold config = inline_threshold builtin;
  pa_auto : value_source "auto_create_repos" = Some DefaultValue -> auto_create_repos config = auto_create_repos builtin;
  pa_staging : value_source "staging_root" = Some DefaultValue -> staging_root config = staging_root builtin;
  pa_cache : from_user (value_source "cache_dir") = false -> cache_dir config = None;
  pa_memory : value_source "cache_memory_bytes" = Some DefaultValue -> cache_memory_bytes config = cache_memory_bytes builtin;
  pa_disk : value_source "cache_disk_bytes" = Some DefaultValue -> cache_disk_bytes config = cache_disk_bytes builtin;
  pa_warm : value_source "warm_on_start" = Some DefaultValue -> warm_on_start config = warm_on_start builtin;
  pa_level : value_source "object_compression_level" = Some DefaultValue ->
    object_compression_level config = object_compression_level builtin;
}.

Definition no_file : FileConfig := mkFile None None None None None None None None None None None.

Lemma layer_effective {A} (value_source : string -> option ValueSource) id (file : option A) value builtin :
  is_Some (value_source id) -> (value_source id = Some DefaultValue -> value = builtin) ->
  layer value_source id file value = effective (value_source id) value file builtin.
Proof.
  intros [src E] Hd. unfold layer, effective, left_at_default. rewrite E in *. destruct src; cbn; [| done..].
  rewrite bool_decide_eq_true_2 by done. destruct file; [done | by apply Hd].
Qed.

Lemma merge_effective value_source builtin config file :
  parsed value_source builtin config ->
  let src := value_source in
  merge_file_config value_source config file = mkConfig
    (effective (src "bind_addr") (bind_addr config) (f_bind_addr file) (bind_addr builtin))
    (effective (src "storage_url") (storage_url config) (f_storage_url file) (storage_url builtin))
    (effective (src "inline_threshold") (inline_threshold config) (f_inline_threshold file) (inline_threshold builtin))
    (effective (src "auto_create_repos") (auto_create_repos config) (f_auto_create_repos file) (auto_create_repos builtin))
    (effective (src "staging_root") (staging_root config) (f_staging_root file) (staging_root builtin))
    (if from_user (src "cache_dir") then cache_dir config else f_cache_dir file)
    (effective (src "cache_memory_bytes") (cache_memory_bytes config) (f_cache_memory_bytes file) (cache_memory_bytes builtin))
    (effective (src "cache_disk_bytes") (cache_disk_bytes config) (f_cache_disk_bytes file) (cache_disk_bytes builtin))
    (effective (src "warm_on_start") (warm_on_start config) (f_warm_on_start file) (warm_on_start builtin))
    (effective (src "object_compression_level") (object_compression_level config) (f_object_compression_level file)
       (object_compression_level builtin))
    (config_path config).
Proof.
  intros [Hs ? ? ? ? ? Hc ? ? ? ?] src. unfold merge_file_config. f_equal.
  all: try (apply layer_effective; [apply Hs, (bool_decide_eq_true _); reflexivity | assumption]).
  unfold layer_cache_dir, src. destruct (value_source "cache_dir") as [[] |]; cbn in *; destruct (f_cache_dir file); auto.
Qed.

(** Without a file, the settings are as parsed. *)
Lemma merge_no_file value_source config : merge_file_config value_source config no_file = config.
Proof.
  unfold merge_file_config, layer, layer_cache_dir. cbn. destruct config; cbn. f_equal; try (by case_match).
  all: by destruct (value_source _) as [[] |].
Qed.

Section configured.
Context {IoErr TomlErr : Type}.
Context (read_to_string : path -> result IoErr bytes) (from_toml : bytes -> result TomlErr FileConfig).
Context (is_directive : bytes -> bool).

(** The file a configuration names, or none. *)
Definition file_of (config : Config) (file : FileConfig) : Prop :=
  match config_path config with
  | None => file = no_file
  | Some p => exists text, read_to_string p = Ok text /\ from_toml text = Ok file
  end.

Lemma configure_merges value_source config :
  (exists file, file_of config file /\ configure read_to_string from_toml is_directive value_source config =
     let c := merge_file_config value_source config file in
     if (9 <? object_compression_level c)%Z then Err (BadLevel (object_compression_level c))
     else
       let log_filter := default DEFAULT_LOG_FILTER (f_log_filter file) in
       if is_directive log_filter then Ok (c, log_filter) else Err (BadFilter log_filter))
  \/ exists p e, config_path config = Some p /\ configure read_to_string from_toml is_directive value_source config = Err (BadFile e)
     /\ forall text, read_to_string p = Ok text -> exists e, from_toml text = Err e.
Proof.
  unfold configure, file_of. destruct (config_path config) as [p |]; cbn [mbind result_bind].
  - unfold FileConfig_load. destruct (read_to_string p) as [text | e] eqn:Er; cbn [map_err mbind result_bind].
    2: { right. exists p. eexists. split; [done | split; [done |]]. intros text. by rewrite Er. }
    destruct (from_toml text) as [file | e] eqn:Et; cbn [map_err mbind result_bind option_bind].
    + left. exists file. split; [by exists text | done].
    + right. exists p. eexists. split; [done | split; [done |]]. rewrite Er. intros text' [= <-]. by exists e.
  - left. exists no_file. split; [done |]. cbv zeta. by rewrite merge_no_file.
Qed.

(** How the server is configured.  A start-up that is not refused runs with,
    for each setting, the value given on the command line or in the
    environment, else the one in the file, else the built-in one; its
    compression level is one zlib has.  It is refused only for a file that
    cannot be read or parsed, a level out of range in those layers, or a log
    filter that is none. *)
Theorem configure_layers value_source builtin config :
  parsed value_source builtin config ->
  match configure read_to_string from_toml is_directive value_source config with
  | Ok (c, filter) => exists file, file_of config file
      /\ bind_addr c = effective (value_source "bind_addr") (bind_addr config) (f_bind_addr file) (bind_addr builtin)
      /\ storage_url c = effective (value_source "storage_url") (storage_url config) (f_storage_url file) (storage_url builtin)
      /\ inline_threshold c = effective (value_source "inline_threshold") (inline_threshold config) (f_inline_threshold file)
           (inline_threshold builtin)
      /\ auto_create_repos c = effective (value_source "auto_create_repos") (auto_create_repos config) (f_auto_create_repos file)
           (auto_create_repos builtin)
      /\ staging_root c = effective (value_source "staging_root") (staging_root config) (f_staging_root file) (staging_root builtin)
      /\ cache_dir c = (if from_user (value_source "cache_dir") then cache_dir config else f_cache_dir file)
      /\ cache_memory_bytes c = effective (value_source "cache_memory_bytes") (cache_memory_bytes config)
           (f_cache_memory_bytes file) (cache_memory_bytes builtin)
      /\ cache_disk_bytes c = effective (value_source "cache_disk_bytes") (cache_disk_bytes config)
           (f_cache_disk_bytes file) (cache_disk_bytes builtin)
      /\ warm_on_start c = effective (value_source "warm_on_start") (warm_on_start config) (f_warm_on_start file)
           (warm_on_start builtin)
      /\ object_compression_level c = effective (value_source "object_compression_level") (object_compression_level config)
           (f_object_compression_level file) (object_compression_level builtin)
      /\ (object_compression_level c <= 9)%Z /\ filter = default DEFAULT_LOG_FILTER (f_log_filter file)
      /\ is_directive filter = true
  | Err (BadFile _) => exists p, config_path config = Some p
      /\ forall text, read_to_string p = Ok text -> exists e, from_toml text = Err e
  | Err (BadLevel n) => exists file, file_of config file /\ (9 < n)%Z
      /\ n = effective (value_source "object_compression_level") (object_compression_level config)
           (f_object_compression_level file) (object_compression_level builtin)
  | Err (BadFilter filter) => is_directive filter = false /\ exists file, file_of config file
      /\ filter = default DEFAULT_LOG_FILTER (f_log_filter file)
  | Err WarmWithoutCache => False
  end.
Proof.
  intros Hp. destruct (configure_merges value_source config) as [(file & Hf & ->) | (p & e & Hpath & -> & Ht)]; [| by exists p].
  cbv zeta. rewrite (merge_effective value_source builtin config file Hp).
  match goal with |- context [(9 <? ?n)%Z] => destruct (Z.ltb_spec 9 n) as [H9 | H9] end; [exists file; by split |].
  destruct (is_directive _) eqn:Ed; [| split; [done |]; by exists file].
  exists file. repeat (split; [done |]). done.
Qed.

End configured.

(** What was configured is what deflates. *)
Lemma started_level {IoErr TomlErr Url : Type} `{UrlLib Url} read_to_string from_toml is_directive value_source config c filter
    (cwd : result IoErr path) url cache odb :
  configure (IoErr := IoErr) (TomlErr := TomlErr) read_to_string from_toml is_directive value_source config = Ok (c, filter) ->
  (0 <= object_compression_level c)%Z -> with_metrics cwd c = Ok (url, cache, odb) -> (0 <= compression_level odb <= 9)%Z.
Proof.
  intros E Hlo Hw. unfold with_metrics in Hw. destruct (normalize_storage_url cwd (storage_url c)); [| done].
  injection Hw as _ _ <-. cbn [compression_level]. split; [done |].
  destruct (configure_merges read_to_string from_toml is_directive value_source config) as [(file & _ & Em) | (p & e & _ & Em & _)];
    rewrite E in Em; [| done].
  cbv zeta in Em. revert Em. match goal with |- context [(9 <? ?n)%Z] => destruct (Z.ltb_spec 9 n) as [H9 | H9] end; [done |].
  destruct (is_directive _); [| done]. intros [= -> _]. exact H9.
Qed.

(** ** A sample start-up *)
Module PlainUrl.

Record url : Type := mkUrl { u_scheme : bytes; u_user : bytes; u_password : option bytes; u_rest : bytes }.

Definition names_of (comps : list Component) : list bytes := omap (fun c => match c with Normal n => Some n | _ => None end) comps.

Definition parse_rest (s rest : bytes) : url :=
  match split_once x40 rest with
  | None => mkUrl s [] None rest
  | Some (info, host) =>
      match split_once x3a info with
      | None => mkUrl s info None host
      | Some (user, secret) => mkUrl s user (Some secret) host
      end
  end.

Definition parse (raw : bytes) : option url :=
  p ← split_once x3a raw; let '(s, rest) := p in rest ← Prelude.strip_prefix (bs "//") rest; Some (parse_rest s rest).

Definition text (u : url) : bytes :=
  u_scheme u ++ bs "://"
  ++ (match u_user u, u_password u with
      | [], None => []
      | user, None => user ++ bs "@"
      | user, Some secret => user ++ bs ":" ++ secret ++ bs "@"
      end)
  ++ u_rest u.

#[refine, export] Instance lib : UrlLib url := {|
  from_file_path comps := Some (mkUrl (bs "file") [] None (display (names_of comps)));
  url_parse := parse;
  username := u_user;
  password := u_password;
  set_username name u := Some (mkUrl (u_scheme u) name (u_password u) (u_rest u));
  set_password secret u := Some (mkUrl (u_scheme u) (u_user u) secret (u_rest u));
  scheme := u_scheme;
  url_string := text;
|}.
Proof.
  - by intros name u u' [= <-].
  - by intros secret u u' [= <-].
Defined.

End PlainUrl.

Module ConfigSample.

Definition builtin : Config := Config_default (bs "/tmp").

(** [--inline-threshold 100 --config git.toml], and a file with a level and
    another threshold. *)
Definition value_source (id : string) : option ValueSource :=
  if decide (id = "inline_threshold") then Some CommandLine
  else if decide (id = "cache_dir") then None else Some DefaultValue.

Definition config : Config :=
  mkConfig default_bind_addr (bs "file://./miscreant-data") 100 true (bs "/tmp/miscreant-staging") None
    536870912 34359738368 false 6 (Some (bs "git.toml")).

Definition file (level : Z) : FileConfig := mkFile None None (Some 10%Z) (Some false) None None None None None (Some level) None.

Definition read (p : path) : result unit bytes := Ok (bs "level").
Definition toml (level : Z) (_ : bytes) : result unit FileConfig := Ok (file level).

Lemma sample_parsed : parsed value_source builtin config.
Proof.
  split; try done. intros id Hid. unfold value_source. case_decide; [done |]. case_decide as E; [| done].
  subst id. exfalso. revert Hid. rewrite list_elem_of_In. cbn. intuition discriminate.
Qed.

Definition configured (level : Z) : result (StartupError unit unit) (Config * bytes) := configure read (toml level) (fun _ => true) value_source config.

Example level_refused : configured 10 = Err (BadLevel 10).
Proof. done. Qed.

End ConfigSample.

Import ConfigSample.

(** The command line's threshold, the file's level and switch. *)
Lemma configure_layers_witness :
  exists c filter, configured 3 = Ok (c, filter) /\ inline_threshold c = 100%Z /\ object_compression_level c = 3%Z
    /\ auto_create_repos c = false /\ (object_compression_level c <= 9)%Z.
Proof.
  pose proof (configure_layers read (toml 3) (fun _ => true) value_source builtin config sample_parsed) as H.
  assert (E : exists c filter, configured 3 = Ok (c, filter)) by (eexists _, _; reflexivity).
  destruct E as (c & filter & E). exists c, filter. unfold configured in *. rewrite E in H.
  destruct H as (f & (text & _ & [= <-]) & _ & _ & Hi & Ha & _ & _ & _ & _ & _ & Hl & H9 & _).
  split; [exact E |]. split; [exact Hi |]. split; [exact Hl |]. split; [exact Ha | exact H9].
Defined.

(** The default URL, in a directory. *)
Lemma normalize_storage_url_canonical_witness :
  normalize_storage_url (Ul := PlainUrl.lib) (Ok (E := unit) (bs "/srv/./git/..")) (bs "file://./miscreant-data")
    = Ok (bs "file:///srv/miscreant-data")
  /\ forall dir, normalize_storage_url (Ul := PlainUrl.lib) (IoErr := unit) dir (bs "file:///srv/miscreant-data")
       = Ok (bs "file:///srv/miscreant-data").
Proof.
  pose proof (normalize_storage_url_canonical (Ul := PlainUrl.lib) (IoErr := unit) (bs "/srv/./git/..") (bs "file://./miscreant-data")
    eq_refl) as H.
  assert (E : normalize_storage_url (Ul := PlainUrl.lib) (Ok (E := unit) (bs "/srv/./git/..")) (bs "file://./miscreant-data")
    = Ok (bs "file:///srv/miscreant-data")) by (vm_compute; reflexivity).
  rewrite E in H. split; [exact E |]. destruct H as [[H _] | (p & names & url & Hp & -> & _ & _ & _ & _ & Hdir)]; [discriminate H |].
  injection Hp as <-. exact (Hdir eq_refl).
Defined.

(** With a library that escapes spaces and percent signs, the URL made of a path
    with a space names another place when it is normalized again. *)
Definition escape (b : bytes) : bytes :=
  concat (map (fun c => if decide (c = x20) then bs "%20" else if decide (c = x25) then bs "%25" else [c]) b).

Definition escaping : UrlLib PlainUrl.url := {|
  from_file_path comps := Some (PlainUrl.mkUrl (bs "file") [] None (escape (display (PlainUrl.names_of comps))));
  url_parse := url_parse (UrlLib := PlainUrl.lib);
  username := username (UrlLib := PlainUrl.lib);
  password := password (UrlLib := PlainUrl.lib);
  set_username := set_username (UrlLib := PlainUrl.lib);
  set_password := set_password (UrlLib := PlainUrl.lib);
  scheme := scheme (UrlLib := PlainUrl.lib);
  url_string := url_string (UrlLib := PlainUrl.lib);
  set_username_spec := set_username_spec (UrlLib := PlainUrl.lib);
  set_password_spec := set_password_spec (UrlLib := PlainUrl.lib);
|}.

Example normalized_twice :
  let normalize raw := normalize_storage_url (Ul := escaping) (Ok (E := unit) (bs "/srv")) raw in
  normalize (bs "my data") = Ok (bs "file:///srv/my%20data")
  /\ normalize (bs "file:///srv/my%20data") = Ok (bs "file:///srv/my%2520data").
Proof. split; vm_compute; reflexivity. Qed.

Lemma redacted_has_no_credentials_witness :
  redact_storage_url (Ul := PlainUrl.lib) (bs "s3://key:secret@bucket/prefix") = bs "s3://bucket/prefix"
  /\ exists url, PlainUrl.text url = bs "s3://bucket/prefix" /\ PlainUrl.u_user url = [] /\ PlainUrl.u_password url = None.
Proof.
  assert (E : redact_storage_url (Ul := PlainUrl.lib) (bs "s3://key:secret@bucket/prefix") = bs "s3://bucket/prefix")
    by (vm_compute; reflexivity).
  split; [exact E |]. rewrite <- E.
  destruct (redacted_has_no_credentials (Ul := PlainUrl.lib) (bs "s3://key:secret@bucket/prefix")
    (PlainUrl.mkUrl (bs "s3") (bs "key") (Some (bs "secret")) (bs "bucket/prefix")) eq_refl) as [(url & -> & Hu & Hp) | H].
  - exists url. split; [reflexivity | split; [exact Hu | exact Hp]].
  - rewrite E in H. discriminate H.
Defined.
