(* ===== verification/SingleFlight.v ===== *)
(** * Sharing one execution between concurrent callers

    [src/storage/part_cache/single_flight.rs].  Callers of the same key
    share a [tokio::sync::OnceCell] found through the map [in_flight]; one of
    them runs its function, the others wait for the value.  Calls run
    concurrently, so the component is a transition system: a state [SF], one
    function per step a caller's future takes between two suspension points,
    and the reachable states as the closure of their steps.

    The cell is a library type: [OnceCellLib] is what its documentation says
    of it. *)

From S2P Require Import Prelude.
From stdpp Require Import gmap.
From Stdlib Require Import Lia.

(** ** The once cell *)

(** What polling [get_or_try_init] answers: the stored value, the permit to
    run the initialiser, or a suspension. *)
Inductive Poll (T : Type) : Type :=
  | Ready (v : T)
  | Start
  | Pending.
Arguments Ready {T} v.
Arguments Start {T}.
Arguments Pending {T}.

(** Callers are named by numbers; [oc_queue] are those suspended on the cell. *)
Class OnceCellLib (T : Type) : Type := {
  OC : Type;
  oc_value : OC -> option T;
  oc_owner : OC -> option nat;
  oc_queue : OC -> gset nat;
  oc_new : OC;
  oc_poll : nat -> OC -> Poll T * OC;
  oc_set : T -> OC -> OC;
  oc_release : OC -> OC;
  oc_leave : nat -> OC -> OC;

  oc_new_spec : oc_value oc_new = None /\ oc_owner oc_new = None /\ oc_queue oc_new = ∅;
  (** a set cell answers at once, and only a set cell answers *)
  oc_poll_set : forall i c v, oc_value c = Some v -> (oc_poll i c).1 = Ready v;
  oc_poll_spec : forall i c r c', oc_poll i c = (r, c') ->
    oc_value c' = oc_value c
    /\ match r with
       | Ready v => oc_value c = Some v /\ oc_owner c' = oc_owner c /\ oc_queue c' = oc_queue c ∖ {[i]}
       | Start => oc_value c = None /\ oc_owner c = None /\ oc_owner c' = Some i
           /\ oc_queue c' = oc_queue c ∖ {[i]}
       | Pending => oc_owner c' = oc_owner c /\ oc_queue c' = {[i]} ∪ oc_queue c
           /\ (i ∈ oc_queue c -> c' = c)
       end;
  (** an empty cell nobody initialises gives the permit to somebody who asks *)
  oc_progress : forall c (W : gset nat), oc_value c = None -> oc_owner c = None ->
    W <> ∅ -> oc_queue c ⊆ W -> exists i, i ∈ W /\ (oc_poll i c).1 = Start;
  oc_set_spec : forall v c, oc_value (oc_set v c) = Some v /\ oc_owner (oc_set v c) = None
    /\ oc_queue (oc_set v c) = oc_queue c;
  oc_release_spec : forall c, oc_value (oc_release c) = oc_value c /\ oc_owner (oc_release c) = None
    /\ oc_queue (oc_release c) = oc_queue c;
  oc_leave_spec : forall i c, oc_value (oc_leave i c) = oc_value c /\ oc_owner (oc_leave i c) = oc_owner c
    /\ oc_queue (oc_leave i c) = oc_queue c ∖ {[i]}
}.

(** ** The state *)

Section single_flight.
Context {K : Type} `{Countable K}.
Context {T E : Type} {OL : OnceCellLib T}.

(** Where a caller's future stands in [get_or_try_init]. *)
Inductive Phase : Type :=
  | Waiting
  | Running
  | Done (r : result E T).

(** [EntryGuard], with the phase of the call that owns it. *)
Record EntryGuard : Type := mkEntryGuard {
  eg_cell : nat;
  eg_key : K;
  eg_phase : Phase
}.

(** An initialiser's run: who ran it, for which key and cell, its result. *)
Record Run : Type := mkRun {
  run_caller : nat;
  run_key : K;
  run_cell : nat;
  run_result : result E T
}.

(** [in_flight] maps keys to the cells they share; [sf_cells] is the heap of
    the cells allocated so far, [sf_guards] the calls in progress, [sf_log]
    the runs of initialisers and [sf_out] what calls have returned. *)
Record SF : Type := mkSF {
  in_flight : gmap K nat;
  sf_cells : list OC;
  sf_guards : gmap nat EntryGuard;
  sf_log : list Run;
  sf_out : list (nat * K * result E T)
}.

Definition sf_new : SF := mkSF ∅ [] ∅ [] [].

(** [Arc::strong_count] of a cell: one for the map and one for each guard. *)
Definition strong_count (id : nat) (s : SF) : nat :=
  size (filter (fun kc : K * nat => kc.2 = id) (in_flight s))
  + size (filter (fun ig : nat * EntryGuard => eg_cell ig.2 = id) (sf_guards s)).

(** [EntryGuard::drop]: the guard's own reference goes first, then the entry
    if the map's is the last one. *)
Definition drop_guard (i : nat) (g : EntryGuard) (s : SF) : SF :=
  let s1 := mkSF (in_flight s) (sf_cells s) (delete i (sf_guards s)) (sf_log s) (sf_out s) in
  match in_flight s1 !! eg_key g with
  | Some id =>
      if decide (strong_count id s1 = 1)
      then mkSF (delete (eg_key g) (in_flight s1)) (sf_cells s1) (sf_guards s1) (sf_log s1) (sf_out s1)
      else s1
  | None => s1
  end.

Definition set_phase (i : nat) (g : EntryGuard) (p : Phase) (s : SF) : SF :=
  mkSF (in_flight s) (sf_cells s) (<[i := mkEntryGuard (eg_cell g) (eg_key g) p]> (sf_guards s))
    (sf_log s) (sf_out s).

Definition set_cell (id : nat) (c : OC) (s : SF) : SF :=
  mkSF (in_flight s) (<[id := c]> (sf_cells s)) (sf_guards s) (sf_log s) (sf_out s).

(** [call], up to the release of the lock: share the key's cell or insert a
    fresh one. *)
Definition call_enter (i : nat) (key : K) (s : SF) : SF :=
  match in_flight s !! key with
  | Some id =>
      mkSF (in_flight s) (sf_cells s) (<[i := mkEntryGuard id key Waiting]> (sf_guards s))
        (sf_log s) (sf_out s)
  | None =>
      let id := length (sf_cells s) in
      mkSF (<[key := id]> (in_flight s)) (sf_cells s ++ [oc_new])
        (<[i := mkEntryGuard id key Waiting]> (sf_guards s)) (sf_log s) (sf_out s)
  end.

(** [get_or_try_init], polled. *)
Definition call_poll (i : nat) (s : SF) : option SF :=
  match sf_guards s !! i with
  | Some g =>
      match eg_phase g, sf_cells s !! eg_cell g with
      | Waiting, Some c =>
          let '(r, c') := oc_poll i c in
          let s1 := set_cell (eg_cell g) c' s in
          Some match r with
               | Ready v => set_phase i g (Done (Ok v)) s1
               | Start => set_phase i g Running s1
               | Pending => s1
               end
      | _, _ => None
      end
  | None => None
  end.

(** The caller's function returns [r] to [get_or_try_init]: a value is stored
    for everybody, an error leaves the cell empty for the next to retry. *)
Definition call_finish (i : nat) (r : result E T) (s : SF) : option SF :=
  match sf_guards s !! i with
  | Some g =>
      match eg_phase g, sf_cells s !! eg_cell g with
      | Running, Some c =>
          let c' := match r with Ok v => oc_set v c | Err _ => oc_release c end in
          let s1 := set_phase i g (Done r) (set_cell (eg_cell g) c' s) in
          Some (mkSF (in_flight s1) (sf_cells s1) (sf_guards s1)
                  (mkRun i (eg_key g) (eg_cell g) r :: sf_log s1) (sf_out s1))
      | _, _ => None
      end
  | None => None
  end.

(** [call] returns its value; the guard is dropped on the way out. *)
Definition call_return (i : nat) (s : SF) : option SF :=
  match sf_guards s !! i with
  | Some g =>
      match eg_phase g with
      | Done r =>
          let s1 := drop_guard i g s in
          Some (mkSF (in_flight s1) (sf_cells s1) (sf_guards s1) (sf_log s1)
                  ((i, eg_key g, r) :: sf_out s1))
      | _ => None
      end
  | None => None
  end.

(** The caller drops its future before it is done: the cell loses its waiter
    or gets the permit back, and the guard goes as on return. *)
Definition call_cancel (i : nat) (s : SF) : option SF :=
  match sf_guards s !! i with
  | Some g =>
      match sf_cells s !! eg_cell g with
      | Some c =>
          let c' := match eg_phase g with
                    | Waiting => oc_leave i c
                    | Running => oc_release c
                    | Done _ => c
                    end in
          Some (drop_guard i g (set_cell (eg_cell g) c' s))
      | None => None
      end
  | None => None
  end.

(** ** Runs of the system *)

Inductive Event : Type :=
  | Enter (i : nat) (key : K)
  | PollCell (i : nat)
  | Finish (i : nat) (r : result E T)
  | Return (i : nat)
  | Cancel (i : nat).

Definition sf_step (e : Event) (s : SF) : option SF :=
  match e with
  | Enter i key =>
      match sf_guards s !! i with
      | None => Some (call_enter i key s)
      | Some _ => None
      end
  | PollCell i => call_poll i s
  | Finish i r => call_finish i r s
  | Return i => call_return i s
  | Cancel i => call_cancel i s
  end.

Inductive reachable : SF -> Prop :=
  | reachable_new : reachable sf_new
  | reachable_step s e s' : reachable s -> sf_step e s = Some s' -> reachable s'.

(** ** What every reachable state satisfies *)

Definition active (s : SF) (i : nat) (g : EntryGuard) : Prop := sf_guards s !! i = Some g.

(** A cell in use: its holder is the one caller that runs, its waiters are
    callers that wait, its value was returned by one run and no other run of
    the cell succeeded. *)
Record cell_ok (s : SF) (id : nat) (c : OC) : Prop := mkCellOk {
  ok_owner : forall i, oc_owner c = Some i <-> exists key, active s i (mkEntryGuard id key Running);
  ok_queue : forall i, i ∈ oc_queue c -> exists key, active s i (mkEntryGuard id key Waiting);
  ok_value : forall v, oc_value c = Some v <->
    exists i key, mkRun i key id (Ok v) ∈ sf_log s;
  ok_free : forall v, oc_value c = Some v -> oc_owner c = None
}.

(** What a finished call is about to return. *)
Definition done_ok (s : SF) (i : nat) (g : EntryGuard) : Prop :=
  match eg_phase g with
  | Done (Ok v) => exists j, mkRun j (eg_key g) (eg_cell g) (Ok v) ∈ sf_log s
  | Done (Err e) => mkRun i (eg_key g) (eg_cell g) (Err e) ∈ sf_log s
  | _ => True
  end.

Record sf_inv (s : SF) : Prop := mkSfInv {
  inv_shared : forall i g, active s i g -> in_flight s !! eg_key g = Some (eg_cell g);
  inv_held : forall key id, in_flight s !! key = Some id -> exists i p, active s i (mkEntryGuard id key p);
  inv_inj : forall key key' id, in_flight s !! key = Some id -> in_flight s !! key' = Some id -> key = key';
  inv_cells : forall key id, in_flight s !! key = Some id ->
    exists c, sf_cells s !! id = Some c /\ cell_ok s id c;
  inv_done : forall i g, active s i g -> done_ok s i g;
  inv_log : forall r, r ∈ sf_log s -> run_cell r < length (sf_cells s);
  inv_keyed : forall r key, r ∈ sf_log s -> in_flight s !! key = Some (run_cell r) -> run_key r = key
}.

Lemma sf_inv_new : sf_inv sf_new.
Proof. by constructor; intros *; unfold active; cbn; rewrite ?lookup_empty, ?elem_of_nil. Qed.

(** The state changes of the steps, seen through lookups. *)
Lemma active_set_phase i g p s j h :
  active (set_phase i g p s) j h <->
  (j = i /\ h = mkEntryGuard (eg_cell g) (eg_key g) p) \/ (j <> i /\ active s j h).
Proof. unfold active, set_phase. cbn. rewrite lookup_insert_Some. naive_solver. Qed.

(** A cell and the guards change together; the map stays.  The changed cell
    has to fit the new guards, the others do not see the change. *)
Lemma sf_inv_update s i g p c c' log :
  sf_inv s -> active s i g -> sf_cells s !! eg_cell g = Some c ->
  let s' := mkSF (in_flight s) (<[eg_cell g := c']> (sf_cells s))
              (<[i := mkEntryGuard (eg_cell g) (eg_key g) p]> (sf_guards s)) (log ++ sf_log s) (sf_out s) in
  (forall r, r ∈ log -> run_cell r = eg_cell g /\ run_key r = eg_key g) ->
  cell_ok s' (eg_cell g) c' -> done_ok s' i (mkEntryGuard (eg_cell g) (eg_key g) p) ->
  sf_inv s'.
Proof.
  intros Hi Hg Hc s' Hlog Hok Hdone.
  assert (forall j h, active s' j h <->
    (j = i /\ h = mkEntryGuard (eg_cell g) (eg_key g) p) \/ (j <> i /\ active s j h)) as Ha.
  { intros j h. unfold active, s'. cbn. rewrite lookup_insert_Some. naive_solver. }
  constructor; unfold s'; cbn [in_flight sf_cells sf_guards sf_log]; fold s'.
  - intros j h [[-> ->] | [_ Hj]]%Ha; cbn; [by apply (inv_shared s Hi i) | by apply (inv_shared s Hi j)].
  - intros key id Hk. destruct (inv_held s Hi key id Hk) as (j & q & Hj).
    destruct (decide (j = i)) as [-> |]; [| exists j, q; apply Ha; by right].
    unfold active in *. simplify_eq. exists i, p. apply Ha. by left.
  - apply (inv_inj s Hi).
  - intros key id Hk. destruct (inv_cells s Hi key id Hk) as (c1 & Hc1 & Hok1).
    destruct (decide (id = eg_cell g)) as [-> | Hne].
    { exists c'. split; [| done]. apply list_lookup_insert_eq. by eapply lookup_lt_Some. }
    exists c1. rewrite list_lookup_insert_ne by done. split; [done |].
    destruct Hok1 as [Ho Hq Hv Hf]. constructor; [| | | done].
    + intros j. rewrite Ho. apply exist_proper. intros key'. rewrite Ha.
      destruct (decide (j = i)) as [-> |]; [| naive_solver].
      unfold active in *. split; [intros E1; rewrite E1 in Hg; simplify_eq |].
      intros [[_ E1] | [? _]]; [| done]. by simplify_eq.
    + intros j [key' Hj]%Hq. exists key'. apply Ha. right. split; [| done]. intros ->.
      unfold active in *. by simplify_eq.
    + intros v. rewrite Hv. apply exist_proper. intros j. apply exist_proper. intros key'.
      cbn. rewrite elem_of_app. split; [by right |]. intros [[Hr _]%Hlog | ?]; [by cbn in Hr | done].
  - intros j h [[-> ->] | [Hj Hh]]%Ha; [done |].
    pose proof (inv_done s Hi j h Hh) as Hd. unfold done_ok in *. cbn.
    destruct (eg_phase h) as [| | [v | e]]; [done | done | destruct Hd as [j' Hd]; exists j' |]; apply elem_of_app; by right.
  - intros r. rewrite elem_of_app, length_insert. intros [[-> _]%Hlog | Hr]; [by eapply lookup_lt_Some |].
    by apply (inv_log s Hi).
  - intros r key. rewrite elem_of_app. intros [[Er ->]%Hlog | Hr] Hid; [| by eapply (inv_keyed s Hi)].
    rewrite Er in Hid. eapply (inv_inj s Hi); [by apply (inv_shared s Hi i) | exact Hid].
Qed.

(** In a reachable state the count of a mapped cell is one exactly when no
    guard shares it. *)
Lemma strong_count_one s key id :
  (forall key', in_flight s !! key' = Some id -> key' = key) -> in_flight s !! key = Some id ->
  if decide (strong_count id s = 1) then forall i g, active s i g -> eg_cell g <> id
  else exists i g, active s i g /\ eg_cell g = id.
Proof.
  intros Hinj Hk. unfold strong_count.
  assert (filter (fun kc : K * nat => kc.2 = id) (in_flight s) = {[key := id]}) as ->.
  { apply map_eq. intros key'. apply option_eq. intros id'. rewrite map_lookup_filter_Some, lookup_singleton_Some.
    cbn. naive_solver. }
  rewrite map_size_singleton. set (m := filter _ (sf_guards s)). case_decide as Hs.
  - intros i g Hg Hid. assert (m !! i = Some g) as Hm by (by apply map_lookup_filter_Some).
    assert (size m = 0) as Hm0%map_size_empty_inv by lia. by rewrite Hm0 in Hm.
  - assert (m <> ∅) as (i & g & [Hg Hid]%map_lookup_filter_Some)%map_choose; [| by exists i, g].
    intros Em. rewrite Em, map_size_empty in Hs. lia.
Qed.

Lemma cell_ok_same s s' id c :
  sf_guards s' = sf_guards s -> sf_log s' = sf_log s -> cell_ok s id c -> cell_ok s' id c.
Proof.
  intros Eg El [Ho Hq Hv Hf].
  constructor; unfold active in *; rewrite ?Eg; try setoid_rewrite El; done.
Qed.

(** Dropping a guard, with its cell changed to one that does without it. *)
Lemma sf_inv_drop s i g c c' :
  sf_inv s -> active s i g -> sf_cells s !! eg_cell g = Some c ->
  cell_ok (mkSF (in_flight s) (sf_cells s) (delete i (sf_guards s)) (sf_log s) (sf_out s)) (eg_cell g) c' ->
  sf_inv (drop_guard i g (set_cell (eg_cell g) c' s)).
Proof.
  intros Hi Hg Hc Hok. pose proof (inv_shared s Hi i g Hg) as Hk.
  unfold drop_guard, set_cell. cbn [in_flight sf_cells sf_guards sf_log sf_out]. rewrite Hk.
  set (s1 := mkSF (in_flight s) (<[eg_cell g := c']> (sf_cells s)) (delete i (sf_guards s)) (sf_log s) (sf_out s)).
  assert (forall j h, sf_guards s1 !! j = Some h <-> j <> i /\ active s j h) as Ha.
  { intros j h. unfold s1, active. cbn. rewrite lookup_delete_Some. naive_solver. }
  pose proof (strong_count_one s1 (eg_key g) (eg_cell g)
    (fun key' E1 => inv_inj s Hi _ _ _ E1 Hk) Hk) as Hcount.
  assert (forall key id, in_flight s !! key = Some id ->
    exists c1, sf_cells s1 !! id = Some c1 /\ cell_ok s1 id c1) as Hcells.
  { intros key id Hid. destruct (inv_cells s Hi key id Hid) as (c1 & Hc1 & [Ho Hq Hv Hf]).
    destruct (decide (id = eg_cell g)) as [-> | Hne].
    { exists c'. split; [| by eapply cell_ok_same; [.. | exact Hok]]. cbn. apply list_lookup_insert_eq. by eapply lookup_lt_Some. }
    exists c1. cbn. rewrite list_lookup_insert_ne by done. split; [done |]. constructor; [| | done | done].
    - intros j. rewrite Ho. apply exist_proper. intros key'. unfold active at 2. rewrite Ha.
      split; [| naive_solver]. intros Hj. split; [| done]. intros ->. unfold active in *. by simplify_eq.
    - intros j [key' Hj]%Hq. exists key'. apply Ha. split; [| done]. intros ->. unfold active in *. by simplify_eq. }
  assert (forall r, r ∈ sf_log s -> run_cell r < length (sf_cells s1)) as Hlog.
  { intros r Hr. cbn. rewrite length_insert. by apply (inv_log s Hi). }
  case_decide as Hd.
  - constructor; cbn [in_flight sf_cells sf_guards sf_log].
    + intros j h Hj. rewrite lookup_delete_ne; [by apply (inv_shared s Hi j), Ha |].
      intros Ek. apply (Hcount j h Hj). apply Ha in Hj as [_ Hj]. pose proof (inv_shared s Hi j h Hj). congruence.
    + intros key id [Hne Hid]%lookup_delete_Some. destruct (inv_held s Hi key id Hid) as (j & q & Hj).
      exists j, q. apply Ha. split; [| done]. intros ->. unfold active in *. simplify_eq.
    + intros key key' id [_ E1]%lookup_delete_Some [_ E2]%lookup_delete_Some. by eapply (inv_inj s Hi).
    + intros key id [_ Hid]%lookup_delete_Some. destruct (Hcells key id Hid) as (c1 & ? & ?).
      exists c1. split; [done | by apply (cell_ok_same s1)].
    + intros j h [_ Hj]%Ha. by apply (inv_done s Hi).
    + done.
    + intros r key Hr [_ Hid]%lookup_delete_Some. by eapply (inv_keyed s Hi).
  - constructor; cbn [in_flight sf_cells sf_guards sf_log].
    + intros j h [_ Hj]%Ha. by apply (inv_shared s Hi j).
    + intros key id Hid. destruct (inv_held s Hi key id Hid) as (j & q & Hj).
      destruct (decide (j = i)) as [-> |]; [| exists j, q; by apply Ha].
      destruct Hcount as (k & h & Hk' & Hid'). exists k, (eg_phase h). apply Ha in Hk' as [Hne Hk2]. apply Ha.
      split; [done |]. replace (mkEntryGuard id key (eg_phase h)) with h; [done |].
      unfold active in Hg, Hj. rewrite Hg in Hj. injection Hj as Eg. subst g. cbn in Hid', Hk.
      pose proof (inv_shared s Hi k h Hk2) as E1. rewrite Hid' in E1.
      destruct h as [hc hk hp]. cbn in *. subst hc. f_equal. by eapply (inv_inj s Hi).
    + intros key key' id. apply (inv_inj s Hi).
    + done.
    + intros j h [_ Hj]%Ha. by apply (inv_done s Hi).
    + done.
    + apply (inv_keyed s Hi).
Qed.

Lemma guard_eta g : mkEntryGuard (eg_cell g) (eg_key g) (eg_phase g) = g.
Proof. by destruct g. Qed.

(** A guard of [i], whatever its phase was, is gone from the others' point of
    view: what a cell knows of the other callers is untouched. *)
Lemma cell_ok_phase s i g p c c' log :
  sf_inv s -> active s i g -> sf_cells s !! eg_cell g = Some c ->
  let s' := mkSF (in_flight s) (<[eg_cell g := c']> (sf_cells s))
              (<[i := mkEntryGuard (eg_cell g) (eg_key g) p]> (sf_guards s)) (log ++ sf_log s) (sf_out s) in
  (forall j, oc_owner c' = Some j <-> (j = i /\ p = Running) \/ (j <> i /\ oc_owner c = Some j)) ->
  (forall j, j ∈ oc_queue c' -> (j = i /\ p = Waiting) \/ (j <> i /\ j ∈ oc_queue c)) ->
  (forall v, oc_value c' = Some v <-> oc_value c = Some v
     \/ exists j key, mkRun j key (eg_cell g) (Ok v) ∈ log) ->
  (forall v, oc_value c' = Some v -> oc_owner c' = None) ->
  cell_ok s' (eg_cell g) c'.
Proof.
  intros Hi Hg Hc s' Ho Hq Hv Hf.
  destruct (inv_cells s Hi _ _ (inv_shared s Hi i g Hg)) as (c0 & Hc0 & [Ho0 Hq0 Hv0 Hf0]).
  rewrite Hc in Hc0. injection Hc0 as <-.
  assert (forall j h, active s' j h <->
    (j = i /\ h = mkEntryGuard (eg_cell g) (eg_key g) p) \/ (j <> i /\ active s j h)) as Ha.
  { intros j h. unfold active, s'. cbn. rewrite lookup_insert_Some. naive_solver. }
  constructor; [| | | done].
  - intros j. rewrite Ho. setoid_rewrite Ha. split.
    + intros [[-> ->] | [Hne [key Hj]%Ho0]]; [exists (eg_key g); by left | exists key; by right].
    + intros [key [[-> [= _ ->]] | [Hne Hj]]]; [by left | right; split; [done |]]. apply Ho0. by exists key.
  - intros j [[-> ->] | [Hne [key Hj]%Hq0]]%Hq; [exists (eg_key g) | exists key]; apply Ha; [by left | by right].
  - intros v. rewrite Hv, Hv0. cbn. setoid_rewrite elem_of_app. split.
    + intros [(j & key & Hr) | (j & key & Hr)]; exists j, key; auto.
    + intros (j & key & [Hr | Hr]); [right | left]; by exists j, key.
Qed.

(** A newcomer that waits is nothing to the cells there are. *)
Lemma cell_ok_newcomer s s' i key id0 id c :
  sf_guards s !! i = None ->
  sf_guards s' = <[i := mkEntryGuard id0 key Waiting]> (sf_guards s) -> sf_log s' = sf_log s ->
  cell_ok s id c -> cell_ok s' id c.
Proof.
  intros Hn Eg El [Ho Hq Hv Hf]. constructor; [| | by setoid_rewrite El | done].
  - intros j. rewrite Ho. apply exist_proper. intros key'. unfold active. rewrite Eg, lookup_insert_Some.
    split; [| naive_solver]. intros Hj. right. split; [| done]. intros ->. by rewrite Hn in Hj.
  - intros j [key' Hj]%Hq. exists key'. unfold active in *. rewrite Eg, lookup_insert_Some. right.
    split; [| done]. intros ->. by rewrite Hn in Hj.
Qed.

Lemma sf_inv_enter s i key : sf_inv s -> sf_guards s !! i = None -> sf_inv (call_enter i key s).
Proof.
  intros Hi Hn. unfold call_enter. destruct (in_flight s !! key) as [id |] eqn:Ek.
  - constructor; cbn [in_flight sf_cells sf_guards sf_log]; try apply Hi.
    + intros j g. unfold active. cbn. rewrite lookup_insert_Some. intros [[_ <-] | [_ Hg]]; [done |].
      by apply (inv_shared s Hi j).
    + intros key' id' Hid. destruct (inv_held s Hi key' id' Hid) as (j & p & Hj). exists j, p.
      unfold active in *. cbn. rewrite lookup_insert_ne; [done |]. intros ->. by rewrite Hn in Hj.
    + intros key' id' Hid. destruct (inv_cells s Hi key' id' Hid) as (c & Hc & Hok). exists c.
      split; [done |]. by eapply cell_ok_newcomer.
    + intros j g. unfold active. cbn. rewrite lookup_insert_Some. intros [[_ <-] | [_ Hg]]; [done |].
      by apply (inv_done s Hi j).
  - set (id := length (sf_cells s)).
    assert (forall key' id', in_flight s !! key' = Some id' -> id' < id) as Hlt.
    { intros key' id' Hid. destruct (inv_cells s Hi key' id' Hid) as (c & Hc & _). by eapply lookup_lt_Some. }
    constructor; cbn [in_flight sf_cells sf_guards sf_log].
    + intros j g. unfold active. cbn. rewrite lookup_insert_Some.
      intros [[_ <-] | [_ Hg]]; cbn; [apply lookup_insert_eq |].
      pose proof (inv_shared s Hi j g Hg). rewrite lookup_insert_ne; [done | congruence].
    + intros key' id'. rewrite lookup_insert_Some. intros [[<- <-] | [_ Hid]].
      * exists i, Waiting. apply lookup_insert_eq.
      * destruct (inv_held s Hi key' id' Hid) as (j & p & Hj). exists j, p.
        unfold active in *. cbn. rewrite lookup_insert_ne; [done |]. intros ->. by rewrite Hn in Hj.
    + intros key1 key2 id'. rewrite !lookup_insert_Some.
      intros [[<- <-] | [_ H1]] [[<- E2] | [_ H2]]; [done | | | by eapply (inv_inj s Hi)].
      * apply Hlt in H2. lia.
      * apply Hlt in H1. lia.
    + intros key' id'. rewrite lookup_insert_Some. intros [[<- <-] | [_ Hid]].
      * exists oc_new. split; [by rewrite lookup_app_r, Nat.sub_diag by done |].
        destruct oc_new_spec as (Ev & Eo & Eq). constructor; rewrite ?Ev, ?Eo, ?Eq; [| set_solver | | done].
        -- intros j. split; [done |]. intros [key' Hj]. unfold active in Hj. cbn in Hj.
           apply lookup_insert_Some in Hj as [[_ [=]] | [_ Hj]].
           pose proof (inv_shared s Hi j _ Hj) as Hid. apply Hlt in Hid. cbn in Hid. lia.
        -- intros v. split; [done |]. intros (j & key' & Hr%(inv_log s Hi)). cbn in Hr. lia.
      * destruct (inv_cells s Hi key' id' Hid) as (c & Hc & Hok). exists c.
        split; [by apply lookup_app_l_Some |]. by eapply cell_ok_newcomer.
    + intros j g. unfold active. cbn. rewrite lookup_insert_Some. intros [[_ <-] | [_ Hg]]; [done |].
      by apply (inv_done s Hi j).
    + intros r Hr%(inv_log s Hi). rewrite length_app. lia.
    + intros r key' Hr. rewrite lookup_insert_Some. intros [[_ Eid] | [_ Hid]]; [| by eapply (inv_keyed s Hi)].
      apply (inv_log s Hi) in Hr. lia.
Qed.

Lemma active_cell s i g : sf_inv s -> active s i g -> exists c, sf_cells s !! eg_cell g = Some c /\ cell_ok s (eg_cell g) c.
Proof. intros Hi Hg. by eapply (inv_cells s Hi), (inv_shared s Hi i). Qed.

(** Where a caller stands, told by its cell. *)
Lemma owner_running s i g c : cell_ok s (eg_cell g) c -> active s i g -> oc_owner c = Some i <-> eg_phase g = Running.
Proof.
  intros [Ho _ _ _] Hg. rewrite Ho. split.
  - intros [key Hk]. unfold active in *. rewrite Hg in Hk. by injection Hk as ->.
  - intros E1. exists (eg_key g). by rewrite <- E1, guard_eta.
Qed.

Lemma queued_waiting s i g c : cell_ok s (eg_cell g) c -> active s i g -> i ∈ oc_queue c -> eg_phase g = Waiting.
Proof.
  intros [_ Hq _ _] Hg [key Hk]%Hq. unfold active in *. rewrite Hg in Hk. by injection Hk as ->.
Qed.

(** No run was added to what a cell's value says of the log. *)
Lemma value_same (c c' : OC) id v : oc_value c' = oc_value c ->
  oc_value c' = Some v <-> oc_value c = Some v \/ exists j key, mkRun j key id (Ok v) ∈ ([] : list Run).
Proof. intros ->. split; [by left |]. intros [? | (j & key & []%elem_of_nil)]. done. Qed.

(** A caller that does not run before or after leaves the holder as it was. *)
Lemma owner_same (c c' : OC) i j (p : Phase) : oc_owner c' = oc_owner c -> oc_owner c <> Some i -> p <> Running ->
  oc_owner c' = Some j <-> (j = i /\ p = Running) \/ (j <> i /\ oc_owner c = Some j).
Proof. intros -> Hn Hp. split; [intros Hj; right; split; congruence | by intros [[_ ?] | [_ ?]]]. Qed.

Lemma sf_inv_poll s i s' : sf_inv s -> call_poll i s = Some s' -> sf_inv s'.
Proof.
  intros Hi. unfold call_poll. destruct (sf_guards s !! i) as [g |] eqn:Hg; [| done].
  destruct (eg_phase g) eqn:Ep; [| done | done].
  destruct (active_cell s i g Hi Hg) as (c & Hc & Hok). rewrite Hc.
  destruct (oc_poll i c) as [r c'] eqn:Er. intros [= <-].
  pose proof (owner_running s i g c Hok Hg) as How. rewrite Ep in How.
  pose proof (queued_waiting s i g c Hok Hg) as Hqw.
  apply oc_poll_spec in Er as [Ev Hr]. destruct Hok as [Ho Hq Hv Hf].
  destruct r as [v | |].
  - destruct Hr as (Hv1 & Eo & Eq). apply (sf_inv_update s i g (Done (Ok v)) c c' []); [done.. | by intros r []%elem_of_nil | |].
    + apply (cell_ok_phase s i g (Done (Ok v)) c c' []); [done.. | | | |]; cbn.
      * intros j. apply owner_same; [done | by rewrite How | done].
      * intros j. rewrite Eq, elem_of_difference, elem_of_singleton. intros [? ?]. by right.
      * intros w. by apply value_same.
      * intros w. rewrite Ev, Eo. apply Hf.
    + cbn. apply Hv in Hv1 as (j & key & Hr). exists j.
      by rewrite <- (inv_keyed s Hi _ (eg_key g) Hr (inv_shared s Hi i g Hg)).
  - destruct Hr as (Hv1 & Eo & Eo' & Eq). apply (sf_inv_update s i g Running c c' []); [done.. | by intros r []%elem_of_nil | | done].
    apply (cell_ok_phase s i g Running c c' []); [done.. | | | |].
    + intros j. rewrite Eo, Eo'. split; [intros [= <-]; by left | by intros [[-> _] | [_ ?]]].
    + intros j. rewrite Eq, elem_of_difference, elem_of_singleton. intros [? ?]. by right.
    + intros w. by apply value_same.
    + intros w. by rewrite Ev, Hv1.
  - destruct Hr as (Eo & Eq & _). unfold set_cell.
    replace (sf_guards s) with (<[i := mkEntryGuard (eg_cell g) (eg_key g) Waiting]> (sf_guards s))
      by (rewrite <- Ep, guard_eta; by apply insert_id).
    apply (sf_inv_update s i g Waiting c c' []); [done.. | by intros r []%elem_of_nil | | done].
    apply (cell_ok_phase s i g Waiting c c' []); [done.. | | | |].
    + intros j. apply owner_same; [done | by rewrite How | done].
    + intros j. rewrite Eq, elem_of_union, elem_of_singleton. destruct (decide (j = i)); [by left |].
      intros [? | ?]; [done | by right].
    + intros w. by apply value_same.
    + intros w. rewrite Ev, Eo. apply Hf.
Qed.

Lemma sf_inv_finish s i r s' : sf_inv s -> call_finish i r s = Some s' -> sf_inv s'.
Proof.
  intros Hi. unfold call_finish. destruct (sf_guards s !! i) as [g |] eqn:Hg; [| done].
  destruct (eg_phase g) eqn:Ep; [done | | done].
  destruct (active_cell s i g Hi Hg) as (c & Hc & Hok). rewrite Hc. intros [= <-].
  pose proof (owner_running s i g c Hok Hg) as How. rewrite Ep in How.
  assert (oc_owner c = Some i) as Hown by (by apply How).
  destruct Hok as [Ho Hq Hv Hf].
  assert (oc_value c = None) as Hnone.
  { destruct (oc_value c) as [v |] eqn:Ev; [| done]. by rewrite (Hf v eq_refl) in Hown. }
  assert (forall j, j ∈ oc_queue c -> j <> i) as Hqi.
  { intros j Hj ->. apply (queued_waiting s i g c) in Hj; [congruence | done | done]. }
  set (c' := match r with Ok v => oc_set v c | Err _ => oc_release c end).
  assert (oc_owner c' = None /\ oc_queue c' = oc_queue c
    /\ oc_value c' = match r with Ok v => Some v | Err _ => None end) as (Eo & Eq & Ev).
  { unfold c'. destruct r as [v | e].
    - by destruct (oc_set_spec v c) as (-> & -> & ->).
    - rewrite <- Hnone. by destruct (oc_release_spec c) as (-> & -> & ->). }
  apply (sf_inv_update s i g (Done r) c c' [mkRun i (eg_key g) (eg_cell g) r]);
    [done.. | by intros ? ->%list_elem_of_singleton | |].
  - apply (cell_ok_phase s i g (Done r) c c' [_]); [done.. | | | |].
    + intros j. rewrite Eo, Hown. split; [done |]. intros [[_ ?] | [? ?]]; [done | congruence].
    + intros j. rewrite Eq. intros Hj. right. split; [by apply Hqi | done].
    + intros v. rewrite Ev, Hnone. setoid_rewrite list_elem_of_singleton. destruct r as [v' | e]; split.
      * intros [= <-]. right. by exists i, (eg_key g).
      * intros [? | (j & key & Er)]; [done |]. congruence.
      * done.
      * intros [? | (j & key & Er)]; congruence.
    + done.
  - unfold done_ok. cbn. destruct r as [v | e]; [exists i |]; by left.
Qed.

Lemma sf_inv_out s out : sf_inv s -> sf_inv (mkSF (in_flight s) (sf_cells s) (sf_guards s) (sf_log s) out).
Proof.
  intros [H1 H2 H3 H4 H5 H6 H7]. constructor; try done. intros key id Hid.
  destruct (H4 key id Hid) as (c & Hc & Hok). exists c. split; [done | by apply (cell_ok_same s)].
Qed.

(** A cell without a caller that neither runs nor waits on it. *)
Lemma cell_ok_without s i g c c' :
  cell_ok s (eg_cell g) c -> active s i g ->
  (forall j, oc_owner c' = Some j <-> j <> i /\ oc_owner c = Some j) ->
  (forall j, j ∈ oc_queue c' -> j <> i /\ j ∈ oc_queue c) -> oc_value c' = oc_value c ->
  cell_ok (mkSF (in_flight s) (sf_cells s) (delete i (sf_guards s)) (sf_log s) (sf_out s)) (eg_cell g) c'.
Proof.
  intros [Ho Hq Hv Hf] Hg Ho' Hq' Ev. constructor.
  - intros j. rewrite Ho', Ho. unfold active. cbn. setoid_rewrite lookup_delete_Some. naive_solver.
  - intros j [Hj [key Hk]%Hq]%Hq'. exists key. apply lookup_delete_Some. by split.
  - intros v. by rewrite Ev.
  - intros v. rewrite Ev. intros Hn%Hf. destruct (oc_owner c') as [j |] eqn:Ej; [| done].
    destruct (proj1 (Ho' j) eq_refl) as [_ Ej']. congruence.
Qed.

Lemma sf_inv_return s i s' : sf_inv s -> call_return i s = Some s' -> sf_inv s'.
Proof.
  intros Hi. unfold call_return. destruct (sf_guards s !! i) as [g |] eqn:Hg; [| done].
  destruct (eg_phase g) eqn:Ep; [done | done |]. intros [= <-]. apply sf_inv_out.
  destruct (active_cell s i g Hi Hg) as (c & Hc & Hok).
  replace (drop_guard i g s) with (drop_guard i g (set_cell (eg_cell g) c s)).
  2: { unfold set_cell. rewrite list_insert_id by done. by destruct s. }
  apply (sf_inv_drop s i g c c); [done.. |]. apply cell_ok_without with (c := c); [done.. | | |done].
  - intros j. split; [| tauto]. intros Hj. split; [| done]. intros ->.
    apply (owner_running s i g c Hok Hg) in Hj. congruence.
  - intros j Hj. split; [| done]. intros ->. apply (queued_waiting s i g c) in Hj; [congruence | done | done].
Qed.

Lemma sf_inv_cancel s i s' : sf_inv s -> call_cancel i s = Some s' -> sf_inv s'.
Proof.
  intros Hi. unfold call_cancel. destruct (sf_guards s !! i) as [g |] eqn:Hg; [| done].
  destruct (active_cell s i g Hi Hg) as (c & Hc & Hok). rewrite Hc. intros [= <-].
  apply (sf_inv_drop s i g c); [done.. |].
  pose proof (owner_running s i g c Hok Hg) as How. pose proof (queued_waiting s i g c Hok Hg) as Hqw.
  apply cell_ok_without with (c := c); [done.. | | |]; destruct (eg_phase g) eqn:Ep.
  - destruct (oc_leave_spec i c) as (_ & -> & _). intros j. split; [| tauto]. intros Hj. split; [| done].
    intros ->. by apply How in Hj.
  - destruct (oc_release_spec c) as (_ & -> & _). intros j. split; [done |]. intros [Hn Hj].
    rewrite (proj2 How eq_refl) in Hj. congruence.
  - intros j. split; [| tauto]. intros Hj. split; [| done]. intros ->. by apply How in Hj.
  - destruct (oc_leave_spec i c) as (_ & _ & ->). intros j [? ?%not_elem_of_singleton]%elem_of_difference. done.
  - destruct (oc_release_spec c) as (_ & _ & ->). intros j Hj. split; [| done]. intros ->. by apply Hqw in Hj.
  - intros j Hj. split; [| done]. intros ->. by apply Hqw in Hj.
  - apply oc_leave_spec.
  - apply oc_release_spec.
  - done.
Qed.

Lemma sf_step_inv s e s' : sf_inv s -> sf_step e s = Some s' -> sf_inv s'.
Proof.
  intros Hi. destruct e as [i key | i | i r | i | i]; cbn [sf_step].
  - destruct (sf_guards s !! i) eqn:Hg; [done |]. intros [= <-]. by apply sf_inv_enter.
  - by apply sf_inv_poll.
  - by apply sf_inv_finish.
  - by apply sf_inv_return.
  - by apply sf_inv_cancel.
Qed.

Lemma reachable_inv s : reachable s -> sf_inv s.
Proof. induction 1 as [| s e s' _ IH Hs]; [apply sf_inv_new | by eapply sf_step_inv]. Qed.

(** ** One run at a time, and what calls return *)

(** The cells whose runs succeeded, once for each success. *)
Definition successes (s : SF) : list nat :=
  run_cell <$> filter (fun r => is_ok (run_result r) = true) (sf_log s).

(** A call returns a value some run for its key returned, or the error of its
    own run. *)
Definition returned_ok (s : SF) (out : nat * K * result E T) : Prop :=
  let '(i, key, r) := out in
  match r with
  | Ok v => exists j id, mkRun j key id (Ok v) ∈ sf_log s
  | Err e => exists id, mkRun i key id (Err e) ∈ sf_log s
  end.

Lemma step_log e s s' : sf_step e s = Some s' ->
  (sf_log s' = sf_log s /\ forall i r, e <> Finish i r)
  \/ exists i r g, e = Finish i r /\ active s i g /\ eg_phase g = Running
       /\ sf_log s' = mkRun i (eg_key g) (eg_cell g) r :: sf_log s.
Proof.
  destruct e as [i key | i | i r | i | i]; cbn [sf_step].
  - destruct (sf_guards s !! i); [done |]. intros [= <-]. left. unfold call_enter. by destruct (in_flight s !! key).
  - unfold call_poll. repeat (case_match; try done); intros [= <-]; by left.
  - unfold call_finish. destruct (sf_guards s !! i) as [g |] eqn:Hg; [| done].
    destruct (eg_phase g) eqn:Ep; [done | | done]. case_match; [| done]. intros [= <-]. right. by exists i, r, g.
  - unfold call_return, drop_guard. repeat (case_match; try done); intros [= <-]; by left.
  - unfold call_cancel, drop_guard. repeat (case_match; try done); intros [= <-]; by left.
Qed.

Lemma step_out e s s' : sf_step e s = Some s' ->
  (sf_out s' = sf_out s /\ forall i, e <> Return i)
  \/ exists i g r, e = Return i /\ active s i g /\ eg_phase g = Done r /\ sf_out s' = (i, eg_key g, r) :: sf_out s.
Proof.
  destruct e as [i key | i | i r | i | i]; cbn [sf_step].
  - destruct (sf_guards s !! i); [done |]. intros [= <-]. left. unfold call_enter. by destruct (in_flight s !! key).
  - unfold call_poll. repeat (case_match; try done); intros [= <-]; by left.
  - unfold call_finish. repeat (case_match; try done); intros [= <-]; by left.
  - unfold call_return. destruct (sf_guards s !! i) as [g |] eqn:Hg; [| done].
    destruct (eg_phase g) as [| | r] eqn:Ep; [done | done |]. intros [= <-]. right. exists i, g, r.
    unfold drop_guard. by repeat case_match.
  - unfold call_cancel, drop_guard. repeat (case_match; try done); intros [= <-]; by left.
Qed.

Lemma successes_once s : reachable s -> NoDup (successes s).
Proof.
  induction 1 as [| s e s' Hr IH Hs]; [by constructor |].
  destruct (step_log e s s' Hs) as [[El _] | (i & r & g & -> & Hg & Ep & El)]; unfold successes; rewrite El; [done |].
  rewrite filter_cons. case_decide as Hok; [| done]. rewrite fmap_cons. apply NoDup_cons. split; [| done].
  destruct r as [v | e]; [| done]. cbn.
  intros ([j key id [v' | e]] & Eid & [Hok' Hin]%list_elem_of_filter)%list_elem_of_fmap; [| done]. cbn in Eid. subst id.
  pose proof (reachable_inv s Hr) as Hi. destruct (active_cell s i g Hi Hg) as (c & Hc & Hcell).
  pose proof (proj2 (owner_running s i g c Hcell Hg) Ep) as Ho.
  rewrite (ok_free s _ c Hcell v') in Ho; [done |]. apply (ok_value s _ c Hcell). by exists j, key.
Qed.

Lemma returns_ok s : reachable s -> Forall (returned_ok s) (sf_out s).
Proof.
  induction 1 as [| s e s' Hr IH Hs]; [by constructor |].
  assert (forall out, returned_ok s out -> returned_ok s' out) as Hmono.
  { assert (forall r, r ∈ sf_log s -> r ∈ sf_log s') as Hsub.
    { destruct (step_log e s s' Hs) as [[-> _] | (i & r & g & _ & _ & _ & ->)]; [done | by right]. }
    intros [[i key] [v | e']]; cbn; naive_solver. }
  destruct (step_out e s s' Hs) as [[-> _] | (i & g & r & -> & Hg & Ep & ->)].
  - eapply Forall_impl; [exact IH | done].
  - constructor; [| eapply Forall_impl; [exact IH | done]].
    apply Hmono. pose proof (inv_done s (reachable_inv s Hr) i g Hg) as Hd. unfold done_ok in Hd. rewrite Ep in Hd.
    destruct r as [v | e]; cbn; [destruct Hd as [j Hd]; by exists j, (eg_cell g) | by exists (eg_cell g)].
Qed.

Lemma running_unique s i j g h :
  reachable s -> active s i g -> active s j h -> eg_key g = eg_key h ->
  eg_phase g = Running -> eg_phase h = Running -> i = j.
Proof.
  intros Hr Hg Hh Ek Eg Eh. pose proof (reachable_inv s Hr) as Hi.
  destruct (active_cell s i g Hi Hg) as (c & Hc & Hok).
  assert (eg_cell h = eg_cell g) as Ecell.
  { pose proof (inv_shared s Hi i g Hg). pose proof (inv_shared s Hi j h Hh). congruence. }
  apply (owner_running s i g c Hok Hg) in Eg.
  rewrite <- Ecell in Hok. apply (owner_running s j h c Hok Hh) in Eh. congruence.
Qed.

(** ** Every call ends *)

(** How far a call is from its end. *)
Definition weight (s : SF) (i : nat) (g : EntryGuard) : nat :=
  match eg_phase g with
  | Waiting =>
      match sf_cells s !! eg_cell g with
      | Some c => if decide (i ∈ oc_queue c) then 3 else 4
      | None => 4
      end
  | Running => 2
  | Done _ => 1
  end.

Definition total (w : nat -> EntryGuard -> nat) (m : gmap nat EntryGuard) : nat :=
  map_fold (fun i g n => w i g + n) 0 m.

Definition measure (s : SF) : nat := total (weight s) (sf_guards s).

Lemma total_delete w m i g : m !! i = Some g -> total w m = w i g + total w (delete i m).
Proof. intros Hi. unfold total. apply (map_fold_delete_L (fun i g n => w i g + n) 0 i g m); [intros; lia | done]. Qed.

Lemma total_ext w w' m : (forall i g, m !! i = Some g -> w i g = w' i g) -> total w m = total w' m.
Proof.
  intros Hw. unfold total. rewrite !map_fold_foldr.
  assert (forall l, (forall i g, (i, g) ∈ l -> m !! i = Some g) ->
    foldr (uncurry (fun i g n => w i g + n)) 0 l = foldr (uncurry (fun i g n => w' i g + n)) 0 l) as Hl.
  { induction l as [| [i g] l IH]; intros Hin; [done |]. cbn. rewrite (Hw i g) by (apply Hin; by left).
    rewrite IH; [done |]. intros. apply Hin. by right. }
  apply Hl. intros i g. by rewrite elem_of_map_to_list.
Qed.

(** The weight of the others does not see a step that leaves their queues. *)
Lemma weight_other s s' id c c' i :
  sf_cells s !! id = Some c -> sf_cells s' = <[id := c']> (sf_cells s) ->
  (forall j, j <> i -> j ∈ oc_queue c' <-> j ∈ oc_queue c) ->
  forall j g, j <> i -> weight s' j g = weight s j g.
Proof.
  intros Hc Es Hq j g Hj. unfold weight. destruct (eg_phase g); [| done | done]. rewrite Es.
  destruct (decide (eg_cell g = id)) as [-> |]; [| by rewrite list_lookup_insert_ne].
  rewrite list_lookup_insert_eq, Hc by (by eapply lookup_lt_Some).
  specialize (Hq j Hj). repeat case_decide; tauto.
Qed.

(** The guard that steps gets lighter, or goes. *)
Lemma measure_step s s' i g id c c' :
  active s i g -> sf_cells s !! id = Some c -> sf_cells s' = <[id := c']> (sf_cells s) ->
  (forall j, j <> i -> j ∈ oc_queue c' <-> j ∈ oc_queue c) ->
  delete i (sf_guards s') = delete i (sf_guards s) ->
  match sf_guards s' !! i with Some g' => weight s' i g' < weight s i g | None => True end ->
  measure s' < measure s.
Proof.
  intros Hg Hc Es Hq Ed Hw. unfold measure. rewrite (total_delete (weight s) _ i g Hg).
  assert (total (weight s') (delete i (sf_guards s)) = total (weight s) (delete i (sf_guards s))) as Et.
  { apply total_ext. intros j h [Hj _]%lookup_delete_Some. eapply weight_other; [exact Hc | exact Es | exact Hq | done]. }
  destruct (sf_guards s' !! i) as [g' |] eqn:Hg'.
  - rewrite (total_delete (weight s') _ i g' Hg'), Ed, Et. lia.
  - rewrite delete_id in Ed by done. rewrite Ed, Et.
    assert (0 < weight s i g) by (unfold weight; repeat case_match; lia). lia.
Qed.

Definition is_enter (e : Event) : bool := match e with Enter _ _ => true | _ => false end.

(** A poll that stays pending may change nothing; every other step counts. *)
Lemma measure_poll s i s' : sf_inv s -> call_poll i s = Some s' -> s' = s \/ measure s' < measure s.
Proof.
  intros Hi. unfold call_poll. destruct (sf_guards s !! i) as [g |] eqn:Hg; [| done].
  destruct (eg_phase g) eqn:Ep; [| done | done].
  destruct (active_cell s i g Hi Hg) as (c & Hc & Hok). rewrite Hc.
  destruct (oc_poll i c) as [r c'] eqn:Er. intros [= <-]. apply oc_poll_spec in Er as [Ev Hr].
  assert (3 <= weight s i g) as Hw.
  { unfold weight. rewrite Ep, Hc. case_decide; lia. }
  destruct r as [v | |]; [right | right |].
  - destruct Hr as (_ & _ & Eq). eapply (measure_step s _ i g (eg_cell g) c c'); [done | done | done | | |].
    + intros j Hj. rewrite Eq, elem_of_difference, elem_of_singleton. tauto.
    + cbn. by rewrite delete_insert_eq.
    + cbn. rewrite lookup_insert_eq. unfold weight at 1. cbn. lia.
  - destruct Hr as (_ & _ & _ & Eq). eapply (measure_step s _ i g (eg_cell g) c c'); [done | done | done | | |].
    + intros j Hj. rewrite Eq, elem_of_difference, elem_of_singleton. tauto.
    + cbn. by rewrite delete_insert_eq.
    + cbn. rewrite lookup_insert_eq. unfold weight at 1. cbn. lia.
  - destruct Hr as (_ & Eq & Hsame). destruct (decide (i ∈ oc_queue c)) as [Hin | Hnin].
    { left. rewrite (Hsame Hin). unfold set_cell. rewrite list_insert_id by done. by destruct s. }
    right. eapply (measure_step s _ i g (eg_cell g) c c'); [done | done | done | | done |].
    + intros j Hj. rewrite Eq, elem_of_union, elem_of_singleton. tauto.
    + cbn. rewrite Hg. unfold weight. cbn. rewrite Ep, Hc, decide_False by done.
      rewrite list_lookup_insert_eq by (by eapply lookup_lt_Some). rewrite decide_True; [lia |].
      rewrite Eq. apply elem_of_union. left. by apply elem_of_singleton.
Qed.

Lemma measure_finish s i r s' : sf_inv s -> call_finish i r s = Some s' -> measure s' < measure s.
Proof.
  intros Hi. unfold call_finish. destruct (sf_guards s !! i) as [g |] eqn:Hg; [| done].
  destruct (eg_phase g) eqn:Ep; [done | | done].
  destruct (active_cell s i g Hi Hg) as (c & Hc & Hok). rewrite Hc. intros [= <-].
  eapply (measure_step s _ i g (eg_cell g) c); [done | done | done | | |].
  - intros j _. destruct r as [v | e]; [by destruct (oc_set_spec v c) as (_ & _ & ->) |].
    by destruct (oc_release_spec c) as (_ & _ & ->).
  - cbn. by rewrite delete_insert_eq.
  - cbn. rewrite lookup_insert_eq. unfold weight. cbn. rewrite Ep. lia.
Qed.

Lemma measure_return s i s' : sf_inv s -> call_return i s = Some s' -> measure s' < measure s.
Proof.
  intros Hi. unfold call_return. destruct (sf_guards s !! i) as [g |] eqn:Hg; [| done].
  destruct (eg_phase g) as [| | r] eqn:Ep; [done | done |]. intros [= <-].
  destruct (active_cell s i g Hi Hg) as (c & Hc & Hok).
  assert (sf_guards (drop_guard i g s) = delete i (sf_guards s) /\ sf_cells (drop_guard i g s) = sf_cells s)
    as [Eg Ec] by (unfold drop_guard; by repeat case_match).
  eapply (measure_step s _ i g (eg_cell g) c c); [done | done | | done | |]; cbn.
  - by rewrite Ec, list_insert_id.
  - by rewrite Eg, delete_delete_eq.
  - by rewrite Eg, lookup_delete_eq.
Qed.

Lemma measure_cancel s i s' : sf_inv s -> call_cancel i s = Some s' -> measure s' < measure s.
Proof.
  intros Hi. unfold call_cancel. destruct (sf_guards s !! i) as [g |] eqn:Hg; [| done].
  destruct (active_cell s i g Hi Hg) as (c & Hc & Hok). rewrite Hc. intros [= <-].
  set (c' := match eg_phase g with Waiting => _ | Running => _ | Done _ => _ end).
  set (s1 := set_cell (eg_cell g) c' s).
  assert (sf_guards (drop_guard i g s1) = delete i (sf_guards s)
    /\ sf_cells (drop_guard i g s1) = <[eg_cell g := c']> (sf_cells s))
    as [Eg Ec] by (unfold drop_guard; by repeat case_match).
  eapply (measure_step s _ i g (eg_cell g) c c'); [done | done | done | | |].
  - intros j Hj. unfold c'. destruct (eg_phase g); [| | done].
    + destruct (oc_leave_spec i c) as (_ & _ & ->). rewrite elem_of_difference, elem_of_singleton. tauto.
    + by destruct (oc_release_spec c) as (_ & _ & ->).
  - by rewrite Eg, delete_delete_eq.
  - by rewrite Eg, lookup_delete_eq.
Qed.

Lemma measure_decreases s e s' :
  sf_inv s -> is_enter e = false -> sf_step e s = Some s' -> s' = s \/ measure s' < measure s.
Proof.
  intros Hi He Hs. destruct e as [i key | i | i r | i | i]; cbn [sf_step] in Hs; [done | | | |].
  - by apply (measure_poll s i).
  - right. by apply (measure_finish s i r).
  - right. by apply (measure_return s i).
  - right. by apply (measure_cancel s i).
Qed.

Definition is_waiting (p : Phase) : bool := match p with Waiting => true | _ => false end.

(** What the schedulers of the callers do, and what they may do besides. *)
Definition serves (s s' : SF) : Prop :=
  s' <> s /\ exists e, match e with Enter _ _ | Cancel _ => False | _ => sf_step e s = Some s' end.

Definition cancels (C : gset nat) (s s' : SF) : Prop := exists i, i ∈ C /\ call_cancel i s = Some s'.

Lemma serves_lighter s s' : sf_inv s -> serves s s' -> sf_inv s' /\ measure s' < measure s.
Proof.
  intros Hi [Hne [e He]]. assert (is_enter e = false /\ sf_step e s = Some s') as [Hen Hs] by (by destruct e).
  split; [by eapply sf_step_inv |]. by destruct (measure_decreases s e s' Hi Hen Hs).
Qed.

Lemma serves_intro s e s' :
  sf_inv s -> match e with Enter _ _ | Cancel _ => False | _ => True end -> sf_step e s = Some s' ->
  measure s' < measure s -> serves s s'.
Proof. intros Hi He Hs Hm. split; [intros -> ; lia |]. exists e. by destruct e. Qed.

(** A poll that does not suspend serves its caller. *)
Lemma poll_serves s j id key c :
  sf_inv s -> sf_cells s !! id = Some c -> (oc_poll j c).1 <> Pending ->
  active s j (mkEntryGuard id key Waiting) -> exists s', serves s s'.
Proof.
  intros Hi Hc Hj Ha. pose proof Ha as Ha'. unfold active in Ha'.
  destruct (call_poll j s) as [s' |] eqn:Es.
  2: { unfold call_poll in Es. rewrite Ha' in Es. cbn in Es. rewrite Hc in Es. by destruct (oc_poll j c). }
  exists s'. apply (serves_intro s (PollCell j)); [done | done | done |].
  destruct (measure_poll s j s' Hi Es) as [-> | Hm]; [exfalso | done].
  unfold call_poll in Es. rewrite Ha' in Es. cbn in Es. rewrite Hc in Es.
  destruct (oc_poll j c) as [r c'] eqn:Er. injection Es as Es.
  apply (f_equal (fun s => sf_guards s !! j)) in Es. rewrite Ha' in Es.
  destruct r as [v | |]; cbn in Es; [| | done]; rewrite lookup_insert_eq in Es; discriminate.
Qed.

(** While a call is in progress some call can go on. *)
Lemma serves_progress (r0 : result E T) s i g : sf_inv s -> active s i g -> exists s', serves s s'.
Proof.
  intros Hi Hg. destruct (eg_phase g) as [| | r] eqn:Ep.
  - destruct (active_cell s i g Hi Hg) as (c & Hc & Hok).
    assert (forall j, (oc_poll j c).1 <> Pending -> active s j (mkEntryGuard (eg_cell g) (eg_key g) Waiting) ->
      exists s', serves s s') as Hpoll by (intros j; by apply poll_serves).
    assert (active s i (mkEntryGuard (eg_cell g) (eg_key g) Waiting)) as Hgw by (by rewrite <- Ep, guard_eta).
    destruct (oc_value c) as [v |] eqn:Ev; [by apply (Hpoll i); [rewrite (oc_poll_set i c v Ev) |] |].
    destruct (oc_owner c) as [j |] eqn:Eo.
    + apply (ok_owner s _ c Hok) in Eo as [key Hj]. destruct (call_finish j r0 s) as [s' |] eqn:Es.
      2: { unfold call_finish in Es. unfold active in Hj. rewrite Hj in Es. cbn in Es. by rewrite Hc in Es. }
      exists s'. apply (serves_intro s (Finish j r0)); [done.. |]. by apply (measure_finish s j r0).
    + set (W := dom (filter (fun jh : nat * EntryGuard => eg_cell jh.2 = eg_cell g /\ eg_key jh.2 = eg_key g
                             /\ is_waiting (eg_phase jh.2) = true) (sf_guards s))).
      assert (forall j, j ∈ W <-> active s j (mkEntryGuard (eg_cell g) (eg_key g) Waiting)) as HW.
      { intros j. unfold W. rewrite elem_of_dom. split.
        - intros [[hc hk hp] [Hh (? & ? & ?)]%map_lookup_filter_Some]. cbn in *. subst. by destruct hp.
        - intros Hj. eexists. apply map_lookup_filter_Some. by split. }
      destruct (oc_progress c W Ev Eo) as (j & Hj & Hs).
      * intros E0. assert (i ∈ W) by (by apply HW). set_solver.
      * intros j [key Hj]%(ok_queue s _ c Hok). apply HW.
        pose proof (inv_shared s Hi j _ Hj) as E1. pose proof (inv_shared s Hi i g Hg) as E2. cbn in E1.
        by rewrite (inv_inj s Hi _ _ _ E2 E1).
      * apply (Hpoll j); [by rewrite Hs | by apply HW].
  - destruct (active_cell s i g Hi Hg) as (c & Hc & Hok).
    destruct (call_finish i r0 s) as [s' |] eqn:Es.
    2: { unfold call_finish in Es. unfold active in Hg. by rewrite Hg, Ep, Hc in Es. }
    exists s'. apply (serves_intro s (Finish i r0)); [done.. |]. by apply (measure_finish s i r0).
  - destruct (call_return i s) as [s' |] eqn:Es.
    2: { unfold call_return in Es. unfold active in Hg. by rewrite Hg, Ep in Es. }
    exists s'. apply (serves_intro s (Return i)); [done.. |]. by apply (measure_return s i).
Qed.

(** A call in progress stays one until it returns or its caller drops it. *)
Lemma step_kept e s s' i g :
  sf_step e s = Some s' -> active s i g -> e <> Cancel i ->
  (exists g', active s' i g' /\ eg_key g' = eg_key g) \/ exists r, (i, eg_key g, r) ∈ sf_out s'.
Proof.
  intros Hs Hg He.
  assert (forall j p s1, sf_guards s1 = <[j := p]> (sf_guards s) -> (j = i -> eg_key p = eg_key g) ->
    exists g', active s1 i g' /\ eg_key g' = eg_key g) as Hins.
  { intros j p s1 E1 Hp. unfold active in *. rewrite E1. destruct (decide (j = i)) as [-> |].
    - exists p. rewrite lookup_insert_eq. auto.
    - exists g. by rewrite lookup_insert_ne. }
  assert (forall j s1, sf_guards s1 = delete j (sf_guards s) -> j <> i ->
    exists g', active s1 i g' /\ eg_key g' = eg_key g) as Hdel.
  { intros j s1 E1 Hj. exists g. unfold active in *. by rewrite E1, lookup_delete_ne. }
  unfold active in Hg. destruct e as [j key | j | j r | j | j]; cbn [sf_step] in Hs.
  - destruct (sf_guards s !! j) eqn:Hj; [done |]. injection Hs as <-. left. unfold call_enter.
    destruct (in_flight s !! key); (eapply Hins; [done | intros ->; by rewrite Hg in Hj]).
  - unfold call_poll in Hs. destruct (sf_guards s !! j) as [h |] eqn:Hh; [| done].
    repeat (case_match; try done); injection Hs as <-; left; [eapply Hins; [done | intros ->; by simplify_eq].. | by exists g].
  - unfold call_finish in Hs. destruct (sf_guards s !! j) as [h |] eqn:Hh; [| done].
    repeat (case_match; try done); injection Hs as <-; left; (eapply Hins; [done | intros ->; by simplify_eq]).
  - unfold call_return in Hs. destruct (sf_guards s !! j) as [h |] eqn:Hh; [| done].
    destruct (eg_phase h) as [| | r]; [done | done |]. injection Hs as <-. destruct (decide (j = i)) as [-> | Hne].
    + right. exists r. simplify_eq. by left.
    + left. apply (Hdel j); [| done]. cbn. unfold drop_guard. by repeat case_match.
  - unfold call_cancel in Hs. destruct (sf_guards s !! j) as [h |] eqn:Hh; [| done].
    case_match; [| done]. injection Hs as <-. left. apply (Hdel j); [| congruence].
    unfold drop_guard. by repeat case_match.
Qed.

Lemma step_out_mono e s s' out : sf_step e s = Some s' -> out ∈ sf_out s -> out ∈ sf_out s'.
Proof. intros Hs Hin. destruct (step_out e s s' Hs) as [[-> _] | (i & g & r & _ & _ & _ & ->)]; [done | by right]. Qed.

(** ** Theorems *)

(** C20: Sharing is exact.  In every state the callers can reach, at most one
    call per key runs its function; the keys in the map are those of the calls
    in progress, so nothing is left behind; of the runs that share a cell at
    most one succeeds; and what a call has returned is a value that some run
    for its key returned, or the error of its own run and never another's. *)
Theorem single_flight_once s :
  reachable s ->
  (forall i j g h, active s i g -> active s j h -> eg_key g = eg_key h ->
     eg_phase g = Running -> eg_phase h = Running -> i = j)
  /\ (forall key, is_Some (in_flight s !! key) <-> exists i g, active s i g /\ eg_key g = key)
  /\ NoDup (successes s)
  /\ Forall (returned_ok s) (sf_out s).
Proof.
  intros Hr. pose proof (reachable_inv s Hr) as Hi. split; [by intros *; apply running_unique |].
  split; [| split; [by apply successes_once | by apply returns_ok]].
  intros key. split.
  - intros [id Hid]. destruct (inv_held s Hi key id Hid) as (i & p & Hg). by exists i, (mkEntryGuard id key p).
  - intros (i & g & Hg & <-). exists (eg_cell g). by apply (inv_shared s Hi i).
Qed.

(** C21: Every call ends.  From any reachable state, once no new caller
    comes, whatever order the callers are polled in, whichever functions fail
    and whichever of the callers in [C] give up: the calls in progress all
    come to an end, the map is empty again, and every caller that did not give
    up has been given a result for its key. *)
Theorem single_flight_live (r0 : result E T) (C : gset nat) s :
  reachable s ->
  inevitably serves (cancels C)
    (fun s' => sf_guards s' = ∅ /\ in_flight s' = ∅
               /\ forall i g, active s i g -> i ∉ C -> exists r, (i, eg_key g, r) ∈ sf_out s') s.
Proof.
  intros Hr. pose proof (reachable_inv s Hr) as Hi.
  set (I := fun s' => sf_inv s' /\ forall i g, active s i g -> i ∉ C ->
    (exists g', active s' i g' /\ eg_key g' = eg_key g) \/ exists r, (i, eg_key g, r) ∈ sf_out s').
  apply (inevitably_measure serves (cancels C) _ I measure).
  - intros s1 s2 [Hi1 Hk1] Hs.
    assert (exists e, sf_step e s1 = Some s2 /\ forall i, i ∉ C -> e <> Cancel i) as (e & He & Hc).
    { destruct Hs as [[_ [e He]] | (i & Hin & He)]; [exists e; by destruct e |].
      exists (Cancel i). split; [done |]. by intros j Hj [= ->]. }
    assert (sf_inv s2 /\ measure s2 < measure s1) as [Hi2 Hm].
    { destruct Hs as [Hs | (i & _ & Hs)]; [by apply serves_lighter |].
      split; [by eapply sf_inv_cancel | by eapply measure_cancel]. }
    split; [split; [done |] | done].
    intros i g Hg Hn. destruct (Hk1 i g Hg Hn) as [(g' & Hg' & <-) | [r Hout]].
    + by apply (step_kept e s1); [| | apply Hc].
    + right. exists r. by eapply step_out_mono.
  - intros s1 [Hi1 Hk1]. destruct (map_eq_dec_empty (sf_guards s1)) as [Eg | Hne].
    + left. split; [done |]. split.
      * apply map_empty. intros key. destruct (in_flight s1 !! key) as [id |] eqn:Hid; [| done].
        destruct (inv_held s1 Hi1 key id Hid) as (i & p & Hg). unfold active in Hg. by rewrite Eg in Hg.
      * intros i g Hg Hn. destruct (Hk1 i g Hg Hn) as [(g' & Hg' & _) | Hout]; [| done].
        unfold active in Hg'. by rewrite Eg in Hg'.
    + right. apply map_choose in Hne as (i & g & Hg). by eapply serves_progress.
  - split; [done |]. intros i g Hg _. left. by exists g.
Qed.

End single_flight.

(** ** A cell that serves its waiters in order *)

Module FifoCell.

Record Cell (T : Type) : Type := mkCell { value : option T; owner : option nat; queue : list nat }.
Arguments mkCell {T}.
Arguments value {T}.
Arguments owner {T}.
Arguments queue {T}.

Section fifo.
Context {T : Type}.

Definition unqueue (i : nat) (q : list nat) : list nat := filter (fun j => j <> i) q.

Definition poll (i : nat) (c : Cell T) : Poll T * Cell T :=
  match value c with
  | Some v => (Ready v, mkCell (value c) (owner c) (unqueue i (queue c)))
  | None =>
      if bool_decide (owner c = None) && bool_decide (default i (head (queue c)) = i)
      then (Start, mkCell None (Some i) (unqueue i (queue c)))
      else (Pending, if decide (i ∈ queue c) then c else mkCell None (owner c) (queue c ++ [i]))
  end.

#[local] Arguments unqueue : simpl never.

Lemma unqueue_set i q : list_to_set (C := gset nat) (unqueue i q) = list_to_set q ∖ {[i]}.
Proof.
  apply set_eq. intros j. unfold unqueue. rewrite elem_of_list_to_set, list_elem_of_filter.
  by rewrite elem_of_difference, elem_of_list_to_set, elem_of_singleton, (comm and).
Qed.

Definition waiters (c : Cell T) : gset nat := list_to_set (queue c).

Lemma poll_set i c v : value c = Some v -> (poll i c).1 = Ready v.
Proof. intros Hv. unfold poll. by rewrite Hv. Qed.

Lemma poll_spec i c r c' : poll i c = (r, c') ->
  value c' = value c
  /\ match r with
     | Ready v => value c = Some v /\ owner c' = owner c /\ waiters c' = waiters c ∖ {[i]}
     | Start => value c = None /\ owner c = None /\ owner c' = Some i /\ waiters c' = waiters c ∖ {[i]}
     | Pending => owner c' = owner c /\ waiters c' = {[i]} ∪ waiters c /\ (i ∈ waiters c -> c' = c)
     end.
Proof.
  unfold poll, waiters. destruct c as [v o q]. cbn. destruct v as [v |].
  { intros [= <- <-]. cbn. by rewrite unqueue_set. }
  case_match eqn:E1.
  - apply andb_true_iff in E1 as [E1%bool_decide_eq_true _]. intros [= <- <-]. cbn. by rewrite unqueue_set.
  - intros [= <- <-]. destruct (decide (i ∈ q)) as [Hq | Hq]; cbn.
    + split; [done |]. split; [done |]. split; [| done]. set_solver.
    + split; [done |]. split; [done |]. split; [set_solver | by intros ?%elem_of_list_to_set].
Qed.

Lemma progress c (W : gset nat) : value c = None -> owner c = None -> W <> ∅ -> waiters c ⊆ W ->
  exists i, i ∈ W /\ (poll i c).1 = Start.
Proof.
  unfold waiters. destruct c as [v o q]. intros Hv Ho Hne Hq. cbn in *. subst. destruct q as [| i q].
  - apply set_choose_L in Hne as [i Hi]. exists i. split; [done |]. unfold poll. cbn. by rewrite bool_decide_true.
  - exists i. split; [set_solver |]. unfold poll. cbn. by rewrite bool_decide_true.
Qed.

Lemma leave_spec i c : value c = value c /\ owner c = owner c
  /\ waiters (mkCell (value c) (owner c) (unqueue i (queue c))) = waiters c ∖ {[i]}.
Proof. unfold waiters. cbn. by rewrite unqueue_set. Qed.

#[export] Instance lib : OnceCellLib T := {
  OC := Cell T;
  oc_value := value;
  oc_owner := owner;
  oc_queue := waiters;
  oc_new := mkCell None None [];
  oc_poll := poll;
  oc_set v c := mkCell (Some v) None (queue c);
  oc_release c := mkCell (value c) None (queue c);
  oc_leave i c := mkCell (value c) (owner c) (unqueue i (queue c));
  oc_new_spec := conj eq_refl (conj eq_refl eq_refl);
  oc_poll_set := poll_set;
  oc_poll_spec := poll_spec;
  oc_progress := progress;
  oc_set_spec v c := conj eq_refl (conj eq_refl eq_refl);
  oc_release_spec c := conj eq_refl (conj eq_refl eq_refl);
  oc_leave_spec := leave_spec
}.

End fifo.
End FifoCell.

(** Two callers of key 7 and one of key 8: the first run of key 7 fails, the
    second caller of it then runs its own function and succeeds. *)
Abbreviation Sample_event := (Event (K := nat) (T := nat) (E := bool)).
Abbreviation Sample_state := (SF (K := nat) (T := nat) (E := bool) (OL := FifoCell.lib)).

Definition sample_run (es : list Sample_event) (s : Sample_state) : option Sample_state :=
  foldl (fun (os : option Sample_state) (e : Sample_event) => os ≫= sf_step (OL := FifoCell.lib) e) (Some s) es.

Definition sample_events : list Sample_event :=
  [Enter 0 7; Enter 1 7; Enter 2 8; PollCell 0; PollCell 1; PollCell 2; Finish 0 (Err true); PollCell 1;
   Return 0; Finish 1 (Ok 5); Finish 2 (Ok 6)].

Definition sample_state : Sample_state := default sf_new (sample_run sample_events sf_new).

Example sample_outcome :
  sf_out sample_state = [(0, 7, Err true)] /\ in_flight sample_state = {[7 := 0; 8 := 1]}
  /\ sf_log sample_state = [mkRun 2 8 1 (Ok 6); mkRun 1 7 0 (Ok 5); mkRun 0 7 0 (Err true)].
Proof. vm_compute. repeat split. Qed.

Lemma run_reachable es s s' : reachable s -> sample_run es s = Some s' -> reachable s'.
Proof.
  revert s. induction es as [| e es IH]; intros s Hs; cbn; [by intros [= <-] |].
  destruct (sf_step e s) as [s1 |] eqn:E1.
  - apply IH. by eapply reachable_step.
  - intros Hf. exfalso. clear -Hf. induction es as [| e' es IH]; [done | by apply IH].
Qed.

Lemma sample_reachable : reachable sample_state.
Proof.
  refine (run_reachable sample_events sf_new sample_state reachable_new _). vm_compute. reflexivity.
Qed.

Lemma single_flight_once_witness :
  reachable sample_state
  /\ (forall i j g h, active sample_state i g -> active sample_state j h -> eg_key g = eg_key h ->
        eg_phase g = Running -> eg_phase h = Running -> i = j)
  /\ (forall key, is_Some (in_flight sample_state !! key) <-> exists i g, active sample_state i g /\ eg_key g = key)
  /\ NoDup (successes sample_state)
  /\ Forall (returned_ok sample_state) (sf_out sample_state).
Proof. split; [exact sample_reachable | apply single_flight_once; exact sample_reachable]. Defined.

Lemma single_flight_live_witness :
  reachable sample_state
  /\ inevitably serves (cancels {[1]})
       (fun s' => sf_guards s' = ∅ /\ in_flight s' = ∅
                  /\ forall i g, active sample_state i g -> i ∉ ({[1]} : gset nat) ->
                       exists r, (i, eg_key g, r) ∈ sf_out s') sample_state.
Proof. split; [exact sample_reachable | apply (single_flight_live (Ok 0)); exact sample_reachable]. Defined.
