(* ===== verification/PartCache.v ===== *)
(** * The disk part cache in front of the object store

    [src/storage/part_cache/cached_store.rs] and the interfaces of
    [storage.rs].  [CachedObjectStore] serves reads of an object store from
    fixed-size parts kept on local disk, fetching what is missing.  The object
    store is a library; the disk storage is the interface [LocalCache] that
    FsCache.v implements.

    Calls run concurrently with each other and with the evictor.  A caller
    that joins a flight in progress (SingleFlight.v) is handed the result of
    another caller's run: [pc_flights] lists, for the calls to come, what is
    handed to them, if anything.  What others do to the disk is left to the
    implementation of [LocalCache], whose laws hold in any state that is
    [coherent]. *)

From S2P Require Import Prelude Bytes.
From stdpp Require Import gmap.
From Stdlib Require Import Lia.
#[local] Open Scope Z_scope.

(** ** Ranges *)

(** [Range<u64>], and [object_store::GetRange]. *)
Record URange : Type := mkRange { rg_start : Z; rg_end : Z }.

Inductive GetRange : Type :=
  | Bounded (r : URange)
  | Offset (offset : Z)
  | Suffix (suffix : Z).

#[export] Instance urange_eq_dec : EqDecision URange.
Proof. solve_decision. Defined.
#[export] Instance get_range_eq_dec : EqDecision GetRange.
Proof. solve_decision. Defined.

(** [InvalidGetRange]. *)
Inductive InvalidGetRange : Type :=
  | StartTooLarge (requested length : Z)
  | Inconsistent (start end_ : Z).

(** [u64::div_ceil], [u64::is_multiple_of] and [u64::saturating_sub]. *)
Definition div_ceil (a b : Z) : Z := if a mod b =? 0 then a / b else a / b + 1.
Definition is_multiple_of (a b : Z) : bool := if b =? 0 then a =? 0 else a mod b =? 0.
Definition saturating_sub (a b : Z) : Z := Z.max 0 (a - b).

(** The bytes of [data] in a range. *)
Definition slice (data : bytes) (r : URange) : bytes :=
  take (Z.to_nat (rg_end r - rg_start r)) (drop (Z.to_nat (rg_start r)) data).

(** [Bytes::slice]: out of range it panics. *)
Definition slice_opt (data : bytes) (r : URange) : option bytes :=
  if (rg_start r <=? rg_end r) && (rg_end r <=? Z.of_nat (length data)) then Some (slice data r) else None.

Section arithmetic.
Context (part_size_bytes : Z).

Definition align_range (range : URange) (alignment : Z) : URange :=
  mkRange (rg_start range - rg_start range mod alignment) (wrap 64 (div_ceil (rg_end range) alignment * alignment)).

Definition align_get_range (range : GetRange) : GetRange :=
  match range with
  | Bounded bounded => Bounded (align_range bounded part_size_bytes)
  | Suffix suffix => Suffix (rg_end (align_range (mkRange 0 suffix) part_size_bytes))
  | Offset offset => Offset (offset - offset mod part_size_bytes)
  end.

Definition canonicalize_range (range : option GetRange) (object_size : Z) : result InvalidGetRange URange :=
  match range with
  | None => Ok (mkRange 0 object_size)
  | Some (Bounded r) =>
      if object_size <=? rg_start r then Err (StartTooLarge (rg_start r) object_size)
      else if rg_end r <=? rg_start r then Err (Inconsistent (rg_start r) (rg_end r))
      else Ok (mkRange (rg_start r) (Z.min (rg_end r) object_size))
  | Some (Offset offset) =>
      if object_size <=? offset then Err (StartTooLarge offset object_size)
      else Ok (mkRange offset object_size)
  | Some (Suffix suffix) => Ok (mkRange (saturating_sub object_size suffix) object_size)
  end.

(** [first_mut] and [last_mut] of the parts' list, changed in place. *)
Definition set_first_start (start : Z) (parts : list (Z * URange)) : list (Z * URange) :=
  match parts with
  | [] => []
  | (id, r) :: rest => (id, mkRange start (rg_end r)) :: rest
  end.

Fixpoint set_last_end (end_ : Z) (parts : list (Z * URange)) : list (Z * URange) :=
  match parts with
  | [] => []
  | [(id, r)] => [(id, mkRange (rg_start r) end_)]
  | p :: rest => p :: set_last_end end_ rest
  end.

Definition split_range_into_parts (range : URange) : list (Z * URange) :=
  let range_aligned := align_range range part_size_bytes in
  let start_part := rg_start range_aligned / part_size_bytes in
  let end_part := rg_end range_aligned / part_size_bytes in
  let parts := (fun part_id => (part_id, mkRange 0 part_size_bytes)) <$> seqZ start_part (end_part - start_part) in
  let parts := set_first_start (rg_start range mod part_size_bytes) parts in
  if is_multiple_of (rg_end range) part_size_bytes then parts
  else set_last_end (rg_end range mod part_size_bytes) parts.

End arithmetic.

(** ** Objects and their store *)

(** The attributes [LocalCacheHead] names, and any other. *)
Inductive Attribute : Type :=
  | CacheControl
  | ContentDisposition
  | ContentEncoding
  | ContentLanguage
  | ContentType
  | Metadata (key : bytes)
  | OtherAttribute (n : nat).

#[export] Instance attribute_eq_dec : EqDecision Attribute.
Proof. solve_decision. Defined.

#[export] Instance attribute_countable : Countable Attribute.
Proof.
  refine (inj_countable'
    (fun a => match a with
              | CacheControl => inl 0%nat | ContentDisposition => inl 1%nat | ContentEncoding => inl 2%nat
              | ContentLanguage => inl 3%nat | ContentType => inl 4%nat | Metadata k => inr (inl k)
              | OtherAttribute n => inr (inr n)
              end)
    (fun x => match x with
              | inl 0%nat => CacheControl | inl 1%nat => ContentDisposition | inl 2%nat => ContentEncoding
              | inl 3%nat => ContentLanguage | inl _ => ContentType | inr (inl k) => Metadata k
              | inr (inr n) => OtherAttribute n
              end) _).
  by intros [].
Defined.

Abbreviation Attributes := (gmap Attribute bytes).

(** The types of the object store's interface the cache passes through:
    paths, timestamps, extensions, and the fields of [GetOptions] other than
    the range and [head]. *)
Class ObjectStoreTypes : Type := {
  OPath : Type;
  opath_eq_dec :: EqDecision OPath;
  DateTime : Type;
  epoch : DateTime;
  Extensions : Type;
  ext_new : Extensions;
  Conditions : Type;
  cond_default : Conditions
}.

Section types.
Context {OT : ObjectStoreTypes}.

Record ObjectMeta : Type := mkObjectMeta {
  om_location : OPath;
  om_last_modified : DateTime;
  om_size : Z;
  om_e_tag : option bytes;
  om_version : option bytes
}.

Record GetOptions : Type := mkGetOptions {
  go_range : option GetRange;
  go_head : bool;
  go_conditions : Conditions
}.

Record GetResult (Payload : Type) : Type := mkGetResult {
  gr_payload : Payload;
  gr_meta : ObjectMeta;
  gr_range : URange;
  gr_attributes : Attributes;
  gr_extensions : Extensions
}.

Record PutResult : Type := mkPutResult { pr_e_tag : option bytes; pr_version : option bytes }.

(** An object, as it will be for as long as it is there. *)
Record Object : Type := mkObject {
  ob_data : bytes;
  ob_attributes : Attributes;
  ob_e_tag : option bytes;
  ob_version : option bytes
}.

Definition ob_size (o : Object) : Z := Z.of_nat (length (ob_data o)).

(** A head tells the truth about an object; the cache does not use the
    modification time. *)
Definition head_ok (truth : OPath -> Object) (loc : OPath) (h : ObjectMeta * Attributes) : Prop :=
  let '(m, attrs) := h in
  om_location m = loc /\ om_size m = ob_size (truth loc) /\ om_e_tag m = ob_e_tag (truth loc)
  /\ om_version m = ob_version (truth loc) /\ attrs = ob_attributes (truth loc).

(** The bytes of part [id] of an object cut in parts of [size] bytes. *)
Definition part (size : Z) (o : Object) (id : Z) : bytes :=
  slice (ob_data o) (mkRange (id * size) (Z.min ((id + 1) * size) (ob_size o))).

(** The range a request names of an object, if it names one. *)
Definition resolve (range : option GetRange) (size : Z) : option URange :=
  match range with
  | None => Some (mkRange 0 size)
  | Some (Bounded r) =>
      if decide (rg_start r < size /\ rg_start r < rg_end r) then Some (mkRange (rg_start r) (Z.min (rg_end r) size))
      else None
  | Some (Offset o) => if decide (o < size) then Some (mkRange o size) else None
  | Some (Suffix s) => Some (mkRange (Z.max 0 (size - s)) size)
  end.

(** A stream of chunks that delivers [d], or a prefix of it and an error. *)
Definition streams {E} (l : list (result E bytes)) (d : bytes) : Prop :=
  exists oks rest, l = (Ok <$> oks) ++ rest /\ concat oks `prefix_of` d
    /\ (concat oks = d /\ rest = [] \/ exists e rest', rest = Err e :: rest').

End types.
Arguments mkGetResult {OT Payload}.
Arguments gr_payload {OT Payload}.
Arguments gr_meta {OT Payload}.
Arguments gr_range {OT Payload}.
Arguments gr_attributes {OT Payload}.
Arguments gr_extensions {OT Payload}.

(** The wrapped store.  A path has one content for as long as it is used:
    [truth] gives it.  Any call may fail. *)
Class Upstream {OT : ObjectStoreTypes} (U OsErr : Type) (truth : OPath -> Object) : Type := {
  up_get_opts : OPath -> GetOptions -> SE U OsErr (GetResult (list (result OsErr bytes)));
  up_put_opts : OPath -> list bytes -> Attributes -> SE U OsErr PutResult;
  up_delete : OPath -> SE U OsErr unit;
  invalid_range : InvalidGetRange -> OsErr;

  (** what a successful GET carries; a HEAD may come without its payload *)
  up_get_spec : forall loc o u g u', up_get_opts loc o u = (Ok g, u') ->
    head_ok truth loc (gr_meta g, gr_attributes g)
    /\ resolve (go_range o) (ob_size (truth loc)) = Some (gr_range g)
    /\ (streams (gr_payload g) (slice (ob_data (truth loc)) (gr_range g))
        \/ go_head o = true /\ streams (gr_payload g) []);
  up_put_spec : forall loc payload attrs u r u', up_put_opts loc payload attrs u = (Ok r, u') ->
    concat payload = ob_data (truth loc) -> attrs = ob_attributes (truth loc) ->
    pr_e_tag r = ob_e_tag (truth loc) /\ pr_version r = ob_version (truth loc)
}.

(** [LocalCacheStorage] and its entries: the state [C] and what is asked of
    an entry, named by its location and part size.  [coherent size] says that
    whatever is on disk for parts of that size is true of its object. *)
Class LocalCache {OT : ObjectStoreTypes} (C OsErr : Type) (truth : OPath -> Object) : Type := {
  lc_save_part : OPath -> Z -> Z -> bytes -> SE C OsErr unit;
  lc_read_part : OPath -> Z -> Z -> URange -> SE C OsErr (option bytes);
  lc_save_head : OPath -> Z -> ObjectMeta * Attributes -> SE C OsErr unit;
  lc_read_head : OPath -> Z -> SE C OsErr (option (ObjectMeta * Attributes));
  lc_delete : OPath -> Z -> SE C OsErr unit;

  coherent : Z -> C -> Prop;
  lc_save_part_spec : forall loc size id buf c r c', lc_save_part loc size id buf c = (r, c') ->
    coherent size c -> 0 <= id -> buf = part size (truth loc) id -> coherent size c';
  lc_read_part_spec : forall loc size id range c r c', lc_read_part loc size id range c = (r, c') ->
    coherent size c -> 0 <= id -> 0 <= rg_start range <= rg_end range ->
    coherent size c' /\ forall b, r = Ok (Some b) -> slice_opt (part size (truth loc) id) range = Some b;
  lc_save_head_spec : forall loc size h c r c', lc_save_head loc size h c = (r, c') ->
    coherent size c -> head_ok truth loc h -> coherent size c';
  lc_read_head_spec : forall loc size c r c', lc_read_head loc size c = (r, c') ->
    coherent size c -> coherent size c' /\ forall h, r = Ok (Some h) -> head_ok truth loc h;
  lc_delete_spec : forall loc size c r c', lc_delete loc size c = (r, c') ->
    coherent size c -> coherent size c'
}.

(** ** The cached store *)

Section cached_store.
Context {OT : ObjectStoreTypes} {U C OsErr : Type} {truth : OPath -> Object}.
Context {UP : Upstream U OsErr truth} {LC : LocalCache C OsErr truth}.

Abbreviation Head := (ObjectMeta * Attributes * Extensions)%type.

(** What another caller's run hands to the next call of a flight, by key. *)
Record Shared : Type := mkShared {
  sh_head : OPath -> option Head;
  sh_prefetch : OPath * option GetRange -> option Head;
  sh_part : OPath * Z -> option bytes
}.

(** The wrapped store, the disk, the flights to come, and the accesses
    recorded so far: a hit or a miss, and how many bytes. *)
Record PC : Type := mkPC {
  pc_upstream : U;
  pc_storage : C;
  pc_flights : list Shared;
  pc_access : list (bool * Z)
}.

(** An error of the object store, or a panic of the task. *)
Inductive Fault : Type :=
  | Failed (e : OsErr)
  | PcPanicked.

Definition upstream {A} (m : SE U OsErr A) : SE PC Fault A := fun s =>
  let '(r, u) := m (pc_upstream s) in
  (map_err Failed r, mkPC u (pc_storage s) (pc_flights s) (pc_access s)).

Definition disk {A} (m : SE C OsErr A) : SE PC Fault A := fun s =>
  let '(r, c) := m (pc_storage s) in
  (map_err Failed r, mkPC (pc_upstream s) c (pc_flights s) (pc_access s)).

(** [.await.ok()]: an error is dropped, a panic is not. *)
Definition swallow {A} (m : SE PC Fault A) : SE PC Fault unit := fun s =>
  match m s with
  | (Err PcPanicked, s) => (Err PcPanicked, s)
  | (_, s) => (Ok tt, s)
  end.

Definition assert (b : bool) : SE PC Fault unit := if b then se_ret tt else se_err PcPanicked.

(** [SingleFlight::call]: this caller's run, or what another's returned. *)
Definition flight {A} (pick : Shared -> option A) (run : SE PC Fault A) : SE PC Fault A := fun s =>
  match pc_flights s with
  | [] => run s
  | sh :: flights =>
      let s := mkPC (pc_upstream s) (pc_storage s) flights (pc_access s) in
      match pick sh with
      | Some v => (Ok v, s)
      | None => run s
      end
  end.

Inductive ReadResultSource : Type := Disk | FromUpstream.

Definition is_disk (src : ReadResultSource) : bool := match src with Disk => true | FromUpstream => false end.

Record PrefetchedHead : Type := mkPrefetchedHead {
  ph_meta : ObjectMeta;
  ph_attributes : Attributes;
  ph_extensions : Extensions;
  ph_head_source : ReadResultSource
}.

Definition record_part_access (hit : bool) (n : Z) : SE PC Fault unit := fun s =>
  (Ok tt, mkPC (pc_upstream s) (pc_storage s) (pc_flights s) ((hit, n) :: pc_access s)).

(** [GetResult::bytes]: the whole payload, or its first error. *)
Fixpoint collect_bytes (chunks : list (result OsErr bytes)) : result OsErr bytes :=
  match chunks with
  | [] => Ok []
  | c :: rest => let? b := c in let? bs := collect_bytes rest in Ok (b ++ bs)
  end.

Definition head_only_get_result {P} (empty : P) (h : Head) : GetResult P :=
  let '(meta, attributes, extensions) := h in mkGetResult empty meta (mkRange 0 0) attributes extensions.

(** [build_head]. *)
Definition build_head (cache_location : OPath) (size : Z) (result : PutResult) : ObjectMeta :=
  mkObjectMeta cache_location epoch size (pr_e_tag result) (pr_version result).

Section with_part_size.
Context (part_size_bytes : Z).

(** The inner loop of [save_parts_stream]; the fuel is the buffer's length. *)
Fixpoint save_full_parts (fuel : nat) (loc : OPath) (buffer : bytes) (part_number : Z) :
    SE PC Fault (bytes * Z) :=
  match fuel with
  | O => se_ret (buffer, part_number)
  | S fuel =>
      if part_size_bytes <=? Z.of_nat (length buffer) then
        do! _ <- disk (lc_save_part loc part_size_bytes part_number (take (Z.to_nat part_size_bytes) buffer));
        save_full_parts fuel loc (drop (Z.to_nat part_size_bytes) buffer) (part_number + 1)
      else se_ret (buffer, part_number)
  end.

Fixpoint save_chunks (loc : OPath) (stream : list (result OsErr bytes)) (buffer : bytes)
    (part_number total_bytes : Z) : SE PC Fault (bytes * Z * Z) :=
  match stream with
  | [] => se_ret (buffer, part_number, total_bytes)
  | chunk :: stream =>
      do! chunk <- se_lift (map_err Failed chunk);
      let buffer := buffer ++ chunk in
      do! bp <- save_full_parts (length buffer) loc buffer part_number;
      save_chunks loc stream bp.1 bp.2 (total_bytes + Z.of_nat (length chunk))
  end.

Definition save_parts_stream (loc : OPath) (stream : list (result OsErr bytes)) (start_part_number : Z) :
    SE PC Fault Z :=
  do! bpt <- save_chunks loc stream [] start_part_number 0;
  let '(buffer, part_number, total_bytes) := bpt in
  do! _ <- (match buffer with
            | [] => se_ret tt
            | _ => disk (lc_save_part loc part_size_bytes part_number buffer)
            end);
  se_ret total_bytes.

Definition save_get_result (cache_location : OPath) (result : GetResult (list (result OsErr bytes))) :
    SE PC Fault Z :=
  do! _ <- assert (is_multiple_of (rg_start (gr_range result)) part_size_bytes);
  do! _ <- assert (is_multiple_of (rg_end (gr_range result)) part_size_bytes
                   || (rg_end (gr_range result) =? om_size (gr_meta result)));
  let object_size := om_size (gr_meta result) in
  do! _ <- disk (lc_save_head cache_location part_size_bytes (gr_meta result, gr_attributes result));
  let start_part_number := rg_start (gr_range result) / part_size_bytes in
  do! _ <- save_parts_stream cache_location (gr_payload result) start_part_number;
  se_ret object_size.

Definition cached_head (location : OPath) (admit_on_miss : bool) :
    SE PC Fault (GetResult (list (SE PC Fault bytes))) := fun s =>
  match disk (lc_read_head location part_size_bytes) s with
  | (Ok (Some (meta, attributes)), s) => (Ok (head_only_get_result [] (meta, attributes, ext_new)), s)
  | (_, s) =>
      (do! h <- flight (fun sh => sh_head sh location)
        (do! result <- upstream (up_get_opts location (mkGetOptions None true cond_default));
         do! _ <- (if admit_on_miss then swallow (save_get_result location result) else se_ret tt);
         se_ret (gr_meta result, gr_attributes result, gr_extensions result));
       se_ret (head_only_get_result [] h)) s
  end.

Definition maybe_prefetch_range (location : OPath) (opts : GetOptions) : SE PC Fault PrefetchedHead := fun s =>
  match disk (lc_read_head location part_size_bytes) s with
  | (Ok (Some (meta, attrs)), s) => (Ok (mkPrefetchedHead meta attrs ext_new Disk), s)
  | (_, s) =>
      let opts := mkGetOptions (align_get_range part_size_bytes <$> go_range opts) (go_head opts) (go_conditions opts) in
      (do! h <- flight (fun sh => sh_prefetch sh (location, go_range opts))
        (do! get_result <- upstream (up_get_opts location opts);
         do! _ <- swallow (save_get_result location get_result);
         se_ret (gr_meta get_result, gr_attributes get_result, gr_extensions get_result));
       let '(meta, attributes, extensions) := h in
       se_ret (mkPrefetchedHead meta attributes extensions FromUpstream)) s
  end.

(** The body of [read_part]'s flight: fetch the whole part and keep it. *)
Definition fetch_part (location : OPath) (part_id : Z) : SE PC Fault bytes :=
  let part_range := mkRange (wrap 64 (part_id * part_size_bytes)) (wrap 64 ((part_id + 1) * part_size_bytes)) in
  do! get_result <- upstream (up_get_opts location (mkGetOptions (Some (Bounded part_range)) false cond_default));
  do! bytes <- se_lift (map_err Failed (collect_bytes (gr_payload get_result)));
  do! _ <- swallow (disk (lc_save_head location part_size_bytes (gr_meta get_result, gr_attributes get_result)));
  do! _ <- swallow (disk (lc_save_part location part_size_bytes part_id bytes));
  se_ret bytes.

Definition read_part_upstream (location : OPath) (part_id : Z) (range_in_part : URange) :
    SE PC Fault (bytes * ReadResultSource) :=
  do! bytes <- flight (fun sh => sh_part sh (location, part_id)) (fetch_part location part_id);
  match slice_opt bytes range_in_part with
  | Some b => se_ret (b, FromUpstream)
  | None => se_err PcPanicked
  end.

Definition read_part (location : OPath) (part_id : Z) (range_in_part : URange) (force_refresh : bool) :
    SE PC Fault (bytes * ReadResultSource) :=
  if force_refresh then read_part_upstream location part_id range_in_part
  else fun s =>
    match disk (lc_read_part location part_size_bytes part_id range_in_part) s with
    | (Ok (Some bytes), s) => (Ok (bytes, Disk), s)
    | (_, s) => read_part_upstream location part_id range_in_part s
    end.

(** The stream's item for one part; items run one after the other, as the
    stream is polled. *)
Definition part_future (location : OPath) (head_source : ReadResultSource) (force_refresh : bool)
    (p : Z * URange) : SE PC Fault bytes :=
  do! bs <- read_part location p.1 p.2 force_refresh;
  do! _ <- record_part_access (is_disk head_source && is_disk bs.2) (Z.of_nat (length bs.1));
  se_ret bs.1.

Definition cached_get_opts (location : OPath) (opts : GetOptions) (force_refresh : bool) :
    SE PC Fault (GetResult (list (SE PC Fault bytes))) :=
  do! ph <- maybe_prefetch_range location opts;
  do! range <- se_lift (map_err (fun e => Failed (invalid_range e))
                          (canonicalize_range (go_range opts) (om_size (ph_meta ph))));
  let parts := split_range_into_parts part_size_bytes range in
  let futures := part_future location (ph_head_source ph) force_refresh <$> parts in
  se_ret (mkGetResult futures (ph_meta ph) range (ph_attributes ph) (ph_extensions ph)).

(** [ObjectStore::get_opts] and what a client does with its payload. *)
Definition get_opts (location : OPath) (options : GetOptions) : SE PC Fault (GetResult (list (SE PC Fault bytes))) :=
  if go_head options then cached_head location true else cached_get_opts location options false.

Fixpoint drain (futures : list (SE PC Fault bytes)) : SE PC Fault bytes :=
  match futures with
  | [] => se_ret []
  | f :: rest => do! b <- f; do! bs <- drain rest; se_ret (b ++ bs)
  end.

Definition cached_put_opts (cache_puts : bool) (location : OPath) (payload : list bytes) (attributes : Attributes) :
    SE PC Fault PutResult :=
  if negb cache_puts then upstream (up_put_opts location payload attributes)
  else
    let payload_size := Z.of_nat (length (concat payload)) in
    do! result <- upstream (up_put_opts location payload attributes);
    do! _ <- swallow (save_parts_stream location (Ok <$> payload) 0);
    let meta := build_head location payload_size result in
    do! _ <- swallow (disk (lc_save_head location part_size_bytes (meta, attributes)));
    se_ret result.

(** [delete_stream]: each location deleted upstream loses its entry. *)
Fixpoint delete_stream (locations : list OPath) : SE PC Fault (list (result Fault OPath)) :=
  match locations with
  | [] => se_ret []
  | location :: rest => fun s =>
      let '(r, s) := match upstream (up_delete location) s with
                     | (Ok _, s) => let '(_, s) := disk (lc_delete location part_size_bytes) s in (Ok location, s)
                     | (Err e, s) => (Err e, s)
                     end in
      (do! rs <- delete_stream rest; se_ret (r :: rs)) s
  end.

End with_part_size.

(** [CachedObjectStore::new]. *)
Inductive PartCacheError : Type := InvalidPartSize (n : Z).

Definition new_cached_store (u : U) (c : C) (part_size_bytes : Z) : result PartCacheError PC :=
  if (part_size_bytes =? 0) || negb (is_multiple_of part_size_bytes 1024) then Err (InvalidPartSize part_size_bytes)
  else Ok (mkPC u c [] []).

End cached_store.

(** ** Arithmetic of ranges and parts *)

Lemma length_slice d r :
  0 <= rg_start r <= rg_end r -> rg_end r <= Z.of_nat (length d) ->
  Z.of_nat (length (slice d r)) = rg_end r - rg_start r.
Proof. intros. unfold slice. rewrite length_take, length_drop. lia. Qed.

Lemma slice_nil d a b : b <= a -> slice d (mkRange a b) = [].
Proof. intros. unfold slice. cbn. by replace (Z.to_nat (b - a)) with 0%nat by lia. Qed.

Lemma slice_app d a b c : 0 <= a <= b -> b <= c ->
  slice d (mkRange a b) ++ slice d (mkRange b c) = slice d (mkRange a c).
Proof.
  intros. unfold slice. cbn.
  replace (Z.to_nat b) with (Z.to_nat a + Z.to_nat (b - a))%nat by lia. rewrite <- drop_drop.
  replace (Z.to_nat (c - a)) with (Z.to_nat (b - a) + Z.to_nat (c - b))%nat by lia. by rewrite take_take_drop.
Qed.

Lemma slice_slice d a b x y : 0 <= a -> 0 <= x <= y -> a + y <= b ->
  slice (slice d (mkRange a b)) (mkRange x y) = slice d (mkRange (a + x) (a + y)).
Proof.
  intros. unfold slice. cbn. rewrite skipn_firstn_comm, take_take, drop_drop. f_equal; [lia |]. f_equal. lia.
Qed.

(** The first bytes of a slice are a slice. *)
Lemma slice_prefix l d a b : 0 <= a -> l `prefix_of` slice d (mkRange a b) ->
  l = slice d (mkRange a (a + Z.of_nat (length l))).
Proof.
  intros Ha [k Hk]. assert (l = take (length l) (slice d (mkRange a b))) as E1 by (by rewrite Hk, take_app_length).
  rewrite E1 at 1. unfold slice. cbn. rewrite take_take. f_equal.
  assert (length l <= Z.to_nat (b - a))%nat; [| lia].
  apply (f_equal length) in Hk. unfold slice in Hk. cbn in Hk. rewrite length_take, length_app in Hk. lia.
Qed.

Lemma take_slice d a b n : 0 <= n -> a + n <= b ->
  take (Z.to_nat n) (slice d (mkRange a b)) = slice d (mkRange a (a + n)).
Proof. intros. unfold slice. cbn. rewrite take_take. f_equal. lia. Qed.

Lemma drop_slice d a b n : 0 <= a -> 0 <= n ->
  drop (Z.to_nat n) (slice d (mkRange a b)) = slice d (mkRange (a + n) b).
Proof. intros. unfold slice. cbn. rewrite skipn_firstn_comm, drop_drop. f_equal; [lia |]. f_equal. lia. Qed.

Lemma div_ceil_bounds a b : 0 < b -> a <= div_ceil a b * b < a + b.
Proof.
  intros. unfold div_ceil. pose proof (Z.div_mod a b ltac:(lia)). pose proof (Z.mod_pos_bound a b ltac:(lia)).
  destruct (Z.eqb_spec (a mod b) 0); nia.
Qed.

Lemma multiple_spec a b : 0 < b -> is_multiple_of a b = true <-> a mod b = 0.
Proof. intros. unfold is_multiple_of. destruct (Z.eqb_spec b 0); [lia |]. apply Z.eqb_eq. Qed.

Lemma set_last_end_snoc e parts id r :
  set_last_end e (parts ++ [(id, r)]) = parts ++ [(id, mkRange (rg_start r) e)].
Proof.
  induction parts as [| q parts IH]; [done |]. cbn [app]. rewrite <- IH.
  destruct parts as [| q' parts]; by destruct q.
Qed.

(** A run of integers has a first, a last, and those in between. *)
Lemma seqZ_ends m n : 2 <= n -> seqZ m n = m :: seqZ (m + 1) (n - 2) ++ [m + n - 1].
Proof.
  intros Hn. rewrite seqZ_cons by lia. f_equal.
  replace (Z.pred n) with ((n - 2) + 1) by lia. rewrite seqZ_app by lia. f_equal.
  rewrite seqZ_cons, seqZ_nil by lia. f_equal. lia.
Qed.

Section tiling.
Context (P : Z) (HP : 0 < P).

(** The parts a range is cut into, in closed form. *)
Definition covered (range : URange) (id : Z) : Z * URange :=
  (id, mkRange (Z.max (rg_start range) (id * P) - id * P) (Z.min (rg_end range) ((id + 1) * P) - id * P)).

Definition first_part (range : URange) : Z := rg_start range / P.
Definition part_count (range : URange) : Z := div_ceil (rg_end range) P - first_part range.

Lemma div_ceil_mul b : div_ceil (b * P) P = b.
Proof. unfold div_ceil. rewrite Z.mod_mul by lia. cbn. by rewrite Z.div_mul by lia. Qed.

Lemma split_covered range :
  0 <= rg_start range <= rg_end range -> rg_end range + P <= 2 ^ 64 ->
  split_range_into_parts P range = covered range <$> seqZ (first_part range) (part_count range).
Proof.
  destruct range as [a b]. cbn [rg_start rg_end]. intros Hab Hb.
  pose proof (div_ceil_bounds b P HP) as Hc.
  assert (split_range_into_parts P (mkRange a b) =
    let parts := set_first_start (a mod P) ((fun id => (id, mkRange 0 P)) <$> seqZ (a / P) (div_ceil b P - a / P)) in
    if is_multiple_of b P then parts else set_last_end (b mod P) parts) as ->.
  { unfold split_range_into_parts, align_range. cbn [rg_start rg_end].
    replace ((a - a mod P) / P) with (a / P).
    2: { pose proof (Z.div_mod a P ltac:(lia)). replace (a - a mod P) with (a / P * P) by lia. by rewrite Z.div_mul by lia. }
    unfold wrap. rewrite (Z.mod_small (div_ceil b P * P)) by lia. by rewrite Z.div_mul by lia. }
  unfold part_count, first_part. cbn [rg_start rg_end]. set (m := a / P). set (n := div_ceil b P - m).
  pose proof (Z.div_mod a P ltac:(lia)) as Ha. pose proof (Z.mod_pos_bound a P HP) as Ha'.
  pose proof (Z.div_mod b P ltac:(lia)) as Hb1. pose proof (Z.mod_pos_bound b P HP) as Hb'.
  fold m in Ha.
  assert (forall id, m < id < m + n - 1 -> covered (mkRange a b) id = (id, mkRange 0 P)) as Hmid.
  { intros id Hid. unfold covered. cbn. f_equal. f_equal; nia. }
  set (e := if is_multiple_of b P then P else b mod P).
  assert (Z.min b ((m + n) * P) - (m + n - 1) * P = e) as Hlast.
  { unfold e. destruct (is_multiple_of b P) eqn:Em.
    - apply multiple_spec in Em; [| done]. unfold n, div_ceil. rewrite Em. cbn. nia.
    - assert (b mod P <> 0) by (intros E0; apply multiple_spec in E0; [congruence | done]).
      unfold n, div_ceil. destruct (Z.eqb_spec (b mod P) 0); [done |]. nia. }
  assert (forall parts id r, rg_end r = P ->
    (if is_multiple_of b P then parts ++ [(id, r)] else set_last_end (b mod P) (parts ++ [(id, r)]))
    = parts ++ [(id, mkRange (rg_start r) e)]) as Hset.
  { intros parts id [x y] Hr. cbn in Hr. subst y. unfold e. rewrite set_last_end_snoc.
    by destruct (is_multiple_of b P). }
  cbv zeta. destruct (Z.le_gt_cases n 0) as [Hn | Hn].
  { rewrite seqZ_nil by lia. cbn. by destruct (is_multiple_of b P). }
  destruct (Z.eq_dec n 1) as [E1 | E1].
  - rewrite E1. replace (seqZ m 1) with [m] by (by rewrite seqZ_cons, seqZ_nil by lia). cbn [fmap list_fmap set_first_start rg_end].
    etransitivity; [exact (Hset [] m (mkRange (a mod P) P) eq_refl) |]. cbn. unfold covered. cbn. rewrite E1 in Hlast.
    f_equal. f_equal. f_equal; nia.
  - rewrite seqZ_ends by lia. rewrite !fmap_cons, !fmap_app. cbn [fmap list_fmap set_first_start rg_end].
    rewrite !app_comm_cons, Hset by done. f_equal; [f_equal |].
    + unfold covered. cbn. f_equal. f_equal; nia.
    + apply list_fmap_ext. intros i id Hid%lookup_seqZ. symmetry. apply Hmid. lia.
    + unfold covered. cbn. rewrite <- Hlast. do 2 f_equal. f_equal; nia.
Qed.

(** Where the boundary of part [k] falls in a range. *)
Definition clamp (range : URange) (k : Z) : Z := Z.max (rg_start range) (Z.min (rg_end range) (k * P)).

Lemma clamp_mono range k k' : k <= k' -> clamp range k <= clamp range k'.
Proof. intros. unfold clamp. assert (k * P <= k' * P) by nia. lia. Qed.

Lemma tiles d range m n :
  0 <= rg_start range <= rg_end range -> 0 <= n ->
  concat ((fun id => slice d (mkRange (clamp range id) (clamp range (id + 1)))) <$> seqZ m n)
  = slice d (mkRange (clamp range m) (clamp range (m + n))).
Proof.
  intros Hr Hn. revert m. pattern n. apply natlike_ind; [| | done].
  - intros m. rewrite Z.add_0_r, slice_nil by lia. done.
  - intros k Hk IH m. rewrite seqZ_cons by lia. rewrite fmap_cons. cbn [concat].
    replace (Z.pred (Z.succ k)) with k by lia. rewrite IH.
    replace (Z.succ m) with (m + 1) by lia. replace (m + 1 + k) with (m + Z.succ k) by lia.
    apply slice_app; [split; [unfold clamp; lia | apply clamp_mono; lia] |].
    apply clamp_mono. lia.
Qed.

Section object.
Context {OT : ObjectStoreTypes} (o : Object).

Lemma length_part id : 0 <= id -> id * P <= ob_size o ->
  Z.of_nat (length (part P o id)) = Z.min ((id + 1) * P) (ob_size o) - id * P.
Proof. intros. unfold part. rewrite length_slice; cbn; [done | nia | unfold ob_size; lia]. Qed.

(** Each part of a range is inside its part of the object. *)
Lemma covered_part range id :
  0 <= rg_start range <= rg_end range -> rg_end range <= ob_size o ->
  first_part range <= id < first_part range + part_count range ->
  slice_opt (part P o id) (covered range id).2
  = Some (slice (ob_data o) (mkRange (clamp range id) (clamp range (id + 1)))).
Proof.
  destruct range as [a b]. unfold first_part, part_count, first_part. cbn [rg_start rg_end]. intros Hab Hb Hid.
  pose proof (div_ceil_bounds b P HP) as Hc. pose proof (Z.div_mod a P ltac:(lia)) as Ha.
  pose proof (Z.mod_pos_bound a P HP) as Ha'.
  assert (0 <= a / P) by (apply Z.div_pos; lia).
  assert (id * P < b) by nia. assert (a < (id + 1) * P) by nia. assert (0 <= id * P) by nia.
  assert (clamp (mkRange a b) id = Z.max a (id * P)) as -> by (unfold clamp; cbn; lia).
  assert (clamp (mkRange a b) (id + 1) = Z.min b ((id + 1) * P)) as -> by (unfold clamp; cbn; lia).
  unfold slice_opt, covered. cbn [rg_start rg_end snd]. rewrite length_part by lia.
  rewrite (proj2 (Z.leb_le _ _)) by lia. rewrite (proj2 (Z.leb_le _ _)) by lia. cbn [andb].
  f_equal. unfold part. rewrite slice_slice by lia. f_equal. f_equal; lia.
Qed.

Lemma first_clamp range : 0 <= rg_start range <= rg_end range -> clamp range (first_part range) = rg_start range.
Proof.
  intros Hr. unfold clamp, first_part. pose proof (Z.div_mod (rg_start range) P ltac:(lia)).
  pose proof (Z.mod_pos_bound (rg_start range) P HP). lia.
Qed.

Lemma last_clamp range : 0 <= rg_start range <= rg_end range ->
  clamp range (first_part range + part_count range) = rg_end range.
Proof.
  intros Hr. unfold clamp, part_count. pose proof (div_ceil_bounds (rg_end range) P HP).
  replace (first_part range + (div_ceil (rg_end range) P - first_part range)) with (div_ceil (rg_end range) P) by lia.
  lia.
Qed.

(** The parts of a range tile it. *)
Lemma split_tiles range :
  0 <= rg_start range <= rg_end range -> rg_end range <= ob_size o -> rg_end range + P <= 2 ^ 64 ->
  exists pieces, Forall2 (fun p b => 0 <= p.1 /\ p.1 * P < ob_size o /\ 0 <= rg_start p.2 <= rg_end p.2
                            /\ slice_opt (part P o p.1) p.2 = Some b)
      (split_range_into_parts P range) pieces
    /\ concat pieces = slice (ob_data o) range.
Proof.
  intros Hr Hs Hw. rewrite split_covered by done.
  exists ((fun id => slice (ob_data o) (mkRange (clamp range id) (clamp range (id + 1))))
            <$> seqZ (first_part range) (part_count range)).
  pose proof (div_ceil_bounds (rg_end range) P HP) as Hc.
  assert (0 <= first_part range) by (apply Z.div_pos; lia).
  split.
  - apply Forall2_fmap, Forall_Forall2_diag, Forall_forall. intros id (i & Hid%lookup_seqZ)%list_elem_of_lookup.
    pose proof (covered_part range id Hr Hs ltac:(lia)) as Hp. split; [cbn; lia |]. split.
    { unfold part_count in Hid. cbn. nia. }
    split; [| exact Hp]. unfold slice_opt in Hp.
    destruct (rg_start _ <=? rg_end _) eqn:E1; [| done]. apply Z.leb_le in E1. split; [| done].
    unfold covered. cbn. lia.
  - destruct (Z.le_gt_cases 0 (part_count range)).
    + rewrite tiles, first_clamp, last_clamp by done. by destruct range.
    + rewrite seqZ_nil by lia. cbn. symmetry. destruct range as [a b]. apply slice_nil.
      unfold part_count, first_part in *. cbn in *. pose proof (Z.div_mod a P ltac:(lia)).
      pose proof (Z.mod_pos_bound a P HP). nia.
Qed.

End object.

End tiling.

Lemma streams_nil {E} d : streams ([] : list (result E bytes)) d -> d = [].
Proof.
  intros (oks & rest & E1 & Hp & [[Hc ->] | (e & rest' & ->)]).
  - destruct oks; [done | discriminate].
  - destruct oks; discriminate.
Qed.

Lemma streams_cons {E} (b : bytes) (l : list (result E bytes)) d :
  streams (Ok b :: l) d -> exists d', d = b ++ d' /\ streams l d'.
Proof.
  intros (oks & rest & E1 & Hp & Hend). destruct oks as [| b' oks].
  { destruct Hend as [[_ ->] | (e & rest' & ->)]; discriminate. }
  cbn in E1. injection E1 as <- ->. cbn in Hp. destruct Hp as [k ->]. exists (concat oks ++ k).
  split; [by rewrite <- app_assoc |]. exists oks, rest. split; [done |]. split; [by exists k |].
  destruct Hend as [[Hc ->] | ?]; [left; split; [| done] | by right].
  cbn in Hc. rewrite <- app_assoc in Hc. by apply app_inv_head in Hc.
Qed.

Lemma collect_streams {E} (l : list (result E bytes)) d b : streams l d -> collect_bytes l = Ok b -> b = d.
Proof.
  revert d b. induction l as [| [c | e] l IH]; intros d b Hs; cbn; [| | done].
  - intros [= <-]. by rewrite (streams_nil d Hs).
  - apply streams_cons in Hs as (d' & -> & Hs). destruct (collect_bytes l) as [b' |]; [| done].
    intros [= <-]. f_equal. by apply IH.
Qed.

Lemma collect_all {E} (l : list (result E bytes)) :
  Forall (fun c => is_ok c = true) l -> exists b, collect_bytes l = Ok b.
Proof.
  induction 1 as [| [c | e] l Hc _ [b IH]]; cbn; [by eexists | rewrite IH; by eexists | done].
Qed.

(** A slice that starts with [b], cut after it. *)
Lemma slice_cut d q e b d' : 0 <= q <= e -> e <= Z.of_nat (length d) ->
  slice d (mkRange q e) = b ++ d' ->
  let q' := q + Z.of_nat (length b) in
  q' <= e /\ b = slice d (mkRange q q') /\ d' = slice d (mkRange q' e).
Proof.
  intros Hq He Hs q'.
  assert (q' <= e) as Hle.
  { pose proof (length_slice d (mkRange q e)) as Hl. cbn in Hl. rewrite Hs, length_app in Hl. lia. }
  split; [done |].
  assert (b = slice d (mkRange q q')) as Eb by (apply (slice_prefix b d q e); [lia | by exists d']).
  split; [done |]. rewrite <- (slice_app d q q' e) in Hs by lia. rewrite <- Eb in Hs. by apply app_inv_head in Hs.
Qed.

(** ** What a call keeps and answers

    [triple F Pn m post]: run in a state whose disk and flights are true of
    the objects, [m] leaves such a state, and answers as [post] says; it fails
    only if [F], and panics only if [Pn]. *)

Section triples.
Context {OT : ObjectStoreTypes} {U C OsErr : Type} {truth : OPath -> Object}.
Context {UP : Upstream U OsErr truth} {LC : LocalCache C OsErr truth}.
Context (P : Z) (HP : 0 < P).

Abbreviation Act := (SE (PC (U := U) (C := C)) (Fault (OsErr := OsErr))).

(** What is handed to a caller is what a run for its key returns. *)
Definition shared_ok (sh : Shared) : Prop :=
  (forall loc h, sh_head sh loc = Some h -> head_ok truth loc h.1)
  /\ (forall loc r h, sh_prefetch sh (loc, r) = Some h -> head_ok truth loc h.1)
  /\ (forall loc id b, sh_part sh (loc, id) = Some b -> b = part P (truth loc) id).

Definition pc_ok (s : PC (U := U) (C := C)) : Prop :=
  coherent P (pc_storage s) /\ Forall shared_ok (pc_flights s).

Definition triple (F Pn : Prop) {A} (m : Act A) (post : A -> Prop) : Prop := forall s r s',
  pc_ok s -> m s = (r, s') ->
  pc_ok s' /\ match r with
             | Ok a => post a
             | Err (Failed _) => F
             | Err PcPanicked => Pn
             end.

(** The wrapped store answers every GET it can. *)
Definition reliable : Prop := forall loc o u,
  go_conditions o = cond_default -> resolve (go_range o) (ob_size (truth loc)) <> None ->
  exists g u', up_get_opts loc o u = (Ok g, u') /\ Forall (fun c => is_ok c = true) (gr_payload g).

Section rules.
Context (F Pn : Prop).

Lemma triple_ret {A} (a : A) (post : A -> Prop) : post a -> triple F Pn (se_ret a) post.
Proof. intros Ha s r s' Hs [= <- <-]. done. Qed.

Lemma triple_bind {A B} (m : Act A) (k : A -> Act B) (mid : A -> Prop) post :
  triple F Pn m mid -> (forall a, mid a -> triple F Pn (k a) post) -> triple F Pn (se_bind m k) post.
Proof.
  intros Hm Hk s r s' Hs. unfold se_bind. destruct (m s) as [[a | e] s1] eqn:Em.
  - destruct (Hm s _ s1 Hs Em) as [Hs1 Ha]. by apply Hk.
  - intros [= <- <-]. destruct (Hm s _ s1 Hs Em) as [Hs1 Ha]. split; [done |]. by destruct e.
Qed.

Lemma triple_weaken {A} (m : Act A) (p q : A -> Prop) :
  triple F Pn m p -> (forall a, p a -> q a) -> triple F Pn m q.
Proof.
  intros Hm Hpq s r s' Hs E1. destruct (Hm s r s' Hs E1) as [? Hr]. split; [done |].
  destruct r as [a | e]; [by apply Hpq | done].
Qed.

Lemma triple_then {A B} (m : Act A) (k : A -> Act B) post :
  triple F Pn m (fun _ => True) -> (forall a, triple F Pn (k a) post) -> triple F Pn (se_bind m k) post.
Proof. intros Hm Hk. eapply triple_bind; [exact Hm | by intros a _]. Qed.

(** A swallowed error does not reach the caller. *)
Lemma triple_swallow {A} (F' : Prop) (m : Act A) (post : A -> Prop) :
  triple F' Pn m post -> triple F Pn (swallow m) (fun _ => True).
Proof.
  intros Hm s r s' Hs. unfold swallow. destruct (m s) as [[a | [e |]] s1] eqn:Em;
    destruct (Hm s _ s1 Hs Em) as [Hs1 Hr]; by intros [= <- <-].
Qed.

Lemma triple_assert (b : bool) : b = true \/ Pn -> triple F Pn (assert b) (fun _ => b = true).
Proof. unfold assert. intros Hb s r s' Hs. destruct b; intros [= <- <-]; [done | by destruct Hb]. Qed.

Lemma triple_flight {A} (pick : Shared -> option A) (m : Act A) (post : A -> Prop) :
  triple F Pn m post -> (forall sh v, shared_ok sh -> pick sh = Some v -> post v) -> triple F Pn (flight pick m) post.
Proof.
  intros Hm Hp s r s' [Hc Hf]. unfold flight. destruct (pc_flights s) as [| sh fl] eqn:Ef.
  - apply Hm. split; [done | by rewrite Ef].
  - apply Forall_cons in Hf as [Hsh Hf].
    destruct (pick sh) as [v |] eqn:Ev; [intros [= <- <-]; by split; [split | eapply Hp] |]. apply Hm. by split.
Qed.

Lemma triple_disk {A} (m : SE C OsErr A) (post : A -> Prop) : F ->
  (forall c r c', m c = (r, c') -> coherent P c -> coherent P c' /\ forall a, r = Ok a -> post a) ->
  triple F Pn (disk m) post.
Proof.
  intros HF Hm s r s' [Hc Hf]. unfold disk. destruct (m (pc_storage s)) as [r0 c] eqn:Em.
  destruct (Hm _ _ _ Em Hc) as [Hc' Hr]. intros [= <- <-].
  split; [by split |]. destruct r0 as [a | e]; cbn; [by apply Hr | done].
Qed.

Lemma triple_upstream {A} (m : SE U OsErr A) (post : A -> Prop) :
  (forall u r u', m u = (r, u') -> match r with Ok a => post a | Err _ => F end) -> triple F Pn (upstream m) post.
Proof.
  intros Hm s r s' Hs. unfold upstream. destruct (m (pc_upstream s)) as [r0 u] eqn:Em.
  specialize (Hm _ _ _ Em). intros [= <- <-]. split; [done |]. by destruct r0.
Qed.

End rules.

(** GETs: what comes back, and when nothing may go wrong. *)
Definition delivered (loc : OPath) (o : GetOptions) (g : GetResult (list (result OsErr bytes))) : Prop :=
  head_ok truth loc (gr_meta g, gr_attributes g)
  /\ resolve (go_range o) (ob_size (truth loc)) = Some (gr_range g)
  /\ (streams (gr_payload g) (slice (ob_data (truth loc)) (gr_range g))
      \/ go_head o = true /\ streams (gr_payload g) []).

Lemma triple_get F Pn loc o :
  F \/ reliable /\ go_conditions o = cond_default /\ resolve (go_range o) (ob_size (truth loc)) <> None ->
  triple F Pn (upstream (up_get_opts loc o))
    (fun g => delivered loc o g /\ (F \/ Forall (fun c => is_ok c = true) (gr_payload g))).
Proof.
  intros Hf. apply triple_upstream. intros u r u' Er. destruct r as [g | e].
  - split; [by eapply up_get_spec |]. destruct Hf as [HF | (Hrel & Hcd & Hres)]; [by left | right].
    destruct (Hrel loc o u Hcd Hres) as (g' & u'' & E1 & Hok). congruence.
  - destruct Hf as [HF | (Hrel & Hcd & Hres)]; [done |].
    destruct (Hrel loc o u Hcd Hres) as (g' & u'' & E1 & Hok). congruence.
Qed.

Lemma triple_save_part F Pn loc id buf : F -> 0 <= id -> buf = part P (truth loc) id ->
  triple F Pn (disk (lc_save_part loc P id buf)) (fun _ => True).
Proof. intros HF Hid Hb. apply triple_disk; [done |]. intros c r c' E1 Hc. split; [| done]. by eapply lc_save_part_spec. Qed.

Lemma triple_save_head F Pn loc h : F -> head_ok truth loc h ->
  triple F Pn (disk (lc_save_head loc P h)) (fun _ => True).
Proof. intros HF Hh. apply triple_disk; [done |]. intros c r c' E1 Hc. split; [| done]. by eapply lc_save_head_spec. Qed.

(** ** Saving parts *)

Section saving.
Context (Pn : Prop) (loc : OPath).
Abbreviation data := (ob_data (truth loc)).
Abbreviation size := (ob_size (truth loc)).

Lemma triple_save_full fuel buffer pn :
  0 <= pn -> buffer = slice data (mkRange (pn * P) (pn * P + Z.of_nat (length buffer))) ->
  pn * P + Z.of_nat (length buffer) <= size -> (length buffer <= fuel)%nat ->
  triple True Pn (save_full_parts P fuel loc buffer pn) (fun bp =>
    0 <= bp.2 /\ bp.1 = slice data (mkRange (bp.2 * P) (pn * P + Z.of_nat (length buffer)))
    /\ Z.of_nat (length bp.1) < P /\ bp.2 * P + Z.of_nat (length bp.1) = pn * P + Z.of_nat (length buffer)).
Proof.
  revert buffer pn. induction fuel as [| fuel IH]; intros buffer pn Hpn Hb Hs Hf; cbn [save_full_parts].
  { apply triple_ret. cbn. destruct buffer; [| cbn in Hf; lia]. cbn in *. repeat split; [done | done | lia..]. }
  destruct (Z.leb_spec P (Z.of_nat (length buffer))) as [Hle | Hlt].
  2: { apply triple_ret. cbn. repeat split; [done | done | lia..]. }
  assert (take (Z.to_nat P) buffer = slice data (mkRange (pn * P) (pn * P + P))) as Ht.
  { rewrite Hb. apply take_slice; lia. }
  assert (Z.of_nat (length (drop (Z.to_nat P) buffer)) = Z.of_nat (length buffer) - P) as Hl
    by (rewrite length_drop; lia).
  apply triple_then.
  - apply triple_save_part; [done | lia |]. rewrite Ht. unfold part. do 2 f_equal. lia.
  - intros _. eapply triple_weaken; [apply IH; [lia | | lia | lia] |].
    + rewrite Hl. rewrite Hb at 1. rewrite drop_slice by lia. do 2 f_equal; lia.
    + intros bp. rewrite Hl. replace ((pn + 1) * P + (Z.of_nat (length buffer) - P))
        with (pn * P + Z.of_nat (length buffer)) by lia. done.
Qed.

Lemma triple_save_chunks stream buffer pn q e total :
  0 <= pn -> pn * P <= q <= e -> e <= size ->
  buffer = slice data (mkRange (pn * P) q) -> Z.of_nat (length buffer) < P ->
  streams stream (slice data (mkRange q e)) ->
  triple True Pn (save_chunks P loc stream buffer pn total) (fun bpt =>
    0 <= bpt.1.2 /\ bpt.1.2 * P <= e /\ bpt.1.1 = slice data (mkRange (bpt.1.2 * P) e)
    /\ Z.of_nat (length bpt.1.1) < P).
Proof.
  revert buffer pn q total. induction stream as [| [b | er] stream IH]; intros buffer pn q total Hpn Hq He Hb Hlen Hs;
    cbn [save_chunks].
  - apply triple_ret. cbn. apply streams_nil in Hs.
    assert (q = e) as ->; [| repeat split; [done | lia | done | done]].
    apply (f_equal length) in Hs. pose proof (length_slice data (mkRange q e)) as Hl. cbn in Hl, Hs.
    unfold ob_size in He. lia.
  - apply streams_cons in Hs as (d' & Hd & Hs).
    apply slice_cut in Hd as (Hq' & Eb & Ed); [| lia | unfold ob_size in He; lia].
    set (q' := q + Z.of_nat (length b)) in *.
    assert (buffer ++ b = slice data (mkRange (pn * P) q')) as Ebb.
    { rewrite Hb at 1. rewrite Eb at 1. apply slice_app; lia. }
    assert (pn * P + Z.of_nat (length (buffer ++ b)) = q') as Eq'.
    { rewrite Ebb, length_slice; cbn; unfold ob_size in He; lia. }
    intros s r s' Hok. unfold se_bind at 1. cbn [se_lift map_err]. revert s r s' Hok.
    eapply triple_bind; [apply triple_save_full; [done | by rewrite Eq' | lia | done] |].
    rewrite Eq'. intros [buf pn'] (Hpn' & Hbuf & Hlt & Hsum). cbn in *.
    apply (IH buf pn' q'); [done | lia | done | done | done |]. by rewrite <- Ed.
  - intros s r s' Hok [= <- <-]. done.
Qed.

Lemma triple_save_stream stream k e :
  0 <= k -> k * P <= e -> e <= size -> (e mod P = 0 \/ e = size) ->
  streams stream (slice data (mkRange (k * P) e)) ->
  triple True Pn (save_parts_stream P loc stream k) (fun _ => True).
Proof.
  intros Hk Hke He Hal Hs. unfold save_parts_stream.
  eapply triple_bind; [apply (triple_save_chunks stream [] k (k * P) e); try done; try lia |].
  { by rewrite slice_nil by lia. }
  intros [[buf pn] total] (Hpn & Hle & Hbuf & Hlen). cbn in Hpn, Hle, Hbuf, Hlen.
  apply triple_then; [| intros _; by apply triple_ret].
  destruct buf as [| b0 buf]; [by apply triple_ret |].
  apply triple_save_part; [done | done |]. rewrite Hbuf. unfold part. do 2 f_equal.
  assert (Z.of_nat (length (b0 :: buf)) = e - pn * P) as Hl.
  { rewrite Hbuf, length_slice; cbn; unfold ob_size in He; lia. }
  assert ((pn + 1) * P = pn * P + P) by lia.
  cbn [length] in Hl, Hlen. destruct Hal as [Hm | Hal]; [exfalso | rewrite Z.min_r; lia].
  assert (P <> 0) as HP0 by (clear -HP; lia). pose proof (Z.div_mod e P HP0) as Hd. rewrite Hm in Hd.
  assert (P * (e / P - pn) = e - pn * P) as He' by (rewrite Hd at 2; ring).
  rewrite <- Hl in He'. clear -He' Hlen HP.
  destruct (Z.le_gt_cases (e / P) pn); nia.
Qed.

End saving.

(** ** The handlers *)

(** The GETs the cache keeps start at a part and end at one or at the end. *)
Definition aligned (range : URange) (size : Z) : Prop :=
  rg_start range mod P = 0 /\ (rg_end range mod P = 0 \/ rg_end range = size).

Lemma resolve_bounds range size r :
  0 <= size -> resolve range size = Some r ->
  (forall b, range = Some (Bounded b) -> 0 <= rg_start b) -> (forall o, range = Some (Offset o) -> 0 <= o) ->
  (forall x, range = Some (Suffix x) -> 0 <= x) ->
  0 <= rg_start r <= rg_end r /\ rg_end r <= size.
Proof.
  intros Hs Hr Hb Ho Hx. destruct range as [[b | o | x] |]; cbn in Hr.
  - specialize (Hb b eq_refl). case_decide; [| done]. injection Hr as <-. cbn. lia.
  - specialize (Ho o eq_refl). case_decide; [| done]. injection Hr as <-. cbn. lia.
  - specialize (Hx x eq_refl). injection Hr as <-. cbn. lia.
  - injection Hr as <-. cbn. lia.
Qed.

Lemma triple_save_get Pn loc o g :
  delivered loc o g -> 0 <= rg_start (gr_range g) <= rg_end (gr_range g) -> rg_end (gr_range g) <= ob_size (truth loc) ->
  (go_head o = true -> rg_start (gr_range g) = 0) ->
  aligned (gr_range g) (ob_size (truth loc)) \/ Pn ->
  triple True Pn (save_get_result P loc g) (fun _ => True).
Proof.
  intros (Hh & Hres & Hst) Hb He Hhead Hal. unfold save_get_result.
  assert (om_size (gr_meta g) = ob_size (truth loc)) as Esz by apply Hh.
  eapply triple_bind; [apply triple_assert |].
  { destruct Hal as [[H1 _] | ?]; [left; by apply multiple_spec | by right]. }
  intros _ H1%(multiple_spec _ P HP). eapply triple_bind; [apply triple_assert |].
  { destruct Hal as [[_ H2] | ?]; [left | by right]. rewrite Esz, orb_true_iff, Z.eqb_eq.
    destruct H2; [left; by apply multiple_spec | by right]. }
  intros [] H2. rewrite Esz, orb_true_iff, Z.eqb_eq, (multiple_spec _ P HP) in H2.
  apply triple_then; [by apply triple_save_head |]. intros _.
  apply triple_then; [| intros _; by apply triple_ret].
  assert (rg_start (gr_range g) / P * P = rg_start (gr_range g)) as Ediv.
  { assert (P <> 0) as HP0 by lia. pose proof (Z.div_mod (rg_start (gr_range g)) P HP0). lia. }
  assert (0 <= rg_start (gr_range g) / P) by (apply Z.div_pos; lia).
  destruct Hst as [Hst | [Hd Hst]].
  - apply (triple_save_stream Pn loc _ _ (rg_end (gr_range g))); try done; rewrite Ediv; [lia |].
    by destruct (gr_range g).
  - specialize (Hhead Hd). rewrite Hhead in *. rewrite Z.div_0_l by lia.
    apply (triple_save_stream Pn loc _ 0 0); [lia | lia | unfold ob_size; lia | by left |].
    rewrite slice_nil by lia. done.
Qed.

(** A head from disk, or the result of [m] when there is none. *)
Lemma triple_read_head {A} F Pn loc (k : ObjectMeta * Attributes -> Act A) (m : Act A) post :
  (forall h, head_ok truth loc h -> triple F Pn (k h) post) -> triple F Pn m post ->
  triple F Pn (fun s => match disk (lc_read_head loc P) s with
                        | (Ok (Some h), s) => k h s
                        | (_, s) => m s
                        end) post.
Proof.
  intros Hk Hm s r s' [Hc Hf]. unfold disk at 1. destruct (lc_read_head loc P (pc_storage s)) as [r0 c] eqn:Er.
  destruct (lc_read_head_spec _ _ _ _ _ Er Hc) as [Hc' Hh].
  assert (pc_ok (mkPC (pc_upstream s) c (pc_flights s) (pc_access s))) as Hs1 by by split.
  destruct r0 as [[h |] | e]; cbn [map_err]; [apply Hk; auto | by apply Hm | by apply Hm].
Qed.

(** A GET of a whole object, and of an aligned range of it. *)
Definition can_get (F : Prop) (loc : OPath) (range : option GetRange) (c : Conditions) : Prop :=
  F \/ reliable /\ c = cond_default /\ resolve range (ob_size (truth loc)) <> None.

Lemma triple_cached_head F Pn loc keep :
  F \/ reliable ->
  triple F Pn (cached_head P loc keep)
    (fun g => head_ok truth loc (gr_meta g, gr_attributes g) /\ gr_payload g = []).
Proof.
  intros Hf. assert (0 <= ob_size (truth loc)) as Hsz by (unfold ob_size; lia).
  apply (triple_read_head F Pn loc (fun h s =>
    let '(meta, attributes) := h in (Ok (head_only_get_result [] (meta, attributes, ext_new)), s))).
  { intros [m a] Hh. by apply triple_ret. }
  eapply (triple_bind F Pn _ _ (fun h => head_ok truth loc h.1)).
  - apply triple_flight; [| intros sh h (Hsh & _) Hh; by apply (Hsh loc)].
    eapply triple_bind; [apply triple_get; destruct Hf as [? | ?]; [by left | right; by repeat split] |].
    intros g [Hg _]. pose proof Hg as (Hh & Hres & _). cbn in Hres. injection Hres as Hr.
    apply triple_then; [| intros _; by apply triple_ret].
    destruct keep; [| by apply triple_ret]. eapply (triple_swallow F Pn True).
    apply (triple_save_get Pn loc (mkGetOptions None true cond_default)); [done | | | |]; rewrite <- Hr; cbn;
      [lia | lia | done |].
    left. split; [by apply Z.mod_0_l; lia | by right].
  - intros [[m a] x] Hh. by apply triple_ret.
Qed.

(** Ranges as requests carry them, away from the end of [u64] by a part. *)
Definition range_wf (range : option GetRange) : Prop :=
  match range with
  | Some (Bounded r) => 0 <= rg_start r /\ 0 <= rg_end r /\ rg_end r + P <= 2 ^ 64
  | Some (Offset o) => 0 <= o
  | Some (Suffix s) => 0 <= s /\ s + P <= 2 ^ 64
  | None => True
  end.

(** A cold suffix read whose aligned start is inside the object but at no
    part boundary. *)
Definition unaligned_suffix (range : option GetRange) (size : Z) : Prop :=
  exists s, range = Some (Suffix s) /\ div_ceil s P * P < size /\ size mod P <> 0.

Lemma floor_aligned a : 0 <= a -> 0 <= a - a mod P <= a /\ (a - a mod P) mod P = 0.
Proof.
  intros Ha. assert (P <> 0) as HP0 by lia. pose proof (Z.div_mod a P HP0).
  pose proof (Z.mod_pos_bound a P HP). pose proof (Z.div_pos a P Ha HP).
  split; [nia |]. replace (a - a mod P) with (a / P * P) by lia. by apply Z.mod_mul.
Qed.

Lemma align_end b : 0 <= rg_end b -> rg_end b + P <= 2 ^ 64 ->
  rg_end (align_range b P) = div_ceil (rg_end b) P * P /\ rg_end b <= rg_end (align_range b P).
Proof.
  intros Hb Hw. pose proof (div_ceil_bounds (rg_end b) P HP). unfold align_range, wrap. cbn [rg_end].
  rewrite Z.mod_small by lia. lia.
Qed.

Lemma align_resolves range size r :
  0 <= size -> range_wf range -> resolve (align_get_range P <$> range) size = Some r ->
  0 <= rg_start r <= rg_end r /\ rg_end r <= size /\ (aligned r size \/ unaligned_suffix range size).
Proof.
  intros Hs Hwf Hr. assert (P <> 0) as HP0 by lia.
  destruct range as [[b | o | x] |]; cbn -[align_range] in Hr.
  - destruct Hwf as (H1 & H2 & H3). destruct (floor_aligned _ H1) as [H4 H5].
    destruct (align_end b H2 H3) as [E1 E2]. rewrite E1 in *.
    case_decide as Hd; [| done]. injection Hr as <-. cbn [align_range rg_start rg_end] in *.
    split; [lia |]. split; [lia |]. left. split; [done |]. cbn [rg_end].
    destruct (Z.le_gt_cases size (div_ceil (rg_end b) P * P)); [right; lia | left].
    rewrite Z.min_l by lia. by apply Z.mod_mul.
  - destruct (floor_aligned _ Hwf) as [H4 H5].
    case_decide as Hd; [| done]. injection Hr as <-. cbn in *.
    split; [lia |]. split; [lia |]. left. split; [done | by right].
  - destruct Hwf as [H1 H2]. destruct (align_end (mkRange 0 x) H1 H2) as [E1 E2].
    change (wrap 64 (div_ceil x P * P) = div_ceil x P * P) in E1.
    change (x <= wrap 64 (div_ceil x P * P)) in E2. rewrite E1 in E2.
    injection Hr as <-. rewrite E1. cbn [rg_start rg_end].
    split; [lia |]. split; [lia |]. set (e := div_ceil x P * P) in *.
    destruct (Z.le_gt_cases size e); [left; split; cbn; [rewrite Z.max_l by lia; by apply Z.mod_0_l | by right] |].
    destruct (Z.eq_dec (size mod P) 0) as [Em |]; [left; split; cbn; [| by right] | right; exists x; by repeat split].
    rewrite Z.max_r by lia. unfold e. rewrite Zminus_mod, Em, Z.mod_mul by done. by rewrite Z.mod_0_l.
  - injection Hr as <-. cbn. split; [lia |]. split; [lia |]. left. split; cbn; [by apply Z.mod_0_l | by right].
Qed.

(** What the range asks for can be asked for in whole parts. *)
Lemma align_can_resolve range size :
  range_wf range -> resolve range size <> None -> resolve (align_get_range P <$> range) size <> None.
Proof.
  intros Hwf Hr. destruct range as [[b | o | x] |]; cbn -[align_range] in *; [| | done | done].
  - destruct Hwf as (H1 & H2 & H3). destruct (floor_aligned _ H1) as [H4 H5].
    destruct (align_end b H2 H3) as [E1 E2]. case_decide as Hd; [| done].
    rewrite decide_True; [done |]. cbn [align_range rg_start] in *. lia.
  - destruct (floor_aligned _ Hwf) as [H4 H5]. case_decide as Hd; [| done]. rewrite decide_True; [done | lia].
Qed.

Lemma triple_prefetch F Pn loc o :
  range_wf (go_range o) -> (go_head o = false) ->
  F \/ reliable /\ go_conditions o = cond_default /\ resolve (go_range o) (ob_size (truth loc)) <> None ->
  unaligned_suffix (go_range o) (ob_size (truth loc)) \/ True -> (unaligned_suffix (go_range o) (ob_size (truth loc)) -> Pn) ->
  triple F Pn (maybe_prefetch_range P loc o) (fun ph => head_ok truth loc (ph_meta ph, ph_attributes ph)).
Proof.
  intros Hwf Hhd Hf _ Hpn. assert (0 <= ob_size (truth loc)) as Hsz by (unfold ob_size; lia).
  apply (triple_read_head F Pn loc (fun h s =>
    let '(meta, attributes) := h in (Ok (mkPrefetchedHead meta attributes ext_new Disk), s))).
  { intros [m a] Hh. by apply triple_ret. }
  cbv zeta. eapply (triple_bind F Pn _ _ (fun h => head_ok truth loc h.1)).
  - apply triple_flight; [| intros sh h (_ & Hsh & _) Hh; by eapply Hsh].
    set (o' := mkGetOptions _ _ _).
    eapply triple_bind; [apply triple_get |].
    { destruct Hf as [? | (? & ? & ?)]; [by left | right; repeat split; [done | done |]]. by apply align_can_resolve. }
    intros g [Hg _]. pose proof Hg as (Hh & Hres & _). cbn in Hres.
    destruct (align_resolves _ _ _ Hsz Hwf Hres) as (Hb & He & Hal).
    apply triple_then; [| intros _; by apply triple_ret].
    eapply (triple_swallow F Pn True). apply (triple_save_get Pn loc o'); [done | done | done | |].
    + cbn. by rewrite Hhd.
    + destruct Hal; [by left | right; auto].
  - intros [[m a] x] Hh. by apply triple_ret.
Qed.

Lemma triple_fetch_part F Pn loc id :
  0 <= id -> id * P < ob_size (truth loc) -> ob_size (truth loc) + P < 2 ^ 64 -> F \/ reliable ->
  triple F Pn (fetch_part P loc id) (fun b => b = part P (truth loc) id).
Proof.
  intros Hid Hlt Hw Hf. assert (0 <= ob_size (truth loc)) as Hsz by (unfold ob_size; lia). unfold fetch_part.
  assert (wrap 64 (id * P) = id * P /\ wrap 64 ((id + 1) * P) = (id + 1) * P) as [-> ->].
  { unfold wrap. rewrite !Z.mod_small by nia. done. }
  assert (resolve (Some (Bounded (mkRange (id * P) ((id + 1) * P)))) (ob_size (truth loc))
    = Some (mkRange (id * P) (Z.min ((id + 1) * P) (ob_size (truth loc))))) as Hres.
  { cbn. rewrite decide_True by nia. done. }
  eapply triple_bind; [apply triple_get |].
  { destruct Hf; [by left | right]. repeat split; [done |]. cbn [go_range]. by rewrite Hres. }
  intros g [(Hh & Hr & Hst) Hall]. cbn [go_range go_head] in Hr, Hst. rewrite Hres in Hr. injection Hr as Hr.
  rewrite <- Hr in Hst. destruct Hst as [Hst | [? _]]; [| done].
  eapply (triple_bind F Pn _ _ (fun b => b = part P (truth loc) id)).
  - intros s r s' Hs [= <- <-]. split; [done |]. destruct (collect_bytes (gr_payload g)) as [b | e] eqn:Ec; cbn.
    + by eapply collect_streams.
    + destruct Hall as [? | Hall]; [done |]. destruct (collect_all _ Hall) as [b Eb]. congruence.
  - intros b Hb. apply triple_then; [eapply (triple_swallow F Pn True); by apply triple_save_head |]. intros _.
    apply triple_then; [eapply (triple_swallow F Pn True); by apply triple_save_part |]. intros _.
    by apply triple_ret.
Qed.

Lemma triple_read_part F Pn loc p b force :
  0 <= p.1 -> p.1 * P < ob_size (truth loc) -> 0 <= rg_start p.2 <= rg_end p.2 ->
  slice_opt (part P (truth loc) p.1) p.2 = Some b ->
  ob_size (truth loc) + P < 2 ^ 64 -> F \/ reliable ->
  triple F Pn (read_part P loc p.1 p.2 force) (fun bs => bs.1 = b).
Proof.
  intros Hid Hlt Hr Hb Hw Hf.
  assert (triple F Pn (read_part_upstream P loc p.1 p.2) (fun bs => bs.1 = b)) as Hmiss.
  { unfold read_part_upstream. eapply triple_bind.
    - apply triple_flight; [by apply triple_fetch_part |]. intros sh v (_ & _ & Hsh) Hv. by apply (Hsh loc).
    - intros bs ->. rewrite Hb. by apply triple_ret. }
  unfold read_part. destruct force; [done |]. intros s r s' [Hc Hfl]. unfold disk at 1.
  destruct (lc_read_part loc P p.1 p.2 (pc_storage s)) as [r0 c] eqn:Er.
  destruct (lc_read_part_spec _ _ _ _ _ _ _ Er Hc Hid Hr) as [Hc' Hrd].
  destruct r0 as [[b' |] | e]; cbn [map_err]; [| by apply Hmiss; split | by apply Hmiss; split].
  intros [= <- <-]. split; [by split |]. cbn. specialize (Hrd b' eq_refl). congruence.
Qed.

Lemma triple_drain F Pn loc src force parts pieces :
  Forall2 (fun p b => 0 <= p.1 /\ p.1 * P < ob_size (truth loc) /\ 0 <= rg_start p.2 <= rg_end p.2
                       /\ slice_opt (part P (truth loc) p.1) p.2 = Some b) parts pieces ->
  ob_size (truth loc) + P < 2 ^ 64 -> F \/ reliable ->
  triple F Pn (drain (part_future P loc src force <$> parts)) (fun b => b = concat pieces).
Proof.
  intros Hp Hw Hf. induction Hp as [| p b parts pieces (H1 & H2 & H3 & H4) _ IH]; [by apply triple_ret |].
  rewrite fmap_cons. cbn [drain concat]. eapply (triple_bind F Pn _ _ (fun x => x = b)).
  - unfold part_future. eapply triple_bind; [by apply triple_read_part |]. intros bs Ebs.
    apply triple_then; [| intros _; by apply triple_ret].
    intros s r s' [Hc Hfl] [= <- <-]. done.
  - intros x ->. eapply triple_bind; [exact IH |]. intros y ->. by apply triple_ret.
Qed.

Lemma canonicalize_resolve range size :
  match canonicalize_range range size with Ok r => resolve range size = Some r | Err _ => resolve range size = None end.
Proof.
  destruct range as [[b | o | x] |]; cbn; [| | done | done].
  - destruct (Z.leb_spec size (rg_start b)); [by rewrite decide_False by lia |].
    destruct (Z.leb_spec (rg_end b) (rg_start b)); [by rewrite decide_False by lia |].
    by rewrite decide_True by lia.
  - destruct (Z.leb_spec size o); [by rewrite decide_False by lia | by rewrite decide_True by lia].
Qed.

(** What [get_opts] answers, and what its payload delivers when drained. *)
Definition serves_object (F : Prop) (loc : OPath) (o : GetOptions) (g : GetResult (list (Act bytes))) : Prop :=
  head_ok truth loc (gr_meta g, gr_attributes g)
  /\ if go_head o then gr_payload g = []
     else resolve (go_range o) (ob_size (truth loc)) = Some (gr_range g)
          /\ triple F False (drain (gr_payload g)) (fun b => b = slice (ob_data (truth loc)) (gr_range g)).

Lemma triple_get_opts F (Pn : Prop) loc o :
  range_wf (go_range o) -> ob_size (truth loc) + P < 2 ^ 64 ->
  F \/ reliable /\ go_conditions o = cond_default /\ resolve (go_range o) (ob_size (truth loc)) <> None ->
  (unaligned_suffix (go_range o) (ob_size (truth loc)) -> Pn) ->
  triple F Pn (get_opts P loc o) (serves_object F loc o).
Proof.
  intros Hwf Hw Hf Hpn. assert (F \/ reliable) as Hf' by (destruct Hf as [? | (? & _)]; auto).
  unfold get_opts, serves_object. destruct (go_head o) eqn:Eh.
  { eapply triple_weaken; [by apply triple_cached_head |]. done. }
  unfold cached_get_opts. eapply triple_bind; [by apply triple_prefetch; auto |].
  intros ph Hph. assert (om_size (ph_meta ph) = ob_size (truth loc)) as Esz by apply Hph. rewrite Esz.
  pose proof (canonicalize_resolve (go_range o) (ob_size (truth loc))) as Hcan.
  destruct (canonicalize_range (go_range o) (ob_size (truth loc))) as [r | e].
  - intros s r0 s' Hs. unfold se_bind, se_lift. cbn [map_err]. intros [= <- <-]. split; [done |]. cbn.
    split; [done |]. split; [done |].
    assert (0 <= ob_size (truth loc)) as Hsz by (unfold ob_size; lia).
    destruct (resolve_bounds _ _ _ Hsz Hcan) as [Hb He].
    + intros b Eb. rewrite Eb in Hwf. apply Hwf.
    + intros b Eb. rewrite Eb in Hwf. apply Hwf.
    + intros b Eb. rewrite Eb in Hwf. apply Hwf.
    + destruct (split_tiles P HP (truth loc) r Hb He ltac:(lia)) as (pieces & Hp & <-). by apply triple_drain.
  - intros s r0 s' Hs. unfold se_bind, se_lift. cbn [map_err]. intros [= <- <-]. split; [done |].
    destruct Hf as [? | (_ & _ & ?)]; [done | congruence].
Qed.

(** What a cached put saves besides: the parts and a synthesized head. *)
Lemma triple_put_saves F Pn loc payload attrs pr :
  concat payload = ob_data (truth loc) -> attrs = ob_attributes (truth loc) ->
  pr_e_tag pr = ob_e_tag (truth loc) -> pr_version pr = ob_version (truth loc) ->
  triple F Pn (do! _ <- swallow (save_parts_stream P loc (Ok <$> payload) 0);
               do! _ <- swallow (disk (lc_save_head loc P
                 (build_head loc (Z.of_nat (length (concat payload))) pr, attrs))); se_ret pr)
    (fun r => r = pr).
Proof.
  intros Hd Ha E1 E2. apply triple_then.
  - eapply (triple_swallow F Pn True). apply (triple_save_stream Pn loc _ 0 (ob_size (truth loc)));
      [lia | unfold ob_size; lia | lia | by right |].
    exists payload, []. rewrite app_nil_r, Hd. split; [done |].
    assert (slice (ob_data (truth loc)) (mkRange (0 * P) (ob_size (truth loc))) = ob_data (truth loc)) as ->.
    { unfold slice, ob_size. cbn. rewrite Z.sub_0_r, Nat2Z.id. apply firstn_all. }
    split; [done | by left].
  - intros _. apply triple_then; [| intros _; by apply triple_ret].
    eapply (triple_swallow F Pn True). apply triple_save_head; [done |]. cbn. rewrite Hd. by repeat split.
Qed.

End triples.

(** ** Theorems *)

Section theorems.
Context {OT : ObjectStoreTypes} {U C OsErr : Type} {truth : OPath -> Object}.
Context {UP : Upstream U OsErr truth} {LC : LocalCache C OsErr truth}.

Abbreviation State := (PC (U := U) (C := C)).

(** C19: The cache is transparent.  For an object that does not change, in any
    state of the disk that tells no lies, whatever part of it is there, whatever
    other callers' fetches the call joins and whichever disk or store calls
    fail, a GET or HEAD through the cache answers with the object's metadata
    and the range the request names; the stream it returns, polled at any
    later time, delivers exactly the object's bytes of that range or the
    store's error; the disk still tells no lies; and it panics only on a suffix
    whose aligned start is inside the object at no part boundary. *)
Theorem cached_get_transparent P loc o (s : State) r s1 :
  0 < P -> ob_size (truth loc) + P < 2 ^ 64 -> range_wf P (go_range o) -> pc_ok P s ->
  get_opts P loc o s = (r, s1) ->
  pc_ok P s1
  /\ match r with
     | Ok g =>
         head_ok truth loc (gr_meta g, gr_attributes g)
         /\ if go_head o then gr_payload g = []
            else resolve (go_range o) (ob_size (truth loc)) = Some (gr_range g)
                 /\ forall s2 r2 s3, pc_ok P s2 -> drain (gr_payload g) s2 = (r2, s3) ->
                      pc_ok P s3
                      /\ match r2 with
                         | Ok b => b = slice (ob_data (truth loc)) (gr_range g)
                         | Err (Failed _) => True
                         | Err PcPanicked => False
                         end
     | Err (Failed _) => True
     | Err PcPanicked => unaligned_suffix P (go_range o) (ob_size (truth loc))
     end.
Proof.
  intros HP Hw Hwf Hs Hr.
  destruct (triple_get_opts P HP True (unaligned_suffix P (go_range o) (ob_size (truth loc))) loc o Hwf Hw
    ltac:(by left) ltac:(done) s r s1 Hs Hr) as [Hs1 Hp]. split; [done |].
  destruct r as [g | [e |]]; [| done | done]. destruct Hp as [Hh Hp]. split; [done |].
  destruct (go_head o); [done |]. destruct Hp as [Hres Hd]. split; [done |]. intros s2 r2 s3 Hs2 Hr2.
  by apply Hd in Hr2.
Qed.

(** C23: Disk trouble never shows.  When the wrapped store answers every GET it
    can, a request for a range the object has (a suffix at a part boundary,
    or any other form) succeeds through the cache, and so does reading its
    stream to the end, whatever is on disk and whatever disk calls fail. *)
Theorem cached_get_available P loc o (s : State) :
  0 < P -> ob_size (truth loc) + P < 2 ^ 64 -> range_wf P (go_range o) -> pc_ok P s ->
  reliable (UP := UP) -> go_conditions o = cond_default -> go_head o = false ->
  resolve (go_range o) (ob_size (truth loc)) <> None ->
  ~ unaligned_suffix P (go_range o) (ob_size (truth loc)) ->
  exists g s1, get_opts P loc o s = (Ok g, s1)
    /\ forall s2, pc_ok P s2 ->
         exists s3, drain (gr_payload g) s2 = (Ok (slice (ob_data (truth loc)) (gr_range g)), s3).
Proof.
  intros HP Hw Hwf Hs Hrel Hcd Hhd Hres Hsuf.
  pose proof (triple_get_opts P HP False False loc o Hwf Hw ltac:(by right) Hsuf s) as Ht.
  destruct (get_opts P loc o s) as [r s1]. destruct (Ht r s1 Hs eq_refl) as [Hs1 Hp].
  destruct r as [g | [e |]]; [| done | done]. exists g, s1. split; [done |].
  unfold serves_object in Hp. rewrite Hhd in Hp. destruct Hp as (_ & _ & Hd). intros s2 Hs2.
  destruct (drain (gr_payload g) s2) as [r2 s3] eqn:Ed. destruct (Hd s2 r2 s3 Hs2 Ed) as [_ Hb].
  destruct r2 as [b | [e |]]; [| done | done]. exists s3. by rewrite Hb.
Qed.

(** C33: A cold suffix read panics.  When the object's head is not on disk and
    nobody else is fetching it, a suffix request whose aligned start falls
    inside the object but not on a part boundary trips the assertion of
    [save_get_result] as soon as the wrapped store has answered it, although
    the store itself serves the range. *)
Theorem cold_suffix_panics P loc suffix (s : State) c g u :
  0 < P -> 0 <= suffix -> suffix + P <= 2 ^ 64 ->
  unaligned_suffix P (Some (Suffix suffix)) (ob_size (truth loc)) ->
  lc_read_head loc P (pc_storage s) = (Ok None, c) -> pc_flights s = [] ->
  up_get_opts loc (mkGetOptions (align_get_range P <$> Some (Suffix suffix)) false cond_default) (pc_upstream s) = (Ok g, u) ->
  resolve (Some (Suffix suffix)) (ob_size (truth loc)) <> None
  /\ (get_opts P loc (mkGetOptions (Some (Suffix suffix)) false cond_default) s).1 = Err PcPanicked.
Proof.
  intros HP Hs0 Hs1 (x & [= <-] & Hx & Hm) Hread Hfl Hget. split; [done |].
  pose proof (up_get_spec _ _ _ _ _ Hget) as (_ & Hres & _).
  destruct (align_end P HP (mkRange 0 suffix) Hs0 Hs1) as [E1 _].
  change (wrap 64 (div_ceil suffix P * P) = div_ceil suffix P * P) in E1.
  cbn -[align_range] in Hres. injection Hres as Hr. cbn in Hr. rewrite E1 in Hr.
  pose proof (div_ceil_bounds suffix P HP).
  assert (is_multiple_of (rg_start (gr_range g)) P = false) as Hnot.
  { apply not_true_is_false. intros Hmul. apply multiple_spec in Hmul; [| done]. apply Hm.
    rewrite <- Hr in Hmul. cbn in Hmul. rewrite Z.max_r in Hmul by lia.
    replace (ob_size (truth loc)) with (ob_size (truth loc) - div_ceil suffix P * P + div_ceil suffix P * P) by lia.
    by rewrite Z.mod_add by lia. }
  unfold get_opts, cached_get_opts, maybe_prefetch_range, se_bind at 1. cbn [go_head go_range].
  unfold disk at 1. rewrite Hread. cbn [map_err go_conditions].
  unfold se_bind at 1, flight at 1. cbn [pc_flights]. rewrite Hfl.
  unfold se_bind at 1, upstream at 1. cbn [pc_upstream go_range]. rewrite Hget. cbn [map_err].
  unfold se_bind at 1, swallow at 1, save_get_result at 1. rewrite Hnot. done.
Qed.

Lemma put_keeps P (s : State) cache_puts loc payload attrs r s1 :
  0 < P -> pc_ok P s -> concat payload = ob_data (truth loc) -> attrs = ob_attributes (truth loc) ->
  cached_put_opts P cache_puts loc payload attrs s = (r, s1) ->
  pc_ok P s1 /\ r = map_err Failed (up_put_opts loc payload attrs (pc_upstream s)).1.
Proof.
  intros HP Hs Hd Ha. unfold cached_put_opts.
  destruct (up_put_opts loc payload attrs (pc_upstream s)) as [r0 u] eqn:Eu. destruct cache_puts; cbn [negb].
  2: { unfold upstream. rewrite Eu. by intros [= <- <-]. }
  unfold se_bind at 1, upstream at 1. rewrite Eu. destruct r0 as [pr | e]; cbn [map_err fst].
  2: { intros [= <- <-]. done. }
  destruct (up_put_spec _ _ _ _ _ _ Eu Hd Ha) as [E1 E2].
  set (s0 := mkPC u _ _ _). assert (pc_ok P s0) as Hs0 by done. clearbody s0. revert s0 r s1 Hs0.
  intros s0 r s1 Hs0 Hr.
  destruct (triple_put_saves P HP False False loc payload attrs pr Hd Ha E1 E2 s0 r s1 Hs0 Hr) as [Hs1 Hpost].
  split; [done |]. destruct r as [a | [e |]]; [by rewrite Hpost | done | done].
Qed.

Lemma delete_keeps P locs (s : State) r s1 :
  pc_ok P s -> delete_stream P locs s = (r, s1) -> pc_ok P s1 /\ is_ok r = true.
Proof.
  revert s r s1. induction locs as [| loc locs IH]; intros s r s1 Hs; cbn [delete_stream].
  { by intros [= <- <-]. }
  destruct (upstream (up_delete loc) s) as [r0 s2] eqn:Eu.
  assert (pc_ok P s2) as Hs2.
  { unfold upstream in Eu. destruct (up_delete loc (pc_upstream s)). by injection Eu as _ <-. }
  destruct (match r0 with Ok _ => _ | Err _ => _ end) as [r1 s3] eqn:E3.
  assert (pc_ok P s3) as Hs3.
  { destruct r0 as [[] | e]; [| by injection E3 as _ <-]. unfold disk in E3.
    destruct (lc_delete loc P (pc_storage s2)) as [rd c] eqn:Ed. injection E3 as _ <-.
    destruct Hs2 as [Hc Hf]. split; [by eapply lc_delete_spec | done]. }
  unfold se_bind. destruct (delete_stream P locs s3) as [r2 s4] eqn:E4.
  destruct (IH s3 r2 s4 Hs3 E4) as [Hs4 Hok]. destruct r2 as [rs | e]; [| done].
  by intros [= <- <-].
Qed.

(** Writes and deletes keep the disk true.  Putting an object's content,
    with the cache of puts on or off, answers as the wrapped store does and
    leaves nothing false on disk, and so does deleting any paths, whichever of
    the calls fail. *)
Theorem cached_writes_keep P (s : State) :
  0 < P -> pc_ok P s ->
  (forall cache_puts loc payload attrs r s1,
     concat payload = ob_data (truth loc) -> attrs = ob_attributes (truth loc) ->
     cached_put_opts P cache_puts loc payload attrs s = (r, s1) ->
     pc_ok P s1 /\ r = map_err Failed (up_put_opts loc payload attrs (pc_upstream s)).1)
  /\ (forall locs r s1, delete_stream P locs s = (r, s1) -> pc_ok P s1 /\ is_ok r = true).
Proof. intros HP Hs. split; [intros *; by apply put_keeps | intros *; by apply delete_keeps]. Qed.

End theorems.

(** ** A store in memory *)

Module MemStore.

#[export] Instance types : ObjectStoreTypes := {
  OPath := bytes;
  DateTime := unit;
  epoch := tt;
  Extensions := unit;
  ext_new := tt;
  Conditions := unit;
  cond_default := tt
}.

Inductive error : Type := Invalid (e : InvalidGetRange) | NoSuchRange | ShortRead.

(** The one object of the sample store, two parts of 1024 bytes and one of 8. *)
Definition payload : bytes := repeat (as_u8 1) 1024 ++ repeat (as_u8 2) 1024 ++ repeat (as_u8 3) 8.

Definition truth (loc : bytes) : Object := mkObject payload {[ContentType := [x78]]} (Some loc) None.

(** The store counts the GETs it has answered and sends its payloads in two
    chunks. *)
Definition get (loc : bytes) (o : GetOptions) : SE nat error (GetResult (list (result error bytes))) := fun n =>
  match resolve (go_range o) (ob_size (truth loc)) with
  | None => (Err NoSuchRange, n)
  | Some r =>
      let d := if go_head o then [] else slice payload r in
      (Ok (mkGetResult [Ok (take 100 d); Ok (drop 100 d)]
             (mkObjectMeta loc tt (ob_size (truth loc)) (Some loc) None) r {[ContentType := [x78]]} tt), S n)
  end.

Lemma two_chunks {E} (d : bytes) : streams (E := E) [Ok (take 100 d); Ok (drop 100 d)] d.
Proof.
  exists [take 100 d; drop 100 d], []. cbn. rewrite app_nil_r, take_drop.
  split; [done |]. split; [done | by left].
Qed.

Lemma get_spec loc o u g u' : get loc o u = (Ok g, u') ->
  head_ok truth loc (gr_meta g, gr_attributes g)
  /\ resolve (go_range o) (ob_size (truth loc)) = Some (gr_range g)
  /\ (streams (gr_payload g) (slice (ob_data (truth loc)) (gr_range g))
      \/ go_head o = true /\ streams (gr_payload g) []).
Proof.
  unfold get. destruct (resolve (go_range o) _) as [r |]; [| done].
  intros [= <- <-]. cbn [gr_meta gr_attributes gr_range gr_payload].
  split; [by repeat split |]. split; [done |].
  destruct (go_head o); [right; split; [done | by apply (two_chunks [])] | left; apply two_chunks].
Qed.

Definition put (loc : bytes) (chunks : list bytes) (attrs : Attributes) : SE nat error PutResult :=
  fun n => (Ok (mkPutResult (Some loc) None), n).

Lemma put_spec loc chunks attrs u r u' : put loc chunks attrs u = (Ok r, u') ->
  concat chunks = ob_data (truth loc) -> attrs = ob_attributes (truth loc) ->
  pr_e_tag r = ob_e_tag (truth loc) /\ pr_version r = ob_version (truth loc).
Proof. by intros [= <- <-]. Qed.

#[export] Instance up : Upstream nat error truth := {
  up_get_opts := get;
  up_put_opts := put;
  up_delete _ := fun n => (Ok tt, n);
  invalid_range := Invalid;
  up_get_spec := get_spec;
  up_put_spec := put_spec
}.

Lemma always_reliable : reliable (UP := up).
Proof.
  intros loc o u _ Hr. cbn. unfold get. destruct (resolve (go_range o) _) as [r |]; [| done].
  do 2 eexists. split; [done |]. cbn. by repeat constructor.
Qed.

(** A disk that is a pair of maps. *)
Record Disk : Type := mkDisk {
  d_heads : gmap (bytes * Z) (ObjectMeta * Attributes);
  d_parts : gmap (bytes * Z * Z) bytes
}.

Definition read_part (loc : bytes) (size id : Z) (range : URange) : SE Disk error (option bytes) := fun d =>
  (match d_parts d !! (loc, size, id) with
   | None => Ok None
   | Some b => match slice_opt b range with Some b => Ok (Some b) | None => Err ShortRead end
   end, d).

Definition true_disk (size : Z) (d : Disk) : Prop :=
  (forall loc h, d_heads d !! (loc, size) = Some h -> head_ok truth loc h)
  /\ forall loc id b, d_parts d !! (loc, size, id) = Some b -> b = part size (truth loc) id.

#[export, refine] Instance disk : LocalCache Disk error truth := {
  lc_save_part loc size id b := fun d => (Ok tt, mkDisk (d_heads d) (<[(loc, size, id) := b]> (d_parts d)));
  lc_read_part := read_part;
  lc_save_head loc size h := fun d => (Ok tt, mkDisk (<[(loc, size) := h]> (d_heads d)) (d_parts d));
  lc_read_head loc size := fun d => (Ok (d_heads d !! (loc, size)), d);
  lc_delete loc size := fun d =>
    (Ok tt, mkDisk (delete (loc, size) (d_heads d)) (filter (fun kv => kv.1.1 <> (loc, size)) (d_parts d)));
  coherent := true_disk
}.
Proof.
  - intros loc size id b c r c' [= <- <-] [Hh Hp] _ Hb. split; [done |]. intros loc' id' b'. cbn.
    rewrite lookup_insert_Some. intros [[[= <- <-] <-] | [_ H']]; [done | by apply Hp].
  - intros loc size id range c r c' [= <- <-] Hc _ _. split; [done |]. intros b.
    case_match eqn:E1; [| done]. apply (proj2 Hc) in E1 as <-. by case_match; intros [= ->].
  - intros loc size h c r c' [= <- <-] [Hh Hp] Hok. split; [| done]. intros loc' h'. cbn.
    rewrite lookup_insert_Some. intros [[[= <-] <-] | [_ H']]; [done | by apply Hh].
  - intros loc size c r c' [= <- <-] Hc. split; [done |]. intros h [= Hh]. by apply Hc.
  - intros loc size c r c' [= <- <-] [Hh Hp]. split; cbn.
    + intros loc' h [_ H']%lookup_delete_Some. by apply Hh.
    + intros loc' id b [H' _]%map_lookup_filter_Some. by apply Hp.
Defined.

End MemStore.

Abbreviation Sample_pc := (PC (OT := MemStore.types) (U := nat) (C := MemStore.Disk)).

Definition sample_pc : Sample_pc := mkPC (OT := MemStore.types) 0%nat (MemStore.mkDisk ∅ ∅) [] [].

Definition sample_get (range : option GetRange) (s : Sample_pc) :=
  get_opts (OT := MemStore.types) (UP := MemStore.up) (LC := MemStore.disk) 1024 ([x70])
    (mkGetOptions (OT := MemStore.types) range false tt) s.

(** Read a range to the end: the bytes, and the GETs the store has answered. *)
Definition sample_read (range : option GetRange) (s : Sample_pc) : option (list Z * nat * Sample_pc) :=
  match sample_get range s with
  | (Ok g, s1) => match drain (gr_payload g) s1 with
                  | (Ok b, s2) => Some (u8 <$> b, pc_upstream s2, s2)
                  | _ => None
                  end
  | _ => None
  end.

(** A range over three parts costs one GET; what it touched is then on disk. *)
Example sample_second_read_hits :
  match sample_read (Some (Bounded (mkRange 1022 2050))) sample_pc with
  | Some (b, n, s) =>
      length b = 1028%nat /\ take 3 b = [1; 1; 2] /\ drop 1025 b = [2; 3; 3] /\ n = 1%nat
      /\ match sample_read (Some (Offset 2054)) s with
         | Some (b, n, s) => b = [3; 3] /\ n = 1%nat /\ head (pc_access s) = Some (true, 2)
         | None => False
         end
  | None => False
  end.
Proof. vm_compute. repeat split. Qed.

Lemma sample_pc_ok : pc_ok (OT := MemStore.types) (LC := MemStore.disk) 1024 sample_pc.
Proof. split; [split; cbn; intros *; by rewrite lookup_empty | by constructor]. Qed.

Lemma sample_size : ob_size (MemStore.truth ([x70])) = 2056.
Proof. by vm_compute. Qed.

Lemma sample_fits : 0 < 1024 /\ ob_size (MemStore.truth [x70]) + 1024 < 2 ^ 64.
Proof. rewrite sample_size. lia. Qed.

Abbreviation Sample_options range := (mkGetOptions (OT := MemStore.types) range false tt).

Lemma cached_get_transparent_witness :
  exists g s1, sample_get (Some (Bounded (mkRange 1022 2050))) sample_pc = (Ok g, s1)
  /\ resolve (Some (Bounded (mkRange 1022 2050))) 2056 = Some (gr_range g).
Proof.
  destruct (sample_get (Some (Bounded (mkRange 1022 2050))) sample_pc) as [r s1] eqn:Er.
  pose proof (cached_get_transparent (UP := MemStore.up) (LC := MemStore.disk) 1024 [x70]
    (Sample_options (Some (Bounded (mkRange 1022 2050)))) sample_pc r s1
    (proj1 sample_fits) (proj2 sample_fits) ltac:(cbn; lia) sample_pc_ok Er) as [_ Hr].
  assert (is_ok r = true) as Hok.
  { transitivity (is_ok (sample_get (Some (Bounded (mkRange 1022 2050))) sample_pc).1);
      [by rewrite Er | by vm_compute]. }
  destruct r as [g | e]; [| discriminate Hok]. exists g, s1. split; [reflexivity |].
  destruct Hr as (_ & Hres & _). rewrite sample_size in Hres. exact Hres.
Defined.

Lemma cached_get_available_witness :
  exists g s1, sample_get (Some (Suffix 5000)) sample_pc = (Ok g, s1)
    /\ forall s2, pc_ok (LC := MemStore.disk) 1024 s2 ->
         exists s3, drain (gr_payload g) s2 = (Ok (slice MemStore.payload (gr_range g)), s3).
Proof.
  apply (cached_get_available (UP := MemStore.up) (LC := MemStore.disk) 1024 [x70]
    (Sample_options (Some (Suffix 5000))) sample_pc (proj1 sample_fits) (proj2 sample_fits)).
  - cbn. lia.
  - exact sample_pc_ok.
  - exact MemStore.always_reliable.
  - reflexivity.
  - reflexivity.
  - discriminate.
  - rewrite sample_size. intros (x & [= <-] & Hx & _). vm_compute in Hx. discriminate Hx.
Defined.

Lemma cold_suffix_panics_witness :
  (sample_get (Some (Suffix 10)) sample_pc).1 = Err PcPanicked.
Proof.
  refine (proj2 (cold_suffix_panics (UP := MemStore.up) (LC := MemStore.disk) 1024 [x70] 10 sample_pc
    (MemStore.mkDisk ∅ ∅) _ 1%nat (proj1 sample_fits) _ _ _ eq_refl eq_refl _)).
  - lia.
  - lia.
  - rewrite sample_size. exists 10. split; [reflexivity |]. split; [by vm_compute | by vm_compute].
  - cbn. unfold MemStore.get. cbn [go_range]. rewrite sample_size. reflexivity.
Defined.

Lemma cached_writes_keep_witness :
  pc_ok (LC := MemStore.disk) 1024 sample_pc
  /\ forall r s1, cached_put_opts (UP := MemStore.up) (LC := MemStore.disk) 1024 true [x70]
       [MemStore.payload] {[ContentType := [x78]]} sample_pc = (r, s1) ->
     pc_ok (LC := MemStore.disk) 1024 s1.
Proof.
  split; [exact sample_pc_ok |]. intros r s1 Hr.
  refine (proj1 (proj1 (cached_writes_keep (UP := MemStore.up) (LC := MemStore.disk) 1024 sample_pc
    (proj1 sample_fits) sample_pc_ok) true [x70] [MemStore.payload] _ r s1 _ eq_refl Hr)).
  apply app_nil_r.
Defined.
