(* ===== verification/FsCache.v ===== *)
(** * Part files on local disk

    [src/storage/part_cache/storage_fs.rs], the entries, and [storage.rs],
    the heads they keep.  Every part of an object is a file of its own, written
    under a temporary name and renamed into place; open files are kept in a
    cache of handles.  The evictor's bookkeeping is in Evictor.v; here it is
    met as a task that removes files.

    Calls run on a thread pool: between two system calls of one call, other
    tasks may remove cache files, drop handles, and rename finished files into
    place.  [fc_sched] lists, per system call to come, what others do before it
    and whether it fails; the component is proved correct for every schedule
    whose writers write what they should. *)

From S2P Require Import Prelude Bytes PartCache.
From stdpp Require Import gmap strings.
From Stdlib Require Import Lia.
#[local] Open Scope Z_scope.

(** ** The libraries used *)

(** Object store paths as text; timestamps as text; the JSON of a head. *)
Record LocalCacheHead : Type := mkLocalCacheHead {
  lch_location : bytes;
  lch_last_modified : bytes;
  lch_size : Z;
  lch_e_tag : option bytes;
  lch_version : option bytes;
  lch_attributes : gmap bytes bytes
}.

Class CacheText (OT : ObjectStoreTypes) : Type := {
  opath_to_string : OPath -> bytes;
  opath_from : bytes -> OPath;
  opath_round : forall p, opath_from (opath_to_string p) = p;
  opath_relative : forall p, head (opath_to_string p) <> Some x2f;
  to_rfc3339 : DateTime -> bytes;
  parse_datetime : bytes -> option DateTime;
  json_to_vec : LocalCacheHead -> option bytes;
  json_from_str : bytes -> option LocalCacheHead;
  json_round : forall h b, json_to_vec h = Some b -> utf8_valid b = true /\ json_from_str b = Some h
}.

(** [lru::LruCache], as the entries it holds. *)
Class LruLib (Key V : Type) `{Countable Key} : Type := {
  Lru : Type;
  lru_entries : Lru -> gmap Key V;
  lru_new : Lru;
  lru_get : Key -> Lru -> option V * Lru;
  lru_pop : Key -> Lru -> Lru;
  lru_push : Key -> V -> Lru -> Lru;
  lru_new_spec : lru_entries lru_new = ∅;
  lru_get_spec : forall k l, (lru_get k l).1 = lru_entries l !! k /\ lru_entries (lru_get k l).2 = lru_entries l;
  lru_pop_spec : forall k l, lru_entries (lru_pop k l) = delete k (lru_entries l);
  lru_push_spec : forall k v l, lru_entries (lru_push k v l) ⊆ <[k := v]> (lru_entries l)
}.

(** ** Heads *)

Section heads.
Context {OT : ObjectStoreTypes} {CT : CacheText OT}.

Definition CACHE_CONTROL : bytes := bs "Cache-Control".
Definition CONTENT_DISPOSITION : bytes := bs "Content-Disposition".
Definition CONTENT_ENCODING : bytes := bs "Content-Encoding".
Definition CONTENT_LANGUAGE : bytes := bs "Content-Language".
Definition CONTENT_TYPE : bytes := bs "Content-Type".

(** The names attributes are saved under; the others are left out. *)
Definition attribute_name (a : Attribute) : option bytes :=
  match a with
  | CacheControl => Some CACHE_CONTROL
  | ContentDisposition => Some CONTENT_DISPOSITION
  | ContentEncoding => Some CONTENT_ENCODING
  | ContentLanguage => Some CONTENT_LANGUAGE
  | ContentType => Some CONTENT_TYPE
  | Metadata key => Some key
  | OtherAttribute _ => None
  end.

Definition attribute_named (name : bytes) : Attribute :=
  if decide (name = CACHE_CONTROL) then CacheControl
  else if decide (name = CONTENT_DISPOSITION) then ContentDisposition
  else if decide (name = CONTENT_ENCODING) then ContentEncoding
  else if decide (name = CONTENT_LANGUAGE) then ContentLanguage
  else if decide (name = CONTENT_TYPE) then ContentType
  else Metadata name.

(** [From<(&ObjectMeta, &Attributes)>]: the insertions, in the map's order. *)
Definition head_from (h : ObjectMeta * Attributes) : LocalCacheHead :=
  let '(meta, attrs) := h in
  mkLocalCacheHead (opath_to_string (om_location meta)) (to_rfc3339 (om_last_modified meta)) (om_size meta)
    (om_e_tag meta) (om_version meta)
    (foldl (fun m kv => match attribute_name kv.1 with Some name => <[name := kv.2]> m | None => m end)
       ∅ (map_to_list attrs)).

(** [LocalCacheHead::meta] and [LocalCacheHead::attributes]. *)
Definition head_meta (h : LocalCacheHead) : ObjectMeta :=
  mkObjectMeta (opath_from (lch_location h)) (default epoch (parse_datetime (lch_last_modified h)))
    (lch_size h) (lch_e_tag h) (lch_version h).

Definition head_attributes (h : LocalCacheHead) : Attributes :=
  foldl (fun attrs kv => <[attribute_named kv.1 := kv.2]> attrs) ∅ (map_to_list (lch_attributes h)).

(** Attributes a head can hold: those with a name, no metadata key being one
    of the five names. *)
Definition plain_attribute (a : Attribute) : Prop :=
  match attribute_name a with Some name => attribute_named name = a | None => False end.

Definition all_plain (attrs : Attributes) : Prop := forall a v, attrs !! a = Some v -> plain_attribute a.

End heads.

(** ** The file system *)

(** A file's path: its folder and its name.  [fs_dir] links paths to inodes,
    [fs_inodes] are the contents of the inodes there ever were, and the data of
    the inodes in [fs_unsynced] may not have reached the disk.  Directory
    entries are taken to be on the disk when the call that changes them
    returns. *)
Abbreviation FilePath := (bytes * bytes)%type.

Record Fs : Type := mkFs {
  fs_dir : gmap FilePath nat;
  fs_inodes : list bytes;
  fs_unsynced : gset nat
}.

(** What [std::io::Error::kind] tells of an error. *)
Inductive IoErrorKind : Type := IoNotFound | IoUnexpectedEof | IoInvalidData | IoOther.

#[export] Instance io_error_kind_eq_dec : EqDecision IoErrorKind.
Proof. solve_decision. Defined.

(** What another task does between two system calls of this one: the evictor
    removes a file and forgets its handle, a handle falls out of the cache, or
    a finished file of [data] is renamed to [path]. *)
Inductive Other : Type :=
  | ORemove (path : FilePath)
  | OForget (path : FilePath)
  | OFinish (path : FilePath) (data : bytes).

(** Before a system call: what the others do; and whether the call fails,
    having written [n] bytes if it is a write. *)
Record Tick : Type := mkTick { tk_others : list Other; tk_fault : option nat }.

(** [EntryAccess] and the evictor's queue as a client sees it: what has been
    sent, and for each send to come whether it is accepted. *)
Inductive EntryAccess : Type :=
  | AccessRead (n : Z)
  | AccessWrite (n : Z)
  | AccessDelete.

Section fs_cache.
Context {OT : ObjectStoreTypes} {CT : CacheText OT} {LL : LruLib FilePath nat}.

Record FC : Type := mkFC {
  fc_fs : Fs;
  fc_handles : Lru;
  fc_sched : list Tick;
  fc_accept : list bool;
  fc_sent : list (FilePath * EntryAccess);
  fc_rand : list bytes
}.

Definition set_fs (fs : Fs) (s : FC) : FC :=
  mkFC fs (fc_handles s) (fc_sched s) (fc_accept s) (fc_sent s) (fc_rand s).
Definition set_handles (l : Lru) (s : FC) : FC :=
  mkFC (fc_fs s) l (fc_sched s) (fc_accept s) (fc_sent s) (fc_rand s).
Definition set_sched (sched : list Tick) (s : FC) : FC :=
  mkFC (fc_fs s) (fc_handles s) sched (fc_accept s) (fc_sent s) (fc_rand s).
Definition set_sent (accept : list bool) (sent : list (FilePath * EntryAccess)) (s : FC) : FC :=
  mkFC (fc_fs s) (fc_handles s) (fc_sched s) accept sent (fc_rand s).

Definition set_dir (dir : gmap FilePath nat) (fs : Fs) : Fs := mkFs dir (fs_inodes fs) (fs_unsynced fs).

(** A new inode linked at [path], its data on the disk; the inode that was there
    loses its link. *)
Definition link_new (path : FilePath) (data : bytes) (fs : Fs) : Fs :=
  mkFs (<[path := length (fs_inodes fs)]> (fs_dir fs)) (fs_inodes fs ++ [data])
    (fs_unsynced fs ∖ {[length (fs_inodes fs)]}).

(** Data written and not synced; data synced. *)
Definition unsync (i : nat) (fs : Fs) : Fs := mkFs (fs_dir fs) (fs_inodes fs) ({[i]} ∪ fs_unsynced fs).
Definition sync (i : nat) (fs : Fs) : Fs := mkFs (fs_dir fs) (fs_inodes fs) (fs_unsynced fs ∖ {[i]}).

(** The machine goes down and the process starts again: of the inodes whose
    data was not synced, [lost] is what the disk holds; no handle is open. *)
Definition power_loss (lost : nat -> bytes) (s : FC) : FC :=
  set_handles lru_new
    (set_fs (mkFs (fs_dir (fc_fs s))
               (imap (fun i data => if decide (i ∈ fs_unsynced (fc_fs s)) then lost i else data) (fs_inodes (fc_fs s))) ∅) s).

Definition other_step (o : Other) (s : FC) : FC :=
  match o with
  | ORemove path =>
      set_handles (lru_pop path (fc_handles s))
        (set_fs (set_dir (delete path (fs_dir (fc_fs s))) (fc_fs s)) s)
  | OForget path => set_handles (lru_pop path (fc_handles s)) s
  | OFinish path data => set_fs (link_new path data (fc_fs s)) s
  end.

(** A system call: others go first, then it fails or does its work. *)
Definition syscall {A} (fail : nat -> FC -> FC) (m : FC -> result IoErrorKind A * FC) : SE FC IoErrorKind A := fun s =>
  match fc_sched s with
  | [] => m s
  | t :: sched =>
      let s := foldl (fun s o => other_step o s) (set_sched sched s) (tk_others t) in
      match tk_fault t with
      | Some n => (Err IoOther, fail n s)
      | None => m s
      end
  end.

Definition unharmed (n : nat) (s : FC) : FC := s.

(** [File::open] for reading. *)
Definition file_open (path : FilePath) : SE FC IoErrorKind nat :=
  syscall unharmed (fun s => (ok_or (fs_dir (fc_fs s) !! path) IoNotFound, s)).

(** [metadata().nlink()] and [metadata().len()]. *)
Definition nlink (i : nat) (fs : Fs) : nat := size (filter (fun pi : FilePath * nat => pi.2 = i) (fs_dir fs)).

Definition file_nlink (i : nat) : SE FC IoErrorKind nat :=
  syscall unharmed (fun s => (Ok (nlink i (fc_fs s)), s)).

Definition inode (i : nat) (fs : Fs) : bytes := default [] (fs_inodes fs !! i).

Definition file_len (i : nat) : SE FC IoErrorKind Z :=
  syscall unharmed (fun s => (Ok (Z.of_nat (length (inode i (fc_fs s)))), s)).

(** [read_exact_at_offset]. *)
Definition read_exact_at_offset (i : nat) (len offset : Z) : SE FC IoErrorKind bytes :=
  syscall unharmed (fun s =>
    (ok_or (slice_opt (inode i (fc_fs s)) (mkRange offset (offset + len))) IoUnexpectedEof, s)).

Definition create_dir_all (folder : bytes) : SE FC IoErrorKind unit := syscall unharmed (fun s => (Ok tt, s)).

Definition set_inode (i : nat) (data : bytes) (s : FC) : FC :=
  set_fs (unsync i (mkFs (fs_dir (fc_fs s)) (<[i := data]> (fs_inodes (fc_fs s))) (fs_unsynced (fc_fs s)))) s.

(** [OpenOptions::new().write(true).create(true).truncate(true).open(path)]. *)
Definition open_truncate (path : FilePath) : SE FC IoErrorKind nat :=
  syscall unharmed (fun s =>
    match fs_dir (fc_fs s) !! path with
    | Some i => (Ok i, set_inode i [] s)
    | None =>
        (Ok (length (fs_inodes (fc_fs s))),
         set_fs (unsync (length (fs_inodes (fc_fs s))) (link_new path [] (fc_fs s))) s)
    end).

(** [write_all] from the start of an empty file. *)
Definition write_all (i : nat) (buf : bytes) : SE FC IoErrorKind unit :=
  syscall (fun n => set_inode i (take n buf)) (fun s => (Ok tt, set_inode i buf s)).

(** [sync_all]: the file's data reaches the disk. *)
Definition sync_all (i : nat) : SE FC IoErrorKind unit :=
  syscall unharmed (fun s => (Ok tt, set_fs (sync i (fc_fs s)) s)).

Definition rename (from to : FilePath) : SE FC IoErrorKind unit :=
  syscall unharmed (fun s =>
    match fs_dir (fc_fs s) !! from with
    | None => (Err IoNotFound, s)
    | Some i => (Ok tt, set_fs (set_dir (<[to := i]> (delete from (fs_dir (fc_fs s)))) (fc_fs s)) s)
    end).

Definition remove_file (path : FilePath) : SE FC IoErrorKind unit :=
  syscall unharmed (fun s =>
    match fs_dir (fc_fs s) !! path with
    | None => (Err IoNotFound, s)
    | Some _ => (Ok tt, set_fs (set_dir (delete path (fs_dir (fc_fs s))) (fc_fs s)) s)
    end).

Definition read_dir (folder : bytes) : SE FC IoErrorKind (list FilePath) :=
  syscall unharmed (fun s => (Ok (filter (fun p => p.1 = folder) (map_to_list (fs_dir (fc_fs s))).*1), s)).

Definition remove_dir (folder : bytes) : SE FC IoErrorKind unit := syscall unharmed (fun s => (Ok tt, s)).

(** ** The cache of handles *)

Definition cache_get (path : FilePath) : SE FC IoErrorKind (option nat) := fun s =>
  let '(r, l) := lru_get path (fc_handles s) in (Ok r, set_handles l s).
Definition cache_pop (path : FilePath) : SE FC IoErrorKind unit := fun s =>
  (Ok tt, set_handles (lru_pop path (fc_handles s)) s).
Definition cache_push (path : FilePath) (i : nat) : SE FC IoErrorKind unit := fun s =>
  (Ok tt, set_handles (lru_push path i (fc_handles s)) s).

(** [is_valid]: a handle whose file is still linked somewhere. *)
Definition is_valid (i : nat) : SE FC IoErrorKind bool := fun s =>
  let '(r, s) := file_nlink i s in
  (Ok match r with Ok n => (0 <? n)%nat | Err _ => false end, s).

Definition open_and_cache (path : FilePath) : SE FC IoErrorKind (option nat) := fun s =>
  match file_open path s with
  | (Err IoNotFound, s) => (Ok None, s)
  | (Err e, s) => (Err e, s)
  | (Ok i, s) => (do! _ <- cache_push path i; se_ret (Some i)) s
  end.

Definition get_or_open (path : FilePath) : SE FC IoErrorKind (option nat) :=
  do! h <- cache_get path;
  match h with
  | Some i =>
      do! valid <- is_valid i;
      if valid then se_ret (Some i)
      else do! _ <- cache_pop path; open_and_cache path
  | None => open_and_cache path
  end.

(** [invalidate]. *)
Definition invalidate (path : FilePath) : SE FC IoErrorKind unit := cache_pop path.

(** ** Entries *)

Context (root_folder : bytes) (has_evictor : bool).

(** [Path::join]. *)
Definition join (root rest : bytes) : bytes :=
  if decide (head rest = Some x2f) then rest
  else if decide (last root = Some x2f) then root ++ rest else root ++ [x2f] ++ rest.

(** [with_extension] of a name: what follows the last dot is replaced. *)
Fixpoint last_dot (name : bytes) : option nat :=
  match name with
  | [] => None
  | b :: rest => match last_dot rest with
                 | Some n => Some (S n)
                 | None => if decide (b = x2e) then Some 0%nat else None
                 end
  end.

Definition with_extension (name ext : bytes) : bytes :=
  let stem := match last_dot name with
              | Some (S n) => take (S n) name
              | _ => name
              end in
  stem ++ [x2e] ++ ext.

Definition make_part_path (location : OPath) (part_number part_size : Z) : FilePath :=
  let part_size_name :=
    if is_multiple_of part_size (1024 * 1024) then dec (part_size / (1024 * 1024)) ++ bs "mb"
    else dec (part_size / 1024) ++ bs "kb" in
  (join root_folder (opath_to_string location),
   bs "_part" ++ part_size_name ++ bs "-" ++ dec_padded 9 part_number).

Definition make_head_path (location : OPath) : FilePath :=
  (join root_folder (opath_to_string location), bs "_head").

(** [FsCacheEvictor::track_entry_accessed], as its callers see it: whether the
    work was taken. *)
Definition track (path : FilePath) (access : EntryAccess) : SE FC IoErrorKind bool := fun s =>
  if has_evictor then
    match fc_accept s with
    | false :: rest => (Ok false, set_sent rest (fc_sent s) s)
    | rest => (Ok true, set_sent (tail rest) ((path, access) :: fc_sent s) s)
    end
  else (Ok true, s).

(** [make_rand_suffix]: drawn from [fc_rand]. *)
Definition make_rand_suffix : SE FC IoErrorKind bytes := fun s =>
  (Ok (default [] (head (fc_rand s))),
   mkFC (fc_fs s) (fc_handles s) (fc_sched s) (fc_accept s) (fc_sent s) (tail (fc_rand s))).

Definition tmp_path_of (path : FilePath) (suffix : bytes) : FilePath :=
  (path.1, with_extension path.2 (bs "_tmp" ++ suffix)).

Definition atomic_write (path : FilePath) (buf : bytes) : SE FC IoErrorKind unit :=
  do! suffix <- make_rand_suffix;
  let tmp_path := tmp_path_of path suffix in
  do! accepted <- track path (AccessWrite (Z.of_nat (length buf)));
  if negb accepted then se_ret tt
  else
    do! _ <- create_dir_all tmp_path.1;
    do! file <- open_truncate tmp_path;
    do! _ <- write_all file buf;
    do! _ <- sync_all file;
    do! _ <- rename tmp_path path;
    invalidate path.

Definition save_part (location : OPath) (part_size part_number : Z) (buf : bytes) :
    SE FC IoErrorKind unit :=
  atomic_write (make_part_path location part_number part_size) buf.

Definition fs_read_part (location : OPath) (part_size part_number : Z) (range_in_part : URange) :
    SE FC IoErrorKind (option bytes) :=
  let part_path := make_part_path location part_number part_size in
  do! file <- get_or_open part_path;
  match file with
  | None => se_ret None
  | Some i =>
      do! buffer <- read_exact_at_offset i (rg_end range_in_part - rg_start range_in_part) (rg_start range_in_part);
      do! _ <- track part_path (AccessRead part_size);
      se_ret (Some buffer)
  end.

Definition read_head (location : OPath) : SE FC IoErrorKind (option (ObjectMeta * Attributes)) :=
  let head_path := make_head_path location in
  do! file <- get_or_open head_path;
  match file with
  | None => se_ret None
  | Some i =>
      do! head_size_bytes <- file_len i;
      do! buffer <- read_exact_at_offset i head_size_bytes 0;
      do! content <- se_lift (ok_or (from_utf8 buffer) IoInvalidData);
      do! head <- se_lift (ok_or (json_from_str content) IoOther);
      do! _ <- track head_path (AccessRead head_size_bytes);
      se_ret (Some (head_meta head, head_attributes head))
  end.

Definition save_head (location : OPath) (h : ObjectMeta * Attributes) : SE FC IoErrorKind unit := fun s =>
  match read_head location s with
  | (Ok (Some _), s) => (Ok tt, s)
  | (_, s) =>
      (do! buf <- se_lift (ok_or (json_to_vec (head_from h)) IoOther);
       atomic_write (make_head_path location) buf) s
  end.

(** [delete_cache_entry]: the files of a folder, those that could be removed
    or were gone listed, and the folder. *)
Fixpoint delete_files (paths : list FilePath) : SE FC IoErrorKind (list FilePath) := fun s =>
  match paths with
  | [] => (Ok [], s)
  | p :: rest =>
      let '(r, s) := remove_file p s in
      (do! _ <- invalidate p;
       do! deleted <- delete_files rest;
       se_ret match r with
              | Ok _ | Err IoNotFound => p :: deleted
              | Err _ => deleted
              end) s
  end.

Definition delete_cache_entry (folder : bytes) : SE FC IoErrorKind (list FilePath) := fun s =>
  match read_dir folder s with
  | (Ok paths, s) =>
      (do! deleted <- delete_files paths;
       fun s => let '(_, s) := remove_dir folder s in (Ok deleted, s)) s
  | (Err _, s) => (Ok [], s)
  end.

Definition delete_entry (location : OPath) : SE FC IoErrorKind unit :=
  let path := (make_head_path location).1 in
  if has_evictor then do! _ <- track (path, []) AccessDelete; se_ret tt
  else do! _ <- delete_cache_entry path; se_ret tt.

End fs_cache.

(** ** Names *)

Section names.
Context {OT : ObjectStoreTypes} {CT : CacheText OT} (root_folder : bytes).

(** Names of cache files hold no dot; temporary names do. *)
Definition dotless (p : FilePath) : Prop := x2e ∉ p.2.

(** A literal is dotless by computation. *)
Definition has_dot (l : bytes) : bool := existsb (Byte.eqb x2e) l.

Lemma literal_dotless l : has_dot l = false -> x2e ∉ l.
Proof.
  intros Hl Hin. assert (has_dot l = true) as Ht; [| by rewrite Ht in Hl].
  apply existsb_exists. exists x2e. split; [by apply list_elem_of_In | by apply Byte.byte_dec_lb].
Qed.

Lemma digits_dotless l : Forall (fun b => 48 <= u8 b <= 57) l -> x2e ∉ l.
Proof. intros Hl Hin. apply Forall_forall with (x := x2e) in Hl; [cbn in Hl; lia | done]. Qed.

Lemma part_dotless loc n size : dotless (make_part_path root_folder loc n size).
Proof.
  unfold dotless, make_part_path. cbn [snd]. rewrite !not_elem_of_app. repeat split.
  - by apply literal_dotless.
  - case_match; rewrite not_elem_of_app; (split; [| by apply literal_dotless]);
      by apply digits_dotless, dec_digits_digits.
  - by apply literal_dotless.
  - apply digits_dotless, dec_padded_digits.
Qed.

Lemma head_dotless loc : dotless (make_head_path root_folder loc).
Proof. by apply (literal_dotless (bs "_head")). Qed.

Lemma tmp_dotted path suffix : ~ dotless (tmp_path_of path suffix).
Proof. unfold dotless, tmp_path_of, with_extension. cbn [snd]. intros Hn. apply Hn. set_solver. Qed.

Lemma join_inj loc loc' :
  join root_folder (opath_to_string loc) = join root_folder (opath_to_string loc') -> loc = loc'.
Proof.
  unfold join. rewrite (decide_False (P := head (opath_to_string loc) = _)) by apply opath_relative.
  rewrite (decide_False (P := head (opath_to_string loc') = _)) by apply opath_relative.
  assert (opath_to_string loc = opath_to_string loc' -> loc = loc') as Hinj.
  { intros E1. by rewrite <- (opath_round loc), E1, opath_round. }
  case_decide; intros E1; apply Hinj; [by apply app_inv_head in E1 |].
  apply app_inv_head in E1. by injection E1.
Qed.

(** A part's file tells its object and its number. *)
Lemma part_path_inj loc loc' n n' size :
  0 <= n -> 0 <= n' -> make_part_path root_folder loc n size = make_part_path root_folder loc' n' size ->
  loc = loc' /\ n = n'.
Proof.
  intros Hn Hn'. unfold make_part_path. intros [= Hd Hp]. split; [by apply join_inj |].
  apply app_inv_head in Hp. injection Hp as Hp. by rewrite <- (undec_padded 9 n), Hp, undec_padded by done.
Qed.

Lemma head_path_inj loc loc' : make_head_path root_folder loc = make_head_path root_folder loc' -> loc = loc'.
Proof. intros [= Hd]. by apply join_inj. Qed.

Lemma part_not_head loc loc' n size : make_part_path root_folder loc n size <> make_head_path root_folder loc'.
Proof. unfold make_part_path, make_head_path. intros [= _ Hp]. Qed.

End names.

(** ** What a head keeps *)

Section head_round.
Context {OT : ObjectStoreTypes} {CT : CacheText OT}.

(** The entries of a map built by insertions. *)
Lemma foldl_insert_from `{Countable A} `{Countable B} {V} (f : A -> option B) (l : list (A * V)) (m : gmap B V) k v :
  foldl (fun m kv => match f kv.1 with Some b => <[b := kv.2]> m | None => m end) m l !! k = Some v ->
  m !! k = Some v \/ exists a, (a, v) ∈ l /\ f a = Some k.
Proof.
  revert m. induction l as [| [a w] l IH]; intros m; cbn [foldl]; [by left |].
  intros [Hm | (a' & Ha & Hf)]%IH; [| right; exists a'; split; [by right | done]]. cbn in Hm.
  destruct (f a) as [b |] eqn:Ef; [| by left]. apply lookup_insert_Some in Hm as [[<- <-] | [_ Hm]]; [| by left].
  right. exists a. split; [by left | done].
Qed.

Lemma foldl_insert_skip `{Countable A} `{Countable B} {V} (f : A -> option B) (l : list (A * V)) (m : gmap B V) b :
  (forall a v, (a, v) ∈ l -> f a <> Some b) ->
  foldl (fun m kv => match f kv.1 with Some b => <[b := kv.2]> m | None => m end) m l !! b = m !! b.
Proof.
  revert m. induction l as [| [a v] l IH]; intros m Hn; cbn [foldl]; [done |]. rewrite IH.
  - cbn. destruct (f a) as [b' |] eqn:E1; [| done]. rewrite lookup_insert_ne; [done |].
    intros ->. apply (Hn a v); [by left | done].
  - intros a1 v1 H1. apply (Hn a1 v1). by right.
Qed.

Lemma foldl_insert_into `{Countable A} `{Countable B} {V} (f : A -> option B) (l : list (A * V)) (m : gmap B V) a v b :
  (forall a' v', (a', v') ∈ l -> f a' = Some b -> a' = a) -> NoDup l.*1 ->
  (a, v) ∈ l -> f a = Some b ->
  foldl (fun m kv => match f kv.1 with Some b => <[b := kv.2]> m | None => m end) m l !! b = Some v.
Proof.
  intros Hinj Hnd Hin Hf. revert m.
  induction l as [| [a0 v0] l IH]; intros m; [by apply elem_of_nil in Hin |]. cbn [foldl].
  apply NoDup_cons in Hnd as [Hn0 Hnd]. apply elem_of_cons in Hin as [[= <- <-] | Hin].
  - rewrite foldl_insert_skip; [cbn; rewrite Hf; apply lookup_insert_eq |]. intros a' v' Hl Hfa'.
    assert (a' = a) as -> by (eapply Hinj; [by right | done]). apply Hn0. by apply list_elem_of_fmap_2' with (a, v').
  - apply IH; [| done | done]. intros a' v' Hl. apply Hinj with v'. by right.
Qed.

Lemma named_name name : attribute_name (attribute_named name) = Some name.
Proof. unfold attribute_named. repeat case_decide; by subst. Qed.

(** A head brings attributes back exactly when they are plain. *)
Lemma attributes_round m attrs : all_plain attrs -> head_attributes (head_from (m, attrs)) = attrs.
Proof.
  intros Hp. apply map_eq. intros a. apply option_eq. intros v. unfold head_attributes, head_from. cbn [lch_attributes].
  set (names := foldl _ _ (map_to_list attrs)).
  assert (forall name v, names !! name = Some v <-> exists a, attrs !! a = Some v /\ attribute_name a = Some name) as Hn.
  { intros name w. split.
    - intros Hl. apply (foldl_insert_from attribute_name) in Hl as [Hl | (a' & Ha & Hf)]; [done |].
      exists a'. split; [by apply elem_of_map_to_list | done].
    - intros (a' & Ha & Hf). apply (foldl_insert_into attribute_name _ _ a'); [| apply NoDup_fst_map_to_list | by apply elem_of_map_to_list | done].
      intros a'' w' Hl%elem_of_map_to_list Hf'. pose proof (Hp _ _ Hl) as H1. pose proof (Hp _ _ Ha) as H2.
      unfold plain_attribute in H1, H2. rewrite Hf' in H1. rewrite Hf in H2. congruence. }
  set (back := fun name => Some (attribute_named name)).
  change (foldl (fun m kv => match back kv.1 with Some b => <[b := kv.2]> m | None => m end) (∅ : Attributes) (map_to_list names) !! a
    = Some v <-> attrs !! a = Some v). split.
  - intros Hl. apply (foldl_insert_from back) in Hl as [Hl | (name & Hin & [= <-])]; [done |].
    apply elem_of_map_to_list, Hn in Hin as (a' & Ha & Hf). pose proof (Hp _ _ Ha) as H1.
    unfold plain_attribute in H1. rewrite Hf in H1. by rewrite H1.
  - intros Ha. pose proof (Hp _ _ Ha) as H1. unfold plain_attribute in H1.
    destruct (attribute_name a) as [name |] eqn:Ef; [| done].
    apply (foldl_insert_into back _ _ name); [| apply NoDup_fst_map_to_list | | unfold back; by f_equal].
    + intros name' w _ [= E1]. pose proof (named_name name') as E2. rewrite E1 in E2. congruence.
    + apply elem_of_map_to_list, Hn. by exists a.
Qed.

Lemma round_plain m attrs : head_attributes (head_from (m, attrs)) = attrs -> all_plain attrs.
Proof.
  intros E1 a v Ha. rewrite <- E1 in Ha. unfold head_attributes in Ha.
  set (back := fun name => Some (attribute_named name)).
  change (foldl (fun m kv => match back kv.1 with Some b => <[b := kv.2]> m | None => m end) (∅ : Attributes)
    (map_to_list (lch_attributes (head_from (m, attrs)))) !! a = Some v) in Ha.
  apply (foldl_insert_from back) in Ha as [Ha | (name & _ & [= <-])]; [done |].
  unfold plain_attribute. by rewrite named_name.
Qed.

Lemma head_ok_round truth loc h : all_plain h.2 -> head_ok truth loc h ->
  head_ok truth loc (head_meta (head_from h), head_attributes (head_from h)).
Proof.
  destruct h as [m attrs]. intros Hp Hh. rewrite attributes_round by done.
  destruct Hh as (H1 & H2 & H3 & H4 & H5). unfold head_meta, head_from. cbn. by rewrite opath_round.
Qed.

End head_round.

(** ** What the disk holds *)

Section invariant.
Context {OT : ObjectStoreTypes} {CT : CacheText OT} {LL : LruLib FilePath nat}.
Context {truth : OPath -> Object} (root_folder : bytes) (has_evictor : bool) (P : Z).

(** What a file may hold: the bytes of the part it is named for, or a head
    that tells the truth if it can be read at all. *)
Definition right (path : FilePath) (data : bytes) : Prop :=
  (forall loc id, 0 <= id -> path = make_part_path root_folder loc id P -> data = part P (truth loc) id)
  /\ (forall loc content h, path = make_head_path root_folder loc -> from_utf8 data = Some content ->
        json_from_str content = Some h -> head_ok truth loc (head_meta h, head_attributes h)).

Definition other_ok (o : Other) : Prop :=
  match o with OFinish path data => dotless path /\ right path data | _ => True end.

Definition tick_ok (t : Tick) : Prop := Forall other_ok (tk_others t).

(** Every linked file holds what it may; no inode has two links; a handle kept
    for a path is of the file that is there, or of one that was and is no longer
    anywhere; and the data of the files without temporary names has reached the
    disk. *)
Record fc_ok (s : FC) : Prop := mkFcOk {
  fo_dir : forall p i, fs_dir (fc_fs s) !! p = Some i ->
    (i < length (fs_inodes (fc_fs s)))%nat /\ right p (inode i (fc_fs s));
  fo_inj : forall p q i, fs_dir (fc_fs s) !! p = Some i -> fs_dir (fc_fs s) !! q = Some i -> p = q;
  fo_handles : forall p i, lru_entries (fc_handles s) !! p = Some i ->
    (i < length (fs_inodes (fc_fs s)))%nat /\ dotless p /\ right p (inode i (fc_fs s))
    /\ (fs_dir (fc_fs s) !! p = Some i \/ forall q, fs_dir (fc_fs s) !! q <> Some i);
  fo_sched : Forall tick_ok (fc_sched s);
  fo_synced : forall p i, dotless p -> fs_dir (fc_fs s) !! p = Some i -> i ∉ fs_unsynced (fc_fs s)
}.

Lemma right_dotted path data : ~ dotless path -> right path data.
Proof.
  intros Hd. split; [intros loc id _ -> | intros loc content h ->]; destruct Hd; [apply part_dotless | apply head_dotless].
Qed.

(** Losing links and handles is harmless. *)
Lemma fc_ok_shrink s s' :
  fs_inodes (fc_fs s') = fs_inodes (fc_fs s) -> fs_unsynced (fc_fs s') = fs_unsynced (fc_fs s) -> fs_dir (fc_fs s') ⊆ fs_dir (fc_fs s) ->
  lru_entries (fc_handles s') ⊆ lru_entries (fc_handles s) ->
  (forall p i, fs_dir (fc_fs s) !! p = Some i -> lru_entries (fc_handles s') !! p = Some i ->
     fs_dir (fc_fs s') !! p = Some i \/ forall q, fs_dir (fc_fs s') !! q <> Some i) ->
  Forall tick_ok (fc_sched s') -> fc_ok s -> fc_ok s'.
Proof.
  intros Ei Eu Hd Hh Hl Hs [F1 F2 F3 F4 F5].
  assert (forall i, inode i (fc_fs s') = inode i (fc_fs s)) as Hin by (intros i; unfold inode; by rewrite Ei).
  assert (forall p i, fs_dir (fc_fs s') !! p = Some i -> fs_dir (fc_fs s) !! p = Some i) as Hsub
    by (intros p i Hp; by eapply lookup_weaken).
  constructor; rewrite ?Ei, ?Eu; [| | | done |].
  - intros p i Hp. rewrite Hin. by apply F1, Hsub.
  - intros p q i Hp Hq. eapply F2; by apply Hsub.
  - intros p i Hp. destruct (F3 p i (lookup_weaken _ _ _ _ Hp Hh)) as (H1 & H2 & H3 & H4). rewrite Hin.
    split; [done |]. split; [done |]. split; [done |]. destruct H4 as [H4 | H4]; [by apply Hl |].
    right. intros q Hq. by apply (H4 q), Hsub.
  - intros p i Hp Hi. by eapply F5, Hsub.
Qed.

Lemma fc_ok_same s s' :
  fc_fs s' = fc_fs s -> fc_handles s' = fc_handles s -> Forall tick_ok (fc_sched s') -> fc_ok s -> fc_ok s'.
Proof. intros E1 E2 Hs [F1 F2 F3 F4 F5]. constructor; rewrite ?E1, ?E2; done. Qed.

Lemma inode_app i fs data dir u : (i < length (fs_inodes fs))%nat -> inode i (mkFs dir (fs_inodes fs ++ [data]) u) = inode i fs.
Proof. intros Hi. unfold inode. cbn. by rewrite lookup_app_l. Qed.

Lemma inode_new fs data dir u : inode (length (fs_inodes fs)) (mkFs dir (fs_inodes fs ++ [data]) u) = data.
Proof. unfold inode. cbn. by rewrite lookup_app_r, Nat.sub_diag by done. Qed.

(** A new file of its own inode. *)
Lemma fc_ok_link s path data :
  fc_ok s -> right path data -> fc_ok (set_fs (link_new path data (fc_fs s)) s).
Proof.
  intros [F1 F2 F3 F4 F5] Hr. unfold link_new. constructor; cbn [fc_fs set_fs fs_dir fs_inodes fs_unsynced fc_handles fc_sched]; [| | | done |].
  - intros p i. rewrite length_app, lookup_insert_Some. cbn [length]. intros [[<- <-] | [_ Hp]].
    + rewrite inode_new. split; [lia | done].
    + destruct (F1 p i Hp) as [Hi Hri]. rewrite inode_app by done. split; [lia | done].
  - intros p q i. rewrite !lookup_insert_Some. intros [[<- <-] | [_ Hp]] [[<- E2] | [_ Hq]]; [done | | | by eapply F2].
    + apply F1 in Hq as [Hi _]. lia.
    + apply F1 in Hp as [Hi _]. lia.
  - intros p i Hp. destruct (F3 p i Hp) as (H1 & H2 & H3 & H4). rewrite length_app, inode_app by done. cbn [length].
    split; [lia |]. split; [done |]. split; [done |].
    destruct (decide (p = path)) as [-> | Hne].
    + right. intros q. rewrite lookup_insert_Some. intros [[_ E1] | [Hq Hi]]; [lia |].
      destruct H4 as [H4 | H4]; [| by apply (H4 q)]. apply Hq. by eapply F2.
    + destruct H4 as [H4 | H4]; [left; by rewrite lookup_insert_ne |]. right.
      intros q. rewrite lookup_insert_Some. intros [[_ E1] | [_ Hi]]; [lia | by apply (H4 q)].
  - intros p i Hd. rewrite lookup_insert_Some, elem_of_difference, elem_of_singleton.
    intros [[_ <-] | [_ Hp]] [Hu Hi]; [done | by eapply F5].
Qed.

Lemma fc_ok_other o s : other_ok o -> fc_ok s -> fc_ok (other_step o s).
Proof.
  intros Ho Hs. destruct o as [path | path | path data]; cbn [other_step].
  - eapply (fc_ok_shrink s); cbn; rewrite ?lru_pop_spec; [done | done | apply delete_subseteq | apply delete_subseteq | | apply Hs | done].
    intros p i Hp [Hne Hh]%lookup_delete_Some. left. by rewrite lookup_delete_ne.
  - eapply (fc_ok_shrink s); cbn; rewrite ?lru_pop_spec; [done | done | done | apply delete_subseteq | | apply Hs | done].
    intros p i Hp _. by left.
  - apply fc_ok_link; [done | by apply Ho].
Qed.

(** ** Calls, with others in between *)

(** A fact the others cannot break. *)
Definition stable (I : FC -> Prop) : Prop := forall o s, other_ok o -> fc_ok s -> I s -> I (other_step o s).

Definition hoare {A} (pre : FC -> Prop) (m : SE FC IoErrorKind A) (post : A -> FC -> Prop) : Prop :=
  forall s r s', fc_ok s -> pre s -> m s = (r, s') ->
    fc_ok s' /\ match r with Ok a => post a s' | Err _ => True end.

Definition always : FC -> Prop := fun _ => True.

(** A fact that does not depend on the schedule. *)
Definition timeless (I : FC -> Prop) : Prop := forall s sched, I s -> I (set_sched sched s).

Lemma hoare_syscall {A} (I : FC -> Prop) fail (m : FC -> result IoErrorKind A * FC) post :
  stable I -> timeless I ->
  (forall s, fc_ok s -> I s -> fc_ok (m s).2 /\ match (m s).1 with Ok a => post a (m s).2 | Err _ => True end) ->
  (forall n s, fc_ok s -> I s -> fc_ok (fail n s)) ->
  hoare I (syscall fail m) post.
Proof.
  intros Hst Htl Hm Hf s r s' Hs HI. unfold syscall. destruct (fc_sched s) as [| t sched] eqn:Es.
  { intros Er. pose proof (Hm s Hs HI) as H1. by rewrite Er in H1. }
  assert (Forall tick_ok (t :: sched)) as Hall by (rewrite <- Es; apply Hs). apply Forall_cons in Hall as [Ht Hall].
  assert (fc_ok (set_sched sched s) /\ I (set_sched sched s)) as [Hs1 HI1].
  { split; [by apply (fc_ok_same s) | by apply Htl]. }
  set (s1 := foldl _ _ _). assert (fc_ok s1 /\ I s1) as [Hs2 HI2].
  { unfold s1. unfold tick_ok in Ht. revert Hs1 HI1. generalize (set_sched sched s).
    induction Ht as [| o os Ho _ IH]; intros s0 H0 HI0; [done |]. cbn [foldl].
    apply IH; [by apply fc_ok_other | by apply Hst]. }
  destruct (tk_fault t) as [n |].
  - intros [= <- <-]. split; [by apply Hf | done].
  - intros Er. pose proof (Hm s1 Hs2 HI2) as H1. by rewrite Er in H1.
Qed.

Lemma hoare_bind {A B} pre (m : SE FC IoErrorKind A) (k : A -> SE FC IoErrorKind B) mid post :
  hoare pre m mid -> (forall a, hoare (mid a) (k a) post) -> hoare pre (se_bind m k) post.
Proof.
  intros Hm Hk s r s' Hs Hp. unfold se_bind. destruct (m s) as [[a | e] s1] eqn:Em;
    destruct (Hm s _ s1 Hs Hp Em) as [Hs1 Ha]; [by apply Hk |]. by intros [= <- <-].
Qed.

Lemma hoare_ret {A} pre (a : A) post : (forall s, fc_ok s -> pre s -> post a s) -> hoare pre (se_ret a) post.
Proof. intros Hp s r s' Hs Hpre [= <- <-]. auto. Qed.

Lemma hoare_lift {A} pre (r : result IoErrorKind A) post :
  (forall a s, r = Ok a -> fc_ok s -> pre s -> post a s) -> hoare pre (se_lift r) post.
Proof. intros Hp s r' s' Hs Hpre [= <- <-]. split; [done |]. destruct r; [by apply Hp | done]. Qed.

Lemma hoare_weaken {A} (pre pre' : FC -> Prop) (m : SE FC IoErrorKind A) (post post' : A -> FC -> Prop) :
  hoare pre m post -> (forall s, fc_ok s -> pre' s -> pre s) -> (forall a s, fc_ok s -> post a s -> post' a s) -> hoare pre' m post'.
Proof.
  intros Hm Hp Hq s r s' Hs Hpre Er. destruct (Hm s r s' Hs (Hp s Hs Hpre) Er) as [Hs' Hr]. split; [done |].
  destruct r; [by apply Hq | done].
Qed.

(** A system call that changes nothing. *)
Lemma hoare_pure {A} (I : FC -> Prop) (m : FC -> result IoErrorKind A * FC) post :
  stable I -> timeless I -> (forall s, (m s).2 = s) ->
  (forall s a, fc_ok s -> I s -> (m s).1 = Ok a -> post a s) -> hoare I (syscall unharmed m) post.
Proof.
  intros Hst Htl Hm Hp. apply hoare_syscall; [done | done | | done]. intros s Hs HI. rewrite Hm. split; [done |].
  destruct ((m s).1) as [a |] eqn:Em; [by apply Hp | done].
Qed.

Lemma stable_always : stable always.
Proof. done. Qed.
Lemma timeless_always : timeless always.
Proof. done. Qed.

(** ** Reading *)

(** An inode that held what [path] may hold still does. *)
Definition holds (path : FilePath) (i : nat) (s : FC) : Prop :=
  (i < length (fs_inodes (fc_fs s)))%nat /\ dotless path /\ right path (inode i (fc_fs s)).

Lemma other_inode o s i : (i < length (fs_inodes (fc_fs s)))%nat ->
  (i < length (fs_inodes (fc_fs (other_step o s))))%nat
  /\ inode i (fc_fs (other_step o s)) = inode i (fc_fs s).
Proof.
  intros Hi. destruct o as [path | path | path data]; cbn; [done | done |].
  rewrite length_app. cbn. split; [lia |]. by apply inode_app.
Qed.

Lemma stable_holds path i : stable (holds path i).
Proof.
  intros o s _ _ (H1 & H2 & H3). destruct (other_inode o s i H1) as [H4 H5]. unfold holds. by rewrite H5.
Qed.

Lemma timeless_holds path i : timeless (holds path i).
Proof. by intros s sched Hh. Qed.

Lemma hoare_open_and_cache path : dotless path ->
  hoare always (open_and_cache path) (fun r s => match r with Some i => holds path i s | None => True end).
Proof.
  intros Hd s r s' Hs _. unfold open_and_cache. destruct (file_open path s) as [r0 s1] eqn:Er.
  assert (hoare always (file_open path) (fun i s => fs_dir (fc_fs s) !! path = Some i)) as Ho.
  { apply hoare_pure; [apply stable_always | apply timeless_always | done |].
    intros s0 i _ _. cbn. by destruct (fs_dir (fc_fs s0) !! path); cbn; [intros [= ->] |]. }
  destruct (Ho s r0 s1 Hs I Er) as [Hs1 Hr]. destruct r0 as [i | []]; try by intros [= <- <-].
  intros [= <- <-]. pose proof Hs1 as [F1 F2 F3 F4 F5]. destruct (F1 path i Hr) as [Hi Hri].
  split; [| split; [done | split; done]]. constructor; [done | done | | done..]. intros p j. cbn. intros Hp.
  eapply lookup_weaken in Hp; [| apply lru_push_spec]. apply lookup_insert_Some in Hp as [[<- <-] | [_ Hp]]; [| by apply F3].
  split; [done |]. split; [done |]. split; [done | by left].
Qed.

Lemma fc_ok_handles s l : fc_ok s -> lru_entries l ⊆ lru_entries (fc_handles s) -> fc_ok (set_handles l s).
Proof.
  intros Hs Hl. eapply (fc_ok_shrink s); cbn; [done | done | done | done | | apply Hs | done]. intros p i Hp _. by left.
Qed.

Lemma hoare_get_or_open path : dotless path ->
  hoare always (get_or_open path) (fun r s => match r with Some i => holds path i s | None => True end).
Proof.
  intros Hd. unfold get_or_open.
  eapply (hoare_bind _ _ _ (fun r s => match r with Some i => holds path i s | None => True end)).
  { intros s r s' Hs _. unfold cache_get. destruct (lru_get_spec path (fc_handles s)) as [E1 E2].
    destruct (lru_get path (fc_handles s)) as [r0 l]. cbn in E1, E2. intros [= <- <-].
    split; [apply fc_ok_handles; [done | by rewrite E2] |]. destruct r0 as [i |]; [| done].
    destruct (fo_handles s Hs path i (eq_sym E1)) as (H1 & H2 & H3 & _). done. }
  intros [i |]; [| eapply hoare_weaken; [by apply hoare_open_and_cache | done | done]].
  eapply (hoare_bind _ _ _ (fun valid s => valid = true -> holds path i s)).
  { intros s r s' Hs Hh. unfold is_valid. destruct (file_nlink i s) as [r0 s1] eqn:Er. intros [= <- <-].
    assert (hoare (holds path i) (file_nlink i) (fun _ => holds path i)) as Hn.
    { apply hoare_pure; [apply stable_holds | apply timeless_holds | done | done]. }
    destruct (Hn s r0 s1 Hs Hh Er) as [Hs1 Hr]. split; [done |]. by destruct r0. }
  intros [|].
  - apply hoare_ret. auto.
  - eapply (hoare_bind _ _ _ (fun _ => always)); [| intros _; by apply hoare_open_and_cache].
    intros s r s' Hs _ [= <- <-]. split; [| done].
    apply fc_ok_handles; [done | rewrite lru_pop_spec; apply delete_subseteq].
Qed.

Lemma hoare_track pre path access : timeless pre ->
  (forall accept sent s, pre s -> pre (set_sent accept sent s)) ->
  hoare pre (track has_evictor path access) (fun _ => pre).
Proof.
  intros Htl Hset s r s' Hs Hp. unfold track. destruct has_evictor; [| by intros [= <- <-]].
  assert (forall accept sent, fc_ok (set_sent accept sent s)) as Hok.
  { intros accept sent. apply (fc_ok_same s); [done | done | apply Hs | done]. }
  destruct (fc_accept s) as [| [|] rest]; intros [= <- <-]; (split; [apply Hok | by apply Hset]).
Qed.

Lemma hoare_track_const (Q : Prop) path access :
  hoare (fun _ => Q) (track has_evictor path access) (fun _ _ => Q).
Proof. apply (hoare_track (fun _ => Q)); [by intros s sched HQ | by intros accept sent s HQ]. Qed.

(** Reading what an inode holds. *)
Lemma hoare_read_exact path i len offset :
  hoare (holds path i) (read_exact_at_offset i len offset)
    (fun b s => holds path i s /\ slice_opt (inode i (fc_fs s)) (mkRange offset (offset + len)) = Some b).
Proof.
  apply hoare_pure; [apply stable_holds | apply timeless_holds | done |].
  intros s b _ Hh. cbn. destruct (slice_opt _ _); cbn; [by intros [= ->] | done].
Qed.

Lemma hoare_read_part loc id range :
  0 <= id -> 0 <= rg_start range <= rg_end range ->
  hoare always (fs_read_part root_folder has_evictor loc P id range) (fun r _ =>
    forall b, r = Some b -> slice_opt (part P (truth loc) id) range = Some b).
Proof.
  intros Hid Hr. unfold fs_read_part. set (path := make_part_path root_folder loc id P).
  eapply hoare_bind; [apply hoare_get_or_open, part_dotless |]. intros [i |]; [| by apply hoare_ret].
  eapply hoare_bind; [apply hoare_read_exact |]. intros b.
  replace (rg_start range + (rg_end range - rg_start range)) with (rg_end range) by lia.
  eapply (hoare_bind _ _ _ (fun _ _ => slice_opt (part P (truth loc) id) range = Some b)).
  - eapply hoare_weaken;
      [apply (hoare_track_const (slice_opt (part P (truth loc) id) range = Some b)) | | by intros a s Hs HQ].
    intros s Hs [(_ & _ & [Hpart _]) Hb]. rewrite (Hpart loc id Hid eq_refl) in Hb. by destruct range.
  - intros _. apply hoare_ret. intros s _ Hb b' [= <-]. done.
Qed.

Lemma hoare_read_head loc :
  hoare always (read_head root_folder has_evictor loc) (fun r _ => forall h, r = Some h -> head_ok truth loc h).
Proof.
  unfold read_head. set (path := make_head_path root_folder loc).
  eapply hoare_bind; [apply hoare_get_or_open, head_dotless |]. intros [i |]; [| by apply hoare_ret].
  eapply (hoare_bind _ _ _ (fun n s => holds path i s /\ n = Z.of_nat (length (inode i (fc_fs s))))).
  { apply hoare_pure; [apply stable_holds | apply timeless_holds | done |].
    intros s n _ Hh [= <-]. by split. }
  intros n. eapply (hoare_bind _ _ _ (fun b _ => right path b)).
  { (* others only add inodes: the length read is still the file's *)
    set (I := fun s => holds path i s /\ n = Z.of_nat (length (inode i (fc_fs s)))).
    eapply (hoare_weaken I _ _ (fun b _ => right path b)); [| by intros s Hs HI | by intros a s Hs Hb].
    apply hoare_pure.
    - intros o s Ho Hs [Hh Hn]. split; [by apply stable_holds |].
      destruct Hh as (Hi & _). by destruct (other_inode o s i Hi) as [_ ->].
    - by intros s sched HI.
    - done.
    - intros s b _ [(_ & _ & Hri) Hn]. cbn. unfold slice_opt. cbn [rg_start rg_end].
      destruct (_ && _) eqn:E1; [| done]. cbn. intros [= <-].
      unfold slice. cbn. rewrite drop_0, firstn_all2 by lia. done. }
  intros b. eapply (hoare_bind _ _ _ (fun c _ => right path b /\ from_utf8 b = Some c)).
  { apply hoare_lift. intros c s Hc _ Hb. destruct (from_utf8 b); [| done]. cbn in Hc. injection Hc as ->. done. }
  intros c. eapply (hoare_bind _ _ _ (fun h _ => head_ok truth loc (head_meta h, head_attributes h))).
  { apply hoare_lift. intros h s Hh _ [[_ Hb] Hc]. destruct (json_from_str c) as [h' |] eqn:Ej; [| done].
    cbn in Hh. injection Hh as <-. by eapply Hb. }
  intros h. eapply (hoare_bind _ _ _ (fun _ _ => head_ok truth loc (head_meta h, head_attributes h))).
  { apply hoare_track_const. }
  intros _. apply hoare_ret. intros s _ Hh h' [= <-]. done.
Qed.

(** ** Writing *)

(** The inode being written: linked at the temporary path or nowhere, the
    only thing that path is linked to, in nobody's hands, holding [data]. *)
Definition owned (tmp : FilePath) (i : nat) (data : bytes) (s : FC) : Prop :=
  (i < length (fs_inodes (fc_fs s)))%nat
  /\ (forall q, fs_dir (fc_fs s) !! q = Some i -> q = tmp)
  /\ (forall j, fs_dir (fc_fs s) !! tmp = Some j -> j = i)
  /\ (forall p, lru_entries (fc_handles s) !! p <> Some i)
  /\ inode i (fc_fs s) = data.

Lemma stable_owned tmp i data : ~ dotless tmp -> stable (owned tmp i data).
Proof.
  intros Ht o s Ho Hs (H1 & H2 & H3 & H4 & H5). destruct (other_inode o s i H1) as [H6 H7].
  split; [done |]. rewrite H7. destruct o as [path | path | path d]; cbn.
  - rewrite lru_pop_spec. repeat split; [| | | done].
    + intros q [_ Hq]%lookup_delete_Some. auto.
    + intros j [_ Hj]%lookup_delete_Some. auto.
    + intros p [_ Hp]%lookup_delete_Some. by apply (H4 p).
  - rewrite lru_pop_spec. repeat split; [done | done | | done]. intros p [_ Hp]%lookup_delete_Some. by apply (H4 p).
  - destruct Ho as [Hd _]. repeat split; [| | done | done].
    + intros q. rewrite lookup_insert_Some. intros [[_ E1] | [_ Hq]]; [lia | auto].
    + intros j. rewrite lookup_insert_ne; [auto |]. by intros ->.
Qed.

Lemma timeless_owned tmp i data : timeless (owned tmp i data).
Proof. by intros s sched Hs. Qed.

Lemma inode_set i j data fs u : (j < length (fs_inodes fs))%nat ->
  inode i (mkFs (fs_dir fs) (<[j := data]> (fs_inodes fs)) u) = if decide (i = j) then data else inode i fs.
Proof.
  intros Hj. unfold inode. cbn. case_decide as E1; [subst i; by rewrite list_lookup_insert_eq |].
  by rewrite list_lookup_insert_ne.
Qed.

(** Its data may be lost: nobody has seen it. *)
Lemma fc_ok_unsync tmp i data s :
  ~ dotless tmp -> fc_ok s -> owned tmp i data s -> fc_ok (set_fs (unsync i (fc_fs s)) s).
Proof.
  intros Ht [F1 F2 F3 F4 F5] (H1 & H2 & _). constructor; cbn; [done.. |].
  intros p j Hd Hp. rewrite not_elem_of_union, elem_of_singleton. split; [| by eapply F5].
  intros ->. by rewrite (H2 p Hp) in Hd.
Qed.

(** Writing to it changes nothing anybody can see. *)
Lemma fc_ok_set_inode tmp i old data s :
  ~ dotless tmp -> fc_ok s -> owned tmp i old s -> fc_ok (set_inode i data s) /\ owned tmp i data (set_inode i data s).
Proof.
  intros Ht Hs Ho. apply (fc_ok_unsync tmp i old s) in Hs as [F1 F2 F3 F4 F5]; [| done..].
  cbn -[inode] in *. destruct Ho as (H1 & H2 & H3 & H4 & H5). split.
  - constructor; cbn -[inode]; [| done | | done | done].
    + intros p j Hp. destruct (F1 p j Hp) as [Hj Hr]. rewrite length_insert. split; [done |].
      unfold unsync. cbn -[inode]. rewrite inode_set by done. case_decide as E1; [| done]. subst j. rewrite (H2 p Hp). by apply right_dotted.
    + intros p j Hp. destruct (F3 p j Hp) as (Hj & Hd & Hr & Hl). unfold unsync. cbn -[inode]. rewrite length_insert, inode_set by done.
      rewrite decide_False by (intros ->; by apply (H4 p)). done.
  - unfold owned, unsync. cbn -[inode]. rewrite length_insert. unfold unsync. cbn -[inode]. by rewrite inode_set, decide_True.
Qed.

(** The inode being written, its data on the disk. *)
Definition on_disk (tmp : FilePath) (i : nat) (data : bytes) (s : FC) : Prop :=
  owned tmp i data s /\ i ∉ fs_unsynced (fc_fs s).

Lemma stable_on_disk tmp i data : ~ dotless tmp -> stable (on_disk tmp i data).
Proof. intros Ht o s Ho Hs [H1 H2]. split; [by apply stable_owned |]. destruct o; cbn; [done..|]. set_solver. Qed.

Lemma hoare_sync_all tmp i data : ~ dotless tmp ->
  hoare (owned tmp i data) (sync_all i) (fun _ => on_disk tmp i data).
Proof.
  intros Ht. apply hoare_syscall; [by apply stable_owned | apply timeless_owned | | done].
  intros s [F1 F2 F3 F4 F5] Ho. cbn [fst snd]. split.
  - constructor; cbn; [done.. |]. intros p j Hd Hp [Hj _]%elem_of_difference. by apply (F5 p j).
  - split; [done |]. cbn. rewrite not_elem_of_difference, elem_of_singleton. by right.
Qed.

Lemma hoare_open_truncate tmp : ~ dotless tmp ->
  hoare always (open_truncate tmp) (fun i s => owned tmp i [] s).
Proof.
  intros Ht. apply hoare_syscall; [apply stable_always | apply timeless_always | | done].
  intros s Hs _. destruct (fs_dir (fc_fs s) !! tmp) as [i |] eqn:Ei; cbn [fst snd].
  - assert (owned tmp i (inode i (fc_fs s)) s) as Hown.
    { pose proof Hs as [F1 F2 F3 F4 F5]. destruct (F1 tmp i Ei) as [Hi _]. repeat split; [done | | | ].
      - intros q Hq. by eapply F2.
      - intros j Hj. congruence.
      - intros p Hp. destruct (F3 p i Hp) as (_ & Hd & _ & [Hl | Hl]); [| by apply (Hl tmp)].
        rewrite (F2 _ _ _ Hl Ei) in Hd. done. }
    by apply (fc_ok_set_inode tmp i (inode i (fc_fs s)) [] s).
  - assert (owned tmp (length (fs_inodes (fc_fs s))) [] (set_fs (link_new tmp [] (fc_fs s)) s)) as Ho; [|split; [|exact Ho]].
    2: { eapply (fc_ok_unsync tmp _ _ (set_fs (link_new tmp [] (fc_fs s)) s)); [done | | exact Ho].
         apply fc_ok_link; [done | by apply right_dotted]. }
    pose proof Hs as [F1 F2 F3 F4 F5]. unfold owned, link_new. cbn -[inode].
    rewrite length_app, inode_new. cbn. repeat split; [lia | | |].
    + intros q. rewrite lookup_insert_Some. intros [[<- _] | [_ Hq]]; [done |]. apply F1 in Hq as [Hq _]. lia.
    + intros j. rewrite lookup_insert_eq. by intros [= <-].
    + intros p Hp. destruct (F3 p _ Hp) as (Hj & _). lia.
Qed.

Lemma hoare_rename tmp path i buf : ~ dotless tmp -> dotless path -> right path buf ->
  hoare (on_disk tmp i buf) (rename tmp path) (fun _ _ => True).
Proof.
  intros Ht Hd Hr. apply hoare_syscall; [by apply stable_on_disk | by intros s sched | | done].
  intros s Hs [(H1 & H2 & H3 & H4 & H5) Hsync]. destruct (fs_dir (fc_fs s) !! tmp) as [j |] eqn:Ej; [| by split].
  cbn [fst snd]. split; [| done]. rewrite (H3 j eq_refl) in Ej. rewrite (H3 j eq_refl).
  pose proof Hs as [F1 F2 F3 F4 F5]. constructor; cbn -[inode]; [| | | done |].
  - intros p k. rewrite lookup_insert_Some. intros [[<- <-] | [_ [_ Hp]%lookup_delete_Some]].
    + split; [done |]. by rewrite <- H5 in Hr.
    + by apply F1.
  - intros p q k. rewrite !lookup_insert_Some, !lookup_delete_Some.
    intros [[<- <-] | [_ [Hp1 Hp]]] [[<- E2] | [_ [Hq1 Hq]]]; [done | | | by eapply F2].
    + destruct Hq1. symmetry. by apply H2.
    + subst k. destruct Hp1. symmetry. by apply H2.
  - intros p k Hp. destruct (F3 p k Hp) as (G1 & G2 & G3 & G4). split; [done |]. split; [done |]. split; [done |].
    assert (k <> i) as Hki by (intros ->; by apply (H4 p)).
    destruct (decide (p = path)) as [-> | Hne].
    + right. intros q. rewrite lookup_insert_Some, lookup_delete_Some.
      intros [[_ E2] | [Hq [_ Hq']]]; [by destruct Hki |].
      destruct G4 as [G4 | G4]; [| by apply (G4 q)]. apply Hq. by eapply F2.
    + destruct G4 as [G4 | G4].
      * left. rewrite lookup_insert_ne by done. rewrite lookup_delete_ne; [done |]. by intros <-.
      * right. intros q. rewrite lookup_insert_Some, lookup_delete_Some.
        intros [[_ E2] | [_ [_ Hq']]]; [by destruct Hki | by apply (G4 q)].
  - intros p k Hdp. rewrite lookup_insert_Some, lookup_delete_Some. intros [[_ <-] | [_ [_ Hp]]]; [done | by eapply F5].
Qed.

Lemma hoare_pop path : hoare always (invalidate path) (fun _ _ => True).
Proof.
  intros s r s' Hs _ [= <- <-]. split; [| done].
  apply fc_ok_handles; [done | rewrite lru_pop_spec; apply delete_subseteq].
Qed.

Lemma hoare_atomic_write path buf : dotless path -> right path buf ->
  hoare always (atomic_write has_evictor path buf) (fun _ _ => True).
Proof.
  intros Hd Hr. unfold atomic_write. eapply (hoare_bind _ _ _ (fun _ => always)).
  { intros s r s' Hs _ [= <- <-]. split; [| done]. apply (fc_ok_same s); [done | done | apply Hs | done]. }
  intros suffix. set (tmp := tmp_path_of path suffix). pose proof (tmp_dotted path suffix) as Ht. fold tmp in Ht.
  eapply (hoare_bind _ _ _ (fun _ => always)); [apply (hoare_track_const True) |].
  intros [|]; [cbn [negb] | by apply hoare_ret].
  eapply (hoare_bind _ _ _ (fun _ => always)).
  { apply hoare_pure; [apply stable_always | apply timeless_always | done | done]. }
  intros _. eapply hoare_bind; [by apply hoare_open_truncate |]. intros i.
  eapply (hoare_bind _ _ _ (fun _ => owned tmp i buf)).
  { apply hoare_syscall; [by apply stable_owned | apply timeless_owned | |].
    - intros s Hs Ho. by apply (fc_ok_set_inode tmp i []).
    - intros n s Hs Ho. by apply (fc_ok_set_inode tmp i []). }
  intros _. eapply (hoare_bind _ _ _ (fun _ => on_disk tmp i buf)); [by apply hoare_sync_all |].
  intros _. eapply (hoare_bind _ _ _ (fun _ => always)); [| intros _; apply hoare_pop].
  eapply hoare_weaken; [by apply (hoare_rename tmp path i buf) | done | done].
Qed.

Lemma hoare_save_part loc id buf : 0 <= id -> buf = part P (truth loc) id ->
  hoare always (save_part root_folder has_evictor loc P id buf) (fun _ _ => True).
Proof.
  intros Hid ->. apply hoare_atomic_write; [apply part_dotless |]. split.
  - intros loc' id' Hid' Hp. by destruct (part_path_inj root_folder loc loc' id id' P Hid Hid' Hp) as [-> ->].
  - intros loc' content h Hp. by apply part_not_head in Hp.
Qed.

Lemma hoare_save_head loc h : all_plain h.2 -> head_ok truth loc h ->
  hoare always (save_head root_folder has_evictor loc h) (fun _ _ => True).
Proof.
  intros Hp Hh s r s' Hs _. unfold save_head. destruct (read_head root_folder has_evictor loc s) as [r0 s1] eqn:Er.
  destruct (hoare_read_head loc s r0 s1 Hs I Er) as [Hs1 _].
  assert (hoare always (do! buf <- se_lift (ok_or (json_to_vec (head_from h)) IoOther);
    atomic_write has_evictor (make_head_path root_folder loc) buf) (fun _ _ => True)) as Hw.
  { eapply (hoare_bind _ _ _ (fun buf _ => json_to_vec (head_from h) = Some buf)).
    - apply hoare_lift. intros buf s0 Hb _ _. destruct (json_to_vec (head_from h)); [| done]. cbn in Hb. by injection Hb as ->.
    - intros buf s0 r1 s2 Hs0 Hb. apply hoare_atomic_write; [apply head_dotless | | done | done]. split.
      + intros loc' id _ Hp'. symmetry in Hp'. by apply part_not_head in Hp'.
      + intros loc' content h' Hp' Hc Hj. apply head_path_inj in Hp' as <-.
        destruct (json_round _ _ Hb) as [Hv Hr]. apply from_utf8_Some in Hc as [-> _].
        rewrite Hr in Hj. injection Hj as <-. by apply head_ok_round. }
  destruct r0 as [[h' |] | e]; [by intros [= <- <-] | |]; by apply Hw.
Qed.

Lemma fc_ok_remove path s : fc_ok s ->
  fc_ok (set_fs (set_dir (delete path (fs_dir (fc_fs s))) (fc_fs s)) s).
Proof.
  intros Hs. eapply (fc_ok_shrink s); cbn; [done | done | apply delete_subseteq | done | | apply Hs | done].
  intros p i Hp _. destruct (decide (p = path)) as [-> | Hne]; [| left; by rewrite lookup_delete_ne].
  right. intros q [Hq Hi]%lookup_delete_Some. apply Hq. by eapply (fo_inj s Hs).
Qed.

Lemma hoare_remove path : hoare always (remove_file path) (fun _ _ => True).
Proof.
  apply hoare_syscall; [apply stable_always | apply timeless_always | | done]. intros s Hs _.
  destruct (fs_dir (fc_fs s) !! path); cbn; [split; [by apply fc_ok_remove | done] | by split].
Qed.

Lemma hoare_delete_files paths : hoare always (delete_files paths) (fun _ _ => True).
Proof.
  induction paths as [| p rest IH]; intros s r s' Hs _; cbn [delete_files]; [by intros [= <- <-] |].
  destruct (remove_file p s) as [r0 s1] eqn:Er. destruct (hoare_remove p s r0 s1 Hs I Er) as [Hs1 _].
  eapply (hoare_bind always _ _ (fun _ => always) (fun _ _ => True)); [apply hoare_pop | | done | done].
  intros _. eapply (hoare_bind always _ _ (fun _ => always)); [exact IH |]. intros deleted. by apply hoare_ret.
Qed.

Lemma hoare_delete_entry loc : hoare always (delete_entry root_folder has_evictor loc) (fun _ _ => True).
Proof.
  unfold delete_entry. destruct has_evictor eqn:Eh.
  - eapply (hoare_bind _ _ _ (fun _ => always)); [rewrite <- Eh; apply (hoare_track_const True) |]. intros _. by apply hoare_ret.
  - eapply (hoare_bind _ _ _ (fun _ => always)); [| intros _; by apply hoare_ret].
    intros s r s' Hs _. unfold delete_cache_entry. destruct (read_dir _ s) as [r0 s1] eqn:Er.
    assert (hoare always (read_dir (make_head_path root_folder loc).1) (fun _ _ => True)) as Hd
      by (apply hoare_pure; [apply stable_always | apply timeless_always | done | done]).
    destruct (Hd s r0 s1 Hs I Er) as [Hs1 _]. destruct r0 as [paths | e]; [| by intros [= <- <-]].
    eapply (hoare_bind always _ _ (fun _ => always) (fun _ _ => True)); [apply hoare_delete_files | | done | done].
    intros deleted s2 r2 s3 Hs2 _. destruct (remove_dir (make_head_path root_folder loc).1 s2) as [r4 s4] eqn:E4. intros [= <- <-].
    assert (hoare always (remove_dir (make_head_path root_folder loc).1) (fun _ _ => True)) as Hd'
      by (apply hoare_pure; [apply stable_always | apply timeless_always | done | done]).
    by destruct (Hd' s2 r4 s4 Hs2 I E4).
Qed.

Lemma inode_after_loss lost i s : i ∉ fs_unsynced (fc_fs s) -> inode i (fc_fs (power_loss lost s)) = inode i (fc_fs s).
Proof.
  intros Hi. unfold inode. cbn. rewrite list_lookup_imap. destruct (fs_inodes (fc_fs s) !! i); [| done].
  cbn. by rewrite decide_False.
Qed.

(** Losing what was not synced loses temporary files only. *)
Lemma fc_ok_power_loss lost s : fc_ok s -> fc_ok (power_loss lost s).
Proof.
  intros [F1 F2 F3 F4 F5]. constructor; cbn -[inode]; [| done | | done |].
  - intros p i Hp. rewrite length_imap. destruct (F1 p i Hp) as [Hi Hr]. split; [done |].
    destruct (decide (x2e ∈ p.2)) as [Hd | Hd]; [apply right_dotted; by intros Hn |].
    pose proof (inode_after_loss lost i s (F5 p i Hd Hp)) as E1. unfold power_loss in E1. cbn -[inode] in E1. by rewrite E1.
  - intros p i. by rewrite lru_new_spec, lookup_empty.
  - intros p i _ _. apply not_elem_of_empty.
Qed.

End invariant.

(** ** The storage of the cached store *)

Section storage.
Context {OT : ObjectStoreTypes} {CT : CacheText OT} {LL : LruLib FilePath nat}.
Context {truth : OPath -> Object} (plain_truth : forall loc, all_plain (ob_attributes (truth loc))).
Context {OsErr : Type} (wrap_io_err : IoErrorKind -> OsErr) (root_folder : bytes) (has_evictor : bool).

Lemma hoare_wrapped {A} size (m : SE FC IoErrorKind A) (post : A -> FC -> Prop) c r c' :
  hoare (truth := truth) root_folder size always m post -> se_map_err wrap_io_err m c = (r, c') ->
  fc_ok (truth := truth) root_folder size c ->
  fc_ok (truth := truth) root_folder size c' /\ forall a, r = Ok a -> post a c'.
Proof.
  intros Hm E1 Hc. unfold se_map_err in E1. destruct (m c) as [r0 c1] eqn:Em. injection E1 as <- <-.
  destruct (Hm c r0 c1 Hc I Em) as [Hc1 Hr]. split; [done |]. destruct r0 as [a0 | e]; cbn; [by intros a1 [= <-] | done].
Qed.

Definition FsCacheStorage : LocalCache FC OsErr truth.
Proof.
  refine {|
    lc_save_part loc size id b := se_map_err wrap_io_err (save_part root_folder has_evictor loc size id b);
    lc_read_part loc size id range := se_map_err wrap_io_err (fs_read_part root_folder has_evictor loc size id range);
    lc_save_head loc size h := se_map_err wrap_io_err (save_head root_folder has_evictor loc h);
    lc_read_head loc size := se_map_err wrap_io_err (read_head root_folder has_evictor loc);
    lc_delete loc size := se_map_err wrap_io_err (delete_entry root_folder has_evictor loc);
    coherent size := fc_ok (truth := truth) root_folder size
  |}.
  - intros loc size id b c r c' E1 Hc Hid Hb.
    by destruct (hoare_wrapped size _ _ c r c' (hoare_save_part root_folder has_evictor size loc id b Hid Hb) E1 Hc).
  - intros loc size id range c r c' E1 Hc Hid Hr.
    destruct (hoare_wrapped size _ _ c r c' (hoare_read_part root_folder has_evictor size loc id range Hid Hr) E1 Hc) as [Hc' Hp].
    split; [done |]. intros b Eb. by apply (Hp (Some b) Eb).
  - intros loc size h c r c' E1 Hc Hh.
    assert (all_plain h.2) as Hp by (destruct h as [m a]; destruct Hh as (_ & _ & _ & _ & ->); apply plain_truth).
    by destruct (hoare_wrapped size _ _ c r c' (hoare_save_head root_folder has_evictor size loc h Hp Hh) E1 Hc).
  - intros loc size c r c' E1 Hc.
    destruct (hoare_wrapped size _ _ c r c' (hoare_read_head root_folder has_evictor size loc) E1 Hc) as [Hc' Hp].
    split; [done |]. intros h Eh. by apply (Hp (Some h) Eh).
  - intros loc size c r c' E1 Hc.
    by destruct (hoare_wrapped size _ _ c r c' (hoare_delete_entry root_folder has_evictor size loc) E1 Hc).
Defined.

(** ** What clients do *)

Context {U : Type} {UP : Upstream U OsErr truth}.

Abbreviation Node := (PC (U := U) (C := FC)).

(** Requests: a GET whose payload is read to its end, a PUT, deletions; and the
    machine going down, with what is on the disk of data that was not synced. *)
Inductive CacheOp : Type :=
  | OpGet (loc : OPath) (o : GetOptions)
  | OpPut (cache_puts : bool) (loc : OPath) (payload : list bytes) (attrs : Attributes)
  | OpDelete (locs : list OPath)
  | OpCrash (lost : nat -> bytes).

Context (P : Z) (HP : 0 < P) (Hfits : forall loc, ob_size (truth loc) + P < 2 ^ 64).

(** Objects do not change: a put is of the object's content. *)
Definition op_wf (op : CacheOp) : Prop :=
  match op with
  | OpGet loc o => range_wf P (go_range o)
  | OpPut _ loc payload attrs => concat payload = ob_data (truth loc) /\ attrs = ob_attributes (truth loc)
  | OpDelete _ | OpCrash _ => True
  end.

Definition run_op (op : CacheOp) (s : Node) : Node :=
  match op with
  | OpGet loc o =>
      match get_opts (LC := FsCacheStorage) P loc o s with
      | (Ok g, s) => (drain (gr_payload g) s).2
      | (Err _, s) => s
      end
  | OpPut cache_puts loc payload attrs => (cached_put_opts (LC := FsCacheStorage) P cache_puts loc payload attrs s).2
  | OpDelete locs => (delete_stream (LC := FsCacheStorage) P locs s).2
  | OpCrash lost => mkPC (pc_upstream s) (power_loss lost (pc_storage s)) (pc_flights s) (pc_access s)
  end.

(** A node as it starts: an empty folder, and other tasks and callers that do
    what they should. *)
Record fresh (s : Node) : Prop := mkFresh {
  fresh_dir : fs_dir (fc_fs (pc_storage s)) = ∅;
  fresh_handles : lru_entries (fc_handles (pc_storage s)) = ∅;
  fresh_sched : Forall (tick_ok (truth := truth) root_folder P) (fc_sched (pc_storage s));
  fresh_flights : Forall (shared_ok (truth := truth) P) (pc_flights s)
}.

Lemma fresh_ok s : fresh s -> pc_ok (LC := FsCacheStorage) P s.
Proof.
  intros [F1 F2 F3 F4]. split; [| done]. constructor; rewrite ?F1, ?F2; try done; intros *; by rewrite lookup_empty.
Qed.

Lemma cache_op_ok op s : op_wf op -> pc_ok (LC := FsCacheStorage) P s -> pc_ok (LC := FsCacheStorage) P (run_op op s).
Proof.
  intros Hw Hs. destruct op as [loc o | cp loc payload attrs | locs | lost]; cbn [run_op].
  - destruct (get_opts P loc o s) as [r s1] eqn:Er.
    destruct (triple_get_opts (LC := FsCacheStorage) P HP True True loc o Hw (Hfits loc) ltac:(by left) ltac:(done) s r s1 Hs Er)
      as [Hs1 Hr]. destruct r as [g | e]; [| done]. destruct Hr as [_ Hr].
    destruct (drain (gr_payload g) s1) as [r2 s2] eqn:Ed. cbn. destruct (go_head o).
    + rewrite Hr in Ed. by injection Ed as _ <-.
    + destruct Hr as [_ Hd]. by destruct (Hd s1 r2 s2 Hs1 Ed).
  - destruct Hw as [Hd Ha]. destruct (cached_put_opts P cp loc payload attrs s) as [r s1] eqn:Er.
    by destruct (put_keeps (LC := FsCacheStorage) P s cp loc payload attrs r s1 HP Hs Hd Ha Er).
  - destruct (delete_stream P locs s) as [r s1] eqn:Er.
    by destruct (delete_keeps (LC := FsCacheStorage) P locs s r s1 Hs Er).
  - destruct Hs as [Hc Hfl]. split; [by apply fc_ok_power_loss | done].
Qed.

(** C18: The cache on disk is transparent.  Start with an empty folder, run
    any requests (reads of any ranges, puts of objects' contents, deletions)
    with any disk, rename and store failures, writers killed half-way, files
    evicted and other callers' writes finishing between any two system calls,
    and between requests any crashes of the machine, each losing whatever data
    had not been synced: a GET answered afterwards carries the object's metadata and the range
    asked for, and what its stream delivers when read is exactly the object's
    bytes of that range. *)
Theorem disk_cache_transparent ops s0 loc o g s1 b s2 :
  fresh s0 -> Forall op_wf ops -> range_wf P (go_range o) -> go_head o = false ->
  get_opts (LC := FsCacheStorage) P loc o (foldl (fun s op => run_op op s) s0 ops) = (Ok g, s1) ->
  drain (gr_payload g) s1 = (Ok b, s2) ->
  head_ok truth loc (gr_meta g, gr_attributes g)
  /\ resolve (go_range o) (ob_size (truth loc)) = Some (gr_range g)
  /\ b = slice (ob_data (truth loc)) (gr_range g).
Proof.
  intros Hf Hops Hw Hh Hg Hd.
  assert (pc_ok (LC := FsCacheStorage) P (foldl (fun s op => run_op op s) s0 ops)) as Hs.
  { apply fresh_ok in Hf. clear Hg. revert s0 Hf. induction Hops as [| op ops Hop _ IH]; intros s0 Hs0; [done |].
    cbn [foldl]. by apply IH, cache_op_ok. }
  destruct (triple_get_opts (LC := FsCacheStorage) P HP True True loc o Hw (Hfits loc) ltac:(by left) ltac:(done) _ _ _ Hs Hg)
    as [Hs1 [Hhead Hr]]. rewrite Hh in Hr. destruct Hr as [Hres Hdr].
  split; [done |]. split; [done |]. by destruct (Hdr s1 _ s2 Hs1 Hd).
Qed.

End storage.

(** ** A file is written whole or not at all *)

Section atomic.
Context {OT : ObjectStoreTypes} {CT : CacheText OT} {LL : LruLib FilePath nat}.

Definition file (p : FilePath) (s : FC) : option bytes :=
  (fun i => inode i (fc_fs s)) <$> fs_dir (fc_fs s) !! p.

(** No others: calls may still fail anywhere. *)
Definition quiet (s : FC) : Prop := Forall (fun t => tk_others t = []) (fc_sched s).

(** Linked inodes exist, none is linked twice, and a file without a temporary
    name has its data on the disk. *)
Record fs_wf (s : FC) : Prop := mkFsWf {
  fw_dir : forall p i, fs_dir (fc_fs s) !! p = Some i -> (i < length (fs_inodes (fc_fs s)))%nat;
  fw_inj : forall p q i, fs_dir (fc_fs s) !! p = Some i -> fs_dir (fc_fs s) !! q = Some i -> p = q;
  fw_synced : forall p i, dotless p -> fs_dir (fc_fs s) !! p = Some i -> i ∉ fs_unsynced (fc_fs s)
}.

(** What a crash of the machine leaves of the files without temporary names:
    everything. *)
Lemma file_after_loss lost s q : fs_wf s -> dotless q -> file q (power_loss lost s) = file q s.
Proof.
  intros [_ _ W3] Hd. unfold file. change (fs_dir (fc_fs (power_loss lost s))) with (fs_dir (fc_fs s)).
  destruct (fs_dir (fc_fs s) !! q) as [i |] eqn:Eq; [| done]. cbn -[inode power_loss].
  by rewrite inode_after_loss by (by eapply W3).
Qed.

(** A system call alone: it works, or fails having done what [fail] says. *)
Lemma syscall_quiet {A} fail (m : FC -> result IoErrorKind A * FC) s : quiet s ->
  exists sched, Forall (fun t => tk_others t = []) sched
    /\ (syscall fail m s = m (set_sched sched s) \/ exists n, syscall fail m s = (Err IoOther, fail n (set_sched sched s))).
Proof.
  unfold quiet, syscall. intros Hq. destruct (fc_sched s) as [| t sched] eqn:Es.
  - exists []. split; [done |]. left. f_equal. destruct s. cbn in *. by rewrite Es.
  - apply Forall_cons in Hq as [Ht Hq]. exists sched. split; [done |]. rewrite Ht. cbn [foldl].
    destruct (tk_fault t) as [n |]; [right; by exists n | by left].
Qed.

(** [s'] has the files of [s], but for the temporary one. *)
Definition same_but (tmp : FilePath) (s s' : FC) : Prop :=
  quiet s' /\ fs_wf s' /\ forall q, q <> tmp -> file q s' = file q s.

Lemma same_but_trans tmp s1 s2 s3 : same_but tmp s1 s2 -> same_but tmp s2 s3 -> same_but tmp s1 s3.
Proof. intros (_ & _ & H1) (Hq & Hw & H2). split; [done |]. split; [done |]. intros q Hne. by rewrite H2, H1. Qed.

Lemma same_but_fs tmp s s' : fs_wf s -> quiet s' -> fc_fs s' = fc_fs s -> same_but tmp s s'.
Proof.
  intros [W1 W2 W3] Hq E1. split; [done |]. split; [constructor; by rewrite E1 | intros q _; unfold file; by rewrite E1].
Qed.

Lemma same_but_inode tmp i d s : ~ dotless tmp -> fs_wf s -> quiet s -> fs_dir (fc_fs s) !! tmp = Some i ->
  same_but tmp s (set_inode i d s) /\ file tmp (set_inode i d s) = Some d.
Proof.
  intros Ht [W1 W2 W3] Hq Hi. pose proof (W1 tmp i Hi) as Hlt. split.
  - split; [done |]. split.
    + constructor; cbn; [intros p j Hp; rewrite length_insert; by eapply W1 | done |].
      intros p j Hd Hp. rewrite not_elem_of_union, elem_of_singleton. split; [| by eapply W3].
      intros ->. by rewrite (W2 p tmp i Hp Hi) in Hd.
    + intros q Hne. unfold file, set_inode, unsync. cbn -[inode]. destruct (fs_dir (fc_fs s) !! q) as [j |] eqn:Eq; [| done].
      cbn -[inode]. rewrite inode_set, decide_False; [done | | done]. intros ->. by destruct Hne; eapply W2.
  - unfold file, set_inode, unsync. cbn -[inode]. rewrite Hi. cbn -[inode]. by rewrite inode_set, decide_True.
Qed.

Lemma same_but_link tmp s : ~ dotless tmp -> fs_wf s -> quiet s ->
  same_but tmp s (set_fs (unsync (length (fs_inodes (fc_fs s))) (link_new tmp [] (fc_fs s))) s).
Proof.
  intros Ht [W1 W2 W3] Hq. split; [done |]. split.
  - constructor; cbn.
    + intros p i. rewrite lookup_insert_Some, length_app. cbn. intros [[_ <-] | [_ Hp]]; [lia |].
      specialize (W1 p i Hp). lia.
    + intros p q i. rewrite !lookup_insert_Some.
      intros [[<- <-] | [_ Hp]] [[<- E2] | [_ Hq']]; [done | | | by eapply W2].
      * apply W1 in Hq'. lia.
      * apply W1 in Hp. lia.
    + intros p i Hd [[<- _] | [_ Hp]]%lookup_insert_Some; [done |].
      pose proof (W1 p i Hp). pose proof (W3 p i Hd Hp).
      rewrite elem_of_union, elem_of_difference, !elem_of_singleton. intros [-> | [? _]]; [lia | done].
  - intros q Hne. unfold file, unsync, link_new. cbn -[inode]. rewrite lookup_insert_ne by done.
    destruct (fs_dir (fc_fs s) !! q) as [j |] eqn:Eq; [| done]. cbn -[inode].
    by rewrite inode_app by (by eapply W1).
Qed.

Lemma open_truncate_quiet tmp s r s' : ~ dotless tmp -> fs_wf s -> quiet s -> open_truncate tmp s = (r, s') ->
  same_but tmp s s' /\ forall i, r = Ok i -> fs_dir (fc_fs s') !! tmp = Some i.
Proof.
  intros Ht Hw Hq Er. unfold open_truncate in Er.
  destruct (syscall_quiet unharmed (fun s =>
    match fs_dir (fc_fs s) !! tmp with
    | Some i => (Ok i, set_inode i [] s)
    | None =>
        (Ok (length (fs_inodes (fc_fs s))),
         set_fs (unsync (length (fs_inodes (fc_fs s))) (link_new tmp [] (fc_fs s))) s)
    end) s Hq) as (sched & Hs & Hcase).
  assert (quiet (set_sched sched s)) as Hq0 by done.
  assert (fs_wf (set_sched sched s)) as Hw0 by (destruct Hw; by constructor).
  destruct Hcase as [E1 | [n E1]]; rewrite E1 in Er.
  - cbn [fc_fs set_sched] in Er. destruct (fs_dir (fc_fs s) !! tmp) as [i |] eqn:Ei; injection Er as <- <-.
    + split; [by apply (same_but_inode tmp i [] (set_sched sched s)) |]. intros j [= <-]. done.
    + split; [by apply (same_but_link tmp (set_sched sched s)) |]. intros j [= <-]. apply lookup_insert_eq.
  - injection Er as <- <-. split; [by apply same_but_fs | done].
Qed.

Lemma write_all_quiet tmp i buf s r s' : ~ dotless tmp -> fs_wf s -> quiet s -> fs_dir (fc_fs s) !! tmp = Some i ->
  write_all i buf s = (r, s') ->
  same_but tmp s s' /\ fs_dir (fc_fs s') !! tmp = Some i /\ (is_ok r = true -> file tmp s' = Some buf).
Proof.
  intros Ht Hw Hq Hi Er. unfold write_all in Er.
  destruct (syscall_quiet (fun n => set_inode i (take n buf)) (fun s => (Ok tt, set_inode i buf s)) s Hq)
    as (sched & Hs & [E1 | [n E1]]); rewrite E1 in Er; injection Er as <- <-;
    (assert (fs_wf (set_sched sched s)) as Hw0 by (destruct Hw; by constructor));
    [destruct (same_but_inode tmp i buf (set_sched sched s) Ht Hw0 Hs Hi) as [H1 H2]
    | destruct (same_but_inode tmp i (take n buf) (set_sched sched s) Ht Hw0 Hs Hi) as [H1 H2]]; done.
Qed.

Lemma sync_all_quiet tmp i s r s' : fs_wf s -> quiet s -> sync_all i s = (r, s') ->
  same_but tmp s s' /\ fs_dir (fc_fs s') = fs_dir (fc_fs s) /\ fs_inodes (fc_fs s') = fs_inodes (fc_fs s)
  /\ (is_ok r = true -> i ∉ fs_unsynced (fc_fs s')).
Proof.
  intros Hw Hq Er. unfold sync_all in Er.
  destruct (syscall_quiet unharmed (fun s => (Ok tt, set_fs (sync i (fc_fs s)) s)) s Hq) as (sched & Hs & [E1 | [n E1]]);
    rewrite E1 in Er; injection Er as <- <-; [| by split; [apply same_but_fs |]].
  split; [| split; [done |]; split; [done |]; intros _; cbn; set_solver].
  destruct Hw as [W1 W2 W3]. split; [done |]. split; [| done]. constructor; cbn; [done | done |].
  intros p j Hd Hp [Hj _]%elem_of_difference. by apply (W3 p j).
Qed.

(** A system call that only looks. *)
Lemma pure_quiet {A} (m : FC -> result IoErrorKind A) s r s' :
  quiet s -> syscall unharmed (fun s => (m s, s)) s = (r, s') -> quiet s' /\ fc_fs s' = fc_fs s.
Proof.
  intros Hq Er. destruct (syscall_quiet unharmed (fun s => (m s, s)) s Hq) as (sched & Hs & [E1 | [n E1]]);
    rewrite E1 in Er; by injection Er as <- <-.
Qed.

(** The writing of the temporary file and its renaming. *)
Lemma replace_quiet tmp path buf s r s' : ~ dotless tmp -> dotless path -> fs_wf s -> quiet s ->
  (do! _ <- create_dir_all tmp.1;
   do! file <- open_truncate tmp;
   do! _ <- write_all file buf;
   do! _ <- sync_all file;
   do! _ <- rename tmp path;
   invalidate path) s = (r, s') ->
  fs_wf s' /\ (forall q, q <> path -> q <> tmp -> file q s' = file q s)
  /\ (file path s' = file path s /\ is_ok r = false \/ file path s' = Some buf /\ r = Ok tt).
Proof.
  intros Ht Hd Hw Hq. assert (path <> tmp) as Hne by (by intros ->). unfold se_bind at 1. destruct (create_dir_all tmp.1 s) as [r1 s1] eqn:E1.
  apply pure_quiet in E1 as [Hq1 F1]; [| done]. pose proof (same_but_fs tmp s s1 Hw Hq1 F1) as B1.
  assert (forall s', same_but tmp s s' -> forall (r : result IoErrorKind unit), is_ok r = false ->
    fs_wf s' /\ (forall q, q <> path -> q <> tmp -> file q s' = file q s)
    /\ (file path s' = file path s /\ is_ok r = false \/ file path s' = Some buf /\ r = Ok tt)) as Hfail.
  { intros s0 (_ & Hw0 & Hs0) r0 Hr0. split; [done |]. split; [intros q _ Hqt; by apply Hs0 | left; split; [by apply Hs0 | done]]. }
  destruct r1 as [[] | e]; [| intros [= <- <-]; by apply Hfail].
  unfold se_bind at 1. destruct (open_truncate tmp s1) as [r2 s2] eqn:E2.
  destruct (open_truncate_quiet tmp s1 r2 s2 Ht (proj1 (proj2 B1)) Hq1 E2) as [B2 Hi].
  pose proof (same_but_trans _ _ _ _ B1 B2) as B12.
  destruct r2 as [i | e]; [| intros [= <- <-]; by apply Hfail]. specialize (Hi i eq_refl).
  unfold se_bind at 1. destruct (write_all i buf s2) as [r3 s3] eqn:E3.
  destruct (write_all_quiet tmp i buf s2 r3 s3 Ht (proj1 (proj2 B2)) (proj1 B2) Hi E3) as (B3 & Hi3 & Hbuf).
  pose proof (same_but_trans _ _ _ _ B12 B3) as B13.
  destruct r3 as [[] | e]; [| intros [= <- <-]; by apply Hfail]. specialize (Hbuf eq_refl).
  unfold se_bind at 1. destruct (sync_all i s3) as [r4 s4] eqn:E4.
  destruct (sync_all_quiet tmp i s3 r4 s4 (proj1 (proj2 B3)) (proj1 B3) E4) as (B4 & D4 & N4 & Hsync).
  pose proof (same_but_trans _ _ _ _ B13 B4) as B14. pose proof (proj1 B14) as Hq4.
  destruct r4 as [[] | e]; [| intros [= <- <-]; by apply Hfail].
  specialize (Hsync eq_refl). rewrite <- D4 in Hi3.
  assert (file tmp s4 = Some buf) as Hbuf4 by (rewrite <- Hbuf; unfold file, inode; by rewrite D4, N4).
  unfold se_bind at 1. destruct (rename tmp path s4) as [r5 s5] eqn:E5. unfold rename in E5.
  destruct (syscall_quiet unharmed (fun s =>
    match fs_dir (fc_fs s) !! tmp with
    | None => (Err IoNotFound, s)
    | Some i => (Ok tt, set_fs (set_dir (<[path := i]> (delete tmp (fs_dir (fc_fs s)))) (fc_fs s)) s)
    end) s4 Hq4) as (sched & Hs & [E6 | [n E6]]); rewrite E6 in E5.
  2: { injection E5 as <- <-. intros [= <- <-]. apply Hfail; [| done].
       eapply same_but_trans; [exact B14 | by apply same_but_fs; [apply B14 | |]]. }
  cbn [fc_fs set_sched] in E5. rewrite Hi3 in E5. injection E5 as <- <-. intros [= <- <-].
  assert (forall q, file q (set_handles (lru_pop path (fc_handles s4))
    (set_fs (set_dir (<[path := i]> (delete tmp (fs_dir (fc_fs s4)))) (fc_fs s4)) (set_sched sched s4)))
    = if decide (q = path) then Some buf else if decide (q = tmp) then None else file q s4) as Hfile.
  { intros q. unfold file. cbn -[inode]. case_decide as D1; [subst q; rewrite lookup_insert_eq |].
    - unfold file in Hbuf4. rewrite Hi3 in Hbuf4. exact Hbuf4.
    - rewrite lookup_insert_ne by done. case_decide as D2; [subst q; by rewrite lookup_delete_eq |].
      by rewrite lookup_delete_ne. }
  split; [| split].
  - destruct (proj1 (proj2 B14)) as [W1 W2 W3]. constructor; cbn.
    + intros p j. rewrite lookup_insert_Some, lookup_delete_Some. intros [[_ <-] | [_ [_ Hp]]]; by eapply W1.
    + intros p q j. rewrite !lookup_insert_Some, !lookup_delete_Some.
      intros [[<- <-] | [_ [Hp1 Hp]]] [[<- Ej] | [_ [Hne1 Hq']]]; [done | | | by eapply W2].
      * destruct Hne1. by eapply W2.
      * subst j. destruct Hp1. by eapply W2.
    + intros p j Hdp. rewrite lookup_insert_Some, lookup_delete_Some. intros [[_ <-] | [_ [_ Hp]]]; [done | by eapply W3].
  - intros q Hqp Hqt. change (file q (set_handles (lru_pop path (fc_handles s4))
    (set_fs (set_dir (<[path := i]> (delete tmp (fs_dir (fc_fs s4)))) (fc_fs s4)) (set_sched sched s4))) = file q s).
    rewrite Hfile, !decide_False by done. by apply B14.
  - right. split; [| done]. etransitivity; [apply (Hfile path) | by rewrite decide_True].
Qed.

End atomic.

(** ** Theorems *)

Section theorems.
Context {OT : ObjectStoreTypes} {CT : CacheText OT} {LL : LruLib FilePath nat}.

(** C26: A cache file is replaced whole or not at all, also when the machine
    goes down.  With calls failing anywhere (a write half-way through included),
    [atomic_write] leaves every file as it was, its own temporary one apart,
    except that the target may hold exactly the new bytes.  An error is
    reported only when the target is as it was; success is reported when the
    target holds the new bytes, or when the evictor's queue is full, the write
    is skipped and no file is touched.  Afterwards, as before, the cache's files
    are on the disk: a crash that loses all data not synced changes none of
    them, the replaced one included. *)
Theorem atomic_write_atomic has_evictor path buf s r s' :
  fs_wf s -> quiet s -> dotless path -> atomic_write has_evictor path buf s = (r, s') ->
  let tmp := tmp_path_of path (default [] (head (fc_rand s))) in
  (forall q, q <> path -> q <> tmp -> file q s' = file q s)
  /\ match r with
     | Ok _ => file path s' = Some buf
               \/ has_evictor = true /\ head (fc_accept s) = Some false /\ fc_fs s' = fc_fs s
     | Err _ => file path s' = file path s
     end
  /\ fs_wf s' /\ (forall lost q, dotless q -> file q (power_loss lost s') = file q s').
Proof.
  intros Hw Hq Hd Er tmp. unfold atomic_write, se_bind at 1, make_rand_suffix in Er. fold tmp in Er. cbv zeta in Er.
  set (s0 := mkFC _ _ _ _ _ _) in Er. assert (fc_fs s0 = fc_fs s /\ fc_sched s0 = fc_sched s) as [E0 E0'] by done.
  assert (forall s1, fc_fs s1 = fc_fs s -> fc_sched s1 = fc_sched s ->
    fs_wf s1 /\ quiet s1 /\ forall q, file q s1 = file q s) as Hsame.
  { intros s1 F1 F2. split; [destruct Hw; constructor; by rewrite F1 |]. unfold quiet, file. by rewrite F1, F2. }
  assert (fs_wf s' -> forall lost q, dotless q -> file q (power_loss lost s') = file q s') as Hloss
    by (intros Hw' lost q Hdq; by apply file_after_loss).
  unfold se_bind at 1 in Er. destruct (track has_evictor path (AccessWrite (Z.of_nat (length buf))) s0) as [r1 s1] eqn:E1.
  assert (fc_fs s1 = fc_fs s /\ fc_sched s1 = fc_sched s /\ exists b, r1 = Ok b
    /\ (b = false -> has_evictor = true /\ head (fc_accept s) = Some false)) as (F1 & F2 & b & -> & Hb).
  { revert E1. unfold track. destruct has_evictor; [| by intros [= <- <-]; split; [| split; [| exists true]]].
    change (fc_accept s0) with (fc_accept s).
    destruct (fc_accept s) as [| [|] rest]; intros [= <- <-]; (split; [done |]; split; [done |]); by eexists. }
  destruct (Hsame s1 F1 F2) as (Hw1 & Hq1 & Hf1). destruct b; cbn [negb] in Er.
  2: { destruct (Hb eq_refl). injection Er as <- <-. split; [intros q _ _; apply Hf1 |]. split; [by right | auto]. }
  destruct (replace_quiet tmp path buf s1 r s' (tmp_dotted _ _) Hd Hw1 Hq1 Er) as (Hw' & H1 & H2). split.
  { intros q Hqp Hqt. by rewrite H1, Hf1. }
  split; [| auto]. destruct H2 as [[H2 H3] | [H2 ->]]; [| by left]. destruct r; [done |]. by rewrite H2, Hf1.
Qed.

(** A handle is used only while its file is the one at its path.  Left
    alone, [get_or_open] returns the file that a fresh [open] of the path would
    return, and none when there is none, whatever stale handles the cache
    holds. *)
Theorem handle_cache_exact {truth : OPath -> Object} root_folder P path s :
  fc_ok (truth := truth) root_folder P s -> fc_sched s = [] ->
  (get_or_open path s).1 = Ok (fs_dir (fc_fs s) !! path).
Proof.
  intros Hs Hq.
  assert (forall s0, fc_fs s0 = fc_fs s -> fc_sched s0 = [] ->
    (open_and_cache path s0).1 = Ok (fs_dir (fc_fs s) !! path)) as Hopen.
  { intros s0 F1 F2. unfold open_and_cache, file_open, syscall. rewrite F2, F1.
    by destruct (fs_dir (fc_fs s) !! path). }
  assert (forall i, (0 <? nlink i (fc_fs s))%nat = true <-> exists p, fs_dir (fc_fs s) !! p = Some i) as Hlink.
  { intros i. rewrite Nat.ltb_lt. unfold nlink. split.
    - intros Hp. destruct (decide (filter (fun pi : FilePath * nat => pi.2 = i) (fs_dir (fc_fs s)) = ∅)) as [E1 | Hne].
      { rewrite E1, map_size_empty in Hp. lia. }
      apply map_choose in Hne as (p & j & [Hp' E1]%map_lookup_filter_Some). cbn in E1. subst j. by exists p.
    - intros [p Hp]. apply Nat.neq_0_lt_0. intros E1. apply map_size_empty_inv in E1.
      assert (filter (fun pi : FilePath * nat => pi.2 = i) (fs_dir (fc_fs s)) !! p = Some i) as E2
        by (by apply map_lookup_filter_Some). by rewrite E1 in E2. }
  unfold get_or_open, se_bind at 1, cache_get. destruct (lru_get_spec path (fc_handles s)) as [E1 E2].
  destruct (lru_get path (fc_handles s)) as [[i |] l]; cbn in E1, E2; [| by apply Hopen].
  symmetry in E1. destruct (fo_handles _ _ s Hs path i E1) as (_ & _ & _ & Hl).
  unfold se_bind at 1, is_valid, file_nlink, syscall. cbn [fc_sched set_handles]. rewrite Hq.
  cbn [fc_fs set_handles]. destruct (0 <? nlink i (fc_fs s))%nat eqn:En.
  - apply Hlink in En as [p Hp]. destruct Hl as [Hl | Hl]; [by rewrite Hl | by destruct (Hl p)].
  - unfold se_bind at 1, cache_pop. by apply Hopen.
Qed.

(** A head read back is the head that was saved.  Given a timestamp text
    that parses back, the metadata survive as they are, and the attributes
    exactly when each of them has a name of its own: an attribute without a
    name is left out, and a metadata key spelled like a standard attribute
    comes back as that attribute. *)
Theorem local_head_roundtrip m attrs :
  parse_datetime (to_rfc3339 (om_last_modified m)) = Some (om_last_modified m) ->
  head_meta (head_from (m, attrs)) = m
  /\ (head_attributes (head_from (m, attrs)) = attrs <-> all_plain attrs).
Proof.
  intros Hd. split; [| split; [apply round_plain | apply attributes_round]].
  unfold head_meta, head_from. cbn. rewrite opath_round, Hd. by destruct m.
Qed.

(** Files of the cache do not collide: for one part size, different parts
    of any objects have different paths, no part's path is a head's, heads of
    different objects differ, and a temporary name is none of them. *)
Theorem cache_paths_distinct root_folder size loc loc' n n' suffix path :
  0 <= n -> 0 <= n' ->
  (make_part_path root_folder loc n size = make_part_path root_folder loc' n' size -> loc = loc' /\ n = n')
  /\ make_part_path root_folder loc n size <> make_head_path root_folder loc'
  /\ (make_head_path root_folder loc = make_head_path root_folder loc' -> loc = loc')
  /\ tmp_path_of path suffix <> make_part_path root_folder loc n size
  /\ tmp_path_of path suffix <> make_head_path root_folder loc.
Proof.
  intros Hn Hn'. split; [by apply part_path_inj |]. split; [apply part_not_head |]. split; [apply head_path_inj |].
  split; intros E1; apply (tmp_dotted path suffix); rewrite E1; [apply part_dotless | apply head_dotless].
Qed.

End theorems.

(** ** A disk to run *)

Module SampleDisk.

Definition sample_head : LocalCacheHead :=
  mkLocalCacheHead (bs "ap") (bs "1970") 2056 (Some (bs "p")) None {[CONTENT_TYPE := bs "x"]}.

#[export] Instance local_cache_head_eq_dec : EqDecision LocalCacheHead.
Proof. solve_decision. Defined.

(** A JSON library that knows one document. *)
Definition to_vec (h : LocalCacheHead) : option bytes := if decide (h = sample_head) then Some (bs "{}") else None.
Definition from_str (b : bytes) : option LocalCacheHead := if decide (b = bs "{}") then Some sample_head else None.

Lemma json_ok h b : to_vec h = Some b -> utf8_valid b = true /\ from_str b = Some h.
Proof. unfold to_vec, from_str. case_decide as E1; [| done]. intros [= <-]. by subst h. Qed.

#[export] Instance text : CacheText MemStore.types := {
  opath_to_string p := x61 :: p;
  opath_from := tail;
  to_rfc3339 _ := bs "1970";
  parse_datetime _ := Some tt;
  json_to_vec := to_vec;
  json_from_str := from_str;
  opath_round _ := eq_refl;
  opath_relative p := ltac:(discriminate);
  json_round := json_ok
}.

(** A cache of two handles: the newest first. *)
Abbreviation Two := (list (FilePath * nat)).

Definition push (k : FilePath) (v : nat) (l : Two) : Two := (k, v) :: take 1 (filter (fun kv => kv.1 <> k) l).

Lemma pop_entries k (l : Two) :
  (list_to_map (filter (fun kv => kv.1 <> k) l) : gmap FilePath nat) = delete k (list_to_map l).
Proof.
  apply map_eq. intros p. induction l as [| [k2 v2] l IH].
  { destruct (decide (k = p)) as [-> |]; [by rewrite lookup_delete_eq | by rewrite lookup_delete_ne]. }
  rewrite filter_cons. case_decide as Hk; cbn in *.
  - destruct (decide (p = k2)) as [-> | Hne].
    + by rewrite lookup_insert_eq, lookup_delete_ne, lookup_insert_eq.
    + rewrite lookup_insert_ne by done. rewrite IH. destruct (decide (p = k)) as [-> |].
      * by rewrite !lookup_delete_eq.
      * by rewrite !lookup_delete_ne, lookup_insert_ne.
  - subst k2. rewrite IH. destruct (decide (k = p)) as [-> |].
    + by rewrite !lookup_delete_eq.
    + by rewrite !lookup_delete_ne, lookup_insert_ne.
Qed.

Lemma take_entries (l : Two) : (list_to_map (take 1 l) : gmap FilePath nat) ⊆ list_to_map l.
Proof. destruct l as [| [k v] l]; [done |]. cbn. apply insert_mono, map_empty_subseteq. Qed.

Lemma push_subseteq k v (l : Two) :
  (list_to_map (push k v l) : gmap FilePath nat) ⊆ <[k := v]> (list_to_map l).
Proof.
  unfold push. cbn. apply insert_mono. etransitivity; [apply take_entries |].
  rewrite pop_entries. apply delete_subseteq.
Qed.

#[export, refine] Instance lru : LruLib FilePath nat := {
  Lru := Two;
  lru_entries l := list_to_map l;
  lru_new := [];
  lru_get k l := ((list_to_map l : gmap FilePath nat) !! k, l);
  lru_pop k l := filter (fun kv => kv.1 <> k) l;
  lru_push := push
}.
Proof.
  - done.
  - done.
  - intros k l. apply pop_entries.
  - apply push_subseteq.
Defined.

Lemma plain_sample loc : all_plain (ob_attributes (MemStore.truth loc)).
Proof. intros a v. cbn. rewrite lookup_singleton_Some. by intros [<- _]. Qed.

End SampleDisk.

Abbreviation Sample_fc := (FC (LL := SampleDisk.lru)).
Abbreviation Sample_node := (PC (OT := MemStore.types) (U := nat) (C := Sample_fc)).

Definition sample_fc (sched : list Tick) : Sample_fc := mkFC (LL := SampleDisk.lru) (mkFs ∅ [] ∅) [] sched [] [] [].

Definition sample_storage : LocalCache (OT := MemStore.types) Sample_fc MemStore.error MemStore.truth :=
  FsCacheStorage (CT := SampleDisk.text) (LL := SampleDisk.lru) SampleDisk.plain_sample
    (fun _ => MemStore.ShortRead) (bs "/c") true.

Definition sample_node (sched : list Tick) : Sample_node := mkPC (OT := MemStore.types) 0%nat (sample_fc sched) [] [].

Definition disk_get (range : option GetRange) (s : Sample_node) :=
  get_opts (UP := MemStore.up) (LC := sample_storage) 1024 (bs "p") (mkGetOptions (OT := MemStore.types) range false tt) s.

Definition disk_read (range : option GetRange) (s : Sample_node) : option (list Z * nat * Sample_node) :=
  match disk_get range s with
  | (Ok g, s1) => match drain (gr_payload g) s1 with
                  | (Ok b, s2) => Some (u8 <$> b, pc_upstream s2, s2)
                  | _ => None
                  end
  | _ => None
  end.

(** The second read comes from the files the first one left. *)
Example files_serve_second_read :
  match disk_read (Some (Bounded (mkRange 1022 2050))) (sample_node []) with
  | Some (b, n, s) =>
      length b = 1028%nat /\ n = 1%nat /\ size (fs_dir (fc_fs (pc_storage s))) = 4%nat
      /\ match disk_read (Some (Offset 2054)) s with
         | Some (b, n, s) => b = [3; 3] /\ n = 1%nat /\ head (pc_access s) = Some (true, 2)
         | None => False
         end
  | None => False
  end.
Proof. vm_compute. repeat split. Qed.

(** The folder loses a file and a write fails half-way while the requests run. *)
Definition sample_sched : list Tick :=
  [mkTick [] None; mkTick [] None; mkTick [] None; mkTick [] (Some 3%nat); mkTick [ORemove (bs "/c/ap", bs "_head")] None;
   mkTick [OForget (bs "/c/ap", bs "_head")] None].

Lemma sample_fresh :
  fresh (truth := MemStore.truth) (CT := SampleDisk.text) (LL := SampleDisk.lru) (bs "/c") 1024 (sample_node sample_sched).
Proof. constructor; [done | done | | by constructor]. repeat constructor. Qed.

Lemma sample_fits_all loc : ob_size (MemStore.truth loc) + 1024 < 2 ^ 64.
Proof. change (ob_size (MemStore.truth loc)) with (ob_size (MemStore.truth [x70])). apply sample_fits. Qed.

Abbreviation Sample_request := (CacheOp (OT := MemStore.types)).
Definition sample_requests : list Sample_request :=
  [OpGet (OT := MemStore.types) (bs "p") (mkGetOptions (OT := MemStore.types) None false tt);
   OpDelete (OT := MemStore.types) [bs "p"];
   OpCrash (OT := MemStore.types) (fun _ => bs "lost");
   OpGet (OT := MemStore.types) (bs "p") (mkGetOptions (OT := MemStore.types) (Some (Offset 1030)) false tt)].

Definition sample_served : Sample_node :=
  foldl (fun s op => run_op (UP := MemStore.up) (CT := SampleDisk.text) (LL := SampleDisk.lru)
           SampleDisk.plain_sample (fun _ => MemStore.ShortRead) (bs "/c") true 1024 op s)
    (sample_node sample_sched) sample_requests.

Lemma disk_cache_transparent_witness :
  exists g s1 b s2,
    disk_get (Some (Bounded (mkRange 2040 2050))) sample_served = (Ok g, s1)
    /\ drain (gr_payload g) s1 = (Ok b, s2)
    /\ b = slice MemStore.payload (gr_range g).
Proof.
  destruct (disk_get (Some (Bounded (mkRange 2040 2050))) sample_served) as [r s1] eqn:Er.
  assert (is_ok (disk_get (Some (Bounded (mkRange 2040 2050))) sample_served).1 = true) as Hok by (by vm_compute).
  rewrite Er in Hok. destruct r as [g | e]; [| discriminate Hok].
  destruct (drain (gr_payload g) s1) as [r2 s2] eqn:Ed.
  assert (is_ok (match disk_get (Some (Bounded (mkRange 2040 2050))) sample_served with
                 | (Ok g, s) => (drain (gr_payload g) s).1 | (Err e, _) => Err e end) = true) as Hok2 by (by vm_compute).
  rewrite Er, Ed in Hok2. destruct r2 as [b | e]; [| discriminate Hok2].
  exists g, s1, b, s2. split; [reflexivity |]. split; [exact Ed |].
  refine (proj2 (proj2 (disk_cache_transparent (UP := MemStore.up) (CT := SampleDisk.text) (LL := SampleDisk.lru)
    SampleDisk.plain_sample (fun _ => MemStore.ShortRead) (bs "/c") true 1024 (proj1 sample_fits) sample_fits_all
    sample_requests (sample_node sample_sched) (bs "p") (mkGetOptions (OT := MemStore.types) (Some (Bounded (mkRange 2040 2050))) false tt)
    g s1 b s2 sample_fresh _ _ eq_refl Er Ed))).
  - repeat constructor; cbn; lia.
  - cbn. lia.
Defined.

(** A file that is there, and a write over it that fails after three bytes. *)
Definition sample_path : FilePath := (bs "/c", bs "_head").
Definition sample_file : Sample_fc :=
  mkFC (LL := SampleDisk.lru) (mkFs {[sample_path := 0%nat]} [bs "old"] ∅) [] [mkTick [] None; mkTick [] None; mkTick [] (Some 3%nat)] [] [] [].

Lemma sample_file_wf : fs_wf sample_file.
Proof.
  constructor.
  - intros p i Hp. apply (lookup_singleton_Some (M := gmap FilePath) sample_path p 0%nat i) in Hp as [_ <-]. cbn. lia.
  - intros p q i Hp Hq. apply (lookup_singleton_Some (M := gmap FilePath) sample_path p 0%nat i) in Hp as [<- _].
    by apply (lookup_singleton_Some (M := gmap FilePath) sample_path q 0%nat i) in Hq as [<- _].
  - intros p i _ _. apply not_elem_of_empty.
Qed.

Lemma atomic_write_atomic_witness :
  exists e s', atomic_write (LL := SampleDisk.lru) true sample_path (bs "newer") sample_file = (Err e, s')
     /\ file (LL := SampleDisk.lru) sample_path s' = Some (bs "old")
     /\ forall lost, file (LL := SampleDisk.lru) sample_path (power_loss lost s') = file sample_path s'.
Proof.
  destruct (atomic_write (LL := SampleDisk.lru) true sample_path (bs "newer") sample_file) as [r s'] eqn:Er.
  assert (is_ok (atomic_write (LL := SampleDisk.lru) true sample_path (bs "newer") sample_file).1 = false) as Hok by (by vm_compute).
  rewrite Er in Hok. destruct r as [[] | e]; [discriminate Hok |].
  assert (dotless sample_path) as Hd by (by apply literal_dotless).
  destruct (atomic_write_atomic (LL := SampleDisk.lru) true sample_path (bs "newer") sample_file (Err e) s' sample_file_wf
    ltac:(repeat constructor) Hd Er) as (_ & Hf & _ & Hl).
  exists e, s'. split; [reflexivity |]. split; [rewrite Hf; by vm_compute |]. intros lost. exact (Hl lost _ Hd).
Defined.

Lemma sample_fc_ok : fc_ok (OT := MemStore.types) (truth := MemStore.truth) (CT := SampleDisk.text) (LL := SampleDisk.lru) (bs "/c") 1024 (sample_fc []).
Proof. constructor; [done | done | done | by constructor | done]. Qed.

Definition sample_saved : Sample_fc :=
  (save_part (OT := MemStore.types) (CT := SampleDisk.text) (LL := SampleDisk.lru) (bs "/c") true (bs "p") 1024 2
     (part 1024 (MemStore.truth (bs "p")) 2) (sample_fc [])).2.

Lemma sample_saved_ok :
  fc_ok (OT := MemStore.types) (truth := MemStore.truth) (CT := SampleDisk.text) (LL := SampleDisk.lru) (bs "/c") 1024 sample_saved.
Proof.
  unfold sample_saved. destruct (save_part _ _ _ _ _ _ _) as [r s'] eqn:Er.
  exact (proj1 (hoare_save_part (OT := MemStore.types) (truth := MemStore.truth) (bs "/c") true 1024 (bs "p") 2
    _ ltac:(lia) eq_refl _ r s' sample_fc_ok I Er)).
Qed.

Lemma handle_cache_exact_witness :
  exists s, fc_sched s = [] /\ (get_or_open (LL := SampleDisk.lru) (bs "/c/ap", bs "_part1kb-000000002") s).1 = Ok (Some 0%nat).
Proof.
  exists sample_saved. split; [by vm_compute |].
  refine (eq_trans (handle_cache_exact (CT := SampleDisk.text) (LL := SampleDisk.lru) (bs "/c") 1024 _ _ sample_saved_ok _) _);
    by vm_compute.
Defined.

Lemma local_head_roundtrip_witness :
  let m := mkObjectMeta (OT := MemStore.types) (bs "p") tt 2056 None None in
  head_meta (CT := SampleDisk.text) (head_from (CT := SampleDisk.text) (m, {[CacheControl := bs "x"]})) = m.
Proof. exact (proj1 (local_head_roundtrip (CT := SampleDisk.text) (mkObjectMeta (OT := MemStore.types) (bs "p") tt 2056 None None) {[CacheControl := bs "x"]} eq_refl)). Defined.

Lemma cache_paths_distinct_witness :
  0 <= 3 /\ make_part_path (CT := SampleDisk.text) (bs "/c") (bs "p") 3 1024 <> make_head_path (CT := SampleDisk.text) (bs "/c") (bs "q").
Proof.
  split; [lia |].
  exact (proj1 (proj2 (cache_paths_distinct (CT := SampleDisk.text) (bs "/c") 1024 (bs "p") (bs "q") 3 3 [] sample_path ltac:(lia) ltac:(lia)))).
Defined.
