(* ===== verification/Evictor.v ===== *)
(** * The part cache's evictor

    [src/storage/part_cache/storage_fs.rs], [CacheState] and
    [FsCacheEvictorInner].  The evictor tracks the cache's files, how large
    they are and when they were last used, and removes files when their sizes
    exceed the budget: of two tracked files picked at random the one used less
    recently goes, until nine tenths of the budget are reached.

    Its handlers run one at a time under [track_lock].  What the disk answers
    to a removal and what the random generator draws come from outside:
    [ev_disk] and the stream [rng] list them. *)

From S2P Require Import Prelude Bytes PartCache FsCache.
From stdpp Require Import gmap.
From Stdlib Require Import Lia SpecFloat.
#[local] Open Scope Z_scope.

Section evictor.
Context {Path : Type} `{Countable Path}.

(** ** The tracked files *)

Record CacheEntry : Type := mkCacheEntry { access_time : Z; size_bytes : Z; key_index : nat }.

Record CacheState : Type := mkCacheState { entries : gmap Path CacheEntry; keys : list Path }.

(** [Vec::swap_remove]: the last element takes the removed one's place; out of
    range it panics. *)
Definition swap_remove {A} (i : nat) (l : list A) : option (list A) :=
  match last l with
  | Some x => if decide (i < length l)%nat then Some (take (length l - 1) (<[i := x]> l)) else None
  | None => None
  end.

(** [CacheState::remove_entry]; [None] is the panic. *)
Definition remove_entry (path : Path) (s : CacheState) : option (option CacheEntry * CacheState) :=
  match entries s !! path with
  | None => Some (None, s)
  | Some removed =>
      let es := delete path (entries s) in
      match swap_remove (key_index removed) (keys s) with
      | None => None
      | Some ks =>
          let es := match ks !! key_index removed with
                    | Some swapped_key =>
                        match es !! swapped_key with
                        | Some e => <[swapped_key := mkCacheEntry (access_time e) (size_bytes e) (key_index removed)]> es
                        | None => es
                        end
                    | None => es
                    end in
          Some (Some removed, mkCacheState es ks)
      end
  end.

(** ** Choosing what to evict *)

(** The draws of [rng.random_range(0..n)], one after the other. *)
Definition random_range (rng : nat -> nat) (pos n : nat) : nat := rng pos mod n.

(** The [loop] of [pick_random_available_index]; [None] means the fuel ran out
    before a draw was free. *)
Fixpoint draw_available (fuel : nat) (rng : nat -> nat) (pos n : nat) (picked : gset nat) (exclude_idx : option nat) :
    option (nat * nat) :=
  match fuel with
  | O => None
  | S fuel =>
      let idx := random_range rng pos n in
      if bool_decide (idx ∉ picked) && negb (bool_decide (Some idx = exclude_idx)) then Some (idx, S pos)
      else draw_available fuel rng (S pos) n picked exclude_idx
  end.

Definition pick_random_available_index (fuel : nat) (rng : nat -> nat) (pos : nat) (keys : list Path)
    (picked : gset nat) (exclude_idx : option nat) : option (option nat * nat) :=
  let excluded_not_picked :=
    match exclude_idx with Some idx => negb (bool_decide (idx ∈ picked)) | None => false end in
  let available_count := (length keys - size picked - Nat.b2n excluded_not_picked)%nat in
  if (available_count =? 0)%nat then Some (None, pos)
  else match draw_available fuel rng pos (length keys) picked exclude_idx with
       | Some (idx, pos) => Some (Some idx, pos)
       | None => None
       end.

(** The [while] of [pick_evict_targets].  Each round picks one index more, so
    [rounds] above the number of keys never runs out. *)
Fixpoint pick_loop (rounds fuel : nat) (rng : nat -> nat) (pos : nat) (s : CacheState) (target_size simulated_size : Z)
    (picked_indices : gset nat) (targets : list (Path * Z)) : option (list (Path * Z) * nat) :=
  match rounds with
  | O => None
  | S rounds =>
      if negb (target_size <? simulated_size) then Some (targets, pos)
      else if (length (keys s) - size picked_indices <? 2)%nat then Some (targets, pos)
      else
        match pick_random_available_index fuel rng pos (keys s) picked_indices None with
        | None => None
        | Some (None, pos) => Some (targets, pos)
        | Some (Some idx0, pos) =>
            match pick_random_available_index fuel rng pos (keys s) picked_indices (Some idx0) with
            | None => None
            | Some (None, pos) => Some (targets, pos)
            | Some (Some idx1, pos) =>
                match keys s !! idx0, keys s !! idx1 with
                | Some path0, Some path1 =>
                    match entries s !! path0, entries s !! path1 with
                    | Some entry0, Some entry1 =>
                        let '(chosen_idx, chosen_path, chosen_bytes) :=
                          if access_time entry0 <=? access_time entry1 then (idx0, path0, size_bytes entry0)
                          else (idx1, path1, size_bytes entry1) in
                        pick_loop rounds fuel rng pos s target_size (saturating_sub simulated_size chosen_bytes)
                          ({[chosen_idx]} ∪ picked_indices) (targets ++ [(chosen_path, chosen_bytes)])
                    | _, _ => Some (targets, pos)
                    end
                | _, _ => None
                end
            end
        end
  end.

Definition pick_evict_targets (fuel : nat) (rng : nat -> nat) (pos : nat) (s : CacheState) (cache_size target_size : Z) :
    option (list (Path * Z) * nat) :=
  if (length (keys s) <? 2)%nat then Some ([], pos)
  else pick_loop (S (length (keys s))) fuel rng pos s target_size cache_size ∅ [].

(** ** The evictor *)

(** What [remove_file] answers. *)
Inductive RemoveResult : Type := Removed | Gone | RemoveFailed.

Record Evictor : Type := mkEvictor {
  cache_state : CacheState;
  cache_size_bytes : Z;
  max_cache_size_bytes : Z;
  ev_pos : nat;
  ev_disk : list RemoveResult;
  ev_removed : list Path
}.

Definition new_evictor (max : Z) (disk : list RemoveResult) : Evictor :=
  mkEvictor (mkCacheState ∅ []) 0 max 0 disk [].

Definition set_cache (s : CacheState) (n : Z) (ev : Evictor) : Evictor :=
  mkEvictor s n (max_cache_size_bytes ev) (ev_pos ev) (ev_disk ev) (ev_removed ev).

(** The removals, and the targets whose files are gone afterwards. *)
Fixpoint remove_targets (targets : list (Path * Z)) (ev : Evictor) : list (Path * Z) * Evictor :=
  match targets with
  | [] => ([], ev)
  | (target, target_bytes) :: rest =>
      let r := default Removed (head (ev_disk ev)) in
      let ev := mkEvictor (cache_state ev) (cache_size_bytes ev) (max_cache_size_bytes ev) (ev_pos ev)
                  (tail (ev_disk ev)) (match r with Removed => target :: ev_removed ev | _ => ev_removed ev end) in
      let '(deleted, ev) := remove_targets rest ev in
      (match r with Removed | Gone => (target, target_bytes) :: deleted | RemoveFailed => deleted end, ev)
  end.

(** The deleted targets leave the state; [fetch_sub] wraps. *)
Fixpoint untrack (targets : list (Path * Z)) (total_bytes : Z) (ev : Evictor) : option (Z * Evictor) :=
  match targets with
  | [] => Some (total_bytes, ev)
  | (target, target_bytes) :: rest =>
      match remove_entry target (cache_state ev) with
      | None => None
      | Some (Some _, s) =>
          untrack rest (total_bytes + target_bytes) (set_cache s (wrap 64 (cache_size_bytes ev - target_bytes)) ev)
      | Some (None, s) => untrack rest total_bytes (set_cache s (cache_size_bytes ev) ev)
      end
  end.

Definition evict_to_target_size (fuel : nat) (rng : nat -> nat) (target_size : Z) (ev : Evictor) : option (Z * Evictor) :=
  match pick_evict_targets fuel rng (ev_pos ev) (cache_state ev) (cache_size_bytes ev) target_size with
  | None => None
  | Some (picked, pos) =>
      let ev := mkEvictor (cache_state ev) (cache_size_bytes ev) (max_cache_size_bytes ev) pos (ev_disk ev) (ev_removed ev) in
      let '(deleted, ev) := remove_targets picked ev in
      untrack deleted 0 ev
  end.

(** [((max as f64) * 0.9) as u64]: both roundings, and the saturating cast. *)
Definition f64_of (z : Z) : spec_float := binary_normalize 53 1024 z 0 false.
Definition nine_tenths : spec_float := S754_finite false 8106479329266893 (-53).
Definition f64_as_u64 (f : spec_float) : Z :=
  match f with
  | S754_finite false m e => Z.min u64_max (if 0 <=? e then Zpos m * 2 ^ e else Zpos m / 2 ^ (- e))
  | S754_infinity false => u64_max
  | _ => 0
  end.
Definition target_of (max : Z) : Z := f64_as_u64 (SFmul 53 1024 (f64_of max) nine_tenths).

Definition track_entry_accessed (fuel : nat) (rng : nat -> nat) (path : Path) (n : Z) (accessed_time : Z) (evict : bool)
    (ev : Evictor) : option (Z * Evictor) :=
  let s := cache_state ev in
  let ev :=
    match entries s !! path with
    | Some entry =>
        set_cache (mkCacheState (<[path := mkCacheEntry accessed_time (size_bytes entry) (key_index entry)]> (entries s)) (keys s))
          (cache_size_bytes ev) ev
    | None =>
        set_cache (mkCacheState (<[path := mkCacheEntry accessed_time n (length (keys s))]> (entries s)) (keys s ++ [path]))
          (wrap 64 (cache_size_bytes ev + n)) ev
    end in
  if cache_size_bytes ev <=? max_cache_size_bytes ev then Some (0, ev)
  else if evict && (max_cache_size_bytes ev <? cache_size_bytes ev)
  then evict_to_target_size fuel rng (target_of (max_cache_size_bytes ev)) ev
  else Some (0, ev).

(** [delete_entry]: [deleted_entries] are the files [delete_cache_entry] has
    removed. *)
Fixpoint untrack_paths (paths : list Path) (ev : Evictor) : option Evictor :=
  match paths with
  | [] => Some ev
  | p :: rest =>
      match remove_entry p (cache_state ev) with
      | None => None
      | Some (Some removed, s) => untrack_paths rest (set_cache s (wrap 64 (cache_size_bytes ev - size_bytes removed)) ev)
      | Some (None, s) => untrack_paths rest (set_cache s (cache_size_bytes ev) ev)
      end
  end.

Definition delete_entry (deleted_entries : list Path) (ev : Evictor) : option Evictor :=
  match deleted_entries with
  | [] => Some ev
  | _ => untrack_paths deleted_entries ev
  end.

(** [scan_entries]: the files found, with what [metadata] tells of those that
    are still there: their lengths and access times. *)
Fixpoint scan_entries (fuel : nat) (rng : nat -> nat) (found : list (Path * option (Z * Z))) (evict : bool) (ev : Evictor) :
    option Evictor :=
  match found with
  | [] => Some ev
  | (path, Some (len, atime)) :: rest =>
      match track_entry_accessed fuel rng path len atime evict ev with
      | Some (_, ev) => scan_entries fuel rng rest evict ev
      | None => None
      end
  | (_, None) :: rest => scan_entries fuel rng rest evict ev
  end.

(** What reaches the evictor: the queue's accesses, with the time they are
    handled at and what [delete_cache_entry] has deleted, and the scans. *)
Inductive EvictorOp : Type :=
  | Access (path : Path) (access : EntryAccess) (now : Z) (deleted : list Path)
  | Rescan (found : list (Path * option (Z * Z))).

Definition background_evict (fuel : nat) (rng : nat -> nat) (path : Path) (access : EntryAccess) (now : Z)
    (deleted : list Path) (ev : Evictor) : option Evictor :=
  match access with
  | AccessRead n => snd <$> track_entry_accessed fuel rng path n now false ev
  | AccessWrite n => snd <$> track_entry_accessed fuel rng path n now true ev
  | AccessDelete => delete_entry deleted ev
  end.

Definition evictor_op (fuel : nat) (rng : nat -> nat) (op : EvictorOp) (ev : Evictor) : option Evictor :=
  match op with
  | Access path access now deleted => background_evict fuel rng path access now deleted ev
  | Rescan found => scan_entries fuel rng found true ev
  end.

Fixpoint evictor_run (fuel : nat) (rng : nat -> nat) (ops : list EvictorOp) (ev : Evictor) : option Evictor :=
  match ops with
  | [] => Some ev
  | op :: ops => match evictor_op fuel rng op ev with Some ev => evictor_run fuel rng ops ev | None => None end
  end.

(** ** The index and the map agree *)

Definition wf (s : CacheState) : Prop :=
  forall i p, keys s !! i = Some p <-> exists e, entries s !! p = Some e /\ key_index e = i.

Definition info (e : CacheEntry) : Z * Z := (access_time e, size_bytes e).

(** What the state says of the files: when each was last used and how large it
    is. *)
Definition tracked (s : CacheState) : gmap Path (Z * Z) := info <$> entries s.

Lemma wf_nodup s : wf s -> NoDup (keys s).
Proof.
  intros Hw. apply NoDup_alt. intros i j p Hi Hj.
  apply Hw in Hi as (e & He & <-). apply Hw in Hj as (e' & He' & <-). congruence.
Qed.

Lemma wf_keys s p : wf s -> p ∈ keys s <-> is_Some (entries s !! p).
Proof.
  intros Hw. rewrite list_elem_of_lookup. split.
  - intros [i Hi]. apply Hw in Hi as (e & He & _). by exists e.
  - intros [e He]. exists (key_index e). apply Hw. by exists e.
Qed.

Lemma wf_at s p e : wf s -> entries s !! p = Some e -> keys s !! key_index e = Some p.
Proof. intros Hw He. apply Hw. by exists e. Qed.

Lemma wf_length s : wf s -> length (keys s) = size (tracked s).
Proof.
  intros Hw. unfold tracked. rewrite map_size_fmap, <- size_dom.
  rewrite <- (size_list_to_set (C := gset Path)) by by apply wf_nodup.
  f_equal. apply set_eq. intros p. rewrite elem_of_list_to_set, wf_keys by done. by rewrite elem_of_dom.
Qed.

Lemma tracked_lookup s p : tracked s !! p = info <$> entries s !! p.
Proof. apply lookup_fmap. Qed.

Lemma swap_remove_lookup {A} (i : nat) (l : list A) x :
  last l = Some x -> (i < length l)%nat ->
  exists l', swap_remove i l = Some l' /\
    forall j, l' !! j = if decide (S j < length l)%nat then (if decide (j = i) then Some x else l !! j) else None.
Proof.
  intros Hx Hi. unfold swap_remove. rewrite Hx, decide_True by done. eexists. split; [done|].
  intros j. destruct (decide (S j < length l)%nat) as [Hj|Hj].
  - rewrite lookup_take_lt by lia. destruct (decide (j = i)) as [->|Hne].
    + rewrite list_lookup_insert_eq by done. done.
    + by rewrite list_lookup_insert_ne.
  - apply lookup_take_ge. lia.
Qed.

Lemma wf_inj s p q e1 e2 :
  wf s -> entries s !! p = Some e1 -> entries s !! q = Some e2 -> key_index e1 = key_index e2 -> p = q.
Proof. intros Hw H1 H2 Heq. apply wf_at in H1, H2; [|done..]. rewrite Heq in H1. congruence. Qed.

Lemma wf_index s p e : wf s -> entries s !! p = Some e -> (key_index e < length (keys s))%nat.
Proof. intros Hw He. by eapply lookup_lt_Some, wf_at. Qed.

(** The removed entry was the last key. *)
Lemma wf_drop_last s ks path e :
  wf s -> entries s !! path = Some e -> ~ (S (key_index e) < length (keys s))%nat ->
  (forall j, ks !! j = if decide (S j < length (keys s))%nat
                       then (if decide (j = key_index e) then last (keys s) else keys s !! j) else None) ->
  wf (mkCacheState (delete path (entries s)) ks).
Proof.
  intros Hw He Hlast Hks j p. cbn [entries keys]. rewrite Hks.
  destruct (decide (S j < length (keys s))%nat) as [Hj|Hj].
  - destruct (decide (j = key_index e)) as [->|Hji]; [lia|]. rewrite (Hw j p). split.
    + intros (e' & He' & <-). exists e'. split; [|done]. rewrite lookup_delete_ne; [done|]. congruence.
    + intros (e' & He' & Hi'). apply lookup_delete_Some in He' as [_ He']. by exists e'.
  - split; [done|]. intros (e' & He' & Hi'). apply lookup_delete_Some in He' as [Hpp He'].
    destruct Hpp. apply (wf_inj s path p e e'); [done..|].
    pose proof (wf_index s p e' Hw He'). pose proof (wf_index s path e Hw He). lia.
Qed.

(** The last key took the removed one's place. *)
Lemma wf_drop_swapped s ks path e x ex :
  wf s -> entries s !! path = Some e -> (S (key_index e) < length (keys s))%nat ->
  entries s !! x = Some ex -> S (key_index ex) = length (keys s) ->
  (forall j, ks !! j = if decide (S j < length (keys s))%nat
                       then (if decide (j = key_index e) then Some x else keys s !! j) else None) ->
  wf (mkCacheState (<[x := mkCacheEntry (access_time ex) (size_bytes ex) (key_index e)]> (delete path (entries s))) ks).
Proof.
  intros Hw He Hlt Hex Hix Hks.
  assert (Hold : forall p e', x <> p -> <[x := mkCacheEntry (access_time ex) (size_bytes ex) (key_index e)]>
      (delete path (entries s)) !! p = Some e' <-> path <> p /\ entries s !! p = Some e').
  { intros p e' Hxp. rewrite lookup_insert_ne by done. apply lookup_delete_Some. }
  intros j p. cbn [entries keys]. rewrite Hks. destruct (decide (x = p)) as [<-|Hxp].
  - rewrite lookup_insert_eq. destruct (decide (S j < length (keys s))%nat) as [Hj|Hj].
    + destruct (decide (j = key_index e)) as [->|Hji].
      * split; [intros _; by eexists|done].
      * rewrite (Hw j x), Hex. split; intros (e' & [= <-] & Hi'); cbn in Hi'; lia.
    + split; [done|]. intros (e' & [= <-] & Hi'). cbn in Hi'. lia.
  - assert (Hold' : (exists e', <[x := mkCacheEntry (access_time ex) (size_bytes ex) (key_index e)]> (delete path (entries s)) !! p = Some e'
        /\ key_index e' = j) <-> exists e', (path <> p /\ entries s !! p = Some e') /\ key_index e' = j).
    { split; intros (e' & He' & Hi'); exists e'; (split; [by apply (Hold p e' Hxp)|done]). }
    rewrite Hold'. destruct (decide (S j < length (keys s))%nat) as [Hj|Hj].
    + destruct (decide (j = key_index e)) as [->|Hji].
      * split; [congruence|]. intros (e' & [Hpp He'] & Hi'). destruct Hpp. by apply (wf_inj s path p e e').
      * rewrite (Hw j p). split; [|by intros (e' & [_ He'] & Hi'); exists e'].
        intros (e' & He' & <-). exists e'. split; [split|]; [congruence|done..].
    + split; [done|]. intros (e' & [_ He'] & Hi'). pose proof (wf_index s p e' Hw He').
      destruct Hxp. apply (wf_inj s x p ex e'); [done..|lia].
Qed.

(** [remove_entry] does not panic, hands back the entry, forgets it and nothing
    else, and mends the index. *)
Lemma remove_entry_spec path s :
  wf s -> exists s', remove_entry path s = Some (entries s !! path, s') /\ wf s' /\
    tracked s' = delete path (tracked s).
Proof.
  intros Hw. unfold remove_entry. destruct (entries s !! path) as [e|] eqn:He.
  2:{ exists s. split; [done|]. split; [done|]. symmetry. apply delete_id. by rewrite tracked_lookup, He. }
  pose proof (wf_index s path e Hw He) as Hlt.
  destruct (last (keys s)) as [x|] eqn:Hx.
  2:{ apply last_None in Hx. rewrite Hx in Hlt. cbn in Hlt. lia. }
  destruct (swap_remove_lookup (key_index e) (keys s) x Hx Hlt) as (ks & -> & Hks).
  pose proof Hx as Hx'. rewrite last_lookup in Hx'. destruct (proj1 (Hw _ _) Hx') as (ex & Hex & Hix).
  destruct (ks !! key_index e) as [y|] eqn:Hy; rewrite Hks in Hy.
  - destruct (decide (S (key_index e) < length (keys s))%nat) as [Hlt'|]; [|done].
    rewrite decide_True in Hy by done. injection Hy as <-.
    assert (Hne : x <> path). { intros ->. rewrite Hex in He. injection He as ->. lia. }
    rewrite lookup_delete_ne, Hex by done.
    eexists. split; [done|]. split; [apply (wf_drop_swapped s ks path e x ex); [done..|lia|done]|].
    apply map_eq. intros p. unfold tracked. cbn [entries]. rewrite lookup_fmap. destruct (decide (x = p)) as [->|Hxp].
    + rewrite lookup_insert_eq, lookup_delete_ne, lookup_fmap, Hex by congruence. done.
    + by rewrite lookup_insert_ne, <- lookup_fmap, fmap_delete by done.
  - destruct (decide (S (key_index e) < length (keys s))%nat) as [Hlt'|Hlast]; [by rewrite decide_True in Hy|].
    eexists. split; [done|]. split; [apply (wf_drop_last s ks path e); [done..|by rewrite Hx]|].
    unfold tracked. cbn [entries]. by rewrite fmap_delete.
Qed.


(** ** Accounts *)

Definition sum_sizes (m : gmap Path (Z * Z)) : Z := map_fold (fun _ v acc => snd v + acc) 0 m.

(** The sizes of all tracked files together. *)
Definition total (s : CacheState) : Z := sum_sizes (tracked s).

Lemma sum_sizes_insert p t n m : m !! p = None -> sum_sizes (<[p := (t, n)]> m) = n + sum_sizes m.
Proof. intros Hp. unfold sum_sizes. rewrite map_fold_insert_L; [done| |done]. intros. lia. Qed.

Lemma sum_sizes_delete p v m : m !! p = Some v -> sum_sizes m = snd v + sum_sizes (delete p m).
Proof. intros Hp. unfold sum_sizes. rewrite (map_fold_delete_L _ _ p v m); [done| |done]. intros. lia. Qed.

Lemma sum_sizes_touch p t t' n m : m !! p = Some (t, n) -> sum_sizes (<[p := (t', n)]> m) = sum_sizes m.
Proof.
  intros Hp. rewrite <- insert_delete_eq, sum_sizes_insert by apply lookup_delete_eq.
  by rewrite (sum_sizes_delete p (t, n) m Hp).
Qed.

(** What every handler keeps: the index is sound and the counter holds the sum
    of the tracked sizes, as a 64-bit integer. *)
Record accounts (ev : Evictor) : Prop := {
  acc_wf : wf (cache_state ev);
  acc_size : cache_size_bytes ev = wrap 64 (total (cache_state ev))
}.

Lemma new_evictor_accounts max disk : accounts (new_evictor max disk).
Proof.
  split; [|done]. intros i p. cbn. rewrite lookup_nil. split; [done|].
  intros (e & He & _). by rewrite lookup_empty in He.
Qed.

Lemma wrap_sub a b : wrap 64 (wrap 64 a - b) = wrap 64 (a - b).
Proof. unfold wrap. apply Zminus_mod_idemp_l. Qed.

Lemma wrap_add a b : wrap 64 (wrap 64 a + b) = wrap 64 (a + b).
Proof. unfold wrap. apply Zplus_mod_idemp_l. Qed.

(** A file the evictor did not know joins the end of the keys. *)
Lemma wf_insert s p t n :
  wf s -> entries s !! p = None ->
  wf (mkCacheState (<[p := mkCacheEntry t n (length (keys s))]> (entries s)) (keys s ++ [p])).
Proof.
  intros Hw Hp i q. cbn [entries keys]. rewrite lookup_snoc_Some. destruct (decide (p = q)) as [<-|Hpq].
  - rewrite lookup_insert_eq. split.
    + intros [[_ Hi]|[Hi _]]; [|by eexists].
      apply (list_elem_of_lookup_2 _ i), wf_keys in Hi as [e He]; [congruence|done].
    + intros (e & [= <-] & <-). by right.
  - rewrite lookup_insert_ne by done. rewrite <- (Hw i q). split.
    + intros [[_ Hi]|[_ ->]]; done.
    + intros Hi. left. split; [by eapply lookup_lt_Some|done].
Qed.

(** One it knows keeps its index and its size. *)
Lemma wf_touch s p t e :
  wf s -> entries s !! p = Some e ->
  wf (mkCacheState (<[p := mkCacheEntry t (size_bytes e) (key_index e)]> (entries s)) (keys s)).
Proof.
  intros Hw Hp i q. cbn [entries keys]. rewrite (Hw i q). destruct (decide (p = q)) as [<-|Hpq].
  - rewrite lookup_insert_eq, Hp. split; intros (e' & [= <-] & Hi); eexists; (split; [done|exact Hi]).
  - by rewrite lookup_insert_ne.
Qed.

(** ** Removing *)

Lemma remove_accounts p ev :
  accounts ev ->
  exists s, remove_entry p (cache_state ev) = Some (entries (cache_state ev) !! p, s) /\
    wf s /\ tracked s = delete p (tracked (cache_state ev)) /\
    accounts (set_cache s (wrap 64 (cache_size_bytes ev -
      match entries (cache_state ev) !! p with Some e => size_bytes e | None => 0 end)) ev).
Proof.
  intros [Hw Hs]. destruct (remove_entry_spec p (cache_state ev) Hw) as (s & Hr & Hw' & Ht).
  exists s. do 3 (split; [done|]). split; [done|]. cbn [cache_state cache_size_bytes set_cache].
  rewrite Hs, wrap_sub. f_equal. unfold total. rewrite Ht.
  destruct (entries (cache_state ev) !! p) as [e|] eqn:He.
  - rewrite (sum_sizes_delete p (info e) (tracked (cache_state ev))); [cbn; lia|].
    by rewrite tracked_lookup, He.
  - rewrite delete_id; [lia|]. by rewrite tracked_lookup, He.
Qed.

(** The entries of [m] other than the [paths]. *)
Definition without (paths : list Path) (m : gmap Path (Z * Z)) : gmap Path (Z * Z) :=
  filter (fun kv => fst kv ∉ paths) m.

Lemma without_lookup paths m p v : without paths m !! p = Some v <-> m !! p = Some v /\ p ∉ paths.
Proof. apply map_lookup_filter_Some. Qed.

Lemma without_nil m : without [] m = m.
Proof. apply map_filter_id. intros i x _. apply not_elem_of_nil. Qed.

Lemma without_cons p paths m : without paths (delete p m) = without (p :: paths) m.
Proof.
  apply map_eq. intros q. apply option_eq. intros v.
  rewrite !without_lookup, lookup_delete_Some, not_elem_of_cons.
  split; [intros [[? ?] ?]|intros [? [? ?]]]; auto.
Qed.

(** The files deleted by a client's request leave the books, whichever of them
    were tracked. *)
Lemma untrack_paths_spec paths ev :
  accounts ev ->
  exists ev', untrack_paths paths ev = Some ev' /\ accounts ev' /\
    tracked (cache_state ev') = without paths (tracked (cache_state ev)).
Proof.
  revert ev. induction paths as [|p paths IH]; intros ev Ha; cbn [untrack_paths].
  - exists ev. split; [done|]. split; [done|]. by rewrite without_nil.
  - destruct (remove_accounts p ev Ha) as (s & -> & Hw & Ht & Ha').
    destruct (entries (cache_state ev) !! p) as [e|] eqn:He.
    + destruct (IH _ Ha') as (ev' & -> & Ha'' & Ht'). exists ev'. split; [done|]. split; [done|].
      rewrite Ht'. cbn [cache_state set_cache]. rewrite Ht. apply without_cons.
    + assert (Ha2 : accounts (set_cache s (cache_size_bytes ev) ev)).
      { destruct Ha as [Hw0 Hs]. split; [done|]. cbn. by rewrite Hs; unfold total; rewrite Ht, delete_id by by rewrite tracked_lookup, He. }
      destruct (IH _ Ha2) as (ev' & -> & Ha'' & Ht'). exists ev'. split; [done|]. split; [done|].
      rewrite Ht'. cbn [cache_state set_cache]. rewrite Ht. apply without_cons.
Qed.


(** ** Drawing *)

(** Every index is drawn again and again. *)
Definition fair (rng : nat -> nat) : Prop :=
  forall pos n i, (i < n)%nat -> exists k, (pos <= k)%nat /\ random_range rng k n = i.

(** What holds from some fuel on. *)
Definition enough (P : nat -> Prop) : Prop := exists f0, forall f, (f0 <= f)%nat -> P f.

Lemma enough_and P Q : enough P -> enough Q -> enough (fun f => P f /\ Q f).
Proof. intros [f HP] [g HQ]. exists (f `max` g)%nat. intros k Hk. split; [apply HP|apply HQ]; lia. Qed.

Lemma enough_impl (P Q : nat -> Prop) : (forall f, P f -> Q f) -> enough P -> enough Q.
Proof. intros HPQ [f HP]. exists f. auto. Qed.

Lemma enough_always (P : nat -> Prop) : (forall f, P f) -> enough P.
Proof. intros HP. exists O. auto. Qed.

#[local] Instance enough_proper : Proper (pointwise_relation nat iff ==> iff) enough.
Proof. intros P Q HPQ. split; apply enough_impl; intros f; apply HPQ. Qed.

Definition is_free (picked : gset nat) (exclude_idx : option nat) (idx : nat) : Prop :=
  (idx ∉ picked) /\ Some idx <> exclude_idx.

Lemma free_spec picked exclude_idx idx :
  bool_decide (idx ∉ picked) && negb (bool_decide (Some idx = exclude_idx)) = true <-> is_free picked exclude_idx idx.
Proof. unfold is_free. rewrite andb_true_iff, negb_true_iff, bool_decide_eq_true, bool_decide_eq_false. done. Qed.

(** [idx] is the first free index the generator draws from [pos] on; the next
    draw is at [pos']. *)
Definition first_free (rng : nat -> nat) (pos n : nat) (picked : gset nat) (exclude_idx : option nat) (idx pos' : nat) : Prop :=
  exists k, (pos <= k)%nat /\ pos' = S k /\ random_range rng k n = idx /\ is_free picked exclude_idx idx /\
    forall j, (pos <= j < k)%nat -> ~ is_free picked exclude_idx (random_range rng j n).

(** A fair generator comes to a free index when there is one. *)
Lemma draw_available_total rng pos n picked exclude_idx i :
  fair rng -> (i < n)%nat -> is_free picked exclude_idx i ->
  exists idx pos', first_free rng pos n picked exclude_idx idx pos' /\ (idx < n)%nat /\
    enough (fun fuel => draw_available fuel rng pos n picked exclude_idx = Some (idx, pos')).
Proof.
  intros Hfair Hi Hfree. destruct (Hfair pos n i Hi) as (k & Hk & Hdraw).
  remember (k - pos)%nat as d eqn:Hd. revert pos Hk Hd. induction d as [|d IH]; intros pos Hk Hd.
  - assert (k = pos) as -> by lia. exists i, (S pos). split; [exists pos; split_and!; [lia|done..|lia]|]. split; [done|].
    exists 1%nat. intros [|f] Hf; [lia|]. cbn [draw_available]. rewrite Hdraw, (proj2 (free_spec _ _ _)) by done. done.
  - destruct (bool_decide (random_range rng pos n ∉ picked) && negb (bool_decide (Some (random_range rng pos n) = exclude_idx))) eqn:Hb.
    + exists (random_range rng pos n), (S pos). apply free_spec in Hb as Hf0.
      split; [exists pos; split_and!; [lia|done..|lia]|]. split; [apply Nat.mod_upper_bound; lia|].
      exists 1%nat. intros [|f] Hf; [lia|]. cbn [draw_available]. by rewrite Hb.
    + destruct (IH (S pos)) as (idx & pos' & (k' & Hk' & -> & Hat & Hidx & Hnot) & Hlt & [f0 Hf0]); [lia..|].
      exists idx, (S k'). split.
      { exists k'. split_and!; [lia|done..|]. intros j Hj. destruct (decide (j = pos)) as [->|Hne].
        - intros Hfj%free_spec. congruence.
        - apply Hnot. lia. }
      split; [done|]. exists (S f0). intros [|f] Hf; [lia|]. cbn [draw_available]. rewrite Hb. apply Hf0. lia.
Qed.

(** The indices below [n] that are free, counted as the code counts them. *)
Lemma free_exists n picked exclude_idx :
  picked ⊆ set_seq 0 n -> (forall x, exclude_idx = Some x -> (x < n)%nat) ->
  (n - size picked - Nat.b2n (match exclude_idx with Some idx => negb (bool_decide (idx ∈ picked)) | None => false end) <> 0)%nat ->
  exists i, (i < n)%nat /\ is_free picked exclude_idx i.
Proof.
  intros Hsub Hex Hn. set (taken := match exclude_idx with Some x => {[x]} ∪ picked | None => picked end).
  assert (Hsize : (size taken <= size picked + Nat.b2n (match exclude_idx with Some idx => negb (bool_decide (idx ∈ picked)) | None => false end))%nat).
  { unfold taken. destruct exclude_idx as [x|]; cbn; [|lia]. case_bool_decide as Hx; cbn.
    - rewrite (subseteq_union_1_L {[x]} picked); [lia|]. by apply singleton_subseteq_l.
    - rewrite size_union, size_singleton by (intros y ->%elem_of_singleton; done). lia. }
  destruct (set_choose_or_empty (set_seq (C := gset nat) 0 n ∖ taken)) as [[i Hi]|Hempty].
  - apply elem_of_difference in Hi as [Hi Ht]. apply elem_of_set_seq in Hi. exists i. split; [lia|].
    unfold is_free. unfold taken in Ht. destruct exclude_idx as [x|]; [|done].
    apply not_elem_of_union in Ht as [Hx Hp]. rewrite elem_of_singleton in Hx. split; congruence.
  - assert (Hall : set_seq (C := gset nat) 0 n ⊆ taken).
    { intros i Hi. destruct (decide (i ∈ taken)); [done|]. exfalso. apply (not_elem_of_empty (C := gset nat) i).
      apply Hempty. by apply elem_of_difference. }
    apply subseteq_size in Hall. rewrite size_set_seq in Hall. lia.
Qed.

(** [pick_random_available_index] with a free index. *)
Lemma pick_random_total rng pos (ks : list Path) picked exclude_idx :
  fair rng -> picked ⊆ set_seq 0 (length ks) -> (forall x, exclude_idx = Some x -> (x < length ks)%nat) ->
  (length ks - size picked - Nat.b2n (match exclude_idx with Some idx => negb (bool_decide (idx ∈ picked)) | None => false end) <> 0)%nat ->
  exists idx pos', first_free rng pos (length ks) picked exclude_idx idx pos' /\ (idx < length ks)%nat /\
    enough (fun fuel => pick_random_available_index fuel rng pos ks picked exclude_idx = Some (Some idx, pos')).
Proof.
  intros Hfair Hsub Hex Hn. destruct (free_exists (length ks) picked exclude_idx Hsub Hex Hn) as (i & Hi & Hfree).
  destruct (draw_available_total rng pos (length ks) picked exclude_idx i Hfair Hi Hfree) as (idx & pos' & Hidx & Hlt & He).
  exists idx, pos'. do 2 (split; [done|]). eapply enough_impl, He. cbn beta. intros f Hf.
  unfold pick_random_available_index. apply Nat.eqb_neq in Hn. rewrite Hn, Hf. done.
Qed.


(** ** Picking

    What the loop promises: as long as the target is not reached and two files
    are left, the next two indices drawn that were not picked before and differ
    are compared, and the one of them used less recently is picked, the first
    drawn when there is no difference. *)

(** [e] is picked against [e']. *)
Definition drawn (rng : nat -> nat) (pos n : nat) (picked : gset nat) (e e' : CacheEntry) (pos' : nat) : Prop :=
  exists i0 pos0 i1, first_free rng pos n picked None i0 pos0 /\ first_free rng pos0 n picked (Some i0) i1 pos' /\
    ((key_index e = i0 /\ key_index e' = i1 /\ access_time e <= access_time e') \/
     (key_index e = i1 /\ key_index e' = i0 /\ access_time e < access_time e')).

Inductive picks (rng : nat -> nat) (s : CacheState) (target_size : Z) : nat -> Z -> gset nat -> list (Path * Z) -> Prop :=
  | picks_stop pos sim picked :
      sim <= target_size \/ (length (keys s) - size picked < 2)%nat -> picks rng s target_size pos sim picked []
  | picks_one pos sim picked p e q e' pos' rest :
      target_size < sim -> p <> q ->
      entries s !! p = Some e -> key_index e ∉ picked ->
      entries s !! q = Some e' -> key_index e' ∉ picked ->
      drawn rng pos (length (keys s)) picked e e' pos' ->
      picks rng s target_size pos' (saturating_sub sim (size_bytes e)) ({[key_index e]} ∪ picked) rest ->
      picks rng s target_size pos sim picked ((p, size_bytes e) :: rest).

Lemma drawn_older rng pos n picked e e' pos' : drawn rng pos n picked e e' pos' -> access_time e <= access_time e'.
Proof. intros (i0 & pos0 & i1 & _ & _ & [(_ & _ & Ht)|(_ & _ & Ht)]); lia. Qed.

Lemma wf_key_at s i : wf s -> (i < length (keys s))%nat ->
  exists p e, keys s !! i = Some p /\ entries s !! p = Some e /\ key_index e = i.
Proof.
  intros Hw Hi. apply lookup_lt_is_Some in Hi as [p Hp]. pose proof (proj1 (Hw _ _) Hp) as (e & He & Hk). by exists p, e.
Qed.

Lemma pick_loop_total rng s target_size rounds pos sim picked targets :
  fair rng -> wf s -> picked ⊆ set_seq 0 (length (keys s)) -> (length (keys s) < rounds + size picked)%nat ->
  exists new pos', picks rng s target_size pos sim picked new /\
    enough (fun fuel => pick_loop rounds fuel rng pos s target_size sim picked targets = Some (targets ++ new, pos')).
Proof.
  intros Hfair Hw. revert pos sim picked targets. induction rounds as [|rounds IH]; intros pos sim picked targets Hsub Hr.
  { exfalso. apply subseteq_size in Hsub. rewrite size_set_seq in Hsub. lia. }
  destruct (target_size <? sim) eqn:Hsim.
  2:{ exists [], pos. split; [constructor; lia|]. apply enough_always. intros fuel. cbn [pick_loop]. by rewrite Hsim, app_nil_r. }
  destruct (length (keys s) - size picked <? 2)%nat eqn:Havail.
  { exists [], pos. split; [constructor; right; by apply Nat.ltb_lt|]. apply enough_always. intros fuel.
    cbn [pick_loop]. by rewrite Hsim, Havail, app_nil_r. }
  apply Z.ltb_lt in Hsim as Hsim'. apply Nat.ltb_ge in Havail as Havail'.
  destruct (pick_random_total rng pos (keys s) picked None Hfair Hsub) as (i0 & pos0 & Hd0 & Hl0 & He0);
    [done|cbn; lia|].
  pose proof Hd0 as (_ & _ & _ & _ & [Hf0 _] & _).
  destruct (pick_random_total rng pos0 (keys s) picked (Some i0) Hfair Hsub) as (i1 & pos1 & Hd1 & Hl1 & He1).
  { by intros x [= <-]. } { rewrite bool_decide_false by done. cbn. lia. }
  pose proof Hd1 as (_ & _ & _ & _ & [Hf1 Hne] & _).
  destruct (wf_key_at s i0 Hw Hl0) as (p0 & e0 & Hp0 & Hq0 & Hk0).
  destruct (wf_key_at s i1 Hw Hl1) as (p1 & e1 & Hp1 & Hq1 & Hk1).
  assert (Hpq : p0 <> p1) by (intros ->; congruence).
  set (older := access_time e0 <=? access_time e1).
  set (c := if older then (i0, p0, size_bytes e0) else (i1, p1, size_bytes e1)).
  destruct (IH pos1 (saturating_sub sim (snd c)) ({[fst (fst c)]} ∪ picked) (targets ++ [(snd (fst c), snd c)]))
    as (new & pos' & Hnew & He).
  { apply union_subseteq. split; [|done]. apply singleton_subseteq_l, elem_of_set_seq. unfold c. destruct older; cbn; lia. }
  { rewrite size_union, size_singleton by (intros y ->%elem_of_singleton; unfold c; destruct older; done). lia. }
  exists ((snd (fst c), snd c) :: new), pos'. split.
  - unfold c in *. destruct older eqn:Hold; cbn [fst snd] in *; subst i0 i1.
    + eapply (picks_one _ _ _ _ _ _ p0 e0 p1 e1); try done.
      do 3 eexists. split; [exact Hd0|]. split; [exact Hd1|]. left. by apply Z.leb_le in Hold.
    + eapply (picks_one _ _ _ _ _ _ p1 e1 p0 e0); try done.
      do 3 eexists. split; [exact Hd0|]. split; [exact Hd1|]. right. by apply Z.leb_gt in Hold.
  - eapply enough_impl; [|exact (enough_and _ _ He0 (enough_and _ _ He1 He))]. cbn beta. intros f (E0 & E1 & E).
    cbn [pick_loop]. rewrite (proj2 (Z.ltb_lt _ _) Hsim'), Havail, E0, E1, Hp0, Hp1, Hq0, Hq1. cbn [negb]. fold older.
    fold c. destruct c as [[ci cp] cb]. cbn [fst snd] in E. by rewrite E, <- app_assoc.
Qed.

(** The picked files are tracked, with the sizes given, and no file is picked
    twice. *)
Lemma picks_tracked rng s target_size pos sim picked new :
  picks rng s target_size pos sim picked new ->
  forall p n, (p, n) ∈ new -> exists e, entries s !! p = Some e /\ size_bytes e = n /\ key_index e ∉ picked.
Proof.
  induction 1 as [|pos sim picked p e q e' pos' rest Hs Hpq He Hk Hq Hk' Ht Hp IH]; intros x n Hx; [by apply not_elem_of_nil in Hx|].
  apply elem_of_cons in Hx as [[= -> ->]|Hx]; [by exists e|].
  destruct (IH x n Hx) as (ex & Hex & Hn & Hkx). exists ex. do 2 (split; [done|]).
  apply not_elem_of_union in Hkx. tauto.
Qed.

Lemma picks_nodup rng s target_size pos sim picked new : picks rng s target_size pos sim picked new -> NoDup (fst <$> new).
Proof.
  induction 1 as [|pos sim picked p e q e' pos' rest Hs Hpq He Hk Hq Hk' Ht Hp IH]; cbn; constructor; [|done].
  intros ([x n] & -> & Hx)%list_elem_of_fmap. destruct (picks_tracked _ _ _ _ _ _ _ Hp _ _ Hx) as (ex & Hex & _ & Hkx).
  apply Hkx, elem_of_union_l, elem_of_singleton. cbn in *. congruence.
Qed.

(** The picked files' sizes together. *)
Definition freed (targets : list (Path * Z)) : Z := foldr (fun t acc => snd t + acc) 0 targets.

Definition sizes_fit (s : CacheState) : Prop :=
  (forall p e, entries s !! p = Some e -> 0 <= size_bytes e).

(** Picking stops when the target is reached or at most one file is left. *)
Lemma picks_enough rng s target_size pos sim picked new :
  picks rng s target_size pos sim picked new -> sizes_fit s -> 0 <= target_size ->
  sim - freed new <= target_size \/ (length (keys s) - size picked - length new < 2)%nat.
Proof.
  intros Hp Hfit Ht. induction Hp as [pos sim picked Hstop|pos sim picked p e q e' pos' rest Hs Hpq He Hk Hq Hk' Hle Hp IH].
  - cbn. destruct Hstop; [left|right]; lia.
  - cbn [freed foldr snd length]. fold (freed rest). pose proof (Hfit p e He). unfold saturating_sub in IH.
    rewrite size_union, size_singleton in IH by (intros y ->%elem_of_singleton; done).
    destruct IH as [IH|IH]; [left|right]; lia.
Qed.

(** No file is picked once the target is reached. *)
Lemma picks_needed rng s target_size pos sim picked new :
  picks rng s target_size pos sim picked new -> sizes_fit s -> 0 <= target_size ->
  forall l t r, new = l ++ t :: r -> target_size < sim - freed l.
Proof.
  intros Hp Hfit Ht. induction Hp as [pos sim picked Hstop|pos sim picked p e q e' pos' rest Hs Hpq He Hk Hq Hk' Hle Hp IH]; intros l t r Heq.
  - by destruct l.
  - destruct l as [|[p' n] l]; cbn [freed foldr snd]; [lia|]. fold (freed l). injection Heq as -> <- Heq.
    specialize (IH l t r Heq). unfold saturating_sub in IH. pose proof (Hfit p' e He).
    assert (0 <= freed l); [|lia].
    assert (Hall : forall x, x ∈ l -> 0 <= snd x).
    { intros [x m] Hx. cbn. destruct (picks_tracked _ _ _ _ _ _ _ Hp x m) as (ex & Hex & <- & _).
      - rewrite Heq. apply elem_of_app. by left.
      - by apply (Hfit x). }
    clear -Hall. induction l as [|x l IHl]; cbn; [lia|].
    pose proof (Hall x (list_elem_of_here _ _)). fold (freed l). cut (0 <= freed l); [lia|].
    apply IHl. intros y Hy. apply Hall. by right.
Qed.

(** The file used last, when no other was used as late, is never picked. *)
Lemma picks_spare_newest rng s target_size pos sim picked new p e :
  picks rng s target_size pos sim picked new -> entries s !! p = Some e ->
  (forall q e', entries s !! q = Some e' -> q <> p -> access_time e' < access_time e) ->
  p ∉ fst <$> new.
Proof.
  intros Hp He Hnew. induction Hp as [|pos sim picked p0 e0 q e' pos' rest Hs Hpq He0 Hk Hq Hk' Hd Hp IH]; cbn.
  - apply not_elem_of_nil.
  - apply not_elem_of_cons. split; [|done]. intros <-. rewrite He in He0. injection He0 as <-.
    pose proof (Hnew q e' Hq (not_eq_sym Hpq)). apply drawn_older in Hd. lia.
Qed.

(** Whenever a file is picked, another that is not picked before it was used no
    less recently. *)
Lemma picks_older rng s target_size pos sim picked new :
  picks rng s target_size pos sim picked new -> forall l p n r, new = l ++ (p, n) :: r ->
  exists e q e', entries s !! p = Some e /\ entries s !! q = Some e' /\ q <> p /\
    access_time e <= access_time e' /\ key_index e' ∉ picked /\ q ∉ fst <$> l.
Proof.
  induction 1 as [|pos sim picked p0 e0 q e' pos' rest Hs Hpq He0 Hk Hq Hk' Hd Hp IH]; intros l p n r Heq.
  - by destruct l.
  - destruct l as [|t l]; injection Heq as <- Heq.
    + intros. exists e0, q, e'. split_and!; [done..|by apply drawn_older in Hd|done|apply not_elem_of_nil].
    + destruct (IH l p n r Heq) as (e1 & q1 & e1' & ? & Hq1 & ? & ? & Hk1 & ?). exists e1, q1, e1'.
      apply not_elem_of_union in Hk1 as [Hk1 ?]. split_and!; [done..|]. apply not_elem_of_cons. split; [|done].
      intros ->. cbn in Hq1. rewrite He0 in Hq1. injection Hq1 as <-. by apply Hk1, elem_of_singleton.
Qed.

(** ** Evicting *)

Definition is_removed (r : RemoveResult) : bool := match r with Removed => true | _ => false end.
Definition is_gone (r : RemoveResult) : bool := match r with RemoveFailed => false | _ => true end.

(** The targets whose answer passes [f]. *)
Fixpoint answered (f : RemoveResult -> bool) (targets : list (Path * Z)) (disk : list RemoveResult) : list (Path * Z) :=
  match targets with
  | [] => []
  | t :: targets =>
      let rest := answered f targets (tail disk) in
      if f (default Removed (head disk)) then t :: rest else rest
  end.

Lemma answered_sublist f targets disk : sublist (answered f targets disk) targets.
Proof.
  revert disk. induction targets as [|t targets IH]; intros disk; cbn; [constructor|].
  destruct (f _); by constructor.
Qed.

Lemma answered_all f targets disk :
  (forall r, r ∈ disk -> f r = true) -> f Removed = true -> answered f targets disk = targets.
Proof.
  intros Hd Hr. revert disk Hd. induction targets as [|t targets IH]; intros disk Hd; cbn; [done|].
  assert (f (default Removed (head disk)) = true) as ->.
  { destruct disk; cbn; [done|]. apply Hd. by left. }
  rewrite IH; [done|]. intros r Hin. apply Hd. destruct disk; [done|by right].
Qed.

Lemma remove_targets_spec targets ev :
  exists ev', remove_targets targets ev = (answered is_gone targets (ev_disk ev), ev') /\
    cache_state ev' = cache_state ev /\ cache_size_bytes ev' = cache_size_bytes ev /\
    max_cache_size_bytes ev' = max_cache_size_bytes ev /\
    ev_removed ev' = rev (fst <$> answered is_removed targets (ev_disk ev)) ++ ev_removed ev.
Proof.
  revert ev. induction targets as [|[t n] targets IH]; intros ev; cbn [remove_targets answered].
  - by exists ev.
  - match goal with |- context [remove_targets targets ?e] => destruct (IH e) as (ev' & Hr & Hs & Hc & Hm & Hl) end.
    rewrite Hr. exists ev'. cbn [cache_state cache_size_bytes max_cache_size_bytes ev_disk ev_removed] in *.
    split; [by destruct (default Removed (head (ev_disk ev)))|]. do 3 (split; [done|]). rewrite Hl.
    destruct (default Removed (head (ev_disk ev))); cbn [is_removed fmap list_fmap fst rev]; [by rewrite <- app_assoc|done..].
Qed.

(** The books lose what is gone from the disk, and nothing else. *)
Lemma untrack_spec targets acc ev :
  accounts ev -> NoDup (fst <$> targets) ->
  (forall p n, (p, n) ∈ targets -> exists e, entries (cache_state ev) !! p = Some e /\ size_bytes e = n) ->
  exists ev', untrack targets acc ev = Some (acc + freed targets, ev') /\ accounts ev' /\
    tracked (cache_state ev') = without (fst <$> targets) (tracked (cache_state ev)) /\
    total (cache_state ev') = total (cache_state ev) - freed targets /\
    max_cache_size_bytes ev' = max_cache_size_bytes ev /\ ev_removed ev' = ev_removed ev.
Proof.
  revert acc ev. induction targets as [|[p n] targets IH]; intros acc ev Ha Hnd Hin; cbn [untrack].
  { exists ev. cbn. rewrite without_nil, !Z.add_0_r, Z.sub_0_r. done. }
  cbn [fmap list_fmap fst] in Hnd. apply NoDup_cons in Hnd as [Hp Hnd].
  destruct (Hin p n) as (e & He & Hn); [by left|].
  destruct (remove_accounts p ev Ha) as (s & -> & Hw & Ht & Ha'). rewrite He in Ha' |- *. rewrite Hn in Ha'.
  destruct (IH (acc + n) _ Ha' Hnd) as (ev' & -> & Ha'' & Ht' & Htot & Hm & Hl).
  { intros q m Hq. destruct (Hin q m) as (e' & He' & Hm); [by right|]. cbn [cache_state set_cache].
    assert (Hlk : tracked s !! q = Some (info e')).
    { rewrite Ht, lookup_delete_ne, tracked_lookup, He'; [done|]. intros ->. apply Hp, list_elem_of_fmap. by exists (q, m). }
    rewrite tracked_lookup in Hlk. destruct (entries s !! q) as [e''|]; [|done]. exists e''. split; [done|].
    injection Hlk as _ Hb. congruence. }
  exists ev'. cbn [cache_state set_cache max_cache_size_bytes ev_removed freed foldr snd fmap list_fmap fst] in *.
  fold (freed targets). split; [do 2 f_equal; lia|]. split; [done|]. rewrite Ht', Ht, without_cons. split; [done|].
  split; [|done]. rewrite Htot. unfold total. rewrite Ht, (sum_sizes_delete p (info e) (tracked (cache_state ev))).
  - cbn. lia.
  - by rewrite tracked_lookup, He.
Qed.

(** An eviction: what was picked, what of it is gone, and the books after. *)
Lemma evict_total rng target_size ev :
  fair rng -> accounts ev ->
  exists picked ev',
    picks rng (cache_state ev) target_size (ev_pos ev) (cache_size_bytes ev) ∅ picked /\
    enough (fun fuel => evict_to_target_size fuel rng target_size ev =
                        Some (freed (answered is_gone picked (ev_disk ev)), ev')) /\
    accounts ev' /\
    tracked (cache_state ev') = without (fst <$> answered is_gone picked (ev_disk ev)) (tracked (cache_state ev)) /\
    total (cache_state ev') = total (cache_state ev) - freed (answered is_gone picked (ev_disk ev)) /\
    max_cache_size_bytes ev' = max_cache_size_bytes ev /\
    ev_removed ev' = rev (fst <$> answered is_removed picked (ev_disk ev)) ++ ev_removed ev.
Proof.
  intros Hfair Ha. destruct Ha as [Hw Hsz].
  assert (Hpick : exists picked pos, picks rng (cache_state ev) target_size (ev_pos ev) (cache_size_bytes ev) ∅ picked /\
    enough (fun fuel => pick_evict_targets fuel rng (ev_pos ev) (cache_state ev) (cache_size_bytes ev) target_size = Some (picked, pos))).
  { unfold pick_evict_targets. destruct (length (keys (cache_state ev)) <? 2)%nat eqn:Hlen.
    - exists [], (ev_pos ev). split; [|by apply enough_always]. constructor. right. rewrite size_empty.
      apply Nat.ltb_lt in Hlen. lia.
    - apply (pick_loop_total rng (cache_state ev) target_size (S (length (keys (cache_state ev)))) (ev_pos ev)
        (cache_size_bytes ev) ∅ [] Hfair Hw); [apply empty_subseteq|lia]. }
  destruct Hpick as (picked & pos & Hp & He).
  destruct (remove_targets_spec picked (mkEvictor (cache_state ev) (cache_size_bytes ev) (max_cache_size_bytes ev) pos
    (ev_disk ev) (ev_removed ev))) as (ev1 & Hr & Hs1 & Hc1 & Hm1 & Hl1).
  cbn [cache_state cache_size_bytes max_cache_size_bytes ev_disk ev_removed] in *.
  pose proof (answered_sublist is_gone picked (ev_disk ev)) as Hsub.
  destruct (untrack_spec (answered is_gone picked (ev_disk ev)) 0 ev1) as (ev' & Hu & Ha' & Ht' & Htot & Hm & Hl).
  { split; [by rewrite Hs1|by rewrite Hs1, Hc1]. }
  { eapply sublist_NoDup; [eapply picks_nodup, Hp|by apply fmap_sublist]. }
  { intros p n Hin. rewrite Hs1. destruct (picks_tracked _ _ _ _ _ _ _ Hp p n) as (e & ? & ? & _); [|by exists e].
    eapply elem_of_sublist; [exact Hin|exact Hsub]. }
  exists picked, ev'. rewrite Hs1 in Ht', Htot. rewrite Hm1 in Hm. rewrite Hl1 in Hl.
  split; [done|]. split; [|done]. eapply enough_impl, He. cbn beta. intros f Hf.
  unfold evict_to_target_size. by rewrite Hf, Hr, Hu.
Qed.


(** ** The handlers *)

(** The books once an access is noted, before any eviction. *)
Definition touch (path : Path) (n t : Z) (ev : Evictor) : Evictor :=
  let s := cache_state ev in
  match entries s !! path with
  | Some entry =>
      set_cache (mkCacheState (<[path := mkCacheEntry t (size_bytes entry) (key_index entry)]> (entries s)) (keys s))
        (cache_size_bytes ev) ev
  | None =>
      set_cache (mkCacheState (<[path := mkCacheEntry t n (length (keys s))]> (entries s)) (keys s ++ [path]))
        (wrap 64 (cache_size_bytes ev + n)) ev
  end.

Lemma touch_pos path n t ev : ev_pos (touch path n t ev) = ev_pos ev.
Proof. unfold touch. by destruct (entries _ !! _). Qed.

(** The size the books keep for [path] when an access says [n]: the first one
    they were told. *)
Definition first_size (path : Path) (n : Z) (m : gmap Path (Z * Z)) : Z :=
  match m !! path with Some (_, known) => known | None => n end.

Lemma touch_spec path n t ev :
  accounts ev ->
  accounts (touch path n t ev) /\
  tracked (cache_state (touch path n t ev)) =
    <[path := (t, first_size path n (tracked (cache_state ev)))]> (tracked (cache_state ev)) /\
  max_cache_size_bytes (touch path n t ev) = max_cache_size_bytes ev /\
  ev_disk (touch path n t ev) = ev_disk ev /\ ev_removed (touch path n t ev) = ev_removed ev.
Proof.
  intros [Hw Hs]. unfold touch, first_size. rewrite tracked_lookup.
  destruct (entries (cache_state ev) !! path) as [e|] eqn:He; cbn [fmap option_fmap option_map info fst snd].
  - assert (Ht : tracked (mkCacheState (<[path := mkCacheEntry t (size_bytes e) (key_index e)]> (entries (cache_state ev)))
        (keys (cache_state ev))) = <[path := (t, size_bytes e)]> (tracked (cache_state ev))).
    { unfold tracked. cbn [entries]. by rewrite fmap_insert. }
    split; [|done]. split; cbn [cache_state set_cache cache_size_bytes]; [by apply wf_touch|].
    rewrite Hs. unfold total. rewrite Ht, (sum_sizes_touch _ (access_time e)); [done|]. by rewrite tracked_lookup, He.
  - assert (Ht : tracked (mkCacheState (<[path := mkCacheEntry t n (length (keys (cache_state ev)))]> (entries (cache_state ev)))
        (keys (cache_state ev) ++ [path])) = <[path := (t, n)]> (tracked (cache_state ev))).
    { unfold tracked. cbn [entries]. by rewrite fmap_insert. }
    split; [|done]. split; cbn [cache_state set_cache cache_size_bytes]; [by apply wf_insert|].
    rewrite Hs, wrap_add. unfold total. rewrite Ht, sum_sizes_insert; [by rewrite Z.add_comm|]. by rewrite tracked_lookup, He.
Qed.

Lemma track_unfold fuel rng path n t evict ev :
  track_entry_accessed fuel rng path n t evict ev =
    let ev := touch path n t ev in
    if cache_size_bytes ev <=? max_cache_size_bytes ev then Some (0, ev)
    else if evict && (max_cache_size_bytes ev <? cache_size_bytes ev)
    then evict_to_target_size fuel rng (target_of (max_cache_size_bytes ev)) ev
    else Some (0, ev).
Proof. reflexivity. Qed.

Lemma track_total rng path n t evict ev :
  fair rng -> accounts ev ->
  exists r ev', enough (fun fuel => track_entry_accessed fuel rng path n t evict ev = Some (r, ev')) /\ accounts ev'.
Proof.
  intros Hfair Ha. destruct (touch_spec path n t ev Ha) as (Ha1 & _).
  setoid_rewrite track_unfold. cbv zeta. set (ev1 := touch path n t ev) in *.
  destruct (cache_size_bytes ev1 <=? max_cache_size_bytes ev1).
  { exists 0, ev1. split; [by apply enough_always|done]. }
  destruct (evict && (max_cache_size_bytes ev1 <? cache_size_bytes ev1)).
  - destruct (evict_total rng (target_of (max_cache_size_bytes ev1)) ev1 Hfair Ha1) as (picked & ev' & _ & He & Ha' & _).
    by exists (freed (answered is_gone picked (ev_disk ev1))), ev'.
  - exists 0, ev1. split; [by apply enough_always|done].
Qed.

Lemma scan_total rng found evict ev :
  fair rng -> accounts ev ->
  exists ev', enough (fun fuel => scan_entries fuel rng found evict ev = Some ev') /\ accounts ev'.
Proof.
  intros Hfair. revert ev. induction found as [|[path [[len atime]|]] found IH]; intros ev Ha; cbn [scan_entries].
  - exists ev. split; [by apply enough_always|done].
  - destruct (track_total rng path len atime evict ev Hfair Ha) as (r & ev1 & He1 & Ha1).
    destruct (IH ev1 Ha1) as (ev' & He & Ha'). exists ev'. split; [|done].
    eapply enough_impl; [|exact (enough_and _ _ He1 He)]. cbn beta. intros f [-> E]. done.
  - by apply IH.
Qed.

Lemma op_total rng op ev :
  fair rng -> accounts ev ->
  exists ev', enough (fun fuel => evictor_op fuel rng op ev = Some ev') /\ accounts ev'.
Proof.
  intros Hfair Ha. destruct op as [path access now deleted|found]; cbn [evictor_op]; [|by apply scan_total].
  destruct access as [n|n|]; cbn [background_evict].
  - destruct (track_total rng path n now false ev Hfair Ha) as (r & ev' & He & Ha'). exists ev'. split; [|done].
    eapply enough_impl, He. cbn beta. by intros f ->.
  - destruct (track_total rng path n now true ev Hfair Ha) as (r & ev' & He & Ha'). exists ev'. split; [|done].
    eapply enough_impl, He. cbn beta. by intros f ->.
  - unfold delete_entry. destruct deleted as [|p deleted].
    + exists ev. split; [by apply enough_always|done].
    + destruct (untrack_paths_spec (p :: deleted) ev Ha) as (ev' & Hu & Ha' & _). exists ev'. split; [|done].
      by apply enough_always.
Qed.

Lemma run_total rng ops ev :
  fair rng -> accounts ev ->
  exists ev', enough (fun fuel => evictor_run fuel rng ops ev = Some ev') /\ accounts ev'.
Proof.
  intros Hfair. revert ev. induction ops as [|op ops IH]; intros ev Ha; cbn [evictor_run].
  - exists ev. split; [by apply enough_always|done].
  - destruct (op_total rng op ev Hfair Ha) as (ev1 & He1 & Ha1). destruct (IH ev1 Ha1) as (ev' & He & Ha').
    exists ev'. split; [|done]. eapply enough_impl; [|exact (enough_and _ _ He1 He)]. cbn beta. by intros f [-> E].
Qed.

(** C24: whatever accesses, deletions and rescans reach a new evictor, in any
    order and whatever its removals answer, it does not panic and, its
    generator being fair, its loops end; its key vector and its map then name
    the same files, each at the index its entry records, and the counter is the
    64-bit sum of the sizes in the map, so exactly that sum while it fits. *)
Theorem evictor_accounts (rng : nat -> nat) (ops : list EvictorOp) (max : Z) (disk : list RemoveResult)
    (Hfair : fair rng) :
  exists ev, enough (fun fuel => evictor_run fuel rng ops (new_evictor max disk) = Some ev) /\
    wf (cache_state ev) /\ NoDup (keys (cache_state ev)) /\
    length (keys (cache_state ev)) = size (tracked (cache_state ev)) /\
    cache_size_bytes ev = wrap 64 (total (cache_state ev)) /\
    (0 <= total (cache_state ev) < 2 ^ 64 -> cache_size_bytes ev = total (cache_state ev)).
Proof.
  destruct (run_total rng ops (new_evictor max disk) Hfair (new_evictor_accounts max disk)) as (ev & He & [Hw Hs]).
  exists ev. split; [done|]. split; [done|]. split; [by apply wf_nodup|]. split; [by apply wf_length|].
  split; [done|]. intros Hfit. rewrite Hs. by apply Z.mod_small.
Qed.


(** ** What a write leaves behind *)

Definition nonneg (m : gmap Path (Z * Z)) : Prop := forall p v, m !! p = Some v -> 0 <= snd v.

Lemma sum_sizes_nonneg m : nonneg m -> 0 <= sum_sizes m.
Proof.
  unfold sum_sizes. induction m as [|p v m Hp IH] using map_ind; intros Hm; [done|].
  rewrite map_fold_insert_L; [|intros; lia|done].
  assert (0 <= snd v) by (apply (Hm p); by rewrite lookup_insert_eq).
  cut (0 <= map_fold (fun _ v acc => snd v + acc) 0 m); [lia|]. apply IH. intros q w Hq. apply (Hm q).
  rewrite lookup_insert_ne; [done|congruence].
Qed.

Lemma nonneg_without paths m : nonneg m -> nonneg (without paths m).
Proof. intros Hm p v [Hp _]%without_lookup. by apply (Hm p). Qed.

Lemma nonneg_fit s : nonneg (tracked s) <-> sizes_fit s.
Proof.
  split.
  - intros Hm p e He. apply (Hm p (info e)). by rewrite tracked_lookup, He.
  - intros Hf p v Hv. rewrite tracked_lookup in Hv. destruct (entries s !! p) as [e|] eqn:He; [|done].
    injection Hv as <-. by apply (Hf p).
Qed.

Lemma target_nonneg max : 0 <= target_of max.
Proof.
  unfold target_of, f64_as_u64. destruct (SFmul _ _ _ _) as [[]|[]| |[] m e]; try done.
  assert (0 <= u64_max) by done. destruct (0 <=? e) eqn:He.
  - assert (0 <= 2 ^ e) by (apply Z.pow_nonneg; lia). nia.
  - assert (0 < 2 ^ (- e)) by (apply Z.pow_pos_nonneg; lia). pose proof (Z.div_pos (Z.pos m) (2 ^ (- e))). lia.
Qed.

(** With every removal answered, the books reach the target or hold one file. *)
Lemma evict_reaches rng s target pos sim picked (m' : gmap Path (Z * Z)) tot :
  wf s -> picks rng s target pos sim ∅ picked -> sizes_fit s -> 0 <= target -> sim = total s ->
  m' = without (fst <$> picked) (tracked s) -> tot = total s - freed picked ->
  tot <= target \/ (size m' < 2)%nat.
Proof.
  intros Hw Hp Hfit Ht -> -> ->. destruct (picks_enough _ _ _ _ _ _ _ Hp Hfit Ht) as [Hr|Hr]; [by left|right].
  assert (Hd : dom (without (fst <$> picked) (tracked s)) = dom (tracked s) ∖ list_to_set (fst <$> picked)).
  { apply set_eq. intros p. rewrite elem_of_difference, elem_of_list_to_set, !elem_of_dom. split.
    - intros [v [Hv Hn]%without_lookup]. split; [by exists v|done].
    - intros [[v Hv] Hn]. exists v. by apply without_lookup. }
  rewrite <- size_dom, Hd, size_difference.
  - rewrite size_list_to_set by (eapply picks_nodup, Hp). rewrite length_fmap, size_dom, <- wf_length by done.
    rewrite size_empty in Hr. lia.
  - intros p. rewrite elem_of_list_to_set, elem_of_dom, tracked_lookup. intros ([q n] & -> & Hq)%list_elem_of_fmap.
    destruct (picks_tracked _ _ _ _ _ _ _ Hp q n Hq) as (e & He & _). cbn. rewrite He. by eexists.
Qed.

Lemma freed_nonneg (l : list (Path * Z)) : (forall x, x ∈ l -> 0 <= snd x) -> 0 <= freed l.
Proof.
  induction l as [|x l IH]; intros Hx; cbn; [lia|]. fold (freed l).
  pose proof (Hx x (list_elem_of_here _ _)). cut (0 <= freed l); [lia|]. apply IH. intros y Hy. apply Hx. by right.
Qed.

Lemma freed_app (l k : list (Path * Z)) : freed (l ++ k) = freed l + freed k.
Proof. induction l as [|x l IH]; cbn; [done|]. fold (freed l) (freed (l ++ k)). lia. Qed.

Lemma answered_mono (f g : RemoveResult -> bool) targets disk t :
  (forall r, f r = true -> g r = true) -> t ∈ answered f targets disk -> t ∈ answered g targets disk.
Proof.
  intros Hfg. revert disk. induction targets as [|x targets IH]; intros disk; cbn; [done|].
  pose proof (Hfg (default Removed (head disk))) as Hh. destruct (f _).
  - rewrite Hh by done. rewrite !elem_of_cons. intros [->|Ht]; [by left|right; by apply IH].
  - intros Ht%IH. destruct (g _); [by right|done].
Qed.

(** What is gone before a target was picked before it. *)
Lemma answered_split f targets disk l t r :
  answered f targets disk = l ++ t :: r ->
  exists l' r', targets = l' ++ t :: r' /\ sublist l l'.
Proof.
  revert disk l. induction targets as [|x targets IH]; intros disk l; cbn; [by destruct l|].
  destruct (f _); [destruct l as [|y l]|].
  - intros [= -> _]. by exists [], targets.
  - intros [= -> Hl]. destruct (IH _ _ Hl) as (l' & r' & -> & Hs). exists (y :: l'), r'. split; [done|by constructor].
  - intros Hl. destruct (IH _ _ Hl) as (l' & r' & -> & Hs). exists (x :: l'), r'. split; [done|by constructor].
Qed.

(** Of a file evicted, another that had not left before it was used no less
    recently. *)
Definition older_first (before : gmap Path (Z * Z)) (evicted : list Path) : Prop :=
  forall l p v r, evicted = l ++ p :: r -> before !! p = Some v ->
    exists q v', q <> p /\ q ∉ l /\ before !! q = Some v' /\ fst v <= fst v'.

Lemma picked_older_first rng s target pos sim picked new disk :
  picks rng s target pos sim picked new -> older_first (tracked s) (fst <$> answered is_gone new disk).
Proof.
  intros Hp l p v r Hl Hv. apply fmap_app_inv in Hl as (l1 & l2 & -> & Hl2 & Hg).
  destruct l2 as [|[p' n] l2]; [done|]. injection Hl2 as -> ->. cbn [fst] in *.
  apply answered_split in Hg as (l' & r' & Hnew & Hsub).
  destruct (picks_older _ _ _ _ _ _ _ Hp _ _ _ _ Hnew) as (e & q & e' & He & He' & Hqp & Hle & _ & Hq).
  rewrite tracked_lookup, He in Hv. injection Hv as <-. exists q, (info e').
  rewrite tracked_lookup, He'. split_and!; [done| |done..]. intros Hin. apply Hq. eapply elem_of_sublist; [exact Hin|].
  by apply fmap_sublist.
Qed.

(** What the books hold after an eviction. *)
Lemma evict_within rng target ev :
  fair rng -> accounts ev -> sizes_fit (cache_state ev) -> 0 <= target -> total (cache_state ev) < 2 ^ 64 ->
  exists picked evicted ev',
    picks rng (cache_state ev) target (ev_pos ev) (total (cache_state ev)) ∅ picked /\
    evicted = fst <$> answered is_gone picked (ev_disk ev) /\
    enough (fun fuel => evict_to_target_size fuel rng target ev =
                        Some (total (cache_state ev) - total (cache_state ev'), ev')) /\
    tracked (cache_state ev') = without evicted (tracked (cache_state ev)) /\
    cache_size_bytes ev' = total (cache_state ev') /\
    (forall p, p ∈ ev_removed ev' -> p ∈ ev_removed ev \/ p ∈ evicted) /\
    ((forall r, r ∈ ev_disk ev -> r <> RemoveFailed) ->
      (cache_size_bytes ev' <= target \/ (size (tracked (cache_state ev')) < 2)%nat) /\
      forall l p v, evicted = l ++ [p] -> tracked (cache_state ev) !! p = Some v -> target < cache_size_bytes ev' + snd v) /\
    (forall p e, entries (cache_state ev) !! p = Some e ->
      (forall q e', entries (cache_state ev) !! q = Some e' -> q <> p -> access_time e' < access_time e) -> p ∉ evicted).
Proof.
  intros Hfair Ha Hfit Ht Hbig. pose proof (proj2 (nonneg_fit _) Hfit) as Hnn.
  destruct (evict_total rng target ev Hfair Ha) as (picked & ev' & Hp & He & Ha' & Ht' & Htot & _ & Hl).
  set (gone := answered is_gone picked (ev_disk ev)) in *.
  assert (Hsub : forall t, t ∈ gone -> t ∈ picked).
  { intros t Hin. eapply elem_of_sublist; [exact Hin|apply answered_sublist]. }
  assert (Hsz : cache_size_bytes ev = total (cache_state ev)).
  { rewrite (acc_size _ Ha). apply Z.mod_small. split; [by apply sum_sizes_nonneg|done]. }
  assert (Hfreed : 0 <= freed gone).
  { apply freed_nonneg. intros [q k] Hq. destruct (picks_tracked _ _ _ _ _ _ _ Hp q k) as (e & Hqe & <- & _); [auto|].
    by apply (Hfit q). }
  assert (Hsz' : cache_size_bytes ev' = total (cache_state ev')).
  { rewrite (acc_size _ Ha'). apply Z.mod_small. split; [|lia]. unfold total. rewrite Ht'.
    by apply sum_sizes_nonneg, nonneg_without. }
  exists picked, (fst <$> gone), ev'. rewrite Hsz in Hp. split; [done|]. split; [done|]. rewrite <- Hsz in Hp. split.
  { eapply enough_impl, He. cbn beta. intros f ->. do 2 f_equal. lia. }
  split; [done|]. split; [done|]. split; [|split].
  - intros p. rewrite Hl, elem_of_app, elem_of_rev. intros [Hin|Hin]; [right|by left].
    apply list_elem_of_fmap in Hin as (t & -> & Hin). apply list_elem_of_fmap. exists t. split; [done|].
    eapply answered_mono, Hin. by intros [].
  - intros Hok. assert (Hall : gone = picked).
    { apply answered_all; [|done]. intros r Hr. by destruct r; [..|destruct (Hok _ Hr)]. }
    rewrite Hall in *. rewrite Hsz'. split.
    + apply (evict_reaches _ _ _ _ _ _ _ _ (acc_wf _ Ha) Hp Hfit Ht Hsz Ht' Htot).
    + intros l p v Hlp Hv. destruct (fmap_app_inv fst picked l [p] Hlp) as (l1 & l2 & -> & Hl2 & Hpk). rewrite Hpk in *.
      destruct l2 as [|[p' k] [|]]; [done| |done]. injection Hl2 as ->. cbn [fst] in *.
      pose proof (picks_needed _ _ _ _ _ _ _ Hp Hfit Ht l1 _ [] eq_refl) as Hneed.
      destruct (picks_tracked _ _ _ _ _ _ _ Hp p' k) as (e & Hqe & <- & _); [apply elem_of_app; right; by left|].
      rewrite tracked_lookup, Hqe in Hv. injection Hv as <-. rewrite freed_app in Htot. cbn in *. lia.
  - intros p e Hpe Hnew Hin. apply (picks_spare_newest _ _ _ _ _ _ _ p e Hp Hpe Hnew).
    apply list_elem_of_fmap in Hin as (t & -> & Hin). apply list_elem_of_fmap. exists t. auto.
Qed.

Lemma nonneg_touch path n t m : 0 <= n -> nonneg m -> nonneg (<[path := (t, first_size path n m)]> m).
Proof.
  intros Hn Hm q v. destruct (decide (path = q)) as [<-|Hne].
  - rewrite lookup_insert_eq. intros [= <-]. cbn. unfold first_size.
    destruct (m !! path) as [[t' k]|] eqn:Hk; [by apply (Hm path (t', k))|done].
  - rewrite lookup_insert_ne by done. apply Hm.
Qed.

(** C25: a write noted by the evictor: the file joins the books with the size
    given, or keeps the one they had, and the time is its last use; then files
    leave them, and no other file's entry changes.  The handler returns what it
    freed.  Only files that left were removed from the disk.  While the budget
    holds nothing leaves.  Otherwise the files picked are those of [picks]: the
    next two of the generator's draws that are not picked yet are compared, the
    one used less recently is picked, and so on until the sizes left reach the
    target; those of them whose removal does not fail leave.  So another file
    that had not left yet was used no less recently than each file that leaves,
    and the written file stays if every other was used before it.  If no removal
    fails, the books end up within the budget or hold a single file, and the
    last eviction was needed: with that file the target was still exceeded. *)
Theorem write_within_budget (rng : nat -> nat) (path : Path) (n now : Z) (ev : Evictor)
    (Hfair : fair rng) (Ha : accounts ev) (Hn : 0 <= n) (Hfit : sizes_fit (cache_state ev)) :
  let before := <[path := (now, first_size path n (tracked (cache_state ev)))]> (tracked (cache_state ev)) in
  let noted := cache_state (touch path n now ev) in
  let max := max_cache_size_bytes ev in
  sum_sizes before < 2 ^ 64 ->
  exists picked evicted ev',
    enough (fun fuel => track_entry_accessed fuel rng path n now true ev =
                        Some (sum_sizes before - total (cache_state ev'), ev')) /\
    tracked noted = before /\
    tracked (cache_state ev') = without evicted before /\
    cache_size_bytes ev' = total (cache_state ev') /\
    (forall p, p ∈ ev_removed ev' -> p ∈ ev_removed ev \/ p ∈ evicted) /\
    evicted = fst <$> answered is_gone picked (ev_disk ev) /\
    (if sum_sizes before <=? max then picked = []
     else picks rng noted (target_of max) (ev_pos ev) (sum_sizes before) ∅ picked) /\
    older_first before evicted /\
    ((forall r, r ∈ ev_disk ev -> r <> RemoveFailed) ->
      (cache_size_bytes ev' <= Z.max max (target_of max) \/ (size (tracked (cache_state ev')) < 2)%nat) /\
      forall l p v, evicted = l ++ [p] -> before !! p = Some v -> target_of max < cache_size_bytes ev' + snd v) /\
    ((forall q v, q <> path -> before !! q = Some v -> fst v < now) -> is_Some (tracked (cache_state ev') !! path)).
Proof.
  intros before noted max Hbig. destruct (touch_spec path n now ev Ha) as (Ha1 & Ht & Hm & Hd & Hl).
  setoid_rewrite track_unfold. cbv zeta. unfold noted. set (ev1 := touch path n now ev) in *. fold before in Ht.
  assert (Hnn : nonneg before) by (apply nonneg_touch; [done|by apply nonneg_fit]).
  assert (Htot : total (cache_state ev1) = sum_sizes before) by (unfold total; by rewrite Ht).
  assert (Hsz : cache_size_bytes ev1 = sum_sizes before).
  { rewrite (acc_size _ Ha1), Htot. apply Z.mod_small. split; [by apply sum_sizes_nonneg|done]. }
  assert (Hat : before !! path = Some (now, first_size path n (tracked (cache_state ev)))) by apply lookup_insert_eq.
  rewrite Hm, Hsz. fold max. destruct (sum_sizes before <=? max) eqn:Hle; [|destruct (max <? sum_sizes before) eqn:Hgt; [|lia]].
  - apply Z.leb_le in Hle. exists [], [], ev1. rewrite without_nil, Htot, Ht, Hsz, Hl, Z.sub_diag, Hat.
    split; [by apply enough_always|]. do 3 (split; [done|]). split; [by left|]. do 2 (split; [done|]).
    split; [by intros []|]. split; [|by eexists].
    intros _. split; [left; lia|]. intros l p v Hlp. by destruct l.
  - cbn [andb]. destruct (evict_within rng (target_of max) ev1) as (picked & evicted & ev' & Hp & Hev & He & Ht' & Hsz' & Hrm & Hok & Hnew);
      [done..|by apply nonneg_fit; rewrite Ht|apply target_nonneg|by rewrite Htot|].
    rewrite Htot, Hl, Hd in *. rewrite (touch_pos path n now ev : ev_pos ev1 = _) in Hp.
    exists picked, evicted, ev'. rewrite Ht in Ht', Hok |- *. do 5 (split; [done|]). split; [done|]. split; [done|]. split.
    { rewrite Hev, <- Ht. by eapply picked_older_first. }
    split.
    + intros Hanswers. destruct (Hok Hanswers) as [Hreach Hneed]. split; [|done].
      destruct Hreach; [left; lia|by right].
    + intros Hold. rewrite Ht'. exists (now, first_size path n (tracked (cache_state ev))). apply without_lookup.
      split; [done|]. rewrite <- Ht, tracked_lookup in Hat.
      destruct (entries (cache_state ev1) !! path) as [e|] eqn:Hpe; [|done]. injection Hat as Hnow Hsize.
      apply (Hnew path e Hpe). intros q e' Hq Hqp. rewrite Hnow.
      apply (Hold q (info e') Hqp). by rewrite <- Ht, tracked_lookup, Hq.
Qed.

(** A rescan that finds only files already tracked corrects nothing while the
    budget holds: whatever lengths the files have now, and whichever tracked
    files it no longer finds, every tracked file keeps its size and the counter
    its sum. *)
Lemma scan_blind fuel rng found ev :
  accounts ev -> cache_size_bytes ev <= max_cache_size_bytes ev ->
  (forall p m, (p, m) ∈ found -> is_Some (tracked (cache_state ev) !! p)) ->
  exists ev', scan_entries fuel rng found true ev = Some ev' /\
    snd <$> tracked (cache_state ev') = snd <$> tracked (cache_state ev) /\
    cache_size_bytes ev' = cache_size_bytes ev /\ ev_removed ev' = ev_removed ev.
Proof.
  intros Ha Hle. assert (Hgen : forall ev1, accounts ev1 -> cache_size_bytes ev1 = cache_size_bytes ev ->
    max_cache_size_bytes ev1 = max_cache_size_bytes ev -> ev_removed ev1 = ev_removed ev ->
    snd <$> tracked (cache_state ev1) = snd <$> tracked (cache_state ev) ->
    (forall p m, (p, m) ∈ found -> is_Some (tracked (cache_state ev) !! p)) ->
    exists ev', scan_entries fuel rng found true ev1 = Some ev' /\
      snd <$> tracked (cache_state ev') = snd <$> tracked (cache_state ev) /\
      cache_size_bytes ev' = cache_size_bytes ev /\ ev_removed ev' = ev_removed ev); [|by apply Hgen].
  induction found as [|[p [[len atime]|]] found IH]; intros ev1 Ha1 Hs1 Hm1 Hr1 Ht1 Hin; cbn [scan_entries].
  - by exists ev1.
  - destruct (touch_spec p len atime ev1 Ha1) as (Ha2 & Ht2 & Hm2 & _ & Hr2).
    destruct (Hin p (Some (len, atime))) as [v Hv]; [by left|].
    assert (Hk : (snd <$> tracked (cache_state ev1)) !! p = Some (snd v)) by by rewrite Ht1, lookup_fmap, Hv.
    rewrite lookup_fmap in Hk. destruct (tracked (cache_state ev1) !! p) as [[t k]|] eqn:Hp; [|done]. injection Hk as Hk.
    assert (Ht3 : snd <$> tracked (cache_state (touch p len atime ev1)) = snd <$> tracked (cache_state ev1)).
    { rewrite Ht2, fmap_insert. unfold first_size. rewrite Hp. cbn. apply insert_id. by rewrite lookup_fmap, Hp. }
    assert (Hs2 : cache_size_bytes (touch p len atime ev1) = cache_size_bytes ev1).
    { rewrite (acc_size _ Ha2), (acc_size _ Ha1). unfold total. rewrite Ht2. unfold first_size. rewrite Hp.
      by rewrite (sum_sizes_touch _ t). }
    rewrite track_unfold. cbv zeta. rewrite Hm2, Hs2, Hs1, Hm1, (proj2 (Z.leb_le _ _) Hle).
    apply IH; [done|congruence..| |]. { by rewrite Ht3. } intros q m Hq. apply (Hin q m). by right.
  - apply IH; [done..|]. intros q m Hq. apply (Hin q m). by right.
Qed.

End evictor.

(** ** Samples *)

(** Counting upwards comes by every remainder again and again. *)
Lemma counting_fair : fair (fun k => k).
Proof.
  intros pos n i Hi. exists (pos * n + i)%nat. split; [nia|]. unfold random_range.
  rewrite Nat.add_comm, Nat.Div0.mod_add. by apply Nat.mod_small.
Qed.

(** Three files of 40 bytes in a budget of 100: the third write evicts the
    oldest, and nine tenths hold again. *)
Definition sample_writes : list (EvictorOp (Path := nat)) :=
  [Access 1%nat (AccessWrite 40) 10 []; Access 2%nat (AccessWrite 40) 20 []; Access 1%nat (AccessRead 7) 30 [];
   Access 3%nat (AccessWrite 40) 40 []].

Example sample_run : option_map (fun ev => (keys (cache_state ev), cache_size_bytes ev, ev_removed ev))
  (evictor_run 9 (fun k => k) sample_writes (new_evictor 100 [])) = Some ([1%nat; 3%nat], 80, [2%nat]).
Proof. vm_compute. reflexivity. Qed.

Example target_of_default : target_of 34359738368 = 30923764531 /\ target_of 1000 = 900 /\ target_of u64_max = 16602069666338596864.
Proof. vm_compute. done. Qed.

Lemma evictor_accounts_witness : exists ev,
  enough (fun fuel => evictor_run fuel (fun k => k) sample_writes (new_evictor 100 []) = Some ev) /\
  wf (cache_state ev) /\ NoDup (keys (cache_state ev)) /\
  length (keys (cache_state ev)) = size (tracked (cache_state ev)) /\
  cache_size_bytes ev = wrap 64 (total (cache_state ev)) /\
  (0 <= total (cache_state ev) < 2 ^ 64 -> cache_size_bytes ev = total (cache_state ev)).
Proof. apply (evictor_accounts (fun k => k) sample_writes 100 []). exact counting_fair. Defined.

(** Two files of 60 bytes in a budget of 100, the second being written. *)
Definition sample_full : Evictor (Path := nat) := touch 1%nat 60 10 (new_evictor 100 [Gone]).

Lemma sample_full_ok : accounts sample_full /\ sizes_fit (cache_state sample_full).
Proof.
  split; [apply touch_spec, new_evictor_accounts|].
  apply nonneg_fit. unfold sample_full. destruct (touch_spec 1%nat 60 10 _ (new_evictor_accounts 100 [Gone])) as (_ & -> & _).
  apply nonneg_touch; [done|]. intros p v. cbn. by rewrite lookup_fmap, lookup_empty.
Qed.

Lemma write_within_budget_witness : exists evicted ev',
  enough (fun fuel => track_entry_accessed fuel (fun k => k) 2%nat 60 20 true sample_full =
                      Some (120 - total (cache_state ev'), ev')) /\
  tracked (cache_state ev') = without evicted (<[2%nat := (20, 60)]> (tracked (cache_state sample_full))) /\
  (cache_size_bytes ev' <= Z.max 100 (target_of 100) \/ (size (tracked (cache_state ev')) < 2)%nat) /\
  older_first (<[2%nat := (20, 60)]> (tracked (cache_state sample_full))) evicted /\
  is_Some (tracked (cache_state ev') !! 2%nat).
Proof.
  destruct (write_within_budget (fun k => k) 2%nat 60 20 sample_full counting_fair (proj1 sample_full_ok)
    ltac:(lia) (proj2 sample_full_ok) ltac:(vm_compute; reflexivity)) as (_ & evicted & ev' & He & _ & Ht & _ & _ & _ & _ & Ho & Hr & Hn).
  exists evicted, ev'. split; [exact He|]. split; [exact Ht|]. split.
  - apply Hr. intros r. cbn. intros Hr'. apply list_elem_of_singleton in Hr' as ->. done.
  - split; [exact Ho|]. apply Hn. intros q v Hq. rewrite lookup_insert_ne by congruence. unfold sample_full.
    rewrite (proj1 (proj2 (touch_spec 1%nat 60 10 _ (new_evictor_accounts 100 [Gone])))).
    intros [[<- <-]|[_ Hv]]%lookup_insert_Some; [done|]. rewrite tracked_lookup in Hv. discriminate Hv.
Defined.
